(* ===== verification/_CoqProject ===== *)
-Q . S2P
Prelude.v
Text.v
Order.v
Wire.v
Session.v
Stream.v
Sse.v
ToolTypes.v
Prompt.v
Fallback.v
Consent.v
ToolBus.v
Context.v
Assembly.v
Provider.v
Selection.v
Reconcile.v
Agent.v
Turn.v
TurnSafety.v
Recovery.v
Adoption.v
PromptPolicy.v
Canonical.v
CacheKey.v
PromptTurn.v
Loaders.v
LoaderFacts.v
Compression.v
CompressionFacts.v
Retention.v
Compaction.v
CompactionFacts.v
Manifest.v
IpcApi.v
Framing.v
Control.v
ControlSpec.v
ControlRefine.v
ControlSafety.v
ControlDemo.v
Server.v
Helper.v
HelperDemo.v
Search.v
TaskDag.v
TaskDagFacts.v
TaskPaths.v
TaskTopo.v
TaskSafety.v
TaskDemo.v
TaskViews.v
ObjectStore.v
StoreFacts.v
HistoryFacts.v
Branches.v
Bindings.v
BranchFacts.v
PendingLog.v
PendingFacts.v
ContextTree.v
TreeFacts.v
PendingHost.v
Merge.v
MergeFacts.v
GcFacts.v
Compiler.v
CompilerFacts.v
TaskFence.v
SessionDemo.v
CompilerDemo.v
SessionCases.v
McpTypes.v
McpFrame.v
McpJson.v
McpClient.v
McpAdapter.v
McpFacts.v
McpAdapterFacts.v
McpDemo.v
