(* ===== verification/Prelude.v ===== *)
(** * A verification development of the bitty-ai agent runtime

    The program is [crates/bitty-ai-runtime], the deterministic core of
    bitty-ai: a single-agent turn loop that sends a bounded context to a model
    provider, gates and dispatches the tool calls the model requests, streams
    the answer, and reconciles effects whose outcome is uncertain; and
    [crates/bitty-ai-control], the helper process that publishes provider routing
    to the Core under an authority it must establish and may lose; the session store
    [crates/bitty-ai-session], where agents keep their history; the client
    [crates/bitty-ai-mcp], through which tools of other servers are imported and called;
    and, of [crates/bitty-ai-slice], the task engine, the executor that records effects,
    context trees, merging and garbage collection.  Files named below are under
    [src/crates/bitty-ai-runtime/src/] unless they are introduced as files of
    another crate.

    ** How the parts interact

    [agent.rs] owns one [ToolBus] ([tool.rs]), one [AgentSession]
    ([session.rs]) and one [ArtifactStore] ([context.rs]).  A turn assembles
    seed records within a byte budget ([context.rs]), then loops: contact the
    provider ([provider.rs]), charge the cost fuse ([selection.rs]), stream the
    text ([stream.rs]), gate the requested calls by allow-set, prompt
    ([prompt.rs]), authorizer and consent ledger ([bridge.rs]), dispatch them,
    record the results.  Lost acknowledgements are carried to the next turn and
    settled through the reconciler ([reconcile.rs]).  Provider streams arrive
    through the SSE parser ([sse.rs]); other writers are fenced by leases
    ([fencing.rs]).

    In the control crate, [entrypoint.rs] reads one launch manifest
    ([manifest.rs]), accepts one pinned TLS session ([server.rs]) and drives the
    state machine of [state.rs], which exchanges framed records ([framing.rs])
    with the Core and reads a registry ([control_registry.rs]).

    The session store keeps blobs, checkpoints and references under their digests
    ([content_store.rs]); [session_refs.rs] moves branches and logs every move;
    [sessions.rs] binds sessions to branches under epochs; [pending.rs] logs the calls in
    flight.  Over it, the executor of [pending_host.rs] opens a row before each effect
    and closes it after, and [merge.rs] merges the trees of [context_compiler.rs] into
    checkpoints, fenced by the generations of the task engine, and collects what neither
    references, recent moves nor open calls need; [context_compiler.rs] also compiles a
    task, its checkpoints and a tree into the prompt of a turn.

    The MCP client reads newline-delimited frames ([frame.rs]) and takes fields out of
    them without a parser ([json.rs]); over a line transport it negotiates
    ([handshake.rs]), lists and imports tools ([tools.rs]) and calls them ([call.rs]).  The
    adapter of [bridge.rs] is a tool executor of the runtime: it gates every call and
    denies all of them while its tool list is stale.

    ** Files

    - [Prelude]: results with the [?] operator, machine integers written out at
      their width, lists, stable sorting, tactics and the [runtime] hint and
      rewrite databases.
    - [Text]: Rust strings as byte strings, UTF-8 validity and lossy decoding,
      ASCII classes, trimming, decimal parsing.
    - [Order]: the class [RustOrd] ([Ord]), sorting by key, [sort] + [dedup].
    - [Wire]: fixed-width integers in both byte orders, [Read] and [Write] as the
      sequences of answers their calls will give.
    - [Session]: [session.rs] and [fencing.rs].  An [AgentSession] is an [Rc]
      over cells, so one record per session and [SessionOp], the operations any
      holder of the handle can perform, as a transition system.
    - [Stream]: [stream.rs], sinks behind the class [StreamSink] with its laws.
    - [Sse]: [sse.rs], the incremental parser byte by byte.
    - [ToolTypes]: the data of [tool.rs] (errors, declarations, registry,
      statuses, audit rows, digests) and [bound_reason] of [bridge.rs].
    - [Fallback]: [fallback.rs], the minimal envelope and its wire form.
    - [Prompt]: [prompt.rs] without its declarative loaders: validation, merging,
      canonical rendering, dispatch gate; [PromptPolicy], [Canonical],
      [PromptTurn]: theorems about it, its bytes, and turns under it.  [Loaders]: the
      loaders of project files and skill registries; [LoaderFacts]: their theorems.
    - [Consent]: [bridge.rs], protocol identities, the identity bridge, the
      class [ConsentLedger], the fake ledger and turn-scoped grants.
    - [ToolBus]: the dispatch boundary of [tool.rs] over an arbitrary executor.
    - [Context]: the data and the artifact store of [context.rs]; [Assembly]:
      its assembly pipeline.
    - [Provider]: the provider seam of [provider.rs] without sampling, routing
      cost of [selection.rs].
    - [Selection]: [selection.rs], the model registry, routing and fallback
      directives.
    - [Reconcile]: [reconcile.rs]; [Agent]: [agent.rs] as executable functions.
    - [Turn]: [run_turn] as a state machine; [TurnSafety], [Recovery]: theorems
      about turns, reconciliation and the agent's whole life.
    - [Adoption]: [adoption.rs], the rule for adopting a crashed agent's records.
    - [CacheKey]: [cache_key.rs] and [fingerprint.rs].
    - [Compression]: the first half of [compression.rs], retention, breakpoints,
      the compression core over an arbitrary summariser and the compressed view;
      [CompressionFacts], [Retention]: theorems about it and about views over
      time.  [Compaction]: the driver, its policy and dry run; [CompactionFacts].
    - Control crate: [Manifest] is [manifest.rs]; [IpcApi] the interface to the
      record contract of [bitty-ipc-api], with its documented rules as laws and a
      table instance; [Framing] is [framing.rs]; [Control] is [state.rs] and
      [control_registry.rs], in a state and error monad; [ControlSpec] the abstract
      publication machine; [ControlRefine], [ControlSafety]: the refinement and
      the theorems about every run; [Server] is [server.rs] over an interface to
      [rustls]; [Helper] is [entrypoint.rs]; [ControlDemo], [HelperDemo]: runs.
    - Slice crate: [TaskDag] is the engine of [task_dag.rs] over its two tables;
      [TaskDagFacts]: its invariant and the cascades; [TaskPaths]: the graph search;
      [TaskTopo]: the topological order; [TaskSafety]: the theorems about every
      history; [TaskDemo]: a history; [TaskViews]: views with dependencies and review
      approvals.
    - Session crate: [Search]: the worklist argument of every graph search;
      [ObjectStore] is [content_store.rs] over the class [ContentApi] with its laws;
      [StoreFacts], [HistoryFacts]: its invariant, its log and merge base; [Branches] is
      [session_refs.rs], [BranchFacts] its theorems; [Bindings] is [sessions.rs];
      [PendingLog] is [pending.rs], [PendingFacts] its refinement of a log of entries.
    - Slice crate over the session crate: [PendingHost] is [pending_host.rs];
      [ContextTree] the trees of [context_compiler.rs], [TreeFacts] their theorems;
      [Merge] is [merge.rs]; [MergeFacts], [GcFacts]: merging, collection, and the whole
      history of a store; [TaskFence]: the task engine behind the generation fence;
      [SessionDemo], [SessionCases]: runs, and boundary cases the code gets wrong.
      [Compiler]: the zones of [context_compiler.rs]; [CompilerFacts], [CompilerDemo]:
      their theorems and runs.
    - MCP crate: [McpTypes] is [error.rs] and [config.rs], [McpFrame] is [frame.rs],
      [McpJson] is [json.rs], [McpClient] is [handshake.rs], [tools.rs] and [call.rs],
      [McpAdapter] is [bridge.rs]; [McpFacts], [McpAdapterFacts]: their theorems;
      [McpDemo]: runs, and frames that the client gets wrong.

    ** What is shown

    - Session, fencing: the reachable states, terminal states absorb every
      operation, no authority without a grant, a takeover retires every lease.
    - Tool bus: complete mediation of the executor, complete audit, scrubbed
      text, per-turn limits over every history, whole-batch admission.
    - Consent: the ledger refines a finite map from exact triples to expiries.
    - Context: the store's invariant over every history, round trip, final
      deletion; assembly is atomic, accounts for every record, stays within the
      budget, is lossless and ordered, and untrusted records evict nothing.
    - Streams: lossless fragmentation, continuous numbering, the bounded sink
      refines the unbounded one; the SSE parser does not depend on chunking, is
      bounded, and round trips with an encoder.
    - Turns: they return, contact the provider at most [max_rounds] times, run
      only permitted tools, report outcomes that agree with the session and the
      records, and never forget an uncertain effect; reconciliation is bounded
      and settles exactly its effect; the agent's invariant holds over every
      history of its operations.

    - Prompts: assembly only narrows, does not depend on layer order, resolves
      directives by precedence with a complete audit, returns well-formed prompts
      whose canonical bytes determine them; a turn runs only tools every layer
      permits.  Loaders: admission of paths is exact, the text of a file is inert, the
      merge of files and skills is exact and independent of their order, a denial in one
      file binds every prompt.  Cache keys address exactly the stable head, fingerprints the whole
      input.
    - Compression: breakpoints are greedy and whole-record; a view accounts for
      every record, launders neither trust nor priority nor retention and passes the
      checks of assembly; deletion reaches every summary, no summary outlives a
      source; the window, the pass and the preview are exact, and a compacted view
      is never compacted again.
    - Selection: the registry's invariant over every history, exact and
      order-independent routing, the cost ceiling bounds what is charged.
    - Adoption: the check decides its declarative rule, and the records of every
      failed agent satisfy it.  Fallback: the wire form is a bijection, scrubbing
      is total and exact.

    - Control: manifests have one wire form; reading a frame depends on the
      delivered bytes only, written records are read back in order, queues and
      allocations are bounded; the helper refines the abstract machine with its
      records on the wire; failures revoke and clear; a receipt has its publish,
      bind and registry confirmation behind it; invalidation precedes mutation;
      the handshake is bounded and pinned; the process ends, and with exit code
      zero only after a whole launch.
    - Tasks: the graph stays acyclic and readiness exact over every history; an edge
      is refused exactly for a cycle; no task waits without one to act on; reports
      are fenced by generation; giving up blocks what depends on it; success is
      final; the topological order exists, is greedy, hence unique.
    - Store: over every history of writes, branch moves, merges, prunes and complete
      collections each row is found under its digest, references, parents and trees
      exist, and the reflog tells where every branch is or went; searches return, the
      strict merge base is the greatest common ancestor.
    - Merging: trees round trip, the three-way merge is a declarative reference, a merge
      commit is all or nothing.  Collection keeps everything that is needed, counts what
      it removes, and is exact when complete.
    - Pending calls: the tables refine a log of entries within the caps; a call is closed
      once, under its fence; the delegate runs only while its row is open, and an unknown
      outcome leaves it open.  Sessions: the epoch only rises.
    - Compiled contexts: the prefix is trusted, stable and bounded, the size is accounted
      exactly, the reductions keep the task, the checkpoints and the pinned slots, the
      fenced tail is read back whatever it holds, claims resolve against the store alone.
      Reviews: an approval is issued exactly for independent reviewers with evidence.
    - MCP: reading frames does not depend on how the stream is cut; escaped strings are
      read back; what the client writes is one frame each, calls when their arguments
      are; a wait ends, answers requests of the peer with nothing of theirs but the id,
      and returns only the response asked for; the outcome of a call never claims more
      than was answered; the adapter mediates every call, imports exactly the allow-list
      under the pinned protocol, and is stale until a successful re-list.  The client
      panics only on frames named [hostile] and never hangs.

    ** Modelling choices

    - A host call returns the next host world, the operations it performed on
      the shared session handle, and its answer; nothing else is assumed of the
      host unless a theorem names a class ([ContactMeter], [ExecutionLog],
      [AgentFinishes], [QueryLog]), and the crate's own fakes are instances.
      Hooks (authorizer, ledger) read the world and do not change it.
    - [u32], [u64] and [usize] (64 bits) are [Z]; wrapping, saturating and
      checked operations are written out.  A Rust [String] is a byte string;
      where validity matters it is the hypothesis [is_str].
    - Fuel: the loop of [run_turn] gets [max_rounds + 1] iterations, and
      [run_turn_returns] shows that it never runs out; the query loop gets the
      effective retry budget, [feed] one more than the buffered bytes, fragmentation
      one per byte of text, the layout of a compressed view one more than the
      records.  Each is shown to be enough by the theorem about it.
    - In a turn [Panicked] stands for the one panic there is: the id counter at
      [u64::MAX].
    - The record codec, the TLS connection, the registry and the random source of
      the control crate are classes; every call may move the state behind them.
      The read loop of a manifest gets one iteration per byte and answer, the
      handshake's write loop one per byte of budget, the helper's loop one per
      delivered byte; the theorems about them show that this is enough.
    - A statement of the task engine is the query or update it names on the tables;
      rows without [ORDER BY] come in an unspecified order.  The searches get one
      iteration per edge or task and two more, which their theorems show is enough.
    - SHA-256, hexadecimal rendering and the JSON of a rationale are the class
      [ContentApi]; [ContentLaws] asks that a digest has 32 bytes, that the rendering is
      lower-case and injective, and that the JSON is injective; that the digest has no
      collisions is not assumed.  The runs instantiate it with a toy digest.  A transaction is one step, and the store's failures other than those
      the code decides itself are left out.  Columns are [i64]: [as i64] wraps, and is
      read back as the source reads it.
    - The order in which a [HashSet] is iterated is unspecified; here it is that of
      [elements], and no theorem depends on it.
    - The searches over checkpoints get one iteration per parent link and two more
      ([all_links], [reach_fuel]), the walk of nested trees one per stored byte
      ([tree_fuel]), the decoder of trees one per byte, minting 1024
      attempts; the theorems about them show that this is enough.

    - The peer of the MCP client is the sequence of answers its receives will give, each
      with the time it takes; the clock moves only there, and past the end the peer is
      silent.  A wait gets one iteration per answer, one per longest poll up to the
      deadline, and two more.  Slices of a [str] that do not end at a character boundary
      are [Panicked].

    ** Not modelled

    Extension records (trait declarations and data), sampling parameters (floating
    point), secrets; [Display] and [Debug] text; database failures, opening, locking and
    schema admission of the task engine and the session store; the rest of the slice crate
    (prototype harness, live hosts); the process and HTTP transports of the MCP client; and
    the other crates (host services, endpoint), which are registries and snapshots over the
    runtime and provider bindings over network clients. *)

From stdpp Require Export base list sorting strings pretty numbers decidable relations.
From Stdlib Require Export ZArith Lia.

#[export] Set Default Goal Selector "!".

(** ** Results

    [Result<T, E>] of the source. *)

Inductive result (A E : Type) : Type :=
| Ok (a : A)
| Err (e : E).

Arguments Ok {A E} a.
Arguments Err {A E} e.

Definition is_ok {A E} (r : result A E) : bool :=
  match r with Ok _ => true | Err _ => false end.

(** [Result::map_err] *)
Definition map_err {A E F} (f : E → F) (r : result A E) : result A F :=
  match r with Ok a => Ok a | Err e => Err (f e) end.

#[export] Instance result_eq_dec {A E} `{EqDecision A, EqDecision E} : EqDecision (result A E).
Proof. solve_decision. Defined.

(** The [?] operator: [try! x := e in k] returns early with the error of [e].
    [ensure! c else e in k] is the guard [if !c { return Err(e) }]. *)
Declare Scope rust_scope.
Delimit Scope rust_scope with rust.

Notation "'try!' x := e 'in' k" :=
  (match e with Ok x => k | Err err => Err err end)
  (at level 10, x pattern, e at level 99, k at level 200) : rust_scope.

Notation "'ensure!' c 'else' e 'in' k" :=
  (if c then k else Err e)
  (at level 10, c at level 99, e at level 99, k at level 200) : rust_scope.

(** A computation that can also panic or, in the model only, run out of the
    fuel its loop was given. *)
Inductive run (A : Type) : Type :=
| Returned (a : A)
| Panicked
| OutOfFuel.

Arguments Returned {A} a.
Arguments Panicked {A}.
Arguments OutOfFuel {A}.

(** ** Machine integers

    A [u32], [u64] or [usize] is a [Z]; the operations the source uses are
    written out at their width ([usize] is 64 bits wide). *)

Definition u32_max : Z := 2 ^ 32 - 1.
Definition u64_max : Z := 2 ^ 64 - 1.

Definition is_u32 (n : Z) : Prop := (0 ≤ n ≤ u32_max)%Z.
Definition is_u64 (n : Z) : Prop := (0 ≤ n ≤ u64_max)%Z.

(** Plain [+] on [u64] in a release build: wraps. *)
Definition wrapping_add64 (a b : Z) : Z := ((a + b) mod 2 ^ 64)%Z.
Definition wrapping_mul64 (a b : Z) : Z := ((a * b) mod 2 ^ 64)%Z.
Definition saturating_add64 (a b : Z) : Z := Z.min (a + b) u64_max.
Definition saturating_mul64 (a b : Z) : Z := Z.min (a * b) u64_max.
Definition checked_add64 (a b : Z) : option Z :=
  if (a + b <=? u64_max)%Z then Some (a + b)%Z else None.
Definition checked_add32 (a b : Z) : option Z :=
  if (a + b <=? u32_max)%Z then Some (a + b)%Z else None.

(** [len()] of a [Vec] or slice. *)
Definition len {A} (l : list A) : Z := Z.of_nat (length l).

Definition sum_Z (l : list Z) : Z := foldr Z.add 0%Z l.

(** [u64::to_string] and [usize::to_string]. *)
Definition show (n : Z) : string := pretty (Z.to_N n).

(** [slice::sort_by_key], a stable sort: [le] compares the keys. *)
Fixpoint insert_by {A} (le : A → A → bool) (x : A) (l : list A) : list A :=
  match l with
  | [] => [x]
  | y :: l => if le x y then x :: y :: l else y :: insert_by le x l
  end.

Definition sort_by {A} (le : A → A → bool) (l : list A) : list A := foldr (insert_by le) [] l.

(** ** Automation *)

Create HintDb runtime.
Create Rewrite HintDb runtime.

Ltac case_if :=
  match goal with
  | |- context [if ?c then _ else _] => destruct c eqn:?
  end.

Ltac case_if_in H :=
  match type of H with
  | context [if ?c then _ else _] => destruct c eqn:?
  end.

(** Boolean comparisons and connectives to propositions, everywhere. *)
Ltac reflect_bools :=
  repeat match goal with
  | H : (_ && _)%bool = true |- _ => apply andb_true_iff in H; destruct H
  | H : (_ || _)%bool = false |- _ => apply orb_false_iff in H; destruct H
  | H : negb _ = true |- _ => apply negb_true_iff in H
  | H : negb _ = false |- _ => apply negb_false_iff in H
  | H : (_ <? _)%Z = true |- _ => apply Z.ltb_lt in H
  | H : (_ <? _)%Z = false |- _ => apply Z.ltb_ge in H
  | H : (_ <=? _)%Z = true |- _ => apply Z.leb_le in H
  | H : (_ <=? _)%Z = false |- _ => apply Z.leb_gt in H
  | H : (_ >? _)%Z = true |- _ => rewrite Z.gtb_ltb in H; apply Z.ltb_lt in H
  | H : (_ >? _)%Z = false |- _ => rewrite Z.gtb_ltb in H; apply Z.ltb_ge in H
  | H : (_ >=? _)%Z = true |- _ => rewrite Z.geb_leb in H; apply Z.leb_le in H
  | H : (_ >=? _)%Z = false |- _ => rewrite Z.geb_leb in H; apply Z.leb_gt in H
  | H : (_ =? _)%Z = true |- _ => apply Z.eqb_eq in H
  | H : (_ =? _)%Z = false |- _ => apply Z.eqb_neq in H
  | H : bool_decide _ = true |- _ => apply bool_decide_eq_true in H
  | H : bool_decide _ = false |- _ => apply bool_decide_eq_false in H
  end.

(** Case analysis on every [match] and [if] of a hypothesis that states what a
    definition returned, closing the branches whose result has another shape. *)
Ltac break_in H :=
  repeat match type of H with
  | context [match ?x with _ => _ end] => destruct x eqn:?; simplify_eq
  end; simplify_eq.

Ltac break :=
  repeat match goal with
  | |- context [match ?x with _ => _ end] => destruct x eqn:?
  end.

(** ** Shared lemmas *)

Section Lists.
Context {A : Type}.
Implicit Types (l k : list A).
Local Open Scope Z_scope.

Lemma len_nil : len (@nil A) = 0.
Proof. reflexivity. Qed.

Lemma len_cons x l : len (x :: l) = 1 + len l.
Proof. unfold len. simpl length. lia. Qed.

Lemma len_app l k : len (l ++ k) = len l + len k.
Proof. unfold len. rewrite length_app. lia. Qed.

Lemma len_nonneg l : 0 ≤ len l.
Proof. unfold len. lia. Qed.

Lemma len_zero l : len l = 0 → l = [].
Proof. destruct l; [done|]. rewrite len_cons. pose proof (len_nonneg l). lia. Qed.

Lemma head_drop i l : head (drop i l) = l !! i.
Proof. revert i. induction l as [|x l IH]; intros [|i]; simpl; try done. Qed.

Lemma tail_drop i l : tail (drop i l) = drop (S i) l.
Proof. revert i. induction l as [|x l IH]; intros [|i]; simpl; try done; apply IH. Qed.

Lemma existsb_false_iff (f : A → bool) l :
  existsb f l = false ↔ ∀ x, x ∈ l → f x = false.
Proof.
  induction l as [|y l IH]; simpl.
  - split; [|done]. intros _ x Hx. by apply elem_of_nil in Hx.
  - rewrite orb_false_iff, IH. split.
    + intros [Hy Hl] x [->|Hx]%elem_of_cons; auto.
    + intros H. split; [apply H; constructor|]. intros x Hx. apply H. by constructor.
Qed.

Lemma existsb_true_iff (f : A → bool) l :
  existsb f l = true ↔ ∃ x, x ∈ l ∧ f x = true.
Proof.
  rewrite existsb_exists. setoid_rewrite <- list_elem_of_In. done.
Qed.

Lemma find_Some_elem (f : A → bool) l x :
  find f l = Some x → x ∈ l ∧ f x = true.
Proof. intros H. apply find_some in H as [Hin Hf]. by apply list_elem_of_In in Hin. Qed.

Lemma find_None_iff (f : A → bool) l :
  find f l = None ↔ ∀ x, x ∈ l → f x = false.
Proof.
  split.
  - intros H x Hx. apply list_elem_of_In in Hx. by eapply find_none.
  - induction l as [|y l IH]; simpl; [done|]. intros H.
    rewrite (H y) by constructor. apply IH. intros x Hx. apply H. by constructor.
Qed.

Lemma len_filter_le (f : A → bool) l : len (List.filter f l) ≤ len l.
Proof. unfold len. pose proof (List.filter_length_le f l). lia. Qed.

Lemma Forall_List_filter (P : A → Prop) (f : A → bool) l :
  Forall P l → Forall P (List.filter f l).
Proof.
  induction 1 as [|x l Hx Hl IH]; simpl; [constructor|]. destruct (f x); [by constructor|done].
Qed.

Lemma filter_all_false (f : A → bool) l :
  (∀ x, x ∈ l → f x = false) → List.filter f l = [].
Proof.
  induction l as [|x l IH]; simpl; intros H; [done|].
  rewrite H by constructor. apply IH. intros y Hy. apply H. by constructor.
Qed.

Lemma sublist_List_filter (f : A → bool) l : List.filter f l `sublist_of` l.
Proof. induction l as [|x l IH]; simpl; [done|]. destruct (f x); by constructor. Qed.

Lemma sublist_map {B} (g : A → B) k l : k `sublist_of` l → map g k `sublist_of` map g l.
Proof. induction 1; simpl; by constructor. Qed.

Lemma NoDup_map_filter {B} (g : A → B) (f : A → bool) l :
  NoDup (map g l) → NoDup (map g (List.filter f l)).
Proof.
  induction l as [|x l IH]; simpl; intros H; [done|].
  inversion H as [|? ? Hn Hnd]; subst. destruct (f x); simpl; [|by apply IH].
  constructor; [|by apply IH]. intros Hin. apply Hn.
  apply list_elem_of_fmap in Hin as (y & -> & Hy). apply list_elem_of_fmap. exists y. split; [done|].
  apply list_elem_of_In. apply list_elem_of_In, List.filter_In in Hy. by destruct Hy.
Qed.

Lemma List_filter_elem (f : A → bool) l x : x ∈ List.filter f l ↔ x ∈ l ∧ f x = true.
Proof. by rewrite !list_elem_of_In, filter_In. Qed.

Lemma sublist_elem k l x : k `sublist_of` l → x ∈ k → x ∈ l.
Proof. intros H. by apply sublist_subseteq in H; apply H. Qed.

Lemma NoDup_map_eq {B} (f : A → B) l x y :
  NoDup (map f l) → x ∈ l → y ∈ l → f x = f y → x = y.
Proof.
  intros Hn Hx Hy Heq. apply list_elem_of_lookup in Hx as [i Hi], Hy as [j Hj].
  assert (i = j) as ->; [|congruence].
  eapply (NoDup_lookup (f <$> l)); [exact Hn| |]; rewrite list_lookup_fmap.
  - by rewrite Hi.
  - by rewrite Hj, Heq.
Qed.

End Lists.

(** The stable sort: a sorted permutation. *)
Section Sorting.
Context {A : Type} (le : A → A → bool).
Context (le_total : ∀ x y, le x y = false → le y x = true).
Context (le_trans : ∀ x y z, le x y = true → le y z = true → le x z = true).

Lemma insert_by_perm x l : insert_by le x l ≡ₚ x :: l.
Proof.
  induction l as [|y l IH]; simpl; [done|]. destruct (le x y); [done|].
  rewrite IH. constructor.
Qed.

Lemma sort_by_perm l : sort_by le l ≡ₚ l.
Proof. induction l as [|x l IH]; simpl; [done|]. by rewrite insert_by_perm, IH. Qed.

Lemma insert_by_sorted x l :
  StronglySorted (λ a b, le a b = true) l →
  StronglySorted (λ a b, le a b = true) (insert_by le x l).
Proof.
  induction 1 as [|y l Hl IH Hy]; simpl; [by repeat constructor|].
  destruct (le x y) eqn:E.
  - constructor; [by constructor|]. constructor; [done|].
    eapply Forall_impl; [exact Hy|]. intros z Hz. by eapply le_trans.
  - constructor; [done|]. rewrite insert_by_perm. constructor; [by apply le_total|done].
Qed.

Lemma sort_by_sorted l : StronglySorted (λ a b, le a b = true) (sort_by le l).
Proof. induction l as [|x l IH]; simpl; [constructor|]. by apply insert_by_sorted. Qed.

End Sorting.

Section Integers.
Local Open Scope Z_scope.

Lemma sum_Z_app k l : sum_Z (k ++ l) = sum_Z k + sum_Z l.
Proof. induction k as [|x k IH]; simpl; [done|]. rewrite IH. lia. Qed.

Lemma sum_Z_perm k l : k ≡ₚ l → sum_Z k = sum_Z l.
Proof. induction 1; simpl; lia. Qed.

Lemma sum_Z_nonneg l : Forall (λ x, 0 ≤ x) l → 0 ≤ sum_Z l.
Proof. induction 1; simpl; lia. Qed.

Lemma saturating_add64_bounds a b :
  is_u64 a → is_u64 b → a ≤ saturating_add64 a b ≤ u64_max.
Proof. unfold is_u64, saturating_add64. lia. Qed.

Lemma saturating_mul64_bounds a b :
  is_u64 a → is_u64 b → is_u64 (saturating_mul64 a b).
Proof. unfold is_u64, saturating_mul64. nia. Qed.

Lemma wrapping_add64_small a b :
  0 ≤ a + b ≤ u64_max → wrapping_add64 a b = a + b.
Proof. unfold wrapping_add64, u64_max. intros H. apply Z.mod_small. lia. Qed.

Lemma wrapping_add64_u64 a b : is_u64 (wrapping_add64 a b).
Proof.
  unfold is_u64, wrapping_add64, u64_max.
  pose proof (Z.mod_pos_bound (a + b) (2 ^ 64)). lia.
Qed.

End Integers.

#[export] Hint Rewrite @len_nil @len_cons @len_app : runtime.
#[export] Hint Resolve len_nonneg wrapping_add64_u64 : runtime.

(** Linear arithmetic over lengths. *)
Ltac len_lia :=
  autorewrite with runtime in *;
  repeat match goal with
  | |- context [len ?l] =>
      lazymatch goal with
      | _ : (0 ≤ len l)%Z |- _ => fail
      | _ => pose proof (len_nonneg l)
      end
  end; lia.
