(* ===== verification/Text.v ===== *)
(** * Text: Rust's [str] and byte slices

    A [&[u8]] or [Vec<u8>] is a [bytes], a list of 8-bit characters; a [&str]
    or [String] is a Rocq [string], the sequence of its UTF-8 bytes, so that
    [len], equality and slicing agree with the source byte for byte.  This file
    models the part of the language's standard library the runtime uses on
    them: UTF-8 validation and boundaries, lossy decoding, ASCII classes,
    trimming, substring search and [u64] parsing. *)

From Stdlib Require Ascii String.
From S2P Require Import Prelude.

Local Open Scope Z_scope.

Abbreviation ascii := Ascii.ascii.
Abbreviation bytes := (list ascii).

(** ** Bytes *)

Definition byte_val (b : ascii) : Z := Z.of_N (Ascii.N_of_ascii b).

Definition in_range (lo hi : Z) (b : ascii) : bool :=
  (lo <=? byte_val b) && (byte_val b <=? hi).

Definition is_ascii_lowercase : ascii → bool := in_range 97 122.
Definition is_ascii_uppercase : ascii → bool := in_range 65 90.
Definition is_ascii_digit : ascii → bool := in_range 48 57.
Definition is_ascii_graphic : ascii → bool := in_range 33 126.

(** UTF-8 continuation bytes [0x80..=0xBF]. *)
Definition is_cont : ascii → bool := in_range 128 191.

Definition byte_eqb (n : Z) (b : ascii) : bool := byte_val b =? n.

Definition to_ascii_lowercase_byte (b : ascii) : ascii :=
  if is_ascii_uppercase b then Ascii.ascii_of_N (Ascii.N_of_ascii b + 32) else b.

(** ** Strings *)

Definition as_bytes (s : string) : bytes := String.list_ascii_of_string s.
Definition of_bytes (l : bytes) : string := String.string_of_list_ascii l.

(** [str::len] *)
Definition slen (s : string) : Z := Z.of_nat (String.length s).

Definition is_empty (s : string) : bool :=
  match s with EmptyString => true | _ => false end.

Definition str_eqb (a b : string) : bool := bool_decide (a = b).

(** [str::to_ascii_lowercase] *)
Fixpoint to_ascii_lowercase (s : string) : string :=
  match s with
  | EmptyString => EmptyString
  | String c s => String (to_ascii_lowercase_byte c) (to_ascii_lowercase s)
  end.

(** [str::contains] of a string pattern. *)
Fixpoint contains (pat s : string) : bool :=
  String.prefix pat s ||
  match s with EmptyString => false | String _ s => contains pat s end.

(** [str::strip_prefix] *)
Fixpoint strip_prefix (pat s : string) : option string :=
  match pat, s with
  | EmptyString, _ => Some s
  | String p pat, String c s => if bool_decide (p = c) then strip_prefix pat s else None
  | String _ _, EmptyString => None
  end.

Definition str_forall (f : ascii → bool) (s : string) : bool := forallb f (as_bytes s).

(** ** UTF-8 *)

(** The second byte allowed after a three- or four-byte lead (the ranges that
    exclude overlong forms, surrogates and values past U+10FFFF). *)
Definition second_of_three (b0 b1 : ascii) : bool :=
  if byte_eqb 224 b0 then in_range 160 191 b1
  else if byte_eqb 237 b0 then in_range 128 159 b1
  else is_cont b1.

Definition second_of_four (b0 b1 : ascii) : bool :=
  if byte_eqb 240 b0 then in_range 144 191 b1
  else if byte_eqb 244 b0 then in_range 128 143 b1
  else is_cont b1.

(** [std::str::from_utf8(l).is_ok()] *)
Fixpoint utf8_valid (l : bytes) : bool :=
  match l with
  | [] => true
  | b0 :: t0 =>
      if in_range 0 127 b0 then utf8_valid t0
      else if in_range 194 223 b0 then
        match t0 with
        | b1 :: t1 => is_cont b1 && utf8_valid t1
        | _ => false
        end
      else if in_range 224 239 b0 then
        match t0 with
        | b1 :: b2 :: t2 => second_of_three b0 b1 && is_cont b2 && utf8_valid t2
        | _ => false
        end
      else if in_range 240 244 b0 then
        match t0 with
        | b1 :: b2 :: b3 :: t3 =>
            second_of_four b0 b1 && is_cont b2 && is_cont b3 && utf8_valid t3
        | _ => false
        end
      else false
  end.

(** A Rocq string that is a Rust [str]. *)
Definition is_str (s : string) : Prop := utf8_valid (as_bytes s) = true.

(** [std::str::from_utf8] *)
Definition from_utf8 (l : bytes) : option string :=
  if utf8_valid l then Some (of_bytes l) else None.

(** [str::is_char_boundary] on the bytes of a [str]. *)
Definition is_char_boundary (l : bytes) (i : nat) : bool :=
  match i with
  | O => true
  | _ =>
      match l !! i with
      | Some b => negb (is_cont b)
      | None => bool_decide (i = length l)
      end
  end.

(** The first byte of every character of a [str]: in valid UTF-8 a character
    starts at each byte that is not a continuation byte, and the character is
    the byte itself exactly when the byte is ASCII. *)
Fixpoint char_leads (s : string) : bytes :=
  match s with
  | EmptyString => []
  | String b s => if is_cont b then char_leads s else b :: char_leads s
  end.

(** [String::from_utf8_lossy]: each maximal ill-formed part becomes U+FFFD. *)
Definition replacement : bytes :=
  [Ascii.ascii_of_N 239; Ascii.ascii_of_N 191; Ascii.ascii_of_N 189].

Fixpoint lossy (l : bytes) : bytes :=
  match l with
  | [] => []
  | b0 :: t0 =>
      if in_range 0 127 b0 then b0 :: lossy t0
      else if in_range 194 223 b0 then
        match t0 with
        | b1 :: t1 => if is_cont b1 then b0 :: b1 :: lossy t1 else replacement ++ lossy t0
        | [] => replacement
        end
      else if in_range 224 239 b0 then
        match t0 with
        | b1 :: t1 =>
            if second_of_three b0 b1 then
              match t1 with
              | b2 :: t2 => if is_cont b2 then b0 :: b1 :: b2 :: lossy t2 else replacement ++ lossy t1
              | [] => replacement
              end
            else replacement ++ lossy t0
        | [] => replacement
        end
      else if in_range 240 244 b0 then
        match t0 with
        | b1 :: t1 =>
            if second_of_four b0 b1 then
              match t1 with
              | b2 :: t2 =>
                  if is_cont b2 then
                    match t2 with
                    | b3 :: t3 =>
                        if is_cont b3 then b0 :: b1 :: b2 :: b3 :: lossy t3
                        else replacement ++ lossy t2
                    | [] => replacement
                    end
                  else replacement ++ lossy t1
              | [] => replacement
              end
            else replacement ++ lossy t0
        | [] => replacement
        end
      else replacement ++ lossy t0
  end.

Definition from_utf8_lossy (l : bytes) : string := of_bytes (lossy l).

(** ** White space and numbers *)

(** Length in bytes of the Unicode [White_Space] character at the head of the
    bytes of a [str], 0 when the first character is not white space. *)
Definition ws_head (l : bytes) : nat :=
  match l with
  | b0 :: t =>
      if in_range 9 13 b0 || byte_eqb 32 b0 then 1%nat
      else match t with
      | b1 :: t =>
          if byte_eqb 194 b0 && (byte_eqb 133 b1 || byte_eqb 160 b1) then 2%nat
          else match t with
          | b2 :: _ =>
              if (byte_eqb 225 b0 && byte_eqb 154 b1 && byte_eqb 128 b2)
                 || (byte_eqb 226 b0 && byte_eqb 128 b1
                     && (in_range 128 138 b2 || byte_eqb 168 b2 || byte_eqb 169 b2
                         || byte_eqb 175 b2))
                 || (byte_eqb 226 b0 && byte_eqb 129 b1 && byte_eqb 159 b2)
                 || (byte_eqb 227 b0 && byte_eqb 128 b1 && byte_eqb 128 b2)
              then 3%nat else 0%nat
          | [] => 0%nat
          end
      | [] => 0%nat
      end
  | [] => 0%nat
  end.

(** [str::chars().any(char::is_whitespace)] *)
Fixpoint has_whitespace (l : bytes) : bool :=
  match l with
  | [] => false
  | _ :: t => negb (Nat.eqb (ws_head l) 0) || has_whitespace t
  end.

(** [str::trim_start]: the fuel is the number of bytes. *)
Fixpoint trim_start_fuel (fuel : nat) (l : bytes) : bytes :=
  match fuel with
  | O => l
  | S fuel =>
      match ws_head l with
      | O => l
      | n => trim_start_fuel fuel (drop n l)
      end
  end.

Definition trim_start (l : bytes) : bytes := trim_start_fuel (length l) l.

(** [str::trim_end] removes the longest white-space suffix: the first suffix
    (from the left) at a character boundary that trims to nothing. *)
Fixpoint trim_end (l : bytes) : bytes :=
  match l with
  | [] => []
  | b :: t =>
      if negb (is_cont b) && match trim_start l with [] => true | _ => false end then []
      else b :: trim_end t
  end.

(** [str::trim] *)
Definition trim (s : string) : string := of_bytes (trim_end (trim_start (as_bytes s))).

(** [str::parse::<u64>]: an optional [+], then at least one digit, in range. *)
Fixpoint parse_digits (acc : Z) (l : bytes) : option Z :=
  match l with
  | [] => Some acc
  | b :: t =>
      if is_ascii_digit b then
        let acc := acc * 10 + (byte_val b - 48) in
        if acc <=? u64_max then parse_digits acc t else None
      else None
  end.

Definition parse_u64 (s : string) : option Z :=
  match as_bytes s with
  | [] => None
  | b :: t =>
      if byte_eqb 43 b then match t with [] => None | _ => parse_digits 0 t end
      else parse_digits 0 (b :: t)
  end.

(** ** Lemmas *)

Lemma byte_val_bounds b : 0 ≤ byte_val b < 256.
Proof. unfold byte_val. pose proof (Ascii.N_ascii_bounded b). lia. Qed.

Lemma byte_val_inj a b : byte_val a = byte_val b → a = b.
Proof.
  unfold byte_val. intros H.
  rewrite <- (Ascii.ascii_N_embedding a), <- (Ascii.ascii_N_embedding b). f_equal. lia.
Qed.

Lemma slen_nonneg s : 0 ≤ slen s.
Proof. unfold slen. lia. Qed.

Lemma string_length_app s t : String.length (s +:+ t) = (String.length s + String.length t)%nat.
Proof. induction s as [|c s IH]; simpl; [done|]. by rewrite IH. Qed.

Lemma slen_app s t : slen (s +:+ t) = slen s + slen t.
Proof. unfold slen. rewrite string_length_app. lia. Qed.

Lemma slen_cons c s : slen (String c s) = 1 + slen s.
Proof. unfold slen. simpl. lia. Qed.

Lemma append_nil_r s : s +:+ "" = s.
Proof. induction s as [|c s IH]; [done|]. exact (f_equal (String c) IH). Qed.

Lemma append_assoc s t u : (s +:+ t) +:+ u = s +:+ (t +:+ u).
Proof. induction s as [|c s IH]; [done|]. exact (f_equal (String c) IH). Qed.

Lemma as_bytes_length s : length (as_bytes s) = String.length s.
Proof. induction s; simpl; [done|]. f_equal. done. Qed.

Lemma of_bytes_as_bytes s : of_bytes (as_bytes s) = s.
Proof. apply String.string_of_list_ascii_of_string. Qed.

Lemma as_bytes_of_bytes l : as_bytes (of_bytes l) = l.
Proof. apply String.list_ascii_of_string_of_list_ascii. Qed.

Lemma of_bytes_inj k l : of_bytes k = of_bytes l → k = l.
Proof. intros H. by rewrite <- (as_bytes_of_bytes k), H, as_bytes_of_bytes. Qed.

Lemma slen_of_bytes l : slen (of_bytes l) = len l.
Proof. unfold slen, len. by rewrite <- as_bytes_length, as_bytes_of_bytes. Qed.

Lemma as_bytes_app s t : as_bytes (s +:+ t) = as_bytes s ++ as_bytes t.
Proof. induction s; simpl; [done|]. f_equal. done. Qed.

Lemma of_bytes_app k l : of_bytes (k ++ l) = of_bytes k +:+ of_bytes l.
Proof. induction k as [|b k IH]; [done|]. exact (f_equal (String b) IH). Qed.

Lemma str_eqb_eq a b : str_eqb a b = true ↔ a = b.
Proof. apply bool_decide_eq_true. Qed.

Lemma str_eqb_neq a b : str_eqb a b = false ↔ a ≠ b.
Proof. apply bool_decide_eq_false. Qed.

Lemma str_eqb_refl a : str_eqb a a = true.
Proof. by apply str_eqb_eq. Qed.

Lemma prefix_spec p s : String.prefix p s = true ↔ ∃ b, s = p +:+ b.
Proof.
  revert s. induction p as [|c p IH]; intros s; [split; [intros _; by exists s|by destruct s]|]; simpl.
  destruct s as [|d s]; [split; [done|by intros [? ?]]|].
  cbn [String.prefix]. destruct (Ascii.ascii_dec c d) as [<-|Hne].
  - rewrite IH. split; intros [b Hb]; exists b; [by subst|by injection Hb].
  - split; [done|]. intros [b Hb]. injection Hb. congruence.
Qed.

Lemma contains_spec p s : contains p s = true ↔ ∃ a b, s = a +:+ p +:+ b.
Proof.
  induction s as [|c s IH]; cbn [contains]; rewrite orb_true_iff.
  - rewrite prefix_spec. split; [intros [[b Hb]|?]; [by exists "", b|done]|].
    intros ([|] & b & Hs); [left; by exists b|done].
  - rewrite prefix_spec, IH. split.
    + intros [[b ->]|(a & b & ->)]; [by exists "", b|by exists (String c a), b].
    + intros ([|d a] & b & Hs); simpl in Hs; [left; by exists b|right; injection Hs as <- ->; by exists a, b].
Qed.

(** *** UTF-8: a valid sequence is a sequence of characters *)

(** One well-formed character. *)
Definition utf8_char (c : bytes) : bool :=
  match c with
  | [b0] => in_range 0 127 b0
  | [b0; b1] => in_range 194 223 b0 && is_cont b1
  | [b0; b1; b2] => in_range 224 239 b0 && second_of_three b0 b1 && is_cont b2
  | [b0; b1; b2; b3] =>
      in_range 240 244 b0 && second_of_four b0 b1 && is_cont b2 && is_cont b3
  | _ => false
  end.

Lemma in_range_disjoint lo hi lo' hi' b :
  hi < lo' → in_range lo' hi' b = true → in_range lo hi b = false.
Proof. unfold in_range. intros ? H. reflect_bools. apply andb_false_iff. right. lia. Qed.

Lemma in_range_not_cont lo hi b :
  (hi < 128 ∨ 191 < lo) → in_range lo hi b = true → is_cont b = false.
Proof.
  unfold is_cont, in_range. intros ? H. reflect_bools.
  apply andb_false_iff. destruct (byte_val b <=? 191) eqn:E; [left|by right].
  reflect_bools. apply Z.leb_gt. lia.
Qed.

Lemma second_of_three_cont b0 b1 : second_of_three b0 b1 = true → is_cont b1 = true.
Proof.
  unfold second_of_three, is_cont, in_range.
  intros H. repeat case_if_in H; reflect_bools; apply andb_true_iff; lia.
Qed.

Lemma second_of_four_cont b0 b1 : second_of_four b0 b1 = true → is_cont b1 = true.
Proof.
  unfold second_of_four, is_cont, in_range.
  intros H. repeat case_if_in H; reflect_bools; apply andb_true_iff; lia.
Qed.

Lemma utf8_char_shape c :
  utf8_char c = true →
  ∃ b t, c = b :: t ∧ is_cont b = false ∧ Forall (λ x, is_cont x = true) t ∧ (length t ≤ 3)%nat.
Proof.
  intros H. destruct c as [|b0 [|b1 [|b2 [|b3 [|b4 c]]]]]; simpl in H; try done;
    reflect_bools; eexists b0, _; (split; [done|]); (split; [|split; [|simpl; lia]]).
  all: repeat constructor; eauto using second_of_three_cont, second_of_four_cont.
  all: match goal with
       | H : in_range ?lo ?hi ?b = true |- is_cont ?b = false =>
           apply (in_range_not_cont lo hi); [lia|done]
       end.
Qed.

Lemma utf8_valid_char_app c t : utf8_char c = true → utf8_valid (c ++ t) = utf8_valid t.
Proof.
  intros H. destruct c as [|b0 [|b1 [|b2 [|b3 [|b4 c]]]]]; simpl in H; try done;
    reflect_bools; simpl.
  - by rewrite H.
  - rewrite (in_range_disjoint 0 127 194 223) by (done || lia). by rewrite H, H0.
  - rewrite (in_range_disjoint 0 127 224 239), (in_range_disjoint 194 223 224 239)
      by (done || lia). by rewrite H, H0, H1.
  - rewrite (in_range_disjoint 0 127 240 244), (in_range_disjoint 194 223 240 244),
      (in_range_disjoint 224 239 240 244) by (done || lia).
    by rewrite H, H0, H1, H2.
Qed.

Lemma utf8_uncons l :
  utf8_valid l = true → l = [] ∨ ∃ c t, l = c ++ t ∧ utf8_char c = true ∧ utf8_valid t = true.
Proof.
  destruct l as [|b0 t0]; [by left|]. simpl. intros H. right.
  repeat case_if_in H.
  - by exists [b0], t0.
  - destruct t0 as [|b1 t1]; [done|]. reflect_bools. exists [b0; b1], t1. simpl.
    split; [done|]. split; [|done]. by apply andb_true_iff.
  - destruct t0 as [|b1 [|b2 t2]]; try done. reflect_bools. exists [b0; b1; b2], t2. simpl.
    split; [done|]. split; [|done]. by rewrite !andb_true_iff.
  - destruct t0 as [|b1 [|b2 [|b3 t3]]]; try done. reflect_bools.
    exists [b0; b1; b2; b3], t3. simpl.
    split; [done|]. split; [|done]. by rewrite !andb_true_iff.
  - done.
Qed.

Lemma utf8_ind (P : bytes → Prop) :
  P [] →
  (∀ c t, utf8_char c = true → utf8_valid t = true → P t → P (c ++ t)) →
  ∀ l, utf8_valid l = true → P l.
Proof.
  intros Hnil Hcons l. induction l as [l IH] using (induction_ltof1 _ (@length _)).
  unfold ltof in IH. intros Hv. destruct (utf8_uncons l Hv) as [->|(c & t & -> & Hc & Ht)]; [done|].
  apply Hcons; try done. apply IH; [|done].
  destruct (utf8_char_shape c Hc) as (b & t' & -> & _). rewrite length_app. simpl. lia.
Qed.

(** Cutting a [str] at a character boundary gives two [str]s. *)
Lemma utf8_valid_app l1 l2 :
  utf8_valid l1 = true → utf8_valid (l1 ++ l2) = utf8_valid l2.
Proof.
  intros H. revert l1 H. apply utf8_ind; [done|].
  intros c t Hc _ IH. rewrite <- app_assoc, utf8_valid_char_app; done.
Qed.

Lemma utf8_valid_cut l1 l2 :
  utf8_valid (l1 ++ l2) = true →
  (∀ b, head l2 = Some b → is_cont b = false) →
  utf8_valid l1 = true ∧ utf8_valid l2 = true.
Proof.
  intros Hv Hb. enough (utf8_valid l1 = true) as H1.
  { split; [done|]. by rewrite utf8_valid_app in Hv. }
  remember (l1 ++ l2) as l eqn:El. revert l1 El. revert l Hv.
  apply (utf8_ind (λ l, ∀ l1, l = l1 ++ l2 → utf8_valid l1 = true)).
  - intros l1 E. symmetry in E. apply app_eq_nil in E as [-> _]. done.
  - intros c t Hc Ht IH l1 E.
    apply app_eq_app in E as (k & [[-> E]|[-> E]]).
    + destruct k as [|b k].
      { rewrite app_nil_r in *. rewrite <- (app_nil_r l1). by rewrite utf8_valid_char_app. }
      subst l2. specialize (Hb b eq_refl).
      destruct (utf8_char_shape _ Hc) as (b' & t' & E & _ & Hcont & _).
      destruct l1 as [|x l1]; [done|]. injection E as -> E. subst t'.
      apply Forall_app in Hcont as [_ Hcont]. inversion Hcont; congruence.
    + rewrite utf8_valid_char_app by done. by apply IH.
Qed.

(** *** Trimming is idempotent and keeps a [str] a [str] *)

Lemma ws_head_app l k : ws_head l ≠ 0%nat → ws_head (l ++ k) = ws_head l.
Proof.
  destruct l as [|b0 [|b1 [|b2 l]]]; simpl; try done.
  - by destruct (in_range 9 13 b0 || byte_eqb 32 b0).
  - destruct (in_range 9 13 b0 || byte_eqb 32 b0); [done|].
    by destruct (byte_eqb 194 b0 && (byte_eqb 133 b1 || byte_eqb 160 b1)).
Qed.

Lemma ws_head_le l : (ws_head l ≤ length l)%nat.
Proof. destruct l as [|b0 [|b1 [|b2 l]]]; simpl; repeat case_match; simpl; lia. Qed.

Lemma trim_start_fuel_more n m l : (length l ≤ n)%nat → (length l ≤ m)%nat → trim_start_fuel n l = trim_start_fuel m l.
Proof.
  revert m l. induction n as [|n IH]; intros [|m] l Hn Hm; simpl; try done.
  - destruct l; simpl in *; [done|lia].
  - destruct l; simpl in *; [done|lia].
  - pose proof (ws_head_le l). destruct (ws_head l) eqn:E; [done|]. apply IH; rewrite length_drop; lia.
Qed.

(** The white space at the head, one character at a time. *)
Lemma trim_start_step l : trim_start l = match ws_head l with O => l | n => trim_start (drop n l) end.
Proof.
  unfold trim_start. destruct (length l) as [|n] eqn:E; [by destruct l|]. simpl.
  pose proof (ws_head_le l). destruct (ws_head l) eqn:Ew; [done|]. apply trim_start_fuel_more; rewrite ?length_drop; lia.
Qed.

Lemma length_trim_start l : (length (trim_start l) ≤ length l)%nat.
Proof.
  remember (length l) as n eqn:Hn. revert l Hn. induction n as [n IH] using lt_wf_ind. intros l ->.
  rewrite trim_start_step. pose proof (ws_head_le l). destruct (ws_head l) as [|m] eqn:E; [done|].
  specialize (IH (length (drop (S m) l))). rewrite length_drop in IH.
  etrans; [apply (IH ltac:(lia) (drop (S m) l)); by rewrite length_drop|lia].
Qed.

Lemma trim_start_head l : ws_head (trim_start l) = 0%nat.
Proof.
  remember (length l) as n eqn:Hn. revert l Hn. induction n as [n IH] using lt_wf_ind. intros l ->.
  rewrite trim_start_step. pose proof (ws_head_le l). destruct (ws_head l) as [|m] eqn:E; [done|].
  apply (IH (length (drop (S m) l))); [|done]. rewrite length_drop. lia.
Qed.

Lemma trim_start_fixed l : ws_head l = 0%nat → trim_start l = l.
Proof. intros E. by rewrite trim_start_step, E. Qed.

Lemma trim_start_suffix l : ∃ w, l = w ++ trim_start l.
Proof.
  remember (length l) as n eqn:Hn. revert l Hn. induction n as [n IH] using lt_wf_ind. intros l ->.
  rewrite trim_start_step. pose proof (ws_head_le l). destruct (ws_head l) as [|m] eqn:E; [by exists []|].
  destruct (IH (length (drop (S m) l)) ltac:(rewrite length_drop; lia) _ eq_refl) as [w Hw].
  exists (take (S m) l ++ w). rewrite <-app_assoc, <-Hw. by rewrite take_drop.
Qed.

Lemma trim_start_all_app l k : trim_start l = [] → trim_start (l ++ k) = trim_start k.
Proof.
  remember (length l) as n eqn:Hn. revert l Hn. induction n as [n IH] using lt_wf_ind. intros l -> Hl.
  destruct l as [|b l]; [done|]. rewrite trim_start_step in Hl. pose proof (ws_head_le (b :: l)).
  destruct (ws_head (b :: l)) as [|m] eqn:E; [done|].
  rewrite trim_start_step, ws_head_app by by rewrite E. rewrite E, drop_app_le by lia.
  apply (IH (length (drop (S m) (b :: l)))); [rewrite length_drop; simpl; lia|done|done].
Qed.

(** What [trim_end] removes is white space that starts a character. *)
Lemma trim_end_split l : ∃ w, l = trim_end l ++ w ∧ trim_start w = [] ∧ ∀ b, head w = Some b → is_cont b = false.
Proof.
  induction l as [|b l (w & Hl & Hw & Hb)]; [by exists []|]. cbn [trim_end].
  destruct (is_cont b) eqn:Ec; simpl; [exists w; split_and!; [exact (f_equal (cons b) Hl)|done|done]|].
  destruct (trim_start (b :: l)) eqn:E; [|exists w; split_and!; [exact (f_equal (cons b) Hl)|done|done]].
  exists (b :: l). split_and!; [done|done|]. by intros ? [= <-].
Qed.

Lemma trim_end_fixed l : trim_end (trim_end l) = trim_end l.
Proof.
  induction l as [|b l IH]; [done|]. cbn [trim_end].
  destruct (negb (is_cont b) && match trim_start (b :: l) with [] => true | _ => false end) eqn:E; [done|].
  cbn [trim_end]. rewrite IH. destruct (negb (is_cont b)) eqn:Ec; [|done]. simpl in E |- *.
  destruct (trim_start (b :: trim_end l)) eqn:Et; [|done]. exfalso.
  destruct (trim_end_split l) as (w & Hl & Hw & _).
  assert (trim_start (b :: l) = []) as Hz; [|by rewrite Hz in E].
  rewrite Hl. change (b :: trim_end l ++ w) with ((b :: trim_end l) ++ w). by rewrite trim_start_all_app.
Qed.

Lemma trim_idem s : trim (trim s) = trim s.
Proof.
  unfold trim. rewrite as_bytes_of_bytes. f_equal. set (l := trim_start (as_bytes s)).
  rewrite (trim_start_fixed (trim_end l)); [apply trim_end_fixed|].
  destruct (trim_end_split l) as (w & Hl & _). destruct (ws_head (trim_end l)) eqn:E; [done|].
  assert (ws_head l = 0%nat) as H0 by apply trim_start_head. rewrite Hl, ws_head_app in H0; congruence.
Qed.

(** The bytes of white space in valid UTF-8 form whole characters. *)
Lemma ws_head_utf8 l : utf8_valid l = true → utf8_valid (drop (ws_head l) l) = true.
Proof.
  intros Hv. destruct l as [|b0 l]; [done|]. cbn [ws_head].
  destruct (in_range 9 13 b0 || byte_eqb 32 b0) eqn:E1.
  { simpl in *. assert (in_range 0 127 b0 = true) as Hr; [|by rewrite Hr in Hv]. unfold in_range, byte_eqb in *. lia. }
  destruct l as [|b1 l]; [done|]. destruct (byte_eqb 194 b0 && _) eqn:E2.
  { simpl in *. assert (in_range 0 127 b0 = false ∧ in_range 194 223 b0 = true) as [H1 H2]
      by (unfold in_range, byte_eqb in *; lia).
    rewrite H1, H2 in Hv. by apply andb_true_iff in Hv as [_ ?]. }
  destruct l as [|b2 l]; [done|]. match goal with |- context [if ?c then _ else _] => destruct c eqn:E3; [|done] end.
  simpl in *. assert (in_range 0 127 b0 = false ∧ in_range 194 223 b0 = false ∧ in_range 224 239 b0 = true) as (H1 & H2 & H3)
    by (unfold in_range, byte_eqb in *; lia).
  rewrite H1, H2, H3 in Hv. by apply andb_true_iff in Hv as [_ ?].
Qed.

Lemma trim_start_utf8 l : utf8_valid l = true → utf8_valid (trim_start l) = true.
Proof.
  remember (length l) as n eqn:Hn. revert l Hn. induction n as [n IH] using lt_wf_ind. intros l -> Hl.
  rewrite trim_start_step. pose proof (ws_head_le l). pose proof (ws_head_utf8 l Hl) as Hd.
  destruct (ws_head l) as [|m] eqn:E; [done|].
  apply (IH (length (drop (S m) l))); [|done|done]. rewrite length_drop. lia.
Qed.

Lemma trim_is_str s : is_str s → is_str (trim s).
Proof.
  unfold is_str, trim. rewrite as_bytes_of_bytes. intros Hs%trim_start_utf8.
  destruct (trim_end_split (trim_start (as_bytes s))) as (w & Hl & _ & Hb). rewrite Hl in Hs.
  by apply utf8_valid_cut in Hs as [? _].
Qed.
