(* ===== verification/Order.v ===== *)
(** * Order: [Ord], sorting by key, sorted sets

    The class [RustOrd] is the part of [Ord] the runtime relies on: a total order
    whose [Equal] is equality.  Instances follow the language: numbers, strings
    byte by byte, tuples component by component.  On top of it: [sort_by_key] and
    [sort] + [dedup], the deterministic sets of the sources, with the lemmas that
    make their results independent of the order of the input. *)

From S2P Require Import Prelude Text.

Local Open Scope Z_scope.

Class RustOrd (A : Type) := mkRustOrd {
  cmp : A → A → comparison;
  cmp_eq a b : cmp a b = Eq ↔ a = b;
  cmp_antisym a b : cmp b a = CompOpp (cmp a b);
  cmp_trans a b c : cmp a b = Lt → cmp b c = Lt → cmp a c = Lt
}.

(** ** Instances *)

#[export] Instance ord_Z : RustOrd Z.
Proof.
  exact (mkRustOrd Z Z.compare Z.compare_eq_iff (λ a b, Z.compare_antisym a b) Z.lt_trans).
Defined.

(** [Ord for str]: lexicographic by byte. *)
Fixpoint str_compare (a b : string) : comparison :=
  match a, b with
  | EmptyString, EmptyString => Eq
  | EmptyString, String _ _ => Lt
  | String _ _, EmptyString => Gt
  | String x a, String y b =>
      match byte_val x ?= byte_val y with Eq => str_compare a b | c => c end
  end.

Lemma str_compare_eq a : ∀ b, str_compare a b = Eq ↔ a = b.
Proof.
  induction a as [|x a IH]; intros [|y b]; simpl; try done.
  destruct (Z.compare_spec (byte_val x) (byte_val y)) as [Hv|Hv|Hv].
  - apply byte_val_inj in Hv as ->. rewrite IH. split; [by intros ->|congruence].
  - split; [done|]. intros [= -> ->]. lia.
  - split; [done|]. intros [= -> ->]. lia.
Qed.

Lemma str_compare_antisym a : ∀ b, str_compare b a = CompOpp (str_compare a b).
Proof.
  induction a as [|x a IH]; intros [|y b]; simpl; try done.
  rewrite (Z.compare_antisym (byte_val x) (byte_val y)).
  destruct (byte_val x ?= byte_val y); simpl; [apply IH|done|done].
Qed.

Lemma str_compare_trans a : ∀ b c,
  str_compare a b = Lt → str_compare b c = Lt → str_compare a c = Lt.
Proof.
  induction a as [|x a IH]; intros [|y b] [|z c] H1 H2; simpl in *; try done.
  destruct (Z.compare_spec (byte_val x) (byte_val y)) as [E1|E1|E1]; [|..|done];
    destruct (Z.compare_spec (byte_val y) (byte_val z)) as [E2|E2|E2]; try done.
  - rewrite E1, E2, Z.compare_refl. by eapply IH.
  - rewrite E1. by rewrite (proj2 (Z.compare_lt_iff _ _) E2).
  - rewrite <- E2. by rewrite (proj2 (Z.compare_lt_iff _ _) E1).
  - by rewrite (proj2 (Z.compare_lt_iff _ _) (Z.lt_trans _ _ _ E1 E2)).
Qed.

#[export] Instance ord_string : RustOrd string :=
  mkRustOrd string str_compare str_compare_eq str_compare_antisym str_compare_trans.

(** Tuples compare component by component. *)
Definition pair_compare {A B} `{RustOrd A, RustOrd B} (a b : A * B) : comparison :=
  match cmp a.1 b.1 with Eq => cmp a.2 b.2 | c => c end.

#[export] Instance ord_prod {A B} `{RustOrd A, RustOrd B} : RustOrd (A * B).
Proof.
  refine (mkRustOrd (A * B) pair_compare _ _ _); unfold pair_compare.
  - intros [a1 a2] [b1 b2]; simpl. destruct (cmp a1 b1) eqn:E.
    + apply cmp_eq in E as ->. rewrite cmp_eq. split; [by intros ->|congruence].
    + split; [done|]. intros [= -> ->]. by rewrite (proj2 (cmp_eq b1 b1)) in E.
    + split; [done|]. intros [= -> ->]. by rewrite (proj2 (cmp_eq b1 b1)) in E.
  - intros a b. rewrite (cmp_antisym a.1 b.1), (cmp_antisym a.2 b.2).
    by destruct (cmp a.1 b.1), (cmp a.2 b.2).
  - intros a b c Hab Hbc. destruct (cmp a.1 b.1) eqn:E1; [|..|done].
    + apply cmp_eq in E1 as ->. destruct (cmp b.1 c.1) eqn:E2; [|done..]. by eapply cmp_trans.
    + destruct (cmp b.1 c.1) eqn:E2; [|..|done].
      * apply cmp_eq in E2 as <-. by rewrite E1.
      * by rewrite (cmp_trans _ _ _ E1 E2).
Defined.

(** ** Sorting by a key *)

Section Keys.
Context {A K : Type} `{RustOrd K} (key : A → K).
Implicit Types (a b : A) (k l : list A).

Definition key_le a b : bool := match cmp (key a) (key b) with Gt => false | _ => true end.

(** Strictly before. *)
Definition key_lt a b : Prop := cmp (key a) (key b) = Lt.

(** [slice::sort_by] with the order of the keys. *)
Definition sort_by_key l : list A := sort_by key_le l.

Lemma key_le_total a b : key_le a b = false → key_le b a = true.
Proof. unfold key_le. rewrite (cmp_antisym (key a)). by destruct (cmp (key a) (key b)). Qed.

Lemma key_le_lt a b : key_le a b = true ↔ key_lt a b ∨ key a = key b.
Proof.
  unfold key_le, key_lt. rewrite <- cmp_eq. destruct (cmp (key a) (key b)); intuition congruence.
Qed.

Lemma key_le_trans a b c : key_le a b = true → key_le b c = true → key_le a c = true.
Proof.
  rewrite !key_le_lt. unfold key_lt. intros [H1|H1] [H2|H2].
  - left. by eapply cmp_trans.
  - left. by rewrite <- H2.
  - left. by rewrite H1.
  - right. by rewrite H1.
Qed.

#[export] Instance key_lt_antisym : AntiSymm (=) key_lt.
Proof.
  intros a b. unfold key_lt. rewrite (cmp_antisym (key a)). by destruct (cmp (key a) (key b)).
Qed.

Lemma key_lt_irrefl a : ¬ key_lt a a.
Proof. unfold key_lt. by rewrite (proj2 (cmp_eq (key a) (key a))). Qed.

Lemma sort_by_key_perm l : sort_by_key l ≡ₚ l.
Proof. apply sort_by_perm. Qed.

Lemma sort_by_key_sorted l : StronglySorted (λ a b, key_le a b = true) (sort_by_key l).
Proof. apply sort_by_sorted; [apply key_le_total|apply key_le_trans]. Qed.

Lemma sorted_strict l :
  NoDup (map key l) → StronglySorted (λ a b, key_le a b = true) l → StronglySorted key_lt l.
Proof.
  induction l as [|m l IH]; intros Hnd Hs; [constructor|].
  apply NoDup_cons in Hnd as [Hm Hnd]. apply StronglySorted_inv in Hs as [Hs Hall].
  constructor; [by apply IH|]. rewrite Forall_forall in *. intros x Hx.
  destruct (proj1 (key_le_lt m x) (Hall x Hx)) as [|Hk]; [done|].
  exfalso. apply Hm. rewrite Hk. by apply list_elem_of_fmap_2.
Qed.

(** On distinct keys the order is strict, and the result does not depend on the
    order of the input. *)
Lemma sort_by_key_strict l : NoDup (map key l) → StronglySorted key_lt (sort_by_key l).
Proof.
  intros Hnd. apply sorted_strict; [by rewrite sort_by_key_perm|apply sort_by_key_sorted].
Qed.

Lemma sort_by_key_unique k l : NoDup (map key l) → k ≡ₚ l → sort_by_key k = sort_by_key l.
Proof.
  intros Hnd Hp. assert (NoDup (map key k)) as Hnd' by by rewrite Hp.
  apply (StronglySorted_unique key_lt); [by apply sort_by_key_strict..|].
  by rewrite !sort_by_key_perm.
Qed.

(** A strictly sorted list is left alone. *)
Lemma sort_by_key_id l : StronglySorted key_lt l → sort_by_key l = l.
Proof.
  induction 1 as [|x l Hs IH Hall]; [done|]. unfold sort_by_key in *. simpl. rewrite IH.
  destruct l as [|y l]; [done|]. simpl. inversion Hall as [|? ? Hxy]; subst.
  by rewrite (proj2 (key_le_lt x y) (or_introl Hxy)).
Qed.

Lemma strict_NoDup l : StronglySorted key_lt l → NoDup l.
Proof.
  induction 1 as [|x l Hs IH Hall]; constructor; [|done].
  intros Hx. rewrite Forall_forall in Hall. by apply (key_lt_irrefl x), Hall.
Qed.

(** Strictly sorted lists with the same members are equal. *)
Lemma strict_ext k l :
  StronglySorted key_lt k → StronglySorted key_lt l → (∀ x, x ∈ k ↔ x ∈ l) → k = l.
Proof.
  intros Hk Hl He. apply (StronglySorted_unique key_lt); [done..|].
  apply NoDup_Permutation; [by apply strict_NoDup..|done].
Qed.
End Keys.

Lemma filter_sorted {A} (R : A → A → Prop) (f : A → bool) l :
  StronglySorted R l → StronglySorted R (List.filter f l).
Proof.
  induction 1 as [|x l Hs IH Hall]; simpl; [constructor|]. destruct (f x); [|done].
  constructor; [done|]. by apply Forall_List_filter.
Qed.

(** ** [sort] and [dedup] *)

(** [Vec::dedup]: drops consecutive repetitions. *)
Fixpoint dedup {A} `{EqDecision A} (l : list A) : list A :=
  match l with
  | [] => []
  | x :: l => match l with
              | y :: _ => if decide (x = y) then dedup l else x :: dedup l
              | [] => [x]
              end
  end.

Section Sets.
Context {A K : Type} `{EqDecision A, RustOrd K} (key : A → K) `{!Inj (=) (=) key}.
Implicit Types l : list A.

Definition sorted_set l : list A := dedup (sort_by_key key l).

Lemma dedup_elem l x : x ∈ dedup l ↔ x ∈ l.
Proof.
  induction l as [|y l IH]; [done|]. cbn [dedup]. destruct l as [|z l]; [done|].
  destruct (decide (y = z)) as [->|].
  - rewrite IH, !elem_of_cons. clear. tauto.
  - rewrite elem_of_cons, IH. by rewrite (elem_of_cons (z :: l)).
Qed.

Lemma dedup_strict l :
  StronglySorted (λ a b, key_le key a b = true) l → StronglySorted (key_lt key) (dedup l).
Proof.
  induction 1 as [|x l Hs IH Hall]; [constructor|]. cbn [dedup].
  destruct l as [|y l]; [by repeat constructor|]. destruct (decide (x = y)) as [->|Hne]; [done|].
  constructor; [done|]. rewrite Forall_forall in *. intros z Hz. rewrite dedup_elem in Hz.
  apply StronglySorted_inv in Hs as [_ Hy]. rewrite Forall_forall in Hy.
  assert (key_lt key x y) as Hxy.
  { destruct (proj1 (key_le_lt key x y) (Hall y (list_elem_of_here _ _))) as [|Hk]; [done|].
    by apply (inj key) in Hk. }
  apply elem_of_cons in Hz as [->|Hz]; [done|].
  destruct (proj1 (key_le_lt key y z) (Hy z Hz)) as [Hlt|Hk].
  - unfold key_lt in *. by eapply cmp_trans.
  - by apply (inj key) in Hk as <-.
Qed.

Lemma sorted_set_elem l x : x ∈ sorted_set l ↔ x ∈ l.
Proof. unfold sorted_set. by rewrite dedup_elem, (sort_by_key_perm key l). Qed.

Lemma sorted_set_strict l : StronglySorted (key_lt key) (sorted_set l).
Proof. apply dedup_strict, sort_by_key_sorted. Qed.
End Sets.
