(* ===== verification/Wire.v ===== *)
(** * Wire: integers and byte streams

    The part of the standard library that the wire formats use: fixed-width
    integers in both byte orders, and [Read] and [Write] as the sequences of
    answers their calls will give, so that short reads, interruptions, failures
    and early ends are all values of the model. *)

From S2P Require Import Prelude Text.

Local Open Scope Z_scope.

(** ** Integers *)

(** [to_le_bytes] of a [k]-byte integer. *)
Fixpoint to_le_bytes (k : nat) (n : Z) : bytes :=
  match k with
  | O => []
  | S k => Ascii.ascii_of_N (Z.to_N (n mod 256)) :: to_le_bytes k (n / 256)
  end.

(** [from_le_bytes] *)
Fixpoint from_le_bytes (l : bytes) : Z :=
  match l with
  | [] => 0
  | b :: l => byte_val b + 256 * from_le_bytes l
  end.

(** [to_be_bytes] and [from_be_bytes] *)
Definition to_be_bytes (k : nat) (n : Z) : bytes := rev (to_le_bytes k n).
Definition from_be_bytes (l : bytes) : Z := from_le_bytes (rev l).

(** ** Streams *)

(** An [io::Error] other than an interruption; only its text is kept. *)
Abbreviation IoError := string.

(** The answer of one [read] call.  [RdData l] answers with [l], or with as many
    bytes as the buffer holds, the rest staying for the next call; [RdData []]
    and the end of the sequence are [Ok(0)]. *)
Inductive ReadEvent :=
| RdData (l : bytes)
| RdInterrupted
| RdFailed (e : IoError).

(** The answer of one [write] call: at most [n] bytes are taken.  Past the end of
    the sequence everything is taken. *)
Inductive WriteEvent :=
| WrAccept (n : nat)
| WrInterrupted
| WrFailed (e : IoError).

(** A duplex stream: the answers to come, and the bytes written so far. *)
Record Stream := mkStream {
  incoming : list ReadEvent;
  accepts : list WriteEvent;
  flushes : list (option IoError);
  written : bytes
}.

(** One [read] call with a buffer of [n] bytes. *)
Definition read_call (n : nat) (events : list ReadEvent) :
    list ReadEvent * result bytes (option IoError) :=
  match events with
  | [] => ([], Ok [])
  | RdData l :: events =>
      if (length l <=? n)%nat then (events, Ok l) else (RdData (drop n l) :: events, Ok (take n l))
  | RdInterrupted :: events => (events, Err None)
  | RdFailed e :: events => (events, Err (Some e))
  end.

(** [Write::flush] *)
Definition flush_call (s : Stream) : Stream * option IoError :=
  match s.(flushes) with
  | [] => (s, None)
  | answer :: flushes => (mkStream s.(incoming) s.(accepts) flushes s.(written), answer)
  end.

(** The bytes a sequence of answers still delivers before an end or a failure. *)
Fixpoint deliverable (events : list ReadEvent) : bytes :=
  match events with
  | [] => []
  | RdData [] :: _ => []
  | RdData l :: events => l ++ deliverable events
  | RdInterrupted :: events => deliverable events
  | RdFailed _ :: _ => []
  end.

(** ** Lemmas *)

Lemma ascii_of_byte_val b : Ascii.ascii_of_N (Z.to_N (byte_val b)) = b.
Proof. unfold byte_val. by rewrite N2Z.id, Ascii.ascii_N_embedding. Qed.

Lemma byte_val_of n : 0 ≤ n < 256 → byte_val (Ascii.ascii_of_N (Z.to_N n)) = n.
Proof. intros Hn. unfold byte_val. rewrite Ascii.N_ascii_embedding by lia. lia. Qed.

Lemma length_to_le k n : length (to_le_bytes k n) = k.
Proof. revert n. induction k as [|k IH]; intros n; simpl; [done|]. by rewrite IH. Qed.

Lemma from_to_le k : ∀ n, 0 ≤ n < 256 ^ Z.of_nat k → from_le_bytes (to_le_bytes k n) = n.
Proof.
  induction k as [|k IH]; intros n Hn; [simpl in *; lia|]. cbn [to_le_bytes from_le_bytes].
  rewrite Nat2Z.inj_succ, Z.pow_succ_r in Hn by lia.
  rewrite byte_val_of by (apply Z.mod_pos_bound; lia). rewrite IH.
  - pose proof (Z.div_mod n 256 ltac:(lia)). lia.
  - split; [apply Z.div_pos; lia|]. apply Z.div_lt_upper_bound; lia.
Qed.

Lemma to_from_le l : to_le_bytes (length l) (from_le_bytes l) = l.
Proof.
  induction l as [|b l IH]; [done|]. cbn [length from_le_bytes to_le_bytes].
  pose proof (byte_val_bounds b) as Hb.
  rewrite Z.add_comm, Z.mul_comm, Z.add_comm, Z.mod_add, Z.mod_small by lia.
  rewrite Z.div_add, Z.div_small by lia. rewrite ascii_of_byte_val. f_equal. exact IH.
Qed.

Lemma from_le_bounds l : 0 ≤ from_le_bytes l < 256 ^ Z.of_nat (length l).
Proof.
  induction l as [|b l IH]; [simpl; lia|]. cbn [length from_le_bytes].
  rewrite Nat2Z.inj_succ, Z.pow_succ_r by lia. pose proof (byte_val_bounds b). lia.
Qed.

Lemma length_to_be k n : length (to_be_bytes k n) = k.
Proof. unfold to_be_bytes. by rewrite length_rev, length_to_le. Qed.

Lemma from_to_be k n : 0 ≤ n < 256 ^ Z.of_nat k → from_be_bytes (to_be_bytes k n) = n.
Proof. intros H. unfold from_be_bytes, to_be_bytes. rewrite rev_involutive. by apply from_to_le. Qed.

Lemma to_from_be l : to_be_bytes (length l) (from_be_bytes l) = l.
Proof.
  unfold from_be_bytes, to_be_bytes. rewrite <- (length_rev l), to_from_le. apply rev_involutive.
Qed.

Lemma from_be_bounds l : 0 ≤ from_be_bytes l < 256 ^ Z.of_nat (length l).
Proof. unfold from_be_bytes. rewrite <- (length_rev l). apply from_le_bounds. Qed.
