(* ===== verification/Session.v ===== *)
(** * Session: identity, authority tiers, lifecycle and writer fencing

    Models [session.rs] and [fencing.rs].  An [AgentSession] is an [Rc] over
    cells: every clone is the same object, so the model has one record per
    session and every holder of a handle (the agent, the tool host, a sink, a
    reconciler) acts on it through the operations of [SessionOp], the only ones
    the public interface offers. *)

From S2P Require Import Prelude Text.

Local Open Scope Z_scope.

(** ** Identifiers *)

(** [NEXT_ID] is the process-wide counter; [next] is [fetch_update] with
    [checked_add(1)], which panics when the space is exhausted. *)
Definition IdIssuer_next (counter : Z) : option (Z * Z) :=
  match checked_add64 counter 1 with
  | Some next => Some (counter + 1, next)
  | None => None
  end.

(** [IdIssuer::execution] *)
Definition IdIssuer_execution (counter : Z) : option (Z * Z) := IdIssuer_next counter.

(** ** Tiers *)

Inductive AgentLevel := Inspect | Own | Workspace | All.

#[export] Instance AgentLevel_eq_dec : EqDecision AgentLevel.
Proof. solve_decision. Defined.

Definition rank (l : AgentLevel) : Z :=
  match l with Inspect => 0 | Own => 1 | Workspace => 2 | All => 3 end.

Definition includes (l other : AgentLevel) : bool := rank other <=? rank l.

(** ** Lifecycle *)

Inductive SessionState := Active | Completed | Failed | Canceled.

#[export] Instance SessionState_eq_dec : EqDecision SessionState.
Proof. solve_decision. Defined.

Inductive SessionError :=
| AlreadyTerminated (state : SessionState)
| ElevationDenied (requested : AgentLevel).

Record AgentSession := mkSession {
  agent_instance_id : Z;
  run_id : Z;
  session_id : Z;
  level : AgentLevel;
  generation : Z;
  state : SessionState;
  cancel_count : Z
}.

(** [AgentSession::new] *)
Definition new_session (agent_instance_id run_id session_id : Z) : AgentSession :=
  mkSession agent_instance_id run_id session_id Inspect 1 Active 0.

Definition with_state (st : SessionState) (s : AgentSession) : AgentSession :=
  mkSession s.(agent_instance_id) s.(run_id) s.(session_id) s.(level) s.(generation) st
    s.(cancel_count).

Definition with_level (l : AgentLevel) (s : AgentSession) : AgentSession :=
  mkSession s.(agent_instance_id) s.(run_id) s.(session_id) l s.(generation) s.(state)
    s.(cancel_count).

Definition is_active (s : AgentSession) : bool := bool_decide (s.(state) = Active).

(** [AgentSession::is_cancelled] *)
Definition is_cancelled (s : AgentSession) : bool := bool_decide (s.(state) = Canceled).

(** [AgentSession::cancel] *)
Definition cancel (s : AgentSession) : AgentSession :=
  if is_active s then
    mkSession s.(agent_instance_id) s.(run_id) s.(session_id) s.(level) s.(generation)
      Canceled (wrapping_add64 s.(cancel_count) 1)
  else s.

(** [AgentSession::finish] *)
Definition finish (failed : bool) (s : AgentSession) : AgentSession :=
  if is_active s then with_state (if failed then Failed else Completed) s else s.

(** [ElevationGrant::elevation_granted]: the host's grant hook. *)
Definition ElevationGrant := AgentLevel → AgentLevel → bool.

(** [DenyAllElevations] *)
Definition DenyAllElevations : ElevationGrant := λ _ _, false.

(** [AgentSession::elevate] *)
Definition elevate (requested : AgentLevel) (grant : ElevationGrant) (s : AgentSession) :
    AgentSession * result unit SessionError :=
  if negb (is_active s) then (s, Err (AlreadyTerminated s.(state)))
  else if rank requested >? rank s.(level) then
    if grant s.(level) requested then (with_level requested s, Ok tt)
    else (s, Err (ElevationDenied requested))
  else (s, Ok tt).

(** [AgentSession::rotate_generation] *)
Definition rotate_generation (s : AgentSession) : AgentSession :=
  if is_active s then
    mkSession s.(agent_instance_id) s.(run_id) s.(session_id) Inspect
      (wrapping_add64 s.(generation) 1) s.(state) s.(cancel_count)
  else s.

(** ** The shared handle as a state machine *)

Inductive SessionOp :=
| OpCancel
| OpFinish (failed : bool)
| OpElevate (requested : AgentLevel) (grant : ElevationGrant)
| OpRotate.

Definition apply_op (op : SessionOp) (s : AgentSession) : AgentSession :=
  match op with
  | OpCancel => cancel s
  | OpFinish failed => finish failed s
  | OpElevate requested grant => (elevate requested grant s).1
  | OpRotate => rotate_generation s
  end.

Definition apply_ops (ops : list SessionOp) (s : AgentSession) : AgentSession :=
  fold_left (λ s op, apply_op op s) ops s.

(** One operation through any handle. *)
Inductive session_step : AgentSession → AgentSession → Prop :=
| session_step_op op s : session_step s (apply_op op s).

(** States a session can be in: any number of operations after [new]. *)
Definition session_reachable (s : AgentSession) : Prop :=
  ∃ a r i, rtc session_step (new_session a r i) s.

(** ** Writer fencing ([fencing.rs]) *)

Record WriterLease := mkLease {
  writer_id : Z;
  session_generation : Z;
  epoch : Z
}.

Inductive WriterRefusal :=
| WriterAlreadyTerminated (state : SessionState)
| WriterStaleGeneration (lease_generation current_generation : Z)
| WriterStaleEpoch (lease_epoch current_epoch : Z).

Definition check_writer (lease : WriterLease) (session : AgentSession) (current_epoch : Z) :
    result unit WriterRefusal :=
  if negb (bool_decide (session.(state) = Active)) then
    Err (WriterAlreadyTerminated session.(state))
  else if negb (lease.(session_generation) =? session.(generation)) then
    Err (WriterStaleGeneration lease.(session_generation) session.(generation))
  else if negb (lease.(epoch) =? current_epoch) then
    Err (WriterStaleEpoch lease.(epoch) current_epoch)
  else Ok tt.

(** ** Lemmas *)

Lemma is_active_true s : is_active s = true ↔ s.(state) = Active.
Proof. apply bool_decide_eq_true. Qed.

Lemma is_cancelled_true s : is_cancelled s = true ↔ s.(state) = Canceled.
Proof. apply bool_decide_eq_true. Qed.

(** Lifecycle operations leave a terminal session exactly as it is. *)
Lemma apply_op_terminal op s : s.(state) ≠ Active → apply_op op s = s.
Proof.
  intros H. assert (is_active s = false) as E by by apply bool_decide_eq_false.
  destruct op; simpl; unfold cancel, finish, elevate, rotate_generation; by rewrite E.
Qed.

Lemma apply_ops_app ops1 ops2 s : apply_ops (ops1 ++ ops2) s = apply_ops ops2 (apply_ops ops1 s).
Proof. apply fold_left_app. Qed.

Lemma apply_ops_terminal ops s : s.(state) ≠ Active → apply_ops ops s = s.
Proof.
  revert s. induction ops as [|op ops IH]; intros s H; [done|]. simpl.
  rewrite apply_op_terminal by done. by apply IH.
Qed.

Lemma apply_ops_steps ops s : rtc session_step s (apply_ops ops s).
Proof.
  revert s. induction ops as [|op ops IH]; intros s; [apply rtc_refl|].
  simpl. eapply rtc_l; [constructor|]. apply IH.
Qed.

(** Identity never changes. *)
Lemma apply_op_ids op s :
  (apply_op op s).(agent_instance_id) = s.(agent_instance_id)
  ∧ (apply_op op s).(run_id) = s.(run_id)
  ∧ (apply_op op s).(session_id) = s.(session_id).
Proof.
  destruct op; simpl; unfold cancel, finish, elevate, rotate_generation; break; done.
Qed.

(** The only operation that moves the generation is an honoured rotation. *)
Definition is_rotate (op : SessionOp) : bool :=
  match op with OpRotate => true | _ => false end.

Definition rotations (ops : list SessionOp) : Z := len (List.filter is_rotate ops).

Lemma rotations_cons op ops :
  rotations (op :: ops) = (if is_rotate op then 1 else 0) + rotations ops.
Proof. unfold rotations. simpl. destruct op; simpl; len_lia. Qed.

Lemma apply_op_generation op s :
  (apply_op op s).(generation) = s.(generation)
  ∨ is_rotate op = true ∧ s.(state) = Active
    ∧ (apply_op op s).(generation) = wrapping_add64 s.(generation) 1.
Proof.
  destruct op; simpl; unfold cancel, finish, elevate, rotate_generation;
    try (left; break; done).
  destruct (is_active s) eqn:E; [right|by left].
  apply is_active_true in E. done.
Qed.

Lemma apply_ops_generation_bounds ops s :
  0 ≤ s.(generation) → s.(generation) + rotations ops ≤ u64_max →
  s.(generation) ≤ (apply_ops ops s).(generation) ≤ s.(generation) + rotations ops.
Proof.
  revert s. induction ops as [|op ops IH]; intros s Hpos Hmax.
  { unfold rotations. simpl. len_lia. }
  rewrite rotations_cons in *. simpl.
  assert (0 ≤ rotations ops) by (unfold rotations; len_lia).
  destruct (apply_op_generation op s) as [E|(Hr & Hact & E)].
  - specialize (IH (apply_op op s)). rewrite E in IH.
    destruct (is_rotate op); lia.
  - rewrite Hr in *. rewrite wrapping_add64_small in E by lia.
    specialize (IH (apply_op op s)). rewrite E in IH. lia.
Qed.

(** ** Properties *)

(** What a session's cells satisfy in every reachable state. *)
Definition session_inv (s : AgentSession) : Prop :=
  is_u64 s.(generation) ∧ s.(cancel_count) = (if is_cancelled s then 1 else 0).

Lemma session_inv_step op s : session_inv s → session_inv (apply_op op s).
Proof.
  intros [Hgen Hcount]. unfold session_inv, is_cancelled in *.
  destruct op; simpl; unfold cancel, finish, elevate, rotate_generation, is_active;
    destruct (state s) eqn:Est; simpl in *; try rewrite Est in *; simpl in *; try done.
  - rewrite Hcount. done.
  - by destruct failed.
  - destruct (_ >? _); [destruct (grant _ _)|]; simpl; by rewrite Est.
  - split; [apply wrapping_add64_u64|done].
Qed.

(** In every state any interleaving of operations can reach, the cancel
    metric is 1 exactly on a canceled session and 0 otherwise. *)
Theorem session_reachable_inv s : session_reachable s → session_inv s.
Proof.
  intros (a & r & i & Hs).
  assert (session_inv (new_session a r i)) as H0.
  { split; [unfold is_u64, u64_max; simpl; lia|done]. }
  induction Hs as [|s1 s2 s3 [op s0] _ IH]; [done|].
  apply IH. by apply session_inv_step.
Qed.

Lemma session_reachable_inv_witness :
  session_inv (apply_ops [OpElevate All (λ _ _, true); OpRotate; OpCancel; OpCancel] (new_session 1 2 3)).
Proof. apply session_reachable_inv. exists 1, 2, 3. apply apply_ops_steps. Defined.

(** A terminal session is absorbing: no sequence of operations through any
    handle changes any of its cells, and an elevation is refused. *)
Theorem session_terminal_absorbing ops requested grant s :
  s.(state) ≠ Active →
  apply_ops ops s = s
  ∧ (elevate requested grant s).2 = Err (AlreadyTerminated s.(state)).
Proof.
  intros H. split; [by apply apply_ops_terminal|].
  unfold elevate. assert (is_active s = false) as -> by by apply bool_decide_eq_false. done.
Qed.

Lemma session_terminal_absorbing_witness :
  apply_ops [OpFinish false; OpRotate] (cancel (new_session 1 2 3)) = cancel (new_session 1 2 3)
  ∧ (elevate Own DenyAllElevations (cancel (new_session 1 2 3))).2 = Err (AlreadyTerminated Canceled).
Proof.
  apply (session_terminal_absorbing [OpFinish false; OpRotate] Own DenyAllElevations
           (cancel (new_session 1 2 3))).
  discriminate.
Defined.

(** Operations none of whose grant hooks grants. *)
Definition denies (op : SessionOp) : Prop :=
  match op with OpElevate _ grant => ∀ a b, grant a b = false | _ => True end.

Lemma apply_op_denied_level op s :
  denies op → rank (apply_op op s).(level) ≤ rank s.(level).
Proof.
  destruct op as [|b|req grant|]; simpl; intros Hd;
    unfold cancel, finish, elevate, rotate_generation; repeat case_if; simpl; try lia.
  - rewrite Hd in *. done.
  - destruct (level s); simpl; lia.
Qed.

(** The tier never rises without a granting hook: under hooks that deny,
    no sequence of operations raises the authority of a session. *)
Theorem no_elevation_without_grant ops s :
  Forall denies ops → rank (apply_ops ops s).(level) ≤ rank s.(level).
Proof.
  revert s. induction ops as [|op ops IH]; intros s H; [simpl; lia|].
  inversion H; subst. simpl. specialize (IH (apply_op op s)).
  pose proof (apply_op_denied_level op s). etransitivity; [by apply IH|]. auto.
Qed.

Lemma no_elevation_without_grant_witness :
  rank (apply_ops [OpElevate All DenyAllElevations; OpRotate; OpFinish true] (new_session 1 2 3)).(level)
    ≤ rank Inspect.
Proof.
  apply (no_elevation_without_grant
           [OpElevate All DenyAllElevations; OpRotate; OpFinish true] (new_session 1 2 3)).
  repeat constructor.
Defined.

Lemma check_writer_ok lease s e :
  check_writer lease s e = Ok tt ↔
  s.(state) = Active ∧ lease.(session_generation) = s.(generation) ∧ lease.(epoch) = e.
Proof.
  unfold check_writer. split.
  - intros H. repeat case_if_in H; try done. by reflect_bools.
  - intros (-> & -> & ->). by rewrite !Z.eqb_refl.
Qed.

(** Takeover retires every outstanding lease: a lease issued at or before
    the generation a takeover rotates away from is refused after it, whatever
    operations follow (as long as the 64-bit generation does not wrap), while a
    lease issued at the new generation and epoch is admitted. *)
Theorem takeover_retires_leases ops lease s e e' :
  s.(state) = Active →
  0 ≤ s.(generation) →
  lease.(session_generation) ≤ s.(generation) →
  s.(generation) + 1 + rotations ops ≤ u64_max →
  check_writer lease (apply_ops ops (rotate_generation s)) e ≠ Ok tt
  ∧ check_writer (mkLease (writer_id lease) (s.(generation) + 1) e') (rotate_generation s) e' = Ok tt.
Proof.
  intros Hact Hpos Hlease Hmax.
  assert (0 ≤ rotations ops) by (unfold rotations; len_lia).
  assert (is_active s = true) as Hb by by apply is_active_true.
  assert ((rotate_generation s).(generation) = s.(generation) + 1) as Hgen.
  { unfold rotate_generation. rewrite Hb. simpl. apply wrapping_add64_small. lia. }
  split.
  - rewrite check_writer_ok. intros (_ & Heq & _).
    pose proof (apply_ops_generation_bounds ops (rotate_generation s)) as Hb'.
    rewrite Hgen in Hb'. lia.
  - apply check_writer_ok. rewrite Hgen. unfold rotate_generation. by rewrite Hb.
Qed.

Lemma takeover_retires_leases_witness :
  check_writer (mkLease 7 1 4) (apply_ops [OpRotate; OpElevate Own (λ _ _, true)]
                                  (rotate_generation (new_session 1 2 3))) 4 ≠ Ok tt
  ∧ check_writer (mkLease 7 2 4) (rotate_generation (new_session 1 2 3)) 4 = Ok tt.
Proof.
  apply (takeover_retires_leases [OpRotate; OpElevate Own (λ _ _, true)] (mkLease 7 1 4)
           (new_session 1 2 3) 4 4); vm_compute; try done; discriminate.
Defined.
