(* ===== verification/Stream.v ===== *)
(** * Stream: bounded rich-streaming fragments

    Models [stream.rs]: chunk validation, the unbounded and the bounded sink
    behind the [StreamSink] trait, UTF-8-safe fragmentation of text, and the
    batch emitter that numbers the chunks of a logical turn. *)

From S2P Require Import Prelude Text.

Local Open Scope Z_scope.

(** ** Data *)

Definition MAX_STREAM_CHUNK_BYTES : Z := 256 * 1024.
Definition MAX_FRAGMENT_BYTES : Z := 64 * 1024.

Inductive FragmentKind := Markdown | Diff | ToolCard.

#[export] Instance FragmentKind_eq_dec : EqDecision FragmentKind.
Proof. solve_decision. Defined.

Record Fragment := mkFragment { kind : FragmentKind; fbytes : bytes }.

Record StreamChunk := mkChunk {
  seq : Z;
  total : Z;
  is_final : bool;
  fragment : Fragment
}.

Inductive StreamError :=
| OversizedFragment (limit actual : Z)
| InvalidFraming (reason : string).

(** [validate_chunk]: framing first, then the fragment bound.  The addition is
    on [u32] and cannot wrap once [seq < total]. *)
Definition validate_chunk (c : StreamChunk) : result unit StreamError :=
  if c.(total) =? 0 then Err (InvalidFraming "total must be > 0")
  else if c.(seq) >=? c.(total) then Err (InvalidFraming "seq must be < total")
  else if negb (Bool.eqb c.(is_final) (c.(seq) + 1 =? c.(total))) then
    Err (InvalidFraming "final flag does not match seq/total")
  else if len c.(fragment).(fbytes) >? MAX_FRAGMENT_BYTES then
    Err (OversizedFragment MAX_FRAGMENT_BYTES (len c.(fragment).(fbytes)))
  else Ok tt.

(** ** Sinks *)

(** The [StreamSink] trait: [emit] takes [&mut self], so it returns the sink. *)
Class StreamSink (S : Type) := {
  emit : S → StreamChunk → S * result unit StreamError;
  chunks : S → list StreamChunk
}.

(** What the trait's documentation promises of every implementation: a chunk is
    validated before it is accepted, and an error leaves the sink unchanged. *)
Class StreamSinkLaws (S : Type) `{StreamSink S} := {
  emit_error_unchanged : ∀ s c s' e, emit s c = (s', Err e) → s' = s;
  emit_ok_valid : ∀ s c s', emit s c = (s', Ok tt) → validate_chunk c = Ok tt;
  emit_valid_ok : ∀ s c, validate_chunk c = Ok tt → (emit s c).2 = Ok tt
}.

(** [VecSink] *)
Record VecSink := mkVecSink { vec_chunks : list StreamChunk }.

Definition VecSink_new : VecSink := mkVecSink [].

Definition VecSink_emit (s : VecSink) (c : StreamChunk) : VecSink * result unit StreamError :=
  match validate_chunk c with
  | Err e => (s, Err e)
  | Ok _ => (mkVecSink (s.(vec_chunks) ++ [c]), Ok tt)
  end.

#[export] Instance VecSink_sink : StreamSink VecSink := {
  emit := VecSink_emit;
  chunks := vec_chunks
}.

(** [concatenated_bytes] of either sink. *)
Definition concatenated_bytes (cs : list StreamChunk) : bytes :=
  concat (map (λ c, c.(fragment).(fbytes)) cs).

(** [BoundedSink] *)
Definition DEFAULT_BOUNDED_SINK_CAPACITY : Z := 64.

Record StreamAttribution := mkAttribution {
  agent : Z;
  handle : Z;
  attr_generation : Z
}.

Record StreamAck := mkAck { ack_attribution : StreamAttribution; ack_accepted : Z; ack_shed : Z }.

Record BoundedSink := mkBoundedSink {
  attribution : StreamAttribution;
  capacity : Z;
  bchunks : list StreamChunk;
  accepted : Z;
  shed : Z
}.

Definition BoundedSink_with_capacity (a : StreamAttribution) (capacity : Z) : BoundedSink :=
  mkBoundedSink a (Z.max capacity 1) [] 0 0.

Definition BoundedSink_new (a : StreamAttribution) : BoundedSink :=
  BoundedSink_with_capacity a DEFAULT_BOUNDED_SINK_CAPACITY.

(** [emit_attributed]: validate, shed the oldest chunk at capacity ([remove(0)]),
    push, count. *)
Definition emit_attributed (s : BoundedSink) (c : StreamChunk) :
    BoundedSink * result StreamAck StreamError :=
  match validate_chunk c with
  | Err e => (s, Err e)
  | Ok _ =>
      let full := len s.(bchunks) >=? s.(capacity) in
      let kept := if full then tail s.(bchunks) else s.(bchunks) in
      let shed' := if full then wrapping_add64 s.(shed) 1 else s.(shed) in
      let accepted' := wrapping_add64 s.(accepted) 1 in
      (mkBoundedSink s.(attribution) s.(capacity) (kept ++ [c]) accepted' shed',
       Ok (mkAck s.(attribution) accepted' shed'))
  end.

Definition BoundedSink_emit (s : BoundedSink) (c : StreamChunk) :
    BoundedSink * result unit StreamError :=
  match emit_attributed s c with
  | (s', Ok _) => (s', Ok tt)
  | (s', Err e) => (s', Err e)
  end.

#[export] Instance BoundedSink_sink : StreamSink BoundedSink := {
  emit := BoundedSink_emit;
  chunks := bchunks
}.

(** ** Fragmentation *)

(** [while !text.is_char_boundary(end) { end -= 1 }] *)
Fixpoint back_to_boundary (text : bytes) (e : nat) : nat :=
  match e with
  | O => O
  | S e' => if is_char_boundary text e then e else back_to_boundary text e'
  end.

Definition slice (l : bytes) (s e : nat) : bytes := take (e - s) (drop s l).

(** The [while start < bytes.len()] loop; every pass advances [start] on a
    [str], so the number of bytes bounds the number of passes. *)
Fixpoint fragment_loop (fuel : nat) (k : FragmentKind) (text : bytes) (start : nat) :
    list Fragment :=
  match fuel with
  | O => []
  | S fuel =>
      if (start <? length text)%nat then
        let e := back_to_boundary text
                   (Nat.min (start + Z.to_nat MAX_FRAGMENT_BYTES) (length text)) in
        mkFragment k (slice text start e) :: fragment_loop fuel k text e
      else []
  end.

Definition fragment_text (k : FragmentKind) (text : string) : list Fragment :=
  if is_empty text then []
  else fragment_loop (length (as_bytes text)) k (as_bytes text) 0.

(** ** Batch emission *)

Section Emit.
Context {W : Type}.
(** [sink.emit] and [is_cancelled] as the emitter sees them: both act on or read
    the state [W] that the sink and the session's other holders share. *)
Variable sink_emit : W → StreamChunk → W * result unit StreamError.
Variable is_cancelled : W → bool.

Fixpoint emit_loop (w : W) (fs : list Fragment) (index n start_seq next_seq : Z) :
    W * result bool StreamError :=
  match fs with
  | [] => (w, Ok true)
  | f :: fs =>
      if is_cancelled w then (w, Ok false)
      else
        let chunk := mkChunk (start_seq + index) next_seq (index + 1 =? n) f in
        match sink_emit w chunk with
        | (w', Err e) => (w', Err e)
        | (w', Ok _) => emit_loop w' fs (index + 1) n start_seq next_seq
        end
  end.

Definition emit_fragments (w : W) (fs : list Fragment) (start_seq : Z) :
    W * result (option Z) StreamError :=
  if len fs >? u32_max then
    (w, Err (InvalidFraming "fragment batch exceeds the sequence space"))
  else
    match checked_add32 start_seq (len fs) with
    | None => (w, Err (InvalidFraming "stream sequence exhausted"))
    | Some next_seq =>
        match emit_loop w fs 0 (len fs) start_seq next_seq with
        | (w', Err e) => (w', Err e)
        | (w', Ok false) => (w', Ok None)
        | (w', Ok true) => if is_cancelled w' then (w', Ok None) else (w', Ok (Some next_seq))
        end
    end.

End Emit.

(** ** Lemmas *)

Lemma validate_chunk_ok c :
  validate_chunk c = Ok tt ↔
  c.(total) ≠ 0 ∧ c.(seq) < c.(total) ∧ c.(is_final) = (c.(seq) + 1 =? c.(total))
  ∧ len c.(fragment).(fbytes) ≤ MAX_FRAGMENT_BYTES.
Proof.
  unfold validate_chunk. split.
  - intros H. repeat case_if_in H; try done. reflect_bools.
    match goal with H : Bool.eqb _ _ = true |- _ => apply Bool.eqb_prop in H end. done.
  - intros (H0 & H1 & -> & H2). rewrite Bool.eqb_reflx. simpl.
    repeat case_if; reflect_bools; try done; lia.
Qed.

#[export] Instance VecSink_laws : StreamSinkLaws VecSink.
Proof.
  split; simpl; unfold VecSink_emit; intros s c; intros.
  - destruct (validate_chunk c); by simplify_eq.
  - destruct (validate_chunk c) as [[]|]; by simplify_eq.
  - by rewrite H.
Qed.

#[export] Instance BoundedSink_laws : StreamSinkLaws BoundedSink.
Proof.
  split; simpl; unfold BoundedSink_emit, emit_attributed; intros s c; intros.
  - destruct (validate_chunk c); by simplify_eq.
  - destruct (validate_chunk c) as [[]|]; by simplify_eq.
  - by rewrite H.
Qed.

(** *** Fragmentation *)

Lemma boundary_cut l i :
  utf8_valid l = true → (i ≤ length l)%nat → is_char_boundary l i = true →
  utf8_valid (take i l) = true ∧ utf8_valid (drop i l) = true.
Proof.
  intros Hv Hi Hb. rewrite <- (take_drop i l) in Hv.
  destruct i as [|i]; [by rewrite drop_0 in *|].
  apply utf8_valid_cut in Hv; [done|].
  intros b Hhd. unfold is_char_boundary in Hb. rewrite <- head_drop in Hb.
  rewrite Hhd in Hb. by apply negb_true_iff in Hb.
Qed.

Lemma utf8_valid_head l b : utf8_valid l = true → head l = Some b → is_cont b = false.
Proof.
  intros Hv Hb. destruct (utf8_uncons l Hv) as [->|(c & t & -> & Hc & _)]; [done|].
  destruct (utf8_char_shape c Hc) as (b' & t' & -> & Hb' & _). simpl in Hb. congruence.
Qed.

Lemma is_char_boundary_length l : is_char_boundary l (length l) = true.
Proof.
  unfold is_char_boundary. destruct (length l) eqn:E; [done|].
  rewrite <- E, (proj2 (lookup_ge_None l (length l))) by lia. by apply bool_decide_eq_true.
Qed.

(** No more than three bytes before any position of a [str] there is a boundary. *)
Lemma boundary_near l :
  utf8_valid l = true →
  ∀ j, (j ≤ length l)%nat → ∃ b, (j ≤ b + 3)%nat ∧ (b ≤ j)%nat ∧ is_char_boundary l b = true.
Proof.
  revert l. apply (utf8_ind (λ l, ∀ j, (j ≤ length l)%nat → ∃ b, (j ≤ b + 3)%nat ∧ (b ≤ j)%nat ∧
    is_char_boundary l b = true)).
  - intros j Hj. exists 0%nat. simpl in *. split_and!; [lia..|done].
  - intros c t Hc Ht IH j Hj. rewrite length_app in Hj.
    destruct (utf8_char_shape c Hc) as (b0 & t0 & Ec & Hb0 & _ & Hlen).
    destruct (decide (j < length c)%nat) as [Hlt|Hge].
    { exists 0%nat. subst c. simpl in Hlt. split_and!; [lia..|done]. }
    destruct (IH (j - length c)%nat) as (b & H1 & H2 & H3); [lia|].
    exists (length c + b)%nat. split_and!; [lia..|].
    unfold is_char_boundary. replace (length c + b)%nat with (S (length t0 + b)) at 1
      by (subst c; simpl; lia).
    rewrite lookup_app_r by lia. replace (length c + b - length c)%nat with b by lia.
    unfold is_char_boundary in H3. destruct b as [|b].
    + rewrite <- head_lookup. destruct (head t) eqn:Eh.
      * by rewrite (utf8_valid_head t a).
      * apply head_None in Eh. subst t. rewrite app_nil_r. apply bool_decide_eq_true. lia.
    + destruct (t !! S b); [done|]. rewrite length_app.
      apply bool_decide_eq_true in H3. apply bool_decide_eq_true. lia.
Qed.

Lemma back_to_boundary_spec l e :
  (back_to_boundary l e ≤ e)%nat ∧ is_char_boundary l (back_to_boundary l e) = true
  ∧ ∀ b, (b ≤ e)%nat → is_char_boundary l b = true → (b ≤ back_to_boundary l e)%nat.
Proof.
  induction e as [|e (IH1 & IH2 & IH3)]; cbn [back_to_boundary].
  - split_and!; [lia|done|lia].
  - destruct (is_char_boundary l (S e)) eqn:E.
    + split_and!; [lia|done|lia].
    + split_and!; [lia|done|]. intros b Hb Hbd.
      destruct (decide (b = S e)) as [->|]; [congruence|]. apply IH3; [lia|done].
Qed.

(** What a fragment of [text] must satisfy. *)
Definition fragment_ok (k : FragmentKind) (f : Fragment) : Prop :=
  f.(kind) = k ∧ f.(fbytes) ≠ [] ∧ len f.(fbytes) ≤ MAX_FRAGMENT_BYTES
  ∧ utf8_valid f.(fbytes) = true.

(** A fragment that is not the last is filled up to a split character. *)
Fixpoint all_but_last_full (fs : list Fragment) : Prop :=
  match fs with
  | [] | [_] => True
  | f :: fs => MAX_FRAGMENT_BYTES - 3 ≤ len f.(fbytes) ∧ all_but_last_full fs
  end.

Lemma next_end_spec l start :
  utf8_valid l = true → (start < length l)%nat →
  let e := back_to_boundary l (Nat.min (start + Z.to_nat MAX_FRAGMENT_BYTES) (length l)) in
  (start < e)%nat ∧ (e ≤ start + Z.to_nat MAX_FRAGMENT_BYTES)%nat ∧ (e ≤ length l)%nat
  ∧ is_char_boundary l e = true
  ∧ (e < length l → start + Z.to_nat MAX_FRAGMENT_BYTES ≤ e + 3)%nat.
Proof.
  intros Hv Hlt. cbv zeta. set (e0 := Nat.min _ _).
  destruct (back_to_boundary_spec l e0) as (H1 & H2 & H3).
  assert (4 ≤ Z.to_nat MAX_FRAGMENT_BYTES)%nat by (unfold MAX_FRAGMENT_BYTES; lia).
  destruct (boundary_near l Hv e0) as (b & Hb1 & Hb2 & Hb3); [lia|].
  specialize (H3 b Hb2 Hb3) as Hbb.
  assert (e0 = length l → back_to_boundary l e0 = length l) as Hend.
  { intros E. assert (length l ≤ back_to_boundary l e0)%nat; [|lia].
    apply H3; [lia|]. apply is_char_boundary_length. }
  destruct (decide (e0 = length l)) as [E|E].
  - rewrite (Hend E) in *. split_and!; try lia. apply is_char_boundary_length.
  - split_and!; try lia. done.
Qed.

Lemma slice_ok k l start e :
  utf8_valid l = true → (start < e ≤ length l)%nat →
  (e ≤ start + Z.to_nat MAX_FRAGMENT_BYTES)%nat →
  is_char_boundary l start = true → is_char_boundary l e = true →
  fragment_ok k (mkFragment k (slice l start e)) ∧ length (slice l start e) = (e - start)%nat.
Proof.
  intros Hv He Hmax Hs Hb. unfold fragment_ok, slice. simpl.
  destruct (boundary_cut l start) as [_ Hd]; [done|lia|done|].
  assert (length (take (e - start) (drop start l)) = e - start)%nat as Hlen.
  { rewrite length_take, length_drop. lia. }
  split_and!; try done.
  - intros E. rewrite E in Hlen. simpl in Hlen. lia.
  - unfold len. rewrite Hlen. lia.
  - rewrite <- (take_drop (e - start) (drop start l)) in Hd.
    apply utf8_valid_cut in Hd; [by destruct Hd|].
    intros b Hhd. rewrite drop_drop in Hhd. replace (start + (e - start))%nat with e in Hhd by lia.
    rewrite head_drop in Hhd. unfold is_char_boundary in Hb.
    destruct e; [lia|]. rewrite Hhd in Hb. by apply negb_true_iff in Hb.
Qed.

Lemma fragment_loop_spec k l :
  utf8_valid l = true →
  ∀ fuel start, (length l - start ≤ fuel)%nat → (start ≤ length l)%nat →
  is_char_boundary l start = true →
  let fs := fragment_loop fuel k l start in
  concat (map fbytes fs) = drop start l ∧ Forall (fragment_ok k) fs ∧ all_but_last_full fs.
Proof.
  intros Hv fuel. induction fuel as [|fuel IH]; intros start Hfuel Hle Hb; cbn [fragment_loop].
  - rewrite drop_ge by lia. by split_and!.
  - destruct (start <? length l)%nat eqn:E.
    2:{ apply Nat.ltb_ge in E. rewrite drop_ge by lia. by split_and!. }
    apply Nat.ltb_lt in E. cbv zeta.
    destruct (next_end_spec l start Hv E) as (H1 & H2 & H3 & H4 & H5).
    set (e := back_to_boundary _ _) in *. clearbody e.
    destruct (slice_ok k l start e) as [Hok Hlen]; [done|lia|done..|].
    destruct (IH e) as (IHc & IHf & IHl); [lia|done|done|].
    cbn [map concat fbytes]. rewrite IHc. split_and!.
    + unfold slice. rewrite <- (take_drop (e - start) (drop start l)) at 2.
      rewrite drop_drop. do 2 f_equal. lia.
    + by constructor.
    + cbn [all_but_last_full]. destruct (fragment_loop fuel k l e) eqn:Ef; [done|].
      split; [|done]. cbn [fbytes]. unfold len. rewrite Hlen.
      assert (e < length l)%nat; [|lia].
      destruct (decide (e = length l)) as [->|]; [|lia].
      destruct fuel; simpl in Ef; [done|]. by rewrite Nat.ltb_irrefl in Ef.
Qed.

(** [fragment_text] splits any text losslessly: the fragments concatenate to
    the text, each is non-empty, within the fragment bound and valid UTF-8 (no
    code point is split), and all but the last are full up to a code point. *)
Theorem fragment_text_lossless k text :
  is_str text →
  concat (map fbytes (fragment_text k text)) = as_bytes text
  ∧ Forall (fragment_ok k) (fragment_text k text)
  ∧ all_but_last_full (fragment_text k text).
Proof.
  intros Hs. unfold fragment_text. destruct (is_empty text) eqn:E.
  - destruct text; [|done]. by split_and!.
  - apply (fragment_loop_spec k (as_bytes text) Hs (length (as_bytes text)) 0); [lia..|done].
Qed.

Lemma fragment_text_lossless_witness :
  concat (map fbytes (fragment_text Markdown "héllo")) = as_bytes "héllo"
  ∧ Forall (fragment_ok Markdown) (fragment_text Markdown "héllo")
  ∧ all_but_last_full (fragment_text Markdown "héllo").
Proof. apply fragment_text_lossless. vm_compute. reflexivity. Defined.

(** *** Batch emission *)

(** The chunks a batch is made of: numbered from [start], carrying the running
    water mark, the last one marked final. *)
Definition batch_from (start index n : Z) (fs : list Fragment) : list StreamChunk :=
  imap (λ i f, mkChunk (start + (index + Z.of_nat i)) (start + n)
                 (index + Z.of_nat i + 1 =? n) f) fs.

Definition batch (start : Z) (fs : list Fragment) : list StreamChunk :=
  batch_from start 0 (len fs) fs.

Lemma batch_from_cons start index n f fs :
  batch_from start index n (f :: fs) =
  mkChunk (start + index) (start + n) (index + 1 =? n) f :: batch_from start (index + 1) n fs.
Proof.
  unfold batch_from. rewrite imap_cons. f_equal.
  - f_equal; [f_equal; lia|f_equal; lia].
  - apply imap_ext. intros i x _. simpl. f_equal; [lia|f_equal; lia].
Qed.

Lemma batch_from_length start index n fs : length (batch_from start index n fs) = length fs.
Proof. apply length_imap. Qed.

Section EmitSpec.
Context {W : Type}.
Variable sink_emit : W → StreamChunk → W * result unit StreamError.
Variable cancelled : W → bool.
Variable log : W → list StreamChunk.
(** The sink records what it accepts and only that. *)
Hypothesis emit_logs : ∀ w c w' r, sink_emit w c = (w', r) →
  log w' = log w ++ (if is_ok r then [c] else []).

Lemma emit_loop_spec fs : ∀ w index n start w' r,
  index + len fs = n →
  emit_loop sink_emit cancelled w fs index n start (start + n) = (w', r) →
  ∃ k, (k ≤ length fs)%nat ∧ log w' = log w ++ take k (batch_from start index n fs)
    ∧ match r with
      | Ok true => k = length fs
      | Ok false => cancelled w' = true
      | Err _ => (k < length fs)%nat
      end.
Proof.
  induction fs as [|f fs IH]; intros w index n start w' r Hn Hrun; simpl in Hrun.
  - simplify_eq. exists 0%nat. rewrite app_nil_r. split_and!; [lia|done|done].
  - rewrite len_cons in Hn.
    destruct (cancelled w) eqn:Ec.
    { simplify_eq. exists 0%nat. simpl. rewrite app_nil_r. split_and!; [lia|done..]. }
    destruct (sink_emit w _) as [w1 r1] eqn:Ee. pose proof (emit_logs _ _ _ _ Ee) as Hlog.
    destruct r1 as [u|e]; simplify_eq.
    + apply IH in Hrun as (k & Hk & Hl & Hr); [|lia].
      exists (S k). rewrite batch_from_cons. simpl. split_and!; [lia| |].
      * rewrite Hl, Hlog. simpl. by rewrite <- app_assoc.
      * destruct r as [[]|]; try done; lia.
    + exists 0%nat. simpl in *. split_and!; [lia|done|lia].
Qed.

(** A batch is emitted as a prefix of its numbering: the sink receives the
    fragments of the batch in order, continuously numbered from [start_seq] with
    the running water mark, and the emitter returns the next unused number
    exactly when every fragment was accepted and no cancellation was observed;
    [None] means the session was cancelled, and an error stops the batch. *)
Theorem emit_fragments_numbers_batch w fs start w' r :
  emit_fragments sink_emit cancelled w fs start = (w', r) →
  ∃ k, (k ≤ length fs)%nat ∧ log w' = log w ++ take k (batch start fs)
    ∧ match r with
      | Ok (Some next) => k = length fs ∧ next = start + len fs ∧ next ≤ u32_max
                          ∧ cancelled w' = false
      | Ok None => cancelled w' = true
      | Err _ => (k < length fs)%nat ∨ u32_max < start + len fs ∨ u32_max < len fs
      end.
Proof.
  unfold emit_fragments, checked_add32. intros H.
  destruct (len fs >? u32_max) eqn:El; reflect_bools.
  { simplify_eq. exists 0%nat. rewrite app_nil_r. split_and!; [lia|done|lia]. }
  destruct (start + len fs <=? u32_max) eqn:Ea; reflect_bools.
  2:{ simplify_eq. exists 0%nat. rewrite app_nil_r. split_and!; [lia|done|lia]. }
  destruct (emit_loop _ _ _ _ _ _ _ _) as [w1 r1] eqn:Eloop.
  apply emit_loop_spec in Eloop as (k & Hk & Hl & Hr); [|lia].
  destruct r1 as [[]|e]; [destruct (cancelled w1) eqn:Ec| |]; simplify_eq; eauto 10.
Qed.

End EmitSpec.

Lemma VecSink_emit_logs (w : VecSink) c w' r :
  emit w c = (w', r) → chunks w' = chunks w ++ (if is_ok r then [c] else []).
Proof.
  simpl. unfold VecSink_emit. intros H. destruct (validate_chunk c); simplify_eq; simpl; [done|].
  by rewrite app_nil_r.
Qed.

(** A sink whose holder cancels once two chunks have arrived. *)
Lemma emit_fragments_numbers_batch_witness :
  let fs := replicate 3 (mkFragment Diff (as_bytes "x")) in
  let w' := mkVecSink (take 2 (batch 7 fs)) in
  emit_fragments (@emit VecSink _) (λ w, 2 <=? len (chunks w)) VecSink_new fs 7 = (w', Ok None)
  ∧ ∃ k, (k ≤ 3)%nat ∧ chunks w' = take k (batch 7 fs) ∧ (2 <=? len (chunks w')) = true.
Proof.
  cbv zeta. split; [vm_compute; reflexivity|].
  apply (emit_fragments_numbers_batch (@emit VecSink _) (λ w, 2 <=? len (chunks w)) chunks
           VecSink_emit_logs VecSink_new (replicate 3 (mkFragment Diff (as_bytes "x"))) 7
           (mkVecSink (take 2 (batch 7 (replicate 3 (mkFragment Diff (as_bytes "x")))))) (Ok None)).
  vm_compute. reflexivity.
Defined.

(** The chunks of a batch frame correctly: with fragments within the bound,
    every chunk of the batch passes [validate_chunk]. *)
Lemma batch_from_valid start index n fs :
  0 ≤ start → 0 ≤ index → index + len fs = n →
  Forall (λ f, len f.(fbytes) ≤ MAX_FRAGMENT_BYTES) fs →
  Forall (λ c, validate_chunk c = Ok tt) (batch_from start index n fs).
Proof.
  revert index. induction fs as [|f fs IH]; intros index Hs Hi Hn Hf; [constructor|].
  rewrite batch_from_cons, len_cons in *. pose proof (len_nonneg fs).
  inversion Hf; subst. constructor; [|apply IH; auto; lia].
  apply validate_chunk_ok. cbn [total seq is_final fragment]. split_and!; lia.
Qed.

Lemma emit_loop_vec fs : ∀ s index n start,
  0 ≤ start → 0 ≤ index → index + len fs = n →
  Forall (λ f, len f.(fbytes) ≤ MAX_FRAGMENT_BYTES) fs →
  emit_loop (@emit VecSink _) (λ _, false) s fs index n start (start + n)
  = (mkVecSink (s.(vec_chunks) ++ batch_from start index n fs), Ok true).
Proof.
  induction fs as [|f fs IH]; intros s index n start Hs Hi Hn Hf.
  - simpl. rewrite app_nil_r. by destruct s.
  - pose proof (batch_from_valid start index n (f :: fs) Hs Hi Hn Hf) as Hv.
    rewrite batch_from_cons in *. inversion Hv as [|c cs Hc _]; subst c cs.
    cbn [emit_loop]. simpl. unfold VecSink_emit. rewrite Hc.
    rewrite len_cons in Hn. inversion Hf; subst.
    rewrite IH by (auto; lia). simpl. by rewrite <- app_assoc.
Qed.

(** A batch of bounded fragments into an unbounded sink that nobody cancels
    is delivered whole: the emitter succeeds, the sink holds exactly the batch
    after what it held, and the payload bytes arrive in order. *)
Theorem emit_fragments_delivers s fs start :
  0 ≤ start → start + len fs ≤ u32_max →
  Forall (λ f, len f.(fbytes) ≤ MAX_FRAGMENT_BYTES) fs →
  emit_fragments (@emit VecSink _) (λ _, false) s fs start
    = (mkVecSink (s.(vec_chunks) ++ batch start fs), Ok (Some (start + len fs)))
  ∧ concatenated_bytes (batch start fs) = concat (map fbytes fs).
Proof.
  intros Hs Hmax Hf. pose proof (len_nonneg fs). split.
  - unfold emit_fragments, checked_add32.
    replace (len fs >? u32_max) with false by lia.
    replace (start + len fs <=? u32_max) with true by lia.
    by rewrite emit_loop_vec.
  - unfold concatenated_bytes, batch, batch_from. f_equal.
    generalize (len fs). intros n. generalize 0. clear.
    induction fs as [|f fs IH]; intros i; [done|].
    change (imap _ (f :: fs)) with (batch_from start i n (f :: fs)).
    rewrite batch_from_cons. simpl. f_equal. apply IH.
Qed.

Lemma emit_fragments_delivers_witness :
  emit_fragments (@emit VecSink _) (λ _, false) VecSink_new
    (fragment_text ToolCard "tool=ls status=ok") 5
  = (mkVecSink (batch 5 (fragment_text ToolCard "tool=ls status=ok")), Ok (Some 6))
  ∧ concatenated_bytes (batch 5 (fragment_text ToolCard "tool=ls status=ok"))
    = concat (map fbytes (fragment_text ToolCard "tool=ls status=ok")).
Proof.
  apply (emit_fragments_delivers VecSink_new (fragment_text ToolCard "tool=ls status=ok") 5).
  - lia.
  - vm_compute. discriminate.
  - vm_compute. repeat constructor; discriminate.
Defined.

(** *** The bounded sink against the unbounded one *)

(** [bs] retains the newest [capacity] of the chunks in [vs] and has counted
    every acceptance and every shed chunk (modulo the counters' width). *)
Definition sink_rel (vs : VecSink) (bs : BoundedSink) : Prop :=
  1 ≤ bs.(capacity)
  ∧ bs.(bchunks) = drop (length vs.(vec_chunks) - Z.to_nat bs.(capacity)) vs.(vec_chunks)
  ∧ bs.(accepted) = len vs.(vec_chunks) mod 2 ^ 64
  ∧ bs.(shed) = (len vs.(vec_chunks) - len bs.(bchunks)) mod 2 ^ 64.

Lemma wrapping_succ_mod a : wrapping_add64 (a mod 2 ^ 64) 1 = (a + 1) mod 2 ^ 64.
Proof. unfold wrapping_add64. rewrite Z.add_mod_idemp_l by lia. done. Qed.

Lemma sink_rel_step vs bs c :
  sink_rel vs bs →
  sink_rel (emit vs c).1 (emit bs c).1 ∧ (emit vs c).2 = (emit bs c).2
  ∧ (emit bs c).1.(capacity) = bs.(capacity).
Proof.
  intros (Hcap & Hch & Hacc & Hshed). simpl.
  unfold VecSink_emit, BoundedSink_emit, emit_attributed.
  destruct (validate_chunk c) eqn:Ev; simpl; [|done]. split; [|done].
  unfold sink_rel. simpl. rewrite Hacc, Hshed, wrapping_succ_mod, length_app.
  assert (length bs.(bchunks) = Nat.min (length (vec_chunks vs)) (Z.to_nat (capacity bs))) as Hlen.
  { rewrite Hch, length_drop. lia. }
  assert (len (vec_chunks vs ++ [c]) = len (vec_chunks vs) + 1) as -> by len_lia.
  destruct (len (bchunks bs) >=? capacity bs) eqn:E; reflect_bools; unfold len in E.
  - rewrite wrapping_succ_mod. split_and!; [done| |done|].
    + rewrite Hch, tail_drop. rewrite drop_app_le by (simpl; lia). f_equal. f_equal. simpl. lia.
    + f_equal. destruct (bchunks bs) as [|c0 cs] eqn:Eb; [simpl in *; lia|].
      simpl. len_lia.
  - split_and!; [done| |done|].
    + rewrite Hch. rewrite drop_app_le by (simpl; lia). f_equal. f_equal. simpl. lia.
    + f_equal. len_lia.
Qed.

Definition emit_all {S} `{StreamSink S} (s : S) (cs : list StreamChunk) : S :=
  fold_left (λ s c, (emit s c).1) cs s.

(** The bounded sink refines the unbounded one: after any stream of chunks it
    holds the newest [capacity] of the chunks the unbounded sink holds, never
    more than [capacity], and its counters account for every accepted and every
    shed chunk, so no loss is silent. *)
Theorem bounded_sink_refines_vec_sink a cap cs :
  let vs := emit_all VecSink_new cs in
  let bs := emit_all (BoundedSink_with_capacity a cap) cs in
  sink_rel vs bs ∧ bs.(capacity) = Z.max cap 1 ∧ len bs.(bchunks) ≤ Z.max cap 1.
Proof.
  cbv zeta.
  assert (∀ cs vs bs, sink_rel vs bs →
    sink_rel (emit_all vs cs) (emit_all bs cs) ∧ (emit_all bs cs).(capacity) = bs.(capacity)) as Hsim.
  { clear. induction cs as [|c cs IH]; intros vs bs H; [done|]. simpl.
    destruct (sink_rel_step vs bs c H) as (H1 & _ & H2).
    destruct (IH _ _ H1) as [H3 H4]. split; [done|]. by etransitivity. }
  destruct (Hsim cs VecSink_new (BoundedSink_with_capacity a cap)) as [Hrel Hcap].
  { unfold sink_rel. simpl. split_and!; [lia|done..]. }
  split_and!; [done|done|].
  destruct Hrel as (H1 & -> & _). unfold len. rewrite length_drop. rewrite Hcap in *. simpl in *. lia.
Qed.
