(* ===== verification/Sse.v ===== *)
(** * Sse: the incremental Server-Sent Events parser

    Models [sse.rs].  The parser is a record; [feed] and [finish] take it and
    return it, also on the error paths, since an error leaves behind what was
    mutated before it. *)

From S2P Require Import Prelude Text Stream.
From Stdlib Require Import Ascii.

Local Open Scope Z_scope.

(** ** Data *)

Definition MAX_SSE_LINE_BYTES : Z := MAX_FRAGMENT_BYTES.
Definition MAX_SSE_EVENT_BYTES : Z := MAX_FRAGMENT_BYTES.

Definition LF : ascii := "010"%char.
Definition CR : ascii := "013"%char.
Definition COLON : ascii := ":"%char.
Definition NUL : ascii := "000"%char.

Record SseEvent := mkSseEvent {
  event : string;
  data : string;
  id : option string;
  retry : option Z
}.

(** [SseEvent::is_done] *)
Definition is_done (e : SseEvent) : bool := str_eqb (trim e.(data)) "[DONE]".

Inductive SseError :=
| LineTooLong (max actual : Z)
| EventTooLong (max actual : Z)
| InvalidUtf8
| InvalidRetry (value : string).

Record SseParser := mkSseParser {
  buffer : bytes;
  current_event : option string;
  current_data : string;
  current_id : option string;
  current_retry : option Z;
  last_event_id : option string;
  has_event_fields : bool
}.

Definition SseParser_new : SseParser := mkSseParser [] None "" None None None false.

(** [reset] restores the initial state. *)
Definition reset (p : SseParser) : SseParser := SseParser_new.

Definition with_buffer (b : bytes) (p : SseParser) : SseParser :=
  mkSseParser b p.(current_event) p.(current_data) p.(current_id) p.(current_retry)
    p.(last_event_id) p.(has_event_fields).

(** ** Line breaks *)

(** The scan of [find_line_break] from index [i]. *)
Fixpoint find_line_break_from (i : nat) (buf : bytes) : option (nat * nat) :=
  match buf with
  | [] => None
  | b :: rest =>
      if bool_decide (b = LF) then Some (i, i + 1)%nat
      else if bool_decide (b = CR) then
        match rest with
        | b1 :: _ => if bool_decide (b1 = LF) then Some (i, i + 2)%nat else Some (i, i + 1)%nat
        | [] => None
        end
      else find_line_break_from (S i) rest
  end.

Definition find_line_break (buf : bytes) : option (nat * nat) := find_line_break_from 0 buf.

(** ** Fields *)

(** [line.find(':')] with the two slices around it. *)
Fixpoint split_colon (line : string) : option (string * string) :=
  match line with
  | EmptyString => None
  | String c rest =>
      if bool_decide (c = COLON) then Some (EmptyString, rest)
      else match split_colon rest with
           | Some (f, v) => Some (String c f, v)
           | None => None
           end
  end.

Definition split_field (line : string) : string * string :=
  match split_colon line with
  | Some (f, v) => (f, match strip_prefix " " v with Some v' => v' | None => v end)
  | None => (line, "")
  end.

(** [value.contains('\0')] *)
Definition contains_nul (v : string) : bool := existsb (λ b, bool_decide (b = NUL)) (as_bytes v).

Definition process_line (p : SseParser) (line : string) : SseParser * result unit SseError :=
  let '(field, value) := split_field line in
  if str_eqb field "event" then
    (mkSseParser p.(buffer) (Some value) p.(current_data) p.(current_id) p.(current_retry)
       p.(last_event_id) true, Ok tt)
  else if str_eqb field "data" then
    let additional_len := if is_empty p.(current_data) then slen value else 1 + slen value in
    let new_len := slen p.(current_data) + additional_len in
    if new_len >? MAX_SSE_EVENT_BYTES then (p, Err (EventTooLong MAX_SSE_EVENT_BYTES new_len))
    else
      let joined := if is_empty p.(current_data) then p.(current_data)
                    else p.(current_data) +:+ String LF "" in
      (mkSseParser p.(buffer) p.(current_event) (joined +:+ value) p.(current_id)
         p.(current_retry) p.(last_event_id) true, Ok tt)
  else if str_eqb field "id" then
    if contains_nul value then (p, Ok tt)
    else (mkSseParser p.(buffer) p.(current_event) p.(current_data) (Some value)
            p.(current_retry) p.(last_event_id) true, Ok tt)
  else if str_eqb field "retry" then
    match parse_u64 (trim value) with
    | Some n => (mkSseParser p.(buffer) p.(current_event) p.(current_data) p.(current_id)
                   (Some n) p.(last_event_id) true, Ok tt)
    | None => (p, Err (InvalidRetry value))
    end
  else (p, Ok tt).

Definition dispatch_current (p : SseParser) : SseParser * SseEvent :=
  (mkSseParser p.(buffer) None "" None None
     (match p.(current_id) with Some eid => Some eid | None => p.(last_event_id) end) false,
   mkSseEvent (default "message" p.(current_event)) p.(current_data) p.(current_id)
     p.(current_retry)).

(** The body of the [loop] for one complete line: decode, then dispatch on an
    empty line, skip a comment, or process a field. *)
Definition handle_line (p : SseParser) (line : bytes) : SseParser * result (list SseEvent) SseError :=
  match from_utf8 line with
  | None => (p, Err InvalidUtf8)
  | Some s =>
      if is_empty s then
        if p.(has_event_fields) then
          let '(p', e) := dispatch_current p in (p', Ok [e])
        else (p, Ok [])
      else match strip_prefix ":" s with
           | Some _ => (p, Ok [])
           | None =>
               match process_line p s with
               | (p', Ok _) => (p', Ok [])
               | (p', Err e) => (p', Err e)
               end
           end
  end.

(** The [loop] of [feed]; each pass drains at least one byte, so one more pass
    than the buffer has bytes is enough ([drain_lines_eq]). *)
Fixpoint feed_loop (fuel : nat) (p : SseParser) (events : list SseEvent) :
    SseParser * result (list SseEvent) SseError :=
  match fuel with
  | O => (p, Ok events)
  | S fuel =>
      match find_line_break p.(buffer) with
      | Some (line_end, advance) =>
          if Z.of_nat line_end >? MAX_SSE_LINE_BYTES then
            (p, Err (LineTooLong MAX_SSE_LINE_BYTES (Z.of_nat line_end)))
          else
            let line := take line_end p.(buffer) in
            match handle_line (with_buffer (drop advance p.(buffer)) p) line with
            | (p', Ok new) => feed_loop fuel p' (events ++ new)
            | (p', Err e) => (p', Err e)
            end
      | None =>
          if len p.(buffer) >? MAX_SSE_LINE_BYTES then
            (p, Err (LineTooLong MAX_SSE_LINE_BYTES (len p.(buffer))))
          else (p, Ok events)
      end
  end.

Definition drain_lines (p : SseParser) (events : list SseEvent) :
    SseParser * result (list SseEvent) SseError :=
  feed_loop (S (length p.(buffer))) p events.

(** [SseParser::feed] *)
Definition feed (p : SseParser) (chunk : bytes) : SseParser * result (list SseEvent) SseError :=
  drain_lines (with_buffer (p.(buffer) ++ chunk) p) [].

(** [SseParser::finish] *)
Definition finish (p : SseParser) : SseParser * result (option SseEvent) SseError :=
  let flush (p : SseParser) :=
    if p.(has_event_fields) then
      let '(p', e) := dispatch_current p in (p', Ok (Some e))
    else (p, Ok None) in
  match p.(buffer) with
  | [] => flush p
  | line =>
      let p := with_buffer [] p in
      match from_utf8 line with
      | None => (p, Err InvalidUtf8)
      | Some s =>
          match strip_prefix ":" s with
          | Some _ => flush p
          | None =>
              if is_empty s then flush p
              else match process_line p s with
                   | (p', Ok _) => flush p'
                   | (p', Err e) => (p', Err e)
                   end
          end
      end
  end.

(** ** Lemmas *)

Lemma find_line_break_from_bounds buf : ∀ i le adv,
  find_line_break_from i buf = Some (le, adv) →
  (i ≤ le)%nat ∧ (le < adv)%nat ∧ (adv ≤ i + length buf)%nat.
Proof.
  induction buf as [|b buf IH]; intros i le adv H; simpl in H; [done|].
  case_bool_decide; [simplify_eq; simpl; lia|].
  case_bool_decide.
  - destruct buf as [|b1 buf]; [done|]. case_bool_decide; simplify_eq; simpl; lia.
  - apply IH in H. simpl. lia.
Qed.

Lemma find_line_break_bounds buf le adv :
  find_line_break buf = Some (le, adv) → (le < adv)%nat ∧ (adv ≤ length buf)%nat.
Proof. intros H. apply find_line_break_from_bounds in H. lia. Qed.

(** A line break once found stays where it is when more bytes arrive. *)
Lemma find_line_break_from_app buf more : ∀ i r,
  find_line_break_from i buf = Some r → find_line_break_from i (buf ++ more) = Some r.
Proof.
  induction buf as [|b buf IH]; intros i r H; simpl in *; [done|].
  case_bool_decide; [done|]. case_bool_decide; [|by apply IH].
  by destruct buf.
Qed.

(** The first line of a buffer that holds none of the terminators up to [LF]. *)
Definition no_eol (l : bytes) : Prop := Forall (λ b, b ≠ LF ∧ b ≠ CR) l.

Lemma find_line_break_line l rest : ∀ i,
  no_eol l → find_line_break_from i (l ++ LF :: rest) = Some (i + length l, i + length l + 1)%nat.
Proof.
  induction l as [|b l IH]; intros i H; simpl.
  - do 2 f_equal; lia.
  - inversion H as [|? ? [H1 H2] H3]; subst. rewrite !bool_decide_eq_false_2 by done.
    rewrite IH by done. do 2 f_equal; lia.
Qed.

Lemma with_buffer_idem b b' p : with_buffer b (with_buffer b' p) = with_buffer b p.
Proof. done. Qed.

Lemma with_buffer_id p : with_buffer p.(buffer) p = p.
Proof. by destruct p. Qed.

(** Field processing neither reads nor writes the byte buffer. *)
Lemma process_line_buffer b p s :
  process_line (with_buffer b p) s = (with_buffer b (process_line p s).1, (process_line p s).2).
Proof.
  unfold process_line, with_buffer. destruct (split_field s) as [f v]. simpl.
  repeat case_if; try done. by destruct (parse_u64 _).
Qed.

Lemma handle_line_buffer b p l :
  handle_line (with_buffer b p) l = (with_buffer b (handle_line p l).1, (handle_line p l).2).
Proof.
  unfold handle_line. destruct (from_utf8 l) as [s|]; [|done].
  destruct (is_empty s).
  - by destruct p as [? ? ? ? ? ? []].
  - destruct (strip_prefix ":" s); [done|]. rewrite process_line_buffer.
    by destruct (process_line p s) as [p' [[]|e]].
Qed.

Lemma handle_line_keeps_buffer p l : (handle_line p l).1.(buffer) = p.(buffer).
Proof.
  rewrite <- (with_buffer_id p) at 1. by rewrite handle_line_buffer.
Qed.

Lemma feed_loop_fuel n : ∀ m p evs,
  (length p.(buffer) < n)%nat → (length p.(buffer) < m)%nat →
  feed_loop n p evs = feed_loop m p evs.
Proof.
  induction n as [|n IH]; intros m p evs Hn Hm; [lia|]. destruct m as [|m]; [lia|]. simpl.
  destruct (find_line_break (buffer p)) as [[le adv]|] eqn:E; [|done].
  apply find_line_break_bounds in E. case_if; [done|].
  rewrite handle_line_buffer. destruct (handle_line p _) as [p' [new|e]] eqn:Eh; [|done].
  simpl. apply IH; simpl; rewrite length_drop; lia.
Qed.

(** The loop of [feed] as an equation: the fuel is always enough. *)
Lemma drain_lines_eq p evs :
  drain_lines p evs =
  match find_line_break p.(buffer) with
  | Some (line_end, advance) =>
      if Z.of_nat line_end >? MAX_SSE_LINE_BYTES then
        (p, Err (LineTooLong MAX_SSE_LINE_BYTES (Z.of_nat line_end)))
      else
        match handle_line (with_buffer (drop advance p.(buffer)) p) (take line_end p.(buffer)) with
        | (p', Ok new) => drain_lines p' (evs ++ new)
        | (p', Err e) => (p', Err e)
        end
  | None =>
      if len p.(buffer) >? MAX_SSE_LINE_BYTES then
        (p, Err (LineTooLong MAX_SSE_LINE_BYTES (len p.(buffer))))
      else (p, Ok evs)
  end.
Proof.
  unfold drain_lines at 1. cbn [feed_loop].
  destruct (find_line_break (buffer p)) as [[le adv]|] eqn:E; [|done].
  apply find_line_break_bounds in E. case_if; [done|].
  rewrite handle_line_buffer. destruct (handle_line p _) as [p' [new|e]]; [|done].
  cbn [fst snd]. unfold drain_lines. apply feed_loop_fuel; cbn [buffer with_buffer]; rewrite ?length_drop; lia.
Qed.

Definition map_events {E} (evs : list SseEvent) (r : SseParser * result (list SseEvent) E) :
    SseParser * result (list SseEvent) E :=
  match r with
  | (p, Ok new) => (p, Ok (evs ++ new))
  | (p, Err e) => (p, Err e)
  end.

Lemma map_events_app {E} evs1 evs2 (r : SseParser * result (list SseEvent) E) :
  map_events evs1 (map_events evs2 r) = map_events (evs1 ++ evs2) r.
Proof. destruct r as [p [evs|e]]; simpl; [|done]. by rewrite app_assoc. Qed.

Lemma map_events_nil {E} (r : SseParser * result (list SseEvent) E) : map_events [] r = r.
Proof. by destruct r as [p [evs|e]]. Qed.

Lemma drain_lines_events p evs : drain_lines p evs = map_events evs (drain_lines p []).
Proof.
  enough (∀ n p evs evs', (length p.(buffer) < n)%nat →
    drain_lines p (evs ++ evs') = map_events evs (drain_lines p evs')) as H.
  { rewrite <- (app_nil_r evs) at 1. eapply H. apply Nat.lt_succ_diag_r. }
  clear. intros n. induction n as [|n IH]; intros p evs evs' Hn; [lia|].
  rewrite (drain_lines_eq p (evs ++ evs')), (drain_lines_eq p evs').
  destruct (find_line_break (buffer p)) as [[le adv]|] eqn:E; [|by case_if].
  apply find_line_break_bounds in E. case_if; [done|].
  pose proof (handle_line_keeps_buffer (with_buffer (drop adv (buffer p)) p) (take le (buffer p))) as Hb.
  destruct (handle_line _ _) as [p' [new|e]]; [|done]. simpl in Hb.
  rewrite <- app_assoc. apply IH. rewrite Hb, length_drop. lia.
Qed.

(** Draining what has arrived and then what arrives later is draining both. *)
Lemma drain_lines_app p more p1 evs1 :
  drain_lines p [] = (p1, Ok evs1) →
  drain_lines (with_buffer (p.(buffer) ++ more) p) []
  = map_events evs1 (drain_lines (with_buffer (p1.(buffer) ++ more) p1) []).
Proof.
  remember (length p.(buffer)) as n eqn:Hn. revert p p1 evs1 Hn.
  induction n as [n IH] using lt_wf_ind. intros p p1 evs1 -> H.
  rewrite drain_lines_eq in H.
  destruct (find_line_break (buffer p)) as [[le adv]|] eqn:E.
  - pose proof (find_line_break_bounds _ _ _ E) as Hb.
    case_if_in H; [done|].
    rewrite drain_lines_eq. cbn [buffer with_buffer].
    unfold find_line_break in E |- *. erewrite find_line_break_from_app by done.
    cbv beta iota. rewrite Heqb. rewrite with_buffer_idem, take_app_le, drop_app_le by lia.
    rewrite handle_line_buffer in H |- *.
    destruct (handle_line p (take le (buffer p))) as [p' [new|e]]; [|done]. cbn [fst snd] in *.
    simpl app in *. rewrite drain_lines_events in H.
    destruct (drain_lines (with_buffer (drop adv (buffer p)) p') []) as [p2 [evs2|e2]] eqn:E2; [|done].
    simpl in H. simplify_eq. rewrite drain_lines_events.
    apply (IH (length (drop adv (buffer p)))) in E2; [|rewrite length_drop; lia|done].
    cbn [buffer with_buffer] in E2. rewrite with_buffer_idem in E2. rewrite E2.
    apply map_events_app.
  - case_if_in H; [done|]. simplify_eq. by rewrite map_events_nil.
Qed.

(** ** Properties *)

Fixpoint feed_all (p : SseParser) (cs : list bytes) : SseParser * result (list SseEvent) SseError :=
  match cs with
  | [] => (p, Ok [])
  | c :: cs =>
      match feed p c with
      | (p', Ok evs) => map_events evs (feed_all p' cs)
      | (p', Err e) => (p', Err e)
      end
  end.

(** Chunking does not matter: once a chunk is accepted, feeding the next one
    gives exactly what feeding both at once gives, errors included. *)
Lemma feed_app p c1 c2 p1 evs1 :
  feed p c1 = (p1, Ok evs1) → feed p (c1 ++ c2) = map_events evs1 (feed p1 c2).
Proof.
  unfold feed. intros H. apply (drain_lines_app _ c2) in H. cbn [buffer with_buffer] in H.
  rewrite with_buffer_idem, <- app_assoc in H. exact H.
Qed.

(** C40: the parser is incremental: any split of a byte stream into chunks, at
    arbitrary byte boundaries (inside a code point, a field name or a line
    terminator), that is accepted chunk by chunk produces exactly the events and
    the final state that feeding the whole stream at once produces. *)
Theorem feed_chunking_irrelevant p cs p' evs :
  buffer p = [] →
  feed_all p cs = (p', Ok evs) → feed p (concat cs) = (p', Ok evs).
Proof.
  intros Hb H.
  assert (∀ cs p p' evs, drain_lines p [] = (p, Ok []) → feed_all p cs = (p', Ok evs) →
            feed p (concat cs) = (p', Ok evs)) as Hgen.
  { clear. intros cs. induction cs as [|c cs IH]; intros p p' evs Hd H; simpl in H.
    - simplify_eq. unfold feed. simpl. rewrite app_nil_r, with_buffer_id. done.
    - destruct (feed p c) as [p1 [evs1|e]] eqn:E; [|done].
      destruct (feed_all p1 cs) as [p2 [evs2|e]] eqn:E2; [|done]. simpl in H. simplify_eq.
      simpl. erewrite feed_app by done. erewrite IH; [done| |done].
      pose proof (feed_app p c [] p1 evs1 E) as H0. rewrite app_nil_r, E in H0.
      unfold feed in H0. rewrite app_nil_r, with_buffer_id in H0.
      destruct (drain_lines p1 []) as [p3 [evs3|e3]]; [|done]. simpl in H0.
      injection H0 as -> H0. rewrite <- (app_nil_r evs1) in H0 at 1.
      apply app_inv_head in H0. by subst. }
  apply Hgen; [|done]. rewrite drain_lines_eq, Hb. done.
Qed.

Lemma feed_chunking_irrelevant_witness :
  let cs := [as_bytes "da"; as_bytes ("ta: h" +:+ String "195" ""); as_bytes (String "169" (String CR ""));
             as_bytes (String LF (String LF ""))] in
  buffer SseParser_new = [] ∧
  feed SseParser_new (concat cs)
  = (SseParser_new, Ok [mkSseEvent "message" "hé" None None]).
Proof.
  split; [reflexivity|].
  apply (feed_chunking_irrelevant SseParser_new
    [as_bytes "da"; as_bytes ("ta: h" +:+ String "195" ""); as_bytes (String "169" (String CR ""));
     as_bytes (String LF (String LF ""))]); vm_compute; reflexivity.
Defined.

(** *** Bounds *)

Definition data_bounded (p : SseParser) : Prop := slen p.(current_data) ≤ MAX_SSE_EVENT_BYTES.

Lemma process_line_bounded p s :
  data_bounded p → data_bounded (process_line p s).1.
Proof.
  unfold data_bounded, process_line. intros H. destruct (split_field s) as [f v].
  repeat case_if; simpl; try done.
  - rewrite slen_app. reflect_bools. lia.
  - rewrite !slen_app. change (slen (String LF "")) with 1. reflect_bools. lia.
  - by destruct (parse_u64 _).
Qed.

Lemma handle_line_bounded p l p' r :
  data_bounded p → handle_line p l = (p', r) →
  data_bounded p' ∧ ∀ evs, r = Ok evs → Forall (λ e, slen e.(data) ≤ MAX_SSE_EVENT_BYTES) evs.
Proof.
  unfold handle_line. intros Hp H. destruct (from_utf8 l) as [s|]; [|by simplify_eq].
  destruct (is_empty s).
  - unfold dispatch_current in H. case_if_in H; simplify_eq.
    2:{ split; [done|]. intros evs ?. by simplify_eq. }
    split; [|intros evs ?; simplify_eq; constructor; [exact Hp|constructor]].
    unfold data_bounded, MAX_SSE_EVENT_BYTES, MAX_FRAGMENT_BYTES. simpl. change (slen "") with 0. lia.
  - destruct (strip_prefix ":" s).
    { simplify_eq. split; [done|]. intros evs ?. by simplify_eq. }
    pose proof (process_line_bounded p s Hp) as Hb.
    destruct (process_line p s) as [p1 [[]|e]]; simplify_eq; split; try done.
    intros evs ?. by simplify_eq.
Qed.

(** The parser's memory is bounded: after any accepted chunk the line buffer
    holds at most [MAX_SSE_LINE_BYTES], and in every case (errors included) the
    pending payload and the payload of every produced event stay within
    [MAX_SSE_EVENT_BYTES]. *)
Theorem feed_bounded p c p' r :
  data_bounded p → feed p c = (p', r) →
  data_bounded p' ∧ ∀ evs, r = Ok evs →
    len p'.(buffer) ≤ MAX_SSE_LINE_BYTES ∧
    Forall (λ e, slen e.(data) ≤ MAX_SSE_EVENT_BYTES) evs.
Proof.
  unfold feed. set (q := with_buffer _ p). intros Hp.
  assert (data_bounded q) as Hq by done. clearbody q. clear Hp p c.
  remember (length q.(buffer)) as n eqn:Hn. revert q Hn p' r Hq.
  induction n as [n IH] using lt_wf_ind. intros q -> p' r Hq H.
  rewrite drain_lines_eq in H.
  destruct (find_line_break (buffer q)) as [[le adv]|] eqn:E.
  - pose proof (find_line_break_bounds _ _ _ E) as Hb. case_if_in H; [by simplify_eq|].
    pose proof (handle_line_keeps_buffer (with_buffer (drop adv (buffer q)) q) (take le (buffer q))) as Hk.
    destruct (handle_line _ _) as [q1 [new|e]] eqn:Eh;
      apply handle_line_bounded in Eh as [Hq1 Hnew]; try done; [|by simplify_eq].
    rewrite drain_lines_events in H. destruct (drain_lines q1 []) as [q2 r2] eqn:E2.
    simpl in Hk. apply (IH (length (buffer q1))) in E2 as [Hq2 Hr2]; try done.
    2:{ rewrite Hk, length_drop. lia. }
    destruct r2 as [evs2|e2]; simpl in H; simplify_eq; (split; [done|]); [|done].
    intros evs [= <-]. destruct (Hr2 _ eq_refl) as [H1 H2]. split; [done|].
    apply Forall_app. split; [|done]. by apply Hnew.
  - case_if_in H; simplify_eq; (split; [done|]); [done|].
    intros evs [= <-]. reflect_bools. by split.
Qed.

Lemma feed_bounded_witness :
  data_bounded SseParser_new ∧
  ∃ p', feed SseParser_new (as_bytes ("data: x" +:+ String LF "da")) = (p', Ok [])
  ∧ data_bounded p' ∧ len p'.(buffer) ≤ MAX_SSE_LINE_BYTES.
Proof.
  assert (data_bounded SseParser_new) as H0 by (vm_compute; discriminate). split; [done|].
  eexists. split; [vm_compute; reflexivity|].
  destruct (feed_bounded SseParser_new (as_bytes ("data: x" +:+ String LF "da")) _ _ H0
              ltac:(vm_compute; reflexivity)) as [H1 H2].
  split; [exact H1|]. apply (H2 [] eq_refl).
Defined.

(** *** Round trip *)

(** One field line as a server writes it, and an event with one [data] line per
    element of [lines]. *)
Definition encode_field (name value : string) : bytes := as_bytes (name +:+ ": " +:+ value) ++ [LF].

Definition encode_event (name : string) (lines : list string) (eid : option string) : bytes :=
  encode_field "event" name ++ concat (map (encode_field "data") lines)
  ++ match eid with Some i => encode_field "id" i | None => [] end ++ [LF].

(** The payload the lines stand for: joined with [\n]. *)
Definition join_lines (l0 : string) (ls : list string) : string :=
  fold_left (λ d l, d +:+ String LF l) ls l0.

(** Values a line can carry. *)
Definition field_value (v : string) : Prop :=
  is_str v ∧ no_eol (as_bytes v) ∧ slen v + 7 ≤ MAX_SSE_LINE_BYTES.

Lemma drain_line p s rest :
  p.(buffer) = as_bytes s ++ LF :: rest → no_eol (as_bytes s) → slen s ≤ MAX_SSE_LINE_BYTES →
  drain_lines p [] =
  match handle_line (with_buffer rest p) (as_bytes s) with
  | (p', Ok new) => map_events new (drain_lines p' [])
  | (p', Err e) => (p', Err e)
  end.
Proof.
  intros Hb Hn Hs. rewrite drain_lines_eq, Hb. unfold find_line_break.
  rewrite find_line_break_line by done. simpl plus.
  rewrite as_bytes_length in *. unfold slen in Hs.
  replace (Z.of_nat (String.length s) >? MAX_SSE_LINE_BYTES) with false by lia.
  rewrite take_app_le, take_ge, drop_app_ge by (rewrite as_bytes_length; lia).
  rewrite as_bytes_length. replace (String.length s + 1 - String.length s)%nat with 1%nat by lia.
  simpl drop. rewrite drop_0.
  destruct (handle_line _ _) as [p' [new|e]]; [|done]. apply drain_lines_events.
Qed.

Lemma handle_field p s :
  is_str s → s ≠ "" → strip_prefix ":" s = None →
  handle_line p (as_bytes s) =
  match process_line p s with (p', Ok _) => (p', Ok []) | (p', Err e) => (p', Err e) end.
Proof.
  intros Hs Hne Hc. unfold handle_line, from_utf8. unfold is_str in Hs. rewrite Hs.
  rewrite of_bytes_as_bytes. destruct s; [done|]. cbn [is_empty]. by rewrite Hc.
Qed.

Lemma no_eol_app l k : no_eol l → no_eol k → no_eol (l ++ k).
Proof. intros. by apply Forall_app. Qed.

(** One encoded field, as the fields of an event come. *)
Lemma drain_field p name value rest p1 :
  (name = "event" ∨ name = "data" ∨ name = "id") → field_value value →
  p.(buffer) = encode_field name value ++ rest →
  process_line (with_buffer rest p) (name +:+ ": " +:+ value) = (p1, Ok tt) →
  drain_lines p [] = drain_lines p1 [].
Proof.
  intros Hname (Hstr & Heol & Hlen) Hb Hp. unfold encode_field in Hb. rewrite <- app_assoc in Hb.
  simpl in Hb.
  assert (is_str (name +:+ ": " +:+ value) ∧ no_eol (as_bytes (name +:+ ": " +:+ value))
    ∧ slen (name +:+ ": " +:+ value) ≤ MAX_SSE_LINE_BYTES
    ∧ (name +:+ ": " +:+ value) ≠ "" ∧ strip_prefix ":" (name +:+ ": " +:+ value) = None)
    as (H1 & H2 & H3 & H4 & H5).
  { unfold is_str. rewrite !as_bytes_app, !slen_app.
    destruct Hname as [->|[->| ->]]; (split_and!;
      [rewrite app_assoc, utf8_valid_app; done
      |rewrite app_assoc; apply no_eol_app; [repeat constructor; done|done]
      |change (slen ": ") with 2; vm_compute slen at 1; lia
      |done|done]). }
  rewrite (drain_line p _ rest Hb H2 H3), handle_field, Hp by done. apply map_events_nil.
Qed.

Lemma join_lines_length ls : ∀ d, slen d ≤ slen (join_lines d ls).
Proof.
  induction ls as [|l ls IH]; intros d; simpl; [unfold join_lines; simpl; lia|].
  etransitivity; [|apply IH]. rewrite slen_app. pose proof (slen_nonneg (String LF l)). lia.
Qed.

Definition with_data (d : string) (p : SseParser) : SseParser :=
  mkSseParser p.(buffer) p.(current_event) d p.(current_id) p.(current_retry) p.(last_event_id) true.

Lemma process_data p v :
  slen p.(current_data) + (if is_empty p.(current_data) then slen v else 1 + slen v)
    ≤ MAX_SSE_EVENT_BYTES →
  process_line p ("data" +:+ ": " +:+ v) =
  (with_data (if is_empty p.(current_data) then v else p.(current_data) +:+ String LF v) p, Ok tt).
Proof.
  intros H. unfold process_line. change (split_field ("data" +:+ ": " +:+ v)) with ("data", v).
  cbv iota. change (str_eqb "data" "event") with false. change (str_eqb "data" "data") with true.
  cbv iota zeta.
  destruct (is_empty (current_data p)) eqn:E.
  - replace (slen (current_data p) + slen v >? MAX_SSE_EVENT_BYTES) with false by lia.
    destruct (current_data p); done.
  - replace (slen (current_data p) + (1 + slen v) >? MAX_SSE_EVENT_BYTES) with false by lia.
    unfold with_data. by rewrite append_assoc.
Qed.

Lemma drain_data_lines ls : ∀ p rest,
  is_empty p.(current_data) = false → p.(has_event_fields) = true →
  p.(buffer) = concat (map (encode_field "data") ls) ++ rest →
  Forall field_value ls → slen (join_lines p.(current_data) ls) ≤ MAX_SSE_EVENT_BYTES →
  drain_lines p [] = drain_lines (with_buffer rest (with_data (join_lines p.(current_data) ls) p)) [].
Proof.
  induction ls as [|l ls IH]; intros p rest Hne Hh Hb Hf Hlen.
  - simpl in *. f_equal. destruct p; simpl in *; by subst.
  - simpl in Hb. rewrite <- app_assoc in Hb. inversion Hf; subst.
    unfold join_lines in *. simpl in Hlen.
    set (d' := p.(current_data) +:+ String LF l) in *.
    assert (slen d' ≤ MAX_SSE_EVENT_BYTES).
    { etransitivity; [|apply Hlen]. apply join_lines_length. }
    assert (is_empty d' = false) as Hne' by (subst d'; by destruct (current_data p)).
    erewrite (drain_field p "data" l _ _); [| |done|exact Hb|].
    + erewrite (IH (with_data d' (with_buffer (concat (map (encode_field "data") ls) ++ rest) p)));
        try done.
    + auto.
    + rewrite process_data; cbn [current_data with_buffer]; rewrite Hne; [done|].
      subst d'. rewrite slen_app, slen_cons in *. lia.
Qed.

(** A parser between events. *)
Definition idle (last : option string) : SseParser := mkSseParser [] None "" None None last false.

(** Encoding and parsing round trip: from a parser between events, the bytes
    of an encoded event produce exactly that event (name, payload, id) and leave
    the parser between events, with the last id recorded.  The payload's first
    line must not be empty unless it is the only one. *)
Theorem feed_encoded_event last name l0 ls eid :
  field_value name → Forall field_value (l0 :: ls) →
  (l0 ≠ "" ∨ ls = []) →
  slen (join_lines l0 ls) ≤ MAX_SSE_EVENT_BYTES →
  (∀ i, eid = Some i → field_value i ∧ contains_nul i = false) →
  feed (idle last) (encode_event name (l0 :: ls) eid)
  = (idle (match eid with Some i => Some i | None => last end),
     Ok [mkSseEvent name (join_lines l0 ls) eid None]).
Proof.
  intros Hname Hlines Hfirst Hlen Hid. inversion Hlines as [|? ? Hl0 Hls]; subst.
  unfold feed, encode_event. cbn [buffer with_buffer idle app map concat].
  set (tail := match eid with Some i => encode_field "id" i | None => [] end ++ [LF]).
  erewrite (drain_field _ "event" name); [|by auto|done|reflexivity|reflexivity].
  assert (slen l0 ≤ MAX_SSE_EVENT_BYTES).
  { etransitivity; [apply (join_lines_length ls)|done]. }
  erewrite (drain_field _ "data" l0); [|by auto|done| |];
    [|cbn [buffer with_buffer]; rewrite <- !app_assoc; reflexivity|
      rewrite process_data by (cbn; change (slen "") with 0; lia); reflexivity].
  cbn [buffer with_buffer with_data current_data is_empty].
  assert (∀ p0, current_data p0 = l0 → has_event_fields p0 = true →
    buffer p0 = concat (map (encode_field "data") ls) ++ tail →
    drain_lines p0 [] = drain_lines (with_buffer tail (with_data (join_lines l0 ls) p0)) []) as Hdata.
  { intros p0 E1 E2 E3. destruct Hfirst as [Hne| ->].
    - rewrite (drain_data_lines ls p0 tail); subst l0; try done. by destruct (current_data p0).
    - simpl in *. f_equal. destruct p0; simpl in *; by subst. }
  rewrite Hdata by done. clear Hdata. subst tail.
  destruct eid as [i|].
  - destruct (Hid i eq_refl) as [Hi Hnul].
    erewrite (drain_field _ "id" i); [|by auto|done|reflexivity|].
    2:{ unfold process_line. change (split_field ("id" +:+ ": " +:+ i)) with ("id", i). cbn.
        rewrite Hnul. reflexivity. }
    rewrite drain_lines_eq. reflexivity.
  - rewrite drain_lines_eq. reflexivity.
Qed.

Lemma feed_encoded_event_witness :
  feed (idle (Some "4")) (encode_event "delta" ["{"; ""; "}"] (Some "5"))
  = (idle (Some "5"), Ok [mkSseEvent "delta" (join_lines "{" [""; "}"]) (Some "5") None]).
Proof.
  apply (feed_encoded_event (Some "4") "delta" "{" [""; "}"] (Some "5")).
  - split_and!; [vm_compute; done|repeat constructor; done|vm_compute; done].
  - repeat constructor; try (vm_compute; done); split_and!;
      try (vm_compute; done); repeat constructor; done.
  - by left.
  - vm_compute. done.
  - intros i [= <-]. split; [|done].
    split_and!; [vm_compute; done|repeat constructor; done|vm_compute; done].
Defined.

(** *** Where the parser departs from the protocol it implements *)

Lemma find_line_break_none l : ∀ i, no_eol l → find_line_break_from i l = None.
Proof.
  induction l as [|b l IH]; intros i H; simpl; [done|].
  inversion H as [|? ? [H1 H2] H3]; subst. by rewrite !bool_decide_eq_false_2, IH.
Qed.

Lemma find_line_break_pending_cr l : ∀ i, no_eol l → find_line_break_from i (l ++ [CR]) = None.
Proof.
  induction l as [|b l IH]; intros i H; simpl; [done|].
  inversion H as [|? ? [H1 H2] H3]; subst. by rewrite !bool_decide_eq_false_2, IH.
Qed.

Lemma find_line_break_crlf l : ∀ i,
  no_eol l → find_line_break_from i (l ++ [CR; LF]) = Some (i + length l, i + length l + 2)%nat.
Proof.
  induction l as [|b l IH]; intros i H; simpl.
  - do 2 f_equal; lia.
  - inversion H as [|? ? [H1 H2] H3]; subst. rewrite !bool_decide_eq_false_2, IH by done.
    do 2 f_equal; lia.
Qed.

(** A line at the length limit is accepted or refused depending on where the
    stream is cut: a comment line of exactly [MAX_SSE_LINE_BYTES] bytes ended by
    CR LF is accepted whole, and refused when a chunk ends between CR and LF,
    because the pending CR is counted as a byte of the line. *)
Theorem line_limit_depends_on_cut l :
  no_eol l → utf8_valid l = true → 1 + len l = MAX_SSE_LINE_BYTES →
  feed (idle None) ((COLON :: l) ++ [CR; LF]) = (idle None, Ok [])
  ∧ (feed (idle None) ((COLON :: l) ++ [CR])).2
    = Err (LineTooLong MAX_SSE_LINE_BYTES (MAX_SSE_LINE_BYTES + 1)).
Proof.
  intros Heol Hutf Hlen.
  assert (no_eol (COLON :: l)) as Heol' by by constructor.
  split; unfold feed; rewrite drain_lines_eq; cbn [buffer with_buffer idle]; unfold find_line_break;
    simpl (_ ++ _); rewrite app_comm_cons.
  - rewrite find_line_break_crlf by done. cbv iota beta. rewrite Nat.add_0_l, take_app_length. rewrite drop_app_ge by lia.
    replace (length (COLON :: l) + 2 - length (COLON :: l))%nat with 2%nat by lia.
    change (drop 2 [CR; LF]) with (@nil ascii).
    change (Z.of_nat (length (COLON :: l))) with (len (COLON :: l)). rewrite len_cons.
    replace (1 + len l >? MAX_SSE_LINE_BYTES) with false by lia.
    unfold handle_line, from_utf8. cbn [utf8_valid].
    change (in_range 0 127 COLON) with true. cbv iota. rewrite Hutf. reflexivity.
  - rewrite find_line_break_pending_cr by done.
    assert (len ((COLON :: l) ++ [CR]) = MAX_SSE_LINE_BYTES + 1) as -> by len_lia.
    by replace (MAX_SSE_LINE_BYTES + 1 >? MAX_SSE_LINE_BYTES) with true by lia.
Qed.

Lemma replicate_no_eol n b : b ≠ LF → b ≠ CR → no_eol (replicate n b).
Proof. intros ? ?. by apply Forall_replicate. Qed.

Lemma line_limit_depends_on_cut_witness :
  let l := replicate (Z.to_nat (MAX_SSE_LINE_BYTES - 1)) "x"%char in
  feed (idle None) ((COLON :: l) ++ [CR; LF]) = (idle None, Ok [])
  ∧ (feed (idle None) ((COLON :: l) ++ [CR])).2
    = Err (LineTooLong MAX_SSE_LINE_BYTES (MAX_SSE_LINE_BYTES + 1)).
Proof.
  apply line_limit_depends_on_cut.
  - by apply replicate_no_eol.
  - vm_compute. reflexivity.
  - vm_compute. reflexivity.
Defined.

Lemma feed_pending_cr l last :
  no_eol l → len l + 1 ≤ MAX_SSE_LINE_BYTES →
  feed (idle last) (l ++ [CR]) = (with_buffer (l ++ [CR]) (idle last), Ok []).
Proof.
  intros Heol Hlen. unfold feed. rewrite drain_lines_eq. cbn [buffer with_buffer idle].
  unfold find_line_break. rewrite app_nil_l, find_line_break_pending_cr by done.
  assert (len (l ++ [CR]) = len l + 1) as -> by len_lia.
  by replace (len l + 1 >? MAX_SSE_LINE_BYTES) with false by lia.
Qed.

(** [finish] on an unterminated field line. *)
Lemma finish_line p s :
  p.(buffer) = as_bytes s → is_str s → is_empty s = false → strip_prefix ":" s = None →
  finish p =
  match process_line (with_buffer [] p) s with
  | (p', Ok _) =>
      if p'.(has_event_fields) then
        let '(p'', e) := dispatch_current p' in (p'', Ok (Some e))
      else (p', Ok None)
  | (p', Err e) => (p', Err e)
  end.
Proof.
  intros Hb Hs He Hc. unfold finish. rewrite Hb.
  assert (from_utf8 (as_bytes s) = Some s) as Hu.
  { unfold from_utf8. unfold is_str in Hs. by rewrite Hs, of_bytes_as_bytes. }
  destruct (as_bytes s) eqn:E; [by destruct s|].
  by rewrite Hu, Hc, He.
Qed.

(** At the end of a stream that ends in a bare CR, [finish] keeps that line
    terminator as the last byte of the field's value. *)
Theorem finish_keeps_trailing_cr v :
  field_value v →
  finish (feed (idle None) (as_bytes ("data: " +:+ v) ++ [CR])).1
  = (idle None, Ok (Some (mkSseEvent "message" (v +:+ String CR "") None None))).
Proof.
  intros (Hstr & Heol & Hlen).
  rewrite feed_pending_cr.
  2:{ rewrite as_bytes_app. apply no_eol_app; [repeat constructor; done|done]. }
  2:{ rewrite <- slen_of_bytes, of_bytes_as_bytes, slen_app. change (slen "data: ") with 6. lia. }
  set (s := "data" +:+ ": " +:+ (v +:+ String CR "")).
  assert (as_bytes ("data: " +:+ v) ++ [CR] = as_bytes s) as ->.
  { subst s. rewrite !as_bytes_app. done. }
  assert (is_str s) as Hs.
  { subst s. unfold is_str. rewrite !as_bytes_app, app_assoc, utf8_valid_app by done.
    by rewrite utf8_valid_app. }
  rewrite (finish_line _ s) by done.
  assert (∀ p, current_data p = "" → process_line p s
      = (with_data (v +:+ String CR "") p, Ok tt)) as Hp; [|by rewrite Hp].
  intros p Hp. subst s. rewrite process_data, Hp; [done|]. rewrite Hp. cbn [is_empty].
  change (slen "") with 0. rewrite slen_app. change (slen (String CR "")) with 1.
  unfold MAX_SSE_EVENT_BYTES, MAX_SSE_LINE_BYTES in *. lia.
Qed.

Lemma finish_keeps_trailing_cr_witness :
  finish (feed (idle None) (as_bytes ("data: " +:+ "hi") ++ [CR])).1
  = (idle None, Ok (Some (mkSseEvent "message" ("hi" +:+ String CR "") None None))).
Proof.
  apply (finish_keeps_trailing_cr "hi").
  split_and!; [vm_compute; done|repeat constructor; done|vm_compute; done].
Defined.

(** A leading empty [data] line leaves no trace in the payload: the separator is
    only pushed when the payload is non-empty. *)
Example leading_empty_data_line_dropped :
  feed (idle None) (encode_event "m" [""; "x"] None)
  = (idle None, Ok [mkSseEvent "m" "x" None None]).
Proof. vm_compute. reflexivity. Qed.
