(* ===== verification/ToolTypes.v ===== *)
(** * ToolTypes: bounded diagnostics, tool errors, declarations and the registry

    Models [bound_reason] of [bridge.rs] and the data half of [tool.rs]: the
    error type with its rendering and its normalisation, name and placement
    validation, tool declarations with their digest, the per-session registry,
    execution records and the rows of the permission-use audit ring. *)

From S2P Require Import Prelude Text Session.

Local Open Scope Z_scope.
Local Open Scope rust_scope.

(** ** Bounded diagnostics *)

Definition MAX_REASON_BYTES : Z := 512.

(** The bytes [bound_reason] keeps: [is_ascii_graphic] or a space. *)
Definition is_printable (b : ascii) : bool := is_ascii_graphic b || byte_eqb 32 b.

Definition scrub (b : ascii) : ascii :=
  if is_printable b then b else Ascii.ascii_of_N 63.

(** The loop over [reason.chars()]: [bounded] accumulates one byte per
    character (a character is read through its first byte, which is the whole
    character exactly when it is ASCII). *)
Fixpoint bound_loop (chars bounded : bytes) : bytes :=
  match chars with
  | [] => bounded
  | c :: chars =>
      if len bounded >=? MAX_REASON_BYTES then bounded
      else bound_loop chars (bounded ++ [scrub c])
  end.

Definition bound_reason (reason : string) : string :=
  of_bytes (bound_loop (char_leads reason) []).

(** ** Errors *)

Inductive ToolError :=
| InvalidName (name : string)
| UnknownTool (name : string)
| DuplicateTool (name : string)
| ArgumentsTooLarge (limit actual : Z)
| ResultTooLarge (limit actual : Z)
| SummaryTooLarge (limit actual : Z)
| CallLimitExceeded (limit : Z)
| RegistryFull (limit : Z)
| DescriptionTooLarge (limit actual : Z)
| SchemaTooLarge (limit actual : Z)
| UndeclaredPlacement (name : string)
| ErrDenied (name reason : string)
| ErrFailed (name reason : string)
| ErrProtocolRejected (name reason : string)
| ErrEffectUnknown (name reason : string).

#[export] Instance ToolError_eq_dec : EqDecision ToolError.
Proof. solve_decision. Defined.

(** [Display for ToolError] *)
Definition ToolError_to_string (e : ToolError) : string :=
  match e with
  | InvalidName name => "invalid tool name: " +:+ name
  | UnknownTool name => "unknown tool: " +:+ name
  | DuplicateTool name => "duplicate tool: " +:+ name
  | ArgumentsTooLarge limit actual =>
      "tool arguments of " +:+ show actual +:+ " bytes exceed " +:+ show limit +:+ " byte limit"
  | ResultTooLarge limit actual =>
      "tool result of " +:+ show actual +:+ " bytes exceeds " +:+ show limit +:+ " byte limit"
  | SummaryTooLarge limit actual =>
      "tool summary of " +:+ show actual +:+ " bytes exceeds " +:+ show limit +:+ " byte limit"
  | CallLimitExceeded limit => "tool call limit of " +:+ show limit +:+ " per turn exceeded"
  | RegistryFull limit => "tool registry full at " +:+ show limit +:+ " tools"
  | DescriptionTooLarge limit actual =>
      "tool description of " +:+ show actual +:+ " bytes exceeds " +:+ show limit +:+ " byte limit"
  | SchemaTooLarge limit actual =>
      "tool schema of " +:+ show actual +:+ " bytes exceeds " +:+ show limit +:+ " byte limit"
  | UndeclaredPlacement name => "undeclared tool placement: " +:+ name
  | ErrDenied name reason => "tool " +:+ name +:+ " denied: " +:+ reason
  | ErrFailed name reason => "tool " +:+ name +:+ " failed: " +:+ reason
  | ErrProtocolRejected name reason => "tool " +:+ name +:+ " protocol rejected: " +:+ reason
  | ErrEffectUnknown name reason => "tool " +:+ name +:+ " effect unknown: " +:+ reason
  end.

(** [ToolError::normalized] *)
Definition ToolError_normalized (e : ToolError) : ToolError :=
  match e with
  | InvalidName name => InvalidName (bound_reason name)
  | UnknownTool name => UnknownTool (bound_reason name)
  | DuplicateTool name => DuplicateTool (bound_reason name)
  | UndeclaredPlacement name => UndeclaredPlacement (bound_reason name)
  | ErrDenied name reason => ErrDenied (bound_reason name) (bound_reason reason)
  | ErrFailed name reason => ErrFailed (bound_reason name) (bound_reason reason)
  | ErrProtocolRejected name reason => ErrProtocolRejected (bound_reason name) (bound_reason reason)
  | ErrEffectUnknown name reason => ErrEffectUnknown (bound_reason name) (bound_reason reason)
  | ArgumentsTooLarge _ _ | ResultTooLarge _ _ | SummaryTooLarge _ _ | CallLimitExceeded _
  | RegistryFull _ | DescriptionTooLarge _ _ | SchemaTooLarge _ _ => e
  end.

(** ** Names, placements, declarations *)

Definition MAX_TOOL_NAME_LEN : Z := 64.
Definition MAX_TOOL_DESCRIPTION_LEN : Z := 512.
Definition MAX_TOOL_SCHEMA_BYTES : Z := 16 * 1024.
Definition MAX_TOOLS_PER_SESSION : Z := 32.
Definition MAX_TOOL_CALLS_PER_TURN : Z := 8.
Definition MAX_TOOL_ARGUMENTS_BYTES : Z := 16 * 1024.
Definition MAX_TOOL_RESULT_BYTES : Z := 16 * 1024.
Definition MAX_NATIVE_PLACEMENT_BYTES : Z := 512.
Definition MAX_USAGE_EVENTS : Z := 32.

(** [MAX_SUMMARY_BYTES] of [context.rs]. *)
Definition MAX_SUMMARY_BYTES : Z := 4 * 1024.

(** [_], [.] and [-] beside lowercase letters and digits. *)
Definition is_tool_name_byte (b : ascii) : bool :=
  is_ascii_lowercase b || is_ascii_digit b || byte_eqb 95 b || byte_eqb 46 b || byte_eqb 45 b.

Definition starts_lowercase (s : string) : bool :=
  match s with EmptyString => false | String b _ => is_ascii_lowercase b end.

Definition validate_tool_name (name : string) : result unit ToolError :=
  ensure! negb (is_empty name) && (slen name <=? MAX_TOOL_NAME_LEN)
    && starts_lowercase name && str_forall is_tool_name_byte name
  else InvalidName (bound_reason name) in
  Ok tt.

Inductive ToolPlacement := Mcp | Native.

#[export] Instance ToolPlacement_eq_dec : EqDecision ToolPlacement.
Proof. solve_decision. Defined.

(** [ToolPlacement::parse] *)
Definition ToolPlacement_parse (value : string) : result ToolPlacement ToolError :=
  if str_eqb value "mcp" then Ok Mcp
  else if str_eqb value "native" then Ok Native
  else Err (UndeclaredPlacement (bound_reason value)).

(** [ToolPlacement::as_str] *)
Definition ToolPlacement_as_str (p : ToolPlacement) : string :=
  match p with Mcp => "mcp" | Native => "native" end.

Record NativePlacement := mkNative {
  native_reason : string;
  native_backend : string
}.

Record ToolSpec := mkToolSpec {
  spec_name : string;
  description : string;
  schema_json : bytes;
  required_scope : string;
  read_only : bool;
  placement : option ToolPlacement;
  native : option NativePlacement
}.

Definition validate_placement (name : string) (placement : option ToolPlacement)
    (native : option NativePlacement) : result unit ToolError :=
  let refused := UndeclaredPlacement name in
  match placement with
  | None => Err refused
  | Some placement =>
      match placement, native with
      | Mcp, None => Ok tt
      | Mcp, Some _ => Err refused
      | Native, Some detail =>
          if negb (is_empty detail.(native_reason)) && negb (is_empty detail.(native_backend))
             && (slen detail.(native_reason) <=? MAX_NATIVE_PLACEMENT_BYTES)
             && (slen detail.(native_backend) <=? MAX_NATIVE_PLACEMENT_BYTES)
          then Ok tt else Err refused
      | Native, None => Err refused
      end
  end.

(** [ToolSpec::new] *)
Definition ToolSpec_new (name description : string) (schema_json : bytes)
    (required_scope : string) (read_only : bool) (placement : ToolPlacement)
    (native : option NativePlacement) : result ToolSpec ToolError :=
  try! _ := validate_tool_name name in
  ensure! negb (slen description >? MAX_TOOL_DESCRIPTION_LEN)
  else DescriptionTooLarge MAX_TOOL_DESCRIPTION_LEN (slen description) in
  ensure! negb (len schema_json >? MAX_TOOL_SCHEMA_BYTES)
  else SchemaTooLarge MAX_TOOL_SCHEMA_BYTES (len schema_json) in
  try! _ := validate_placement name (Some placement) native in
  Ok (mkToolSpec name description schema_json required_scope read_only (Some placement) native).

(** FNV-1a-64, the hasher of [schema_digest] and [args_digest]. *)
Definition FNV_OFFSET_BASIS : Z := 0xcbf29ce484222325.
Definition FNV_PRIME : Z := 0x100000001b3.

Definition fnv_step (hash : Z) (byte : ascii) : Z :=
  wrapping_mul64 (Z.lxor hash (byte_val byte)) FNV_PRIME.

Definition fnv1a (l : bytes) : Z := fold_left fnv_step l FNV_OFFSET_BASIS.

(** [ToolSpec::schema_digest] *)
Definition schema_digest (spec : ToolSpec) : Z := fnv1a spec.(schema_json).

(** ** The registry *)

Record ToolRegistry := mkRegistry { specs : list ToolSpec }.

Definition registry_new : ToolRegistry := mkRegistry [].

(** [ToolRegistry::register] *)
Definition register (r : ToolRegistry) (spec : ToolSpec) : ToolRegistry * result unit ToolError :=
  if existsb (λ kept, str_eqb kept.(spec_name) spec.(spec_name)) r.(specs) then
    (r, Err (DuplicateTool spec.(spec_name)))
  else match validate_tool_name spec.(spec_name) with
  | Err e => (r, Err e)
  | Ok _ =>
  if slen spec.(description) >? MAX_TOOL_DESCRIPTION_LEN then
    (r, Err (DescriptionTooLarge MAX_TOOL_DESCRIPTION_LEN (slen spec.(description))))
  else if len spec.(schema_json) >? MAX_TOOL_SCHEMA_BYTES then
    (r, Err (SchemaTooLarge MAX_TOOL_SCHEMA_BYTES (len spec.(schema_json))))
  else match validate_placement spec.(spec_name) spec.(placement) spec.(native) with
  | Err e => (r, Err e)
  | Ok _ =>
  if len r.(specs) >=? MAX_TOOLS_PER_SESSION then (r, Err (RegistryFull MAX_TOOLS_PER_SESSION))
  else (mkRegistry (r.(specs) ++ [spec]), Ok tt)
  end end.

(** [ToolRegistry::lookup] *)
Definition lookup_tool (r : ToolRegistry) (name : string) : option ToolSpec :=
  find (λ spec, str_eqb spec.(spec_name) name) r.(specs).

(** [ToolRegistry::names] *)
Definition names (r : ToolRegistry) : list string := map spec_name r.(specs).

(** ** Authorization data *)

Record AuthBase := mkAuthBase {
  base_agent_instance_id : Z;
  base_session_id : Z;
  base_level : AgentLevel
}.

Record AuthContext := mkAuthContext {
  ctx_base : AuthBase;
  ctx_tool : string;
  ctx_required_scope : string;
  ctx_read_only : bool
}.

Inductive AuthDecision := AuthAllow | AuthDeny (reason : string).

(** [DenyAllAuthorizer::authorize] *)
Definition DenyAllAuthorizer (ctx : AuthContext) : AuthDecision :=
  AuthDeny ("default-deny: no grant for " +:+ ctx.(ctx_tool)).

(** ** Calls and executions *)

Record ToolCall := mkToolCall { call_name : string; arguments : bytes }.

Inductive ToolStatus :=
| StatusSuccess
| StatusFailed (reason : string)
| StatusDenied (reason : string)
| StatusRefused (cause : ToolError)
| StatusUnknown (reason : string).

#[export] Instance ToolStatus_eq_dec : EqDecision ToolStatus.
Proof. solve_decision. Defined.

(** [ToolStatus::is_admission_refusal] *)
Definition is_admission_refusal (s : ToolStatus) : bool :=
  match s with StatusRefused _ => true | _ => false end.

(** [ToolStatus::is_ack_loss] *)
Definition is_ack_loss (s : ToolStatus) : bool :=
  match s with StatusUnknown _ => true | _ => false end.

(** [ToolStatus::normalized] *)
Definition ToolStatus_normalized (s : ToolStatus) : ToolStatus :=
  match s with
  | StatusFailed reason => StatusFailed (bound_reason reason)
  | StatusDenied reason => StatusDenied (bound_reason reason)
  | StatusUnknown reason => StatusUnknown (bound_reason reason)
  | StatusRefused cause => StatusRefused (ToolError_normalized cause)
  | StatusSuccess => StatusSuccess
  end.

Inductive ResultDisposition := Accepted | Rejected (cause : ToolError).

#[export] Instance ResultDisposition_eq_dec : EqDecision ResultDisposition.
Proof. solve_decision. Defined.

(** [ResultDisposition::is_rejection] *)
Definition is_rejection (d : ResultDisposition) : bool :=
  match d with Rejected _ => true | Accepted => false end.

Record ToolExecution := mkExecution {
  execution_id : Z;
  tool : string;
  status : ToolStatus;
  result_disposition : ResultDisposition;
  summary : string;
  data : bytes;
  is_untrusted_surface : bool
}.

#[export] Instance ToolExecution_eq_dec : EqDecision ToolExecution.
Proof. solve_decision. Defined.

Record ToolSuccess := mkToolSuccess { success_summary : string; success_data : bytes }.

(** [ToolSuccess::new] *)
Definition ToolSuccess_new (summary : string) (data : bytes) : result ToolSuccess ToolError :=
  ensure! negb (slen summary >? MAX_SUMMARY_BYTES)
  else SummaryTooLarge MAX_SUMMARY_BYTES (slen summary) in
  ensure! negb (len data >? MAX_TOOL_RESULT_BYTES)
  else ResultTooLarge MAX_TOOL_RESULT_BYTES (len data) in
  Ok (mkToolSuccess summary data).

Record ExecutionContext := mkExecContext { ec_execution_id : Z; ec_now_ms : Z }.

(** ** Audit rows *)

Record UsageSite := mkUsageSite {
  site_placement : option ToolPlacement;
  site_server_id : option string;
  site_task_id : option string
}.

Record UsageEvent := mkUsageEvent {
  ev_execution_id : Z;
  ev_tool : string;
  ev_scope : string;
  ev_protocol_id : string;
  ev_caller : AuthBase;
  ev_occurred_at_ms : Z;
  ev_site : UsageSite;
  ev_status : ToolStatus;
  ev_result_disposition : ResultDisposition;
  ev_reason : string;
  ev_args_digest : Z
}.

(** [UsageEvent::args_digest] *)
Definition args_digest (args : bytes) : Z := fnv1a args.

Record UsageFilter := mkUsageFilter {
  filter_tool : option string;
  filter_scope : option string;
  filter_protocol_id : option string;
  filter_agent_instance_id : option Z;
  filter_session_id : option Z;
  filter_placement : option ToolPlacement
}.

(** [UsageFilter::match_all] *)
Definition match_all : UsageFilter := mkUsageFilter None None None None None None.

(** [None] constrains nothing. *)
Definition constrained {A} (want : option A) (test : A → bool) : bool :=
  match want with None => true | Some a => test a end.

(** [UsageFilter::matches] *)
Definition filter_matches (f : UsageFilter) (e : UsageEvent) : bool :=
  constrained f.(filter_tool) (str_eqb e.(ev_tool))
  && constrained f.(filter_scope) (str_eqb e.(ev_scope))
  && constrained f.(filter_protocol_id) (str_eqb e.(ev_protocol_id))
  && constrained f.(filter_agent_instance_id) (Z.eqb e.(ev_caller).(base_agent_instance_id))
  && constrained f.(filter_session_id) (Z.eqb e.(ev_caller).(base_session_id))
  && constrained f.(filter_placement)
       (λ p, bool_decide (e.(ev_site).(site_placement) = Some p)).

(** ** Lemmas on bounded diagnostics *)

Definition printable (s : string) : Prop := str_forall is_printable s = true.

Lemma bound_loop_eq cs : ∀ acc n, (length acc + n)%nat = Z.to_nat MAX_REASON_BYTES →
  bound_loop cs acc = acc ++ map scrub (take n cs).
Proof.
  induction cs as [|c cs IH]; intros acc n H; cbn [bound_loop].
  - by rewrite take_nil, app_nil_r.
  - unfold len in *. destruct n as [|n].
    + replace (Z.of_nat (length acc) >=? MAX_REASON_BYTES) with true by lia.
      by rewrite app_nil_r.
    + replace (Z.of_nat (length acc) >=? MAX_REASON_BYTES) with false
        by (unfold MAX_REASON_BYTES in *; lia).
      rewrite (IH _ n) by (rewrite length_app; cbn [length]; lia).
      by rewrite <- app_assoc.
Qed.

Lemma bound_reason_eq s :
  bound_reason s = of_bytes (map scrub (take (Z.to_nat MAX_REASON_BYTES) (char_leads s))).
Proof. unfold bound_reason. by rewrite (bound_loop_eq _ _ (Z.to_nat MAX_REASON_BYTES)). Qed.

Lemma scrub_printable b : is_printable (scrub b) = true.
Proof. unfold scrub. by destruct (is_printable b) eqn:E. Qed.

Lemma scrub_id b : is_printable b = true → scrub b = b.
Proof. unfold scrub. by intros ->. Qed.

Lemma is_printable_not_cont b : is_printable b = true → is_cont b = false.
Proof.
  unfold is_printable, is_ascii_graphic, is_cont, in_range, byte_eqb. lia.
Qed.

Lemma char_leads_printable s : printable s → char_leads s = as_bytes s.
Proof.
  unfold printable, str_forall. induction s as [|b s IH]; simpl; [done|].
  intros [Hb Hs]%andb_true_iff. rewrite is_printable_not_cont by done. by rewrite IH.
Qed.

Lemma map_scrub_id l : forallb is_printable l = true → map scrub l = l.
Proof.
  induction l as [|b l IH]; simpl; [done|]. intros [Hb Hl]%andb_true_iff.
  by rewrite scrub_id, IH.
Qed.

Lemma forallb_map_scrub l : forallb is_printable (map scrub l) = true.
Proof. induction l as [|b l IH]; simpl; [done|]. by rewrite scrub_printable, IH. Qed.

Lemma bound_reason_printable s : printable (bound_reason s).
Proof.
  unfold printable, str_forall. rewrite bound_reason_eq, as_bytes_of_bytes.
  apply forallb_map_scrub.
Qed.

Lemma bound_reason_length s : slen (bound_reason s) ≤ MAX_REASON_BYTES.
Proof.
  rewrite bound_reason_eq, slen_of_bytes. unfold len. rewrite length_map, length_take.
  unfold MAX_REASON_BYTES. lia.
Qed.

Lemma bound_reason_id s : printable s → slen s ≤ MAX_REASON_BYTES → bound_reason s = s.
Proof.
  intros Hp Hl. rewrite bound_reason_eq, char_leads_printable by done.
  rewrite take_ge, map_scrub_id, of_bytes_as_bytes; [done|done|].
  rewrite as_bytes_length. unfold slen, MAX_REASON_BYTES in *. lia.
Qed.

Lemma bound_reason_idemp s : bound_reason (bound_reason s) = bound_reason s.
Proof. apply bound_reason_id; auto using bound_reason_printable, bound_reason_length. Qed.

#[export] Hint Resolve bound_reason_printable bound_reason_length : runtime.
#[export] Hint Rewrite bound_reason_idemp : runtime.

Lemma printable_app s t : printable (s +:+ t) ↔ printable s ∧ printable t.
Proof.
  unfold printable, str_forall. rewrite as_bytes_app, forallb_app. apply andb_true_iff.
Qed.

(** Decimal digits. *)
Lemma pretty_N_char_printable n : (n < 10)%N → is_printable (pretty_N_char n) = true.
Proof.
  intros H. assert (∃ k : nat, n = N.of_nat k ∧ (k < 10)%nat) as (k & -> & Hk).
  { exists (N.to_nat n). lia. }
  do 10 (destruct k as [|k]; [reflexivity|]). lia.
Qed.

(** A number below [10 ^ k] prints with at most [k] digits, all printable. *)
Lemma pretty_N_go_spec (k : nat) : ∀ x s,
  (Z.of_N x < 10 ^ Z.of_nat k) → printable s →
  printable (pretty_N_go x s) ∧ slen (pretty_N_go x s) ≤ Z.of_nat k + slen s.
Proof.
  induction k as [|k IH]; intros x s Hx Hs.
  - assert (x = 0%N) as -> by (simpl in Hx; lia). rewrite pretty_N_go_0. split; [done|lia].
  - destruct (decide (0 < x)%N) as [Hp|Hp].
    2:{ assert (x = 0%N) as -> by lia. rewrite pretty_N_go_0. split; [done|lia]. }
    rewrite pretty_N_go_step by done.
    destruct (IH (x `div` 10)%N (String (pretty_N_char (x `mod` 10)%N) s)) as [H1 H2].
    + rewrite N2Z.inj_div. apply Z.div_lt_upper_bound; [lia|].
      rewrite Nat2Z.inj_succ, Z.pow_succ_r in Hx by lia. lia.
    + unfold printable, str_forall in *. simpl. rewrite pretty_N_char_printable; [done|].
      apply N.mod_lt. lia.
    + split; [done|]. rewrite slen_cons in H2. lia.
Qed.

Lemma show_spec n : is_u64 n → printable (show n) ∧ slen (show n) ≤ 20.
Proof.
  intros [H0 H1]. unfold show, pretty, pretty_N. case_decide; [split; [done|vm_compute; done]|].
  apply (pretty_N_go_spec 20); [|done]. unfold u64_max in H1. lia.
Qed.

(** ** Lemmas on declarations and the registry *)

Definition spec_ok (spec : ToolSpec) : Prop :=
  validate_tool_name spec.(spec_name) = Ok tt
  ∧ slen spec.(description) ≤ MAX_TOOL_DESCRIPTION_LEN
  ∧ len spec.(schema_json) ≤ MAX_TOOL_SCHEMA_BYTES
  ∧ validate_placement spec.(spec_name) spec.(placement) spec.(native) = Ok tt.

Definition registry_ok (r : ToolRegistry) : Prop :=
  NoDup (names r) ∧ len r.(specs) ≤ MAX_TOOLS_PER_SESSION ∧ Forall spec_ok r.(specs).

Lemma lookup_tool_Some r name spec :
  lookup_tool r name = Some spec → spec ∈ r.(specs) ∧ spec.(spec_name) = name.
Proof. intros [H1 H2]%find_Some_elem. by apply str_eqb_eq in H2. Qed.

Lemma lookup_tool_None r name : lookup_tool r name = None ↔ name ∉ names r.
Proof.
  unfold lookup_tool, names. rewrite find_None_iff, list_elem_of_fmap. split.
  - intros H (spec & -> & Hin). specialize (H spec Hin). by rewrite str_eqb_refl in H.
  - intros H spec Hin. apply str_eqb_neq. intros <-. eauto.
Qed.

Lemma lookup_tool_push r spec name :
  lookup_tool (mkRegistry (r.(specs) ++ [spec])) name =
  match lookup_tool r name with
  | Some s => Some s
  | None => if str_eqb spec.(spec_name) name then Some spec else None
  end.
Proof.
  unfold lookup_tool. simpl. induction r.(specs) as [|s l IH]; simpl; [done|].
  by destruct (str_eqb (spec_name s) name).
Qed.

(** What [register] decides, in one equation. *)
Lemma register_cases r spec :
  (∃ e, register r spec = (r, Err e))
  ∨ (register r spec = (mkRegistry (r.(specs) ++ [spec]), Ok tt)
     ∧ (spec.(spec_name) ∉ names r) ∧ spec_ok spec ∧ len r.(specs) < MAX_TOOLS_PER_SESSION).
Proof.
  unfold register. case_if; [eauto|].
  destruct (validate_tool_name _) as [[]|] eqn:Hn; [|eauto].
  case_if; [eauto|]. case_if; [eauto|].
  destruct (validate_placement _ _ _) as [[]|] eqn:Hp; [|eauto].
  case_if; [eauto|]. right. reflect_bools. split_and!; [done| |done|done].
  rewrite existsb_false_iff in *. apply lookup_tool_None, find_None_iff. auto.
Qed.

(** ** FNV-1a *)

Lemma log2_u64 a : is_u64 a → Z.log2 a < 64.
Proof.
  unfold is_u64, u64_max. intros H. destruct (decide (a = 0)) as [->|]; [done|].
  apply Z.log2_lt_pow2; lia.
Qed.

Lemma lxor_u64 a b : is_u64 a → is_u64 b → is_u64 (Z.lxor a b).
Proof.
  intros Ha Hb. pose proof (log2_u64 a Ha). pose proof (log2_u64 b Hb).
  unfold is_u64, u64_max in *.
  assert (0 ≤ Z.lxor a b) by (apply Z.lxor_nonneg; lia).
  pose proof (Z.log2_lxor a b ltac:(lia) ltac:(lia)).
  enough (Z.lxor a b < 2 ^ 64) by lia.
  destruct (decide (Z.lxor a b = 0)) as [->|]; [done|].
  apply Z.log2_lt_pow2; lia.
Qed.

(** The inverse of the prime modulo [2 ^ 64]. *)
Definition fnv_prime_inv : Z := 0xce965057aff6957b.

Lemma mul_prime_cancel x : is_u64 x →
  wrapping_mul64 (wrapping_mul64 x FNV_PRIME) fnv_prime_inv = x.
Proof.
  unfold wrapping_mul64, is_u64, u64_max. intros H.
  rewrite Zmult_mod_idemp_l, <- Z.mul_assoc, <- Zmult_mod_idemp_r.
  change ((FNV_PRIME * fnv_prime_inv) mod 2 ^ 64) with 1.
  rewrite Z.mul_1_r. apply Z.mod_small. lia.
Qed.

Lemma byte_val_u64 b : is_u64 (byte_val b).
Proof. pose proof (byte_val_bounds b). unfold is_u64, u64_max. lia. Qed.

Lemma fnv_step_u64 h b : is_u64 (fnv_step h b).
Proof.
  unfold fnv_step, wrapping_mul64, is_u64, u64_max.
  pose proof (Z.mod_pos_bound (Z.lxor h (byte_val b) * FNV_PRIME) (2 ^ 64)). lia.
Qed.

#[export] Hint Resolve lxor_u64 byte_val_u64 fnv_step_u64 : runtime.

(** A step is injective in the state and in the byte. *)
Lemma fnv_step_inj h h' b b' : is_u64 h → is_u64 h' →
  fnv_step h b = fnv_step h' b' → Z.lxor h (byte_val b) = Z.lxor h' (byte_val b').
Proof.
  intros Hh Hh' H. unfold fnv_step in H.
  rewrite <- (mul_prime_cancel (Z.lxor h (byte_val b))) by auto with runtime.
  rewrite H. apply mul_prime_cancel. auto with runtime.
Qed.

Lemma lxor_cancel_r a b c : Z.lxor a c = Z.lxor b c → a = b.
Proof.
  intros H. apply (f_equal (λ x, Z.lxor x c)) in H.
  by rewrite !Z.lxor_assoc, Z.lxor_nilpotent, !Z.lxor_0_r in H.
Qed.

Lemma fnv_fold_u64 l : ∀ h, is_u64 h → is_u64 (fold_left fnv_step l h).
Proof. induction l as [|b l IH]; intros h H; simpl; auto with runtime. Qed.

Lemma fnv_fold_inj l : ∀ h h', is_u64 h → is_u64 h' →
  fold_left fnv_step l h = fold_left fnv_step l h' → h = h'.
Proof.
  induction l as [|b l IH]; intros h h' Hh Hh' H; simpl in H; [done|].
  apply IH in H; auto with runtime. apply fnv_step_inj in H; [|done..].
  by apply lxor_cancel_r in H.
Qed.

Lemma fnv_basis_u64 : is_u64 FNV_OFFSET_BASIS.
Proof. unfold is_u64, u64_max, FNV_OFFSET_BASIS. lia. Qed.

(** ** Properties *)

(** [bound_reason] returns at most [MAX_REASON_BYTES] bytes, all printable
    ASCII; it leaves a string alone exactly when it already is such a string;
    applying it again changes nothing. *)
Theorem bound_reason_sound s :
  slen (bound_reason s) ≤ MAX_REASON_BYTES
  ∧ printable (bound_reason s)
  ∧ bound_reason (bound_reason s) = bound_reason s
  ∧ (bound_reason s = s ↔ printable s ∧ slen s ≤ MAX_REASON_BYTES).
Proof.
  split_and!; auto using bound_reason_idemp with runtime.
  split; [intros <-; auto with runtime|]. intros []. by apply bound_reason_id.
Qed.

(** Numeric fields are [usize]. *)
Definition tool_error_wf (e : ToolError) : Prop :=
  match e with
  | ArgumentsTooLarge a b | ResultTooLarge a b | SummaryTooLarge a b
  | DescriptionTooLarge a b | SchemaTooLarge a b => is_u64 a ∧ is_u64 b
  | CallLimitExceeded a | RegistryFull a => is_u64 a
  | _ => True
  end.

(** The rendering of a normalised tool error is printable ASCII (no line
    breaks, no escapes) of bounded length, whatever text the host supplied;
    normalising is idempotent. *)
Theorem normalized_display_bounded e :
  tool_error_wf e →
  printable (ToolError_to_string (ToolError_normalized e))
  ∧ slen (ToolError_to_string (ToolError_normalized e)) ≤ 2 * MAX_REASON_BYTES + 32
  ∧ ToolError_normalized (ToolError_normalized e) = ToolError_normalized e.
Proof.
  intros Hwf.
  assert (∀ s, slen (bound_reason s) ≤ 512) as Hb by apply bound_reason_length.
  unfold MAX_REASON_BYTES.
  destruct e; simpl in *; rewrite ?bound_reason_idemp, ?printable_app, ?slen_app;
    repeat match goal with
    | H : _ ∧ _ |- _ => destruct H
    | H : is_u64 _ |- _ => apply show_spec in H as [? ?]
    | |- context [slen (bound_reason ?x)] =>
        lazymatch goal with _ : slen (bound_reason x) ≤ _ |- _ => fail
        | _ => pose proof (Hb x) end
    | |- context [slen (String ?c ?s)] =>
        let n := eval vm_compute in (slen (String c s)) in change (slen (String c s)) with n
    end; split_and!; auto with runtime; (done || lia).
Qed.

Lemma normalized_display_bounded_witness :
  printable (ToolError_to_string (ToolError_normalized (ErrDenied "fs.read" (String (Ascii.ascii_of_N 10) "no"))))
  ∧ ToolError_to_string (ToolError_normalized (ErrDenied "fs.read" (String (Ascii.ascii_of_N 10) "no")))
    = "tool fs.read denied: ?no".
Proof.
  split; [|reflexivity].
  apply (normalized_display_bounded (ErrDenied "fs.read" (String (Ascii.ascii_of_N 10) "no"))). exact I.
Defined.

(** Two byte strings that differ in exactly one byte have different
    FNV-1a-64 digests, so a single edited schema or argument byte always moves
    [schema_digest] and [args_digest]. *)
Theorem fnv1a_single_byte l b b' r :
  b ≠ b' → fnv1a (l ++ b :: r) ≠ fnv1a (l ++ b' :: r).
Proof.
  intros Hne H. unfold fnv1a in H. rewrite !fold_left_app in H. simpl in H.
  assert (is_u64 (fold_left fnv_step l FNV_OFFSET_BASIS)) as Hh
    by auto using fnv_fold_u64, fnv_basis_u64.
  apply fnv_fold_inj in H; [|apply fnv_step_u64..].
  apply fnv_step_inj in H; [|done..].
  rewrite (Z.lxor_comm _ (byte_val b)), (Z.lxor_comm _ (byte_val b')) in H.
  by apply lxor_cancel_r, byte_val_inj in H.
Qed.

Lemma fnv1a_single_byte_witness :
  fnv1a (as_bytes "ab" ++ (Ascii.ascii_of_N 99) :: as_bytes "de")
  ≠ fnv1a (as_bytes "ab" ++ (Ascii.ascii_of_N 120) :: as_bytes "de").
Proof. apply (fnv1a_single_byte (as_bytes "ab") (Ascii.ascii_of_N 99) (Ascii.ascii_of_N 120)). done. Defined.

(** [register] keeps the registry well formed (distinct names, at most
    [MAX_TOOLS_PER_SESSION] declarations, every one of them valid even when it
    was not built by [ToolSpec::new]).  A refusal leaves the registry exactly
    as it was; a success makes the new declaration, and changes nothing else,
    visible to [lookup]. *)
Theorem register_sound r spec :
  registry_ok r →
  match register r spec with
  | (r', Ok _) =>
      registry_ok r' ∧ lookup_tool r spec.(spec_name) = None
      ∧ lookup_tool r' spec.(spec_name) = Some spec
      ∧ ∀ name, name ≠ spec.(spec_name) → lookup_tool r' name = lookup_tool r name
  | (r', Err _) => r' = r
  end.
Proof.
  intros (Hnd & Hlen & Hok).
  destruct (register_cases r spec) as [(e & ->)|(-> & Hnew & Hspec & Hroom)]; [done|].
  apply lookup_tool_None in Hnew as Hl. split_and!.
  - unfold registry_ok, names in *. simpl. rewrite map_app. simpl. split_and!.
    + apply NoDup_app. split_and!; [done| |apply NoDup_singleton].
      intros x Hx ->%list_elem_of_singleton. done.
    + len_lia.
    + apply Forall_app. auto.
  - done.
  - by rewrite lookup_tool_push, Hl, str_eqb_refl.
  - intros name Hne. rewrite lookup_tool_push.
    destruct (lookup_tool r name); [done|].
    assert (str_eqb (spec_name spec) name = false) as -> by by apply str_eqb_neq.
    done.
Qed.

Definition demo_spec : ToolSpec :=
  mkToolSpec "fs.read" "read a file" (as_bytes "{}") "workspace.read" true (Some Mcp) None.

Lemma register_sound_witness :
  register registry_new demo_spec = (mkRegistry [demo_spec], Ok tt)
  ∧ lookup_tool (mkRegistry [demo_spec]) "fs.read" = Some demo_spec.
Proof.
  split; [reflexivity|].
  apply (register_sound registry_new demo_spec).
  split_and!; [constructor|vm_compute; done|constructor].
Defined.
