(* ===== verification/Prompt.v ===== *)
(** * Prompt: layered prompt assembly and the dispatch gate

    Models the validation, assembly, canonical rendering and dispatch check of
    [prompt.rs].  A snapshot holds at most one input per layer; assembly orders
    them by rank and merges their policies: denials by union, allow-sets and
    scopes by intersection, budgets by minimum, directives by precedence.  The
    declarative loaders of the same file (project files, skill registries), which
    only build [LayerInput]s, are not part of this file. *)

From S2P Require Import Prelude Text Order Session ToolTypes.

Local Open Scope Z_scope.
Local Open Scope rust_scope.

Definition MAX_LAYER_TEXT_BYTES : Z := 16 * 1024.
Definition MAX_DIRECTIVES_PER_LAYER : Z := 32.
Definition MAX_DIRECTIVE_KEY_LEN : Z := 64.
Definition MAX_DIRECTIVE_VALUE_LEN : Z := 256.
Definition MAX_TOOL_ENTRIES_PER_LAYER : Z := 32.
Definition MAX_SCOPES_PER_LAYER : Z := 16.
Definition MAX_SCOPE_LEN : Z := 128.
Definition MAX_CORE_VERSION_LEN : Z := 64.
Definition MAX_BUDGET_CEILING_BYTES : Z := 256 * 1024.
Definition MAX_CANONICAL_BYTES : Z := 96 * 1024.
Definition EMPTY_ALLOW_SET_SENTINEL : string := "<empty allow-set>".

(** ** Layers *)

Inductive PromptLayer := CoreContract | UserLayer | ProjectLayer | SkillsProfile | RuntimeTurn.

#[export] Instance PromptLayer_eq_dec : EqDecision PromptLayer.
Proof. solve_decision. Defined.

(** [PromptLayer::rank] *)
Definition layer_rank (l : PromptLayer) : Z :=
  match l with
  | CoreContract => 0 | UserLayer => 1 | ProjectLayer => 2 | SkillsProfile => 3 | RuntimeTurn => 4
  end.

(** [PromptLayer::name], also its header and its [Display]. *)
Definition layer_name (l : PromptLayer) : string :=
  match l with
  | CoreContract => "core-contract"
  | UserLayer => "user"
  | ProjectLayer => "project"
  | SkillsProfile => "skills-profile"
  | RuntimeTurn => "runtime-turn"
  end.

Definition stable_order : list PromptLayer :=
  [CoreContract; UserLayer; ProjectLayer; SkillsProfile; RuntimeTurn].

Definition layer_eqb (a b : PromptLayer) : bool := bool_decide (a = b).

Record Directive := mkDirective { dir_key : string; dir_value : string }.

#[export] Instance Directive_eq_dec : EqDecision Directive.
Proof. solve_decision. Defined.

Definition NEVER_MERGE_DIRECTIVE_KEYS : list string := ["agent.identity"; "capability.grant"].

Definition is_never_merge_directive_key (key : string) : bool :=
  existsb (λ k, str_eqb k key) NEVER_MERGE_DIRECTIVE_KEYS.

Record DirectiveOverride := mkOverride {
  ov_key : string;
  winning_value : string;
  winning_layer : PromptLayer;
  overridden_value : string;
  overridden_layer : PromptLayer
}.

#[export] Instance DirectiveOverride_eq_dec : EqDecision DirectiveOverride.
Proof. solve_decision. Defined.

Record LayerInput := mkLayer {
  li_layer : PromptLayer;
  li_text : string;
  li_allowed_tools : option (list string);
  li_denied_tools : list string;
  li_budget_ceiling_bytes : option Z;
  li_allowed_scopes : option (list string);
  li_directives : list Directive
}.

(** [LayerInput::text_only] *)
Definition text_only (layer : PromptLayer) (text : string) : LayerInput :=
  mkLayer layer text None [] None None [].

Record PromptSnapshot := mkSnapshot { snap_core_version : string; snap_layers : list LayerInput }.

Record AssembledSection := mkSection { sec_layer : PromptLayer; sec_text : string }.

Record AssembledPrompt := mkAssembledPrompt {
  core_version : string;
  sections : list AssembledSection;
  effective_allowed_tools : option (list string);
  effective_denied_tools : list string;
  effective_budget_ceiling_bytes : option Z;
  effective_scopes : option (list string);
  effective_directives : list Directive;
  merge_overrides : list DirectiveOverride;
  canonical_bytes : bytes
}.

(** [AssembledPrompt::section_text] *)
Definition section_text (p : AssembledPrompt) (layer : PromptLayer) : string :=
  match find (λ s, layer_eqb s.(sec_layer) layer) p.(sections) with
  | Some s => s.(sec_text)
  | None => ""
  end.

(** ** Errors *)

Inductive PromptError :=
| InvalidCoreVersion (version : string)
| DuplicateLayer (layer : PromptLayer)
| TooManyLayers (limit : Z)
| LayerTextTooLarge (layer : PromptLayer) (limit actual : Z)
| InvalidLayerText (layer : PromptLayer) (reason : string)
| InvalidToolName (name : string)
| TooManyTools (layer : PromptLayer) (limit : Z)
| PromptInvalidScope (scope : string)
| TooManyScopes (layer : PromptLayer) (limit : Z)
| InvalidDirectiveKey (key : string)
| InvalidDirectiveValue (key : string)
| TooManyDirectives (layer : PromptLayer) (limit : Z)
| InvalidBudget (actual : Z)
| UnresolvableConflict (key first second : string)
| CanonicalTooLarge (limit actual : Z)
| DispatcherDenied (tool : string)
| PromptDenied (tool : string)
| PromptNotAllowed (tool : string)
| InvalidProjectPath (path : string)
| MalformedProject (reason : string)
| TooManyProjectFiles (limit : Z)
| ProjectFileTooLarge (limit actual : Z)
| MalformedSkill (reason : string)
| MissingSkillVersion (name : string)
| UnsupportedSkillVersion (version : string)
| TooManySkills (limit : Z)
| SkillEntryTooLarge (limit actual : Z)
| SkillRegistryTooLarge (limit actual : Z)
| DuplicateSkill (name : string).

Definition PromptError_to_string (e : PromptError) : string :=
  match e with
  | InvalidCoreVersion version => "invalid core version: " +:+ version
  | DuplicateLayer layer => "duplicate prompt layer: " +:+ layer_name layer
  | TooManyLayers limit => "too many prompt layers (max " +:+ show limit +:+ ")"
  | LayerTextTooLarge layer limit actual =>
      "prompt layer " +:+ layer_name layer +:+ " text of " +:+ show actual +:+ " bytes exceeds "
      +:+ show limit +:+ " byte limit"
  | InvalidLayerText layer reason =>
      "invalid prompt layer " +:+ layer_name layer +:+ " text: " +:+ reason
  | InvalidToolName name => "invalid prompt tool name: " +:+ name
  | TooManyTools layer limit =>
      "prompt layer " +:+ layer_name layer +:+ " exceeds " +:+ show limit +:+ " tool entries"
  | PromptInvalidScope scope => "invalid prompt scope: " +:+ scope
  | TooManyScopes layer limit =>
      "prompt layer " +:+ layer_name layer +:+ " exceeds " +:+ show limit +:+ " scopes"
  | InvalidDirectiveKey key => "invalid directive key: " +:+ key
  | InvalidDirectiveValue key => "invalid directive value for key: " +:+ key
  | TooManyDirectives layer limit =>
      "prompt layer " +:+ layer_name layer +:+ " exceeds " +:+ show limit +:+ " directives"
  | InvalidBudget actual =>
      "invalid prompt budget ceiling " +:+ show actual +:+ " (must be 1..="
      +:+ show MAX_BUDGET_CEILING_BYTES +:+ ")"
  | UnresolvableConflict key first second =>
      "unresolvable directive conflict for '" +:+ key +:+ "': '" +:+ first +:+ "' vs '"
      +:+ second +:+ "'"
  | CanonicalTooLarge limit actual =>
      "canonical prompt of " +:+ show actual +:+ " bytes exceeds " +:+ show limit +:+ " byte limit"
  | DispatcherDenied tool => "dispatcher denies tool '" +:+ tool +:+ "': prompt never grants"
  | PromptDenied tool => "prompt denies tool '" +:+ tool +:+ "'"
  | PromptNotAllowed tool => "prompt allow-set omits tool '" +:+ tool +:+ "'"
  | InvalidProjectPath path => "project path escapes caller-supplied roots: '" +:+ path +:+ "'"
  | MalformedProject reason => "malformed project file: " +:+ reason
  | TooManyProjectFiles limit => "too many project files (max " +:+ show limit +:+ ")"
  | ProjectFileTooLarge limit actual =>
      "project file of " +:+ show actual +:+ " bytes exceeds " +:+ show limit +:+ " byte limit"
  | MalformedSkill reason => "malformed skill registry: " +:+ reason
  | MissingSkillVersion name => "skill entry '" +:+ name +:+ "' misses required version field"
  | UnsupportedSkillVersion version => "unsupported skill version: '" +:+ version +:+ "'"
  | TooManySkills limit => "too many skill entries (max " +:+ show limit +:+ ")"
  | SkillEntryTooLarge limit actual =>
      "skill fragment of " +:+ show actual +:+ " bytes exceeds " +:+ show limit +:+ " byte limit"
  | SkillRegistryTooLarge limit actual =>
      "skill registry of " +:+ show actual +:+ " bytes exceeds " +:+ show limit +:+ " byte limit"
  | DuplicateSkill name => "duplicate skill entry: '" +:+ name +:+ "'"
  end.

(** ** Validation *)

(** [str::contains] of a set of characters, all ASCII here. *)
Definition has_byte (codes : list Z) (s : string) : bool :=
  existsb (λ b, existsb (λ n, byte_eqb n b) codes) (as_bytes s).

Definition is_version_byte (b : ascii) : bool :=
  is_ascii_lowercase b || is_ascii_digit b || byte_eqb 45 b || byte_eqb 95 b || byte_eqb 46 b
  || byte_eqb 64 b.

Definition validate_core_version (version : string) : result unit PromptError :=
  ensure! negb (is_empty version) && (slen version <=? MAX_CORE_VERSION_LEN)
    && starts_lowercase version && str_forall is_version_byte version
  else InvalidCoreVersion version in
  Ok tt.

Definition validate_layer_text (layer : PromptLayer) (text : string) : result unit PromptError :=
  ensure! negb (slen text >? MAX_LAYER_TEXT_BYTES)
  else LayerTextTooLarge layer MAX_LAYER_TEXT_BYTES (slen text) in
  ensure! negb (has_byte [13] text)
  else InvalidLayerText layer "text must use LF newlines only (no CR)" in
  ensure! negb (has_byte [0] text)
  else InvalidLayerText layer "text must not contain NUL" in
  Ok tt.

Definition contains_untrusted_markers (text : string) : bool :=
  contains "[untrusted" text || contains "[/untrusted" text || contains "[ACTION OUTCOME]" text
  || contains "[OBSERVATION" text || contains "=== OBSERVATIONS ===" text || contains "delta/1" text.

(** [is_verified_project_text] and the remainder after that prefix. *)
Definition verified_project_remainder (text : string) : option string :=
  strip_prefix "project-snapshot/1 " text.

Definition validate_pinned_layer_trust (layer : PromptLayer) (text : string) :
    result unit PromptError :=
  let untrusted_text t := contains_untrusted_markers t || contains "project-snapshot/1" t in
  let untrusted :=
    match layer with
    | CoreContract | UserLayer | SkillsProfile => untrusted_text text
    | ProjectLayer =>
        match verified_project_remainder text with
        | Some remainder => untrusted_text remainder
        | None => untrusted_text text
        end
    | RuntimeTurn => false
    end in
  ensure! negb untrusted
  else InvalidLayerText layer
         "pinned layer accepts host-pinned bytes only; offer untrusted observations to RuntimeTurn tail" in
  Ok tt.

Definition validate_prompt_tool_name (name : string) : result unit PromptError :=
  match validate_tool_name name with Ok _ => Ok tt | Err _ => Err (InvalidToolName name) end.

Definition validate_scope (scope : string) : result unit PromptError :=
  ensure! negb (is_empty scope) && (slen scope <=? MAX_SCOPE_LEN)
    && starts_lowercase scope && str_forall is_tool_name_byte scope
  else PromptInvalidScope scope in
  Ok tt.

Definition validate_directive_key (key : string) : result unit PromptError :=
  ensure! negb (is_empty key) && (slen key <=? MAX_DIRECTIVE_KEY_LEN)
    && negb (has_byte [61; 10; 13; 0] key)
    && starts_lowercase key && str_forall is_tool_name_byte key
  else InvalidDirectiveKey key in
  Ok tt.

Definition validate_directive_value (key value : string) : result unit PromptError :=
  ensure! (slen value <=? MAX_DIRECTIVE_VALUE_LEN) && negb (has_byte [10; 13; 0] value)
  else InvalidDirectiveValue key in
  Ok tt.

Definition validate_budget_ceiling (ceiling : Z) : result unit PromptError :=
  ensure! (1 <=? ceiling) && (ceiling <=? MAX_BUDGET_CEILING_BYTES) else InvalidBudget ceiling in
  Ok tt.

(** A loop of checks: the first refusal wins. *)
Fixpoint validate_all {A} (f : A → result unit PromptError) (l : list A) : result unit PromptError :=
  match l with
  | [] => Ok tt
  | x :: l => try! _ := f x in validate_all f l
  end.

Definition validate_directive (d : Directive) : result unit PromptError :=
  try! _ := validate_directive_key d.(dir_key) in
  validate_directive_value d.(dir_key) d.(dir_value).

(** [Directive::new] *)
Definition Directive_new (key value : string) : result Directive PromptError :=
  try! _ := validate_directive (mkDirective key value) in Ok (mkDirective key value).

(** [LayerInput::validate] *)
Definition LayerInput_validate (i : LayerInput) : result unit PromptError :=
  try! _ := validate_layer_text i.(li_layer) i.(li_text) in
  try! _ := validate_pinned_layer_trust i.(li_layer) i.(li_text) in
  try! _ := match i.(li_allowed_tools) with
            | Some allowed =>
                ensure! negb (len allowed >? MAX_TOOL_ENTRIES_PER_LAYER)
                else TooManyTools i.(li_layer) MAX_TOOL_ENTRIES_PER_LAYER in
                validate_all validate_prompt_tool_name allowed
            | None => Ok tt
            end in
  ensure! negb (len i.(li_denied_tools) >? MAX_TOOL_ENTRIES_PER_LAYER)
  else TooManyTools i.(li_layer) MAX_TOOL_ENTRIES_PER_LAYER in
  try! _ := validate_all validate_prompt_tool_name i.(li_denied_tools) in
  try! _ := match i.(li_budget_ceiling_bytes) with
            | Some budget => validate_budget_ceiling budget
            | None => Ok tt
            end in
  try! _ := match i.(li_allowed_scopes) with
            | Some scopes =>
                ensure! negb (len scopes >? MAX_SCOPES_PER_LAYER)
                else TooManyScopes i.(li_layer) MAX_SCOPES_PER_LAYER in
                validate_all validate_scope scopes
            | None => Ok tt
            end in
  ensure! negb (len i.(li_directives) >? MAX_DIRECTIVES_PER_LAYER)
  else TooManyDirectives i.(li_layer) MAX_DIRECTIVES_PER_LAYER in
  validate_all validate_directive i.(li_directives).

(** The loop of [PromptSnapshot::validate]: [seen] holds the ranks met. *)
Fixpoint validate_layers (seen : list Z) (l : list LayerInput) : result unit PromptError :=
  match l with
  | [] => Ok tt
  | i :: l =>
      ensure! negb (bool_decide (layer_rank i.(li_layer) ∈ seen)) else DuplicateLayer i.(li_layer) in
      try! _ := LayerInput_validate i in
      validate_layers (layer_rank i.(li_layer) :: seen) l
  end.

(** [PromptSnapshot::validate] *)
Definition snapshot_validate (s : PromptSnapshot) : result unit PromptError :=
  try! _ := validate_core_version s.(snap_core_version) in
  ensure! negb (len s.(snap_layers) >? len stable_order) else TooManyLayers (len stable_order) in
  validate_layers [] s.(snap_layers).

(** [PromptSnapshot::new] *)
Definition PromptSnapshot_new (version : string) (layers : list LayerInput) :
    result PromptSnapshot PromptError :=
  try! _ := snapshot_validate (mkSnapshot version layers) in Ok (mkSnapshot version layers).

(** ** Assembly *)

(** [sort_by_key(rank)]: the inputs in precedence order. *)
Definition ordered_layers (l : list LayerInput) : list LayerInput :=
  sort_by_key (λ i, layer_rank i.(li_layer)) l.

Definition section_of (ordered : list LayerInput) (layer : PromptLayer) : AssembledSection :=
  mkSection layer
    match find (λ i, layer_eqb i.(li_layer) layer) ordered with
    | Some i => i.(li_text)
    | None => ""
    end.

(** [sort] and [dedup] on strings. *)
Definition string_set : list string → list string := sorted_set id.

Definition merge_denied (ordered : list LayerInput) : list string :=
  string_set (concat (map li_denied_tools ordered)).

(** The loop that intersects the lists of the layers that constrain. *)
Fixpoint merge_narrowing (current : option (list string)) (l : list (option (list string))) :
    option (list string) :=
  match l with
  | [] => current
  | None :: l => merge_narrowing current l
  | Some list :: l =>
      let set := string_set list in
      merge_narrowing
        (Some match current with
              | None => set
              | Some current => List.filter (λ item, existsb (λ x, str_eqb x item) set) current
              end) l
  end.

Fixpoint merge_budget (budget : option Z) (l : list (option Z)) : option Z :=
  match l with
  | [] => budget
  | None :: l => merge_budget budget l
  | Some ceiling :: l =>
      merge_budget (Some match budget with
                         | None => ceiling
                         | Some current => Z.min current ceiling
                         end) l
  end.

(** [BTreeMap<String, (String, PromptLayer)>] as its entries in key order. *)
Definition DirectiveMap : Type := list (string * (string * PromptLayer)).

Definition btree_get (m : DirectiveMap) (key : string) : option (string * PromptLayer) :=
  snd <$> find (λ e, str_eqb e.1 key) m.

Definition btree_insert (key : string) (v : string * PromptLayer) (m : DirectiveMap) : DirectiveMap :=
  insert_by (key_le fst) (key, v) m.

(** One directive against the entries of the layers before it. *)
Definition merge_directive (by_key : DirectiveMap) (overrides : list DirectiveOverride)
    (layer : PromptLayer) (d : Directive) :
    result (DirectiveMap * list DirectiveOverride) PromptError :=
  match btree_get by_key d.(dir_key) with
  | None => Ok (btree_insert d.(dir_key) (d.(dir_value), layer) by_key, overrides)
  | Some (first_value, first_layer) =>
      if negb (str_eqb first_value d.(dir_value)) then
        ensure! negb (is_never_merge_directive_key d.(dir_key) || layer_eqb first_layer layer)
        else UnresolvableConflict d.(dir_key) first_value d.(dir_value) in
        Ok (by_key, overrides
                    ++ [mkOverride d.(dir_key) first_value first_layer d.(dir_value) layer])
      else Ok (by_key, overrides)
  end.

(** The two nested loops over layers and their directives. *)
Fixpoint merge_directives (by_key : DirectiveMap) (overrides : list DirectiveOverride)
    (l : list (PromptLayer * Directive)) :
    result (DirectiveMap * list DirectiveOverride) PromptError :=
  match l with
  | [] => Ok (by_key, overrides)
  | (layer, d) :: l =>
      try! (by_key, overrides) := merge_directive by_key overrides layer d in
      merge_directives by_key overrides l
  end.

Definition layer_directives (ordered : list LayerInput) : list (PromptLayer * Directive) :=
  concat (map (λ i, map (pair i.(li_layer)) i.(li_directives)) ordered).

(** The key the override records are sorted by. *)
Definition override_key (o : DirectiveOverride) : string * (Z * (string * (Z * string))) :=
  (o.(ov_key), (layer_rank o.(overridden_layer), (o.(overridden_value),
    (layer_rank o.(winning_layer), o.(winning_value))))).

(** ** The canonical form *)

Definition LF : ascii := Ascii.ascii_of_N 10.

(** One [push] sequence ending in a newline. *)
Definition line (parts : list string) : bytes := concat (map as_bytes parts) ++ [LF].

Definition render_section (s : AssembledSection) : bytes :=
  line ["[layer:"; layer_name s.(sec_layer); " len="; show (slen s.(sec_text)); "]"]
  ++ line [s.(sec_text)].

Definition render_constraint (tag : string) (set : option (list string)) : bytes :=
  match set with
  | None => line [tag; "*"]
  | Some items => concat (map (λ item, line [tag; item]) items)
  end.

Definition render_budget (budget : option Z) : bytes :=
  match budget with
  | None => line ["budget:*"]
  | Some ceiling => line ["budget:"; show ceiling]
  end.

Definition render_directive (d : Directive) : bytes :=
  line ["directive:"; d.(dir_key); "="; d.(dir_value)].

Definition render_override (o : DirectiveOverride) : bytes :=
  line ["override:"; o.(ov_key);
        " winner:"; layer_name o.(winning_layer);
        " wlen="; show (slen o.(winning_value)); ":"; o.(winning_value);
        " overridden:"; layer_name o.(overridden_layer);
        " olen="; show (slen o.(overridden_value)); ":"; o.(overridden_value)].

Definition render_head (version : string) : bytes :=
  line ["prompt/1"] ++ line ["core-version:"; version].

Definition render_effective (p : AssembledPrompt) : bytes :=
  line ["[effective]"]
  ++ render_constraint "allowed:" p.(effective_allowed_tools)
  ++ concat (map (λ tool, line ["denied:"; tool]) p.(effective_denied_tools))
  ++ render_budget p.(effective_budget_ceiling_bytes)
  ++ render_constraint "scope:" p.(effective_scopes)
  ++ concat (map render_directive p.(effective_directives))
  ++ concat (map render_override (sort_by_key override_key p.(merge_overrides)))
  ++ line ["end"].

Definition render_canonical (p : AssembledPrompt) : result bytes PromptError :=
  let out := render_head p.(core_version) ++ concat (map render_section p.(sections))
             ++ render_effective p in
  ensure! negb (len out >? MAX_CANONICAL_BYTES)
  else CanonicalTooLarge MAX_CANONICAL_BYTES (len out) in
  Ok out.

Definition with_canonical (b : bytes) (p : AssembledPrompt) : AssembledPrompt :=
  mkAssembledPrompt p.(core_version) p.(sections) p.(effective_allowed_tools)
    p.(effective_denied_tools) p.(effective_budget_ceiling_bytes) p.(effective_scopes)
    p.(effective_directives) p.(merge_overrides) b.

(** [assemble]: the part after [validate]. *)
Definition assemble_ordered (version : string) (ordered : list LayerInput) :
    result AssembledPrompt PromptError :=
  let denied := merge_denied ordered in
  let allowed := merge_narrowing None (map li_allowed_tools ordered) in
  ensure! negb (bool_decide (allowed = Some [])) else PromptNotAllowed EMPTY_ALLOW_SET_SENTINEL in
  let budget := merge_budget None (map li_budget_ceiling_bytes ordered) in
  let scopes := merge_narrowing None (map li_allowed_scopes ordered) in
  try! (by_key, overrides) := merge_directives [] [] (layer_directives ordered) in
  let p := mkAssembledPrompt version (map (section_of ordered) stable_order) allowed denied budget
             scopes (map (λ e, mkDirective e.1 e.2.1) by_key)
             (sorted_set override_key overrides) [] in
  try! out := render_canonical p in
  ensure! negb match budget with Some ceiling => len out >? ceiling | None => false end
  else InvalidBudget (len out) in
  Ok (with_canonical out p).

(** [prompt::assemble] *)
Definition assemble_prompt (s : PromptSnapshot) : result AssembledPrompt PromptError :=
  try! _ := snapshot_validate s in
  assemble_ordered s.(snap_core_version) (ordered_layers s.(snap_layers)).

(** ** The dispatch gate *)

Definition check_dispatch (prompt : AssembledPrompt) (tool : string) (dispatcher_grants : bool) :
    result unit PromptError :=
  ensure! dispatcher_grants else DispatcherDenied tool in
  ensure! negb (existsb (λ denied, str_eqb denied tool) prompt.(effective_denied_tools))
  else PromptDenied tool in
  match prompt.(effective_allowed_tools) with
  | Some allowed =>
      ensure! existsb (λ item, str_eqb item tool) allowed else PromptNotAllowed tool in Ok tt
  | None => Ok tt
  end.

Definition dispatch_denial_cause (tool : string) (e : PromptError) : ToolError :=
  let name := match e with
              | DispatcherDenied tool | PromptDenied tool | PromptNotAllowed tool => tool
              | _ => tool
              end in
  ToolError_normalized (ErrDenied name (PromptError_to_string e)).

(** ** Lemmas: the gate *)

Lemma existsb_str_eqb l s : existsb (λ x, str_eqb x s) l = true ↔ s ∈ l.
Proof.
  rewrite existsb_true_iff. split.
  - intros (x & Hx & ->%str_eqb_eq). done.
  - intros H. exists s. by rewrite str_eqb_refl.
Qed.

(** The prompt only narrows: a dispatch passes exactly when the dispatcher
    grants it, no layer denied it and the allow-set, if any, lists it. *)
Lemma check_dispatch_ok prompt tool grants :
  check_dispatch prompt tool grants = Ok tt ↔
  grants = true ∧ (tool ∉ prompt.(effective_denied_tools))
  ∧ match prompt.(effective_allowed_tools) with None => True | Some l => tool ∈ l end.
Proof.
  unfold check_dispatch. rewrite <- existsb_str_eqb.
  destruct grants; [|split; [done|by intros [? _]]].
  destruct (existsb _ (effective_denied_tools _)) eqn:E; simpl.
  { split; [done|]. by intros (_ & [] & _). }
  destruct (effective_allowed_tools prompt) as [l|]; [|done].
  rewrite <- existsb_str_eqb. destruct (existsb _ l); [done|]. split; [done|]. by intros (_ & _ & ?).
Qed.


(** ** Lemmas: validation *)

Lemma validate_all_ok {A} (f : A → result unit PromptError) l :
  validate_all f l = Ok tt ↔ Forall (λ x, f x = Ok tt) l.
Proof.
  induction l as [|x l IH]; simpl; [by split|]. rewrite Forall_cons, <- IH.
  destruct (f x) as [[]|]; naive_solver.
Qed.

Definition ranks (l : list LayerInput) : list Z := map (λ i, layer_rank i.(li_layer)) l.

Definition layer_ok (i : LayerInput) : Prop := LayerInput_validate i = Ok tt.

Lemma validate_layers_ok l : ∀ seen,
  validate_layers seen l = Ok tt ↔
  Forall layer_ok l ∧ NoDup (ranks l) ∧ (∀ r, r ∈ ranks l → r ∉ seen).
Proof.
  induction l as [|i l IH]; intros seen; simpl.
  { split; [|done]. intros _. split_and!; [done|constructor|].
    intros r Hr. by apply not_elem_of_nil in Hr. }
  rewrite Forall_cons, NoDup_cons. unfold layer_ok at 1.
  destruct (bool_decide (layer_rank (li_layer i) ∈ seen)) eqn:E; simpl; reflect_bools.
  { split; [done|]. intros (_ & _ & Hs). by destruct (Hs _ (list_elem_of_here _ _)). }
  destruct (LayerInput_validate i) as [[]|]; [|split; [done|]; by intros ((? & _) & _)].
  rewrite IH. split.
  - intros (Hok & Hnd & Hs). split_and!; try done.
    + intros Hin. by apply (Hs _ Hin), list_elem_of_here.
    + intros r Hr. apply elem_of_cons in Hr as [->|Hr]; [done|].
      intros Hseen. by apply (Hs _ Hr), list_elem_of_further.
  - intros ((_ & Hok) & (Hn & Hnd) & Hs). split_and!; try done.
    intros r Hr Hin. apply elem_of_cons in Hin as [->|Hin]; [done|].
    by apply (Hs r (list_elem_of_further _ _ _ Hr)).
Qed.

(** What a validated snapshot satisfies. *)
Lemma snapshot_validate_ok s :
  snapshot_validate s = Ok tt ↔
  validate_core_version s.(snap_core_version) = Ok tt ∧ len s.(snap_layers) ≤ 5
  ∧ Forall layer_ok s.(snap_layers) ∧ NoDup (ranks s.(snap_layers)).
Proof.
  unfold snapshot_validate. change (len stable_order) with 5.
  destruct (validate_core_version _) as [[]|]; [|split; [done|]; by intros [? _]].
  destruct (len (snap_layers s) >? 5) eqn:E; simpl; reflect_bools.
  { split; [done|]. intros (_ & ? & _). lia. }
  rewrite validate_layers_ok. split.
  - intros (? & ? & _). split_and!; try done.
  - intros (_ & _ & ? & ?). split_and!; try done. intros r _ Hr. by apply not_elem_of_nil in Hr.
Qed.

Lemma snapshot_validate_perm v l l' :
  l ≡ₚ l' → snapshot_validate (mkSnapshot v l) = Ok tt → snapshot_validate (mkSnapshot v l') = Ok tt.
Proof.
  rewrite !snapshot_validate_ok. simpl. intros Hp (? & Hl & ? & Hnd). split_and!; [done|..].
  - unfold len in *. by rewrite <- Hp.
  - by rewrite <- Hp.
  - unfold ranks in *. by rewrite <- Hp.
Qed.

(** ** Lemmas: merging *)

Lemma string_set_elem l x : x ∈ string_set l ↔ x ∈ l.
Proof. apply sorted_set_elem. Qed.

(** Strictly increasing strings, the deterministic sets of the canonical form. *)
Definition sorted_strings : list string → Prop := StronglySorted (key_lt id).

Lemma string_set_sorted l : sorted_strings (string_set l).
Proof. apply (sorted_set_strict id). Qed.

Lemma merge_narrowing_spec l : ∀ current,
  match merge_narrowing current l with
  | None => current = None ∧ ∀ s, Some s ∉ l
  | Some out =>
      (current = None → ∃ s, Some s ∈ l)
      ∧ (∀ x, x ∈ out ↔ (∀ c, current = Some c → x ∈ c) ∧ ∀ s, Some s ∈ l → x ∈ s)
      ∧ ((∀ c, current = Some c → sorted_strings c) → sorted_strings out)
  end.
Proof.
  induction l as [|[set|] l IH]; intros current; simpl.
  - destruct current as [c|].
    + split_and!; [done| |by auto]. intros x. split; [|by intros [H _]; apply H].
      intros Hx. split; [by intros ? [= <-]|]. intros s Hs. by apply not_elem_of_nil in Hs.
    + split; [done|]. intros s Hs. by apply not_elem_of_nil in Hs.
  - match goal with |- context [merge_narrowing (Some ?c0)] => set (cur := c0); specialize (IH (Some cur)) end.
    destruct (merge_narrowing (Some cur) l) as [out|]; [|by destruct IH].
    destruct IH as (_ & Hin & Hs).
    assert (∀ x, x ∈ cur ↔ x ∈ set ∧ ∀ c, current = Some c → x ∈ c) as Hcur.
    { intros x. subst cur. destruct current as [c|].
      - rewrite list_elem_of_In, filter_In, <- list_elem_of_In, existsb_str_eqb, string_set_elem.
        split; [intros [? ?]; split; [done|]; by intros ? [= <-]|]. intros [? H]. by split; [apply H|].
      - rewrite string_set_elem. split; [done|by intros [? _]]. }
    split_and!.
    + intros _. exists set. apply list_elem_of_here.
    + intros x. rewrite Hin. split.
      * intros [Hc Hl]. destruct (proj1 (Hcur x) (Hc cur eq_refl)) as [Hset Hcc]. split; [done|].
        intros s Hsl. apply elem_of_cons in Hsl as [[= ->]|Hsl]; auto.
      * intros [Hc Hl]. split.
        -- intros ? [= <-]. apply Hcur. split; [apply Hl, list_elem_of_here|done].
        -- intros s Hsl. by apply Hl, list_elem_of_further.
    + intros Hc. apply Hs. intros ? [= <-]. subst cur. destruct current as [c|].
      * apply filter_sorted, Hc. done.
      * apply string_set_sorted.
  - specialize (IH current). destruct (merge_narrowing current l) as [out|].
    + destruct IH as (Hex & Hin & Hs). split_and!.
      * intros Hc. destruct (Hex Hc) as [s Hsl]. exists s. by apply list_elem_of_further.
      * intros x. rewrite Hin. split; intros [Hc Hl]; (split; [done|]); intros s Hsl.
        -- apply elem_of_cons in Hsl as [?|Hsl]; [done|auto].
        -- by apply Hl, list_elem_of_further.
      * done.
    + destruct IH as [Hc Hl]. split; [done|]. intros s Hsl.
      apply elem_of_cons in Hsl as [?|Hsl]; [done|]. by apply (Hl s).
Qed.

Lemma merge_budget_spec l : ∀ budget,
  match merge_budget budget l with
  | None => budget = None ∧ ∀ b, Some b ∉ l
  | Some m => (budget = Some m ∨ Some m ∈ l)
              ∧ (∀ b, budget = Some b → m ≤ b) ∧ ∀ b, Some b ∈ l → m ≤ b
  end.
Proof.
  induction l as [|[c|] l IH]; intros budget; simpl.
  - destruct budget as [b|].
    + split_and!; [by left|by intros ? [= <-]|]. intros b' Hb. by apply not_elem_of_nil in Hb.
    + split; [done|]. intros b' Hb. by apply not_elem_of_nil in Hb.
  - match goal with |- context [merge_budget (Some ?m0)] => set (m1 := m0); specialize (IH (Some m1)) end.
    destruct (merge_budget (Some m1) l) as [m|]; [|by destruct IH].
    destruct IH as (Hin & Hb & Hl). specialize (Hb m1 eq_refl).
    assert (m1 ≤ c ∧ ∀ b, budget = Some b → m1 ≤ b) as [H1 H2].
    { subst m1. destruct budget as [b|]; [|split; [lia|done]]. split; [lia|]. intros ? [= <-]. lia. }
    split_and!.
    + destruct Hin as [[= <-]|Hin]; [|right; by apply list_elem_of_further].
      subst m1. destruct budget as [b|]; [|right; apply list_elem_of_here].
      destruct (Z.min_spec b c) as [[_ ->]|[_ ->]]; [by left|right; apply list_elem_of_here].
    + intros b Hbb. specialize (H2 b Hbb). lia.
    + intros b Hbl. apply elem_of_cons in Hbl as [[= ->]|Hbl]; [lia|auto].
  - specialize (IH budget). destruct (merge_budget budget l) as [m|].
    + destruct IH as ([Hin|Hin] & Hb & Hl); split_and!; try done.
      * by left.
      * intros b Hbl. apply elem_of_cons in Hbl as [?|Hbl]; [done|auto].
      * right. by apply list_elem_of_further.
      * intros b Hbl. apply elem_of_cons in Hbl as [?|Hbl]; [done|auto].
    + destruct IH as [Hc Hl]. split; [done|]. intros b Hbl.
      apply elem_of_cons in Hbl as [?|Hbl]; [done|]. by apply (Hl b).
Qed.
