(* ===== verification/Fallback.v ===== *)
(** * Fallback: the minimal disclosure envelope

    Models [fallback.rs]: the three-field envelope with its byte bounds, its
    length-prefixed wire form, and the total fallback from unreadable bytes.
    The wire form is shown to be a bijection between valid envelopes and the
    byte strings the decoder accepts. *)

From S2P Require Import Prelude Text Wire Session ToolTypes.

Local Open Scope Z_scope.
Local Open Scope rust_scope.

Definition MAX_FALLBACK_ID_BYTES : Z := 64.
Definition MAX_FALLBACK_KIND_BYTES : Z := 64.
Definition MAX_FALLBACK_TEXT_BYTES : Z := 512.

Definition FALLBACK_ID : string := "fallback".
Definition FALLBACK_KIND : string := "syntax-fallback".

Definition ENVELOPE_MAGIC : bytes := as_bytes "fallback/1" ++ [Ascii.ascii_of_N 10].
Definition LEN_WIDTH : nat := 8.

Inductive FallbackError :=
| IdTooLarge (limit actual : Z)
| KindTooLarge (limit actual : Z)
| TextTooLarge (limit actual : Z)
| Malformed.

(** [Display for FallbackError] *)
Definition FallbackError_to_string (e : FallbackError) : string :=
  let over what limit actual :=
    "fallback " +:+ what +:+ " of " +:+ show actual +:+ " bytes exceeds " +:+ show limit
      +:+ " byte limit" in
  match e with
  | IdTooLarge limit actual => over "id" limit actual
  | KindTooLarge limit actual => over "kind" limit actual
  | TextTooLarge limit actual => over "text" limit actual
  | Malformed => "malformed fallback envelope"
  end.

Record FallbackEnvelope := mkEnvelope { env_id : string; env_kind : string; env_text : string }.

(** [FallbackEnvelope::new] *)
Definition FallbackEnvelope_new (id kind text : string) : result FallbackEnvelope FallbackError :=
  ensure! slen id <=? MAX_FALLBACK_ID_BYTES
  else IdTooLarge MAX_FALLBACK_ID_BYTES (slen id) in
  ensure! slen kind <=? MAX_FALLBACK_KIND_BYTES
  else KindTooLarge MAX_FALLBACK_KIND_BYTES (slen kind) in
  ensure! slen text <=? MAX_FALLBACK_TEXT_BYTES
  else TextTooLarge MAX_FALLBACK_TEXT_BYTES (slen text) in
  Ok (mkEnvelope id kind text).

(** ** The wire form *)

Definition encode_field (field : string) : bytes :=
  to_le_bytes LEN_WIDTH (slen field) ++ as_bytes field.

(** [FallbackEnvelope::to_bytes] *)
Definition to_bytes (e : FallbackEnvelope) : bytes :=
  ENVELOPE_MAGIC ++ concat (map encode_field [e.(env_id); e.(env_kind); e.(env_text)]).

(** [slice::get(a..b)], [slice::get(a..)] and [slice::strip_prefix]. *)
Definition get_range (a b : nat) (l : bytes) : option bytes :=
  if (a <=? b)%nat && (b <=? length l)%nat then Some (take (b - a) (drop a l)) else None.

Definition get_from (a : nat) (l : bytes) : option bytes :=
  if (a <=? length l)%nat then Some (drop a l) else None.

Fixpoint strip_bytes (prefix l : bytes) : option bytes :=
  match prefix, l with
  | [], l => Some l
  | p :: prefix, b :: l => if bool_decide (p = b) then strip_bytes prefix l else None
  | _, [] => None
  end.

(** [declared_len]: every [u64] fits a 64-bit [usize]. *)
Definition declared_len (header : option bytes) : option Z :=
  match header with
  | Some header => if (length header =? LEN_WIDTH)%nat then Some (from_le_bytes header) else None
  | None => None
  end.

Definition advance_field (l : bytes) : result bytes FallbackError :=
  match declared_len (get_range 0 LEN_WIDTH l) with
  | None => Err Malformed
  | Some declared =>
      match checked_add64 (Z.of_nat LEN_WIDTH) declared with
      | None => Err Malformed
      | Some span =>
          match get_from (Z.to_nat span) l with
          | None => Err Malformed
          | Some rest => Ok rest
          end
      end
  end.

Definition take_field (l : bytes) (cap : Z) (over_cap : Z → FallbackError) :
    result string FallbackError :=
  match declared_len (get_range 0 LEN_WIDTH l) with
  | None => Err Malformed
  | Some declared =>
      if declared >? cap then Err (over_cap declared)
      else
        match checked_add64 (Z.of_nat LEN_WIDTH) declared with
        | None => Err Malformed
        | Some stop =>
            match get_range LEN_WIDTH (Z.to_nat stop) l with
            | None => Err Malformed
            | Some field =>
                match from_utf8 field with Some s => Ok s | None => Err Malformed end
            end
        end
  end.

(** [FallbackEnvelope::from_bytes] *)
Definition from_bytes (l : bytes) : result FallbackEnvelope FallbackError :=
  match strip_bytes ENVELOPE_MAGIC l with
  | None => Err Malformed
  | Some cursor =>
      try! id := take_field cursor MAX_FALLBACK_ID_BYTES (IdTooLarge MAX_FALLBACK_ID_BYTES) in
      try! cursor := advance_field cursor in
      try! kind := take_field cursor MAX_FALLBACK_KIND_BYTES
                     (KindTooLarge MAX_FALLBACK_KIND_BYTES) in
      try! cursor := advance_field cursor in
      try! text := take_field cursor MAX_FALLBACK_TEXT_BYTES
                     (TextTooLarge MAX_FALLBACK_TEXT_BYTES) in
      try! cursor := advance_field cursor in
      match cursor with
      | [] => Ok (mkEnvelope id kind text)
      | _ => Err Malformed
      end
  end.

(** ** Unreadable input *)

(** The characters of [utf8_chunks]: the first byte of each valid character, and
    [None] for each ill-formed run. *)
Fixpoint chunk_chars (l : bytes) : list (option ascii) :=
  match l with
  | [] => []
  | b0 :: t0 =>
      if in_range 0 127 b0 then Some b0 :: chunk_chars t0
      else if in_range 194 223 b0 then
        match t0 with
        | b1 :: t1 => if is_cont b1 then Some b0 :: chunk_chars t1 else None :: chunk_chars t0
        | [] => [None]
        end
      else if in_range 224 239 b0 then
        match t0 with
        | b1 :: t1 =>
            if second_of_three b0 b1 then
              match t1 with
              | b2 :: t2 => if is_cont b2 then Some b0 :: chunk_chars t2 else None :: chunk_chars t1
              | [] => [None]
              end
            else None :: chunk_chars t0
        | [] => [None]
        end
      else if in_range 240 244 b0 then
        match t0 with
        | b1 :: t1 =>
            if second_of_four b0 b1 then
              match t1 with
              | b2 :: t2 =>
                  if is_cont b2 then
                    match t2 with
                    | b3 :: t3 =>
                        if is_cont b3 then Some b0 :: chunk_chars t3 else None :: chunk_chars t2
                    | [] => [None]
                    end
                  else None :: chunk_chars t1
              | [] => [None]
              end
            else None :: chunk_chars t0
        | [] => [None]
        end
      else None :: chunk_chars t0
  end.

Definition QUESTION : ascii := Ascii.ascii_of_N 63.

Definition scrub_char (c : option ascii) : ascii :=
  match c with Some b => scrub b | None => QUESTION end.

(** The double loop of [scrub_text]: retained text, count and excess flag. *)
Fixpoint scrub_loop (cs : list (option ascii)) (scrubbed : bytes) (counted : Z) (excess : bool) :
    bytes * Z * bool :=
  match cs with
  | [] => (scrubbed, counted, excess)
  | c :: cs =>
      let counted := counted + 1 in
      if counted <=? MAX_FALLBACK_TEXT_BYTES then
        scrub_loop cs (scrubbed ++ [scrub_char c]) counted excess
      else scrub_loop cs scrubbed counted true
  end.

Definition scrub_text (unreadable : bytes) : result string FallbackError :=
  let '(scrubbed, counted, excess) := scrub_loop (chunk_chars unreadable) [] 0 false in
  if excess then Err (TextTooLarge MAX_FALLBACK_TEXT_BYTES counted) else Ok (of_bytes scrubbed).

Definition fallback_for (unreadable : bytes) : result FallbackEnvelope FallbackError :=
  try! text := scrub_text unreadable in
  Ok (mkEnvelope FALLBACK_ID FALLBACK_KIND text).

(** ** Lemmas *)

Lemma declared_len_spec l :
  declared_len (get_range 0 LEN_WIDTH l)
  = if (LEN_WIDTH <=? length l)%nat then Some (from_le_bytes (take LEN_WIDTH l)) else None.
Proof.
  unfold get_range. rewrite (proj2 (Nat.leb_le 0 LEN_WIDTH)) by lia. cbn [andb].
  case_if; [|done]. unfold declared_len. rewrite drop_0, Nat.sub_0_r.
  apply Nat.leb_le in Heqb. rewrite length_take, Nat.min_l by done. by rewrite Nat.eqb_refl.
Qed.

Lemma get_range_app l1 l2 rest :
  get_range (length l1) (length l1 + length l2) (l1 ++ l2 ++ rest) = Some l2.
Proof.
  unfold get_range. rewrite (proj2 (Nat.leb_le _ _)) by lia.
  rewrite (proj2 (Nat.leb_le _ _)) by (rewrite !length_app; lia). simpl.
  by rewrite drop_app_length, Nat.add_comm, Nat.add_sub, take_app_length.
Qed.

Lemma slen_length s : slen s = Z.of_nat (length (as_bytes s)).
Proof. unfold slen. by rewrite as_bytes_length. Qed.

(** A length that a cap of the envelope admits. *)
Definition small (n : Z) : Prop := 0 ≤ n ≤ MAX_FALLBACK_TEXT_BYTES.

Lemma field_declared s rest :
  small (slen s) → declared_len (get_range 0 LEN_WIDTH (encode_field s ++ rest)) = Some (slen s).
Proof.
  intros Hs. rewrite declared_len_spec. unfold encode_field. rewrite <- app_assoc.
  pose proof (length_to_le LEN_WIDTH (slen s)) as Hl.
  rewrite (proj2 (Nat.leb_le _ _)) by (rewrite length_app, Hl; lia).
  rewrite <- Hl at 1. rewrite take_app_length. f_equal. apply from_to_le.
  unfold small, MAX_FALLBACK_TEXT_BYTES in Hs. change (256 ^ Z.of_nat LEN_WIDTH) with (2 ^ 64). lia.
Qed.

Lemma small_span n : small n →
  checked_add64 (Z.of_nat LEN_WIDTH) n = Some (Z.of_nat LEN_WIDTH + n).
Proof.
  unfold small, MAX_FALLBACK_TEXT_BYTES, checked_add64. intros Hn.
  case_if; [done|]. reflect_bools. unfold u64_max, LEN_WIDTH in *. lia.
Qed.

Lemma take_encoded s rest cap f :
  is_str s → slen s ≤ cap → small (slen s) → take_field (encode_field s ++ rest) cap f = Ok s.
Proof.
  intros Hs Hcap Hsm. unfold take_field. rewrite field_declared, small_span by done.
  replace (slen s >? cap) with false by lia.
  rewrite slen_length, <- Nat2Z.inj_add, Nat2Z.id. unfold encode_field. rewrite <- app_assoc.
  pose proof (length_to_le LEN_WIDTH (slen s)) as Hl. rewrite <- Hl at 1 2. rewrite get_range_app.
  unfold from_utf8. by rewrite Hs, of_bytes_as_bytes.
Qed.

Lemma advance_encoded s rest : small (slen s) → advance_field (encode_field s ++ rest) = Ok rest.
Proof.
  intros Hsm. unfold advance_field. rewrite field_declared, small_span by done.
  rewrite slen_length, <- Nat2Z.inj_add, Nat2Z.id. unfold get_from, encode_field.
  pose proof (length_to_le LEN_WIDTH (slen s)) as Hl.
  rewrite (proj2 (Nat.leb_le _ _)) by (rewrite !length_app, Hl; lia).
  replace (LEN_WIDTH + length (as_bytes s))%nat
    with (length (to_le_bytes LEN_WIDTH (slen s) ++ as_bytes s)) by (by rewrite length_app, Hl).
  by rewrite drop_app_length.
Qed.

(** Reading a field back: the bytes were exactly its encoding. *)
Lemma field_decoded l cap f s rest :
  take_field l cap f = Ok s → advance_field l = Ok rest → cap ≤ MAX_FALLBACK_TEXT_BYTES →
  l = encode_field s ++ rest ∧ is_str s ∧ slen s ≤ cap.
Proof.
  unfold take_field, advance_field. rewrite declared_len_spec. case_if; [|done].
  apply Nat.leb_le in Heqb. set (d := from_le_bytes (take LEN_WIDTH l)).
  assert (0 ≤ d) as Hd by apply from_le_bounds.
  destruct (d >? cap) eqn:Ecap; [done|]. reflect_bools. intros Ht Ha Hcap.
  rewrite small_span in Ht, Ha by (unfold small; lia).
  replace (Z.to_nat (Z.of_nat LEN_WIDTH + d)) with (LEN_WIDTH + Z.to_nat d)%nat in Ht, Ha by lia.
  unfold get_range, get_from in Ht, Ha. case_if_in Ha; [|done]. injection Ha as <-.
  apply Nat.leb_le in Heqb0. rewrite (proj2 (Nat.leb_le _ _)) in Ht by lia.
  cbn [andb] in Ht.
  rewrite Nat.add_comm, Nat.add_sub in Ht.
  set (field := take (Z.to_nat d) (drop LEN_WIDTH l)) in Ht.
  unfold from_utf8 in Ht. destruct (utf8_valid field) eqn:Eu; [|done]. injection Ht as <-.
  assert (length field = Z.to_nat d) as Hlen.
  { unfold field. rewrite length_take, length_drop. lia. }
  unfold is_str, encode_field. rewrite slen_of_bytes, as_bytes_of_bytes. unfold len. rewrite Hlen.
  split_and!; [|done|lia]. rewrite Z2Nat.id by done.
  assert (to_le_bytes LEN_WIDTH d = take LEN_WIDTH l) as ->.
  { unfold d. rewrite <- (to_from_le (take LEN_WIDTH l)) at 2. by rewrite length_take, Nat.min_l. }
  change (S _) with (LEN_WIDTH + Z.to_nat d)%nat.
  unfold field. by rewrite <- drop_drop, <- app_assoc, !take_drop.
Qed.

Lemma strip_bytes_spec p l rest : strip_bytes p l = Some rest ↔ l = p ++ rest.
Proof.
  revert l. induction p as [|b p IH]; intros l; simpl; [naive_solver|].
  destruct l as [|c l]; [done|]. case_bool_decide; [subst; rewrite IH; naive_solver|naive_solver].
Qed.

(** Scrubbing reads the same characters as [String::from_utf8_lossy]. *)
Lemma char_leads_app s t : char_leads (s +:+ t) = char_leads s ++ char_leads t.
Proof.
  induction s as [|b s IH]; [done|]. change (String b s +:+ t) with (String b (s +:+ t)).
  cbn [char_leads]. rewrite IH. by destruct (is_cont b).
Qed.

Lemma char_leads_cont b s : is_cont b = true → char_leads (String b s) = char_leads s.
Proof. intros Hb. simpl. by rewrite Hb. Qed.

Lemma char_leads_lead b s : is_cont b = false → char_leads (String b s) = b :: char_leads s.
Proof. intros Hb. simpl. by rewrite Hb. Qed.

(** The leads of what [lossy] rebuilds at the head of its input. *)
Definition leads (l : bytes) : bytes := map scrub (char_leads (of_bytes l)).

Lemma leads_replacement l : leads (replacement ++ l) = QUESTION :: leads l.
Proof. done. Qed.

Lemma leads_lead lo hi b l :
  hi < 128 ∨ 191 < lo → in_range lo hi b = true → leads (b :: l) = scrub b :: leads l.
Proof.
  intros Hr Hb. unfold leads. change (of_bytes (b :: l)) with (String b (of_bytes l)).
  by rewrite char_leads_lead by by eapply in_range_not_cont.
Qed.

Lemma leads_cont b l : is_cont b = true → leads (b :: l) = leads l.
Proof.
  intros Hb. unfold leads. change (of_bytes (b :: l)) with (String b (of_bytes l)).
  by rewrite char_leads_cont.
Qed.

Lemma lossy_chars_le n : ∀ l, (length l ≤ n)%nat → map scrub_char (chunk_chars l) = leads (lossy l).
Proof.
  induction n as [|n IH]; intros l Hl; (destruct l as [|b0 t0]; [done|]); simpl in Hl; [lia|].
  cbn [chunk_chars lossy].
  destruct (in_range 0 127 b0) eqn:E1.
  { rewrite (leads_lead 0 127) by (done || lia). simpl. by rewrite IH by lia. }
  destruct (in_range 194 223 b0) eqn:E2.
  { destruct t0 as [|b1 t1]; [done|]. simpl in Hl. destruct (is_cont b1) eqn:C1.
    - rewrite (leads_lead 194 223), leads_cont by (done || lia). cbn [map scrub_char].
      by rewrite IH by lia.
    - rewrite leads_replacement. cbn [map scrub_char]. by rewrite IH by (simpl; lia). }
  destruct (in_range 224 239 b0) eqn:E3.
  { destruct t0 as [|b1 t1]; [done|]. simpl in Hl. destruct (second_of_three b0 b1) eqn:C1.
    - destruct t1 as [|b2 t2]; [done|]. simpl in Hl. apply second_of_three_cont in C1.
      destruct (is_cont b2) eqn:C2.
      + rewrite (leads_lead 224 239), !leads_cont by (done || lia). cbn [map scrub_char].
        by rewrite IH by lia.
      + rewrite leads_replacement. cbn [map scrub_char]. by rewrite IH by (simpl; lia).
    - rewrite leads_replacement. cbn [map scrub_char]. by rewrite IH by (simpl; lia). }
  destruct (in_range 240 244 b0) eqn:E4.
  2:{ rewrite leads_replacement. cbn [map scrub_char]. by rewrite IH by lia. }
  destruct t0 as [|b1 t1]; [done|]. simpl in Hl. destruct (second_of_four b0 b1) eqn:C1.
  2:{ rewrite leads_replacement. cbn [map scrub_char]. by rewrite IH by (simpl; lia). }
  destruct t1 as [|b2 t2]; [done|]. simpl in Hl. apply second_of_four_cont in C1.
  destruct (is_cont b2) eqn:C2.
  2:{ rewrite leads_replacement. cbn [map scrub_char]. by rewrite IH by (simpl; lia). }
  destruct t2 as [|b3 t3]; [done|]. simpl in Hl. destruct (is_cont b3) eqn:C3.
  - rewrite (leads_lead 240 244), !leads_cont by (done || lia). cbn [map scrub_char].
    by rewrite IH by lia.
  - rewrite leads_replacement. cbn [map scrub_char]. by rewrite IH by (simpl; lia).
Qed.

Lemma lossy_chars l : map scrub_char (chunk_chars l) = leads (lossy l).
Proof. by apply (lossy_chars_le (length l)). Qed.

Lemma scrub_loop_spec cs : ∀ scrubbed counted excess,
  counted = len scrubbed ∨ MAX_FALLBACK_TEXT_BYTES ≤ counted →
  scrub_loop cs scrubbed counted excess
  = (scrubbed ++ take (Z.to_nat (MAX_FALLBACK_TEXT_BYTES - counted)) (map scrub_char cs),
     counted + len cs,
     excess || (negb (len cs =? 0) && (MAX_FALLBACK_TEXT_BYTES <? counted + len cs))).
Proof.
  induction cs as [|c cs IH]; intros scrubbed counted excess Hc; cbn [scrub_loop].
  { cbn [map]. rewrite take_nil, app_nil_r, len_nil, Z.add_0_r. simpl. by rewrite orb_false_r. }
  rewrite len_cons. pose proof (len_nonneg cs). case_if; reflect_bools.
  - rewrite IH by (left; rewrite len_app; change (len [scrub_char c]) with 1; lia).
    replace (Z.to_nat (MAX_FALLBACK_TEXT_BYTES - counted))
      with (S (Z.to_nat (MAX_FALLBACK_TEXT_BYTES - (counted + 1)))) by lia.
    cbn [map take]. rewrite <- app_assoc. f_equal; [f_equal; lia|]. f_equal.
    replace (1 + len cs =? 0) with false by lia. cbn [negb andb].
    replace (counted + 1 + len cs) with (counted + (1 + len cs)) by lia.
    destruct (len cs =? 0) eqn:E0; [|done]. reflect_bools. simpl. symmetry. apply Z.ltb_ge. lia.
  - rewrite IH by (right; lia).
    replace (Z.to_nat (MAX_FALLBACK_TEXT_BYTES - counted)) with 0%nat by lia.
    replace (Z.to_nat (MAX_FALLBACK_TEXT_BYTES - (counted + 1))) with 0%nat by lia.
    rewrite !take_0. f_equal; [f_equal; lia|].
    replace (1 + len cs =? 0) with false by lia.
    replace (MAX_FALLBACK_TEXT_BYTES <? counted + (1 + len cs)) with true by lia.
    simpl. by rewrite orb_true_r.
Qed.

(** ** Properties *)

Definition envelope_ok (e : FallbackEnvelope) : Prop :=
  is_str e.(env_id) ∧ is_str e.(env_kind) ∧ is_str e.(env_text)
  ∧ slen e.(env_id) ≤ MAX_FALLBACK_ID_BYTES ∧ slen e.(env_kind) ≤ MAX_FALLBACK_KIND_BYTES
  ∧ slen e.(env_text) ≤ MAX_FALLBACK_TEXT_BYTES.

Lemma encode_decode e : envelope_ok e → from_bytes (to_bytes e) = Ok e.
Proof.
  intros (Hi & Hk & Ht & Li & Lk & Lt). pose proof (slen_nonneg (env_id e)).
  pose proof (slen_nonneg (env_kind e)). pose proof (slen_nonneg (env_text e)).
  unfold MAX_FALLBACK_ID_BYTES, MAX_FALLBACK_KIND_BYTES in *.
  assert (small (slen (env_id e)) ∧ small (slen (env_kind e)) ∧ small (slen (env_text e)))
    as (Si & Sk & St) by (unfold small, MAX_FALLBACK_TEXT_BYTES in *; lia).
  unfold from_bytes, to_bytes.
  rewrite (proj2 (strip_bytes_spec ENVELOPE_MAGIC _ _) eq_refl). cbn [map concat].
  rewrite take_encoded, advance_encoded, take_encoded, advance_encoded, take_encoded,
    advance_encoded by done.
  by destruct e.
Qed.

Lemma decode_encode l e : from_bytes l = Ok e → to_bytes e = l ∧ envelope_ok e.
Proof.
  unfold from_bytes. destruct (strip_bytes ENVELOPE_MAGIC l) as [c0|] eqn:E0; [|done].
  apply strip_bytes_spec in E0 as ->.
  destruct (take_field c0 _ _) as [id|] eqn:T1; [|done].
  destruct (advance_field c0) as [c1|] eqn:A1; [|done].
  destruct (take_field c1 _ _) as [kind|] eqn:T2; [|done].
  destruct (advance_field c1) as [c2|] eqn:A2; [|done].
  destruct (take_field c2 _ _) as [text|] eqn:T3; [|done].
  destruct (advance_field c2) as [c3|] eqn:A3; [|done].
  destruct c3; [|done]. intros [= <-].
  destruct (field_decoded _ _ _ _ _ T1 A1) as (-> & Hi & Li); [done|].
  destruct (field_decoded _ _ _ _ _ T2 A2) as (-> & Hk & Lk); [done|].
  destruct (field_decoded _ _ _ _ _ T3 A3) as (-> & Ht & Lt); [done|].
  split; [done|]. by split_and!.
Qed.

(** The wire form is a bijection.  Every valid envelope decodes from its
    encoding, and every byte string the decoder accepts is the encoding of the
    valid envelope it returns: no second spelling, no trailing bytes, and no
    field content can shift a boundary, so distinct envelopes have distinct
    encodings. *)
Theorem envelope_wire_bijective l e : from_bytes l = Ok e ↔ envelope_ok e ∧ to_bytes e = l.
Proof.
  split.
  - intros Hd. by destruct (decode_encode l e Hd).
  - intros [Hok <-]. by apply encode_decode.
Qed.

Lemma scrub_char_printable c : is_printable (scrub_char c) = true.
Proof. destruct c as [b|]; [apply scrub_printable|done]. Qed.

Lemma printable_is_str s : printable s → is_str s.
Proof.
  unfold is_str, printable, str_forall. intros Hp. induction s as [|b s IH]; [done|].
  simpl in *. apply andb_true_iff in Hp as [Hb Hs].
  assert (in_range 0 127 b = true) as ->; [|by apply IH].
  unfold is_printable, is_ascii_graphic, byte_eqb, in_range in *. apply orb_true_iff in Hb as [Hb|Hb];
    reflect_bools; apply andb_true_iff; lia.
Qed.

Lemma scrub_text_spec l :
  scrub_text l =
  let text := leads (lossy l) in
  if MAX_FALLBACK_TEXT_BYTES <? len text then Err (TextTooLarge MAX_FALLBACK_TEXT_BYTES (len text))
  else Ok (of_bytes text).
Proof.
  unfold scrub_text. rewrite scrub_loop_spec by (by left). rewrite lossy_chars. cbv zeta.
  assert (len (chunk_chars l) = len (leads (lossy l))) as ->.
  { unfold len. by rewrite <- lossy_chars, length_map. }
  rewrite app_nil_l, Z.add_0_l, Z.sub_0_r. cbn [orb].
  set (text := leads (lossy l)). pose proof (len_nonneg text). destruct (len text =? 0) eqn:E0.
  - reflect_bools. apply len_zero in E0 as ->. done.
  - cbn [negb andb]. case_if; [done|]. reflect_bools. rewrite take_ge; [done|].
    unfold len in *. lia.
Qed.

(** The fallback is total and readable.  Every byte string, valid UTF-8 or
    not, yields either the envelope whose text is exactly the scrubbed lossy
    decoding of the input (printable, within the cap, and surviving the wire),
    or, only when that text is over the cap, a refusal that reports its exact
    length: nothing is truncated. *)
Theorem fallback_for_total l :
  let text := of_bytes (map scrub (char_leads (from_utf8_lossy l))) in
  match fallback_for l with
  | Ok e => e = mkEnvelope FALLBACK_ID FALLBACK_KIND text ∧ printable text ∧ envelope_ok e
            ∧ from_bytes (to_bytes e) = Ok e
  | Err err => err = TextTooLarge MAX_FALLBACK_TEXT_BYTES (slen text)
               ∧ MAX_FALLBACK_TEXT_BYTES < slen text
  end.
Proof.
  intros text. change text with (of_bytes (leads (lossy l))). clear text. unfold fallback_for.
  rewrite scrub_text_spec. cbv zeta. rewrite slen_of_bytes. case_if; reflect_bools; [done|].
  assert (printable (of_bytes (leads (lossy l)))) as Hp.
  { unfold printable, str_forall. rewrite as_bytes_of_bytes, <- lossy_chars, forallb_forall.
    intros b Hb. apply in_map_iff in Hb as (c & <- & _). apply scrub_char_printable. }
  assert (envelope_ok (mkEnvelope FALLBACK_ID FALLBACK_KIND (of_bytes (leads (lossy l))))) as Hok.
  { unfold envelope_ok. cbn [env_id env_kind env_text].
    split_and!; try done; [by apply printable_is_str|by rewrite slen_of_bytes]. }
  split_and!; [done|done|done|]. by apply encode_decode.
Qed.

(** An ill-formed byte between two characters becomes one question mark. *)
Example fallback_demo :
  fallback_for [Ascii.ascii_of_N 104; Ascii.ascii_of_N 255; Ascii.ascii_of_N 105]
  = Ok (mkEnvelope "fallback" "syntax-fallback" "h?i").
Proof. vm_compute. done. Qed.
