(* ===== verification/Consent.v ===== *)
(** * Consent: protocol identity, the identity bridge and the consent ledger

    Models [bridge.rs]: validation of wire principals, the single-agent
    [IdentityBridge], the [ConsentLedger] seam with its deny-all and fake
    implementations, turn-scoped grants, and the two helpers every dispatch
    path calls.  The fake ledger's grant table is related to an abstract finite
    map from exact (protocol, tool, scope) triples to expiry times. *)

From stdpp Require Import gmap.
From S2P Require Import Prelude Text Session ToolTypes.

Local Open Scope Z_scope.
Local Open Scope rust_scope.

Definition MAX_PROTOCOL_ID_LEN : Z := 128.
Definition MAX_PROTOCOL_ID_SEGMENT_LEN : Z := 64.
Definition MAX_CONSENT_GRANTS : Z := 64.
Definition MAX_CONSENT_SCOPE_LEN : Z := 128.
Definition DEFAULT_CONSENT_TTL_MS : Z := 120000.

Definition DOT : ascii := Ascii.ascii_of_N 46.
Definition NUL : ascii := Ascii.ascii_of_N 0.

Definition is_scope_byte (b : ascii) : bool :=
  is_ascii_lowercase b || is_ascii_digit b || byte_eqb 95 b || byte_eqb 46 b || byte_eqb 45 b.

Inductive BridgeError :=
| InvalidProtocolId (id reason : string)
| AlreadyBound (existing rejected : string)
| UnknownProtocol (protocol : string)
| UnknownInstance (instance : Z)
| InvalidGrant (reason : string)
| LedgerFull (limit : Z)
| ConsentDenied (tool reason : string).

(** [Display for BridgeError] *)
Definition BridgeError_to_string (e : BridgeError) : string :=
  match e with
  | InvalidProtocolId id reason => "invalid protocol id '" +:+ id +:+ "': " +:+ reason
  | AlreadyBound existing rejected =>
      "bridge already bound to '" +:+ existing +:+ "'; rejected '" +:+ rejected
        +:+ "' (single-agent)"
  | UnknownProtocol protocol => "unknown protocol principal '" +:+ protocol +:+ "'"
  | UnknownInstance instance => "unknown agent instance '" +:+ show instance +:+ "'"
  | InvalidGrant reason => "invalid consent grant: " +:+ reason
  | LedgerFull limit => "consent ledger full at " +:+ show limit +:+ " grants"
  | ConsentDenied tool reason => "consent denied for '" +:+ tool +:+ "': " +:+ reason
  end.

(** ** Wire principals *)

(** [str::split_once] at a byte. *)
Fixpoint split_once (sep : ascii) (s : string) : option (string * string) :=
  match s with
  | EmptyString => None
  | String c s =>
      if bool_decide (c = sep) then Some (EmptyString, s)
      else match split_once sep s with
           | Some (a, b) => Some (String c a, b)
           | None => None
           end
  end.

(** [str::split] at a byte: always at least one part. *)
Fixpoint split_on (sep : ascii) (s : string) : list string :=
  match s with
  | EmptyString => [EmptyString]
  | String c s =>
      match split_on sep s with
      | [] => []
      | part :: parts =>
          if bool_decide (c = sep) then EmptyString :: part :: parts
          else String c part :: parts
      end
  end.

Definition is_segment_byte (b : ascii) : bool :=
  is_ascii_lowercase b || is_ascii_digit b || byte_eqb 45 b || byte_eqb 95 b.

(** One turn of the loop over the two segments. *)
Definition validate_segment (raw segment : string) : result unit BridgeError :=
  ensure! negb (is_empty segment)
  else InvalidProtocolId (bound_reason raw) "protocol id segment must not be empty" in
  ensure! negb (slen segment >? MAX_PROTOCOL_ID_SEGMENT_LEN)
  else InvalidProtocolId (bound_reason raw)
         ("segment too long (max " +:+ show MAX_PROTOCOL_ID_SEGMENT_LEN +:+ ")") in
  ensure! starts_lowercase segment
  else InvalidProtocolId (bound_reason raw) "segment must start with lowercase letter" in
  ensure! str_forall is_segment_byte segment
  else InvalidProtocolId (bound_reason raw) "segment must be [a-z0-9_-]" in
  Ok tt.

Fixpoint validate_segments (raw : string) (segments : list string) : result unit BridgeError :=
  match segments with
  | [] => Ok tt
  | segment :: segments =>
      try! _ := validate_segment raw segment in validate_segments raw segments
  end.

Definition validate_protocol_id (raw : string) : result unit BridgeError :=
  ensure! negb (is_empty raw)
  else InvalidProtocolId (bound_reason raw) "protocol id must not be empty" in
  ensure! negb (slen raw >? MAX_PROTOCOL_ID_LEN)
  else InvalidProtocolId (bound_reason raw)
         ("protocol id too long (max " +:+ show MAX_PROTOCOL_ID_LEN +:+ ")") in
  ensure! negb (has_whitespace (as_bytes raw))
  else InvalidProtocolId (bound_reason raw) "protocol id must not contain whitespace" in
  let parts := split_on DOT raw in
  ensure! (len parts =? 2)
  else InvalidProtocolId (bound_reason raw)
         "protocol id must be exactly owner.name (one dot)" in
  validate_segments raw parts.

Record ProtocolAgentId := mkProtocolAgentId { protocol_str : string }.

(** [ProtocolAgentId::new] *)
Definition ProtocolAgentId_new (raw : string) : result ProtocolAgentId BridgeError :=
  try! _ := validate_protocol_id raw in Ok (mkProtocolAgentId raw).

(** [ProtocolAgentId::owner] *)
Definition owner (p : ProtocolAgentId) : string :=
  match split_once DOT p.(protocol_str) with Some (a, _) => a | None => p.(protocol_str) end.

(** [ProtocolAgentId::name] *)
Definition protocol_name (p : ProtocolAgentId) : string :=
  match split_once DOT p.(protocol_str) with Some (_, b) => b | None => "" end.

(** ** The identity bridge *)

Record IdentityBridge := mkBridge { binding : option (ProtocolAgentId * Z) }.

Definition bridge_new : IdentityBridge := mkBridge None.

(** [IdentityBridge::bind] *)
Definition bind (b : IdentityBridge) (protocol : ProtocolAgentId) (instance : Z) :
    IdentityBridge * result unit BridgeError :=
  match b.(binding) with
  | Some (existing_protocol, existing_instance) =>
      if str_eqb existing_protocol.(protocol_str) protocol.(protocol_str)
         && (existing_instance =? instance) then (b, Ok tt)
      else (b, Err (AlreadyBound existing_protocol.(protocol_str) protocol.(protocol_str)))
  | None => (mkBridge (Some (protocol, instance)), Ok tt)
  end.

(** [IdentityBridge::resolve_instance] *)
Definition resolve_instance (b : IdentityBridge) (protocol : string) : result Z BridgeError :=
  try! _ := validate_protocol_id protocol in
  match b.(binding) with
  | Some (bound_protocol, instance) =>
      if str_eqb bound_protocol.(protocol_str) protocol then Ok instance
      else Err (UnknownProtocol protocol)
  | None => Err (UnknownProtocol protocol)
  end.

(** [IdentityBridge::resolve_protocol] *)
Definition resolve_protocol (b : IdentityBridge) (instance : Z) :
    result ProtocolAgentId BridgeError :=
  match b.(binding) with
  | Some (protocol, bound) =>
      if bound =? instance then Ok protocol else Err (UnknownInstance instance)
  | None => Err (UnknownInstance instance)
  end.

(** ** The ledger seam *)

Record ConsentQuery := mkConsentQuery {
  q_protocol_id : string;
  q_agent_instance : Z;
  q_tool : string;
  q_scope : string;
  q_now_ms : Z
}.

Inductive ConsentDecision := ConsentAllow | ConsentDeny (reason : string).

(** The [ConsentLedger] trait. *)
Class ConsentLedger (L : Type) := check : L → ConsentQuery → ConsentDecision.

(** A boxed [dyn ConsentLedger]. *)
#[export] Instance dyn_ConsentLedger : ConsentLedger (ConsentQuery → ConsentDecision) :=
  λ ledger q, ledger q.

Inductive DenyAllConsent := mkDenyAllConsent.

Definition DenyAllConsent_check (_ : DenyAllConsent) (q : ConsentQuery) : ConsentDecision :=
  ConsentDeny (bound_reason ("default-deny: no grant for " +:+ q.(q_tool))).

#[export] Instance DenyAllConsent_ledger : ConsentLedger DenyAllConsent := DenyAllConsent_check.

Record FakeGrant := mkFakeGrant {
  grant_protocol : string;
  grant_tool : string;
  grant_scope : string;
  expires_at_ms : Z
}.

Record FakeConsentLedger := mkFakeLedger { grants : list FakeGrant }.

Definition fake_ledger_new : FakeConsentLedger := mkFakeLedger [].

Definition same_triple (protocol tool scope : string) (g : FakeGrant) : bool :=
  str_eqb g.(grant_protocol) protocol && str_eqb g.(grant_tool) tool
  && str_eqb g.(grant_scope) scope.

(** [iter_mut().find(..)] followed by the assignment to the entry found. *)
Fixpoint refresh (protocol tool scope : string) (expires : Z) (l : list FakeGrant) :
    option (list FakeGrant) :=
  match l with
  | [] => None
  | g :: l =>
      if same_triple protocol tool scope g then
        Some (mkFakeGrant g.(grant_protocol) g.(grant_tool) g.(grant_scope) expires :: l)
      else match refresh protocol tool scope expires l with
           | Some l => Some (g :: l)
           | None => None
           end
  end.

Definition contains_nul (s : string) : bool := existsb (λ b, bool_decide (b = NUL)) (as_bytes s).

(** The argument checks of [FakeConsentLedger::grant], in order. *)
Definition validate_grant (protocol tool scope : string) : result unit BridgeError :=
  try! _ := validate_protocol_id protocol in
  ensure! negb (is_empty tool || is_empty scope)
  else InvalidGrant "tool and scope must not be empty" in
  ensure! negb (contains_nul tool || contains_nul scope)
  else InvalidGrant "tool and scope must not contain NUL" in
  try! _ := map_err (λ error, InvalidGrant (bound_reason (ToolError_to_string error)))
              (validate_tool_name tool) in
  ensure! negb (slen scope >? MAX_CONSENT_SCOPE_LEN)
  else InvalidGrant ("scope too long (max " +:+ show MAX_CONSENT_SCOPE_LEN +:+ ")") in
  ensure! str_forall is_scope_byte scope
  else InvalidGrant "scope must be [a-z0-9_.-]" in
  Ok tt.

(** [FakeConsentLedger::grant] *)
Definition grant (l : FakeConsentLedger) (protocol tool scope : string) (expires : Z) :
    FakeConsentLedger * result unit BridgeError :=
  match validate_grant protocol tool scope with
  | Err e => (l, Err e)
  | Ok _ =>
      match refresh protocol tool scope expires l.(grants) with
      | Some grants' => (mkFakeLedger grants', Ok tt)
      | None =>
          if len l.(grants) >=? MAX_CONSENT_GRANTS then (l, Err (LedgerFull MAX_CONSENT_GRANTS))
          else (mkFakeLedger (l.(grants) ++ [mkFakeGrant protocol tool scope expires]), Ok tt)
      end
  end.

(** [FakeConsentLedger::revoke] *)
Definition revoke (l : FakeConsentLedger) (protocol tool scope : string) :
    FakeConsentLedger * bool :=
  let kept := List.filter (λ g, negb (same_triple protocol tool scope g)) l.(grants) in
  (mkFakeLedger kept, negb (len kept =? len l.(grants))).

(** [FakeConsentLedger::drain_expired] *)
Definition drain_expired (l : FakeConsentLedger) (now_ms : Z) :
    FakeConsentLedger * list (string * string * string) :=
  let expired g := now_ms >=? g.(expires_at_ms) in
  (mkFakeLedger (List.filter (λ g, negb (expired g)) l.(grants)),
   map (λ g, (g.(grant_protocol), g.(grant_tool), g.(grant_scope)))
     (List.filter expired l.(grants))).

Definition FakeConsentLedger_check (l : FakeConsentLedger) (q : ConsentQuery) : ConsentDecision :=
  if existsb (λ g, str_eqb g.(grant_protocol) q.(q_protocol_id)
                   && str_eqb g.(grant_tool) q.(q_tool)
                   && str_eqb g.(grant_scope) q.(q_scope)
                   && (q.(q_now_ms) <? g.(expires_at_ms))) l.(grants)
  then ConsentAllow
  else ConsentDeny (bound_reason ("no live consent for '" +:+ q.(q_protocol_id) +:+ "' on '"
         +:+ q.(q_scope) +:+ "' (tool " +:+ q.(q_tool) +:+ ")")).

#[export] Instance FakeConsentLedger_ledger : ConsentLedger FakeConsentLedger :=
  FakeConsentLedger_check.

(** The loop of [grant_turn_set]: earlier pairs stay granted when a later one
    is refused. *)
Fixpoint grant_pairs (l : FakeConsentLedger) (protocol : string) (pairs : list (string * string))
    (expires_at : Z) (rendered : list (string * string * Z)) :
    FakeConsentLedger * result (list (string * string * Z)) BridgeError :=
  match pairs with
  | [] => (l, Ok rendered)
  | (tool, scope) :: pairs =>
      match grant l protocol tool scope expires_at with
      | (l, Err e) => (l, Err e)
      | (l, Ok _) => grant_pairs l protocol pairs expires_at (rendered ++ [(tool, scope, expires_at)])
      end
  end.

Definition grant_turn_set (l : FakeConsentLedger) (protocol : string)
    (pairs : list (string * string)) (now_ms : Z) (ttl_ms : option Z) :
    FakeConsentLedger * result (list (string * string * Z)) BridgeError :=
  let ttl := default DEFAULT_CONSENT_TTL_MS ttl_ms in
  let expires_at := saturating_add64 now_ms ttl in
  grant_pairs l protocol pairs expires_at [].

(** ** The helpers of the dispatch paths *)

Definition ensure_consented {L} `{ConsentLedger L} (ledger : L) (q : ConsentQuery) :
    result unit BridgeError :=
  match check ledger q with
  | ConsentAllow => Ok tt
  | ConsentDeny reason => Err (ConsentDenied (bound_reason q.(q_tool)) (bound_reason reason))
  end.

Definition ensure_consented_for_dispatch {L} `{ConsentLedger L} (ledger : L) (q : ConsentQuery) :
    result unit ToolError :=
  match ensure_consented ledger q with
  | Ok _ => Ok tt
  | Err error =>
      Err (ToolError_normalized
             (ErrDenied (bound_reason q.(q_tool))
                (bound_reason ("consent denied: " +:+ BridgeError_to_string error))))
  end.

(** ** Lemmas on principals *)

Lemma split_on_nonempty sep s : split_on sep s ≠ [].
Proof. induction s as [|c s IH]; simpl; [done|]. destruct (split_on sep s); [done|]. by case_bool_decide. Qed.

Lemma split_on_one sep s a : split_on sep s = [a] → s = a.
Proof.
  revert a. induction s as [|c s IH]; intros a H; simpl in H; [by simplify_eq|].
  destruct (split_on sep s) as [|p ps] eqn:E; [done|].
  case_bool_decide; simplify_eq. f_equal. by apply IH.
Qed.

(** Two parts are the two sides of the only separator. *)
Lemma split_on_two sep s a b :
  split_on sep s = [a; b] → split_once sep s = Some (a, b) ∧ s = a +:+ String sep b.
Proof.
  revert a. induction s as [|c s IH]; intros a H; simpl in *; [done|].
  destruct (split_on sep s) as [|p ps] eqn:E; [done|].
  case_bool_decide as Hc; simplify_eq.
  - by apply split_on_one in E as ->.
  - destruct (IH p eq_refl) as [-> ->]. done.
Qed.

(** The shape a validated principal has. *)
Definition segment_ok (s : string) : Prop :=
  0 < slen s ≤ MAX_PROTOCOL_ID_SEGMENT_LEN ∧ starts_lowercase s = true
  ∧ str_forall is_segment_byte s = true.

Lemma validate_segment_ok raw s : validate_segment raw s = Ok tt → segment_ok s.
Proof.
  unfold validate_segment, segment_ok. intros H. break_in H. reflect_bools.
  split_and!; [|done|done|done]. destruct s; [done|]. rewrite slen_cons.
  pose proof (slen_nonneg s). lia.
Qed.

Lemma validate_protocol_id_shape raw :
  validate_protocol_id raw = Ok tt →
  ∃ a b, raw = a +:+ String DOT b ∧ split_once DOT raw = Some (a, b) ∧ segment_ok a ∧ segment_ok b
         ∧ slen raw ≤ MAX_PROTOCOL_ID_LEN.
Proof.
  unfold validate_protocol_id. intros H.
  do 4 (case_if_in H; [|done]). reflect_bools.
  destruct (split_on DOT raw) as [|a [|b [|]]] eqn:E; try (unfold len in *; simpl in *; lia).
  apply split_on_two in E as [? ?]. exists a, b.
  simpl in H. break_in H. repeat match goal with x : unit |- _ => destruct x end.
  eauto 10 using validate_segment_ok.
Qed.

(** ** The abstract ledger: a finite map from triples to expiry *)

Abbreviation triple := (string * string * string)%type.
Abbreviation grant_map := (gmap triple Z).

Definition grant_key (g : FakeGrant) : triple :=
  (g.(grant_protocol), g.(grant_tool), g.(grant_scope)).

Definition view (l : FakeConsentLedger) : grant_map :=
  list_to_map (map (λ g, (grant_key g, g.(expires_at_ms))) l.(grants)).

Definition ledger_ok (l : FakeConsentLedger) : Prop :=
  NoDup (map grant_key l.(grants)) ∧ len l.(grants) ≤ MAX_CONSENT_GRANTS
  ∧ Forall (λ g, validate_grant g.(grant_protocol) g.(grant_tool) g.(grant_scope) = Ok tt)
      l.(grants).

(** Everything a host can do to the ledger. *)
Inductive LedgerOp :=
| OpGrant (protocol tool scope : string) (expires : Z)
| OpRevoke (protocol tool scope : string)
| OpDrain (now_ms : Z).

Definition ledger_apply (op : LedgerOp) (l : FakeConsentLedger) : FakeConsentLedger :=
  match op with
  | OpGrant p t s e => (grant l p t s e).1
  | OpRevoke p t s => (revoke l p t s).1
  | OpDrain now => (drain_expired l now).1
  end.

(** What each operation means on the map. *)
Definition map_apply (op : LedgerOp) (m : grant_map) : grant_map :=
  match op with
  | OpGrant p t s e =>
      if is_ok (validate_grant p t s)
         && (bool_decide (is_Some (m !! (p, t, s))) || (Z.of_nat (size m) <? MAX_CONSENT_GRANTS))
      then <[(p, t, s) := e]> m else m
  | OpRevoke p t s => delete (p, t, s) m
  | OpDrain now => filter (λ '(_, e), now < e) m
  end.

Lemma same_triple_true p t s g : same_triple p t s g = true ↔ grant_key g = (p, t, s).
Proof.
  unfold same_triple, grant_key. rewrite !andb_true_iff, !str_eqb_eq.
  split; [intros [[-> ->] ->]; done|]. intros [=]. done.
Qed.

Lemma same_triple_false p t s g : same_triple p t s g = false ↔ grant_key g ≠ (p, t, s).
Proof. rewrite <- same_triple_true. by destruct (same_triple p t s g). Qed.

Lemma view_nil : view (mkFakeLedger []) = ∅.
Proof. done. Qed.

Lemma view_cons g l :
  view (mkFakeLedger (g :: l)) = <[grant_key g := g.(expires_at_ms)]> (view (mkFakeLedger l)).
Proof. done. Qed.

Lemma keys_of_pairs l :
  (map (λ g, (grant_key g, expires_at_ms g)) l).*1 = map grant_key l.
Proof. induction l as [|g l IH]; simpl; [done|]. by f_equal. Qed.

Lemma view_lookup_None l k : view l !! k = None ↔ k ∉ map grant_key l.(grants).
Proof. unfold view. by rewrite <- not_elem_of_list_to_map, keys_of_pairs. Qed.

Lemma view_lookup_Some l k e : NoDup (map grant_key l.(grants)) →
  view l !! k = Some e ↔ ∃ g, g ∈ l.(grants) ∧ grant_key g = k ∧ g.(expires_at_ms) = e.
Proof.
  intros Hnd. unfold view. rewrite <- elem_of_list_to_map by by rewrite keys_of_pairs.
  rewrite list_elem_of_fmap. split.
  - intros (g & [= -> ->] & Hin). eauto.
  - intros (g & Hin & <- & <-). eauto.
Qed.

Lemma view_app l g : grant_key g ∉ map grant_key l →
  view (mkFakeLedger (l ++ [g])) = <[grant_key g := g.(expires_at_ms)]> (view (mkFakeLedger l)).
Proof.
  induction l as [|h l IH]; intros Hn; [done|].
  cbn [app map] in *. apply not_elem_of_cons in Hn as [Hne Hn].
  rewrite !view_cons, IH by done. by apply insert_insert_ne.
Qed.

Lemma view_size l : NoDup (map grant_key l.(grants)) → Z.of_nat (size (view l)) = len l.(grants).
Proof.
  destruct l as [l]. simpl. unfold len. intros Hnd. f_equal.
  induction l as [|g l IH]; [done|]. inversion Hnd; subst.
  rewrite view_cons, map_size_insert_None by by apply view_lookup_None.
  simpl. f_equal. by apply IH.
Qed.

(** Keeping the entries whose key satisfies [P] or whose expiry does, on the
    list and on the map. *)
Lemma view_filter (P : triple * Z → Prop) `{∀ x, Decision (P x)} (f : FakeGrant → bool) l :
  (∀ g, f g = true ↔ P (grant_key g, g.(expires_at_ms))) →
  NoDup (map grant_key l) →
  view (mkFakeLedger (List.filter f l)) = filter P (view (mkFakeLedger l)).
Proof.
  intros Hf. induction l as [|g l IH]; intros Hnd; [done|].
  cbn [List.filter map] in *. inversion Hnd as [|? ? Hn Hnd']; subst.
  rewrite view_cons. destruct (f g) eqn:E.
  - rewrite view_cons, IH by done. rewrite map_filter_insert_True; [done|]. by apply Hf.
  - rewrite IH by done. rewrite map_filter_insert_not'; [done|intros HP%Hf; congruence|].
    intros y Hy. apply (view_lookup_None (mkFakeLedger l)) in Hn. congruence.
Qed.

Lemma refresh_None p t s e l :
  refresh p t s e l = None ↔ (p, t, s) ∉ map grant_key l.
Proof.
  induction l as [|g l IH]; simpl; [split; [intros _; apply not_elem_of_nil|done]|].
  rewrite not_elem_of_cons. destruct (same_triple p t s g) eqn:E.
  - apply same_triple_true in E. split; [done|]. rewrite E. by intros [? _].
  - apply same_triple_false in E. destruct (refresh p t s e l) eqn:E'.
    + split; [done|]. intros [_ Hn]. by apply IH in Hn.
    + split; [|done]. split; [done|by apply IH].
Qed.

Lemma refresh_Some p t s e l l' :
  refresh p t s e l = Some l' →
  map grant_key l' = map grant_key l
  ∧ view (mkFakeLedger l') = <[(p, t, s) := e]> (view (mkFakeLedger l)).
Proof.
  revert l'. induction l as [|g l IH]; intros l' H; simpl in H; [done|].
  destruct (same_triple p t s g) eqn:E.
  - apply same_triple_true in E. simplify_eq. rewrite !view_cons. split; [done|].
    rewrite E, insert_insert_eq. unfold grant_key in *. simpl in *. by rewrite E.
  - apply same_triple_false in E. destruct (refresh p t s e l) as [l1|] eqn:E'; [|done].
    simplify_eq. destruct (IH l1 eq_refl) as [Hk Hv]. split; [simpl; by f_equal|].
    rewrite !view_cons, Hv. by rewrite insert_insert_ne.
Qed.

Lemma revoke_ok p t s l : ledger_ok l → ledger_ok (revoke l p t s).1.
Proof.
  intros (Hnd & Hlen & Hv). unfold revoke, ledger_ok. simpl. split_and!.
  - by apply NoDup_map_filter.
  - etransitivity; [apply len_filter_le|done].
  - by apply Forall_List_filter.
Qed.

Lemma drain_ok now l : ledger_ok l → ledger_ok (drain_expired l now).1.
Proof.
  intros (Hnd & Hlen & Hv). unfold drain_expired, ledger_ok. simpl. split_and!.
  - by apply NoDup_map_filter.
  - etransitivity; [apply len_filter_le|done].
  - by apply Forall_List_filter.
Qed.

(** [grant] on the map, success and refusal. *)
Lemma grant_refines p t s e l : ledger_ok l →
  match grant l p t s e with
  | (l', Ok _) =>
      ledger_ok l' ∧ view l' = <[(p, t, s) := e]> (view l) ∧ validate_grant p t s = Ok tt
      ∧ (is_Some (view l !! (p, t, s)) ∨ Z.of_nat (size (view l)) < MAX_CONSENT_GRANTS)
  | (l', Err _) =>
      l' = l ∧ (is_ok (validate_grant p t s) = false
                ∨ view l !! (p, t, s) = None ∧ MAX_CONSENT_GRANTS ≤ Z.of_nat (size (view l)))
  end.
Proof.
  intros (Hnd & Hlen & Hv). unfold grant.
  destruct (validate_grant p t s) as [[]|] eqn:Hg; [|auto].
  destruct l as [l]. cbn [grants] in *.
  destruct (refresh p t s e l) as [l'|] eqn:E.
  - destruct (refresh_Some _ _ _ _ _ _ E) as [Hk Hview]. split_and!; [|done|done|].
    + split_and!; simpl; [by rewrite Hk| |].
      * apply (f_equal length) in Hk. rewrite !length_map in Hk. unfold len in *. lia.
      * rewrite Forall_forall in *. intros g Hg'.
        assert (grant_key g ∈ map grant_key l) as Hin
          by (rewrite <- Hk; apply list_elem_of_fmap; eauto).
        apply list_elem_of_fmap in Hin as (h & Heq & Hin). unfold grant_key in Heq.
        injection Heq as -> -> ->. by apply Hv.
    + left. apply not_eq_None_Some. rewrite view_lookup_None. simpl.
      intros Hn. by rewrite <- (refresh_None _ _ _ e), E in Hn.
  - apply refresh_None in E. rewrite view_size by done. simpl. case_if; reflect_bools.
    + split; [done|]. right. split; [by apply view_lookup_None|lia].
    + split_and!; [| |done|by right].
      * split_and!; simpl; [| |apply Forall_app; auto].
        -- rewrite map_app. apply NoDup_app. split_and!; [done| |apply NoDup_singleton].
           by intros x Hx ->%list_elem_of_singleton.
        -- len_lia.
      * by apply (view_app l (mkFakeGrant p t s e)).
Qed.

Lemma ledger_apply_refines op l : ledger_ok l →
  ledger_ok (ledger_apply op l) ∧ view (ledger_apply op l) = map_apply op (view l).
Proof.
  intros Hok. destruct op as [p t s e|p t s|now]; simpl.
  - pose proof (grant_refines p t s e l Hok) as H.
    destruct (grant l p t s e) as [l' [[]|]]; simpl.
    + destruct H as (Hl & -> & -> & Hroom). split; [done|]. simpl.
      destruct Hroom as [Hs|Hs]; [by rewrite bool_decide_true|].
      by rewrite (proj2 (Z.ltb_lt _ _) Hs), orb_true_r.
    + destruct H as [-> H]. split; [done|]. destruct H as [->|[-> Hfull]]; [done|].
      rewrite bool_decide_false by by intros [].
      rewrite (proj2 (Z.ltb_ge _ _) Hfull). by rewrite andb_false_r.
  - split; [by apply (revoke_ok p t s)|]. destruct Hok as (Hnd & _).
    unfold revoke. simpl. rewrite (view_filter (λ x, x.1 ≠ (p, t, s))); [|..|done].
    + destruct l as [l]. simpl. apply map_eq. intros k.
      rewrite map_lookup_filter, lookup_delete. destruct (view _ !! k) as [x|]; simpl.
      2:{ by case_decide. }
      case_guard; case_decide; simplify_eq; done.
    + intros g. rewrite negb_true_iff, same_triple_false. done.
  - split; [by apply (drain_ok now)|]. destruct Hok as (Hnd & _).
    unfold drain_expired. simpl. rewrite (view_filter (λ '(_, e), now < e)); [|..|done].
    + by destruct l.
    + intros g. rewrite negb_true_iff. lia.
Qed.

Lemma check_view l q : NoDup (map grant_key l.(grants)) →
  check l q = ConsentAllow ↔
  ∃ e, view l !! (q.(q_protocol_id), q.(q_tool), q.(q_scope)) = Some e ∧ q.(q_now_ms) < e.
Proof.
  intros Hnd. unfold check, FakeConsentLedger_ledger, FakeConsentLedger_check.
  setoid_rewrite view_lookup_Some; [|done]. destruct (existsb _ _) eqn:E.
  - split; [intros _|done]. apply existsb_true_iff in E as (g & Hin & Hg).
    rewrite !andb_true_iff, !str_eqb_eq, Z.ltb_lt in Hg.
    destruct Hg as [[[<- <-] <-] ?]. eauto 10.
  - split; [done|]. intros (e & (g & Hin & Hk & <-) & Hlt). exfalso.
    rewrite existsb_false_iff in E. specialize (E g Hin). injection Hk as H1 H2 H3.
    rewrite H1, H2, H3, !str_eqb_refl in E. simpl in E. lia.
Qed.

Lemma lookup_insert_elem (ks : list triple) (k k0 : triple) (e : Z) (m : grant_map) :
  (if bool_decide (k ∈ ks) then Some e else <[k0 := e]> m !! k)
  = if bool_decide (k ∈ k0 :: ks) then Some e else m !! k.
Proof.
  destruct (decide (k = k0)) as [->|Hne].
  - rewrite (bool_decide_true (k0 ∈ k0 :: ks)) by constructor.
    rewrite lookup_insert_eq. by case_bool_decide.
  - rewrite lookup_insert_ne by done.
    assert (k ∈ k0 :: ks ↔ k ∈ ks) as Hiff by (rewrite elem_of_cons; split; [by intros [|]|by right]).
    by rewrite (bool_decide_ext _ _ Hiff).
Qed.

(** A successful batch sets exactly its triples, all to the same expiry. *)
Lemma grant_pairs_refines p pairs e : ∀ l rendered, ledger_ok l →
  match grant_pairs l p pairs e rendered with
  | (l', Ok shown) =>
      ledger_ok l' ∧ shown = rendered ++ map (λ '(t, s), (t, s, e)) pairs
      ∧ ∀ k, view l' !! k =
             if bool_decide (k ∈ map (λ '(t, s), (p, t, s)) pairs) then Some e else view l !! k
  | (l', Err _) =>
      ledger_ok l' ∧ ∃ n, (n < length pairs)%nat ∧
        ∀ k, view l' !! k =
             if bool_decide (k ∈ map (λ '(t, s), (p, t, s)) (take n pairs)) then Some e
             else view l !! k
  end.
Proof.
  induction pairs as [|[t s] pairs IH]; intros l rendered Hok; simpl.
  - split_and!; [done|by rewrite app_nil_r|done].
  - pose proof (grant_refines p t s e l Hok) as Hg.
    destruct (grant l p t s e) as [l1 [[]|err]].
    2:{ destruct Hg as [-> _]. split; [done|]. exists 0%nat. split; [lia|done]. }
    destruct Hg as (Hok1 & Hv & _ & _).
    specialize (IH l1 (rendered ++ [(t, s, e)]) Hok1).
    destruct (grant_pairs l1 p pairs e _) as [l2 [shown|err]].
    + destruct IH as (Hok2 & -> & Hk). split_and!; [done|by rewrite <- app_assoc|].
      intros k. rewrite Hk, Hv. apply lookup_insert_elem.
    + destruct IH as (Hok2 & n & Hn & Hk). split; [done|]. exists (S n). split; [lia|].
      intros k. rewrite Hk, Hv. apply lookup_insert_elem.
Qed.

(** ** Properties *)

Definition ledger_run (ops : list LedgerOp) : FakeConsentLedger :=
  fold_left (λ l op, ledger_apply op l) ops fake_ledger_new.

Definition map_run (ops : list LedgerOp) : grant_map :=
  fold_left (λ m op, map_apply op m) ops ∅.

Lemma ledger_run_refines ops : ledger_ok (ledger_run ops) ∧ view (ledger_run ops) = map_run ops.
Proof.
  unfold ledger_run, map_run. assert (ledger_ok fake_ledger_new) as Hok.
  { split_and!; [constructor|vm_compute; done|constructor]. }
  rewrite <- view_nil. fold fake_ledger_new. revert Hok. generalize fake_ledger_new.
  induction ops as [|op ops IH]; intros l Hok; [done|]. simpl.
  destruct (ledger_apply_refines op l Hok) as [Hok' <-]. by apply IH.
Qed.

(** C8: refinement of the consent ledger.  After any history of grants,
    revocations and expiry sweeps the ledger holds at most
    [MAX_CONSENT_GRANTS] distinct valid triples and is exactly the finite map
    the history denotes; a check allows a call if and only if that map holds
    the exact (protocol, tool, scope) triple with an expiry strictly after the
    query's time. *)
Theorem consent_ledger_refines_map ops q :
  ledger_ok (ledger_run ops)
  ∧ view (ledger_run ops) = map_run ops
  ∧ (check (ledger_run ops) q = ConsentAllow ↔
     ∃ e, map_run ops !! (q.(q_protocol_id), q.(q_tool), q.(q_scope)) = Some e
          ∧ q.(q_now_ms) < e).
Proof.
  destruct (ledger_run_refines ops) as [Hok Hv]. split_and!; [done|done|].
  rewrite <- Hv. apply check_view. apply Hok.
Qed.

(** A turn-scoped batch of grants.  When [grant_turn_set] succeeds it renders
    every pair in order with the saturated expiry and afterwards exactly those
    triples (of that principal) have that expiry while every other triple is as
    before: no wildcard.  When it fails, the pairs before the refused one stay
    granted and nothing else changed. *)
Theorem grant_turn_set_exact l p pairs now ttl :
  ledger_ok l →
  let expires := saturating_add64 now (default DEFAULT_CONSENT_TTL_MS ttl) in
  let keys ps := map (λ '(t, s), (p, t, s)) ps in
  match grant_turn_set l p pairs now ttl with
  | (l', Ok shown) =>
      ledger_ok l' ∧ shown = map (λ '(t, s), (t, s, expires)) pairs
      ∧ ∀ k, view l' !! k = if bool_decide (k ∈ keys pairs) then Some expires else view l !! k
  | (l', Err _) =>
      ledger_ok l' ∧ ∃ n, (n < length pairs)%nat ∧
        ∀ k, view l' !! k =
             if bool_decide (k ∈ keys (take n pairs)) then Some expires else view l !! k
  end.
Proof. intros Hok expires keys. apply (grant_pairs_refines p pairs expires l [] Hok). Qed.

Lemma grant_turn_set_exact_witness :
  (grant_turn_set fake_ledger_new "local.assistant" [("fs.read", "workspace.read")] 5 None).2
    = Ok [("fs.read", "workspace.read", 120005)]
  ∧ view (grant_turn_set fake_ledger_new "local.assistant" [("fs.read", "workspace.read")] 5 None).1
      !! ("local.assistant", "fs.read", "workspace.read") = Some 120005.
Proof.
  assert (ledger_ok fake_ledger_new) as Hok by (split_and!; [constructor|vm_compute; done|constructor]).
  pose proof (grant_turn_set_exact fake_ledger_new "local.assistant"
    [("fs.read", "workspace.read")] 5 None Hok) as H.
  assert ((grant_turn_set fake_ledger_new "local.assistant" [("fs.read", "workspace.read")] 5 None).2
    = Ok [("fs.read", "workspace.read", 120005)]) as E by (vm_compute; reflexivity).
  split; [exact E|].
  destruct (grant_turn_set _ _ _ _ _) as [l' r]. simpl in E. subst r.
  destruct H as (_ & _ & Hk). cbn [fst]. rewrite Hk. reflexivity.
Defined.

(** A validated principal is exactly [owner.name]: printing the two segments
    around one dot gives the wire string back, and both segments have the
    documented shape and bounds. *)
Theorem protocol_id_roundtrip raw p :
  ProtocolAgentId_new raw = Ok p →
  owner p +:+ String DOT (protocol_name p) = raw
  ∧ segment_ok (owner p) ∧ segment_ok (protocol_name p) ∧ slen raw ≤ MAX_PROTOCOL_ID_LEN.
Proof.
  unfold ProtocolAgentId_new. destruct (validate_protocol_id raw) as [[]|] eqn:E; [|done].
  intros [= <-]. apply validate_protocol_id_shape in E as (a & b & -> & Hs & Ha & Hb & Hl).
  unfold owner, protocol_name. cbn [protocol_str]. rewrite Hs. done.
Qed.

Lemma protocol_id_roundtrip_witness :
  owner (mkProtocolAgentId "local.assistant") = "local"
  ∧ protocol_name (mkProtocolAgentId "local.assistant") = "assistant"
  ∧ segment_ok (owner (mkProtocolAgentId "local.assistant")).
Proof.
  split; [reflexivity|]. split; [reflexivity|].
  apply (protocol_id_roundtrip "local.assistant"). vm_compute. reflexivity.
Defined.

(** Binds in sequence. *)
Definition bind_all (b : IdentityBridge) (ps : list (ProtocolAgentId * Z)) : IdentityBridge :=
  fold_left (λ b '(p, i), (bind b p i).1) ps b.

(** The identity bridge never re-routes.  Once a pair is bound, no sequence
    of further [bind] calls changes it: the bound principal keeps resolving to
    its instance and back, and every other principal and instance is refused. *)
Theorem identity_bridge_stable p i ps q j :
  validate_protocol_id p.(protocol_str) = Ok tt →
  let b := bind_all (bind bridge_new p i).1 ps in
  resolve_instance b p.(protocol_str) = Ok i ∧ resolve_protocol b i = Ok p
  ∧ (q ≠ p.(protocol_str) → is_ok (resolve_instance b q) = false)
  ∧ (j ≠ i → resolve_protocol b j = Err (UnknownInstance j)).
Proof.
  intros Hv b. assert (b = mkBridge (Some (p, i))) as ->.
  { subst b. simpl. induction ps as [|[p' i'] ps IH]; [done|].
    change (bind_all (bind (mkBridge (Some (p, i))) p' i').1 ps = mkBridge (Some (p, i))).
    unfold bind. cbn [binding]. by case_if. }
  unfold resolve_instance, resolve_protocol. simpl.
  rewrite Hv, str_eqb_refl, Z.eqb_refl. split_and!; [done|done| |].
  - intros Hne. destruct (validate_protocol_id q); [|done].
    by rewrite (proj2 (str_eqb_neq _ _)) by done.
  - intros Hne. by rewrite (proj2 (Z.eqb_neq _ _)) by done.
Qed.

Lemma identity_bridge_stable_witness :
  resolve_instance
    (bind_all (bind bridge_new (mkProtocolAgentId "local.assistant") 7).1
       [(mkProtocolAgentId "evil.twin", 8)]) "local.assistant" = Ok 7.
Proof.
  apply (identity_bridge_stable (mkProtocolAgentId "local.assistant") 7
    [(mkProtocolAgentId "evil.twin", 8)] "" 0). vm_compute. reflexivity.
Defined.
