(* ===== verification/ToolBus.v ===== *)
(** * ToolBus: capability-checked dispatch

    Models the [ToolBus] of [tool.rs].  The host is a world [W]: the
    authorization hook and the consent ledger are installed as functions that
    read it (both take [&self] in the source), and the executor is a function
    that moves it and may act on the caller's session through the handle the
    host holds (the session operations it performed, in order). *)

From S2P Require Import Prelude Text Session ToolTypes Consent.

Local Open Scope Z_scope.
Local Open Scope rust_scope.

(** The [ToolExecutor] seam, through [execute_with_context]: the next world, the
    operations performed on the session handle, and the host's answer. *)
Definition ToolExecutor (W : Type) : Type :=
  W → string → bytes → ExecutionContext → W * list SessionOp * result ToolSuccess ToolError.

Record ToolBus (W : Type) := mkToolBus {
  registry : ToolRegistry;
  authorizer : option (W → AuthContext → AuthDecision);
  consent : option (W → ConsentQuery → ConsentDecision);
  protocol_id : option string;
  calls_this_turn : Z;
  usage : list UsageEvent
}.

Arguments mkToolBus {W}.
Arguments registry {W}.
Arguments authorizer {W}.
Arguments consent {W}.
Arguments protocol_id {W}.
Arguments calls_this_turn {W}.
Arguments usage {W}.

(** ** The test peers of the executor seam *)

(** [FakeToolExecutor]: [cancel_hook] is the call index at which the caller's
    session is cancelled. *)
Record FakeToolExecutor := mkFakeExecutor {
  script : list (result ToolSuccess ToolError);
  calls : list (string * bytes);
  cancel_hook : option Z
}.

Definition empty_success : ToolSuccess := mkToolSuccess "" [].

(** [script.pop_front().unwrap_or(Ok(empty))] *)
Definition pop_script (s : list (result ToolSuccess ToolError)) :
    list (result ToolSuccess ToolError) * result ToolSuccess ToolError :=
  match s with [] => ([], Ok empty_success) | r :: s => (s, r) end.

Definition FakeToolExecutor_execute : ToolExecutor FakeToolExecutor :=
  λ w tool arguments _,
    let calls' := w.(calls) ++ [(tool, arguments)] in
    let ops := match w.(cancel_hook) with
               | Some index => if len calls' =? index then [OpCancel] else []
               | None => []
               end in
    let '(script', outcome) := pop_script w.(script) in
    (mkFakeExecutor script' calls' w.(cancel_hook), ops, outcome).

Record RecordingExecutor := mkRecordingExecutor {
  rec_script : list (result ToolSuccess ToolError);
  rec_calls : list (Z * string * bytes)
}.

Definition RecordingExecutor_execute : ToolExecutor RecordingExecutor :=
  λ w tool arguments context,
    let '(script', outcome) := pop_script w.(rec_script) in
    (mkRecordingExecutor script' (w.(rec_calls) ++ [(context.(ec_execution_id), tool, arguments)]),
     [], outcome).

Section Bus.
Context {W : Type}.
Implicit Types (b : ToolBus W) (w : W) (executor : ToolExecutor W).

(** ** Construction and accounting *)

(** [ToolBus::new] *)
Definition bus_new (r : ToolRegistry) : ToolBus W := mkToolBus r None None None 0 [].

(** [ToolBus::with_authorizer] *)
Definition with_authorizer b (hook : W → AuthContext → AuthDecision) : ToolBus W :=
  mkToolBus b.(registry) (Some hook) b.(consent) b.(protocol_id) b.(calls_this_turn) b.(usage).

(** [ToolBus::with_consent] *)
Definition with_consent b (ledger : W → ConsentQuery → ConsentDecision) (pid : string) : ToolBus W :=
  mkToolBus b.(registry) b.(authorizer) (Some ledger) (Some pid) b.(calls_this_turn) b.(usage).

Definition with_calls b (n : Z) : ToolBus W :=
  mkToolBus b.(registry) b.(authorizer) b.(consent) b.(protocol_id) n b.(usage).

Definition with_usage b (u : list UsageEvent) : ToolBus W :=
  mkToolBus b.(registry) b.(authorizer) b.(consent) b.(protocol_id) b.(calls_this_turn) u.

(** [ToolBus::begin_turn] *)
Definition begin_turn b : ToolBus W := with_calls b 0.

(** ** The audit ring *)

(** A site label: bounded, and dropped when nothing is left of it. *)
Definition bound_label (label : option string) : option string :=
  match label with
  | None => None
  | Some s => let bounded := bound_reason s in if is_empty bounded then None else Some bounded
  end.

Definition normalize_event (e : UsageEvent) : UsageEvent :=
  mkUsageEvent e.(ev_execution_id) (bound_reason e.(ev_tool)) (bound_reason e.(ev_scope))
    (bound_reason e.(ev_protocol_id)) e.(ev_caller) e.(ev_occurred_at_ms)
    (mkUsageSite e.(ev_site).(site_placement) (bound_label e.(ev_site).(site_server_id))
       (bound_label e.(ev_site).(site_task_id)))
    (ToolStatus_normalized e.(ev_status)) e.(ev_result_disposition) (bound_reason e.(ev_reason))
    e.(ev_args_digest).

(** [ToolBus::push_usage] *)
Definition push_usage b (event : UsageEvent) : ToolBus W :=
  let kept := if len b.(usage) >=? MAX_USAGE_EVENTS then tail b.(usage) else b.(usage) in
  with_usage b (kept ++ [normalize_event event]).

(** [ToolBus::list_usage] *)
Definition list_usage b (filter : UsageFilter) (limit : nat) : list UsageEvent :=
  take limit (List.filter (filter_matches filter) b.(usage)).

(** [ToolBus::status_reason] *)
Definition status_reason (s : ToolStatus) : string :=
  match s with
  | StatusSuccess => ""
  | StatusFailed reason | StatusDenied reason | StatusUnknown reason => bound_reason reason
  | StatusRefused cause => bound_reason (ToolError_to_string cause)
  end.

(** [ToolBus::observe_dispatch] *)
Definition observe_dispatch b (execution_id : Z) (call : ToolCall) (base : AuthBase) (now_ms : Z)
    (st : ToolStatus) (disposition : ResultDisposition) : ToolBus W :=
  let '(scope, place) :=
    match lookup_tool b.(registry) call.(call_name) with
    | Some spec => (spec.(required_scope), spec.(placement))
    | None => ("", None)
    end in
  push_usage b
    (mkUsageEvent execution_id call.(call_name) scope (default "" b.(protocol_id)) base now_ms
       (mkUsageSite place None None) st disposition (status_reason st)
       (args_digest call.(arguments))).

(** ** Gates *)

(** [ToolBus::authorize_call] *)
Definition authorize_call b w (base : AuthBase) (call : ToolCall) : result unit ToolError :=
  try! _ := validate_tool_name call.(call_name) in
  match lookup_tool b.(registry) call.(call_name) with
  | None => Err (UnknownTool call.(call_name))
  | Some spec =>
      ensure! negb (len call.(arguments) >? MAX_TOOL_ARGUMENTS_BYTES)
      else ArgumentsTooLarge MAX_TOOL_ARGUMENTS_BYTES (len call.(arguments)) in
      ensure! negb (bool_decide (base.(base_level) = Inspect) && negb spec.(read_only))
      else ErrDenied call.(call_name) "inspect tier is read-only; elevation required" in
      match b.(authorizer) with
      | None => Err (ErrDenied call.(call_name) "no authorizer installed (fail closed)")
      | Some hook =>
          match hook w (mkAuthContext base call.(call_name) spec.(required_scope) spec.(read_only)) with
          | AuthAllow => Ok tt
          | AuthDeny reason => Err (ToolError_normalized (ErrDenied call.(call_name) reason))
          end
      end
  end.

(** [ToolBus::check_consent] *)
Definition check_consent b w (call : ToolCall) (base : AuthBase) (now_ms : Z) :
    result unit ToolError :=
  match b.(consent), b.(protocol_id) with
  | Some ledger, Some pid =>
      match lookup_tool b.(registry) call.(call_name) with
      | None => Err (UnknownTool call.(call_name))
      | Some spec =>
          ensure_consented_for_dispatch (ledger w)
            (mkConsentQuery pid base.(base_agent_instance_id) call.(call_name)
               spec.(required_scope) now_ms)
      end
  | _, _ =>
      Err (ToolError_normalized
             (ErrDenied call.(call_name) "no consent ledger installed (fail closed)"))
  end.

Fixpoint authorize_all b w (base : AuthBase) (cs : list ToolCall) : result unit ToolError :=
  match cs with
  | [] => Ok tt
  | call :: cs => try! _ := authorize_call b w base call in authorize_all b w base cs
  end.

(** [ToolBus::precheck] *)
Definition precheck b w (cs : list ToolCall) (base : AuthBase) (configured_limit : Z) :
    result unit ToolError :=
  try! _ := authorize_all b w base cs in
  let effective_limit := Z.min configured_limit MAX_TOOL_CALLS_PER_TURN in
  ensure! negb (saturating_add64 (len cs) b.(calls_this_turn) >? effective_limit)
  else CallLimitExceeded effective_limit in
  Ok tt.

(** [ToolBus::narrowing_omits] *)
Definition narrowing_omits (allowed : option (list string)) (tool : string) : bool :=
  match allowed with
  | None => false
  | Some l => negb (existsb (λ entry, str_eqb entry tool) l)
  end.

(** [ToolBus::narrowing_denial] *)
Definition narrowing_denial (call : ToolCall) : ToolError :=
  ToolError_normalized
    (ErrDenied call.(call_name) ("tool '" +:+ call.(call_name) +:+ "' omitted by per-call narrowing")).

Fixpoint narrowing_all (allowed : option (list string)) (cs : list ToolCall) :
    result unit ToolError :=
  match cs with
  | [] => Ok tt
  | call :: cs =>
      ensure! negb (narrowing_omits allowed call.(call_name)) else narrowing_denial call in
      narrowing_all allowed cs
  end.

(** [ToolBus::precheck_narrowed] *)
Definition precheck_narrowed b w (cs : list ToolCall) (base : AuthBase) (configured_limit : Z)
    (allowed : option (list string)) : result unit ToolError :=
  try! _ := narrowing_all allowed cs in precheck b w cs base configured_limit.

(** ** Dispatch *)

(** [ToolBus::refused] *)
Definition refused (id : Z) (call : ToolCall) (cause : ToolError) : ToolExecution :=
  mkExecution id call.(call_name) (StatusRefused cause) Accepted "refused before dispatch" [] false.

(** [ToolBus::result_rejected] *)
Definition result_rejected (id : Z) (call : ToolCall) (cause : ToolError) : ToolExecution :=
  mkExecution id call.(call_name) StatusSuccess (Rejected cause)
    "executed; result rejected by bus" [] true.

(** [ToolBus::ack_loss] *)
Definition ack_loss (id : Z) (call : ToolCall) (reason : string) : ToolExecution :=
  mkExecution id call.(call_name) (StatusUnknown (bound_reason reason)) Accepted
    "effect uncertain; reconcile before retry" [] true.

(** The [match outcome] of [dispatch]: the record made of the host's answer. *)
Definition execution_of (id : Z) (call : ToolCall) (outcome : result ToolSuccess ToolError) :
    result ToolExecution ToolError :=
  match outcome with
  | Ok success =>
      if slen success.(success_summary) >? MAX_SUMMARY_BYTES then
        Ok (result_rejected id call
              (SummaryTooLarge MAX_SUMMARY_BYTES (slen success.(success_summary))))
      else if len success.(success_data) >? MAX_TOOL_RESULT_BYTES then
        Ok (result_rejected id call
              (ResultTooLarge MAX_TOOL_RESULT_BYTES (len success.(success_data))))
      else
        Ok (mkExecution id call.(call_name) StatusSuccess Accepted success.(success_summary)
              success.(success_data) true)
  | Err (ErrEffectUnknown _ reason) => Ok (ack_loss id call reason)
  | Err (ErrDenied _ reason) =>
      Ok (mkExecution id call.(call_name) (StatusDenied (bound_reason reason)) Accepted
            "host denied execution" [] true)
  | Err (ErrFailed _ reason) =>
      Ok (mkExecution id call.(call_name) (StatusFailed (bound_reason reason)) Accepted
            "host reported failure" [] true)
  | Err (ErrProtocolRejected _ reason) =>
      Ok (mkExecution id call.(call_name) (StatusFailed (bound_reason reason)) Accepted
            "protocol rejected before execution" [] true)
  | Err error => Err error
  end.

(** Every [Ok(execution)] is preceded by its [observe_dispatch]. *)
Definition observed b (call : ToolCall) (base : AuthBase) (now_ms : Z) (e : ToolExecution) :
    ToolBus W :=
  observe_dispatch b e.(execution_id) call base now_ms e.(status) e.(result_disposition).

(** [ToolBus::dispatch]: the bus, the world, the session operations the executor
    performed, and the outcome. *)
Definition dispatch executor b w (call : ToolCall) (base : AuthBase) (execution_id now_ms : Z) :
    ToolBus W * W * list SessionOp * result ToolExecution ToolError :=
  let refuse cause :=
    let e := refused execution_id call cause in
    (observed b call base now_ms e, w, [], Ok e) in
  match authorize_call b w base call with
  | Err error => refuse error
  | Ok _ =>
  match check_consent b w call base now_ms with
  | Err denial => refuse denial
  | Ok _ =>
  if b.(calls_this_turn) >=? MAX_TOOL_CALLS_PER_TURN then
    refuse (CallLimitExceeded MAX_TOOL_CALLS_PER_TURN)
  else
    let '(w', ops, outcome) :=
      executor w call.(call_name) call.(arguments) (mkExecContext execution_id now_ms) in
    let b' := with_calls b (b.(calls_this_turn) + 1) in
    match execution_of execution_id call outcome with
    | Ok e => (observed b' call base now_ms e, w', ops, Ok e)
    | Err error => (b', w', ops, Err error)
    end
  end end.

(** [ToolBus::dispatch_narrowed] *)
Definition dispatch_narrowed executor b w (call : ToolCall) (base : AuthBase)
    (execution_id now_ms : Z) (allowed : option (list string)) :
    ToolBus W * W * list SessionOp * result ToolExecution ToolError :=
  if narrowing_omits allowed call.(call_name) then
    let e := refused execution_id call (narrowing_denial call) in
    (observed b call base now_ms e, w, [], Ok e)
  else dispatch executor b w call base execution_id now_ms.

End Bus.

(** ** Lemmas *)

Section BusLemmas.
Context {W : Type}.
Implicit Types (b : ToolBus W) (w : W) (executor : ToolExecutor W).

(** What the two gates require, as one proposition. *)
Definition authorized b w (base : AuthBase) (call : ToolCall) : Prop :=
  ∃ spec hook,
    validate_tool_name call.(call_name) = Ok tt
    ∧ lookup_tool b.(registry) call.(call_name) = Some spec
    ∧ len call.(arguments) ≤ MAX_TOOL_ARGUMENTS_BYTES
    ∧ (base.(base_level) = Inspect → spec.(read_only) = true)
    ∧ b.(authorizer) = Some hook
    ∧ hook w (mkAuthContext base call.(call_name) spec.(required_scope) spec.(read_only))
      = AuthAllow.

Definition consented b w (base : AuthBase) (call : ToolCall) (now_ms : Z) : Prop :=
  ∃ spec ledger pid,
    lookup_tool b.(registry) call.(call_name) = Some spec
    ∧ b.(consent) = Some ledger ∧ b.(protocol_id) = Some pid
    ∧ ledger w (mkConsentQuery pid base.(base_agent_instance_id) call.(call_name)
                  spec.(required_scope) now_ms) = ConsentAllow.

Definition in_allow_set (allowed : option (list string)) (name : string) : Prop :=
  match allowed with None => True | Some l => name ∈ l end.

(** Everything that must hold before the executor is contacted. *)
Definition admitted b w (base : AuthBase) (call : ToolCall) (now_ms : Z)
    (allowed : option (list string)) : Prop :=
  in_allow_set allowed call.(call_name) ∧ authorized b w base call
  ∧ consented b w base call now_ms ∧ b.(calls_this_turn) < MAX_TOOL_CALLS_PER_TURN.

Lemma authorize_call_ok b w base call :
  authorize_call b w base call = Ok tt ↔ authorized b w base call.
Proof.
  unfold authorize_call, authorized. split.
  - destruct (validate_tool_name _) as [[]|]; [|done].
    destruct (lookup_tool _ _) as [spec|]; [|done].
    do 2 (case_if; [|done]). destruct (authorizer b) as [hook|]; [|done].
    destruct (hook _ _) eqn:Hh; [|done]. intros _. reflect_bools.
    exists spec, hook. split_and!; try done.
    intros Hl. rewrite bool_decide_true in * by done. by destruct (read_only spec).
  - intros (spec & hook & -> & -> & Hlen & Hro & -> & ->).
    replace (len (arguments call) >? MAX_TOOL_ARGUMENTS_BYTES) with false by lia.
    case_bool_decide; [rewrite Hro by done|]; done.
Qed.

Lemma ensure_consented_for_dispatch_ok (ledger : ConsentQuery → ConsentDecision) q :
  ensure_consented_for_dispatch ledger q = Ok tt ↔ ledger q = ConsentAllow.
Proof.
  unfold ensure_consented_for_dispatch, ensure_consented, check, dyn_ConsentLedger.
  by destruct (ledger q).
Qed.

Lemma check_consent_ok b w call base now :
  check_consent b w call base now = Ok tt ↔ consented b w base call now.
Proof.
  unfold check_consent, consented. split.
  - destruct (consent b) as [ledger|]; [|done]. destruct (protocol_id b) as [pid|]; [|done].
    destruct (lookup_tool _ _) as [spec|]; [|done].
    intros H%ensure_consented_for_dispatch_ok. eauto 10.
  - intros (spec & ledger & pid & -> & -> & -> & H). by apply ensure_consented_for_dispatch_ok.
Qed.

Lemma narrowing_omits_false allowed name :
  narrowing_omits allowed name = false ↔ in_allow_set allowed name.
Proof.
  destruct allowed as [l|]; simpl; [|done]. rewrite negb_false_iff, existsb_true_iff. split.
  - intros (x & Hx & ->%str_eqb_eq). done.
  - intros H. exists name. by rewrite str_eqb_refl.
Qed.

(** The unit result carries no information. *)
Lemma unit_ok {E} (r : result unit E) u : r = Ok u → r = Ok tt.
Proof. by destruct u. Qed.

Lemma dispatch_admitted executor b w call base id now allowed :
  admitted b w base call now allowed →
  dispatch_narrowed executor b w call base id now allowed =
  let '(w', ops, outcome) :=
    executor w call.(call_name) call.(arguments) (mkExecContext id now) in
  let b' := with_calls b (b.(calls_this_turn) + 1) in
  match execution_of id call outcome with
  | Ok e => (observed b' call base now e, w', ops, Ok e)
  | Err error => (b', w', ops, Err error)
  end.
Proof.
  intros (Hn & Ha & Hc & Hl). unfold dispatch_narrowed, dispatch.
  rewrite (proj2 (narrowing_omits_false _ _) Hn), (proj2 (authorize_call_ok _ _ _ _) Ha),
    (proj2 (check_consent_ok _ _ _ _ _) Hc).
  by replace (calls_this_turn b >=? MAX_TOOL_CALLS_PER_TURN) with false by lia.
Qed.

Lemma dispatch_not_admitted executor b w call base id now allowed :
  ¬ admitted b w base call now allowed →
  ∃ cause, dispatch_narrowed executor b w call base id now allowed
    = (observed b call base now (refused id call cause), w, [], Ok (refused id call cause)).
Proof.
  intros Hn. unfold dispatch_narrowed, dispatch.
  destruct (narrowing_omits allowed (call_name call)) eqn:E1; [eauto|].
  destruct (authorize_call b w base call) eqn:E2; [|eauto].
  destruct (check_consent b w call base now) eqn:E3; [|eauto].
  case_if; [eauto|]. reflect_bools. exfalso. apply Hn.
  apply unit_ok, authorize_call_ok in E2. apply unit_ok, check_consent_ok in E3.
  apply narrowing_omits_false in E1. done.
Qed.

Lemma admitted_dec b w base call now allowed :
  admitted b w base call now allowed ∨ ¬ admitted b w base call now allowed.
Proof.
  unfold admitted. rewrite <- narrowing_omits_false, <- authorize_call_ok, <- check_consent_ok.
  destruct (narrowing_omits _ _); [right; by intros (? & ? & ? & ?)|].
  destruct (authorize_call _ _ _ _) as [[]|]; [|right; by intros (? & ? & ? & ?)].
  destruct (check_consent _ _ _ _ _) as [[]|]; [|right; by intros (? & ? & ? & ?)].
  destruct (decide (calls_this_turn b < MAX_TOOL_CALLS_PER_TURN)); [by left|right; by intros (? & ? & ? & ?)].
Qed.

(** ** Bounded text in statuses and audit rows *)

Lemma bound_label_idemp l : bound_label (bound_label l) = bound_label l.
Proof.
  destruct l as [s|]; simpl; [|done]. destruct (is_empty (bound_reason s)) eqn:E; [done|].
  simpl. by rewrite bound_reason_idemp, E.
Qed.

Lemma ToolError_normalized_idemp e : ToolError_normalized (ToolError_normalized e) = ToolError_normalized e.
Proof. destruct e; simpl; by rewrite ?bound_reason_idemp. Qed.

Lemma ToolStatus_normalized_idemp s :
  ToolStatus_normalized (ToolStatus_normalized s) = ToolStatus_normalized s.
Proof. destruct s; simpl; by rewrite ?bound_reason_idemp, ?ToolError_normalized_idemp. Qed.

Lemma normalize_event_idemp e : normalize_event (normalize_event e) = normalize_event e.
Proof.
  destruct e as [? ? ? ? ? ? []]. unfold normalize_event. simpl.
  by rewrite !bound_reason_idemp, !bound_label_idemp, ToolStatus_normalized_idemp.
Qed.

Lemma tool_name_byte_printable c : is_tool_name_byte c = true → is_printable c = true.
Proof.
  unfold is_tool_name_byte, is_printable, is_ascii_lowercase, is_ascii_digit, is_ascii_graphic,
    in_range, byte_eqb. lia.
Qed.

(** A valid tool name is its own bounded form. *)
Lemma valid_name_bound name : validate_tool_name name = Ok tt → bound_reason name = name.
Proof.
  unfold validate_tool_name. case_if; [|done]. intros _. reflect_bools.
  apply bound_reason_id.
  - unfold printable, str_forall in *. rewrite forallb_forall in *.
    intros c Hc. apply tool_name_byte_printable. auto.
  - unfold MAX_TOOL_NAME_LEN, MAX_REASON_BYTES in *. lia.
Qed.

(** Every refusal the gates produce is already normalised. *)
Lemma authorize_call_normalized b w base call e :
  authorize_call b w base call = Err e → ToolError_normalized e = e.
Proof.
  unfold authorize_call. destruct (validate_tool_name _) as [[]|] eqn:Hv.
  - assert (bound_reason (call_name call) = call_name call) as Hb by by apply valid_name_bound.
    intros H. break_in H; simpl; rewrite ?bound_reason_idemp, ?Hb; done.
  - unfold validate_tool_name in Hv. break_in Hv. intros [= <-]. simpl.
    by rewrite bound_reason_idemp.
Qed.

Lemma check_consent_normalized b w call base now e :
  validate_tool_name call.(call_name) = Ok tt →
  check_consent b w call base now = Err e → ToolError_normalized e = e.
Proof.
  intros Hv. assert (bound_reason (call_name call) = call_name call) as Hb by by apply valid_name_bound.
  unfold check_consent, ensure_consented_for_dispatch. intros H.
  break_in H; simpl; rewrite ?bound_reason_idemp, ?Hb; done.
Qed.

Lemma execution_of_normalized id call outcome e :
  execution_of id call outcome = Ok e → ToolStatus_normalized e.(status) = e.(status).
Proof.
  unfold execution_of. intros H. break_in H; simpl; by rewrite ?bound_reason_idemp.
Qed.

Lemma execution_of_id id call outcome e :
  execution_of id call outcome = Ok e → e.(execution_id) = id ∧ e.(tool) = call.(call_name)
  ∧ is_admission_refusal e.(status) = false ∧ e.(is_untrusted_surface) = true.
Proof. unfold execution_of. intros H. by break_in H. Qed.

(** Fields only [push_usage] touches. *)
Lemma observed_frame b call base now e :
  (observed b call base now e).(registry) = b.(registry)
  ∧ (observed b call base now e).(authorizer) = b.(authorizer)
  ∧ (observed b call base now e).(consent) = b.(consent)
  ∧ (observed b call base now e).(protocol_id) = b.(protocol_id)
  ∧ (observed b call base now e).(calls_this_turn) = b.(calls_this_turn).
Proof. unfold observed, observe_dispatch. by destruct (lookup_tool _ _). Qed.

(** A dispatch read backwards: the answer of the executor, or a refusal. *)
Lemma dispatch_cases executor b w call base id now allowed b' w' ops r :
  dispatch_narrowed executor b w call base id now allowed = (b', w', ops, r) →
  (admitted b w base call now allowed
   ∧ ∃ outcome, executor w call.(call_name) call.(arguments) (mkExecContext id now)
                = (w', ops, outcome)
       ∧ r = execution_of id call outcome
       ∧ b' = match r with
              | Ok e => observed (with_calls b (b.(calls_this_turn) + 1)) call base now e
              | Err _ => with_calls b (b.(calls_this_turn) + 1)
              end)
  ∨ (¬ admitted b w base call now allowed ∧ w' = w ∧ ops = []
     ∧ ∃ cause, r = Ok (refused id call cause) ∧ b' = observed b call base now (refused id call cause)).
Proof.
  destruct (admitted_dec b w base call now allowed) as [Ha|Ha].
  - rewrite dispatch_admitted by done. destruct (executor _ _ _ _) as [[w1 ops1] outcome] eqn:Ex.
    intros E. left. split; [done|]. exists outcome.
    destruct (execution_of id call outcome); cbv zeta in E; simplify_eq; by split_and!.
  - destruct (dispatch_not_admitted executor b w call base id now allowed Ha) as [cause ->].
    intros E. right. simplify_eq. split_and!; [done..|]. by exists cause.
Qed.

End BusLemmas.

(** ** Properties *)

Section BusProperties.
Context {W : Type}.
Implicit Types (b : ToolBus W) (w : W) (executor : ToolExecutor W).

(** C2: complete mediation.  Whatever the executor, [dispatch_narrowed] contacts
    it if and only if the call's name is in the per-call allow-set, the tool is
    registered under a valid name, its arguments fit, the tier floor admits it,
    the installed hook allowed exactly this context, the installed ledger
    consented to exactly this (protocol, tool, scope) triple at this time, and
    the hard per-turn ceiling has room.  Contact counts one call and yields the
    record of the host's answer; anything else leaves the host world, the
    session and the counter untouched and yields a typed refusal. *)
Theorem dispatch_complete_mediation executor b w call base id now allowed :
  let '(b', w', ops, r) := dispatch_narrowed executor b w call base id now allowed in
  let '(w1, ops1, outcome) :=
    executor w call.(call_name) call.(arguments) (mkExecContext id now) in
  (admitted b w base call now allowed ∧ w' = w1 ∧ ops = ops1
   ∧ b'.(calls_this_turn) = b.(calls_this_turn) + 1 ∧ r = execution_of id call outcome)
  ∨ (¬ admitted b w base call now allowed ∧ w' = w ∧ ops = []
     ∧ b'.(calls_this_turn) = b.(calls_this_turn)
     ∧ ∃ cause, r = Ok (refused id call cause)).
Proof.
  destruct (dispatch_narrowed _ _ _ _ _ _ _ _) as [[[b' w'] ops] r] eqn:E.
  destruct (executor _ _ _ _) as [[w1 ops1] outcome'] eqn:Ex.
  apply dispatch_cases in E as [(Ha & outcome & Ex' & Hr & Hb)|(Hn & -> & -> & cause & -> & ->)].
  - left. rewrite Ex in Ex'. simplify_eq. split_and!; try done.
    destruct (execution_of id call outcome); [|done]. apply observed_frame.
  - right. split_and!; [done..| |by eexists]. apply observed_frame.
Qed.

(** The audit row of one execution. *)
Definition audit_row b (call : ToolCall) (base : AuthBase) (now : Z) (e : ToolExecution) :
    UsageEvent :=
  let spec := lookup_tool b.(registry) call.(call_name) in
  mkUsageEvent e.(execution_id) (bound_reason call.(call_name))
    (bound_reason (default "" (required_scope <$> spec)))
    (bound_reason (default "" b.(protocol_id))) base now
    (mkUsageSite (spec ≫= placement) None None)
    (ToolStatus_normalized e.(status)) e.(result_disposition)
    (bound_reason (status_reason e.(status))) (fnv1a call.(arguments)).

Lemma observed_usage b call base now e :
  (observed b call base now e).(usage)
  = drop (if len b.(usage) >=? MAX_USAGE_EVENTS then 1 else 0) b.(usage)
    ++ [audit_row b call base now e].
Proof.
  unfold observed, observe_dispatch, audit_row.
  assert (∀ ev, (push_usage b ev).(usage)
    = drop (if len b.(usage) >=? MAX_USAGE_EVENTS then 1 else 0) b.(usage)
      ++ [normalize_event ev]) as Hp.
  { intros ev. unfold push_usage. simpl. case_if; [|done]. by destruct (usage b). }
  destruct (lookup_tool _ _) as [spec|]; by rewrite Hp.
Qed.

(** The audit ring is complete.  Every dispatch that returns an execution,
    refusals included, appends exactly one row that carries its execution id,
    caller, time, the declared scope and placement, the outcome on both axes
    and a digest of the arguments, dropping at most the oldest row; the
    out-of-contract error return appends none.  Registry, hook and ledger are
    never changed by a dispatch. *)
Theorem dispatch_audited executor b w call base id now allowed :
  let '(b', _, _, r) := dispatch_narrowed executor b w call base id now allowed in
  (b'.(registry), b'.(authorizer), b'.(consent), b'.(protocol_id))
    = (b.(registry), b.(authorizer), b.(consent), b.(protocol_id))
  ∧ match r with
    | Ok e =>
        e.(execution_id) = id ∧ e.(tool) = call.(call_name)
        ∧ b'.(usage) = drop (if len b.(usage) >=? MAX_USAGE_EVENTS then 1 else 0) b.(usage)
                       ++ [audit_row b call base now e]
    | Err _ => b'.(usage) = b.(usage)
    end.
Proof.
  destruct (admitted_dec b w base call now allowed) as [Ha|Ha].
  - rewrite dispatch_admitted by done. destruct (executor _ _ _ _) as [[w1 ops1] outcome].
    destruct (execution_of id call outcome) as [e|err] eqn:E; cbv beta iota zeta; [|done].
    destruct (observed_frame (with_calls b (calls_this_turn b + 1)) call base now e)
      as (-> & -> & -> & -> & _). split; [done|].
    apply execution_of_id in E as (Hid & Ht & _). split_and!; [done|done|].
    by rewrite observed_usage.
  - destruct (dispatch_not_admitted executor b w call base id now allowed Ha) as [cause ->].
    destruct (observed_frame b call base now (refused id call cause)) as (-> & -> & -> & -> & _).
    split_and!; [done..|]. apply observed_usage.
Qed.

(** No dispatch returns unscrubbed text: the status of every execution, with
    the typed cause of a refusal, is its own bounded printable form even though
    names and reasons come from the model and the host. *)
Theorem dispatch_status_normalized executor b w call base id now allowed :
  match dispatch_narrowed executor b w call base id now allowed with
  | (_, _, _, Ok e) => ToolStatus_normalized e.(status) = e.(status)
  | (_, _, _, Err _) => True
  end.
Proof.
  unfold dispatch_narrowed, dispatch.
  destruct (narrowing_omits _ _); [simpl; by rewrite !bound_reason_idemp|].
  destruct (authorize_call b w base call) eqn:E1.
  2:{ simpl. f_equal. by eapply authorize_call_normalized. }
  destruct (check_consent b w call base now) eqn:E2.
  2:{ simpl. f_equal. apply unit_ok, authorize_call_ok in E1 as (? & ? & ? & _).
      by eapply check_consent_normalized. }
  case_if; [done|]. destruct (executor _ _ _ _) as [[w1 ops1] outcome].
  destruct (execution_of id call outcome) as [e|err] eqn:E; [|done].
  by eapply execution_of_normalized.
Qed.

(** What the bus promises about itself. *)
Definition bus_ok b : Prop :=
  0 ≤ b.(calls_this_turn) ≤ MAX_TOOL_CALLS_PER_TURN
  ∧ len b.(usage) ≤ MAX_USAGE_EVENTS
  ∧ Forall (λ e, normalize_event e = e) b.(usage).

(** Everything that changes a bus after construction. *)
Inductive bus_step : ToolBus W * W → ToolBus W * W → Prop :=
| step_begin_turn b w : bus_step (b, w) (begin_turn b, w)
| step_push_usage b w event : bus_step (b, w) (push_usage b event, w)
| step_dispatch executor b w call base id now allowed :
    bus_step (b, w)
      (let '(b', w', _, _) := dispatch_narrowed executor b w call base id now allowed in (b', w'))
| step_host b w w' : bus_step (b, w) (b, w').

Lemma push_usage_ok b event : bus_ok b → bus_ok (push_usage b event).
Proof.
  intros (Hc & Hu & Hn). unfold push_usage. split_and!; simpl; [lia|lia| |].
  - case_if; reflect_bools; [destruct (usage b)|]; simpl; autorewrite with runtime in *;
      unfold MAX_USAGE_EVENTS in *; lia.
  - apply Forall_app. split; [case_if; [by apply Forall_tail|done]|].
    apply Forall_singleton, normalize_event_idemp.
Qed.

Lemma observed_ok b call base now e : bus_ok b → bus_ok (observed b call base now e).
Proof.
  intros H. unfold observed, observe_dispatch.
  destruct (lookup_tool _ _); by apply push_usage_ok.
Qed.

(** At every point of every history of turns, host-threaded rows, dispatches
    and host changes, the per-turn counter is at most
    [MAX_TOOL_CALLS_PER_TURN], the audit ring holds at most [MAX_USAGE_EVENTS]
    rows and every row is in normal form. *)
Theorem bus_reachable_ok r hook ledger pid w b' w' :
  rtc bus_step (with_consent (with_authorizer (bus_new r) hook) ledger pid, w) (b', w') →
  bus_ok b'.
Proof.
  intros Hr. remember (b', w') as s' eqn:Hs.
  assert (bus_ok s'.1) as H; [|by subst].
  clear Hs. set (s := (_, w)) in Hr. assert (bus_ok s.1) as Hs.
  { subst s. unfold MAX_TOOL_CALLS_PER_TURN, MAX_USAGE_EVENTS.
    split_and!; simpl; [done|done|rewrite len_nil; done|constructor]. }
  clearbody s. induction Hr as [s|s1 s2 s3 Hstep _ IH]; [done|]. apply IH.
  destruct Hstep as [b1 w1|b1 w1 ev|executor b1 w1 call base id now allowed|b1 w1 w2]; simpl in *.
  - destruct Hs as (? & ? & ?). split_and!; simpl; done.
  - by apply push_usage_ok.
  - destruct (admitted_dec b1 w1 base call now allowed) as [Ha|Ha].
    + rewrite dispatch_admitted by done. destruct (executor _ _ _ _) as [[w3 ops1] outcome].
      assert (bus_ok (with_calls b1 (calls_this_turn b1 + 1))).
      { destruct Ha as (_ & _ & _ & Hl). destruct Hs as (? & ? & ?). split_and!; simpl; try done; lia. }
      destruct (execution_of id call outcome) as [e|err]; [by apply observed_ok|done].
    + destruct (dispatch_not_admitted executor b1 w1 call base id now allowed Ha) as [cause ->].
      by apply observed_ok.
  - done.
Qed.

(** Dispatching a batch in order, as the turn loop does. *)
Fixpoint dispatch_batch executor b w (cs : list ToolCall) (base : AuthBase) (id now : Z)
    (allowed : option (list string)) : ToolBus W * W * list (result ToolExecution ToolError) :=
  match cs with
  | [] => (b, w, [])
  | call :: cs =>
      let '(b, w, _, r) := dispatch_narrowed executor b w call base id now allowed in
      let '(b, w, rs) := dispatch_batch executor b w cs base (id + 1) now allowed in
      (b, w, r :: rs)
  end.

Lemma dispatch_room executor b w call base id now allowed :
  0 ≤ b.(calls_this_turn) < MAX_TOOL_CALLS_PER_TURN →
  let '(b', _, _, r) := dispatch_narrowed executor b w call base id now allowed in
  b.(calls_this_turn) ≤ b'.(calls_this_turn) ≤ b.(calls_this_turn) + 1
  ∧ r ≠ Ok (refused id call (CallLimitExceeded MAX_TOOL_CALLS_PER_TURN)).
Proof.
  intros Hl. unfold dispatch_narrowed, dispatch.
  assert (∀ e, (observed b call base now e).(calls_this_turn) = b.(calls_this_turn)) as Hob
    by (intros e; apply observed_frame).
  destruct (narrowing_omits _ _); [rewrite Hob; split; [lia|by intros [=]]|].
  destruct (authorize_call b w base call) eqn:E1.
  2:{ rewrite Hob. split; [lia|]. intros [= ->]. unfold authorize_call in E1.
      destruct (validate_tool_name _) as [[]|] eqn:Hv; [by break_in E1|].
      unfold validate_tool_name in Hv. by break_in Hv. }
  destruct (check_consent b w call base now) eqn:E2.
  2:{ rewrite Hob. split; [lia|]. intros [= ->].
      unfold check_consent, ensure_consented_for_dispatch in E2. by break_in E2. }
  replace (calls_this_turn b >=? MAX_TOOL_CALLS_PER_TURN) with false by lia.
  destruct (executor _ _ _ _) as [[w1 ops1] outcome].
  destruct (execution_of id call outcome) as [e|err] eqn:E; simpl.
  - rewrite (proj2 (proj2 (proj2 (proj2 (observed_frame _ _ _ _ _))))). simpl. split; [lia|].
    intros [= ->]. apply execution_of_id in E as (_ & _ & [=] & _).
  - split; [lia|done].
Qed.

Lemma dispatch_attributed executor b w call base id now allowed :
  match dispatch_narrowed executor b w call base id now allowed with
  | (_, _, _, Ok e) => e.(execution_id) = id ∧ e.(tool) = call.(call_name)
  | (_, _, _, Err _) => True
  end.
Proof.
  destruct (admitted_dec b w base call now allowed) as [Ha|Ha].
  - rewrite dispatch_admitted by done. destruct (executor _ _ _ _) as [[w1 ops1] outcome].
    destruct (execution_of id call outcome) as [e|err] eqn:E; [|done].
    by apply execution_of_id in E as (? & ? & _).
  - by destruct (dispatch_not_admitted executor b w call base id now allowed Ha) as [cause ->].
Qed.

(** Whole-batch admission.  A batch [precheck_narrowed] admits fits: when its
    calls are then dispatched in order, with any executor and from any host
    state, every call is attributed, none is refused for the call limit, and the
    counter ends within the configured and the hard limit. *)
Theorem precheck_batch_fits executor b w cs base limit allowed id now w0 :
  0 ≤ b.(calls_this_turn) → limit ≤ u64_max →
  precheck_narrowed b w cs base limit allowed = Ok tt →
  let '(b', _, rs) := dispatch_batch executor b w0 cs base id now allowed in
  b'.(calls_this_turn) ≤ Z.min limit MAX_TOOL_CALLS_PER_TURN
  ∧ length rs = length cs
  ∧ Forall (λ r, ∀ i c, r ≠ Ok (refused i c (CallLimitExceeded MAX_TOOL_CALLS_PER_TURN))) rs.
Proof.
  intros Hc Hlim H.
  assert (len cs + b.(calls_this_turn) ≤ Z.min limit MAX_TOOL_CALLS_PER_TURN) as Hfit.
  { unfold precheck_narrowed, precheck, saturating_add64, MAX_TOOL_CALLS_PER_TURN in *.
    break_in H. reflect_bools. unfold u64_max in *. lia. }
  clear H. revert b id w0 Hc Hfit. induction cs as [|call cs IH]; intros b id w0 Hc Hfit; simpl.
  - split_and!; [rewrite len_nil in Hfit; lia|done|constructor].
  - rewrite len_cons in Hfit. pose proof (len_nonneg cs).
    pose proof (dispatch_room executor b w0 call base id now allowed ltac:(lia)) as Hroom.
    pose proof (dispatch_attributed executor b w0 call base id now allowed) as Haud.
    destruct (dispatch_narrowed _ _ _ _ _ _ _ _) as [[[b1 w1] ops] r].
    destruct Hroom as [Hc1 Hr].
    specialize (IH b1 (id + 1) w1 ltac:(lia) ltac:(lia)).
    destruct (dispatch_batch _ _ _ _ _ _ _ _) as [[b2 w2] rs]. destruct IH as (H1 & H2 & H3).
    split_and!; [done|simpl; by rewrite H2|]. constructor; [|done].
    intros i c ->. destruct Haud as (Hi & Ht). simpl in Hi, Ht. subst i. apply Hr.
    unfold refused. by rewrite Ht.
Qed.

End BusProperties.

(** ** Witnesses *)

(** A host whose hook allows read-only tools and whose consent ledger is the
    fake ledger, with the recording executor as its world. *)
Definition demo_hook {W} (_ : W) (ctx : AuthContext) : AuthDecision :=
  if ctx.(ctx_read_only) then AuthAllow else AuthDeny "read-only host".

Definition demo_ledger : FakeConsentLedger :=
  (grant fake_ledger_new "local.assistant" "fs.read" "workspace.read" 100).1.

Definition demo_bus : ToolBus RecordingExecutor :=
  with_consent
    (with_authorizer (bus_new (register registry_new demo_spec).1) demo_hook)
    (λ _, check demo_ledger) "local.assistant".

Definition demo_world : RecordingExecutor :=
  mkRecordingExecutor [Ok (mkToolSuccess "ok" (as_bytes "data"))] [].

Definition demo_base : AuthBase := mkAuthBase 1 2 Inspect.
Definition demo_call : ToolCall := mkToolCall "fs.read" (as_bytes "{}").

(** The admitted call reaches the executor; after the grant's expiry it is
    refused and the executor sees nothing. *)
Example demo_dispatch :
  let run now := dispatch_narrowed RecordingExecutor_execute demo_bus demo_world demo_call
                   demo_base 7 now (Some ["fs.read"]) in
  (run 5).2 = Ok (mkExecution 7 "fs.read" StatusSuccess Accepted "ok" (as_bytes "data") true)
  ∧ (run 5).1.1.2.(rec_calls) = [(7, "fs.read", as_bytes "{}")]
  ∧ (run 100).1.1.2.(rec_calls) = []
  ∧ is_admission_refusal (default StatusSuccess
      (match (run 100).2 with Ok e => Some e.(status) | Err _ => None end)) = true.
Proof. vm_compute. done. Qed.

Lemma bus_reachable_ok_witness : bus_ok (begin_turn demo_bus).
Proof.
  apply (bus_reachable_ok (register registry_new demo_spec).1 demo_hook (λ _, check demo_ledger)
    "local.assistant" demo_world (begin_turn demo_bus) demo_world).
  apply rtc_once. apply step_begin_turn.
Defined.

Lemma precheck_batch_fits_witness :
  precheck_narrowed demo_bus demo_world [demo_call; demo_call] demo_base 2 None = Ok tt
  ∧ (dispatch_batch RecordingExecutor_execute demo_bus demo_world [demo_call; demo_call]
       demo_base 7 5 None).1.1.(calls_this_turn) ≤ 2.
Proof.
  assert (precheck_narrowed demo_bus demo_world [demo_call; demo_call] demo_base 2 None = Ok tt)
    as H by (vm_compute; reflexivity).
  split; [exact H|].
  pose proof (precheck_batch_fits RecordingExecutor_execute demo_bus demo_world
    [demo_call; demo_call] demo_base 2 None 7 5 demo_world ltac:(done) ltac:(done) H) as Hfit.
  destruct (dispatch_batch _ _ _ _ _ _ _ _) as [[b' w'] rs].
  exact (proj1 Hfit).
Defined.

(** [push_usage] leaves the typed cause of a rejected result alone: a
    host-threaded row keeps any text in it, of any length, in the ring. *)
Theorem push_usage_keeps_rejected_text {W} (b : ToolBus W) event name reason :
  event.(ev_result_disposition) = Rejected (ErrFailed name reason) →
  ∃ row, last (push_usage b event).(usage) = Some row
         ∧ row.(ev_result_disposition) = Rejected (ErrFailed name reason).
Proof.
  intros H. exists (normalize_event event). unfold push_usage. simpl.
  split; [apply last_snoc|done].
Qed.

Definition demo_row : UsageEvent :=
  mkUsageEvent 1 "fs.read" "workspace.read" "local.assistant" demo_base 5
    (mkUsageSite None None None) StatusSuccess
    (Rejected (ErrFailed "fs.read" (of_bytes [Ascii.ascii_of_N 10]))) "" 0.

Lemma push_usage_keeps_rejected_text_witness :
  ∃ row, last (push_usage demo_bus demo_row).(usage) = Some row
         ∧ row.(ev_result_disposition)
           = Rejected (ErrFailed "fs.read" (of_bytes [Ascii.ascii_of_N 10])).
Proof. apply (push_usage_keeps_rejected_text demo_bus demo_row). reflexivity. Defined.
