(* ===== verification/Context.v ===== *)
(** * Context: context records and the artifact store

    Models the data and the store of [context.rs]: errors, ids, requests and
    budgets, records with their validation and footprint, and the in-memory
    artifact store with exact generation pins and deletion tombstones.  The
    assembly pipeline over them is in [Assembly.v]. *)

From S2P Require Import Prelude Text ToolTypes.

Local Open Scope Z_scope.
Local Open Scope rust_scope.

Definition MAX_STABLE_ID_LEN : Z := 64.
Definition MAX_RECORD_BODY_BYTES : Z := 16 * 1024.
Definition EXTERNALIZE_THRESHOLD_BYTES : Z := 4 * 1024.
Definition MAX_CONTEXT_RECORDS : Z := 128.
Definition MAX_ARTIFACTS : Z := 64.
Definition MAX_ARTIFACT_BYTES : Z := 64 * 1024.
Definition MAX_ARTIFACT_STORE_BYTES : Z := 256 * 1024.
Definition MAX_DELETED_REFS : Z := 64.
Definition BYTES_PER_TOKEN_ESTIMATE : Z := 4.

(** [DEFAULT_CONTEXT_BUDGET_BYTES] of [provider.rs]. *)
Definition DEFAULT_CONTEXT_BUDGET_BYTES : Z := 32 * 1024.

Definition KNOWN_PROVIDERS : list string :=
  ["workspace"; "project"; "git"; "diagnostics"; "terminal"].

Inductive ContextError :=
| InvalidStableId (id : string)
| UnknownProvider (name : string)
| CtxSummaryTooLarge (limit actual : Z)
| BodyTooLarge (limit actual : Z)
| TooManyRecords (limit : Z)
| ArtifactTooLarge (limit actual : Z)
| ArtifactStoreFull (reason : string)
| ArtifactUnavailable (reference : string)
| ArtifactDeleted (reference : string)
| ArtifactExpired (reference : string)
| BudgetExceeded (limit actual : Z)
| DuplicateRecordId (id : string)
| StaleGeneration (id : string) (actual current : Z).

(** [Display for ContextError] *)
Definition ContextError_to_string (e : ContextError) : string :=
  match e with
  | InvalidStableId id => "invalid stable id: " +:+ id
  | UnknownProvider name => "unknown context provider: " +:+ name
  | CtxSummaryTooLarge limit actual =>
      "context summary of " +:+ show actual +:+ " bytes exceeds " +:+ show limit +:+ " byte limit"
  | BodyTooLarge limit actual =>
      "context body of " +:+ show actual +:+ " bytes exceeds " +:+ show limit +:+ " byte limit"
  | TooManyRecords limit => "context record count exceeds limit " +:+ show limit
  | ArtifactTooLarge limit actual =>
      "artifact of " +:+ show actual +:+ " bytes exceeds " +:+ show limit +:+ " byte limit"
  | ArtifactStoreFull reason => "artifact store full: " +:+ reason
  | ArtifactUnavailable reference => "artifact unavailable: " +:+ reference
  | ArtifactDeleted reference => "artifact deleted: " +:+ reference
  | ArtifactExpired reference => "artifact expired: " +:+ reference
  | BudgetExceeded limit actual =>
      "context budget exceeded: smallest record " +:+ show actual +:+ " bytes over "
        +:+ show limit +:+ " byte budget"
  | DuplicateRecordId id => "duplicate context record id: " +:+ id
  | StaleGeneration id actual current =>
      "context record " +:+ id +:+ " generation " +:+ show actual
        +:+ " does not match request generation " +:+ show current
  end.

Definition is_stable_id_byte (b : ascii) : bool :=
  is_ascii_lowercase b || is_ascii_digit b || byte_eqb 95 b || byte_eqb 45 b.

Definition validate_stable_id (id : string) : result unit ContextError :=
  ensure! negb (is_empty id) && (slen id <=? MAX_STABLE_ID_LEN) && str_forall is_stable_id_byte id
  else InvalidStableId id in
  Ok tt.

(** [StableId::new]: a validated string. *)
Definition StableId_new (id : string) : result string ContextError :=
  try! _ := validate_stable_id id in Ok id.

Inductive ContextPriority := Low | Normal | High | Critical.

(** [priority as u8] *)
Definition priority_u8 (p : ContextPriority) : Z :=
  match p with Low => 0 | Normal => 1 | High => 2 | Critical => 3 end.

Record ContextRequest := mkContextRequest {
  max_tokens : option Z;
  max_bytes : option Z;
  current_generation : Z
}.

(** [ContextRequest::estimate_tokens] *)
Definition estimate_tokens (bytes : Z) : Z :=
  (bytes + (BYTES_PER_TOKEN_ESTIMATE - 1)) / BYTES_PER_TOKEN_ESTIMATE.

(** [ContextRequest::effective_budget_bytes] *)
Definition request_budget_bytes (r : ContextRequest) : Z :=
  let budget := default DEFAULT_CONTEXT_BUDGET_BYTES r.(max_bytes) in
  match r.(max_tokens) with
  | Some tokens => Z.min budget (tokens * BYTES_PER_TOKEN_ESTIMATE)
  | None => budget
  end.

(** ** The artifact store *)

Record ArtifactEntry := mkEntry {
  reference : string;
  entry_bytes : bytes;
  entry_generation : Z
}.

Record ArtifactStore := mkStore {
  entries : list ArtifactEntry;
  total_bytes : Z;
  next_id : Z;
  deleted : list string
}.

Definition store_new : ArtifactStore := mkStore [] 0 0 [].

Inductive ArtifactAbsence := Available | NeverRecorded | Missing | Deleted | Expired.

Definition find_entry (s : ArtifactStore) (r : string) : option ArtifactEntry :=
  find (λ e, str_eqb e.(reference) r) s.(entries).

(** [ArtifactStore::is_deleted] *)
Definition is_deleted (s : ArtifactStore) (r : string) : bool :=
  existsb (λ tomb, str_eqb tomb r) s.(deleted).

Definition artifact_ref (n : Z) : string := "artifact://" +:+ show n.

(** The digit loop of [absence_reason]. *)
Definition parse_saturating (tail : string) : Z :=
  fold_left (λ id b, saturating_add64 (saturating_mul64 id 10) (byte_val b - 48)) (as_bytes tail) 0.

(** [ArtifactStore::absence_reason] *)
Definition absence_reason (s : ArtifactStore) (r : string) (current_generation : Z) :
    ArtifactAbsence :=
  match find_entry s r with
  | Some e => if e.(entry_generation) =? current_generation then Available else Expired
  | None =>
      if is_deleted s r then Deleted
      else match strip_prefix "artifact://" r with
           | Some tail =>
               if negb (is_empty tail) && str_forall is_ascii_digit tail && (slen tail <=? 20) then
                 let id := parse_saturating tail in
                 if negb (id =? 0) && (id <=? s.(next_id)) then Missing else NeverRecorded
               else NeverRecorded
           | None => NeverRecorded
           end
  end.

(** [ArtifactStore::store] *)
Definition store (s : ArtifactStore) (bs : bytes) (generation : Z) :
    ArtifactStore * result string ContextError :=
  if len bs >? MAX_ARTIFACT_BYTES then
    (s, Err (ArtifactTooLarge MAX_ARTIFACT_BYTES (len bs)))
  else if len s.(entries) >=? MAX_ARTIFACTS then
    (s, Err (ArtifactStoreFull ("at most " +:+ show MAX_ARTIFACTS +:+ " artifacts")))
  else if s.(total_bytes) + len bs >? MAX_ARTIFACT_STORE_BYTES then
    (s, Err (ArtifactStoreFull ("at most " +:+ show MAX_ARTIFACT_STORE_BYTES +:+ " retained bytes")))
  else
    let next := wrapping_add64 s.(next_id) 1 in
    let r := artifact_ref next in
    (mkStore (s.(entries) ++ [mkEntry r bs generation]) (s.(total_bytes) + len bs) next s.(deleted),
     Ok r).

(** [ArtifactStore::resolve] *)
Definition resolve (s : ArtifactStore) (r : string) (current_generation : Z) :
    result bytes ContextError :=
  match find_entry s r with
  | Some e =>
      if negb (e.(entry_generation) =? current_generation) then Err (ArtifactExpired r)
      else Ok e.(entry_bytes)
  | None => if is_deleted s r then Err (ArtifactDeleted r) else Err (ArtifactUnavailable r)
  end.

(** [entries.remove(position)] of the first entry with this reference. *)
Fixpoint remove_entry (r : string) (l : list ArtifactEntry) : list ArtifactEntry :=
  match l with
  | [] => []
  | e :: l => if str_eqb e.(reference) r then l else e :: remove_entry r l
  end.

(** [ArtifactStore::invalidate] *)
Definition invalidate (s : ArtifactStore) (r : string) : ArtifactStore * bool :=
  match find_entry s r with
  | Some e =>
      (mkStore (remove_entry r s.(entries)) (s.(total_bytes) - len e.(entry_bytes)) s.(next_id)
         (if negb (is_deleted s r) && (len s.(deleted) <? MAX_DELETED_REFS)
          then s.(deleted) ++ [r] else s.(deleted)), true)
  | None => (s, false)
  end.

(** ** Records *)

Inductive RecordBody := Inline (bs : bytes) | Artifact (r : string).

#[export] Instance RecordBody_eq_dec : EqDecision RecordBody.
Proof. solve_decision. Defined.

Record ContextRecord := mkContextRecord {
  rec_id : string;
  rec_provider : string;
  rec_owner : string;
  rec_generation : Z;
  collected_at_ms : Z;
  priority : ContextPriority;
  rec_summary : string;
  body : RecordBody;
  supersedes : option string;
  rec_untrusted : bool
}.

(** [ContextRecord::validate] *)
Definition validate_record (r : ContextRecord) : result unit ContextError :=
  ensure! existsb (λ p, str_eqb p r.(rec_provider)) KNOWN_PROVIDERS
  else UnknownProvider r.(rec_provider) in
  ensure! negb (slen r.(rec_summary) >? MAX_SUMMARY_BYTES)
  else CtxSummaryTooLarge MAX_SUMMARY_BYTES (slen r.(rec_summary)) in
  match r.(body) with
  | Inline bs =>
      ensure! negb (len bs >? MAX_RECORD_BODY_BYTES)
      else BodyTooLarge MAX_RECORD_BODY_BYTES (len bs) in
      Ok tt
  | Artifact _ => Ok tt
  end.

Definition body_footprint (b : RecordBody) : Z :=
  match b with Inline bs => len bs | Artifact r => slen r end.

(** [ContextRecord::footprint_bytes] *)
Definition footprint_bytes (r : ContextRecord) : Z :=
  slen r.(rec_summary) + body_footprint r.(body).

Definition effective_priority (r : ContextRecord) : ContextPriority :=
  if r.(rec_untrusted) then
    match r.(priority) with Low => Low | _ => Normal end
  else r.(priority).

Inductive AssembledContent := ContentInline (bs : bytes) | ContentReference (r : string).

(** [AssembledContent::byte_len] *)
Definition content_byte_len (c : AssembledContent) : Z :=
  match c with ContentInline bs => len bs | ContentReference r => slen r end.

Record AssembledRecord := mkAssembledRecord {
  asm_id : string;
  asm_provider : string;
  asm_summary : string;
  asm_content : AssembledContent;
  asm_untrusted : bool
}.

(** [AssembledRecord::span_header] *)
Definition span_header (r : AssembledRecord) : string :=
  "[" +:+ (if r.(asm_untrusted) then "untrusted" else "trusted") +:+ ":" +:+ r.(asm_provider)
    +:+ ":" +:+ r.(asm_id) +:+ "]".

Record AssembledContext := mkAssembledContext {
  records : list AssembledRecord;
  context_refs : list string;
  omitted_ids : list string;
  pruned_ids : list string;
  externalized : Z;
  truncated_bytes : Z;
  truncated_tokens_estimate : Z;
  truncated_providers : list string;
  budget_bytes : Z
}.

(** ** Lemmas on references *)

Lemma show_inj a b : 0 ≤ a → 0 ≤ b → show a = show b → a = b.
Proof. unfold show. intros Ha Hb H. apply (inj pretty) in H. lia. Qed.

Lemma artifact_ref_inj a b : 0 ≤ a → 0 ≤ b → artifact_ref a = artifact_ref b → a = b.
Proof. unfold artifact_ref. intros Ha Hb H. apply (inj (String.append _)) in H. by apply show_inj. Qed.

Lemma pretty_N_char_val d : (d < 10)%N → byte_val (pretty_N_char d) = 48 + Z.of_N d.
Proof.
  intros H. assert (∃ k : nat, d = N.of_nat k ∧ (k < 10)%nat) as (k & -> & Hk).
  { exists (N.to_nat d). lia. }
  do 10 (destruct k as [|k]; [reflexivity|]). lia.
Qed.

Definition digit_step (id : Z) (b : ascii) : Z :=
  saturating_add64 (saturating_mul64 id 10) (byte_val b - 48).

(** Reading the digits of [x] back, most significant first. *)
Lemma parse_pretty_go (k : nat) : ∀ x s,
  Z.of_N x < 10 ^ Z.of_nat k → Z.of_N x ≤ u64_max →
  fold_left digit_step (as_bytes (pretty_N_go x s)) 0
  = fold_left digit_step (as_bytes s) (Z.of_N x).
Proof.
  induction k as [|k IH]; intros x s Hx Hu.
  - assert (x = 0%N) as -> by (simpl in Hx; lia). by rewrite pretty_N_go_0.
  - destruct (decide (0 < x)%N) as [Hp|Hp].
    2:{ assert (x = 0%N) as -> by lia. by rewrite pretty_N_go_0. }
    rewrite pretty_N_go_step by done.
    pose proof (N.div_mod x 10 ltac:(done)) as Hdm. pose proof (N.mod_lt x 10 ltac:(done)).
    rewrite IH.
    + assert (∀ c z, fold_left digit_step (as_bytes (String c s)) z
                     = fold_left digit_step (as_bytes s) (digit_step z c)) as -> by done.
      f_equal. unfold digit_step. rewrite pretty_N_char_val by done.
      unfold saturating_add64, saturating_mul64.
      revert Hdm H. generalize (x / 10)%N (x mod 10)%N. lia.
    + rewrite Nat2Z.inj_succ, Z.pow_succ_r in Hx by lia.
      revert Hdm H. generalize (x / 10)%N (x mod 10)%N. lia.
    + revert Hdm H. generalize (x / 10)%N (x mod 10)%N. lia.
Qed.

Lemma parse_show n : is_u64 n → parse_saturating (show n) = n.
Proof.
  intros [H0 H1]. unfold show, pretty, pretty_N, parse_saturating. fold digit_step.
  case_decide as Hz; [simpl; vm_compute; lia|].
  change (fold_left digit_step (as_bytes (pretty_N_go (Z.to_N n) "")) 0 = n).
  rewrite (parse_pretty_go 20); [simpl; lia| |lia]. unfold u64_max in H1. lia.
Qed.

(** ** Lemmas on the store *)

Definition bytes_total (l : list ArtifactEntry) : Z := len (concat (map entry_bytes l)).

(** A reference the store assigned. *)
Definition minted (s : ArtifactStore) (r : string) : Prop :=
  ∃ n, 1 ≤ n ≤ s.(next_id) ∧ r = artifact_ref n.

Definition store_ok (s : ArtifactStore) : Prop :=
  NoDup (map reference s.(entries))
  ∧ s.(total_bytes) = bytes_total s.(entries)
  ∧ (len s.(entries) ≤ MAX_ARTIFACTS ∧ s.(total_bytes) ≤ MAX_ARTIFACT_STORE_BYTES)
  ∧ (Forall (λ e, minted s e.(reference)) s.(entries) ∧ Forall (minted s) s.(deleted))
  ∧ (∀ r, r ∈ s.(deleted) → r ∉ map reference s.(entries))
  ∧ (NoDup s.(deleted) ∧ len s.(deleted) ≤ MAX_DELETED_REFS)
  ∧ 0 ≤ s.(next_id).

Lemma find_entry_Some s r e :
  find_entry s r = Some e → e ∈ s.(entries) ∧ e.(reference) = r.
Proof. intros [H1 H2]%find_Some_elem. by apply str_eqb_eq in H2. Qed.

Lemma find_entry_None s r : find_entry s r = None ↔ r ∉ map reference s.(entries).
Proof.
  unfold find_entry. rewrite find_None_iff, list_elem_of_fmap. split.
  - intros H (e & -> & Hin). specialize (H e Hin). by rewrite str_eqb_refl in H.
  - intros H e Hin. apply str_eqb_neq. intros <-. eauto.
Qed.

Lemma is_deleted_true s r : is_deleted s r = true ↔ r ∈ s.(deleted).
Proof.
  unfold is_deleted. rewrite existsb_true_iff. split.
  - intros (x & Hx & ->%str_eqb_eq). done.
  - intros H. exists r. by rewrite str_eqb_refl.
Qed.

Lemma bytes_total_app l e : bytes_total (l ++ [e]) = bytes_total l + len e.(entry_bytes).
Proof. unfold bytes_total. rewrite map_app, concat_app. simpl. rewrite app_nil_r. len_lia. Qed.

Lemma remove_entry_spec l r e :
  find (λ e, str_eqb e.(reference) r) l = Some e → NoDup (map reference l) →
  map reference (remove_entry r l) = List.filter (λ x, negb (str_eqb x r)) (map reference l)
  ∧ bytes_total l = bytes_total (remove_entry r l) + len e.(entry_bytes)
  ∧ (∀ x, x ∈ remove_entry r l → x ∈ l)
  ∧ (length l = S (length (remove_entry r l))).
Proof.
  induction l as [|x l IH]; intros Hf Hnd; simpl in *; [done|].
  inversion Hnd as [|? ? Hn Hnd']; subst.
  destruct (str_eqb (reference x) r) eqn:E.
  - simplify_eq. apply str_eqb_eq in E as <-. simpl. split_and!; [|..|done].
    + symmetry. clear -Hn. induction (map reference l) as [|y ys IH]; simpl; [done|].
      apply not_elem_of_cons in Hn as [Hne Hn].
      rewrite (proj2 (str_eqb_neq _ _)) by done. simpl. f_equal. by apply IH.
    + unfold bytes_total. simpl. len_lia.
    + intros y Hy. by right.
  - destruct (IH Hf Hnd') as (Hk & Hb & Hin & Hlen). simpl. rewrite Hk.
    unfold bytes_total in *. simpl in *. autorewrite with runtime. split_and!; [done|lia| |lia].
    intros y [->|Hy]%elem_of_cons; [by left|right; auto].
Qed.

(** The store after any operation the host can perform. *)
Inductive StoreOp := OpStore (bs : bytes) (generation : Z) | OpInvalidate (r : string).

Definition store_apply (op : StoreOp) (s : ArtifactStore) : ArtifactStore :=
  match op with
  | OpStore bs g => (store s bs g).1
  | OpInvalidate r => (invalidate s r).1
  end.

Definition store_run (ops : list StoreOp) (s : ArtifactStore) : ArtifactStore :=
  fold_left (λ s op, store_apply op s) ops s.

Lemma minted_mono s s' r : s.(next_id) ≤ s'.(next_id) → minted s r → minted s' r.
Proof. intros H (n & Hn & ->). exists n. split; [lia|done]. Qed.

Lemma fresh_not_minted s r : 0 ≤ s.(next_id) → r = artifact_ref (s.(next_id) + 1) → ¬ minted s r.
Proof. intros H0 -> (n & Hn & E). apply artifact_ref_inj in E; lia. Qed.

(** What [store] does when it accepts. *)
Lemma store_cases s bs g :
  (∃ e, store s bs g = (s, Err e))
  ∨ (store s bs g =
       (mkStore (s.(entries) ++ [mkEntry (artifact_ref (wrapping_add64 s.(next_id) 1)) bs g])
          (s.(total_bytes) + len bs) (wrapping_add64 s.(next_id) 1) s.(deleted),
        Ok (artifact_ref (wrapping_add64 s.(next_id) 1)))
     ∧ len bs ≤ MAX_ARTIFACT_BYTES ∧ len s.(entries) < MAX_ARTIFACTS
     ∧ s.(total_bytes) + len bs ≤ MAX_ARTIFACT_STORE_BYTES).
Proof.
  unfold store. do 3 (case_if; [eauto|]). right. reflect_bools. done.
Qed.

Lemma store_preserves s bs g :
  store_ok s → s.(next_id) < u64_max → store_ok (store s bs g).1.
Proof.
  intros (Hnd & Htot & (Hc & Hb) & (Hm & Hmd) & Hdis & (Hd1 & Hd2) & H0) Hlt.
  destruct (store_cases s bs g) as [[e ->]|(-> & Hbs & Hroom & Hbytes)]; [done|].
  simpl. rewrite wrapping_add64_small by lia.
  assert (¬ minted s (artifact_ref (s.(next_id) + 1))) as Hfresh by by apply fresh_not_minted.
  set (s' := mkStore _ _ _ _).
  assert (∀ r, minted s r → minted s' r) as Hmono by (intros r; apply minted_mono; simpl; lia).
  rewrite Forall_forall in Hm. rewrite Forall_forall in Hmd. split_and!; simpl; [|..|done|done|lia].
  - rewrite map_app. apply NoDup_app. split_and!; [done| |apply NoDup_singleton].
    intros r Hr Heq%list_elem_of_singleton. simpl in Heq. subst r. apply Hfresh.
    apply list_elem_of_fmap in Hr as (e & -> & He). by apply Hm.
  - rewrite bytes_total_app, Htot. done.
  - len_lia.
  - lia.
  - apply Forall_app. split; [apply Forall_forall; auto|].
    apply Forall_singleton. exists (next_id s + 1). split; [simpl; lia|done].
  - apply Forall_forall. auto.
  - intros r Hr. rewrite map_app, elem_of_app. intros [Hin|Heq%list_elem_of_singleton].
    + by apply (Hdis r).
    + simpl in Heq. subst r. by apply Hfresh, Hmd.
Qed.

Lemma invalidate_preserves s r : store_ok s → store_ok (invalidate s r).1.
Proof.
  intros Hok. unfold invalidate. destruct (find_entry s r) as [e|] eqn:E; [|done].
  destruct Hok as (Hnd & Htot & (Hc & Hb) & (Hm & Hmd) & Hdis & (Hdnd & Hdlen) & H0).
  destruct (remove_entry_spec _ _ _ E Hnd) as (Hk & Hbt & Hin & Hlen).
  apply find_entry_Some in E as [He <-].
  assert (∀ x, x ∈ map reference (remove_entry (reference e) (entries s)) ↔
               x ∈ map reference (entries s) ∧ x ≠ reference e) as Hiff.
  { intros x. rewrite Hk, !list_elem_of_In, List.filter_In, negb_true_iff, str_eqb_neq. done. }
  rewrite Forall_forall in Hm. rewrite Forall_forall in Hmd.
  assert (∀ x, x ∈ (if negb (is_deleted s (reference e)) && (len (deleted s) <? MAX_DELETED_REFS)
                    then deleted s ++ [reference e] else deleted s) →
               x ∈ deleted s ∨ x = reference e) as Hd.
  { intros x. case_if; [|by left]. rewrite elem_of_app, list_elem_of_singleton. done. }
  split_and!; simpl; [| | | | | | | | |done].
  - rewrite Hk. rewrite <- (map_id (List.filter _ _)). apply NoDup_map_filter. by rewrite map_id.
  - lia.
  - unfold len in *. lia.
  - pose proof (len_nonneg (entry_bytes e)). lia.
  - apply Forall_forall. intros x Hx. by apply Hm, Hin.
  - apply Forall_forall. intros x [Hx| ->]%Hd; [by apply Hmd|by apply Hm].
  - intros x [Hx| ->]%Hd; rewrite Hiff; [|by intros [_ ?]].
    intros [Hx' _]. by apply (Hdis x).
  - case_if; [|done]. reflect_bools. apply NoDup_app. split_and!; [done| |apply NoDup_singleton].
    intros x Hx ->%list_elem_of_singleton. apply is_deleted_true in Hx. congruence.
  - case_if; [|done]. reflect_bools. len_lia.
Qed.

Lemma store_apply_next op s : is_u64 s.(next_id) → s.(next_id) < u64_max →
  s.(next_id) ≤ (store_apply op s).(next_id) ≤ s.(next_id) + 1.
Proof.
  intros [H0 _] H. destruct op as [bs g|r]; simpl.
  - destruct (store_cases s bs g) as [[e ->]|(-> & _)]; simpl; [lia|].
    rewrite wrapping_add64_small; lia.
  - unfold invalidate. destruct (find_entry s r); simpl; lia.
Qed.

Lemma store_apply_ok op s : store_ok s → s.(next_id) < u64_max → store_ok (store_apply op s).
Proof.
  intros Hok H. destruct op; [by apply store_preserves|by apply invalidate_preserves].
Qed.

Lemma store_run_ok ops : ∀ s, store_ok s → s.(next_id) + len ops ≤ u64_max →
  store_ok (store_run ops s) ∧ s.(next_id) ≤ (store_run ops s).(next_id) ≤ s.(next_id) + len ops.
Proof.
  induction ops as [|op ops IH]; intros s Hok H.
  - rewrite len_nil in *. simpl. split; [done|lia].
  - rewrite len_cons in *. pose proof (len_nonneg ops). simpl.
    assert (0 ≤ next_id s) by apply Hok.
    pose proof (store_apply_next op s ltac:(unfold is_u64; lia) ltac:(lia)).
    destruct (IH (store_apply op s)); [apply store_apply_ok; [done|lia]|lia|].
    split; [done|lia].
Qed.

(** ** Properties of the store *)

Lemma store_new_ok : store_ok store_new.
Proof.
  unfold MAX_ARTIFACTS, MAX_ARTIFACT_STORE_BYTES, MAX_DELETED_REFS.
  split_and!; simpl; try done; try constructor. intros r Hr. by apply elem_of_nil in Hr.
Qed.

Lemma find_entry_push s r e n t d :
  find_entry (mkStore (s.(entries) ++ [e]) t n d) r =
  match find_entry s r with
  | Some x => Some x
  | None => if str_eqb e.(reference) r then Some e else None
  end.
Proof.
  unfold find_entry. simpl. induction s.(entries) as [|x l IH]; simpl; [done|].
  by destruct (str_eqb (reference x) r).
Qed.

(** The artifact store keeps its invariant through every history of stores
    and invalidations: references are distinct and were all assigned by this
    store, the byte counter is exactly the retained bytes, the count, byte and
    tombstone bounds hold, and no tombstoned reference is live. *)
Theorem store_history_ok ops :
  len ops ≤ u64_max → store_ok (store_run ops store_new).
Proof. intros H. apply store_run_ok; [apply store_new_ok|done]. Qed.

Lemma store_history_ok_witness :
  store_ok (store_run [OpStore (as_bytes "abc") 1; OpInvalidate "artifact://1"] store_new).
Proof. apply (store_history_ok [OpStore (as_bytes "abc") 1; OpInvalidate "artifact://1"]). done. Defined.

Lemma store_resolve s bs g s' r :
  store_ok s → s.(next_id) < u64_max → store s bs g = (s', Ok r) →
  (∀ r', find_entry s' r' = if str_eqb r r' then Some (mkEntry r bs g) else find_entry s r')
  ∧ r = artifact_ref (s.(next_id) + 1) ∧ s'.(next_id) = s.(next_id) + 1
  ∧ s'.(deleted) = s.(deleted).
Proof.
  intros Hok Hlt H. destruct (store_cases s bs g) as [[e E]|(E & _)]; rewrite E in H; simplify_eq.
  assert (0 ≤ next_id s) as H0 by apply Hok.
  rewrite wrapping_add64_small by lia. split_and!; [|done..].
  intros r'. rewrite find_entry_push. simpl.
  destruct (str_eqb (artifact_ref (next_id s + 1)) r') eqn:Er; [|by destruct (find_entry s r')].
  apply str_eqb_eq in Er as <-.
  destruct (find_entry s _) as [x|] eqn:Ef; [|done]. exfalso.
  apply find_entry_Some in Ef as [Hx Hr]. destruct Hok as (_ & _ & _ & (Hm & _) & _).
  rewrite Forall_forall in Hm. apply Hm in Hx. rewrite Hr in Hx.
  by apply (fresh_not_minted s _ H0 eq_refl) in Hx.
Qed.

(** Storing then resolving.  An accepted body resolves to exactly its bytes
    at the generation it was stored at and is expired at every other one;
    storing changes no other reference. *)
Theorem store_resolve_roundtrip s bs g s' r g' :
  store_ok s → s.(next_id) < u64_max → store s bs g = (s', Ok r) →
  resolve s' r g' = (if g =? g' then Ok bs else Err (ArtifactExpired r))
  ∧ ∀ r', r' ≠ r → resolve s' r' g' = resolve s r' g'.
Proof.
  intros Hok Hlt H. destruct (store_resolve _ _ _ _ _ Hok Hlt H) as (Hf & _ & _ & Hd). split.
  - unfold resolve. rewrite Hf, str_eqb_refl. simpl. by destruct (g =? g').
  - intros r' Hne. unfold resolve, is_deleted. rewrite Hf, Hd.
    by rewrite (proj2 (str_eqb_neq _ _)) by done.
Qed.

Lemma store_resolve_roundtrip_witness :
  resolve (store store_new (as_bytes "abc") 3).1 "artifact://1" 3 = Ok (as_bytes "abc").
Proof.
  apply (store_resolve_roundtrip store_new (as_bytes "abc") 3 (store store_new (as_bytes "abc") 3).1
    "artifact://1" 3); [apply store_new_ok|done|reflexivity].
Defined.

(** A minted reference with no live entry never gets one again. *)
Lemma dead_stays_dead ops : ∀ s r, store_ok s → s.(next_id) + len ops ≤ u64_max →
  minted s r → find_entry s r = None →
  find_entry (store_run ops s) r = None
  ∧ is_deleted (store_run ops s) r = is_deleted s r.
Proof.
  induction ops as [|op ops IH]; intros s r Hok Hlt Hm Hf; [done|].
  rewrite len_cons in Hlt. pose proof (len_nonneg ops). simpl.
  assert (0 ≤ next_id s) as H0 by apply Hok.
  pose proof (store_apply_next op s ltac:(unfold is_u64; lia) ltac:(lia)) as Hn.
  assert (find_entry (store_apply op s) r = None
          ∧ is_deleted (store_apply op s) r = is_deleted s r) as [Hf' Hd'].
  { destruct op as [bs g|r']; simpl in *.
    - destruct (store s bs g) as [s1 [r1|e]] eqn:E.
      + destruct (store_resolve _ _ _ _ _ Hok ltac:(lia) E) as (Hf1 & -> & _ & Hd). simpl.
        rewrite Hf1. unfold is_deleted. rewrite Hd. split; [|done].
        rewrite (proj2 (str_eqb_neq _ _)); [done|]. intros <-.
        by apply (fresh_not_minted s _ H0 eq_refl) in Hm.
      + destruct (store_cases s bs g) as [[e' E']|(E' & _)]; rewrite E' in E; by simplify_eq.
    - unfold invalidate. destruct (find_entry s r') as [e|] eqn:E; [|done]. simpl.
      destruct (remove_entry_spec _ _ _ E (proj1 Hok)) as (Hk & _). split.
      + apply find_entry_None. simpl. rewrite Hk, list_elem_of_In, List.filter_In.
        apply find_entry_None in Hf. rewrite <- list_elem_of_In. tauto.
      + unfold is_deleted. simpl. case_if; [|done]. rewrite existsb_app. simpl.
        rewrite orb_false_r, (proj2 (str_eqb_neq _ _)), orb_false_r; [done|].
        intros ->. congruence. }
  destruct (IH (store_apply op s) r) as [? ?]; [apply store_apply_ok; [done|lia]|lia| |done|].
  - eapply minted_mono; [|done]. lia.
  - split; [done|]. congruence.
Qed.

(** Deletion is final.  Once a live reference is invalidated, no later
    history of stores and invalidations makes it resolve again at any
    generation: it answers [ArtifactDeleted] when there was room for its
    tombstone and [ArtifactUnavailable] otherwise, for ever. *)
Theorem deleted_never_resurrected s r e ops g :
  store_ok s → find_entry s r = Some e → s.(next_id) + len ops ≤ u64_max →
  resolve (store_run ops (invalidate s r).1) r g
  = Err (if len s.(deleted) <? MAX_DELETED_REFS then ArtifactDeleted r else ArtifactUnavailable r).
Proof.
  intros Hok Hf Hlt. pose proof (find_entry_Some _ _ _ Hf) as [He Hr].
  assert (is_deleted s r = false) as Hnd.
  { destruct (is_deleted s r) eqn:E; [|done]. apply is_deleted_true in E.
    destruct Hok as (_ & _ & _ & _ & Hdis & _). apply Hdis in E. exfalso. apply E.
    apply list_elem_of_fmap. by exists e. }
  destruct (dead_stays_dead ops (invalidate s r).1 r) as [Hf' Hd'].
  - by apply invalidate_preserves.
  - unfold invalidate. rewrite Hf. done.
  - destruct Hok as (_ & _ & _ & (Hm & _) & _). rewrite Forall_forall in Hm.
    apply Hm in He as (n & Hn & E). exists n. unfold invalidate. rewrite Hf. simpl.
    split; [done|congruence].
  - unfold invalidate. rewrite Hf. apply find_entry_None. simpl.
    destruct (remove_entry_spec _ _ _ Hf (proj1 Hok)) as (-> & _).
    rewrite list_elem_of_In, List.filter_In, str_eqb_refl. by intros [_ ?].
  - unfold resolve. rewrite Hf', Hd'. unfold invalidate. rewrite Hf. unfold is_deleted at 1. simpl.
    rewrite Hnd. simpl. unfold is_deleted in Hnd.
    destruct (len (deleted s) <? MAX_DELETED_REFS); [|by rewrite Hnd].
    rewrite existsb_app, Hnd. simpl. by rewrite str_eqb_refl.
Qed.

Lemma deleted_never_resurrected_witness :
  resolve (store_run [OpStore (as_bytes "new") 1]
             (invalidate (store store_new (as_bytes "abc") 1).1 "artifact://1").1) "artifact://1" 1
  = Err (ArtifactDeleted "artifact://1").
Proof.
  apply (deleted_never_resurrected (store store_new (as_bytes "abc") 1).1 "artifact://1"
    (mkEntry "artifact://1" (as_bytes "abc") 1) [OpStore (as_bytes "new") 1] 1).
  - apply store_preserves; [apply store_new_ok|done].
  - reflexivity.
  - done.
Defined.

(** ** The absence taxonomy *)

Lemma pretty_N_char_digit d : (d < 10)%N → is_ascii_digit (pretty_N_char d) = true.
Proof.
  intros H. unfold is_ascii_digit, in_range. rewrite pretty_N_char_val by done. lia.
Qed.

Lemma pretty_go_digits (k : nat) : ∀ x s,
  Z.of_N x < 10 ^ Z.of_nat k → str_forall is_ascii_digit s = true →
  str_forall is_ascii_digit (pretty_N_go x s) = true
  ∧ slen s ≤ slen (pretty_N_go x s) ∧ (x ≠ 0%N → slen s < slen (pretty_N_go x s)).
Proof.
  induction k as [|k IH]; intros x s Hx Hs.
  - assert (x = 0%N) as -> by (simpl in Hx; lia). rewrite pretty_N_go_0. split_and!; [done|lia|done].
  - destruct (decide (0 < x)%N) as [Hp|Hp].
    2:{ assert (x = 0%N) as -> by lia. rewrite pretty_N_go_0. split_and!; [done|lia|done]. }
    rewrite pretty_N_go_step by done.
    destruct (IH (x `div` 10)%N (String (pretty_N_char (x `mod` 10)%N) s)) as (H1 & H2 & _).
    + rewrite N2Z.inj_div. apply Z.div_lt_upper_bound; [lia|].
      rewrite Nat2Z.inj_succ, Z.pow_succ_r in Hx by lia. lia.
    + unfold str_forall in *. simpl. rewrite pretty_N_char_digit; [done|]. apply N.mod_lt. lia.
    + rewrite slen_cons in H2. split_and!; [done|lia|lia].
Qed.

Lemma show_digits n : is_u64 n → str_forall is_ascii_digit (show n) = true ∧ 0 < slen (show n).
Proof.
  intros [H0 H1]. unfold show, pretty, pretty_N. case_decide as Hz; [by split; vm_compute|].
  destruct (pretty_go_digits 20 (Z.to_N n) "") as (Ha & _ & Hb); [unfold u64_max in H1; lia|done|].
  split; [done|]. by apply Hb.
Qed.

Lemma strip_prefix_app a b : strip_prefix a (a +:+ b) = Some b.
Proof.
  induction a as [|c a IH]; [done|].
  change (String c a +:+ b) with (String c (a +:+ b)). simpl.
  by rewrite bool_decide_true by done.
Qed.

Lemma absence_of_ref s n g : is_u64 n → find_entry s (artifact_ref n) = None →
  is_deleted s (artifact_ref n) = false →
  absence_reason s (artifact_ref n) g
  = if negb (n =? 0) && (n <=? s.(next_id)) then Missing else NeverRecorded.
Proof.
  intros Hn Hf Hd. unfold absence_reason. rewrite Hf, Hd.
  unfold artifact_ref. rewrite strip_prefix_app.
  destruct (show_digits n Hn) as [Hdig Hpos]. destruct (show_spec n Hn) as [_ H20].
  rewrite Hdig, parse_show by done.
  replace (slen (show n) <=? 20) with true by lia.
  destruct (show n) eqn:E; [done|]. simpl. done.
Qed.

(** The absence taxonomy agrees with [resolve] on every reference, and on the
    references of the store's own shape it tells assigned ids from ids never
    handed out: an assigned id that is neither live nor tombstoned is
    [Missing], an id beyond the counter is [NeverRecorded]. *)
Theorem absence_reason_agrees s r g n :
  is_u64 n → store_ok s →
  match absence_reason s r g with
  | Available => ∃ bs, resolve s r g = Ok bs
  | Expired => resolve s r g = Err (ArtifactExpired r)
  | Deleted => resolve s r g = Err (ArtifactDeleted r)
  | Missing | NeverRecorded => resolve s r g = Err (ArtifactUnavailable r)
  end
  ∧ (absence_reason s (artifact_ref n) g = Missing →
     1 ≤ n ≤ s.(next_id) ∧ find_entry s (artifact_ref n) = None)
  ∧ (s.(next_id) < n → absence_reason s (artifact_ref n) g = NeverRecorded).
Proof.
  intros Hn Hok. split_and!.
  - unfold absence_reason, resolve. destruct (find_entry s r) as [e|].
    { destruct (entry_generation e =? g); simpl; eauto. }
    destruct (is_deleted s r); [done|]. destruct (strip_prefix _ r); [|done].
    by repeat case_if.
  - intros H. destruct (find_entry s (artifact_ref n)) as [e|] eqn:Ef.
    { unfold absence_reason in H. rewrite Ef in H. by break_in H. }
    destruct (is_deleted s (artifact_ref n)) eqn:Ed.
    { unfold absence_reason in H. by rewrite Ef, Ed in H. }
    rewrite absence_of_ref in H by done. break_in H. reflect_bools. destruct Hn. split; [lia|done].
  - intros Hlt. destruct Hok as (_ & _ & _ & (Hm & Hmd) & _ & _ & H0).
    rewrite Forall_forall in Hm. rewrite Forall_forall in Hmd.
    assert (¬ minted s (artifact_ref n)) as Hnm.
    { intros (k & Hk & E). apply artifact_ref_inj in E; lia. }
    rewrite absence_of_ref; [|done|..].
    + replace (n <=? next_id s) with false by lia. by rewrite andb_false_r.
    + apply find_entry_None. intros (e & Hr & He)%list_elem_of_fmap.
      apply Hm in He. by rewrite <- Hr in He.
    + apply not_true_is_false. rewrite is_deleted_true. intros Hd. by apply Hmd in Hd.
Qed.

Lemma absence_reason_agrees_witness :
  absence_reason store_new (artifact_ref 7) 1 = NeverRecorded.
Proof.
  apply (absence_reason_agrees store_new "" 1 7); [by split; vm_compute|apply store_new_ok|done].
Defined.
