(* ===== verification/Assembly.v ===== *)
(** * Assembly: the context assembly pipeline

    Models [assemble] of [context.rs], the whole L0/L1 pipeline: validation,
    supersede, dedupe, staged externalisation, greedy budget selection and the
    two-phase commit to the store.  Lemmas on each stage, and the properties of
    the whole: atomicity towards the store, accounting of every record, the budget,
    lossless externalisation in caller order, and the trust rules. *)

From S2P Require Import Prelude Text ToolTypes Context.

Local Open Scope Z_scope.
Local Open Scope rust_scope.

(** ** [assemble], stage by stage *)

(** [for record in records { record.validate()?; }] *)
Fixpoint validate_records (rs : list ContextRecord) : result unit ContextError :=
  match rs with
  | [] => Ok tt
  | r :: rs => try! _ := validate_record r in validate_records rs
  end.

(** The [HashSet] of ids seen so far. *)
Fixpoint check_unique_ids (seen : list string) (rs : list ContextRecord) :
    result unit ContextError :=
  match rs with
  | [] => Ok tt
  | r :: rs =>
      ensure! negb (bool_decide (r.(rec_id) ∈ seen)) else DuplicateRecordId r.(rec_id) in
      check_unique_ids (r.(rec_id) :: seen) rs
  end.

Fixpoint check_generations (current : Z) (rs : list ContextRecord) : result unit ContextError :=
  match rs with
  | [] => Ok tt
  | r :: rs =>
      ensure! (r.(rec_generation) =? current)
      else StaleGeneration r.(rec_id) r.(rec_generation) current in
      check_generations current rs
  end.

(** Supersede targets named by trusted records. *)
Definition superseded (rs : list ContextRecord) : list string :=
  omap supersedes (List.filter (λ r, negb r.(rec_untrusted)) rs).

(** The four fields dedupe compares. *)
Definition same_content (kept r : ContextRecord) : bool :=
  str_eqb kept.(rec_provider) r.(rec_provider) && str_eqb kept.(rec_owner) r.(rec_owner)
  && str_eqb kept.(rec_summary) r.(rec_summary) && bool_decide (kept.(body) = r.(body)).

Definition keep_new (kept r : ContextRecord) : bool :=
  match kept.(rec_untrusted), r.(rec_untrusted) with
  | false, true => false
  | true, false => true
  | _, _ => r.(collected_at_ms) >? kept.(collected_at_ms)
  end.

(** The slot [iter_mut().find] returns for [r]: updated in place with the id
    that was dropped, or [None] when no kept record has the same content. *)
Fixpoint dedupe_slot (index : nat) (r : ContextRecord) (kept : list (nat * ContextRecord)) :
    option (list (nat * ContextRecord) * string) :=
  match kept with
  | [] => None
  | slot :: kept =>
      if same_content slot.2 r then
        if keep_new slot.2 r then Some ((index, r) :: kept, slot.2.(rec_id))
        else Some (slot :: kept, r.(rec_id))
      else match dedupe_slot index r kept with
           | Some (kept, dropped) => Some (slot :: kept, dropped)
           | None => None
           end
  end.

(** The supersede and dedupe loop. *)
Fixpoint dedupe (targets : list string) (index : nat) (rs : list ContextRecord)
    (kept : list (nat * ContextRecord)) (pruned : list string) :
    list (nat * ContextRecord) * list string :=
  match rs with
  | [] => (kept, pruned)
  | r :: rs =>
      if bool_decide (r.(rec_id) ∈ targets) then
        dedupe targets (S index) rs kept (pruned ++ [r.(rec_id)])
      else match dedupe_slot index r kept with
           | Some (kept, dropped) => dedupe targets (S index) rs kept (pruned ++ [dropped])
           | None => dedupe targets (S index) rs (kept ++ [(index, r)]) pruned
           end
  end.

Record Staged := mkStaged {
  st_index : nat;
  st_record : ContextRecord;
  st_pending : option bytes
}.

Definition with_body (r : ContextRecord) (b : RecordBody) : ContextRecord :=
  mkContextRecord r.(rec_id) r.(rec_provider) r.(rec_owner) r.(rec_generation)
    r.(collected_at_ms) r.(priority) r.(rec_summary) b r.(supersedes) r.(rec_untrusted).

(** Phase 1: stage large bodies under predicted references. *)
Fixpoint stage (base_next_id predicted : Z) (kept : list (nat * ContextRecord)) :
    result (list Staged) ContextError :=
  match kept with
  | [] => Ok []
  | (index, r) :: kept =>
      match r.(body) with
      | Inline bs =>
          if len bs >? EXTERNALIZE_THRESHOLD_BYTES then
            ensure! negb (len bs >? MAX_ARTIFACT_BYTES)
            else ArtifactTooLarge MAX_ARTIFACT_BYTES (len bs) in
            let predicted := predicted + 1 in
            let r' := with_body r (Artifact (artifact_ref (wrapping_add64 base_next_id predicted))) in
            try! rest := stage base_next_id predicted kept in
            Ok (mkStaged index r' (Some bs) :: rest)
          else
            try! rest := stage base_next_id predicted kept in
            Ok (mkStaged index r None :: rest)
      | Artifact _ =>
          try! rest := stage base_next_id predicted kept in
          Ok (mkStaged index r None :: rest)
      end
  end.

(** The sort key [(Reverse(effective_priority as u8), position)]. *)
Definition slot_le (a b : nat * Staged) : bool :=
  let pa := priority_u8 (effective_priority a.2.(st_record)) in
  let pb := priority_u8 (effective_priority b.2.(st_record)) in
  (pb <? pa) || ((pa =? pb) && (a.1 <=? b.1)%nat).

Definition enumerate {A} (l : list A) : list (nat * A) := zip (seq 0 (length l)) l.

Definition greedy_order (staged : list Staged) : list (nat * Staged) :=
  sort_by slot_le (enumerate staged).

Record Selection := mkSelection {
  included : list nat;
  used : Z;
  sel_omitted : list string;
  sel_truncated : Z;
  sel_providers : list string
}.

(** Greedy inclusion in sort order; [included] lists the positions set to
    [true]. *)
Fixpoint greedy (budget : Z) (order : list (nat * Staged)) (s : Selection) : Selection :=
  match order with
  | [] => s
  | (position, st) :: order =>
      let need := footprint_bytes st.(st_record) in
      if s.(used) + need <=? budget then
        greedy budget order
          (mkSelection (s.(included) ++ [position]) (s.(used) + need) s.(sel_omitted)
             s.(sel_truncated) s.(sel_providers))
      else
        let provider := st.(st_record).(rec_provider) in
        greedy budget order
          (mkSelection s.(included) s.(used) (s.(sel_omitted) ++ [st.(st_record).(rec_id)])
             (s.(sel_truncated) + need)
             (if bool_decide (provider ∈ s.(sel_providers)) then s.(sel_providers)
              else s.(sel_providers) ++ [provider]))
  end.

(** [.min().unwrap_or(0)] *)
Definition min_or_zero (l : list Z) : Z :=
  match l with [] => 0 | x :: l => fold_left Z.min l x end.

(** The staged records whose flag is set, in position order. *)
Definition selected (included : list nat) (staged : list Staged) : list Staged :=
  map snd (List.filter (λ '(position, _), bool_decide (position ∈ included)) (enumerate staged)).

Definition pending_bodies (sel : list Staged) : list bytes := omap st_pending sel.

(** Phase 2: commit the selected pending bodies. *)
Fixpoint commit (s : ArtifactStore) (generation : Z) (sel : list Staged) (count : Z) :
    ArtifactStore * result (list (nat * ContextRecord) * Z) ContextError :=
  match sel with
  | [] => (s, Ok ([], count))
  | st :: sel =>
      match st.(st_pending) with
      | Some bs =>
          match store s bs generation with
          | (s, Err e) => (s, Err e)
          | (s, Ok committed) =>
              match commit s generation sel (count + 1) with
              | (s, Ok (rest, n)) =>
                  (s, Ok ((st.(st_index), with_body st.(st_record) (Artifact committed)) :: rest, n))
              | (s, Err e) => (s, Err e)
              end
          end
      | None =>
          match commit s generation sel count with
          | (s, Ok (rest, n)) => (s, Ok ((st.(st_index), st.(st_record)) :: rest, n))
          | (s, Err e) => (s, Err e)
          end
      end
  end.

Definition index_le (a b : nat * ContextRecord) : bool := (a.1 <=? b.1)%nat.

Definition assembled_of (r : ContextRecord) : AssembledRecord :=
  mkAssembledRecord r.(rec_id) r.(rec_provider) r.(rec_summary)
    (match r.(body) with Inline bs => ContentInline bs | Artifact a => ContentReference a end)
    r.(rec_untrusted).

(** The checks before any pruning. *)
Definition precheck_records (rs : list ContextRecord) (request : ContextRequest) :
    result unit ContextError :=
  ensure! negb (len rs >? MAX_CONTEXT_RECORDS) else TooManyRecords MAX_CONTEXT_RECORDS in
  try! _ := validate_records rs in
  try! _ := check_unique_ids [] rs in
  check_generations request.(current_generation) rs.

Definition assemble (rs : list ContextRecord) (s : ArtifactStore) (request : ContextRequest) :
    ArtifactStore * result AssembledContext ContextError :=
  match precheck_records rs request with
  | Err e => (s, Err e)
  | Ok _ =>
  let '(deduped, pruned) := dedupe (superseded rs) 0 rs [] [] in
  match stage s.(next_id) 0 deduped with
  | Err e => (s, Err e)
  | Ok staged =>
  let budget := request_budget_bytes request in
  let choice := greedy budget (greedy_order staged) (mkSelection [] 0 [] 0 []) in
  let sel := selected choice.(included) staged in
  let pending := pending_bodies sel in
  if negb (bool_decide (staged = [])) && bool_decide (choice.(included) = []) then
    (s, Err (BudgetExceeded budget
               (min_or_zero (map (λ st, footprint_bytes st.(st_record)) staged))))
  else if len s.(entries) + len pending >? MAX_ARTIFACTS then
    (s, Err (ArtifactStoreFull ("at most " +:+ show MAX_ARTIFACTS +:+ " artifacts")))
  else if s.(total_bytes) + len (concat pending) >? MAX_ARTIFACT_STORE_BYTES then
    (s, Err (ArtifactStoreFull ("at most " +:+ show MAX_ARTIFACT_STORE_BYTES +:+ " retained bytes")))
  else
  match commit s request.(current_generation) sel 0 with
  | (s, Err e) => (s, Err e)
  | (s, Ok (committed, committed_count)) =>
      let chosen := map snd (sort_by index_le committed) in
      (s, Ok (mkAssembledContext (map assembled_of chosen) (map rec_id chosen)
                choice.(sel_omitted) pruned committed_count choice.(sel_truncated)
                (estimate_tokens choice.(sel_truncated)) choice.(sel_providers) budget))
  end end end.

(** ** Validation *)

Lemma validate_records_ok rs :
  validate_records rs = Ok tt → Forall (λ r, validate_record r = Ok tt) rs.
Proof.
  induction rs as [|r rs IH]; simpl; intros H; [constructor|].
  destruct (validate_record r) as [[]|] eqn:E; [|done]. constructor; auto.
Qed.

Lemma check_unique_ids_ok rs : ∀ seen,
  check_unique_ids seen rs = Ok tt →
  NoDup (map rec_id rs) ∧ ∀ r, r ∈ rs → rec_id r ∉ seen.
Proof.
  induction rs as [|r rs IH]; intros seen H; simpl in *.
  - split; [constructor|]. intros r Hr. by apply elem_of_nil in Hr.
  - case_if_in H; [|done]. reflect_bools. apply IH in H as [Hnd Hs]. split.
    + constructor; [|done]. intros (r' & Heq & Hr')%list_elem_of_fmap.
      apply (Hs r' Hr'). rewrite <- Heq. by left.
    + intros r' [->|Hr']%elem_of_cons; [done|]. specialize (Hs r' Hr').
      intros ?. apply Hs. by right.
Qed.

Lemma check_generations_ok g rs :
  check_generations g rs = Ok tt → Forall (λ r, r.(rec_generation) = g) rs.
Proof.
  induction rs as [|r rs IH]; simpl; intros H; [constructor|].
  case_if_in H; [|done]. reflect_bools. constructor; auto.
Qed.

Lemma precheck_records_ok rs q u :
  precheck_records rs q = Ok u →
  len rs ≤ MAX_CONTEXT_RECORDS ∧ Forall (λ r, validate_record r = Ok tt) rs
  ∧ NoDup (map rec_id rs) ∧ Forall (λ r, r.(rec_generation) = q.(current_generation)) rs.
Proof.
  unfold precheck_records. destruct u. intros H. case_if_in H; [|done].
  destruct (validate_records rs) as [[]|] eqn:E1; [|done].
  destruct (check_unique_ids [] rs) as [[]|] eqn:E2; [|done]. reflect_bools.
  apply check_unique_ids_ok in E2 as [? _].
  auto using validate_records_ok, check_generations_ok.
Qed.

(** ** Supersede and dedupe *)

Lemma dedupe_slot_Some index r kept kept' dropped :
  dedupe_slot index r kept = Some (kept', dropped) →
  ∃ l1 slot l2, kept = l1 ++ slot :: l2 ∧ same_content slot.2 r = true
    ∧ ((keep_new slot.2 r = true ∧ kept' = l1 ++ (index, r) :: l2 ∧ dropped = rec_id slot.2)
       ∨ (keep_new slot.2 r = false ∧ kept' = kept ∧ dropped = rec_id r)).
Proof.
  revert kept'. induction kept as [|slot kept IH]; intros kept' H; simpl in H; [done|].
  destruct (same_content slot.2 r) eqn:E.
  - destruct (keep_new slot.2 r) eqn:Ek; simplify_eq; exists [], slot, kept; auto 10.
  - destruct (dedupe_slot index r kept) as [[k d]|] eqn:Ed; [|done]. simplify_eq.
    destruct (IH k eq_refl) as (l1 & s' & l2 & -> & Hc & Hcase).
    exists (slot :: l1), s', l2. split_and!; [done|done|].
    destruct Hcase as [(? & -> & ->)|(? & -> & ->)]; auto.
Qed.

(** Why a record was pruned, in terms of the input: a trusted record named it,
    or another record has the same content and, when the pruned one is trusted,
    is trusted too. *)
Definition prune_reason (rs : list ContextRecord) (id : string) : Prop :=
  ∃ i r, rs !! i = Some r ∧ rec_id r = id ∧
    (id ∈ superseded rs
     ∨ ∃ j r', i ≠ j ∧ rs !! j = Some r' ∧ same_content r' r = true
               ∧ (r.(rec_untrusted) = false → r'.(rec_untrusted) = false)).

Definition dedupe_inv (rs : list ContextRecord) (index : nat) (kept : list (nat * ContextRecord))
    (pruned : list string) : Prop :=
  Forall (λ p, rs !! p.1 = Some p.2 ∧ (p.1 < index)%nat) kept
  ∧ NoDup (map fst kept)
  ∧ map rec_id (map snd kept) ++ pruned ≡ₚ map rec_id (take index rs)
  ∧ Forall (prune_reason rs) pruned.

Lemma same_content_sym a b : same_content a b = true → same_content b a = true.
Proof.
  unfold same_content. rewrite !andb_true_iff, !str_eqb_eq, !bool_decide_eq_true.
  intros [[[-> ->] ->] ->]. done.
Qed.

Lemma keep_new_trusts kept r :
  if keep_new kept r then rec_untrusted kept = false → rec_untrusted r = false
  else rec_untrusted r = false → rec_untrusted kept = false.
Proof. unfold keep_new. destruct (rec_untrusted kept), (rec_untrusted r); try done; by case_if. Qed.

Lemma take_S_ids (rs : list ContextRecord) index r : rs !! index = Some r →
  map rec_id (take (S index) rs) ≡ₚ rec_id r :: map rec_id (take index rs).
Proof.
  intros H. rewrite (take_S_r _ _ _ H), map_app. simpl. by rewrite Permutation_app_comm.
Qed.

Lemma inv_grow_index (rs : list ContextRecord) index (kept : list (nat * ContextRecord)) :
  Forall (λ p, rs !! p.1 = Some p.2 ∧ (p.1 < index)%nat) kept →
  Forall (λ p, rs !! p.1 = Some p.2 ∧ (p.1 < S index)%nat) kept.
Proof. intros H. eapply Forall_impl; [exact H|]. intros p [? ?]. split; [done|lia]. Qed.

(** One iteration of the loop. *)
Lemma dedupe_inv_prune rs index kept pruned r d :
  dedupe_inv rs index kept pruned → rs !! index = Some r → d = rec_id r → prune_reason rs d →
  dedupe_inv rs (S index) kept (pruned ++ [d]).
Proof.
  intros (Hk & Hnd & Hp & Hr) Hi -> Hreason. split_and!.
  - by apply inv_grow_index.
  - done.
  - rewrite (take_S_ids _ _ _ Hi), <- Hp, app_assoc. by rewrite Permutation_app_comm.
  - apply Forall_app. auto.
Qed.

Lemma dedupe_inv_push rs index kept pruned r :
  dedupe_inv rs index kept pruned → rs !! index = Some r →
  dedupe_inv rs (S index) (kept ++ [(index, r)]) pruned.
Proof.
  intros (Hk & Hnd & Hp & Hr) Hi. split_and!; [| | |done].
  - apply Forall_app. split; [by apply inv_grow_index|]. apply Forall_singleton. simpl.
    split; [done|lia].
  - rewrite map_app. apply NoDup_app. split_and!; [done| |apply NoDup_singleton].
    intros i Hin ->%list_elem_of_singleton. apply list_elem_of_fmap in Hin as (p & Heq & Hin).
    rewrite Forall_forall in Hk. apply Hk in Hin. simpl in *. lia.
  - rewrite (take_S_ids _ _ _ Hi), <- Hp, !map_app. simpl.
    rewrite <- app_assoc. simpl. by rewrite <- Permutation_middle.
Qed.

Lemma dedupe_inv_replace rs index l1 slot l2 pruned r :
  dedupe_inv rs index (l1 ++ slot :: l2) pruned → rs !! index = Some r →
  prune_reason rs (rec_id slot.2) →
  dedupe_inv rs (S index) (l1 ++ (index, r) :: l2) (pruned ++ [rec_id slot.2]).
Proof.
  intros (Hk & Hnd & Hp & Hr) Hi Hreason. split_and!.
  - apply inv_grow_index in Hk. rewrite Forall_app, Forall_cons in *.
    destruct Hk as (? & ? & ?). split_and!; [done|done|simpl; lia|done].
  - rewrite map_app in *. simpl in *.
    apply NoDup_app in Hnd as (Hn1 & Hd & Hn2). inversion Hn2 as [|? ? Hn3 Hn4]; subst.
    assert ((index ∉ map fst l1) ∧ (index ∉ map fst l2)) as [Hx1 Hx2].
    { rewrite Forall_app, Forall_cons in Hk. destruct Hk as (Hk1 & _ & Hk2).
      rewrite Forall_forall in Hk1. rewrite Forall_forall in Hk2.
      split; intros (p & -> & Hin)%list_elem_of_fmap;
        [apply Hk1 in Hin|apply Hk2 in Hin]; lia. }
    apply NoDup_app. split_and!; [done| |by constructor].
    intros x Hx [->|Hx']%elem_of_cons; [done|]. apply (Hd x Hx). by right.
  - rewrite (take_S_ids _ _ _ Hi), <- Hp, !map_app. simpl.
    rewrite <- !Permutation_middle, app_nil_r. simpl. constructor.
  - apply Forall_app. auto.
Qed.

Lemma dedupe_spec rs suffix : ∀ index kept pruned,
  suffix = drop index rs → dedupe_inv rs index kept pruned →
  let '(kept', pruned') := dedupe (superseded rs) index suffix kept pruned in
  dedupe_inv rs (length rs) kept' pruned'.
Proof.
  induction suffix as [|r suffix IH]; intros index kept pruned Hs Hinv; simpl.
  - assert (length rs ≤ index)%nat as Hle by (apply (f_equal length) in Hs; rewrite length_drop in Hs; simpl in Hs; lia).
    destruct Hinv as (Hk & Hnd & Hp & Hr). split_and!; [|done| |done].
    + eapply Forall_impl; [exact Hk|]. intros p [Hp1 Hp2]. split; [done|].
      by apply lookup_lt_Some in Hp1.
    + rewrite take_ge in * by lia. done.
  - assert (rs !! index = Some r) as Hi by (rewrite <- head_drop, <- Hs; done).
    assert (suffix = drop (S index) rs) as Hs' by (rewrite <- tail_drop, <- Hs; done).
    case_bool_decide as Ht.
    { apply IH; [done|]. eapply dedupe_inv_prune; [done..|]. exists index, r. auto. }
    destruct (dedupe_slot index r kept) as [[kept' dropped]|] eqn:Ed.
    2:{ apply IH; [done|]. by apply dedupe_inv_push. }
    apply IH; [done|].
    apply dedupe_slot_Some in Ed as (l1 & slot & l2 & -> & Hc & Hcase).
    assert (rs !! slot.1 = Some slot.2 ∧ (slot.1 < index)%nat) as [Hslot Hlt].
    { destruct Hinv as (Hk & _). rewrite Forall_app, Forall_cons in Hk. apply Hk. }
    pose proof (keep_new_trusts slot.2 r) as Htr.
    destruct Hcase as [(Hkn & -> & ->)|(Hkn & -> & ->)]; rewrite Hkn in Htr.
    + apply dedupe_inv_replace; [done..|]. exists slot.1, slot.2. split_and!; [done..|].
      right. exists index, r. split_and!; [lia|done|by apply same_content_sym|done].
    + eapply dedupe_inv_prune; [done..|]. exists index, r. split_and!; [done..|].
      right. exists slot.1, slot.2. split_and!; [lia|done..].
Qed.

Lemma dedupe_start rs :
  let '(kept, pruned) := dedupe (superseded rs) 0 rs [] [] in
  dedupe_inv rs (length rs) kept pruned.
Proof. apply dedupe_spec; [done|]. split_and!; constructor. Qed.

(** ** Staging *)

Definition is_large (b : RecordBody) : bool :=
  match b with Inline bs => len bs >? EXTERNALIZE_THRESHOLD_BYTES | Artifact _ => false end.

(** What staging makes of a kept record. *)
Definition staged_from (p : nat * ContextRecord) (st : Staged) : Prop :=
  st.(st_index) = p.1 ∧
  match st.(st_pending) with
  | None => st.(st_record) = p.2 ∧ is_large p.2.(body) = false
  | Some bs =>
      p.2.(body) = Inline bs ∧ is_large p.2.(body) = true ∧ len bs ≤ MAX_ARTIFACT_BYTES
      ∧ ∃ predicted, st.(st_record) = with_body p.2 (Artifact predicted)
  end.

(** Pending records carry predicted ids, strictly increasing from [c]. *)
Fixpoint predicted_ok (base c : Z) (l : list Staged) : Prop :=
  match l with
  | [] => True
  | st :: l =>
      match st.(st_pending) with
      | None => predicted_ok base c l
      | Some _ =>
          ∃ p, (c < p ∧ base + p ≤ u64_max) ∧ st.(st_record).(body) = Artifact (artifact_ref (base + p))
               ∧ predicted_ok base p l
      end
  end.

Lemma stage_from base kept : ∀ p staged,
  stage base p kept = Ok staged → Forall2 staged_from kept staged.
Proof.
  induction kept as [|[i r] kept IH]; intros p staged H; simpl in H; [simplify_eq; constructor|].
  destruct (body r) as [bs|a] eqn:Eb.
  - case_if_in H.
    + case_if_in H; [|done]. destruct (stage _ _ kept) as [rest|] eqn:Es; [|done]. simplify_eq.
      constructor; [|by eapply IH]. split; [done|]. simpl. rewrite Eb. simpl. reflect_bools.
      split_and!; [done|lia|done|by eexists].
    + destruct (stage _ _ kept) as [rest|] eqn:Es; [|done]. simplify_eq.
      constructor; [|by eapply IH]. split; [done|]. simpl. by rewrite Eb.
  - destruct (stage _ _ kept) as [rest|] eqn:Es; [|done]. simplify_eq.
    constructor; [|by eapply IH]. split; [done|]. simpl. by rewrite Eb.
Qed.

Lemma predicted_weaken base l : ∀ c c', c ≤ c' → predicted_ok base c' l → predicted_ok base c l.
Proof.
  induction l as [|st l IH]; intros c c' Hle H; simpl in *; [done|].
  destruct (st_pending st); [|by eapply IH].
  destruct H as (p & Hp & Hb & Hl). exists p. split_and!; [lia|lia|done|done].
Qed.

Lemma stage_predicted base kept : ∀ p staged,
  0 ≤ base → 0 ≤ p → base + p + len kept ≤ u64_max →
  stage base p kept = Ok staged → predicted_ok base p staged.
Proof.
  induction kept as [|[i r] kept IH]; intros p staged H0 Hp Hu H; simpl in H; [by simplify_eq|].
  rewrite len_cons in Hu. pose proof (len_nonneg kept).
  destruct (body r) as [bs|a] eqn:Eb.
  - case_if_in H.
    + case_if_in H; [|done]. destruct (stage _ _ kept) as [rest|] eqn:Es; [|done]. simplify_eq.
      simpl. exists (p + 1). split_and!; [lia|lia| |by eapply IH; [..|done]; lia].
      by rewrite wrapping_add64_small by lia.
    + destruct (stage _ _ kept) as [rest|] eqn:Es; [|done]. simplify_eq. simpl.
      eapply IH; [..|done]; lia.
  - destruct (stage _ _ kept) as [rest|] eqn:Es; [|done]. simplify_eq. simpl.
    eapply IH; [..|done]; lia.
Qed.

Lemma predicted_sublist base l k : k `sublist_of` l → ∀ c, predicted_ok base c l → predicted_ok base c k.
Proof.
  induction 1 as [|st k l Hs IH|st k l Hs IH]; intros c H; simpl in *; [done|..].
  - destruct (st_pending st); [|auto]. destruct H as (p & ? & ? & ?). eauto.
  - destruct (st_pending st); [|auto]. destruct H as (p & ? & ? & ?).
    apply IH. eapply predicted_weaken; [|done]. lia.
Qed.

(** ** Greedy selection *)

Definition need (p : nat * Staged) : Z := footprint_bytes p.2.(st_record).

Lemma footprint_nonneg r : 0 ≤ footprint_bytes r.
Proof.
  unfold footprint_bytes, body_footprint. pose proof (slen_nonneg (rec_summary r)).
  destruct (body r) as [bs|a]; [pose proof (len_nonneg bs)|pose proof (slen_nonneg a)]; lia.
Qed.

Lemma greedy_spec budget order : ∀ s, ∃ inc om,
  order ≡ₚ inc ++ om
  ∧ (greedy budget order s).(included) = s.(included) ++ map fst inc
  ∧ (greedy budget order s).(used) = s.(used) + sum_Z (map need inc)
  ∧ (greedy budget order s).(sel_omitted)
    = s.(sel_omitted) ++ map (λ p, rec_id p.2.(st_record)) om
  ∧ (greedy budget order s).(sel_truncated) = s.(sel_truncated) + sum_Z (map need om)
  ∧ (s.(used) ≤ budget → (greedy budget order s).(used) ≤ budget).
Proof.
  induction order as [|[pos st] order IH]; intros s.
  - exists [], []. simpl. rewrite !app_nil_r. split_and!; [done|done|lia|done|lia|done].
  - cbn [greedy]. case_if.
    + destruct (IH (mkSelection (included s ++ [pos]) (used s + footprint_bytes (st_record st))
        (sel_omitted s) (sel_truncated s) (sel_providers s)))
        as (inc & om & Hp & Hi & Hu & Ho & Ht & Hb). reflect_bools.
      exists ((pos, st) :: inc), om. simpl in *. rewrite Hi, Hu, Ho, Ht, <- app_assoc.
      change (need (pos, st)) with (footprint_bytes (st_record st)). split_and!; [by rewrite Hp|done|lia|done|done|]. rewrite Hu in Hb. lia.
    + destruct (IH (mkSelection (included s) (used s)
        (sel_omitted s ++ [rec_id (st_record st)])
        (sel_truncated s + footprint_bytes (st_record st))
        (if bool_decide (rec_provider (st_record st) ∈ sel_providers s) then sel_providers s
         else sel_providers s ++ [rec_provider (st_record st)])))
        as (inc & om & Hp & Hi & Hu & Ho & Ht & Hb). reflect_bools.
      exists inc, ((pos, st) :: om). simpl in *. rewrite Hi, Hu, Ho, Ht, <- app_assoc.
      change (need (pos, st)) with (footprint_bytes (st_record st)). split_and!; [by rewrite Hp, Permutation_middle|done|done|done|lia|].
      rewrite Hu in Hb. done.
Qed.

Lemma greedy_app budget l1 l2 : ∀ s,
  greedy budget (l1 ++ l2) s = greedy budget l2 (greedy budget l1 s).
Proof. induction l1 as [|[pos st] l1 IH]; intros s; [done|]. cbn [greedy app]. by case_if. Qed.

(** A record left out did not fit beside the records included before it. *)
Lemma greedy_omitted budget l1 pos st l2 s :
  pos ∉ (greedy budget (l1 ++ (pos, st) :: l2) s).(included) →
  budget < (greedy budget l1 s).(used) + footprint_bytes st.(st_record).
Proof.
  intros H. rewrite greedy_app in H. cbn [greedy] in H. case_if_in H; reflect_bools; [|lia].
  exfalso. apply H.
  match goal with |- context [greedy budget l2 ?s2] =>
    destruct (greedy_spec budget l2 s2) as (inc & om & _ & -> & _) end.
  simpl. apply elem_of_app. left. apply elem_of_app. right. by left.
Qed.

Lemma slot_le_total a b : slot_le a b = false → slot_le b a = true.
Proof.
  unfold slot_le. destruct a as [i a], b as [j b]. cbn [fst snd].
  generalize (priority_u8 (effective_priority (st_record a))).
  generalize (priority_u8 (effective_priority (st_record b))). intros x y H.
  destruct (Nat.leb_spec i j), (Nat.leb_spec j i); lia.
Qed.

Lemma slot_le_trans a b c : slot_le a b = true → slot_le b c = true → slot_le a c = true.
Proof.
  unfold slot_le. destruct a as [i a], b as [j b], c as [k c]. cbn [fst snd].
  generalize (priority_u8 (effective_priority (st_record a))).
  generalize (priority_u8 (effective_priority (st_record b))).
  generalize (priority_u8 (effective_priority (st_record c))). intros x y z H1 H2.
  destruct (Nat.leb_spec i j), (Nat.leb_spec j k), (Nat.leb_spec i k); lia.
Qed.

Lemma greedy_order_perm staged : greedy_order staged ≡ₚ enumerate staged.
Proof. apply sort_by_perm. Qed.

Lemma enumerate_snd {A} (l : list A) : map snd (enumerate l) = l.
Proof. unfold enumerate. apply snd_zip. by rewrite length_seq. Qed.

Lemma enumerate_fst {A} (l : list A) : map fst (enumerate l) = seq 0 (length l).
Proof. unfold enumerate. apply fst_zip. by rewrite length_seq. Qed.

Lemma enumerate_elem {A} (l : list A) i x : (i, x) ∈ enumerate l ↔ l !! i = Some x.
Proof.
  unfold enumerate. rewrite list_elem_of_lookup. setoid_rewrite lookup_zip_with_Some. split.
  - intros (k & y & z & [= -> ->] & Hk & Hz). apply lookup_seq in Hk as [-> _]. done.
  - intros H. exists i, i, x. split_and!; [done| |done].
    apply lookup_seq. split; [done|]. by apply lookup_lt_Some in H.
Qed.

(** The flagged records are a permutation of the included ones, and keep the
    order of the staged list. *)
Lemma selected_perm (inc om : list (nat * Staged)) staged :
  enumerate staged ≡ₚ inc ++ om → selected (map fst inc) staged ≡ₚ map snd inc.
Proof.
  intros Hp. unfold selected.
  set (f := (λ '(position, _), bool_decide (position ∈ map fst inc)) : nat * Staged → bool).
  assert (NoDup (map fst (inc ++ om))) as Hnd.
  { apply (NoDup_Permutation_proper _ (map fst (enumerate staged))).
    - by apply Permutation_map.
    - rewrite enumerate_fst. apply NoDup_seq. }
  rewrite map_app in Hnd. apply NoDup_app in Hnd as (_ & Hd & _).
  assert (List.filter f (enumerate staged) ≡ₚ List.filter f (inc ++ om)) as ->.
  { clear Hd. induction Hp as [|x l k Hp IH|x y l|l k m Hp1 IH1 Hp2 IH2]; simpl.
    - done.
    - destruct (f x); [by constructor|done].
    - destruct (f x), (f y); done || constructor.
    - by etransitivity. }
  rewrite List.filter_app.
  assert (List.filter f inc = inc) as ->.
  { apply List.forallb_filter_id, forallb_forall. intros [p x] Hin. apply bool_decide_eq_true.
    apply list_elem_of_fmap. exists (p, x). split; [done|]. by apply list_elem_of_In. }
  assert (List.filter f om = []) as ->; [|by rewrite app_nil_r].
  apply filter_all_false. intros [p x] Hin. apply bool_decide_eq_false. intros Hin'.
  apply (Hd p Hin'). apply list_elem_of_fmap. by exists (p, x).
Qed.

Lemma selected_sublist inc staged : selected inc staged `sublist_of` staged.
Proof.
  unfold selected. rewrite <- (enumerate_snd staged) at 2.
  apply sublist_map. apply sublist_List_filter.
Qed.

(** ** Commit *)

(** Pre-validation makes every [store] of the commit succeed, on any store. *)
Lemma commit_ok g sel : ∀ s c,
  len s.(entries) + len (pending_bodies sel) ≤ MAX_ARTIFACTS →
  s.(total_bytes) + len (concat (pending_bodies sel)) ≤ MAX_ARTIFACT_STORE_BYTES →
  Forall (λ bs, len bs ≤ MAX_ARTIFACT_BYTES) (pending_bodies sel) →
  ∃ s' out, commit s g sel c = (s', Ok (out, c + len (pending_bodies sel))).
Proof.
  induction sel as [|st sel IH]; intros s c Hn Hb Hf; simpl in *.
  - exists s, []. by rewrite len_nil, Z.add_0_r.
  - unfold pending_bodies in *. simpl in *.
    destruct (st_pending st) as [bs|] eqn:Ep.
    + simpl in *. autorewrite with runtime in *. inversion Hf as [|? ? Hbs Hf']; subst.
      pose proof (len_nonneg (omap st_pending sel)).
      pose proof (len_nonneg (concat (omap st_pending sel))).
      unfold store.
      replace (len bs >? MAX_ARTIFACT_BYTES) with false by lia.
      replace (len (entries s) >=? MAX_ARTIFACTS) with false by lia.
      replace (total_bytes s + len bs >? MAX_ARTIFACT_STORE_BYTES) with false by lia.
      match goal with |- context [commit ?s1 g sel (c + 1)] =>
        destruct (IH s1 (c + 1)) as (s' & out & ->) end; simpl.
      * autorewrite with runtime. lia.
      * lia.
      * done.
      * do 2 eexists. f_equal. f_equal. f_equal. lia.
    + destruct (IH s c Hn Hb Hf) as (s' & out & ->). eauto.
Qed.

(** A committed record against its staged one, in the final store. *)
Definition committed_from (s : ArtifactStore) (g : Z) (st : Staged) (p : nat * ContextRecord) :
    Prop :=
  p.1 = st.(st_index) ∧
  match st.(st_pending) with
  | None => p.2 = st.(st_record)
  | Some bs =>
      ∃ r, p.2 = with_body st.(st_record) (Artifact r)
           ∧ find_entry s r = Some (mkEntry r bs g)
  end.

Lemma committed_from_mono s s' g st p :
  (∀ r e, find_entry s r = Some e → find_entry s' r = Some e) →
  committed_from s g st p → committed_from s' g st p.
Proof.
  intros Hm [H1 H2]. split; [done|]. destruct (st_pending st); [|done].
  destruct H2 as (r & H2 & H3). eauto.
Qed.

Lemma commit_spec g sel : ∀ s c s' out n,
  store_ok s → s.(next_id) + len sel ≤ u64_max →
  commit s g sel c = (s', Ok (out, n)) →
  store_ok s' ∧ (∀ r e, find_entry s r = Some e → find_entry s' r = Some e)
  ∧ Forall2 (committed_from s' g) sel out.
Proof.
  induction sel as [|st sel IH]; intros s c s' out n Hok Hu H; simpl in H.
  - simplify_eq. split_and!; [done|done|constructor].
  - rewrite len_cons in Hu. pose proof (len_nonneg sel).
    destruct (st_pending st) as [bs|] eqn:Ep.
    + destruct (store s bs g) as [s1 [r1|]] eqn:Es; [|done].
      destruct (commit s1 g sel (c + 1)) as [s2 [[rest n2]|]] eqn:Ec; [|done]. simplify_eq.
      pose proof (store_preserves s bs g Hok ltac:(lia)) as Hok1. rewrite Es in Hok1. simpl in Hok1.
      destruct (store_resolve _ _ _ _ _ Hok ltac:(lia) Es) as (Hf & Hr & Hn & _).
      destruct (IH s1 _ _ _ _ Hok1 ltac:(lia) Ec) as (Hok' & Hm & Hall).
      split_and!; [done| |].
      * intros r e He. apply Hm. rewrite Hf.
        destruct (str_eqb r1 r) eqn:E; [|done]. apply str_eqb_eq in E as <-. exfalso.
        apply find_entry_Some in He as [He1 He2]. destruct Hok as (_ & _ & _ & (Hmint & _) & _ & _ & Hz).
        rewrite Forall_forall in Hmint. apply Hmint in He1. rewrite He2, Hr in He1.
        by apply (fresh_not_minted s _ Hz eq_refl) in He1.
      * constructor; [|done]. split; [done|]. rewrite Ep. exists r1. split; [done|].
        apply Hm. by rewrite Hf, str_eqb_refl.
    + destruct (commit s g sel c) as [s2 [[rest n2]|]] eqn:Ec; [|done]. simplify_eq.
      destruct (IH s _ _ _ _ Hok ltac:(lia) Ec) as (Hok' & Hm & Hall).
      split_and!; [done|done|]. constructor; [|done]. split; [done|]. by rewrite Ep.
Qed.

(** Ids and indices survive the commit whatever the store. *)
Lemma commit_ids g sel : ∀ s c s' out n,
  commit s g sel c = (s', Ok (out, n)) →
  map fst out = map st_index sel ∧ map rec_id (map snd out) = map (λ st, rec_id st.(st_record)) sel.
Proof.
  induction sel as [|st sel IH]; intros s c s' out n H; simpl in H; [by simplify_eq|].
  destruct (st_pending st).
  - destruct (store s _ g) as [s1 [r1|]]; [|done].
    destruct (commit s1 g sel (c + 1)) as [s2 [[rest n2]|]] eqn:Ec; [|done]. simplify_eq.
    apply IH in Ec as [E1 E2]. simpl. by rewrite E1, E2.
  - destruct (commit s g sel c) as [s2 [[rest n2]|]] eqn:Ec; [|done]. simplify_eq.
    apply IH in Ec as [E1 E2]. simpl. by rewrite E1, E2.
Qed.

(** Longer numbers print longer. *)
Lemma pretty_go_mono (k : nat) : ∀ x y s t,
  Z.of_N y < 10 ^ Z.of_nat k → (x ≤ y)%N → slen s ≤ slen t →
  slen (pretty_N_go x s) ≤ slen (pretty_N_go y t).
Proof.
  assert (∀ (k : nat) x s, Z.of_N x < 10 ^ Z.of_nat k → slen s ≤ slen (pretty_N_go x s)) as Hge.
  { clear. induction k as [|k IH]; intros x s Hx.
    - assert (x = 0%N) as -> by (simpl in Hx; lia). by rewrite pretty_N_go_0.
    - destruct (decide (0 < x)%N) as [Hp|Hp].
      2:{ assert (x = 0%N) as -> by lia. by rewrite pretty_N_go_0. }
      rewrite pretty_N_go_step by done. etransitivity; [|apply IH].
      + rewrite slen_cons. lia.
      + rewrite N2Z.inj_div. apply Z.div_lt_upper_bound; [lia|].
        rewrite Nat2Z.inj_succ, Z.pow_succ_r in Hx by lia. lia. }
  induction k as [|k IH]; intros x y s t Hy Hxy Hst.
  - assert (x = 0%N ∧ y = 0%N) as [-> ->] by (simpl in Hy; lia). by rewrite !pretty_N_go_0.
  - destruct (decide (0 < x)%N) as [Hp|Hp].
    2:{ assert (x = 0%N) as -> by lia. rewrite pretty_N_go_0. etransitivity; [done|by eapply Hge]. }
    rewrite (pretty_N_go_step x), (pretty_N_go_step y) by lia. apply IH.
    + rewrite N2Z.inj_div. apply Z.div_lt_upper_bound; [lia|].
      rewrite Nat2Z.inj_succ, Z.pow_succ_r in Hy by lia. lia.
    + by apply N.Div0.div_le_mono.
    + rewrite !slen_cons. lia.
Qed.

Lemma artifact_ref_mono a b : 1 ≤ a ≤ b → b ≤ u64_max →
  slen (artifact_ref a) ≤ slen (artifact_ref b).
Proof.
  intros H Hb. unfold artifact_ref. rewrite !slen_app. unfold show, pretty, pretty_N.
  rewrite !decide_False by lia.
  pose proof (pretty_go_mono 20 (Z.to_N a) (Z.to_N b) "" "") as Hm.
  unfold u64_max in Hb. specialize (Hm ltac:(lia) ltac:(lia) ltac:(done)). lia.
Qed.

(** Committed references are no longer than the predicted ones the budget was
    computed with. *)
Lemma commit_footprint g base sel : ∀ s c p s' out n,
  store_ok s → s.(next_id) = base + c → 0 ≤ base → 0 ≤ c ≤ p →
  base + p + len sel ≤ u64_max → predicted_ok base p sel →
  commit s g sel c = (s', Ok (out, n)) →
  sum_Z (map footprint_bytes (map snd out))
  ≤ sum_Z (map (λ st, footprint_bytes st.(st_record)) sel).
Proof.
  induction sel as [|st sel IH]; intros s c p s' out n Hok Hn Hb0 Hc Hu Hpred H;
    simpl in H; [by simplify_eq|].
  rewrite len_cons in Hu. pose proof (len_nonneg sel). simpl in Hpred.
  destruct (st_pending st) as [bs|] eqn:Ep.
  - destruct (store s bs g) as [s1 [r1|]] eqn:Es; [|done].
    destruct (commit s1 g sel (c + 1)) as [s2 [[rest n2]|]] eqn:Ec; [|done]. simplify_eq.
    destruct Hpred as (m & Hm & Hbody & Hrest).
    pose proof (store_preserves s bs g Hok ltac:(lia)) as Hok1. rewrite Es in Hok1. simpl in Hok1.
    destruct (store_resolve _ _ _ _ _ Hok ltac:(lia) Es) as (_ & Hr & Hn1 & _).
    simpl. apply Z.add_le_mono.
    + unfold footprint_bytes, body_footprint. simpl. rewrite Hbody, Hr, Hn.
      apply Z.add_le_mono_l. apply artifact_ref_mono; lia.
    + eapply (IH s1 (c + 1) (c + 1)); [done|lia|done|lia|lia| |done].
      eapply predicted_weaken; [|done]. lia.
  - destruct (commit s g sel c) as [s2 [[rest n2]|]] eqn:Ec; [|done]. simplify_eq. simpl.
    apply Z.add_le_mono_l. eapply (IH s c p); [done..|lia|done|done].
Qed.

(** ** The pipeline as a whole *)

(** A successful assembly, stage by stage. *)
Record assembly (rs : list ContextRecord) (s s' : ArtifactStore) (q : ContextRequest)
    (out : AssembledContext) := mkAssembly {
  a_kept : list (nat * ContextRecord);
  a_staged : list Staged;
  a_inc : list (nat * Staged);
  a_om : list (nat * Staged);
  a_committed : list (nat * ContextRecord);
  a_pre : ∃ u, precheck_records rs q = Ok u;
  a_dedupe : dedupe_inv rs (length rs) a_kept out.(pruned_ids);
  a_stage : stage s.(next_id) 0 a_kept = Ok a_staged;
  a_split : enumerate a_staged ≡ₚ a_inc ++ a_om;
  a_used : 0 ≤ request_budget_bytes q → sum_Z (map need a_inc) ≤ request_budget_bytes q;
  a_omitted : out.(omitted_ids) = map (λ p, rec_id p.2.(st_record)) a_om;
  a_truncated : out.(truncated_bytes) = sum_Z (map need a_om);
  a_commit : commit s q.(current_generation) (selected (map fst a_inc) a_staged) 0
             = (s', Ok (a_committed, out.(externalized)));
  a_records : out.(records) = map assembled_of (map snd (sort_by index_le a_committed));
  a_refs : out.(context_refs) = map rec_id (map snd (sort_by index_le a_committed));
  a_budget : out.(budget_bytes) = request_budget_bytes q
}.

Arguments a_kept {rs s s' q out}.
Arguments a_staged {rs s s' q out}.
Arguments a_inc {rs s s' q out}.
Arguments a_om {rs s s' q out}.
Arguments a_committed {rs s s' q out}.
Arguments a_pre {rs s s' q out}.
Arguments a_dedupe {rs s s' q out}.
Arguments a_stage {rs s s' q out}.
Arguments a_split {rs s s' q out}.
Arguments a_used {rs s s' q out}.
Arguments a_omitted {rs s s' q out}.
Arguments a_truncated {rs s s' q out}.
Arguments a_commit {rs s s' q out}.
Arguments a_records {rs s s' q out}.
Arguments a_refs {rs s s' q out}.
Arguments a_budget {rs s s' q out}.

Lemma assemble_inv rs s q s' out :
  assemble rs s q = (s', Ok out) → ∃ a : assembly rs s s' q out, True.
Proof.
  unfold assemble. intros H.
  destruct (precheck_records rs q) as [u|] eqn:Epre; [|done].
  pose proof (dedupe_start rs) as Hd.
  destruct (dedupe _ _ _ _ _) as [kept pruned] eqn:Ed.
  destruct (stage _ _ kept) as [staged|] eqn:Es; [|done].
  destruct (greedy_spec (request_budget_bytes q) (greedy_order staged) (mkSelection [] 0 [] 0 []))
    as (inc & om & Hp & Hi & Hu & Ho & Ht & Hb).
  cbn [included used sel_omitted sel_truncated app] in Hi, Hu, Ho, Ht, Hb.
  do 3 (case_if_in H; [done|]).
  destruct (commit _ _ _ _) as [s1 [[committed n]|]] eqn:Ec; [|done]. rewrite Hi in Ec.
  injection H as -> <-. rewrite greedy_order_perm in Hp.
  unshelve eexists (mkAssembly _ _ _ _ _ kept staged inc om committed _ _ _ _ _ _ _ _ _ _ _);
    try done; simpl.
  - by exists u.
  - intros H0. specialize (Hb H0). lia.
Qed.

Lemma staged_ids kept staged : Forall2 staged_from kept staged →
  map (λ st, rec_id st.(st_record)) staged = map rec_id (map snd kept)
  ∧ map st_index staged = map fst kept.
Proof.
  induction 1 as [|[i r] st kept staged [Hi Hst] _ [IH1 IH2]]; simpl; [done|].
  rewrite IH1, IH2, Hi. split; [|done]. f_equal.
  destruct (st_pending st); [destruct Hst as (_ & _ & _ & p & ->)|destruct Hst as [-> _]]; done.
Qed.

(** Assembly is atomic towards the artifact store.  Whatever fails
    (validation, duplicate or stale records, the budget, the store's
    capacity), the store is returned exactly as it was; in particular the
    commit phase cannot fail halfway. *)
Theorem assemble_error_atomic rs s q s' e : assemble rs s q = (s', Err e) → s' = s.
Proof.
  unfold assemble. intros H.
  destruct (precheck_records rs q); [|by simplify_eq].
  destruct (dedupe _ _ _ _ _) as [kept pruned].
  destruct (stage _ _ kept) as [staged|] eqn:Es; [|by simplify_eq].
  case_if_in H; [by simplify_eq|]. case_if_in H; [by simplify_eq|]. case_if_in H; [by simplify_eq|].
  match goal with H : context [commit s ?g ?sel 0] |- _ =>
    destruct (commit_ok g sel s 0) as (s1 & out & Ec); [..|rewrite Ec in H; by destruct out] end.
  - lia.
  - lia.
  - apply Forall_forall. intros bs (st & Hst & Hp)%list_elem_of_omap.
    assert (st ∈ staged) as Hin by (eapply sublist_subseteq; [apply selected_sublist|done]).
    apply stage_from in Es. apply list_elem_of_lookup in Hin as [i Hi].
    destruct (Forall2_lookup_r _ _ _ _ _ Es Hi) as (p & _ & _ & Hst').
    rewrite Hp in Hst'. apply Hst'.
Qed.

(** Every record is accounted for exactly once.  When assembly succeeds, the
    ids of the input records are, up to order, the selected ids, the ids
    omitted for the budget and the ids pruned by supersede or dedupe. *)
Theorem assemble_accounts rs s q s' out :
  assemble rs s q = (s', Ok out) →
  map rec_id rs ≡ₚ out.(context_refs) ++ out.(omitted_ids) ++ out.(pruned_ids)
  ∧ map asm_id out.(records) = out.(context_refs)
  ∧ NoDup (map rec_id rs).
Proof.
  intros H. apply assemble_inv in H as [a _]. split_and!.
  - destruct (a_dedupe a) as (_ & _ & Hp & _). rewrite firstn_all in Hp. rewrite <- Hp.
    rewrite (a_refs a), (a_omitted a), app_assoc. apply Permutation_app_tail.
    rewrite (Permutation_map _ (Permutation_map _ (sort_by_perm index_le (a_committed a)))).
    destruct (commit_ids _ _ _ _ _ _ _ (a_commit a)) as [_ ->].
    rewrite (Permutation_map _ (selected_perm _ _ _ (a_split a))).
    destruct (staged_ids _ _ (stage_from _ _ _ _ (a_stage a))) as [<- _].
    rewrite <- (enumerate_snd (a_staged a)) at 1.
    rewrite (Permutation_map _ (Permutation_map _ (a_split a))).
    rewrite !map_app, !map_map. done.
  - rewrite (a_records a), (a_refs a), !map_map. done.
  - destruct (a_pre a) as [u Hu]. by apply precheck_records_ok in Hu as (_ & _ & ? & _).
Qed.

Lemma kept_length rs index kept pruned : dedupe_inv rs index kept pruned →
  len kept ≤ len rs.
Proof.
  intros (_ & _ & Hp & _). apply Permutation_length in Hp.
  rewrite length_app, !length_map, length_take in Hp. unfold len. lia.
Qed.

Lemma selected_length {rs s s' q out} (a : assembly rs s s' q out) :
  len (a_kept a) ≤ MAX_CONTEXT_RECORDS
  ∧ len (selected (map fst (a_inc a)) (a_staged a)) ≤ len (a_kept a).
Proof.
  destruct (a_pre a) as [u Hu]. apply precheck_records_ok in Hu as (Hl & _).
  pose proof (kept_length _ _ _ _ (a_dedupe a)).
  pose proof (sublist_length _ _ (selected_sublist (map fst (a_inc a)) (a_staged a))).
  pose proof (Forall2_length _ _ _ (stage_from _ _ _ _ (a_stage a))). unfold len in *. lia.
Qed.

Definition asm_footprint (r : AssembledRecord) : Z :=
  slen r.(asm_summary) + content_byte_len r.(asm_content).

Lemma asm_footprint_of r : asm_footprint (assembled_of r) = footprint_bytes r.
Proof. unfold asm_footprint, footprint_bytes, assembled_of. simpl. by destruct (body r). Qed.

(** C39: the budget holds after the commit.  The summaries and payloads actually
    handed to the provider (with the references the store really assigned, not
    the predicted ones selection used) sum to at most the resolved budget. *)
Theorem assemble_within_budget rs s q s' out :
  store_ok s → s.(next_id) + MAX_CONTEXT_RECORDS ≤ u64_max → 0 ≤ request_budget_bytes q →
  assemble rs s q = (s', Ok out) →
  out.(budget_bytes) = request_budget_bytes q
  ∧ sum_Z (map asm_footprint out.(records)) ≤ out.(budget_bytes).
Proof.
  intros Hok Hu Hb H. apply assemble_inv in H as [a _]. rewrite (a_budget a). split; [done|].
  assert (0 ≤ next_id s) as H0 by apply Hok. pose proof (selected_length a) as [Hk Hs].
  rewrite (a_records a), map_map.
  rewrite (map_ext _ _ asm_footprint_of).
  rewrite (sum_Z_perm _ _ (Permutation_map _ (Permutation_map _
    (sort_by_perm index_le (a_committed a))))).
  etransitivity; [eapply (commit_footprint _ s.(next_id) _ s 0 0); [done|lia|done|lia| | |apply (a_commit a)]|].
  - lia.
  - eapply predicted_sublist; [apply selected_sublist|].
    eapply stage_predicted; [done|done| |apply (a_stage a)]. lia.
  - rewrite (sum_Z_perm _ _ (Permutation_map _ (selected_perm _ _ _ (a_split a)))), map_map.
    by apply (a_used a).
Qed.

(** How a source record appears in the output, against the store after the
    commit. *)
Definition rendering (s : ArtifactStore) (g : Z) (r : ContextRecord) (x : AssembledRecord) : Prop :=
  x.(asm_id) = r.(rec_id) ∧ x.(asm_provider) = r.(rec_provider)
  ∧ x.(asm_summary) = r.(rec_summary) ∧ x.(asm_untrusted) = r.(rec_untrusted)
  ∧ match r.(body) with
    | Inline bs =>
        if len bs >? EXTERNALIZE_THRESHOLD_BYTES then
          ∃ ref, x.(asm_content) = ContentReference ref ∧ resolve s ref g = Ok bs
        else x.(asm_content) = ContentInline bs
    | Artifact ref => x.(asm_content) = ContentReference ref
    end.

Lemma rendering_of s g p st c :
  staged_from p st → committed_from s g st c → rendering s g p.2 (assembled_of c.2).
Proof.
  intros [_ Hst] [_ Hc]. unfold rendering. destruct (st_pending st) as [bs|].
  - destruct Hst as (Hb & Hl & _ & pr & Hr). destruct Hc as (r & -> & Hf). rewrite Hr.
    split_and!; [done..|]. rewrite Hb in *. simpl in Hl. rewrite Hl. exists r. split; [done|].
    unfold resolve. rewrite Hf. simpl. by rewrite Z.eqb_refl.
  - destruct Hst as [Hr Hl]. rewrite Hc, Hr. split_and!; [done..|].
    unfold assembled_of. simpl. destruct (body p.2) as [bs|]; [|done]. simpl in Hl. by rewrite Hl.
Qed.

Lemma index_sorted committed : NoDup (map fst committed) →
  StronglySorted lt (map fst (sort_by index_le committed)).
Proof.
  intros Hnd.
  assert (StronglySorted (λ a b, index_le a b = true) (sort_by index_le committed)) as Hs.
  { apply sort_by_sorted; unfold index_le.
    - intros [i x] [j y]; simpl. destruct (Nat.leb_spec i j), (Nat.leb_spec j i); try done; lia.
    - intros [i x] [j y] [k z]; simpl. rewrite !Nat.leb_le. lia. }
  assert (NoDup (map fst (sort_by index_le committed))) as Hnd'
    by (by rewrite (Permutation_map _ (sort_by_perm index_le committed))).
  clear Hnd. induction Hs as [|p l Hl IH Hp]; simpl; [constructor|].
  simpl in Hnd'. inversion Hnd' as [|? ? Hn Hnd2]; subst. constructor; [by apply IH|].
  apply Forall_forall. intros j (r & -> & Hr)%list_elem_of_fmap.
  rewrite Forall_forall in Hp. apply Hp in Hr as Hle. unfold index_le in Hle.
  apply Nat.leb_le in Hle. assert (p.1 ≠ r.1); [|lia].
  intros E. apply Hn. rewrite E. apply list_elem_of_fmap. by exists r.
Qed.

(** Assembly is lossless and in caller order.  The output records are the
    renderings of input records at strictly increasing positions: ids,
    providers, summaries and trust flags are verbatim, small bodies are inline
    verbatim, and every body moved to the store resolves at the request's
    generation to exactly its original bytes. *)
Theorem assemble_lossless_in_order rs s q s' out :
  store_ok s → s.(next_id) + MAX_CONTEXT_RECORDS ≤ u64_max →
  assemble rs s q = (s', Ok out) →
  ∃ positions, StronglySorted lt positions
    ∧ Forall2 (λ i x, ∃ r, rs !! i = Some r ∧ rendering s' q.(current_generation) r x)
        positions out.(records).
Proof.
  intros Hok Hu H. apply assemble_inv in H as [a _]. pose proof (selected_length a) as [Hk Hs].
  assert (next_id s + len (selected (map fst (a_inc a)) (a_staged a)) ≤ u64_max) as Hroom by lia.
  destruct (commit_spec _ _ _ _ _ _ _ Hok Hroom (a_commit a)) as (_ & _ & Hc).
  pose proof (stage_from _ _ _ _ (a_stage a)) as Hst.
  destruct (a_dedupe a) as (Hkept & Hnd & _).
  assert (∀ c, c ∈ a_committed a → ∃ r, rs !! c.1 = Some r
            ∧ rendering s' (current_generation q) r (assembled_of c.2)) as Hall.
  { intros c (i & Hi)%list_elem_of_lookup.
    destruct (Forall2_lookup_r _ _ _ _ _ Hc Hi) as (st & Hsel & Hcf).
    assert (st ∈ a_staged a) as Hin
      by (eapply sublist_subseteq; [apply selected_sublist|by eapply list_elem_of_lookup_2]).
    apply list_elem_of_lookup in Hin as [j Hj].
    destruct (Forall2_lookup_r _ _ _ _ _ Hst Hj) as (p & Hp & Hpf).
    rewrite Forall_forall in Hkept. destruct (Hkept p) as [Hrs _]; [by eapply list_elem_of_lookup_2|].
    exists p.2. split; [|by eapply rendering_of].
    destruct Hcf as [-> _]. destruct Hpf as [-> _]. done. }
  exists (map fst (sort_by index_le (a_committed a))). split.
  - apply index_sorted. destruct (commit_ids _ _ _ _ _ _ _ (a_commit a)) as [-> _].
    eapply sublist_NoDup; [|apply sublist_map, selected_sublist].
    by destruct (staged_ids _ _ Hst) as [_ ->].
  - rewrite (a_records a).
    assert (Forall (λ c, c ∈ a_committed a) (sort_by index_le (a_committed a))) as Hf.
    { apply Forall_forall. intros c. by rewrite sort_by_perm. }
    induction Hf as [|c l Hin Hl IH]; simpl; constructor; auto.
Qed.

(** Untrusted records cannot evict trusted ones.  A trusted record is pruned
    only because a trusted record's [supersedes] link names it or because
    another trusted record has exactly the same provider, owner, summary and
    body. *)
Theorem trusted_pruned_only_by_trusted rs s q s' out r :
  assemble rs s q = (s', Ok out) →
  r ∈ rs → r.(rec_untrusted) = false → r.(rec_id) ∈ out.(pruned_ids) →
  ∃ r', r' ∈ rs ∧ r'.(rec_untrusted) = false
    ∧ (r'.(supersedes) = Some r.(rec_id)
       ∨ (rec_id r' ≠ rec_id r ∧ same_content r' r = true)).
Proof.
  intros H Hin Htr Hpr. apply assemble_inv in H as [a _].
  destruct (a_pre a) as [u Hu]. apply precheck_records_ok in Hu as (_ & _ & Hnd & _).
  destruct (a_dedupe a) as (_ & _ & _ & Hreason). rewrite Forall_forall in Hreason.
  apply Hreason in Hpr as (i & r0 & Hi & Hid & Hcase).
  assert (r0 = r) as ->.
  { apply list_elem_of_lookup in Hin as [j Hj].
    assert (i = j) as ->; [|congruence].
    eapply NoDup_lookup; [exact Hnd|..]; rewrite list_lookup_fmap.
    - rewrite Hi. simpl. by rewrite Hid.
    - by rewrite Hj. }
  destruct Hcase as [Hsup|(j & r' & Hne & Hj & Hc & Htrust)].
  - apply list_elem_of_omap in Hsup as (r' & Hr' & Hs).
    apply list_elem_of_In, List.filter_In in Hr' as [Hr' Hun]. apply negb_true_iff in Hun.
    exists r'. split_and!; [by apply list_elem_of_In|done|by left].
  - exists r'. split_and!; [by eapply list_elem_of_lookup_2|by apply Htrust|right].
    split; [|done]. intros E. apply Hne.
    eapply NoDup_lookup; [exact Hnd|..]; rewrite list_lookup_fmap; [by rewrite Hi|].
    rewrite Hj. simpl. by rewrite E.
Qed.

Definition no_selection : Selection := mkSelection [] 0 [] 0 [].

(** Truncation respects priority and trust.  A staged record is left out only
    when it does not fit beside records that were included with at least its
    effective priority; so a trusted record above [Normal] is displaced by
    trusted records only, whatever priority untrusted records claim. *)
Theorem omitted_only_for_higher budget staged pos st :
  let choice := greedy budget (greedy_order staged) no_selection in
  staged !! pos = Some st → pos ∉ choice.(included) →
  ∃ ahead : list (nat * Staged),
    (∀ p, p ∈ ahead → staged !! p.1 = Some p.2 ∧ p.1 ∈ choice.(included)
       ∧ priority_u8 (effective_priority st.(st_record))
         ≤ priority_u8 (effective_priority p.2.(st_record))
       ∧ (priority_u8 Normal < priority_u8 st.(st_record).(priority) →
          st.(st_record).(rec_untrusted) = false → p.2.(st_record).(rec_untrusted) = false))
    ∧ NoDup (map fst ahead)
    ∧ budget < sum_Z (map need ahead) + footprint_bytes st.(st_record).
Proof.
  intros choice Hpos Hout. apply enumerate_elem in Hpos.
  rewrite <- greedy_order_perm in Hpos. apply list_elem_of_split in Hpos as (l1 & l2 & E).
  assert (StronglySorted (λ a b, slot_le a b = true) (greedy_order staged)) as Hsort
    by (apply sort_by_sorted; [apply slot_le_total|apply slot_le_trans]).
  assert (NoDup (map fst (greedy_order staged))) as Hnd.
  { rewrite (Permutation_map _ (greedy_order_perm staged)), enumerate_fst. apply NoDup_seq. }
  subst choice. rewrite E in *. pose proof (greedy_omitted _ _ _ _ _ _ Hout) as Hlt.
  destruct (greedy_spec budget l1 no_selection) as (inc & om & Hp & Hi & Hu & _).
  exists inc. split_and!.
  - intros p Hin. assert (p ∈ l1) as Hl1 by (rewrite Hp; apply elem_of_app; by left).
    assert (staged !! p.1 = Some p.2) as Hst.
    { apply enumerate_elem. rewrite <- greedy_order_perm, E. destruct p.
      apply elem_of_app. by left. }
    assert (slot_le p (pos, st) = true) as Hle.
    { apply (StronglySorted_app_1_elem_of (λ a b, slot_le a b = true) l1 ((pos, st) :: l2));
        [done|done|by left]. }
    unfold slot_le in Hle. cbn [snd] in Hle. split_and!; [done| |lia|].
    + rewrite greedy_app.
      match goal with |- context [greedy budget ?l ?s2] =>
        destruct (greedy_spec budget l s2) as (inc2 & om2 & _ & -> & _) end.
      apply elem_of_app. left. rewrite Hi. apply list_elem_of_fmap. by exists p.
    + intros Hhigh Htr. unfold effective_priority in Hle. rewrite Htr in Hle.
      destruct (rec_untrusted (st_record p.2)); [|done]. exfalso.
      destruct (priority (st_record p.2)), (priority (st_record st)); simpl in *; lia.
  - rewrite map_app in Hnd. apply NoDup_app in Hnd as (Hnd & _).
    rewrite Hp, map_app in Hnd. by apply NoDup_app in Hnd as (? & _).
  - rewrite Hu in Hlt. simpl in Hlt. lia.
Qed.

(** ** Witnesses *)

Definition demo_record (id : string) (body : RecordBody) (p : ContextPriority) (untrusted : bool) :
    ContextRecord :=
  mkContextRecord id "git" "repo" 1 10 p ("summary of " +:+ id) body None untrusted.

Definition demo_large : bytes := repeat (Ascii.ascii_of_N 97) 5000.

Definition demo_records : list ContextRecord :=
  [demo_record "a" (Inline (as_bytes "small")) High false;
   demo_record "b" (Inline demo_large) Normal false;
   demo_record "c" (Inline (as_bytes "noise")) Critical true].

Definition demo_request : ContextRequest := mkContextRequest None (Some 60) 1.

Definition demo_result : ArtifactStore * result AssembledContext ContextError :=
  assemble demo_records store_new demo_request.

Definition demo_context : AssembledContext :=
  mkAssembledContext
    [mkAssembledRecord "a" "git" "summary of a" (ContentInline (as_bytes "small")) false;
     mkAssembledRecord "b" "git" "summary of b" (ContentReference "artifact://1") false;
     mkAssembledRecord "c" "git" "summary of c" (ContentInline (as_bytes "noise")) true]
    ["a"; "b"; "c"] [] [] 1 0 0 [] 60.

Lemma demo_assembles : demo_result = (demo_result.1, Ok demo_context).
Proof. vm_compute. reflexivity. Qed.

Lemma assemble_error_atomic_witness :
  (assemble (demo_records ++ demo_records) store_new demo_request).1 = store_new.
Proof.
  apply (assemble_error_atomic (demo_records ++ demo_records) store_new demo_request _
    (DuplicateRecordId "a")). vm_compute. reflexivity.
Defined.

Lemma assemble_accounts_witness :
  map rec_id demo_records
  ≡ₚ demo_context.(context_refs) ++ demo_context.(omitted_ids) ++ demo_context.(pruned_ids).
Proof.
  apply (assemble_accounts demo_records store_new demo_request demo_result.1 demo_context).
  exact demo_assembles.
Defined.

Lemma assemble_within_budget_witness :
  sum_Z (map asm_footprint demo_context.(records)) ≤ demo_context.(budget_bytes).
Proof.
  apply (assemble_within_budget demo_records store_new demo_request demo_result.1 demo_context);
    [apply store_new_ok|done|done|exact demo_assembles].
Defined.

Lemma assemble_lossless_in_order_witness :
  ∃ positions, StronglySorted lt positions
    ∧ Forall2 (λ i x, ∃ r, demo_records !! i = Some r ∧ rendering demo_result.1 1 r x)
        positions demo_context.(records).
Proof.
  apply (assemble_lossless_in_order demo_records store_new demo_request demo_result.1 demo_context);
    [apply store_new_ok|done|exact demo_assembles].
Defined.

(** A trusted update supersedes the older trusted record; the untrusted link is
    ignored. *)
Definition demo_superseding : list ContextRecord :=
  [demo_record "old" (Inline (as_bytes "x")) High false;
   mkContextRecord "new" "git" "repo" 1 11 High "newer" (Inline (as_bytes "y")) (Some "old") false;
   mkContextRecord "evil" "terminal" "tty" 1 12 Critical "tty" (Inline []) (Some "new") true].

Lemma trusted_pruned_only_by_trusted_witness :
  ∃ r', r' ∈ demo_superseding ∧ r'.(rec_untrusted) = false
    ∧ (r'.(supersedes) = Some "old"
       ∨ (rec_id r' ≠ "old"
          ∧ same_content r' (demo_record "old" (Inline (as_bytes "x")) High false) = true)).
Proof.
  destruct (assemble demo_superseding store_new (mkContextRequest None None 1))
    as [s' [out|e]] eqn:E; [|vm_compute in E; discriminate].
  apply (trusted_pruned_only_by_trusted demo_superseding store_new (mkContextRequest None None 1)
    s' out (demo_record "old" (Inline (as_bytes "x")) High false)); [exact E|by left|done|].
  assert (pruned_ids out = ["old"]) as -> by (vm_compute in E; injection E as _ <-; reflexivity).
  by left.
Defined.

Definition demo_staged : list Staged :=
  [mkStaged 0 (demo_record "c" (Inline (as_bytes "noise")) Critical true) None;
   mkStaged 1 (demo_record "a" (Inline (as_bytes "small")) High false) None].

(** With room for one record the untrusted [Critical] one is the one left out. *)
Lemma omitted_only_for_higher_witness :
  ∃ ahead : list (nat * Staged),
    (∀ p, p ∈ ahead → demo_staged !! p.1 = Some p.2
       ∧ priority_u8 Normal ≤ priority_u8 (effective_priority p.2.(st_record)))
    ∧ 20 < sum_Z (map need ahead) + 17.
Proof.
  destruct (omitted_only_for_higher 20 demo_staged 0
    (mkStaged 0 (demo_record "c" (Inline (as_bytes "noise")) Critical true) None))
    as (ahead & Hp & _ & Hlt); [reflexivity|vm_compute; intros H; inversion H as [|? ? ? H2]; inversion H2|].
  exists ahead. split; [|exact Hlt]. intros p Hin. by destruct (Hp p Hin) as (? & _ & ? & _).
Defined.

(** Within one effective priority, budget ties follow the dedupe slot and not
    the caller's order: a newer duplicate takes the place of the record it
    replaces, ahead of a record the caller listed before it. *)
Theorem tie_order_follows_slot :
  let old := demo_record "old" (Inline (as_bytes "dup!!")) Normal false in
  let mid := mkContextRecord "mid" "git" "repo" 1 10 Normal "summary of mid" (Inline []) None false in
  let new := mkContextRecord "new" "git" "repo" 1 11 Normal "summary of old"
               (Inline (as_bytes "dup!!")) None false in
  ∃ s out, assemble [old; mid; new] store_new (mkContextRequest None (Some 20) 1) = (s, Ok out)
    ∧ out.(context_refs) = ["new"] ∧ out.(omitted_ids) = ["mid"] ∧ out.(pruned_ids) = ["old"].
Proof. do 2 eexists. vm_compute. done. Qed.
