(* ===== verification/Provider.v ===== *)
(** * Provider: the model boundary and routing cost

    Models the parts of [provider.rs] and [selection.rs] the turn loop is made of:
    messages, turn requests and results, provider errors with their rendering and
    their conversion at the runtime boundary, the scripted [FakeProvider] and the
    cost estimate.  The turn loop never declares sampling, so [TurnRequest] has no
    [sampling] field here. *)

From S2P Require Import Prelude Text ToolTypes.

Local Open Scope Z_scope.
Local Open Scope rust_scope.

Definition DEFAULT_REQUEST_TIMEOUT_MS : Z := 5000.
Definition MAX_REQUEST_TIMEOUT_MS : Z := 30000.
Definition MAX_RATE_LIMIT_WAIT_MS : Z := 30000.
Definition MAX_PROVIDER_ID_LEN : Z := 64.

(** ** Messages and turns *)

Inductive Role := User | Assistant | Tool.

Record Message := mkMessage { role : Role; content : string }.

Definition message_user (c : string) : Message := mkMessage User c.
Definition message_assistant (c : string) : Message := mkMessage Assistant c.
Definition message_tool (c : string) : Message := mkMessage Tool c.

(** [Message::byte_len] *)
Definition message_byte_len (m : Message) : Z := slen m.(content).

Record TurnRequest := mkTurnRequest {
  req_model : string;
  req_messages : list Message;
  req_context_refs : list string;
  req_tools : list string;
  req_budget_bytes : Z;
  req_timeout_ms : Z;
  req_now_ms : Z
}.

(** [TurnRequest::total_message_bytes] *)
Definition total_message_bytes (r : TurnRequest) : Z :=
  sum_Z (map message_byte_len r.(req_messages)).

(** The token counts the turn loop reads; the cache counters beside them are
    informational. *)
Record ProviderUsage := mkUsage {
  input_tokens : Z;
  output_tokens : Z;
  cached_tokens : Z;
  cache_write_tokens : Z
}.

Definition usage_default : ProviderUsage := mkUsage 0 0 0 0.

(** A [ToolCallRequest] has the fields of a [ToolCall]. *)
Record ProviderTurn := mkTurn {
  text : string;
  tool_calls : list ToolCall;
  latency_ms : Z;
  turn_usage : ProviderUsage
}.

(** ** Errors *)

Inductive ModelCapability :=
| Text | Streaming | ToolUse | ImageInput | AudioInput | AudioOutput | VideoInput | Reasoning.

Inductive ProviderError :=
| UnknownModel (name : string)
| ProviderBudgetExceeded (limit actual : Z)
| Timeout (timeout_ms latency_ms : Z)
| TimeoutTooLarge (max actual : Z)
| InvalidProviderId (id : string)
| Transport (provider reason : string)
| Auth (provider reason : string)
| RateLimited (provider : string) (retry_after_ms : option Z)
| CapabilityMismatch (provider model : string) (missing : list ModelCapability)
| ModelUnavailable (provider model : string)
| ProviderUnknown (provider reason : string)
| InvalidSampling
| UnsupportedSampling (field : string).

(** [Display for ProviderError] *)
Definition ProviderError_to_string (e : ProviderError) : string :=
  match e with
  | UnknownModel name => "unknown model: " +:+ name
  | ProviderBudgetExceeded limit actual =>
      "context budget exceeded: " +:+ show actual +:+ " bytes over " +:+ show limit +:+ " byte limit"
  | Timeout timeout_ms latency_ms =>
      "provider timed out: latency " +:+ show latency_ms +:+ "ms over " +:+ show timeout_ms
        +:+ "ms timeout"
  | TimeoutTooLarge max actual =>
      "timeout " +:+ show actual +:+ "ms exceeds ceiling " +:+ show max +:+ "ms"
  | InvalidProviderId id => "invalid provider id: " +:+ id
  | Transport provider reason => "provider " +:+ provider +:+ " transport failure: " +:+ reason
  | Auth provider reason => "provider " +:+ provider +:+ " refused authorization: " +:+ reason
  | RateLimited provider (Some ms) =>
      "provider " +:+ provider +:+ " rate limited: retry after " +:+ show ms +:+ "ms"
  | RateLimited provider None => "provider " +:+ provider +:+ " rate limited"
  | CapabilityMismatch provider model missing =>
      "provider " +:+ provider +:+ " model " +:+ model +:+ " lacks " +:+ show (len missing)
        +:+ " capabilities"
  | ModelUnavailable provider model =>
      "provider " +:+ provider +:+ " model " +:+ model +:+ " unavailable"
  | ProviderUnknown provider reason => "provider " +:+ provider +:+ " effect unknown: " +:+ reason
  | InvalidSampling => "invalid sampling parameters"
  | UnsupportedSampling field => "sampling option unsupported by backend: " +:+ field
  end.

(** [rate_limit_wait_ms] *)
Definition rate_limit_wait_ms (retry_after_ms : option Z) (base_ms max_ms : Z) : Z :=
  let ceiling := Z.min max_ms MAX_RATE_LIMIT_WAIT_MS in
  match retry_after_ms with
  | Some v => Z.min v ceiling
  | None => Z.min base_ms ceiling
  end.

Definition is_provider_id_byte (b : ascii) : bool :=
  is_ascii_lowercase b || is_ascii_digit b || byte_eqb 95 b || byte_eqb 45 b.

Definition validate_provider_id (id : string) : result unit ProviderError :=
  ensure! negb (is_empty id) && (slen id <=? MAX_PROVIDER_ID_LEN)
    && starts_lowercase id && str_forall is_provider_id_byte id
  else InvalidProviderId id in
  Ok tt.

Definition check_timeout (r : TurnRequest) : result unit ProviderError :=
  ensure! negb (r.(req_timeout_ms) >? MAX_REQUEST_TIMEOUT_MS)
  else TimeoutTooLarge MAX_REQUEST_TIMEOUT_MS r.(req_timeout_ms) in
  Ok tt.

(** ** The scripted provider *)

Record FakeProvider := mkFakeProvider {
  fp_models : list string;
  fp_script : list ProviderTurn;
  fp_complete_calls : Z
}.

Definition empty_turn : ProviderTurn := mkTurn "" [] 0 usage_default.

(** [FakeProvider::complete], for a request that declares no sampling. *)
Definition FakeProvider_complete (p : FakeProvider) (r : TurnRequest) :
    FakeProvider * result ProviderTurn ProviderError :=
  match check_timeout r with
  | Err e => (p, Err e)
  | Ok _ =>
  if negb (existsb (λ m, str_eqb m r.(req_model)) p.(fp_models)) then
    (p, Err (UnknownModel r.(req_model)))
  else
  let actual := total_message_bytes r in
  if actual >? r.(req_budget_bytes) then
    (p, Err (ProviderBudgetExceeded r.(req_budget_bytes) actual))
  else
  let '(turn, rest) := match p.(fp_script) with
                       | t :: rest => (t, rest)
                       | [] => (empty_turn, [])
                       end in
  if turn.(latency_ms) >? r.(req_timeout_ms) then
    (mkFakeProvider p.(fp_models) (turn :: rest) p.(fp_complete_calls),
     Err (Timeout r.(req_timeout_ms) turn.(latency_ms)))
  else
    (mkFakeProvider p.(fp_models) rest (p.(fp_complete_calls) + 1), Ok turn)
  end.

(** ** Routing cost ([selection.rs]) *)

Definition effective_cost_weight (weight : Z) : Z := if weight =? 0 then 1 else weight.

Definition estimate_cost (input_tokens output_tokens input_weight output_weight : Z) : Z :=
  saturating_add64 (saturating_mul64 input_tokens (effective_cost_weight input_weight))
    (saturating_mul64 output_tokens (effective_cost_weight output_weight)).

(** ** Properties *)

Lemma estimate_cost_bounds i o wi wo :
  is_u64 i → is_u64 o → is_u64 wi → is_u64 wo → is_u64 (estimate_cost i o wi wo).
Proof.
  unfold is_u64, estimate_cost, effective_cost_weight, saturating_add64, saturating_mul64.
  intros. repeat case_if; nia.
Qed.
