(* ===== verification/Selection.v ===== *)
(** * Selection: the model registry, aliases and capability routing

    Models [selection.rs]: the fail-closed registry of models and aliases, the
    gates of a selection request, the ordered fallback chain, and the
    classification of provider failures.  Routing cost is in [Provider.v]. *)

From S2P Require Import Prelude Text Order ToolTypes Provider.

Local Open Scope Z_scope.
Local Open Scope rust_scope.

Definition MAX_MODEL_NAME_LEN : Z := 128.
Definition MAX_REGISTERED_MODELS : Z := 64.
Definition MAX_ALIASES : Z := 32.
Definition MAX_ALIAS_CANDIDATES : Z := 8.

Inductive SelectionError :=
| SelInvalidProviderId (id : string)
| SelInvalidName (name : string)
| NoCapabilities (name : string)
| DuplicateModel (provider model : string)
| ConflictingModel (provider model : string)
| SelRegistryFull (limit : Z)
| DuplicateAlias (alias : string)
| EmptyAlias (alias : string)
| TooManyCandidates (alias : string) (limit actual : Z)
| AliasesFull (limit : Z)
| UnknownAlias (alias : string)
| EmptyRequirement
| NoCandidate (detail : string).

(** [Display for SelectionError] *)
Definition SelectionError_to_string (e : SelectionError) : string :=
  match e with
  | SelInvalidProviderId id => "invalid provider id: " +:+ id
  | SelInvalidName name => "invalid model name: " +:+ name
  | NoCapabilities name => "model " +:+ name +:+ " advertises no capabilities"
  | DuplicateModel provider model =>
      "duplicate model: provider " +:+ provider +:+ " model " +:+ model
  | ConflictingModel provider model =>
      "conflicting model registration: provider " +:+ provider +:+ " model " +:+ model
  | SelRegistryFull limit => "provider registry full at " +:+ show limit +:+ " models"
  | DuplicateAlias alias => "duplicate alias: " +:+ alias
  | EmptyAlias alias => "alias " +:+ alias +:+ " declares no candidates"
  | TooManyCandidates alias limit actual =>
      "alias " +:+ alias +:+ " declares " +:+ show actual +:+ " candidates over " +:+ show limit
        +:+ " limit"
  | AliasesFull limit => "alias table full at " +:+ show limit +:+ " aliases"
  | UnknownAlias alias => "unknown alias: " +:+ alias
  | EmptyRequirement => "selection requires at least one capability (never by name alone)"
  | NoCandidate detail => "no candidate satisfies: " +:+ detail
  end.

Definition is_model_name_byte (b : ascii) : bool :=
  is_ascii_lowercase b || is_ascii_digit b || byte_eqb 95 b || byte_eqb 45 b || byte_eqb 46 b
  || byte_eqb 58 b || byte_eqb 47 b.

Definition starts_alphanumeric (s : string) : bool :=
  match s with
  | EmptyString => false
  | String b _ => is_ascii_lowercase b || is_ascii_digit b
  end.

Definition validate_model_name (name : string) : result unit SelectionError :=
  ensure! negb (is_empty name) && (slen name <=? MAX_MODEL_NAME_LEN)
    && starts_alphanumeric name && str_forall is_model_name_byte name
  else SelInvalidName name in
  Ok tt.

(** [validate_provider_id(..).map_err(..)] as every operation here uses it. *)
Definition check_provider_id (id : string) : result unit SelectionError :=
  map_err (λ _, SelInvalidProviderId id) (validate_provider_id id).

#[export] Instance ModelCapability_eq_dec : EqDecision ModelCapability.
Proof. solve_decision. Defined.

Record ModelRegistration := mkRegistration {
  mr_provider_id : string;
  mr_name : string;
  mr_capabilities : list ModelCapability;
  mr_context_window_tokens : Z;
  mr_input_cost_weight : Z;
  mr_output_cost_weight : Z
}.

(** [ModelRegistration::new] *)
Definition ModelRegistration_new (provider_id name : string) (capabilities : list ModelCapability)
    (window input output : Z) : result ModelRegistration SelectionError :=
  try! _ := check_provider_id provider_id in
  try! _ := validate_model_name name in
  match capabilities with
  | [] => Err (NoCapabilities name)
  | _ => Ok (mkRegistration provider_id name capabilities window input output)
  end.

Record ModelRef := mkModelRef { ref_provider_id : string; ref_model : string }.

(** [ModelRef::new] *)
Definition ModelRef_new (provider_id model : string) : result ModelRef SelectionError :=
  try! _ := check_provider_id provider_id in
  try! _ := validate_model_name model in
  Ok (mkModelRef provider_id model).

Record RegisteredModel := mkModel {
  rm_provider_id : string;
  rm_name : string;
  rm_capabilities : list ModelCapability;
  rm_context_window_tokens : Z;
  rm_input_cost_weight : Z;
  rm_output_cost_weight : Z
}.

Record ModelAlias := mkAlias { alias_name : string; candidates : list ModelRef }.

Record ProviderRegistry := mkProviderRegistry {
  models : list RegisteredModel;
  aliases : list ModelAlias;
  revision : Z
}.

(** [ProviderRegistry::new] *)
Definition provider_registry_new : ProviderRegistry := mkProviderRegistry [] [] 0.

Definition same_model (provider name : string) (m : RegisteredModel) : bool :=
  str_eqb m.(rm_provider_id) provider && str_eqb m.(rm_name) name.

(** [ProviderRegistry::lookup] *)
Definition lookup_model (r : ProviderRegistry) (provider name : string) : option RegisteredModel :=
  find (same_model provider name) r.(models).

Definition same_metadata (kept : RegisteredModel) (m : ModelRegistration) : bool :=
  bool_decide (kept.(rm_capabilities) = m.(mr_capabilities))
  && (kept.(rm_context_window_tokens) =? m.(mr_context_window_tokens))
  && (kept.(rm_input_cost_weight) =? m.(mr_input_cost_weight))
  && (kept.(rm_output_cost_weight) =? m.(mr_output_cost_weight)).

Definition kept_entry (m : ModelRegistration) : RegisteredModel :=
  mkModel m.(mr_provider_id) m.(mr_name) m.(mr_capabilities) m.(mr_context_window_tokens)
    m.(mr_input_cost_weight) m.(mr_output_cost_weight).

(** [ProviderRegistry::register] *)
Definition register_model (r : ProviderRegistry) (m : ModelRegistration) :
    ProviderRegistry * result unit SelectionError :=
  match lookup_model r m.(mr_provider_id) m.(mr_name) with
  | Some kept =>
      (r, Err (if same_metadata kept m then DuplicateModel m.(mr_provider_id) m.(mr_name)
               else ConflictingModel m.(mr_provider_id) m.(mr_name)))
  | None =>
  match check_provider_id m.(mr_provider_id) with
  | Err e => (r, Err e)
  | Ok _ =>
  match validate_model_name m.(mr_name) with
  | Err e => (r, Err e)
  | Ok _ =>
  match m.(mr_capabilities) with
  | [] => (r, Err (NoCapabilities m.(mr_name)))
  | _ =>
  if len r.(models) >=? MAX_REGISTERED_MODELS then (r, Err (SelRegistryFull MAX_REGISTERED_MODELS))
  else
    (mkProviderRegistry (r.(models) ++ [kept_entry m]) r.(aliases)
       (saturating_add64 r.(revision) 1), Ok tt)
  end end end end.

(** The [for candidate in &candidates] checks. *)
Fixpoint check_candidates (cs : list ModelRef) : result unit SelectionError :=
  match cs with
  | [] => Ok tt
  | c :: cs =>
      try! _ := check_provider_id c.(ref_provider_id) in
      try! _ := validate_model_name c.(ref_model) in
      check_candidates cs
  end.

(** The gates of [ProviderRegistry::register_alias], in order. *)
Definition check_alias (r : ProviderRegistry) (alias : string) (cs : list ModelRef) :
    result unit SelectionError :=
  ensure! negb (existsb (λ a, str_eqb a.(alias_name) alias) r.(aliases))
  else DuplicateAlias alias in
  try! _ := validate_model_name alias in
  ensure! negb (len cs =? 0) else EmptyAlias alias in
  ensure! len cs <=? MAX_ALIAS_CANDIDATES
  else TooManyCandidates alias MAX_ALIAS_CANDIDATES (len cs) in
  try! _ := check_candidates cs in
  ensure! len r.(aliases) <? MAX_ALIASES else AliasesFull MAX_ALIASES in
  Ok tt.

(** [ProviderRegistry::register_alias] *)
Definition register_alias (r : ProviderRegistry) (alias : string) (cs : list ModelRef) :
    ProviderRegistry * result unit SelectionError :=
  match check_alias r alias cs with
  | Err e => (r, Err e)
  | Ok _ =>
      (mkProviderRegistry r.(models) (r.(aliases) ++ [mkAlias alias cs])
         (saturating_add64 r.(revision) 1), Ok tt)
  end.

Definition model_key (m : RegisteredModel) : string * string := (m.(rm_provider_id), m.(rm_name)).

(** [ProviderRegistry::entries] *)
Definition entries (r : ProviderRegistry) : list RegisteredModel := sort_by_key model_key r.(models).

(** [ProviderRegistry::resolve_alias] *)
Definition resolve_alias (r : ProviderRegistry) (alias : string) :
    result (list ModelRef) SelectionError :=
  match find (λ a, str_eqb a.(alias_name) alias) r.(aliases) with
  | Some a => Ok a.(candidates)
  | None => Err (UnknownAlias alias)
  end.

Record SelectRequest := mkSelectRequest {
  required : list ModelCapability;
  sel_alias : option string;
  min_context_window_tokens : option Z;
  max_cost_weight : option Z
}.

(** [SelectRequest::matches] *)
Definition request_matches (q : SelectRequest) (m : RegisteredModel) : bool :=
  forallb (λ c, bool_decide (c ∈ m.(rm_capabilities))) q.(required)
  && match q.(min_context_window_tokens) with
     | Some low => negb (m.(rm_context_window_tokens) <? low)
     | None => true
     end
  && match q.(max_cost_weight) with
     | Some high => negb ((effective_cost_weight m.(rm_input_cost_weight) >? high)
                          || (effective_cost_weight m.(rm_output_cost_weight) >? high))
     | None => true
     end.

(** [SelectRequest::describe] *)
Definition describe (q : SelectRequest) : string :=
  show (len q.(required)) +:+ " capabilities"
  +:+ match q.(sel_alias) with Some a => " alias=" +:+ a | None => "" end
  +:+ match q.(min_context_window_tokens) with Some n => " min_window=" +:+ show n | None => "" end
  +:+ match q.(max_cost_weight) with Some n => " max_cost=" +:+ show n | None => "" end.

Record SelectedModel := mkSelected {
  sm_provider_id : string;
  sm_name : string;
  sm_capabilities : list ModelCapability;
  sm_context_window_tokens : Z;
  sm_input_cost_weight : Z;
  sm_output_cost_weight : Z
}.

(** [SelectedModel::from_entry] *)
Definition from_entry (m : RegisteredModel) : SelectedModel :=
  mkSelected m.(rm_provider_id) m.(rm_name) m.(rm_capabilities) m.(rm_context_window_tokens)
    m.(rm_input_cost_weight) m.(rm_output_cost_weight).

(** [SelectedModel::estimate_cost] *)
Definition selected_cost (m : SelectedModel) (input output : Z) : Z :=
  estimate_cost input output m.(sm_input_cost_weight) m.(sm_output_cost_weight).

(** The two loops of [select], with the gate applied to each entry. *)
Fixpoint alias_chain (r : ProviderRegistry) (q : SelectRequest) (cs : list ModelRef) :
    list RegisteredModel :=
  match cs with
  | [] => []
  | c :: cs =>
      match lookup_model r c.(ref_provider_id) c.(ref_model) with
      | Some m => if request_matches q m then m :: alias_chain r q cs else alias_chain r q cs
      | None => alias_chain r q cs
      end
  end.

Definition chain_of (r : ProviderRegistry) (q : SelectRequest) :
    result (list RegisteredModel) SelectionError :=
  match q.(sel_alias) with
  | Some alias => try! cs := resolve_alias r alias in Ok (alias_chain r q cs)
  | None => Ok (List.filter (request_matches q) (entries r))
  end.

(** [ProviderRegistry::select] *)
Definition select (r : ProviderRegistry) (q : SelectRequest) :
    result (list SelectedModel) SelectionError :=
  ensure! negb (len q.(required) =? 0) else EmptyRequirement in
  try! chain := chain_of r q in
  match chain with
  | [] => Err (NoCandidate (describe q))
  | _ => Ok (map from_entry chain)
  end.

Inductive FallbackDirective := Advance | StopChain.

Definition fallback_directive (e : ProviderError) : FallbackDirective :=
  match e with
  | Transport _ _ | RateLimited _ _ | ModelUnavailable _ _ | Timeout _ _ => Advance
  | UnknownModel _ | ProviderBudgetExceeded _ _ | TimeoutTooLarge _ _ | InvalidProviderId _
  | InvalidSampling | UnsupportedSampling _ | Auth _ _ | CapabilityMismatch _ _ _
  | ProviderUnknown _ _ => StopChain
  end.

(** ** The registry *)

Definition model_ok (m : RegisteredModel) : Prop :=
  check_provider_id m.(rm_provider_id) = Ok tt ∧ validate_model_name m.(rm_name) = Ok tt
  ∧ m.(rm_capabilities) ≠ [].

Definition alias_ok (a : ModelAlias) : Prop :=
  validate_model_name a.(alias_name) = Ok tt
  ∧ 1 ≤ len a.(candidates) ≤ MAX_ALIAS_CANDIDATES
  ∧ Forall (λ c, check_provider_id c.(ref_provider_id) = Ok tt
                 ∧ validate_model_name c.(ref_model) = Ok tt) a.(candidates).

Definition registry_wf (r : ProviderRegistry) : Prop :=
  NoDup (map model_key r.(models)) ∧ len r.(models) ≤ MAX_REGISTERED_MODELS
  ∧ Forall model_ok r.(models)
  ∧ NoDup (map alias_name r.(aliases)) ∧ len r.(aliases) ≤ MAX_ALIASES ∧ Forall alias_ok r.(aliases)
  ∧ r.(revision) = len r.(models) + len r.(aliases).

Lemma same_model_key p n m : same_model p n m = true ↔ model_key m = (p, n).
Proof.
  unfold same_model, model_key. rewrite andb_true_iff, !str_eqb_eq. naive_solver.
Qed.

Lemma lookup_model_None r p n : lookup_model r p n = None ↔ (p, n) ∉ map model_key r.(models).
Proof.
  unfold lookup_model. induction (models r) as [|m l IH]; simpl; [set_solver|].
  rewrite not_elem_of_cons. destruct (same_model p n m) eqn:E.
  - apply same_model_key in E. naive_solver.
  - rewrite IH. split; [|naive_solver]. intros Hn. split; [|done]. intros Hk.
    by rewrite (proj2 (same_model_key p n m) (eq_sym Hk)) in E.
Qed.

Lemma lookup_model_Some r p n m :
  NoDup (map model_key r.(models)) →
  lookup_model r p n = Some m ↔ m ∈ r.(models) ∧ model_key m = (p, n).
Proof.
  unfold lookup_model. induction (models r) as [|x l IH]; simpl; intros Hnd.
  { split; [done|]. intros [Hm _]. by apply not_elem_of_nil in Hm. }
  apply NoDup_cons in Hnd as [Hx Hnd]. rewrite elem_of_cons. destruct (same_model p n x) eqn:E.
  - apply same_model_key in E. split; [naive_solver|]. intros [[->|Hm] Hk]; [done|].
    exfalso. apply Hx. rewrite E, <- Hk. by apply list_elem_of_fmap_2.
  - rewrite IH by done. split; [naive_solver|]. intros [[->|Hm] Hk]; [|done].
    by rewrite (proj2 (same_model_key p n x) Hk) in E.
Qed.

Lemma check_candidates_ok cs :
  check_candidates cs = Ok tt →
  Forall (λ c, check_provider_id c.(ref_provider_id) = Ok tt
               ∧ validate_model_name c.(ref_model) = Ok tt) cs.
Proof.
  induction cs as [|c cs IH]; simpl; [constructor|].
  destruct (check_provider_id _) as [[]|] eqn:E1; [|done].
  destruct (validate_model_name _) as [[]|] eqn:E2; [|done]. intros Hc. constructor; auto.
Qed.

Lemma check_alias_ok r alias cs :
  check_alias r alias cs = Ok tt →
  alias ∉ map alias_name r.(aliases) ∧ alias_ok (mkAlias alias cs) ∧ len r.(aliases) < MAX_ALIASES.
Proof.
  unfold check_alias. destruct (existsb _ (aliases r)) eqn:Ed; [done|]. cbn [negb].
  destruct (validate_model_name alias) as [[]|] eqn:Ev; [|done].
  destruct (len cs =? 0) eqn:E0; [done|]. cbn [negb]. case_if; [|done].
  destruct (check_candidates cs) as [[]|] eqn:Ec; [|done]. case_if; [|done]. intros _.
  reflect_bools. pose proof (len_nonneg cs). split_and!; [|split_and!|done]; simpl; try done; try lia.
  - intros Hin. apply list_elem_of_fmap in Hin as (a & -> & Ha).
    apply existsb_false_iff with (x := a) in Ed; [|done]. by rewrite str_eqb_refl in Ed.
  - by apply check_candidates_ok.
Qed.

Lemma register_model_cases r m :
  (∃ e, register_model r m = (r, Err e))
  ∨ register_model r m
    = (mkProviderRegistry (r.(models) ++ [kept_entry m]) r.(aliases)
         (saturating_add64 r.(revision) 1), Ok tt)
    ∧ model_key (kept_entry m) ∉ map model_key r.(models) ∧ model_ok (kept_entry m)
    ∧ len r.(models) < MAX_REGISTERED_MODELS.
Proof.
  unfold register_model. destruct (lookup_model _ _ _) eqn:El; [eauto|].
  destruct (check_provider_id _) as [[]|] eqn:E1; [|eauto].
  destruct (validate_model_name _) as [[]|] eqn:E2; [|eauto].
  destruct (mr_capabilities m) as [|c cs] eqn:E3; [eauto|]. case_if; [eauto|]. reflect_bools.
  right. split_and!; [done|by apply lookup_model_None in El| |lia].
  split_and!; [exact E1|exact E2|simpl; by rewrite E3].
Qed.

Inductive RegistryOp :=
| OpModel (m : ModelRegistration)
| OpAlias (alias : string) (cs : list ModelRef).

Definition registry_apply (r : ProviderRegistry) (op : RegistryOp) : ProviderRegistry :=
  match op with
  | OpModel m => (register_model r m).1
  | OpAlias alias cs => (register_alias r alias cs).1
  end.

Definition registry_run (ops : list RegistryOp) : ProviderRegistry :=
  fold_left registry_apply ops provider_registry_new.

Lemma NoDup_map_snoc {A B} (f : A → B) l x :
  NoDup (map f l) → f x ∉ map f l → NoDup (map f (l ++ [x])).
Proof.
  intros Hl Hx. rewrite map_app. apply NoDup_app. simpl.
  split_and!; [done| |apply NoDup_singleton]. intros y Hy ->%list_elem_of_singleton. done.
Qed.

Lemma revision_room r :
  registry_wf r → saturating_add64 r.(revision) 1 = r.(revision) + 1.
Proof.
  intros (_ & Hm & _ & _ & Ha & _ & ->). unfold saturating_add64.
  unfold MAX_REGISTERED_MODELS, MAX_ALIASES, u64_max in *. lia.
Qed.

Lemma registry_apply_wf r op : registry_wf r → registry_wf (registry_apply r op).
Proof.
  intros Hwf. pose proof (revision_room r Hwf) as Hrev.
  destruct Hwf as (Hnd & Hlen & Hok & Hnda & Hlena & Haok & Hr) eqn:E. clear E.
  destruct op as [m|alias cs]; simpl.
  - destruct (register_model_cases r m) as [[e ->]|(-> & Hk & Hm & Hroom)]; [done|].
    unfold registry_wf. simpl. rewrite Hrev, Hr, len_app. change (len [kept_entry m]) with 1.
    split_and!; try done; try lia; [by apply NoDup_map_snoc|].
    apply Forall_app. split; [done|by constructor].
  - unfold register_alias. destruct (check_alias r alias cs) as [[]|] eqn:Ec; [|done].
    apply check_alias_ok in Ec as (Hfresh & Ha & Hroom).
    unfold registry_wf. simpl. rewrite Hrev, Hr, len_app. change (len [mkAlias alias cs]) with 1.
    split_and!; try done; try lia; [by apply NoDup_map_snoc|].
    apply Forall_app. split; [done|by constructor].
Qed.

Lemma registry_run_wf ops : registry_wf (registry_run ops).
Proof.
  unfold registry_run. assert (registry_wf provider_registry_new) as Hwf.
  { unfold registry_wf. simpl. split_and!; try done; constructor. }
  revert Hwf. generalize provider_registry_new. induction ops as [|op ops IH]; intros r Hwf; [done|].
  simpl. by apply IH, registry_apply_wf.
Qed.

(** ** Selection *)

(** The gates of a request, as a proposition. *)
Definition passes (q : SelectRequest) (m : RegisteredModel) : Prop :=
  (∀ c, c ∈ q.(required) → c ∈ m.(rm_capabilities))
  ∧ (∀ low, q.(min_context_window_tokens) = Some low → low ≤ m.(rm_context_window_tokens))
  ∧ (∀ high, q.(max_cost_weight) = Some high →
       effective_cost_weight m.(rm_input_cost_weight) ≤ high
       ∧ effective_cost_weight m.(rm_output_cost_weight) ≤ high).

Lemma request_matches_passes q m : request_matches q m = true ↔ passes q m.
Proof.
  unfold request_matches, passes. rewrite !andb_true_iff, forallb_forall.
  assert ((∀ c, In c (required q) → bool_decide (c ∈ rm_capabilities m) = true)
    ↔ ∀ c, c ∈ required q → c ∈ rm_capabilities m) as ->.
  { split; intros Hc c Hin.
    - apply list_elem_of_In in Hin. by apply Hc, bool_decide_eq_true in Hin.
    - apply bool_decide_eq_true, Hc. by apply list_elem_of_In. }
  destruct (min_context_window_tokens q) as [low|], (max_cost_weight q) as [high|];
    rewrite ?negb_true_iff, ?orb_false_iff, ?Z.ltb_ge, ?Z.gtb_ltb, ?Z.ltb_ge; naive_solver.
Qed.

(** The models a request may select: registered, through the gates, and named by
    the alias when there is one. *)
Definition eligible (r : ProviderRegistry) (q : SelectRequest) (m : RegisteredModel) : Prop :=
  m ∈ r.(models) ∧ passes q m
  ∧ ∀ alias, q.(sel_alias) = Some alias →
      ∃ cs c, resolve_alias r alias = Ok cs ∧ c ∈ cs
        ∧ model_key m = (c.(ref_provider_id), c.(ref_model)).

Definition ref_key (c : ModelRef) : string * string := (c.(ref_provider_id), c.(ref_model)).

Lemma alias_chain_elem r q cs m :
  NoDup (map model_key r.(models)) →
  m ∈ alias_chain r q cs ↔ m ∈ r.(models) ∧ passes q m ∧ ∃ c, c ∈ cs ∧ model_key m = ref_key c.
Proof.
  intros Hnd. induction cs as [|c cs IH]; simpl.
  { split; [intros Hm; by apply not_elem_of_nil in Hm|]. intros (_ & _ & c & Hc & _).
    by apply not_elem_of_nil in Hc. }
  setoid_rewrite elem_of_cons.
  destruct (lookup_model r (ref_provider_id c) (ref_model c)) as [x|] eqn:El.
  - apply lookup_model_Some in El as [Hx Hkx]; [|done].
    assert (∀ m, m ∈ models r → model_key m = ref_key c → m = x) as Huniq.
    { intros y Hy Hky. assert (Some y = Some x) as [= ->]; [|done].
      rewrite <- (proj2 (lookup_model_Some r _ _ y Hnd) (conj Hy Hky)).
      by apply lookup_model_Some. }
    destruct (request_matches q x) eqn:Em.
    + apply request_matches_passes in Em. rewrite elem_of_cons, IH. naive_solver.
    + assert (¬ passes q x) by (rewrite <- request_matches_passes; congruence).
      rewrite IH. naive_solver.
  - rewrite IH. apply lookup_model_None in El. split; [naive_solver|].
    intros (Hm & Hp & c' & [->|Hc] & Hk); [|naive_solver].
    exfalso. apply El. unfold ref_key in Hk. rewrite <- Hk. by apply list_elem_of_fmap_2.
Qed.

Lemma alias_chain_order r q cs :
  NoDup (map model_key r.(models)) →
  sublist (map model_key (alias_chain r q cs)) (map ref_key cs).
Proof.
  intros Hnd. induction cs as [|c cs IH]; simpl; [constructor|].
  destruct (lookup_model r (ref_provider_id c) (ref_model c)) as [x|] eqn:El; [|by constructor].
  apply lookup_model_Some in El as [_ Hk]; [|done].
  case_if; [|by constructor]. simpl. rewrite Hk. by constructor.
Qed.

Lemma entries_perm r : entries r ≡ₚ r.(models).
Proof. apply sort_by_perm. Qed.

Lemma entries_sorted r :
  NoDup (map model_key r.(models)) → StronglySorted (key_lt model_key) (entries r).
Proof. apply sort_by_key_strict. Qed.

(** The chain a request selects, before snapshotting. *)
Lemma chain_of_spec r q :
  NoDup (map model_key r.(models)) →
  match chain_of r q with
  | Ok ms => (∀ m, m ∈ ms ↔ eligible r q m)
      ∧ match q.(sel_alias) with
        | None => StronglySorted (key_lt model_key) ms
        | Some alias => ∃ cs, resolve_alias r alias = Ok cs
                              ∧ sublist (map model_key ms) (map ref_key cs)
        end
  | Err e => ∃ alias, q.(sel_alias) = Some alias ∧ e = UnknownAlias alias
                      ∧ alias ∉ map alias_name r.(aliases)
  end.
Proof.
  intros Hnd. unfold chain_of, eligible. destruct (sel_alias q) as [alias|] eqn:Ea.
  - destruct (resolve_alias r alias) as [cs|e] eqn:Er.
    + split; [|eexists; split; [done|by apply alias_chain_order]].
      intros m. rewrite alias_chain_elem by done. unfold ref_key. split.
      * intros (Hm & Hp & c & Hc & Hk). split_and!; [done|done|]. intros alias' [= <-]. eauto.
      * intros (Hm & Hp & Hal). destruct (Hal alias eq_refl) as (cs' & c & Hr & Hc & Hk).
        rewrite Er in Hr. simplify_eq. eauto.
    + exists alias. unfold resolve_alias in Er. destruct (find _ (aliases r)) eqn:Ef; [done|].
      simplify_eq. split_and!; [done|done|]. intros Hin.
      apply list_elem_of_fmap in Hin as (a & -> & Ha).
      rewrite find_None_iff in Ef. specialize (Ef a Ha). by rewrite str_eqb_refl in Ef.
  - split; [|by apply filter_sorted, entries_sorted].
    intros m. rewrite list_elem_of_In, filter_In, <- list_elem_of_In, request_matches_passes.
    rewrite (entries_perm r). naive_solver.
Qed.

(** ** Properties *)

(** The registry stays well formed through every history of registrations.
    Whatever is registered in whatever order, accepted or refused, models have
    distinct (provider, name) keys, valid names and at least one capability,
    aliases have distinct valid names and between one and
    [MAX_ALIAS_CANDIDATES] well-formed candidates, both tables respect their
    bounds, and the revision counts exactly the accepted mutations. *)
Theorem registry_history_wf ops : registry_wf (registry_run ops).
Proof. apply registry_run_wf. Qed.

(** Selection is exact.  A request without capabilities is refused.  A chain
    holds snapshots of exactly the eligible models (registered, through every
    gate, and named by the alias when there is one), in the declared order of
    the alias or in strict (provider, name) order.  [NoCandidate] is returned
    exactly when nothing is eligible, never falling through to models outside
    the alias, and [UnknownAlias] only for an alias that is not registered. *)
Theorem select_exact r q :
  registry_wf r →
  match select r q with
  | Ok chain =>
      q.(required) ≠ [] ∧ ∃ ms, chain = map from_entry ms ∧ ms ≠ []
      ∧ (∀ m, m ∈ ms ↔ eligible r q m)
      ∧ match q.(sel_alias) with
        | None => StronglySorted (key_lt model_key) ms
        | Some alias => ∃ cs, resolve_alias r alias = Ok cs
                              ∧ sublist (map model_key ms) (map ref_key cs)
        end
  | Err EmptyRequirement => q.(required) = []
  | Err (UnknownAlias alias) => q.(sel_alias) = Some alias ∧ alias ∉ map alias_name r.(aliases)
  | Err (NoCandidate detail) => detail = describe q ∧ ∀ m, ¬ eligible r q m
  | Err _ => False
  end.
Proof.
  intros (Hnd & _). unfold select. destruct (len (required q) =? 0) eqn:E0; cbn [negb].
  { reflect_bools. by apply len_zero. }
  pose proof (chain_of_spec r q Hnd) as Hc. destruct (chain_of r q) as [ms|e].
  - destruct Hc as [Hel Hord]. destruct ms as [|m ms].
    + split; [done|]. intros m Hm. apply Hel in Hm. by apply not_elem_of_nil in Hm.
    + split; [intros Hr; by rewrite Hr in E0|]. by exists (m :: ms).
  - destruct Hc as (alias & Ha & -> & Hn). done.
Qed.

Lemma lookup_model_perm r1 r2 p n :
  NoDup (map model_key r1.(models)) → r1.(models) ≡ₚ r2.(models) →
  lookup_model r1 p n = lookup_model r2 p n.
Proof.
  intros Hnd Hp. assert (NoDup (map model_key r2.(models))) as Hnd2 by by rewrite <- Hp.
  apply option_eq. intros m. rewrite !lookup_model_Some by done. by rewrite Hp.
Qed.

Lemma alias_chain_perm r1 r2 q cs :
  NoDup (map model_key r1.(models)) → r1.(models) ≡ₚ r2.(models) →
  alias_chain r1 q cs = alias_chain r2 q cs.
Proof.
  intros Hnd Hp. induction cs as [|c cs IH]; simpl; [done|].
  by rewrite (lookup_model_perm r1 r2), IH.
Qed.

Lemma entries_unique r1 r2 :
  NoDup (map model_key r1.(models)) → r1.(models) ≡ₚ r2.(models) → entries r1 = entries r2.
Proof. intros Hnd Hp. apply sort_by_key_unique; [by rewrite <- Hp|done]. Qed.

Lemma resolve_alias_perm r1 r2 alias :
  NoDup (map alias_name r1.(aliases)) → r1.(aliases) ≡ₚ r2.(aliases) →
  resolve_alias r1 alias = resolve_alias r2 alias.
Proof.
  assert (∀ l a, NoDup (map alias_name l) →
    find (λ a, str_eqb (alias_name a) alias) l = Some a ↔ a ∈ l ∧ alias_name a = alias) as Hfind.
  { induction l as [|x l IH]; intros a Hnd; simpl.
    { split; [done|]. intros [Ha _]. by apply not_elem_of_nil in Ha. }
    apply NoDup_cons in Hnd as [Hx Hnd]. rewrite elem_of_cons.
    destruct (str_eqb (alias_name x) alias) eqn:E.
    - apply str_eqb_eq in E as <-. split; [naive_solver|]. intros [[->|Ha] Hn]; [done|].
      exfalso. apply Hx. rewrite <- Hn. by apply list_elem_of_fmap_2.
    - apply str_eqb_neq in E. rewrite IH by done. naive_solver. }
  intros Hnd Hp. assert (NoDup (map alias_name r2.(aliases))) as Hnd2 by by rewrite <- Hp.
  unfold resolve_alias.
  assert (find (λ a, str_eqb (alias_name a) alias) r1.(aliases)
          = find (λ a, str_eqb (alias_name a) alias) r2.(aliases)) as ->; [|done].
  apply option_eq. intros a. rewrite !Hfind by done. by rewrite Hp.
Qed.

(** Selection does not depend on registration order.  Two registries with the
    same models and the same aliases, registered in any order, answer every
    request with the same chain or the same error. *)
Theorem select_order_independent r1 r2 q :
  registry_wf r1 → r1.(models) ≡ₚ r2.(models) → r1.(aliases) ≡ₚ r2.(aliases) →
  select r1 q = select r2 q.
Proof.
  intros (Hnd & _ & _ & Hnda & _) Hm Ha. unfold select, chain_of.
  rewrite (entries_unique r1 r2) by done. destruct (sel_alias q) as [alias|]; [|done].
  rewrite (resolve_alias_perm r1 r2) by done. destruct (resolve_alias r2 alias); [|done].
  by rewrite (alias_chain_perm r1 r2).
Qed.

(** The cost ceiling of routing bounds what accounting charges.  For every
    model a request with ceiling [high] selects, the cost of any usage is at
    most [high] per token; an uncalibrated weight counts as one on both sides,
    so a ceiling of zero selects nothing. *)
Theorem ceiling_bounds_cost r q chain high s input output :
  registry_wf r → select r q = Ok chain → q.(max_cost_weight) = Some high → s ∈ chain →
  0 ≤ input → 0 ≤ output →
  selected_cost s input output ≤ (input + output) * high ∧ (0 ≤ s.(sm_input_cost_weight) → 1 ≤ high).
Proof.
  intros (Hnd & _) Hsel Hmax Hs Hi Ho. unfold select in Hsel. case_if_in Hsel; [|done].
  pose proof (chain_of_spec r q Hnd) as Hc. destruct (chain_of r q) as [ms|]; [|done].
  destruct Hc as [Hel _]. destruct ms as [|m0 ms]; [done|]. injection Hsel as <-.
  change (from_entry m0 :: map from_entry ms) with (map from_entry (m0 :: ms)) in Hs.
  apply list_elem_of_fmap in Hs as (m & -> & Hm). apply Hel in Hm as (_ & (_ & _ & Hcost) & _).
  destruct (Hcost high Hmax) as [Hin Hout]. split.
  - unfold selected_cost, estimate_cost, saturating_add64, saturating_mul64. simpl. nia.
  - simpl. unfold effective_cost_weight in Hin. case_if_in Hin; reflect_bools; lia.
Qed.

(** ** Witnesses *)

Definition demo_model (provider name : string) (window weight : Z) : ModelRegistration :=
  mkRegistration provider name [Text; ToolUse] window weight 0.

Definition demo_ops : list RegistryOp :=
  [OpModel (demo_model "remote" "big" 200000 5); OpModel (demo_model "local" "small" 8000 1);
   OpAlias "fast" [mkModelRef "local" "gone"; mkModelRef "local" "small"]].

Definition demo_registry : ProviderRegistry := registry_run demo_ops.

Definition demo_select (alias : option string) (high : Z) : SelectRequest :=
  mkSelectRequest [Text] alias None (Some high).

(** Without an alias the order is lexicographic; the alias skips its stale
    candidate; a ceiling of zero admits nothing. *)
Example select_demo :
  map (map sm_name) (match select demo_registry (demo_select None 9) with Ok c => [c] | Err _ => [] end)
    = [["small"; "big"]]
  ∧ map (map sm_name) (match select demo_registry (demo_select (Some "fast") 9) with
                       | Ok c => [c] | Err _ => [] end) = [["small"]]
  ∧ select demo_registry (demo_select None 0)
    = Err (NoCandidate "1 capabilities max_cost=0").
Proof. vm_compute. done. Qed.

Lemma demo_registry_wf : registry_wf demo_registry.
Proof. apply registry_run_wf. Qed.

Lemma select_exact_witness :
  ∃ ms, select demo_registry (demo_select (Some "fast") 9) = Ok (map from_entry ms)
    ∧ ∀ m, m ∈ ms ↔ eligible demo_registry (demo_select (Some "fast") 9) m.
Proof.
  pose proof (select_exact demo_registry (demo_select (Some "fast") 9) demo_registry_wf) as Hs.
  destruct (select demo_registry (demo_select (Some "fast") 9)) as [chain|e] eqn:E;
    [|vm_compute in E; discriminate].
  destruct Hs as (_ & ms & -> & _ & Hel & _). exists ms. split; [reflexivity|exact Hel].
Defined.

(** The same registrations, models in the other order. *)
Definition demo_registry' : ProviderRegistry :=
  registry_run [OpModel (demo_model "local" "small" 8000 1);
    OpAlias "fast" [mkModelRef "local" "gone"; mkModelRef "local" "small"];
    OpModel (demo_model "remote" "big" 200000 5)].

Lemma select_order_independent_witness :
  models demo_registry ≠ models demo_registry'
  ∧ select demo_registry (demo_select None 9) = select demo_registry' (demo_select None 9).
Proof.
  split; [vm_compute; discriminate|].
  apply (select_order_independent demo_registry demo_registry' (demo_select None 9) demo_registry_wf).
  - vm_compute. apply Permutation_swap.
  - vm_compute. reflexivity.
Defined.

Lemma ceiling_bounds_cost_witness :
  ∃ s, selected_cost s 100 20 ≤ (100 + 20) * 9 ∧ (0 ≤ s.(sm_input_cost_weight) → 1 ≤ 9).
Proof.
  exists (mkSelected "remote" "big" [Text; ToolUse] 200000 5 0).
  refine (ceiling_bounds_cost demo_registry (demo_select None 9) _ 9 _ 100 20 demo_registry_wf
    _ eq_refl _ _ _); [vm_compute; reflexivity| | |].
  - apply list_elem_of_In. right. left. reflexivity.
  - vm_compute. discriminate.
  - vm_compute. discriminate.
Defined.
