(* ===== verification/Reconcile.v ===== *)
(** * Reconcile: bounded status queries for uncertain effects

    Models [reconcile.rs]: the query budget and its hard caps, the deterministic
    backoff, the taxonomy of answers, the escalation report and the scripted
    reconciler.  The driver that uses them is in [Agent.v]. *)

From S2P Require Import Prelude Text Session ToolTypes.

Local Open Scope Z_scope.

Definition DEFAULT_MAX_UNKNOWN_RETRIES : Z := 3.
Definition DEFAULT_RECONCILE_BASE_DELAY_MS : Z := 100.
Definition DEFAULT_RECONCILE_MAX_DELAY_MS : Z := 5000.
Definition MAX_RECONCILE_ATTEMPTS : Z := 16.
Definition MAX_RECONCILE_DELAY_MS : Z := 30000.

Record ReconcileConfig := mkReconcileConfig {
  max_unknown_retries : Z;
  base_delay_ms : Z;
  max_delay_ms : Z
}.

(** [ReconcileConfig::effective_retries] *)
Definition effective_retries (c : ReconcileConfig) : Z :=
  Z.min c.(max_unknown_retries) MAX_RECONCILE_ATTEMPTS.

(** [ReconcileConfig::effective_max_delay_ms] *)
Definition effective_max_delay_ms (c : ReconcileConfig) : Z :=
  Z.min c.(max_delay_ms) MAX_RECONCILE_DELAY_MS.

Inductive ReconcileStatus :=
| Resolved (status : ToolStatus)
| Pending (reason : string).

Record UnknownEscalation := mkEscalation {
  esc_tool : string;
  esc_reason : string;
  esc_attempts : Z;
  esc_dispatched : Z;
  esc_delays_ms : list Z
}.

(** [Display for UnknownEscalation] *)
Definition UnknownEscalation_to_string (e : UnknownEscalation) : string :=
  "tool " +:+ e.(esc_tool) +:+ " effect unreconciled after " +:+ show e.(esc_attempts)
    +:+ " queries: " +:+ e.(esc_reason).

Inductive ReconcileOutcome :=
| OutcomeResolved (status : ToolStatus) (attempts : Z) (delays_ms : list Z)
| NoUnknown
| Escalated (report : UnknownEscalation).

(** The [while index < attempt.min(30)] loop. *)
Fixpoint delay_loop (n : nat) (delay ceiling : Z) : Z :=
  match n with
  | O => delay
  | S n =>
      let delay := Z.min (saturating_mul64 delay 2) ceiling in
      if delay >=? ceiling then delay else delay_loop n delay ceiling
  end.

Definition reconcile_delay_ms (attempt base_delay_ms max_delay_ms : Z) : Z :=
  let ceiling := Z.min max_delay_ms MAX_RECONCILE_DELAY_MS in
  let delay := Z.min base_delay_ms ceiling in
  Z.min (delay_loop (Z.to_nat (Z.min attempt 30)) delay ceiling) ceiling.

Definition is_reconcile_terminal (s : ToolStatus) : bool :=
  match s with
  | StatusSuccess | StatusFailed _ | StatusDenied _ | StatusRefused _ => true
  | StatusUnknown _ => false
  end.

Definition is_retry_eligible (s : ToolStatus) (inspected_or_directed has_current_grant : bool) :
    bool :=
  inspected_or_directed && has_current_grant && is_reconcile_terminal s.

(** ** The scripted reconciler *)

Record FakeReconciler := mkFakeReconciler {
  fr_script : list ReconcileStatus;
  fr_queries : list (string * Z)
}.

(** [FakeReconciler::reconcile] *)
Definition FakeReconciler_reconcile (f : FakeReconciler) (tool : string) (execution_id now_ms : Z) :
    FakeReconciler * ReconcileStatus :=
  let queries := f.(fr_queries) ++ [(tool, execution_id)] in
  match f.(fr_script) with
  | [] => (mkFakeReconciler [] queries, Pending "still uncertain")
  | answer :: rest => (mkFakeReconciler rest queries, answer)
  end.

(** ** Lemmas *)

Lemma pow2_ge n : (0 ≤ n) → 1 ≤ 2 ^ n.
Proof. intros H. pose proof (Z.pow_pos_nonneg 2 n). lia. Qed.

(** The loop computes the capped power while the values fit the ceiling. *)
Lemma delay_loop_spec n : ∀ d ceiling,
  0 ≤ d ≤ ceiling → ceiling ≤ MAX_RECONCILE_DELAY_MS →
  delay_loop n d ceiling = Z.min (d * 2 ^ Z.of_nat n) ceiling.
Proof.
  induction n as [|n IH]; intros d ceiling Hd Hc; cbn [delay_loop].
  - rewrite Z.pow_0_r. lia.
  - rewrite Nat2Z.inj_succ, Z.pow_succ_r by lia.
    pose proof (pow2_ge (Z.of_nat n) ltac:(lia)).
    unfold saturating_mul64, u64_max, MAX_RECONCILE_DELAY_MS in *.
    rewrite (Z.min_l (d * 2)) by lia. case_if; reflect_bools.
    + rewrite Z.min_r by lia. symmetry. apply Z.min_r. nia.
    + rewrite IH by lia. f_equal. rewrite Z.min_l by lia. ring.
Qed.

(** ** Properties *)

(** The backoff schedule is exactly exponential with a ceiling.  For every
    attempt, however large, and every [u64] bounds,
    [reconcile_delay_ms] is the minimum of [base * 2 ^ attempt], the caller's
    ceiling and the hard ceiling of 30 seconds: the 30-step cut-off and the
    saturation never show, delays never wrap and never decrease. *)
Theorem reconcile_delay_exact attempt base ceiling :
  0 ≤ attempt → is_u64 base → is_u64 ceiling →
  reconcile_delay_ms attempt base ceiling
    = Z.min (base * 2 ^ attempt) (Z.min ceiling MAX_RECONCILE_DELAY_MS)
  ∧ reconcile_delay_ms attempt base ceiling ≤ reconcile_delay_ms (attempt + 1) base ceiling.
Proof.
  intros Ha Hb Hc.
  assert (∀ n, 0 ≤ n → reconcile_delay_ms n base ceiling
    = Z.min (base * 2 ^ n) (Z.min ceiling MAX_RECONCILE_DELAY_MS)) as Hspec.
  { intros n Hn. unfold reconcile_delay_ms. unfold is_u64 in *.
    set (c := Z.min ceiling MAX_RECONCILE_DELAY_MS).
    assert (0 ≤ c ≤ MAX_RECONCILE_DELAY_MS) as Hcc by (unfold c, MAX_RECONCILE_DELAY_MS; lia).
    rewrite delay_loop_spec by lia. rewrite Z2Nat.id by lia.
    destruct (decide (n ≤ 30)) as [Hle|Hgt].
    - rewrite (Z.min_l n 30) by lia. pose proof (pow2_ge n Hn). nia.
    - rewrite (Z.min_r n 30) by lia.
      pose proof (Z.pow_le_mono_r 2 30 n ltac:(lia) ltac:(lia)).
      unfold MAX_RECONCILE_DELAY_MS in Hcc. change (2 ^ 30) with 1073741824 in *.
      destruct (decide (base = 0)) as [->|]; [rewrite Z.min_l, !Z.mul_0_l; lia|].
      destruct (decide (c = 0)) as [->|]; [nia|].
      rewrite (Z.min_r (base * 2 ^ n) c), (Z.min_r (_ * 1073741824) c) by nia. lia. }
  split; [by apply Hspec|]. rewrite !Hspec by lia.
  rewrite Z.pow_add_r by lia. pose proof (pow2_ge attempt Ha). unfold is_u64 in *. nia.
Qed.

Lemma reconcile_delay_exact_witness :
  reconcile_delay_ms 100 100 5000 = Z.min (100 * 2 ^ 100) (Z.min 5000 MAX_RECONCILE_DELAY_MS).
Proof.
  apply (reconcile_delay_exact 100 100 5000); [done|by split|by split].
Defined.
