(* ===== verification/Turn.v ===== *)
(** * Turn: the turn loop as a state machine

    Every state change of [run_turn] ([Agent.v]) is one of the steps of
    [turn_step]; every way out of the loop is one of the ends of [turn_end].
    [run_turn_spec] shows that the executable loop only takes those steps and
    ends, and the properties of whole turns follow by induction on the steps. *)

From S2P Require Import Prelude Text Session Stream ToolTypes Prompt Consent ToolBus Context Assembly.
From S2P Require Import Provider Reconcile Agent.

Local Open Scope Z_scope.

Section Machine.
Context {W : Type} `{Host W}.
Implicit Types (a : Agent W) (w : W).

(** ** Steps and ends *)

Definition push_record (r : ExecutionRecord) a : Agent W := with_executions (a.(executions) ++ [r]) a.

(** The record a dispatch leaves, whatever the executor answered. *)
Definition dispatch_record (id : Z) (call : ToolCall) (r : result ToolExecution ToolError) :
    ExecutionRecord :=
  match r with
  | Ok e => mkRecord e.(execution_id) e.(tool) e.(status) e.(result_disposition)
  | Err error =>
      mkRecord id call.(call_name)
        (StatusFailed (bound_reason (ToolError_to_string (ToolError_normalized error)))) Accepted
  end.

(** The two gates of the agent in front of the bus. *)
Definition gated a (call : ToolCall) : Prop :=
  in_allow_set a.(allowed_tools) call.(call_name) ∧ prompt_allows a call.(call_name) = Ok tt.

(** One state change of the loop; the label counts contacts of the provider. *)
Inductive turn_step : nat → Agent W * W → Agent W * W → Prop :=
| ts_complete a w request w' ops r :
    complete w request = (w', ops, r) → is_cancelled a.(session) = false →
    turn_step 1 (a, w) (after_ops ops a, w')
| ts_cost a w c : turn_step 0 (a, w) (with_cost c a, w)
| ts_emit a w fs a' w' r :
    emit_batch a w fs = (a', w', r) → turn_step 0 (a, w) (a', w')
| ts_dispatch a w call id ids' now tools' w' ops r :
    is_cancelled a.(session) = false → len a.(executions) < MAX_EXECUTIONS_PER_AGENT →
    IdIssuer_execution a.(ids) = Some (id, ids') → gated a call →
    dispatch_narrowed execute a.(tools) w call (auth_base a) id now a.(allowed_tools)
      = (tools', w', ops, r) →
    turn_step 0 (a, w)
      (push_record (dispatch_record id call r) (after_ops ops (with_tools tools' (with_ids ids' a))),
       w')
| ts_record a w c s :
    s = a.(artifacts) ∨ (∃ bs g r, store a.(artifacts) bs g = (s, r)) →
    turn_step 0 (a, w) (with_history (a.(tool_history) ++ c) (with_artifacts s a), w)
| ts_advisory a w f : turn_step 0 (a, w) (with_advisory f a, w)
| ts_mint a w id ids' r :
    len a.(executions) < MAX_EXECUTIONS_PER_AGENT →
    IdIssuer_execution a.(ids) = Some (id, ids') → r.(xr_execution_id) = id →
    turn_step 0 (a, w) (push_record r (with_ids ids' a), w).

Inductive turn_steps : nat → Agent W * W → Agent W * W → Prop :=
| steps_nil s : turn_steps 0 s s
| steps_cons n k s1 s2 s3 : turn_step n s1 s2 → turn_steps k s2 s3 → turn_steps (n + k) s1 s3.

Definition is_cost_error (e : AgentError) : bool :=
  match e with CostCeilingExceeded _ _ => true | _ => false end.

(** How the loop returns from a state, with the state it leaves. *)
Inductive turn_end : Agent W → Agent W → ExecOutcome → Prop :=
| te_fail a e : is_cost_error e = false → turn_end a (fail a e).1 (OutFailed e)
| te_cancel a : is_cancelled a.(session) = true → turn_end a a (reconcile_cancel a)
| te_unknown a reason tool :
    existsb is_unknown a.(executions) = true → turn_end a a (unknown a reason tool)
| te_completed a text :
    is_cancelled a.(session) = false →
    turn_end a (with_session (finish false a.(session)) a) (OutCompleted text)
| te_cost a limit :
    a.(config).(max_turn_cost) = Some limit → limit < a.(turn_cost) →
    turn_end a a (OutFailed (CostCeilingExceeded limit a.(turn_cost))).

(** What a piece of the loop did, with at most [n] provider contacts. *)
Definition flow_spec (n : nat) (s : Agent W * W) (f : flow) : Prop :=
  match f with
  | Next a' w' _ => ∃ k, (k ≤ n)%nat ∧ turn_steps k s (a', w')
  | Stop a' w' o => ∃ k a1, (k ≤ n)%nat ∧ turn_steps k s (a1, w') ∧ turn_end a1 a' o
  | Panic =>
      ∃ k a1 w1, turn_steps k s (a1, w1) ∧ len a1.(executions) < MAX_EXECUTIONS_PER_AGENT
        ∧ IdIssuer_execution a1.(ids) = None
  end.

Lemma steps_trans n k s1 s2 s3 :
  turn_steps n s1 s2 → turn_steps k s2 s3 → turn_steps (n + k) s1 s3.
Proof.
  induction 1 as [|n m s1 s2 s2' Hs Hss IH]; intros H3; [done|].
  rewrite <- Nat.add_assoc. econstructor; [done|]. by apply IH.
Qed.

Lemma steps_one n s1 s2 : turn_step n s1 s2 → turn_steps n s1 s2.
Proof. intros Hs. rewrite <- (Nat.add_0_r n). econstructor; [done|constructor]. Qed.

Lemma flow_after n m s1 s2 f :
  turn_steps n s1 s2 → flow_spec m s2 f → flow_spec (n + m) s1 f.
Proof.
  intros Hs Hf. destruct f as [a w ms|a w o|]; simpl in *.
  - destruct Hf as (k & Hk & Hf). exists (n + k)%nat. split; [lia|]. by eapply steps_trans.
  - destruct Hf as (k & a1 & Hk & Hf & He). exists (n + k)%nat, a1.
    split_and!; [lia|by eapply steps_trans|done].
  - destruct Hf as (k & a1 & w1 & Hf & He). exists (n + k)%nat, a1, w1.
    split; [by eapply steps_trans|done].
Qed.

Lemma flow_weaken n m s f : (n ≤ m)%nat → flow_spec n s f → flow_spec m s f.
Proof.
  intros Hle. destruct f; simpl; [|..|done].
  - intros (k & ? & ?). exists k. split; [lia|done].
  - intros (k & a1 & ? & ? & ?). exists k, a1. split_and!; [lia|done|done].
Qed.

Lemma stop_now n s w a e : s = (a, w) → is_cost_error e = false → flow_spec n s (stop w (fail a e)).
Proof.
  intros -> He. exists 0%nat, a. split_and!; [lia|constructor|by constructor].
Qed.

(** ** Emission *)

Lemma emit_loop_cancelled (s : AgentSession * W) fs : ∀ index n start next s',
  emit_loop sink_emit (λ s, is_cancelled s.1) s fs index n start next = (s', Ok false) →
  is_cancelled s'.1 = true.
Proof.
  revert s. induction fs as [|f fs IH]; intros s index n start next s' E; simpl in E; [done|].
  destruct (is_cancelled s.1) eqn:Ec; [by simplify_eq|].
  destruct (sink_emit s _) as [s1 [[]|]]; [|done]. by eapply IH.
Qed.

Lemma emit_batch_cancelled a w fs a' w' :
  emit_batch a w fs = (a', w', Ok false) → is_cancelled a'.(session) = true.
Proof.
  unfold emit_batch, emit_fragments.
  destruct (len fs >? u32_max); [done|]. destruct (checked_add32 _ _) as [next|]; [|done].
  destruct (emit_loop _ _ _ _ _ _ _ _) as [[s w1] [[]|]] eqn:E.
  - simpl. destruct (is_cancelled s) eqn:Ec; [|done]. by intros [= <- <-].
  - intros [= <- <-]. by apply emit_loop_cancelled in E.
  - done.
Qed.

(** What emission can change of the agent: the session and the sequence. *)
Lemma emit_batch_frame a w fs a' w' r :
  emit_batch a w fs = (a', w', r) →
  ∃ s q, a' = with_seq q (with_session s a).
Proof.
  unfold emit_batch.
  destruct (emit_fragments _ _ _ _ _) as [[s w1] [[q|]|]]; intros [= <- <- <-].
  - by exists s, q.
  - exists s, (next_seq a). by destruct a.
  - exists s, (next_seq a). by destruct a.
Qed.

(** Both emitters of the loop are one batch. *)
Lemma emit_tool_card_batch a w e : ∃ fs, emit_tool_card a w e = emit_batch a w fs.
Proof. unfold emit_tool_card. by eexists. Qed.

Lemma emit_text_batch a w turn :
  emit_text a w turn = (a, w, Ok (negb (is_cancelled a.(session))))
  ∨ ∃ fs, emit_text a w turn = emit_batch a w fs.
Proof. unfold emit_text. case_if; [by left|]. right. by eexists. Qed.

(** ** The loop takes only those steps *)

Lemma attribute_is_push a e :
  attribute_execution a e
  = push_record (mkRecord e.(execution_id) e.(tool) e.(status) e.(result_disposition)) a.
Proof. done. Qed.

Lemma record_execution_steps a w e now a' r :
  record_execution a e now = (a', r) →
  turn_steps 0 (attribute_execution a e, w) (a', w)
  ∧ a'.(executions) = (attribute_execution a e).(executions).
Proof.
  unfold record_execution. set (a1 := attribute_execution a e). intros E. case_if_in E.
  - destruct (store (artifacts a1) (data e) (generation (session a1))) as [s [ref|err]] eqn:Es.
    + simplify_eq. split; [|done]. apply steps_one.
      apply (ts_record a1 w [_] s). right. eauto.
    + simplify_eq. split; [|done].
      assert (with_artifacts s a1 = with_history (tool_history a1 ++ []) (with_artifacts s a1)) as ->.
      { unfold with_history, with_artifacts. simpl. by rewrite app_nil_r. }
      apply steps_one, ts_record. right. eauto.
  - simplify_eq. split; [|done]. apply steps_one.
    apply (ts_record a1 w [_] (artifacts a1)). by left.
Qed.

Lemma existsb_unknown_last l id t reason d :
  existsb is_unknown (l ++ [mkRecord id t (StatusUnknown reason) d]) = true.
Proof. rewrite existsb_app. simpl. apply orb_true_r. Qed.

Lemma accept_execution_spec a w e ms now :
  flow_spec 0 (attribute_execution a e, w) (accept_execution a w e ms now).
Proof.
  unfold accept_execution.
  destruct (record_execution a e now) as [a1 [[]|err]] eqn:Er.
  2:{ apply record_execution_steps with (w := w) in Er as [Hs _].
      destruct (status e); destruct (result_disposition e); try (by apply stop_now).
      all: eapply (flow_after 0 0); [exact Hs|by apply stop_now]. }
  apply record_execution_steps with (w := w) in Er as [Hs Hx].
  set (a2 := with_advisory _ a1).
  assert (turn_steps 0 (attribute_execution a e, w) (a2, w)) as Hs2.
  { eapply (steps_trans 0 0); [exact Hs|]. apply steps_one. constructor. }
  assert (executions a2 = executions (attribute_execution a e)) as Hx2 by exact Hx.
  clearbody a2. clear Hs Hx a1.
  destruct (emit_tool_card_batch a2 w e) as [fs ->].
  destruct (emit_batch a2 w fs) as [[a3 w3] r] eqn:Ee.
  assert (turn_steps 0 (attribute_execution a e, w) (a3, w3)) as Hs3.
  { eapply (steps_trans 0 0); [exact Hs2|]. apply steps_one. by econstructor. }
  assert (executions a3 = executions (attribute_execution a e)) as Hx3.
  { destruct (emit_batch_frame _ _ _ _ _ _ Ee) as (s & q & ->). exact Hx2. }
  destruct (status e) as [|reason|reason|cause|reason] eqn:Est;
    destruct (result_disposition e) as [|cause'] eqn:Ed; try (by apply stop_now);
    (eapply (flow_after 0 0); [exact Hs3|]); destruct r as [[]|err];
    try (by apply stop_now);
    try (exists 0%nat; split; [lia|constructor]);
    try (exists 0%nat, a3; split_and!;
         [lia|constructor|constructor; by eapply emit_batch_cancelled]).
  exists 0%nat, a3. split_and!; [lia|constructor|]. constructor. rewrite Hx3.
  unfold attribute_execution. simpl. rewrite Est. apply existsb_unknown_last.
Qed.

(** ** Frames *)

Lemma dispatch_static (b : ToolBus W) w call base id now allowed b' w' ops r :
  dispatch_narrowed execute b w call base id now allowed = (b', w', ops, r) →
  b'.(registry) = b.(registry) ∧ b'.(authorizer) = b.(authorizer) ∧ b'.(consent) = b.(consent).
Proof.
  intros [(_ & outcome & _ & _ & ->)|(_ & _ & _ & cause & _ & ->)]%dispatch_cases.
  - destruct r as [e|]; [|done].
    by destruct (observed_frame (with_calls b (calls_this_turn b + 1)) call base now e)
      as (-> & -> & -> & _).
  - by destruct (observed_frame b call base now (refused id call cause)) as (-> & -> & -> & _).
Qed.

(** What no step changes. *)
Definition static a :=
  (a.(prompt), a.(allowed_tools), a.(config), a.(pending_unknown), a.(tools).(registry),
   a.(tools).(authorizer), a.(tools).(consent)).

Lemma step_static n s1 s2 : turn_step n s1 s2 → static s2.1 = static s1.1.
Proof.
  destruct 1 as [| |a w fs a' w' r Hb|a w call id ids' now tools' w' ops r _ _ _ _ Hd| | |];
    try done.
  - by destruct (emit_batch_frame _ _ _ _ _ _ Hb) as (s & q & ->).
  - unfold static. simpl. by destruct (dispatch_static _ _ _ _ _ _ _ _ _ _ _ Hd) as (-> & -> & ->).
Qed.

Lemma steps_static n s1 s2 : turn_steps n s1 s2 → static s2.1 = static s1.1.
Proof. induction 1 as [|n k s1 s2 s3 Hs _ IH]; [done|]. rewrite IH. by eapply step_static. Qed.

Lemma end_static a a' o : turn_end a a' o → static a' = static a.
Proof. by destruct 1. Qed.

Lemma static_gated a a' call : static a' = static a → gated a call → gated a' call.
Proof.
  intros [= Hp Ha _ _ Hr _ _]. unfold gated, prompt_allows, dispatcher_grants. by rewrite Hp, Ha, Hr.
Qed.

(** ** Calls, batches, rounds *)

Lemma dispatch_calls_spec cs ms now : ∀ a w,
  Forall (gated a) cs → flow_spec 0 (a, w) (dispatch_calls a w cs ms now).
Proof.
  revert ms. induction cs as [|call cs IH]; intros ms a w Hg; cbn [dispatch_calls].
  - exists 0%nat. split; [lia|constructor].
  - inversion Hg as [|? ? Hcall Hrest]; subst.
    destruct (is_cancelled (session a)) eqn:Ec.
    { exists 0%nat, a. split_and!; [lia|constructor|by constructor]. }
    case_if; reflect_bools; [by apply stop_now|].
    destruct (IdIssuer_execution (ids a)) as [[id ids']|] eqn:Ei.
    2:{ exists 0%nat, a, w. split_and!; [constructor|lia|done]. }
    destruct (dispatch_narrowed execute (tools (with_ids ids' a)) w call (auth_base (with_ids ids' a))
      id now (allowed_tools (with_ids ids' a))) as [[[tools' w'] ops] r] eqn:Ed.
    pose proof (ts_dispatch a w call id ids' now tools' w' ops r Ec ltac:(lia) Ei Hcall Ed) as Hstep.
    destruct r as [e|error].
    + pose proof (accept_execution_spec (after_ops ops (with_tools tools' (with_ids ids' a))) w' e ms now)
        as Hacc.
      apply steps_one in Hstep.
      pose proof (flow_after 0 0 _ _ _ Hstep Hacc) as Hflow. clear Hacc.
      destruct (accept_execution _ _ _ _ _) as [a2 w2 ms2|a2 w2 o|]; [|done..].
      destruct Hflow as (k & Hk & Hsteps). assert (k = 0)%nat as -> by lia.
      eapply (flow_after 0 0); [exact Hsteps|]. apply IH.
      apply steps_static in Hsteps. simpl in Hsteps.
      eapply Forall_impl; [exact Hrest|]. intros c. by apply static_gated.
    + eapply (flow_after 0 0); [by apply steps_one|]. by apply stop_now.
Qed.

Lemma narrowing_denial_None allowed cs :
  narrowing_denial_for_batch allowed cs = None →
  Forall (λ c, in_allow_set allowed c.(call_name)) cs.
Proof.
  induction cs as [|c cs IH]; simpl; [constructor|]. case_if; [done|].
  intros Hn. constructor; [by apply narrowing_omits_false|by apply IH].
Qed.

Lemma prompt_gate_None a cs :
  prompt_gate_denial a cs = None → Forall (λ c, prompt_allows a c.(call_name) = Ok tt) cs.
Proof.
  induction cs as [|c cs IH]; simpl; [constructor|].
  destruct (prompt_allows a (call_name c)) as [[]|] eqn:E; [|done].
  intros Hn. constructor; [done|by apply IH].
Qed.

Lemma refuse_batch_spec a w tool cause :
  flow_spec 0 (a, w) (stop_or_panic w (refuse_batch a tool cause)).
Proof.
  unfold refuse_batch. case_if; reflect_bools; [by apply stop_now|].
  destruct (IdIssuer_execution (ids a)) as [[id ids']|] eqn:Ei.
  - eapply (flow_after 0 0); [|by apply stop_now].
    apply steps_one. rewrite attribute_is_push. apply (ts_mint a w id ids'); [lia|done|done].
  - exists 0%nat, a, w. split_and!; [constructor|lia|done].
Qed.

Lemma run_batch_spec a w turn ms now : flow_spec 0 (a, w) (run_batch a w turn ms now).
Proof.
  unfold run_batch.
  destruct (narrowing_denial_for_batch _ _) as [[tool cause]|] eqn:En; [apply refuse_batch_spec|].
  destruct (prompt_gate_denial a _) as [[tool cause]|] eqn:Ep; [apply refuse_batch_spec|].
  destruct (precheck_narrowed _ _ _ _ _ _); [|by apply stop_now].
  apply dispatch_calls_spec. apply narrowing_denial_None in En. apply prompt_gate_None in Ep.
  rewrite Forall_forall in En. rewrite Forall_forall in Ep. apply Forall_forall.
  intros c Hc. split; [by apply En|by apply Ep].
Qed.

Lemma provider_unknown_spec a w provider reason :
  flow_spec 0 (a, w) (stop_or_panic w (provider_unknown a provider reason)).
Proof.
  unfold provider_unknown. case_if; reflect_bools; [by apply stop_now|].
  destruct (IdIssuer_execution (ids a)) as [[id ids']|] eqn:Ei.
  - eapply (flow_after 0 0 _ (push_record
      (mkRecord id (bound_reason provider) (StatusUnknown (bound_reason reason)) Accepted)
      (with_ids ids' a), w)).
    + apply steps_one, (ts_mint a w id ids'); [lia|done|done].
    + do 2 eexists. split_and!; [apply le_n|constructor|]. apply te_unknown.
      apply existsb_unknown_last.
  - exists 0%nat, a, w. split_and!; [constructor|lia|done].
Qed.

Lemma charge_round_spec a w request turn :
  let '(a', o) := charge_round a request turn in
  turn_steps 0 (a, w) (a', w) ∧ match o with None => True | Some o => turn_end a' a' o end.
Proof.
  unfold charge_round. destruct (round_usage request turn) as [i o].
  split; [apply steps_one; constructor|].
  destruct (max_turn_cost _) as [limit|] eqn:E; [|done]. case_if; [|done]. reflect_bools.
  by apply te_cost.
Qed.

Lemma emit_text_spec a w turn a' w' r :
  emit_text a w turn = (a', w', r) →
  turn_steps 0 (a, w) (a', w') ∧ (r = Ok false → is_cancelled a'.(session) = true).
Proof.
  destruct (emit_text_batch a w turn) as [->|[fs ->]].
  - intros [= <- <- <-]. split; [constructor|]. intros [= E]. by apply negb_false_iff.
  - intros E. split; [apply steps_one; by econstructor|]. intros ->.
    by eapply emit_batch_cancelled.
Qed.

Lemma run_round_spec a w model refs names_ budget ms now :
  is_cancelled a.(session) = false →
  flow_spec 1 (a, w) (run_round a w model refs names_ budget ms now).
Proof.
  intros Hc. unfold run_round.
  destruct (complete w _) as [[w1 ops] answer] eqn:Eq.
  pose proof (steps_one _ _ _ (ts_complete a w _ w1 ops answer Eq Hc)) as Hs.
  apply (flow_after 1 0 _ _ _ Hs). clear Hs Eq Hc. generalize (after_ops ops a). intros a1.
  destruct answer as [turn|e].
  2:{ destruct e; try (by apply stop_now). apply provider_unknown_spec. }
  match goal with |- context [charge_round a1 ?req turn] =>
    pose proof (charge_round_spec a1 w1 req turn) as Hch;
    destruct (charge_round a1 req turn) as [a2 [o|]] end; destruct Hch as [Hs Ho].
  { exists 0%nat, a2. split_and!; [lia|exact Hs|exact Ho]. }
  apply (flow_after 0 0 _ _ _ Hs). clear Hs Ho.
  destruct (emit_text a2 w1 turn) as [[a3 w3] r] eqn:Ee.
  destruct (emit_text_spec _ _ _ _ _ _ Ee) as [Hs Hcan]. apply (flow_after 0 0 _ _ _ Hs).
  destruct r as [[]|err]; [| |by apply stop_now].
  2:{ exists 0%nat, a3. split_and!; [lia|constructor|constructor; by apply Hcan]. }
  destruct (tool_calls turn) eqn:Et; [|apply run_batch_spec].
  destruct (is_cancelled (session a3)) eqn:Ec;
    (exists 0%nat, a3; split_and!; [lia|constructor|by constructor]).
Qed.

(** What a whole loop did. *)
Definition run_spec (n : nat) (s : Agent W * W) (r : run (Agent W * W * ExecOutcome)) : Prop :=
  match r with
  | Returned (a', w', o) => flow_spec n s (Stop a' w' o)
  | Panicked => flow_spec n s Panic
  | OutOfFuel => False
  end.

Lemma rounds_spec model refs names_ budget now fuel : ∀ a w ms round,
  0 ≤ round → (0 < fuel)%nat → a.(config).(max_rounds) - round < Z.of_nat fuel →
  run_spec (Z.to_nat (a.(config).(max_rounds) - round)) (a, w)
    (rounds fuel a w model refs names_ budget ms now round).
Proof.
  induction fuel as [|fuel IH]; intros a w ms round Hr Hpos Hf; cbn [rounds]; [lia|].
  destruct (is_cancelled (session a)) eqn:Ec.
  { exists 0%nat, a. split_and!; [lia|constructor|by constructor]. }
  case_if; reflect_bools.
  { exists 0%nat, a. split_and!; [lia|constructor|by constructor]. }
  pose proof (run_round_spec a w model refs names_ budget ms now Ec) as Hround.
  destruct (run_round _ _ _ _ _ _ _ _) as [a1 w1 ms1|a1 w1 o|]; [| |exact Hround].
  2:{ eapply flow_weaken; [|exact Hround]. lia. }
  destruct Hround as (k & Hk & Hs).
  pose proof (steps_static _ _ _ Hs) as Hst. simpl in Hst. injection Hst as _ _ Hcfg _ _ _ _.
  specialize (IH a1 w1 ms1 (round + 1)). rewrite Hcfg in IH.
  specialize (IH ltac:(lia) ltac:(lia) ltac:(lia)).
  set (m := Z.to_nat (max_rounds (config a) - (round + 1))) in *.
  assert (k + m ≤ Z.to_nat (max_rounds (config a) - round))%nat as Hkm by lia.
  destruct (rounds _ _ _ _ _ _ _ _ _ _) as [[[a2 w2] o]| |]; [| |done];
    exact (flow_weaken _ _ _ _ Hkm (flow_after k m _ _ _ Hs IH)).
Qed.

(** ** The whole turn *)

(** The agent [run_turn] hands to its loop or to an early failure. *)
Definition prepared (adv : option DirectiveScreenFlags) (s : ArtifactStore)
    (pending : list ExecutionRecord) a : Agent W :=
  with_pending pending (with_advisory adv (with_artifacts s a)).

Definition carried a : list ExecutionRecord * bool :=
  carry a.(pending_unknown) (List.filter is_unknown a.(executions)).

(** The ways a turn can go. *)
Inductive turn_case a w : run (Agent W * W * ExecOutcome) → Prop :=
| tc_cancelled :
    is_cancelled a.(session) = true → turn_case a w (Returned (a, w, OutCanceled 0 0))
| tc_terminated :
    is_cancelled a.(session) = false → is_active a.(session) = false →
    turn_case a w
      (Returned (a, w, OutFailed (AgentSessionError (AlreadyTerminated a.(session).(state)))))
| tc_early adv s pending e :
    is_active a.(session) = true → is_cost_error e = false →
    pending = a.(pending_unknown) ∨ pending = (carried a).1 →
    turn_case a w
      (Returned ((fail (prepared adv s pending a) e).1, w, OutFailed e))
| tc_loop adv s r :
    is_active a.(session) = true → (carried a).2 = false →
    run_spec (Z.to_nat a.(config).(max_rounds))
      (reset_turn (prepared adv s (carried a).1 a), w) r →
    turn_case a w r.

Lemma run_turn_spec a w model text seed now :
  turn_case a w (run_turn a w model text seed now).
Proof.
  unfold run_turn. destruct (is_cancelled (session a)) eqn:Ec; [by constructor|].
  destruct (is_active (session a)) eqn:Ea; cbn [negb]; [|by apply tc_terminated].
  assert (∀ e, is_cost_error e = false →
    turn_case a w (Returned ((fail a e).1, w, OutFailed e))) as Hfail.
  { intros e He. pose proof (tc_early a w (last_advisory a) (artifacts a) (pending_unknown a) e) as E.
    destruct a. apply E; [done..|by left]. }
  case_if; [by apply Hfail|]. clear Hfail.
  destruct (assemble _ _ _) as [s [assembled|e]].
  2:{ by apply (tc_early a w None s (pending_unknown a)); [| |left]. }
  cbv zeta. change (carry _ _) with (carried a).
  destruct (carried a) as [pending full] eqn:Ecar.
  pose proof (tc_early a w (Some (seed_flags (records assembled))) s pending) as Hearly.
  pose proof (tc_loop a w (Some (seed_flags (records assembled))) s) as Hloop.
  rewrite Ecar in Hearly, Hloop. destruct full.
  - apply Hearly; [done|done|by right].
  - apply Hloop; [done|done|]. cbv beta zeta.
    match goal with |- run_spec ?n _ (rounds ?k ?a1 _ _ _ _ _ ?ms _ _) =>
      pose proof (rounds_spec model (context_refs assembled) (names (registry (tools a1)))
        (effective_budget_bytes (config a)) now k a1 w ms 0) as Hr end.
    rewrite Z.sub_0_r in Hr. apply Hr; [done|lia|]. simpl. lia.
Qed.

End Machine.
