(* ===== verification/TurnSafety.v ===== *)
(** * TurnSafety: what whole turns guarantee

    Properties of [run_turn] and of the agent's other operations, proved by
    induction on the steps of [Turn.v]: turns return, effects are attributed to
    fresh consecutive ids and stay bounded, uncertain effects are never
    forgotten, outcomes agree with the session, the provider is contacted at
    most once per round, and no tool runs outside the agent's gates. *)

From S2P Require Import Prelude Text Session Stream ToolTypes Prompt Consent ToolBus Context Assembly.
From S2P Require Import Provider Reconcile Agent Turn.

Local Open Scope Z_scope.

Section Safety.
Context {W : Type} `{Host W}.
Implicit Types (a : Agent W) (w : W).

(** ** Attribution *)

Definition record_ids (l : list ExecutionRecord) : list Z := map xr_execution_id l.

(** The records of a turn that started at counter [base]. *)
Definition attributed (base : Z) a : Prop :=
  record_ids a.(executions) = seqZ (base + 1) (len a.(executions))
  ∧ a.(ids) = base + len a.(executions)
  ∧ len a.(executions) ≤ MAX_EXECUTIONS_PER_AGENT.

Lemma dispatch_record_id (b : ToolBus W) w call base id now allowed b' w' ops r :
  dispatch_narrowed execute b w call base id now allowed = (b', w', ops, r) →
  (dispatch_record id call r).(xr_execution_id) = id.
Proof.
  intros [(_ & outcome & _ & -> & _)|(_ & _ & _ & cause & -> & _)]%dispatch_cases; [|done].
  destruct (execution_of id call outcome) as [e|] eqn:E; [|done]. by apply execution_of_id in E as [E _].
Qed.

Lemma issue_id counter id next : IdIssuer_execution counter = Some (id, next) →
  id = counter + 1 ∧ next = counter + 1.
Proof.
  unfold IdIssuer_execution, IdIssuer_next, checked_add64. case_if; [|done]. by intros [= <- <-].
Qed.

Lemma attributed_push base a a' r :
  attributed base a → len a.(executions) < MAX_EXECUTIONS_PER_AGENT →
  executions a' = executions a ++ [r] → ids a' = ids a + 1 → r.(xr_execution_id) = ids a + 1 →
  attributed base a'.
Proof.
  intros (Hids & Hc & _) Hlen Hx Hi Hr. unfold attributed, record_ids in *. rewrite Hx, Hi.
  rewrite len_app. change (len [r]) with 1. split_and!; [|lia|lia].
  rewrite map_app, Hids. simpl. rewrite seqZ_app by len_lia.
  f_equal. rewrite Hr, Hc. change (seqZ (base + 1 + len (executions a)) 1) with
    [0 + (base + 1 + len (executions a))]. f_equal. lia.
Qed.

Lemma step_attributed base n s1 s2 :
  turn_step n s1 s2 → attributed base s1.1 → attributed base s2.1.
Proof.
  destruct 1 as [| |a w fs a' w' r Hb|a w call id ids' now tools' w' ops r _ Hl Hi _ Hd| | |
    a w id ids' r Hl Hi Hr]; try done; intros Ha.
  - by destruct (emit_batch_frame _ _ _ _ _ _ Hb) as (s & q & ->).
  - apply dispatch_record_id in Hd. apply issue_id in Hi as [-> ->].
    by eapply (attributed_push base a).
  - apply issue_id in Hi as [-> ->]. by eapply (attributed_push base a).
Qed.

Lemma steps_attributed base n s1 s2 :
  turn_steps n s1 s2 → attributed base s1.1 → attributed base s2.1.
Proof. induction 1 as [|n k s1 s2 s3 Hs _ IH]; [done|]. intros Ha. eapply IH, step_attributed; done. Qed.

Lemma end_keeps a a' o :
  turn_end a a' o → executions a' = executions a ∧ ids a' = ids a ∧ pending_unknown a' = pending_unknown a
  ∧ tools a' = tools a.
Proof. by destruct 1. Qed.

Lemma attributed_start adv s pending a :
  attributed (ids a) (reset_turn (prepared adv s pending a)).
Proof. unfold attributed. simpl. split_and!; [done|len_lia|done]. Qed.

Lemma attributed_end base a a' o : turn_end a a' o → attributed base a → attributed base a'.
Proof. intros He. destruct (end_keeps _ _ _ He) as (Hx & Hi & _). unfold attributed. by rewrite Hx, Hi. Qed.

(** ** Carrying uncertain effects *)

Lemma refresh_pending_spec r pending :
  match refresh_pending r pending with
  | Some pending' => record_ids pending' = record_ids pending
      ∧ r.(xr_execution_id) ∈ record_ids pending
      ∧ (is_unknown r → Forall is_unknown pending → Forall is_unknown pending')
  | None => r.(xr_execution_id) ∉ record_ids pending
  end.
Proof.
  induction pending as [|slot pending IH]; [by apply not_elem_of_nil|]. cbn [refresh_pending].
  case_if; reflect_bools.
  - split_and!; [done|simpl; set_solver|]. intros Hr Hp. inversion Hp; subst. by constructor.
  - destruct (refresh_pending r pending) as [pending'|]; simpl.
    + destruct IH as (-> & Hin & Hunk). split_and!; [done|set_solver|].
      intros Hr Hp. inversion Hp; subst. constructor; [done|by apply Hunk].
    + set_solver.
Qed.

(** The pending set: uncertain records with distinct ids below the counter, at
    most [MAX_EXECUTIONS_PER_AGENT] of them. *)
Definition pending_ok (counter : Z) (l : list ExecutionRecord) : Prop :=
  len l ≤ MAX_EXECUTIONS_PER_AGENT ∧ NoDup (record_ids l) ∧ Forall is_unknown l
  ∧ Forall (λ i, i ≤ counter) (record_ids l).

Lemma len_record_ids l : len (record_ids l) = len l.
Proof. unfold len, record_ids. by rewrite length_map. Qed.

Lemma carry_spec counter cs : ∀ pending,
  pending_ok counter pending → Forall is_unknown cs → Forall (λ i, i ≤ counter) (record_ids cs) →
  let '(pending', full) := carry pending cs in
  pending_ok counter pending' ∧ record_ids pending ⊆ record_ids pending'
  ∧ (full = false → record_ids cs ⊆ record_ids pending').
Proof.
  induction cs as [|r cs IH]; intros pending Hp Hu Hc; cbn [carry]; [set_solver|].
  inversion Hu as [|? ? Hr Hus]; subst. inversion Hc as [|? ? Hrc Hcs]; subst.
  pose proof (refresh_pending_spec r pending) as Hre.
  destruct Hp as (Hlen & Hnd & Hun & Hle).
  destruct (refresh_pending r pending) as [pending1|].
  - destruct Hre as (Hids & Hin & Hunk).
    assert (pending_ok counter pending1) as Hok.
    { unfold pending_ok. rewrite <- len_record_ids, Hids, len_record_ids. split_and!; try done.
      by apply Hunk. }
    specialize (IH pending1 Hok Hus Hcs). destruct (carry pending1 cs) as [pending' full].
    destruct IH as (? & Hsub & ?). split_and!; [done|by rewrite <- Hids|]. intros Hf.
    intros i. simpl. rewrite elem_of_cons. intros [->|]; [|set_solver]. apply Hsub. by rewrite Hids.
  - case_if; reflect_bools.
    { split_and!; [done|done|done]. }
    assert (pending_ok counter (pending ++ [r])) as Hok.
    { unfold pending_ok, record_ids in *. rewrite map_app. split_and!.
      - len_lia.
      - apply NoDup_app. simpl. split_and!; [done| |apply NoDup_singleton].
        intros i Hi ->%list_elem_of_singleton. done.
      - apply Forall_app. split; [done|by constructor].
      - apply Forall_app. split; [done|]. by constructor. }
    specialize (IH (pending ++ [r]) Hok Hus Hcs). destruct (carry _ cs) as [pending' full].
    destruct IH as (? & Hsub & ?). unfold record_ids in Hsub. rewrite map_app in Hsub. simpl in Hsub.
    split_and!; [done|unfold record_ids in *; set_solver|]. intros Hf.
    unfold record_ids in *. set_solver.
Qed.

(** ** The agent between turns *)

Definition agent_ok a : Prop :=
  pending_ok a.(ids) a.(pending_unknown)
  ∧ len a.(executions) ≤ MAX_EXECUTIONS_PER_AGENT ∧ NoDup (record_ids a.(executions))
  ∧ Forall (λ i, i ≤ a.(ids)) (record_ids a.(executions)).

(** An effect whose outcome is uncertain and that the agent still holds. *)
Definition tracked a (id : Z) : Prop :=
  id ∈ record_ids a.(pending_unknown)
  ∨ ∃ r, r ∈ a.(executions) ∧ r.(xr_execution_id) = id ∧ is_unknown r.

Lemma pending_ok_mono c c' l : c ≤ c' → pending_ok c l → pending_ok c' l.
Proof.
  intros Hle (? & ? & ? & Hall). split_and!; try done.
  eapply Forall_impl; [exact Hall|]. simpl. lia.
Qed.

Lemma filter_unknown_ids c l :
  Forall (λ i, i ≤ c) (record_ids l) →
  Forall is_unknown (List.filter is_unknown l)
  ∧ Forall (λ i, i ≤ c) (record_ids (List.filter is_unknown l)).
Proof.
  intros Hl. unfold record_ids in *. rewrite Forall_map in *.
  assert (∀ r, r ∈ List.filter is_unknown l → r ∈ l ∧ is_unknown r) as Hin.
  { intros r Hr. apply list_elem_of_In, filter_In in Hr as [Hr Hu].
    split; [by apply list_elem_of_In|by rewrite Hu]. }
  split; apply Forall_forall; intros r [Hr Hu]%Hin; [done|].
  rewrite Forall_forall in Hl. by apply Hl.
Qed.

Lemma carried_spec a :
  agent_ok a →
  pending_ok a.(ids) (carried a).1
  ∧ record_ids a.(pending_unknown) ⊆ record_ids (carried a).1
  ∧ ((carried a).2 = false →
     record_ids (List.filter is_unknown a.(executions)) ⊆ record_ids (carried a).1).
Proof.
  intros (Hp & _ & _ & Hx). destruct (filter_unknown_ids _ _ Hx) as [Hu Hi].
  pose proof (carry_spec (ids a) _ _ Hp Hu Hi) as Hc. unfold carried.
  by destruct (carry _ _).
Qed.

(** What a turn that returned did to the records. *)
Lemma run_turn_records a w model text seed now a' w' o :
  run_turn a w model text seed now = Returned (a', w', o) →
  a' = a
  ∨ (∃ pending, (pending = a.(pending_unknown) ∨ pending = (carried a).1)
      ∧ pending_unknown a' = pending ∧ executions a' = executions a ∧ ids a' = ids a)
  ∨ (pending_unknown a' = (carried a).1 ∧ (carried a).2 = false ∧ attributed a.(ids) a').
Proof.
  intros E. pose proof (run_turn_spec a w model text seed now) as Hcase. rewrite E in Hcase.
  inversion Hcase as [| |adv s pending e _ _ Hp|adv s r _ Hfull Hr]; subst; [by left|by left|..].
  - right; left. exists pending. by split_and!.
  - right; right. destruct Hr as (k & a1 & _ & Hs & He).
    pose proof (steps_attributed _ _ _ _ Hs (attributed_start adv s _ a)) as Ha.
    apply steps_static in Hs. simpl in Hs. injection Hs as _ _ _ Hpend _ _ _.
    split_and!; [|done|by eapply attributed_end].
    destruct (end_keeps _ _ _ He) as (_ & _ & -> & _). by rewrite Hpend.
Qed.

Lemma attributed_ids base a :
  attributed base a → NoDup (record_ids a.(executions))
  ∧ Forall (λ i, base < i ≤ a.(ids)) (record_ids a.(executions)) ∧ base ≤ a.(ids).
Proof.
  intros (Hids & Hc & _). rewrite Hids. split_and!; [apply NoDup_seqZ| |rewrite Hc; len_lia].
  apply Forall_forall. intros i. rewrite elem_of_seqZ. lia.
Qed.

Lemma run_turn_ok a w model text seed now a' w' o :
  run_turn a w model text seed now = Returned (a', w', o) → agent_ok a → agent_ok a'.
Proof.
  intros E Hok. pose proof (carried_spec a Hok) as (Hcar & _ & _).
  destruct Hok as (Hp & Hl & Hnd & Hle).
  destruct (run_turn_records _ _ _ _ _ _ _ _ _ E) as
    [->|[(pending & Hpend & Hp' & Hx & Hi)|(Hp' & _ & Ha)]]; unfold agent_ok.
  - done.
  - rewrite Hp', Hx, Hi. split_and!; [|done..]. by destruct Hpend as [->| ->].
  - destruct (attributed_ids _ _ Ha) as (Hnd' & Hall & Hmono). rewrite Hp'. split_and!.
    + by eapply pending_ok_mono.
    + apply Ha.
    + done.
    + eapply Forall_impl; [exact Hall|]. simpl. lia.
Qed.

(** ** Facts of the host that a turn carries over *)

(** A property of the session and the world that every emission keeps. *)
Lemma emit_loop_inv (P : AgentSession * W → Prop) fs : ∀ s index n start next,
  (∀ s c, P s → P (sink_emit s c).1) → P s →
  P (emit_loop sink_emit (λ s, is_cancelled s.1) s fs index n start next).1.
Proof.
  induction fs as [|f fs IH]; intros s index n start next Hemit Hs; cbn [emit_loop]; [done|].
  case_if; [done|].
  match goal with |- context [sink_emit s ?c] => pose proof (Hemit s c Hs) as Hs' end.
  destruct (sink_emit s _) as [s' [u|e]]; [|done]. by apply IH.
Qed.

Lemma emit_batch_inv (P : AgentSession * W → Prop) a w fs a' w' r :
  (∀ s c, P s → P (sink_emit s c).1) →
  emit_batch a w fs = (a', w', r) → P (a.(session), w) → P (a'.(session), w').
Proof.
  intros Hemit E Hp. unfold emit_batch, emit_fragments in E.
  destruct (len fs >? u32_max); [by simplify_eq|].
  destruct (checked_add32 _ _) as [next|]; [|by simplify_eq].
  pose proof (emit_loop_inv P fs (a.(session), w) 0 (len fs) (next_seq a) next Hemit Hp) as Hp'.
  destruct (emit_loop _ _ _ _ _ _ _ _) as [[s1 w1] [[]|]]; simpl in E, Hp'.
  - destruct (is_cancelled s1); by simplify_eq.
  - by simplify_eq.
  - by simplify_eq.
Qed.

(** A meter of provider contacts, as a host could keep one: only [complete]
    moves it, by at most one. *)
Class ContactMeter (m : W → Z) := {
  meter_complete w request : m (complete w request).1.1 ≤ m w + 1;
  meter_execute w tool args ctx : m (execute w tool args ctx).1.1 = m w;
  meter_emit w c : m (emit_chunk w c).1.1 = m w
}.

(** A log of the tool names an executor ran, in order. *)
Class ExecutionLog (log : W → list string) := {
  log_complete w request : log (complete w request).1.1 = log w;
  log_execute w tool args ctx : log (execute w tool args ctx).1.1 = log w ++ [tool];
  log_emit w c : log (emit_chunk w c).1.1 = log w
}.

Lemma emit_batch_world {X} (f : W → X) a w fs a' w' r :
  (∀ w c, f (emit_chunk w c).1.1 = f w) → emit_batch a w fs = (a', w', r) → f w' = f w.
Proof.
  intros Hf E. apply (emit_batch_inv (λ s, f s.2 = f w)) with (2 := E); [|done].
  intros s c <-. unfold sink_emit. rewrite <- (Hf s.2 c).
  by destruct (emit_chunk s.2 c) as [[w1 ops] r1].
Qed.

Lemma steps_meter m `{!ContactMeter m} n s1 s2 :
  turn_steps n s1 s2 → m s2.2 ≤ m s1.2 + Z.of_nat n.
Proof.
  induction 1 as [|n k s1 s2 s3 Hs _ IH]; [lia|].
  cut (m s2.2 ≤ m s1.2 + Z.of_nat n); [lia|]. clear IH.
  destruct Hs as [a w request w' ops r Hc _| |a w fs a' w' r Hb
    |a w call id ids' now tools' w' ops r _ _ _ _ Hd| | |]; simpl; try lia.
  - pose proof (meter_complete w request) as Hm. rewrite Hc in Hm. simpl in Hm. lia.
  - rewrite (emit_batch_world m _ _ _ _ _ _ (meter_emit) Hb). lia.
  - apply dispatch_cases in Hd as [(_ & outcome & Hx & _)|(_ & -> & _)]; [|lia].
    pose proof (meter_execute w (call_name call) (arguments call) (mkExecContext id now)) as Hm.
    rewrite Hx in Hm. simpl in Hm. lia.
Qed.

(** What every tool a turn runs has passed: the allow-set, the prompt gate, the
    registry, and a bus with both hooks installed. *)
Definition permitted a (name : string) : Prop :=
  in_allow_set a.(allowed_tools) name ∧ prompt_allows a name = Ok tt
  ∧ is_Some (lookup_tool a.(tools).(registry) name)
  ∧ is_Some a.(tools).(authorizer) ∧ is_Some a.(tools).(consent).

Lemma static_permitted a a' name : static a' = static a → permitted a' name → permitted a name.
Proof.
  intros [= Hp Ha _ _ Hr Hau Hc]. unfold permitted, prompt_allows, dispatcher_grants.
  by rewrite Hp, Ha, Hr, Hau, Hc.
Qed.

Lemma admitted_permitted a w call now :
  gated a call → admitted a.(tools) w (auth_base a) call now a.(allowed_tools) →
  permitted a call.(call_name).
Proof.
  intros [Hn Hp] (_ & (spec & hook & _ & Hl & _ & _ & Hh & _) & (sp & led & pid & _ & Hc & _) & _).
  unfold permitted. rewrite Hl, Hh, Hc. split_and!; by eauto.
Qed.

(** The tools the steps ran, against the bus counter. *)
Definition ran log `{!ExecutionLog log} (s1 s2 : Agent W * W) : Prop :=
  ∃ new, log s2.2 = log s1.2 ++ new ∧ Forall (permitted s1.1) new
    ∧ s2.1.(tools).(calls_this_turn) = s1.1.(tools).(calls_this_turn) + len new
    ∧ (s1.1.(tools).(calls_this_turn) ≤ MAX_TOOL_CALLS_PER_TURN →
       s2.1.(tools).(calls_this_turn) ≤ MAX_TOOL_CALLS_PER_TURN).

Lemma ran_nothing log `{!ExecutionLog log} s1 s2 :
  log s2.2 = log s1.2 → s2.1.(tools) = s1.1.(tools) → ran log s1 s2.
Proof.
  intros Hl Ht. exists []. rewrite app_nil_r, Ht. split_and!; [done|constructor|len_lia|done].
Qed.

Lemma step_ran log `{!ExecutionLog log} n s1 s2 : turn_step n s1 s2 → ran log s1 s2.
Proof.
  destruct 1 as [a w request w' ops r Hc _| |a w fs a' w' r Hb
    |a w call id ids' now tools' w' ops r _ _ _ Hg Hd| | |]; try by apply ran_nothing.
  - apply ran_nothing; [|done]. simpl. pose proof (log_complete w request) as Hl. by rewrite Hc in Hl.
  - apply ran_nothing; [by eapply emit_batch_world, Hb; apply log_emit|].
    by destruct (emit_batch_frame _ _ _ _ _ _ Hb) as (s & q & ->).
  - apply dispatch_cases in Hd as [(Had & outcome & Hx & _ & Hb)|(_ & -> & _ & cause & _ & Hb)].
    + pose proof (log_execute w (call_name call) (arguments call) (mkExecContext id now)) as Hl.
      rewrite Hx in Hl. exists [call_name call]. simpl in *.
      assert (calls_this_turn tools' = calls_this_turn (tools a) + 1) as ->.
      { rewrite Hb. destruct r; [apply observed_frame|done]. }
      split_and!; [done| |done|].
      * constructor; [|constructor]. by eapply admitted_permitted.
      * destruct Had as (_ & _ & _ & Hroom). lia.
    + exists []. simpl. rewrite app_nil_r, Hb.
      rewrite (proj2 (proj2 (proj2 (proj2 (observed_frame _ _ _ _ _))))).
      split_and!; [done|constructor|len_lia|done].
Qed.

Lemma steps_ran log `{!ExecutionLog log} n s1 s2 : turn_steps n s1 s2 → ran log s1 s2.
Proof.
  induction 1 as [|n k s1 s2 s3 Hs _ IH]; [by apply ran_nothing|].
  pose proof (step_static _ _ _ Hs) as Hst.
  destruct (step_ran log _ _ _ Hs) as (n1 & Hl1 & Hp1 & Hc1 & Hm1).
  destruct IH as (n2 & Hl2 & Hp2 & Hc2 & Hm2). exists (n1 ++ n2).
  rewrite Hl2, Hl1, app_assoc, len_app. split_and!; [done| |lia|auto].
  apply Forall_app. split; [done|]. eapply Forall_impl; [exact Hp2|].
  intros name. by apply static_permitted.
Qed.

(** ** Outcomes *)

Definition no_unknown a : Prop := existsb is_unknown a.(executions) = false.

(** Only a settled round is followed by another one or by completion. *)
Definition settled (f : flow) : Prop :=
  match f with
  | Next a' _ _ | Stop a' _ (OutCompleted _) => no_unknown a'
  | _ => True
  end.

Lemma emit_batch_records a w fs a' w' r :
  emit_batch a w fs = (a', w', r) → executions a' = executions a.
Proof. intros E. by destruct (emit_batch_frame _ _ _ _ _ _ E) as (s & q & ->). Qed.

Lemma settled_fail w a e : settled (stop w (fail a e)).
Proof. done. Qed.

Lemma settled_cancel w a : settled (Stop a w (reconcile_cancel a)).
Proof. simpl. unfold reconcile_cancel. by case_if. Qed.

Lemma settled_refusal a w tool cause : settled (stop_or_panic w (refuse_batch a tool cause)).
Proof. unfold refuse_batch. case_if; [done|]. by destruct (IdIssuer_execution _) as [[]|]. Qed.

Lemma settled_provider a w p r : settled (stop_or_panic w (provider_unknown a p r)).
Proof. unfold provider_unknown. case_if; [done|]. by destruct (IdIssuer_execution _) as [[]|]. Qed.

#[local] Hint Resolve settled_fail settled_cancel settled_refusal settled_provider : core.

Lemma accept_execution_settled a w e ms now :
  no_unknown a → settled (accept_execution a w e ms now).
Proof.
  intros Hn. unfold accept_execution.
  destruct (record_execution a e now) as [a1 [[]|err]] eqn:Er.
  2:{ destruct (status e); destruct (result_disposition e); auto. }
  apply (record_execution_steps _ w) in Er as [_ Hx].
  match goal with |- context [emit_tool_card ?a2 w e] =>
    destruct (emit_tool_card_batch a2 w e) as [fs ->];
    destruct (emit_batch a2 w fs) as [[a3 w3] r] eqn:Ee end.
  apply emit_batch_records in Ee. simpl in Ee.
  destruct (status e) eqn:Est; destruct (result_disposition e); auto;
    destruct r as [[]|err]; auto; [|..|done].
  all: unfold settled, no_unknown in *; rewrite Ee, Hx; unfold attribute_execution; simpl;
    rewrite existsb_app, Hn, Est; done.
Qed.

Lemma dispatch_calls_settled cs ms now : ∀ a w,
  no_unknown a → settled (dispatch_calls a w cs ms now).
Proof.
  revert ms. induction cs as [|call cs IH]; intros ms a w Hn; cbn [dispatch_calls]; [done|].
  case_if; [auto|]. case_if; [auto|].
  destruct (IdIssuer_execution _) as [[id ids']|]; [|done].
  destruct (dispatch_narrowed _ _ _ _ _ _ _ _) as [[[tools' w'] ops] [e|error]]; [|done].
  match goal with |- context [accept_execution ?a1 ?w1 e ms now] =>
    pose proof (accept_execution_settled a1 w1 e ms now Hn) as Hs;
    destruct (accept_execution a1 w1 e ms now) end; [|done..]. by apply IH.
Qed.

Lemma run_batch_settled a w turn ms now : no_unknown a → settled (run_batch a w turn ms now).
Proof.
  intros Hn. unfold run_batch. destruct (narrowing_denial_for_batch _ _) as [[]|]; [auto|].
  destruct (prompt_gate_denial _ _) as [[]|]; [auto|].
  destruct (precheck_narrowed _ _ _ _ _ _); [|auto]. by apply dispatch_calls_settled.
Qed.

Lemma run_round_settled a w model refs names_ budget ms now :
  no_unknown a → settled (run_round a w model refs names_ budget ms now).
Proof.
  intros Hn. unfold run_round. destruct (complete w _) as [[w1 ops] [turn|[]]]; auto.
  unfold charge_round. destruct (round_usage _ turn) as [i o].
  match goal with |- context [with_cost ?c ?b] => set (a2 := with_cost c b) end.
  assert (no_unknown a2) as Hn2 by done. clearbody a2.
  match goal with |- settled (match ?f with Some _ => _ | None => _ end) => destruct f eqn:Ef end.
  { destruct (max_turn_cost _); [|done]. case_if_in Ef; by simplify_eq. }
  assert (∀ a3 w3 r, emit_text a2 w1 turn = (a3, w3, r) → no_unknown a3) as Hemit.
  { intros a3 w3 r. destruct (emit_text_batch a2 w1 turn) as [->|[fs ->]].
    - by intros [= <- _ _].
    - intros Ee. unfold no_unknown. by rewrite (emit_batch_records _ _ _ _ _ _ Ee). }
  destruct (emit_text a2 w1 turn) as [[a3 w3] r]. specialize (Hemit _ _ _ eq_refl).
  destruct r as [[]|]; auto. destruct (tool_calls turn); [by case_if; auto|].
  by apply run_batch_settled.
Qed.

Lemma rounds_settled model refs names_ budget now fuel : ∀ a w ms round a' w' text,
  no_unknown a →
  rounds fuel a w model refs names_ budget ms now round = Returned (a', w', OutCompleted text) →
  no_unknown a'.
Proof.
  induction fuel as [|fuel IH]; intros a w ms round a' w' text Hn; cbn [rounds]; [done|].
  case_if. { unfold reconcile_cancel. by case_if. }
  case_if; [done|].
  pose proof (run_round_settled a w model refs names_ budget ms now Hn) as Hs.
  destruct (run_round _ _ _ _ _ _ _ _) as [a1 w1 ms1|a1 w1 o|]; [|by intros [= <- <- ->]|done].
  by apply IH.
Qed.

Lemma run_turn_settled a w model text seed now a' w' answer :
  run_turn a w model text seed now = Returned (a', w', OutCompleted answer) → no_unknown a'.
Proof.
  unfold run_turn. case_if; [done|]. case_if; [done|]. case_if; [done|].
  destruct (assemble _ _ _) as [s [assembled|e]]; [|done]. cbv zeta.
  destruct (carry _ _) as [pending []]; [done|]. by apply rounds_settled.
Qed.

(** A host that may cancel, elevate or rotate the session it was handed, and
    leaves finishing it to the agent. *)
Definition leaves_finish (op : SessionOp) : Prop :=
  match op with OpFinish _ => False | _ => True end.

Class AgentFinishes := {
  complete_leaves w request : Forall leaves_finish (complete w request).1.2;
  execute_leaves w tool args ctx : Forall leaves_finish (execute w tool args ctx).1.2;
  emit_leaves w c : Forall leaves_finish (emit_chunk w c).1.2
}.

Definition running (s : AgentSession) : Prop := s.(state) = Active ∨ s.(state) = Canceled.

Lemma apply_ops_running ops s : Forall leaves_finish ops → running s → running (apply_ops ops s).
Proof.
  intros Hops. revert s. induction Hops as [|op ops Hop _ IH]; intros s Hs; [done|]. simpl.
  apply IH. destruct Hs as [Hs|Hs]; [|right; by rewrite apply_op_terminal by (by rewrite Hs)].
  destruct op; simpl; unfold running, cancel, elevate, rotate_generation; [|done|..];
    break; simpl; auto.
Qed.

Lemma steps_running `{!AgentFinishes} n s1 s2 :
  turn_steps n s1 s2 → running s1.1.(session) → running s2.1.(session).
Proof.
  induction 1 as [|n k s1 s2 s3 Hs _ IH]; [done|]. intros Hr. apply IH. clear IH.
  destruct Hs as [a w request w' ops r Hc _| |a w fs a' w' r Hb
    |a w call id ids' now tools' w' ops r _ _ _ _ Hd| | |]; simpl; try done.
  - apply apply_ops_running; [|done]. pose proof (complete_leaves w request) as Hl.
    by rewrite Hc in Hl.
  - apply (emit_batch_inv (λ s, running s.1)) with (2 := Hb); [|done].
    intros s c Hrun. unfold sink_emit. pose proof (emit_leaves s.2 c) as Hl.
    destruct (emit_chunk s.2 c) as [[w1 ops] r1]. by apply apply_ops_running.
  - apply dispatch_cases in Hd as [(_ & outcome & Hx & _)|(_ & _ & -> & _)]; [|done].
    pose proof (execute_leaves w (call_name call) (arguments call) (mkExecContext id now)) as Hl.
    rewrite Hx in Hl. by apply apply_ops_running.
Qed.

(** What an outcome says of the session and of the records behind it. *)
Definition outcome_agrees a (o : ExecOutcome) : Prop :=
  let st := a.(session).(state) in
  match o with
  | OutCompleted _ => st = Completed ∧ no_unknown a
  | OutCanceled dispatched unknown =>
      st = Canceled ∧ no_unknown a ∧ dispatched = len a.(executions) ∧ unknown = 0
  | OutUnknown _ dispatched => running a.(session) ∧ ¬ no_unknown a ∧ dispatched = len a.(executions)
  | OutFailed e =>
      if is_cost_error e then running a.(session) else st = Failed ∨ st = Canceled
  end.

Lemma filter_unknown_zero l :
  len (List.filter is_unknown l) = 0 ↔ existsb is_unknown l = false.
Proof.
  induction l as [|r l IH]; [done|]. simpl. destruct (is_unknown r); simpl; [|done].
  rewrite len_cons. pose proof (len_nonneg (List.filter is_unknown l)). split; [lia|done].
Qed.

Lemma cancel_agrees a :
  is_cancelled a.(session) = true → outcome_agrees a (reconcile_cancel a).
Proof.
  intros Hc%is_cancelled_true. unfold reconcile_cancel, outcome_agrees, no_unknown.
  pose proof (filter_unknown_zero (executions a)) as Hz.
  pose proof (len_nonneg (List.filter is_unknown (executions a))).
  case_if; reflect_bools.
  - split_and!; [by right| |done]. intros Hn%Hz. lia.
  - split_and!; [done| |done|done]. apply Hz. lia.
Qed.

Lemma finish_running failed s :
  running s →
  (finish failed s).(state) = (if is_active s then if failed then Failed else Completed else Canceled).
Proof.
  intros [Hs|Hs]; unfold finish; unfold is_active; rewrite Hs; simpl; by rewrite ?Hs.
Qed.

Lemma end_agrees a a' o :
  turn_end a a' o → running a.(session) →
  match o with OutCompleted _ => a'.(session).(state) = Completed | _ => outcome_agrees a' o end.
Proof.
  destruct 1 as [a e He|a Hc|a reason tool Hu|a text Hc|a limit Hl Hlt]; intros Hr.
  - simpl. rewrite He, (finish_running true) by done. case_if; [by left|by right].
  - pose proof (cancel_agrees a Hc) as Ha. unfold reconcile_cancel in *. by case_if.
  - simpl. unfold no_unknown. rewrite Hu. by split_and!.
  - simpl. rewrite (finish_running false) by done. unfold is_active. unfold is_cancelled in Hc.
    destruct Hr as [Hs|Hs]; rewrite Hs in *; [done|]. by rewrite bool_decide_true in Hc.
  - done.
Qed.

(** ** Properties *)


(** The provider is contacted at most once per configured round.  For any
    meter of provider contacts that only [complete] moves, a turn raises it by
    at most [max_rounds], however the model, the tools and the sink behave. *)
Theorem run_turn_provider_contacts m `{!ContactMeter m} a w model text seed now a' w' o :
  0 ≤ a.(config).(max_rounds) →
  run_turn a w model text seed now = Returned (a', w', o) →
  m w' ≤ m w + a.(config).(max_rounds).
Proof.
  intros Hmax E. pose proof (run_turn_spec a w model text seed now) as Hcase. rewrite E in Hcase.
  inversion Hcase as [| |adv s pending e _ _ Hp|adv s r _ _ Hr]; subst; [lia..|].
  destruct Hr as (k & a1 & Hk & Hs & _). apply (steps_meter m) in Hs. simpl in Hs. lia.
Qed.

(** C4: uncertain effects are never forgotten.  Every effect the agent still
    tracks as unknown before a turn (carried from earlier turns or recorded in
    the last one) is tracked after it, whatever the turn's outcome: resetting
    the per-turn records never loses one, and a full pending set fails the turn
    instead of evicting. *)
Theorem run_turn_keeps_unknown a w model text seed now a' w' o id :
  agent_ok a → run_turn a w model text seed now = Returned (a', w', o) →
  tracked a id → tracked a' id.
Proof.
  intros Hok E Ht. pose proof (carried_spec a Hok) as (_ & Hsub & Hcar).
  destruct (run_turn_records _ _ _ _ _ _ _ _ _ E) as
    [->|[(pending & Hpend & Hp' & Hx & _)|(Hp' & Hfull & _)]]; unfold tracked in *.
  - done.
  - rewrite Hp', Hx. destruct Ht as [Ht|Ht]; [left|by right].
    destruct Hpend as [->| ->]; [done|by apply Hsub].
  - left. rewrite Hp'. destruct Ht as [Ht|(r & Hr & <- & Hu)]; [by apply Hsub|].
    apply (Hcar Hfull). unfold record_ids. apply list_elem_of_fmap_2, list_elem_of_In, filter_In.
    split; [by apply list_elem_of_In|by destruct (is_unknown r)].
Qed.

(** C3: outcomes tell the truth.  A turn on a session that is not active returns
    at once with the agent and the host untouched.  On an active session, with a
    host that leaves finishing to the agent, [Completed] means the session is
    completed and no recorded effect is uncertain; [Canceled] means it is
    cancelled, none is uncertain, and the reported count is the number of
    records; [Unknown] means some recorded effect is uncertain and the session
    is still open to reconciliation; [Failed] means the session failed (or was
    cancelled meanwhile), except for the cost fuse, which leaves it open. *)
Theorem run_turn_outcome_agrees `{!AgentFinishes} a w model text seed now a' w' o :
  run_turn a w model text seed now = Returned (a', w', o) →
  if is_active a.(session) then outcome_agrees a' o
  else a' = a ∧ w' = w
    ∧ o = (if is_cancelled a.(session) then OutCanceled 0 0
           else OutFailed (AgentSessionError (AlreadyTerminated a.(session).(state)))).
Proof.
  intros E. pose proof (run_turn_spec a w model text seed now) as Hcase. rewrite E in Hcase.
  inversion Hcase as [Hc|Hc Ha|adv s pending e Ha He Hp|adv s r Ha _ Hr]; subst.
  - assert (is_active (session a') = false) as ->; [|by rewrite Hc].
    unfold is_active. apply is_cancelled_true in Hc. by rewrite Hc.
  - by rewrite Ha, Hc.
  - rewrite Ha. simpl. rewrite He. left. unfold finish. by rewrite Ha.
  - rewrite Ha. apply is_active_true in Ha. destruct Hr as (k & a1 & _ & Hs & Hend).
    apply steps_running in Hs; [|by left]. pose proof (end_agrees _ _ _ Hend Hs) as Hag.
    destruct o; try done. split; [done|]. by eapply run_turn_settled.
Qed.

(** The names a turn adds to the executor's log. *)
Lemma run_turn_ran log `{!ExecutionLog log} a w model text seed now a' w' o :
  run_turn a w model text seed now = Returned (a', w', o) →
  ∃ new, log w' = log w ++ new ∧ Forall (permitted a) new ∧ len new ≤ MAX_TOOL_CALLS_PER_TURN.
Proof.
  intros E. pose proof (run_turn_spec a w model text seed now) as Hcase. rewrite E in Hcase.
  inversion Hcase as [| |adv s pending e _ _ Hp|adv s r _ _ Hr]; subst;
    try (exists []; rewrite app_nil_r; by split_and!).
  destruct Hr as (k & a1 & _ & Hs & _).
  destruct (steps_ran log _ _ _ Hs) as (new & Hl & Hperm & Hc & Hm).
  exists new. split_and!; [done|done|]. simpl in *. specialize (Hm ltac:(done)). lia.
Qed.

(** C1: no tool runs outside the agent's gates.  For any log an executor keeps of
    the names it ran, the names a whole turn adds are all in the agent's
    allow-set, pass the prompt's dispatch gate, are registered, and were run
    through a bus with both an authorizer and a consent ledger; there are at
    most [MAX_TOOL_CALLS_PER_TURN] of them.  Without either hook nothing runs. *)
Theorem run_turn_executes_permitted log `{!ExecutionLog log} a w model text seed now a' w' o :
  run_turn a w model text seed now = Returned (a', w', o) →
  ∃ new, log w' = log w ++ new ∧ Forall (permitted a) new ∧ len new ≤ MAX_TOOL_CALLS_PER_TURN.
Proof. apply run_turn_ran. done. Qed.

End Safety.

(** ** The deterministic host *)

Section FakeHostFacts.

#[export] Instance FakeHost_meter : ContactMeter (λ w : FakeWorld, w.(fw_provider).(fp_complete_calls)).
Proof.
  split; intros w; simpl.
  - intros r. unfold FakeProvider_complete.
    destruct (check_timeout r); [|simpl; lia]. case_if; [simpl; lia|]. case_if; [simpl; lia|].
    destruct (fp_script (fw_provider w)); case_if; simpl; lia.
  - intros tool args ctx. unfold FakeToolExecutor_execute. by destruct (pop_script _).
  - intros c. by destruct (VecSink_emit _ _).
Qed.

#[export] Instance FakeHost_log :
  ExecutionLog (λ w : FakeWorld, map fst w.(fw_executor).(calls)).
Proof.
  split; intros w; simpl.
  - intros r. by destruct (FakeProvider_complete _ _).
  - intros tool args ctx. unfold FakeToolExecutor_execute. destruct (pop_script _). simpl.
    by rewrite map_app.
  - intros c. by destruct (VecSink_emit _ _).
Qed.

#[export] Instance FakeHost_finishes : AgentFinishes (W := FakeWorld).
Proof.
  split; intros w; simpl.
  - intros r. by destruct (FakeProvider_complete _ _).
  - intros tool args ctx. unfold FakeToolExecutor_execute. destruct (pop_script _). simpl.
    destruct (cancel_hook _); [|constructor]. case_if; repeat constructor.
  - intros c. by destruct (VecSink_emit _ _).
Qed.

End FakeHostFacts.

(** ** Witnesses *)

Definition turn_bus : ToolBus FakeWorld :=
  with_consent (with_authorizer (bus_new (register registry_new demo_spec).1) demo_hook)
    (λ _, check demo_ledger) "local.assistant".

Definition turn_agent : Agent FakeWorld := agent_new turn_bus (new_session 1 2 3) 10 config_default.

Definition turn_world (answer : result ToolSuccess ToolError) : FakeWorld :=
  mkFakeWorld
    (mkFakeProvider ["m"] [mkTurn "reading" [demo_call] 0 usage_default; mkTurn "done" [] 0 usage_default] 0)
    (mkFakeExecutor [answer] [] None) (mkVecSink []) (mkFakeReconciler [] []).

Definition turn_demo (answer : result ToolSuccess ToolError) : run (Agent FakeWorld * FakeWorld * ExecOutcome) :=
  run_turn turn_agent (turn_world answer) "m" "go" [] 5.

Definition result_of {A} (d : A) (r : run A) : A := match r with Returned x => x | _ => d end.

(** One tool round, then the answer. *)
Example turn_demo_completes :
  let '(a, w, o) := result_of (turn_agent, turn_world (Ok empty_success), OutCompleted "")
                      (turn_demo (Ok (mkToolSuccess "ok" []))) in
  o = OutCompleted "done" ∧ a.(session).(state) = Completed
  ∧ record_ids a.(executions) = [11] ∧ map fst w.(fw_executor).(calls) = ["fs.read"]
  ∧ w.(fw_provider).(fp_complete_calls) = 2 ∧ map seq w.(fw_sink).(vec_chunks) = [0; 1; 2].
Proof. vm_compute. done. Qed.


(** The same turn, with the states it ends in. *)
Definition turn_final (answer : result ToolSuccess ToolError) : Agent FakeWorld * FakeWorld * ExecOutcome :=
  result_of (turn_agent, turn_world answer, OutCompleted "") (turn_demo answer).

Lemma turn_demo_returned answer :
  (match turn_demo answer with Returned _ => true | _ => false end) = true →
  run_turn turn_agent (turn_world answer) "m" "go" [] 5
  = Returned ((turn_final answer).1.1, (turn_final answer).1.2, (turn_final answer).2).
Proof. unfold turn_final, turn_demo. by destruct (run_turn _ _ _ _ _ _) as [[[a w] o]| |]. Qed.

Lemma run_turn_provider_contacts_witness :
  (turn_final (Ok empty_success)).1.2.(fw_provider).(fp_complete_calls) ≤ 0 + DEFAULT_MAX_ROUNDS.
Proof.
  eapply (run_turn_provider_contacts (λ w : FakeWorld, w.(fw_provider).(fp_complete_calls)) turn_agent
    (turn_world (Ok empty_success)) "m" "go" [] 5); [vm_compute; discriminate|].
  apply turn_demo_returned. vm_compute. reflexivity.
Defined.

Lemma run_turn_outcome_agrees_witness :
  outcome_agrees (turn_final (Ok empty_success)).1.1 (turn_final (Ok empty_success)).2.
Proof.
  pose proof (run_turn_outcome_agrees turn_agent (turn_world (Ok empty_success)) "m" "go" [] 5
    (turn_final (Ok empty_success)).1.1 (turn_final (Ok empty_success)).1.2
    (turn_final (Ok empty_success)).2
    (turn_demo_returned (Ok empty_success) ltac:(vm_compute; reflexivity))) as Hw.
  assert (is_active (session turn_agent) = true) as Ha by reflexivity.
  rewrite Ha in Hw. exact Hw.
Defined.

Lemma run_turn_executes_permitted_witness :
  ∃ new, map fst (turn_final (Ok empty_success)).1.2.(fw_executor).(calls) = [] ++ new
    ∧ Forall (permitted turn_agent) new ∧ len new ≤ MAX_TOOL_CALLS_PER_TURN.
Proof.
  eapply (run_turn_executes_permitted (λ w : FakeWorld, map fst w.(fw_executor).(calls)) turn_agent
    (turn_world (Ok empty_success)) "m" "go" [] 5).
  apply turn_demo_returned. vm_compute. reflexivity.
Defined.

(** An acknowledgement is lost in one turn; the next turn still tracks it. *)
Definition lost : result ToolSuccess ToolError := Err (ErrEffectUnknown "fs.read" "no ack").

Definition lost_agent : Agent FakeWorld := (turn_final lost).1.1.

Definition after_lost : run (Agent FakeWorld * FakeWorld * ExecOutcome) :=
  run_turn lost_agent (turn_world (Ok empty_success)) "m" "again" [] 6.

Lemma agent_new_ok (b : ToolBus FakeWorld) s counter cfg : agent_ok (agent_new b s counter cfg).
Proof. unfold agent_ok, pending_ok. simpl. split_and!; try done; constructor. Qed.

Example lost_outcome :
  (turn_final lost).2
  = OutUnknown "tool effect uncertain; reconcile before retry (tool fs.read)" 1
  ∧ map is_unknown lost_agent.(executions) = [true]
  ∧ match after_lost with
    | Returned (a, w, o) => record_ids a.(pending_unknown) = [11] ∧ record_ids a.(executions) = [12]
        ∧ o = OutCompleted "done"
    | _ => False
    end.
Proof. vm_compute. done. Qed.

Lemma lost_agent_ok : agent_ok lost_agent.
Proof.
  unfold lost_agent.
  refine (run_turn_ok turn_agent (turn_world lost) "m" "go" [] 5 _ _ _
    (turn_demo_returned lost _) (agent_new_ok _ _ _ _)). vm_compute. reflexivity.
Qed.

Lemma lost_tracked : tracked lost_agent 11.
Proof.
  right. exists (mkRecord 11 "fs.read" (StatusUnknown "no ack") Accepted).
  split; [|split; [reflexivity|exact I]]. apply list_elem_of_In. vm_compute. left. reflexivity.
Qed.

Lemma run_turn_keeps_unknown_witness :
  ∃ a w o, run_turn lost_agent (turn_world (Ok empty_success)) "m" "again" [] 6 = Returned (a, w, o)
    ∧ tracked a 11.
Proof.
  destruct (run_turn lost_agent (turn_world (Ok empty_success)) "m" "again" [] 6)
    as [[[a w] o]| |] eqn:E; [|vm_compute in E; discriminate..].
  exists a, w, o. split; [reflexivity|].
  exact (run_turn_keeps_unknown _ _ _ _ _ _ _ _ _ 11 lost_agent_ok E lost_tracked).
Defined.
