(* ===== verification/Recovery.v ===== *)
(** * Recovery: reconciling uncertain effects, and the agent's whole life

    [reconcile_unknown] of [agent.rs]: the bounded schedule of status queries,
    what a resolution or an escalation does to the records, and the invariant of
    every state an agent can reach through its public operations. *)

From S2P Require Import Prelude Text Session Stream ToolTypes Prompt Consent ToolBus Context Assembly.
From S2P Require Import Provider Reconcile Agent Turn TurnSafety.

Local Open Scope Z_scope.

Section Recovery.
Context {W : Type} `{Host W}.
Implicit Types (a : Agent W) (w : W).

(** ** The query schedule *)

(** A log of the status queries a reconciler answered, in order. *)
Class QueryLog (log : W → list (string * Z)) := {
  log_query w tool id now : log (reconcile_status w tool id now).1.1 = log w ++ [(tool, id)]
}.

(** The waits before [n] consecutive queries from [attempt] on. *)
Definition schedule (base ceiling attempt : Z) (n : nat) : list Z :=
  map (λ i, reconcile_delay_ms (attempt + Z.of_nat i) base ceiling) (List.seq 0 n).

Lemma schedule_S base ceiling attempt n :
  schedule base ceiling attempt (S n)
  = reconcile_delay_ms attempt base ceiling :: schedule base ceiling (attempt + 1) n.
Proof.
  unfold schedule. simpl. rewrite Z.add_0_r. f_equal. rewrite <- fmap_S_seq.
  rewrite map_map. apply map_ext. intros i. f_equal. lia.
Qed.

Lemma len_schedule base ceiling attempt n : len (schedule base ceiling attempt n) = Z.of_nat n.
Proof. unfold len, schedule. by rewrite length_map, length_seq. Qed.

(** What [n] queries about one effect found. *)
Definition query_result (n : nat) (attempt budget : Z) (res : ToolStatus * Z + string) : Prop :=
  match res with
  | inl (st, attempts) =>
      is_reconcile_terminal st = true ∧ ToolStatus_normalized st = st
      ∧ attempts = attempt + Z.of_nat n ∧ (1 ≤ n)%nat
  | inr _ => Z.of_nat n = Z.max 0 (budget - attempt)
  end.

(** Every log of queries shows [n] of them, about one effect. *)
Definition queried (tool : string) (id : Z) (n : nat) w w' : Prop :=
  ∀ log, QueryLog log → log w' = log w ++ repeat (tool, id) n.

Lemma queried_nil tool id w : queried tool id 0 w w.
Proof. intros log _. by rewrite app_nil_r. Qed.

Lemma queried_cons tool id now n w w' :
  queried tool id n (reconcile_status w tool id now).1.1 w' → queried tool id (S n) w w'.
Proof.
  intros Hq log Hlog. rewrite (Hq log Hlog), log_query, <- app_assoc. done.
Qed.

Lemma query_loop_spec tool id base ceiling now budget fuel :
  ∀ a w attempt delays reason a' w' ds res,
  budget - attempt ≤ Z.of_nat fuel →
  query_loop fuel a w tool id base ceiling now attempt budget delays reason = (a', w', ds, res) →
  ∃ n s, Z.of_nat n ≤ Z.max 0 (budget - attempt) ∧ a' = with_session s a
    ∧ ds = delays ++ schedule base ceiling attempt n ∧ queried tool id n w w'
    ∧ query_result n attempt budget res.
Proof.
  induction fuel as [|fuel IH]; intros a w attempt delays reason a' w' ds res Hf E;
    cbn [query_loop] in E.
  { simplify_eq. exists 0%nat, (session a'). rewrite app_nil_r.
    split_and!; [lia|by destruct a'|done|apply queried_nil|simpl; lia]. }
  case_if_in E; reflect_bools.
  2:{ simplify_eq. exists 0%nat, (session a'). rewrite app_nil_r.
      split_and!; [lia|by destruct a'|done|apply queried_nil|simpl; lia]. }
  destruct (reconcile_status w tool id now) as [[w1 ops] answer] eqn:Ew.
  pose proof (λ n w', queried_cons tool id now n w w') as Hq. rewrite Ew in Hq. simpl in Hq.
  assert (∀ reason',
    query_loop fuel (after_ops ops a) w1 tool id base ceiling now (attempt + 1) budget
      (delays ++ [reconcile_delay_ms attempt base ceiling]) reason' = (a', w', ds, res) →
    ∃ n s, Z.of_nat n ≤ Z.max 0 (budget - attempt) ∧ a' = with_session s a
      ∧ ds = delays ++ schedule base ceiling attempt n ∧ queried tool id n w w'
      ∧ query_result n attempt budget res) as Hrec.
  { intros reason' E'. apply IH in E' as (n & s & Hn & -> & -> & Hl & Hr); [|lia].
    exists (S n), s. rewrite schedule_S, <- app_assoc.
    split_and!; [lia|done|done|by apply Hq|].
    unfold query_result in *. destruct res as [[st attempts]|]; [|lia].
    destruct Hr as (? & ? & -> & ?). split_and!; [done|done|lia|lia]. }
  destruct answer as [st|r]; [|by apply Hrec in E].
  case_if_in E; [|by apply Hrec in E]. simplify_eq.
  exists 1%nat, (apply_ops ops (session a)). simpl.
  split_and!; [lia|done|by rewrite schedule_S|apply Hq, queried_nil|done|apply ToolStatus_normalized_idemp|lia|lia].
Qed.

(** ** Records after a resolution *)

(** The one effect of resolving [id]: its record carries the status and the
    pending set no longer holds it. *)
Definition resolved (id : Z) (st : ToolStatus) a : Agent W :=
  with_executions (set_status id st a.(executions))
    (with_pending (List.filter (λ p, negb (p.(xr_execution_id) =? id)) a.(pending_unknown)) a).

Lemma filter_absent id l :
  id ∉ record_ids l → List.filter (λ p, negb (p.(xr_execution_id) =? id)) l = l.
Proof.
  induction l as [|r l IH]; [done|]. simpl. intros Hn. apply not_elem_of_cons in Hn as [Hr Hn].
  destruct (Z.eqb_spec (xr_execution_id r) id); [done|]. simpl. by rewrite IH.
Qed.

Lemma remove_pending_filter id l :
  NoDup (record_ids l) → remove_pending id l = List.filter (λ p, negb (p.(xr_execution_id) =? id)) l.
Proof.
  induction l as [|r l IH]; [done|]. simpl. intros [Hr Hnd]%NoDup_cons.
  destruct (Z.eqb_spec (xr_execution_id r) id) as [<-|]; simpl; [by rewrite filter_absent|].
  by rewrite IH.
Qed.

Lemma set_status_at_id l : ∀ i r st,
  NoDup (record_ids l) → l !! i = Some r → set_status_at i st l = set_status r.(xr_execution_id) st l.
Proof.
  unfold set_status_at. induction l as [|x l IH]; intros i r st Hnd Hi; [done|].
  apply NoDup_cons in Hnd as [Hx Hnd]. destruct i as [|i]; simpl in *.
  - simplify_eq. by rewrite Z.eqb_refl.
  - destruct (Z.eqb_spec (xr_execution_id x) (xr_execution_id r)) as [Heq|].
    + exfalso. apply Hx. rewrite Heq. apply list_elem_of_fmap_2. by eapply list_elem_of_lookup_2.
    + f_equal. by apply IH.
Qed.

Lemma set_status_ids id st l : record_ids (set_status id st l) = record_ids l.
Proof. induction l as [|r l IH]; [done|]. simpl. case_if; simpl; [done|]. by rewrite IH. Qed.

Lemma set_status_elem id st l r :
  NoDup (record_ids l) → r ∈ set_status id st l →
  if r.(xr_execution_id) =? id then r.(xr_status) = st else r ∈ l.
Proof.
  induction l as [|x l IH]; intros Hnd Hr; [by apply not_elem_of_nil in Hr|].
  apply NoDup_cons in Hnd as [Hx Hnd]. simpl in Hr.
  destruct (Z.eqb_spec (xr_execution_id x) id) as [<-|Hne].
  - apply elem_of_cons in Hr as [->|Hr]; [simpl; by rewrite Z.eqb_refl|].
    destruct (Z.eqb_spec (xr_execution_id r) (xr_execution_id x)) as [Heq|]; [|by right].
    exfalso. apply Hx. rewrite <- Heq. by apply list_elem_of_fmap_2.
  - apply elem_of_cons in Hr as [->|Hr].
    + destruct (Z.eqb_spec (xr_execution_id x) id); [done|by left].
    + specialize (IH Hnd Hr). case_if; [done|by right].
Qed.

Lemma set_status_keeps id st l r : r ∈ l → r.(xr_execution_id) ≠ id → r ∈ set_status id st l.
Proof.
  intros Hr Hne. induction l as [|x l IH]; [by apply not_elem_of_nil in Hr|]. simpl.
  apply elem_of_cons in Hr as [<-|Hr].
  - destruct (Z.eqb_spec (xr_execution_id r) id); [done|by left].
  - case_if; right; [done|by apply IH].
Qed.

Lemma filter_pending_ids id i l :
  i ∈ record_ids (List.filter (λ p, negb (p.(xr_execution_id) =? id)) l) ↔ i ∈ record_ids l ∧ i ≠ id.
Proof.
  induction l as [|r l IH]; simpl; [set_solver|].
  destruct (Z.eqb_spec (xr_execution_id r) id); simpl; rewrite ?elem_of_cons, IH; naive_solver.
Qed.

(** Resolving settles [id] and touches no other uncertain effect. *)
Lemma resolved_tracked id st a i :
  NoDup (record_ids a.(executions)) → is_reconcile_terminal st = true →
  tracked (resolved id st a) i ↔ tracked a i ∧ i ≠ id.
Proof.
  intros Hnd Hst. unfold tracked. simpl. rewrite filter_pending_ids. split.
  - intros [[Hp Hne]|(r & Hr & <- & Hu)]; [by auto|]. apply set_status_elem in Hr; [|done].
    destruct (Z.eqb_spec (xr_execution_id r) id) as [<-|]; [|by eauto 6].
    exfalso. unfold is_unknown, is_ack_loss in Hu. rewrite Hr in Hu. by destruct st.
  - intros [[Hp|(r & Hr & <- & Hu)] Hne]; [by auto|]. right. exists r.
    split_and!; [by apply set_status_keeps|done|done].
Qed.

(** ** One reconciliation *)

Definition config_schedule (c : AgentConfig) (n : nat) : list Z :=
  let cfg := reconcile_config c in
  let ceiling := effective_max_delay_ms cfg in
  schedule (Z.min cfg.(base_delay_ms) ceiling) ceiling 0 n.

Definition config_retries (c : AgentConfig) : Z := Z.max 0 (effective_retries (reconcile_config c)).

(** What a reconciliation of [r] did, in [n] queries; [settle] is what it does
    with a resolution. *)
Definition reconciled (settle : Agent W → ToolStatus → Agent W) a (r : ExecutionRecord) (n : nat) a'
    (o : ReconcileOutcome) : Prop :=
  ∃ s, match o with
  | OutcomeResolved st attempts delays =>
      a' = settle (with_session s a) st ∧ is_reconcile_terminal st = true
      ∧ ToolStatus_normalized st = st ∧ attempts = Z.of_nat n ∧ (1 ≤ n)%nat
      ∧ delays = config_schedule a.(config) n
  | Escalated report =>
      a' = with_session (finish true s) a ∧ Z.of_nat n = config_retries a.(config)
      ∧ ∃ reason, report = mkEscalation r.(xr_tool) reason (Z.of_nat n) (len a.(executions))
                             (config_schedule a.(config) n)
  | NoUnknown => False
  end.

Lemma reconcile_record_spec a w r reason now settle a' w' o :
  reconcile_record a w r reason now settle = (a', w', o) →
  ∃ n, Z.of_nat n ≤ config_retries a.(config)
    ∧ queried r.(xr_tool) r.(xr_execution_id) n w w' ∧ reconciled settle a r n a' o.
Proof.
  unfold reconcile_record. cbv zeta.
  destruct (query_loop _ _ _ _ _ _ _ _ _ _ _ _) as [[[a1 w1] ds] res] eqn:E.
  apply query_loop_spec in E as (n & s & Hn & -> & -> & Hl & Hr); [|lia].
  rewrite Z.sub_0_r in Hn. intros Ho. exists n. destruct res as [[st attempts]|last]; simplify_eq; split_and!;
    try done; try lia; exists s.
  - destruct Hr as (? & ? & -> & ?). by split_and!.
  - simpl in Hr. rewrite Z.sub_0_r in Hr. split_and!; [done|done|]. exists last. rewrite app_nil_l. by rewrite len_schedule.
Qed.

Lemma position_spec f l :
  match position f l with
  | Some (i, r) => l !! i = Some r ∧ f r = true
  | None => ∀ r, r ∈ l → f r = false
  end.
Proof.
  induction l as [|x l IH]; simpl; [set_solver|]. destruct (f x) eqn:Ef; [done|].
  destruct (position f l) as [[i r]|]; [done|]. set_solver.
Qed.

Lemma find_id_spec id l :
  match find (λ r, r.(xr_execution_id) =? id) l with
  | Some r => r ∈ l ∧ r.(xr_execution_id) = id
  | None => id ∉ record_ids l
  end.
Proof.
  induction l as [|x l IH]; simpl; [set_solver|].
  destruct (Z.eqb_spec (xr_execution_id x) id) as [Hx|Hx]; [split; [by left|done]|].
  destruct (find _ l) as [r|]; [destruct IH; split; [by right|done]|set_solver].
Qed.

Lemma unknown_status r : is_unknown r → ∃ reason, r.(xr_status) = StatusUnknown reason.
Proof. unfold is_unknown, is_ack_loss. destruct (xr_status r); try done. by eexists. Qed.

(** [reconcile_unknown] runs one reconciliation of a tracked effect, and its
    resolution is [resolved]; an effect that is not tracked is left alone. *)
Lemma reconcile_unknown_spec a w id now a' w' o :
  agent_ok a → reconcile_unknown a w id now = (a', w', o) →
  (¬ tracked a id ∧ a' = a ∧ w' = w ∧ o = NoUnknown)
  ∨ ∃ r n, tracked a id ∧ r.(xr_execution_id) = id ∧ Z.of_nat n ≤ config_retries a.(config)
      ∧ queried r.(xr_tool) id n w w' ∧ reconciled (λ a st, resolved id st a) a r n a' o.
Proof.
  intros ((_ & Hndp & Hunk & _) & _ & Hndx & _). unfold reconcile_unknown.
  pose proof (find_id_spec id (pending_unknown a)) as Hfind.
  destruct (find _ (pending_unknown a)) as [r|].
  - destruct Hfind as [Hin Hid]. rewrite Forall_forall in Hunk.
    destruct (unknown_status r (Hunk _ Hin)) as [reason Hst].
    unfold reconcile_pending. rewrite Hst.
    destruct (reconcile_record _ _ _ _ _ _) as [[a1 w1] o1] eqn:E.
    apply reconcile_record_spec in E as (n & Hn & Hl & Hrec). rewrite Hid in Hl, Hrec.
    intros Ho. assert ((a1, w1, o1) = (a', w', o)) as [= <- <- <-].
    { by destruct o1; [|destruct Hrec|]. }
    right. exists r, n. split_and!; try done.
    + left. rewrite <- Hid. by apply list_elem_of_fmap_2.
    + destruct Hrec as [s Hs]. exists s. destruct o1; try done.
      destruct Hs as (-> & Hs). split; [|done]. unfold resolved. simpl.
      by rewrite remove_pending_filter.
  - unfold reconcile_executions.
    pose proof (position_spec (λ r, (xr_execution_id r =? id) && is_unknown r) (executions a)) as Hpx.
    destruct (position _ (executions a)) as [[i r]|].
    + destruct Hpx as [Hi Hf]. apply andb_true_iff in Hf as [Hid%Z.eqb_eq Hu].
      destruct (unknown_status r) as [reason Hst]; [by rewrite Hu|]. rewrite Hst. intros E.
      apply reconcile_record_spec in E as (n & Hn & Hl & Hrec). rewrite Hid in Hl.
      right. exists r, n. split_and!; try done.
      * right. exists r. split_and!; [by eapply list_elem_of_lookup_2|done|by rewrite Hu].
      * destruct Hrec as [s Hs]. exists s. destruct o; try done.
        destruct Hs as (-> & Hs). split; [|done]. unfold resolved. simpl.
        by rewrite (set_status_at_id _ i r), Hid.
    + intros [= <- <- <-]. left. split_and!; try done.
      intros [Hp|(r & Hr & Hid & Hu)]; [done|]. specialize (Hpx r Hr).
      rewrite Hid, Z.eqb_refl in Hpx. simpl in Hpx. by rewrite Hpx in Hu.
Qed.

(** ** The agent's operations as one machine *)

(** Everything a holder of the agent can do with it; the host's other actors may
    act on the shared session and mint ids of their own in between. *)
Inductive agent_step : Agent W * W → Agent W * W → Prop :=
| ag_turn a w model text seed now a' w' o :
    run_turn a w model text seed now = Returned (a', w', o) → agent_step (a, w) (a', w')
| ag_reconcile a w id now a' w' o :
    reconcile_unknown a w id now = (a', w', o) → agent_step (a, w) (a', w')
| ag_abandon a w id : agent_step (a, w) ((abandon_pending a id).1, w)
| ag_prompt a w p : agent_step (a, w) (with_prompt p a, w)
| ag_allowed a w l : agent_step (a, w) (with_allowed l a, w)
| ag_session a w ops : agent_step (a, w) (after_ops ops a, w)
| ag_world a w w' : agent_step (a, w) (a, w')
| ag_mint a w id next :
    IdIssuer_next a.(ids) = Some (id, next) → agent_step (a, w) (with_ids next a, w).

Lemma pending_filter_ok c id l :
  pending_ok c l → pending_ok c (List.filter (λ p, negb (p.(xr_execution_id) =? id)) l).
Proof.
  intros (Hlen & Hnd & Hu & Hle). unfold pending_ok.
  pose proof (len_filter_le (λ p, negb (xr_execution_id p =? id)) l). split_and!; [lia|..].
  - clear Hlen Hu Hle H0. induction l as [|r l IH]; [done|]. simpl in *.
    apply NoDup_cons in Hnd as [Hr Hnd]. case_if; [|by apply IH]. simpl. apply NoDup_cons.
    split; [|by apply IH]. rewrite filter_pending_ids. by intros [? _].
  - rewrite Forall_forall in *. intros r Hr. apply Hu.
    apply list_elem_of_In, filter_In in Hr as [Hr _]. by apply list_elem_of_In.
  - rewrite Forall_forall in *. intros i [Hi _]%filter_pending_ids. by apply Hle.
Qed.

Lemma set_status_len id st l : len (set_status id st l) = len l.
Proof. by rewrite <- len_record_ids, set_status_ids, len_record_ids. Qed.

Lemma resolved_ok id st s a : agent_ok a → agent_ok (resolved id st (with_session s a)).
Proof.
  intros (Hp & Hl & Hnd & Hle). unfold agent_ok. simpl.
  rewrite set_status_len, !set_status_ids. split_and!; [by apply pending_filter_ok|done..].
Qed.

Lemma agent_step_ok s1 s2 : agent_step s1 s2 → agent_ok s1.1 → agent_ok s2.1.
Proof.
  destruct 1 as [a w model text seed now a' w' o E|a w id now a' w' o E|a w id| | | | |
    a w id next E]; simpl; intros Hok; try exact Hok.
  - by eapply run_turn_ok.
  - destruct (reconcile_unknown_spec _ _ _ _ _ _ _ Hok E) as
      [(_ & -> & _)|(r & n & _ & _ & _ & _ & s & Hs)]; [done|].
    destruct o as [st k ds| |report]; [|done|].
    + destruct Hs as (-> & _). by apply resolved_ok.
    + by destruct Hs as (-> & _).
  - destruct Hok as (Hp & Hrest). split; [|done]. by apply pending_filter_ok.
  - apply issue_id in E as [_ ->]. destruct Hok as (Hp & Hl & Hnd & Hle).
    split_and!; simpl; [|done|done|].
    + eapply pending_ok_mono; [|done]. lia.
    + eapply Forall_impl; [exact Hle|]. simpl. lia.
Qed.

(** ** Properties *)

(** C7: the agent's records stay well formed through any history.  Starting from
    [Agent::new], after any sequence of turns, reconciliations, abandonments,
    prompt and allow-set changes, session operations by other holders of the
    handle and ids minted elsewhere, the per-turn records and the carried
    uncertain effects are each at most [MAX_EXECUTIONS_PER_AGENT], carry
    distinct ids no greater than the counter, and only uncertain effects are
    carried. *)
Theorem agent_reachable_ok b s counter cfg w a' w' :
  rtc agent_step (agent_new b s counter cfg, w) (a', w') → agent_ok a'.
Proof.
  intros Hr. change a' with (a', w').1. remember (agent_new b s counter cfg, w) as s0 eqn:E0.
  assert (agent_ok s0.1) as H0.
  { subst. unfold agent_ok, pending_ok. simpl. split_and!; try done; constructor. }
  clear E0. induction Hr as [|s1 s2 s3 Hs _ IH]; [done|]. by eapply IH, agent_step_ok.
Qed.

(** C6: reconciliation is bounded, query-only and settles exactly its effect.
    [reconcile_unknown] asks the host about the given effect only, at most
    [MAX_RECONCILE_ATTEMPTS] times, with the exponential waits as its delays.
    When the effect is not tracked nothing happens.  A resolution is a terminal,
    normalised status; after it exactly that effect is no longer uncertain and
    every other one still is.  An escalation used the whole budget, ends the
    session, and keeps every uncertain effect. *)
Theorem reconcile_unknown_bounded a w id now a' w' o :
  agent_ok a → reconcile_unknown a w id now = (a', w', o) →
  ∃ tool n, Z.of_nat n ≤ MAX_RECONCILE_ATTEMPTS ∧ queried tool id n w w'
  ∧ match o with
    | NoUnknown => ¬ tracked a id ∧ a' = a ∧ w' = w
    | OutcomeResolved st attempts delays =>
        tracked a id ∧ is_reconcile_terminal st = true ∧ ToolStatus_normalized st = st
        ∧ 1 ≤ attempts ≤ config_retries a.(config) ∧ attempts = Z.of_nat n
        ∧ delays = config_schedule a.(config) n
        ∧ ∀ i, tracked a' i ↔ tracked a i ∧ i ≠ id
    | Escalated report =>
        tracked a id ∧ report.(esc_attempts) = config_retries a.(config)
        ∧ report.(esc_delays_ms) = config_schedule a.(config) n
        ∧ a'.(session).(state) ≠ Active ∧ ∀ i, tracked a' i ↔ tracked a i
    end.
Proof.
  intros Hok E. pose proof Hok as (_ & _ & Hnd & _).
  destruct (reconcile_unknown_spec _ _ _ _ _ _ _ Hok E) as
    [(Hn & -> & -> & ->)|(r & n & Ht & _ & Hn & Hq & s & Hs)].
  { exists EmptyString, 0%nat. split_and!; try done. apply queried_nil. }
  exists (xr_tool r), n.
  assert (Z.of_nat n ≤ MAX_RECONCILE_ATTEMPTS).
  { unfold config_retries, effective_retries in Hn. unfold MAX_RECONCILE_ATTEMPTS in *. lia. }
  destruct o as [st k ds| |report]; [|done|].
  - destruct Hs as (-> & Hst & Hnorm & -> & Hone & ->). split_and!; try done; try lia.
    intros i. exact (resolved_tracked id st (with_session s a) i Hnd Hst).
  - destruct Hs as (-> & Hm & reason & ->). split_and!; try done.
    simpl. unfold finish. destruct (is_active s) eqn:Ea; [done|]. by apply bool_decide_eq_false in Ea.
Qed.

End Recovery.

(** ** Witnesses *)

#[export] Instance FakeHost_queries : QueryLog (λ w : FakeWorld, w.(fw_reconciler).(fr_queries)).
Proof.
  split. intros w tool id now. simpl. unfold FakeReconciler_reconcile.
  by destruct (fr_script (fw_reconciler w)).
Qed.

(** The lost acknowledgement of [lost_agent], still pending once, then found. *)
Definition answering : FakeWorld :=
  mkFakeWorld (mkFakeProvider [] [] 0) (mkFakeExecutor [] [] None) (mkVecSink [])
    (mkFakeReconciler [Pending "busy"; Resolved StatusSuccess] []).

Example reconcile_demo :
  let '(a, w, o) := reconcile_unknown lost_agent answering 11 7 in
  o = OutcomeResolved StatusSuccess 2 [100; 200] ∧ map xr_status a.(executions) = [StatusSuccess]
  ∧ w.(fw_reconciler).(fr_queries) = [("fs.read"%string, 11); ("fs.read"%string, 11)].
Proof. vm_compute. done. Qed.

Lemma reconcile_unknown_bounded_witness :
  ∃ tool n, Z.of_nat n ≤ MAX_RECONCILE_ATTEMPTS
  ∧ queried tool 11 n answering (reconcile_unknown lost_agent answering 11 7).1.2
  ∧ (reconcile_unknown lost_agent answering 11 7).2
    = OutcomeResolved StatusSuccess 2 (config_schedule config_default 2).
Proof.
  destruct (reconcile_unknown lost_agent answering 11 7) as [[a w] o] eqn:E.
  destruct (reconcile_unknown_bounded lost_agent answering 11 7 a w o lost_agent_ok E)
    as (tool & n & Hn & Hq & _).
  exists tool, n. split; [exact Hn|split; [exact Hq|]].
  change o with (a, w, o).2. rewrite <- E. vm_compute. reflexivity.
Defined.

Lemma agent_reachable_ok_witness :
  agent_ok (abandon_pending (with_allowed (Some ["fs.read"]) turn_agent) 3).1.
Proof.
  apply (agent_reachable_ok turn_bus (new_session 1 2 3) 10 config_default answering _ answering).
  eapply rtc_l; [apply (ag_allowed _ _ (Some ["fs.read"]))|].
  eapply rtc_l; [apply (ag_abandon _ _ 3)|]. apply rtc_refl.
Defined.
