(* ===== verification/Adoption.v ===== *)
(** * Adoption: which survivors of a crashed session a supervisor may adopt

    Models [adoption.rs].  [check_adoption] compares a typed claim with the
    carried execution records and returns either the declarative history or the
    first refusal its loops meet.  The rule is stated apart from the loops
    ([adoptable], [refused_for]) and the check is shown to decide it; the records
    of every failed agent satisfy it. *)

From S2P Require Import Prelude Text Session ToolTypes Agent TurnSafety Recovery.

Local Open Scope Z_scope.
Local Open Scope rust_scope.

Definition MAX_ADOPTION_SURVIVORS : Z := 32.

Inductive UnknownDisposition := Reconciled | Escalated.

Record ClaimedUnknownEffect := mkClaimed {
  cu_execution_id : Z;
  disposition : UnknownDisposition
}.

Record AdoptionClaim := mkClaim {
  prior_session_state : SessionState;
  survivor_ids : list Z;
  unknown_effects : list ClaimedUnknownEffect;
  fence_token : Z
}.

Inductive AdoptionRefusal :=
| LiveSession
| NotFailed (state : SessionState)
| UnreconciledUnknown (execution_id : Z)
| DispositionMismatch (execution_id : Z)
| MissingEvidence (execution_id : Z)
| UnclaimedSurvivor (execution_id : Z)
| DuplicateEffect (execution_id : Z)
| TooManySurvivors (limit actual : Z)
| StaleEpoch (claim_epoch current_epoch : Z).

(** [Debug] of [SessionState]. *)
Definition SessionState_debug (s : SessionState) : string :=
  match s with
  | Active => "Active" | Completed => "Completed" | Failed => "Failed" | Canceled => "Canceled"
  end.

Definition AdoptionRefusal_to_string (e : AdoptionRefusal) : string :=
  match e with
  | LiveSession => "adoption refused: prior session is live"
  | NotFailed st =>
      "adoption refused: prior session is " +:+ SessionState_debug st +:+ ", not failed"
  | UnreconciledUnknown i => "adoption refused: effect " +:+ show i +:+ " is unreconciled"
  | DispositionMismatch i => "adoption refused: disposition mismatch for effect " +:+ show i
  | MissingEvidence i => "adoption refused: no evidence for effect " +:+ show i
  | UnclaimedSurvivor i => "adoption refused: effect " +:+ show i +:+ " is not claimed"
  | DuplicateEffect i => "adoption refused: duplicate effect " +:+ show i
  | TooManySurvivors limit actual =>
      "adoption refused: " +:+ show actual +:+ " entries exceed limit " +:+ show limit
  | StaleEpoch claim_epoch current_epoch =>
      "adoption refused: stale epoch " +:+ show claim_epoch +:+ ", current " +:+ show current_epoch
  end.

Record AdoptedEffect := mkAdopted {
  ad_execution_id : Z;
  ad_tool : string;
  ad_status : ToolStatus;
  quarantined : bool
}.

Record AdoptedHistory := mkHistory { effects : list AdoptedEffect }.

(** [AdoptedHistory::quarantined_ids] *)
Definition quarantined_ids (h : AdoptedHistory) : list Z :=
  map ad_execution_id (List.filter quarantined h.(effects)).

(** [Vec::contains] on ids. *)
Definition has_id (l : list Z) (i : Z) : bool := bool_decide (i ∈ l).

(** The first two loops: [seen] grows by each id, a repeated one refuses. *)
Fixpoint distinct_ids (seen l : list Z) : result (list Z) AdoptionRefusal :=
  match l with
  | [] => Ok seen
  | i :: l =>
      ensure! negb (has_id seen i) else DuplicateEffect i in
      distinct_ids (seen ++ [i]) l
  end.

Definition find_record (evidence : list ExecutionRecord) (i : Z) : option ExecutionRecord :=
  find (λ r, r.(xr_execution_id) =? i) evidence.

(** One named disposition against the evidence. *)
Definition check_named (seen_claims seen_ids : list Z) (evidence : list ExecutionRecord)
    (seen_unknowns : list Z) (named : ClaimedUnknownEffect) : result (list Z) AdoptionRefusal :=
  let i := named.(cu_execution_id) in
  ensure! negb (has_id seen_unknowns i) else DispositionMismatch i in
  ensure! has_id seen_claims i && has_id seen_ids i else MissingEvidence i in
  match find_record evidence i with
  | None => Err (MissingEvidence i)
  | Some record =>
      match named.(disposition), is_unknown record with
      | Escalated, true => Ok (seen_unknowns ++ [i])
      | Reconciled, true => Err (UnreconciledUnknown i)
      | _, false => Err (DispositionMismatch i)
      end
  end.

Fixpoint check_unknowns (seen_claims seen_ids : list Z) (evidence : list ExecutionRecord)
    (seen_unknowns : list Z) (l : list ClaimedUnknownEffect) : result (list Z) AdoptionRefusal :=
  match l with
  | [] => Ok seen_unknowns
  | named :: l =>
      try! seen := check_named seen_claims seen_ids evidence seen_unknowns named in
      check_unknowns seen_claims seen_ids evidence seen l
  end.

Definition adopt (r : ExecutionRecord) : AdoptedEffect :=
  mkAdopted r.(xr_execution_id) r.(xr_tool) r.(xr_status) (is_unknown r).

(** The loop over the claimed survivors. *)
Fixpoint adopt_effects (evidence : list ExecutionRecord) (seen_unknowns l : list Z) :
    result (list AdoptedEffect) AdoptionRefusal :=
  match l with
  | [] => Ok []
  | i :: l =>
      match find_record evidence i with
      | None => Err (MissingEvidence i)
      | Some r =>
          ensure! negb (is_unknown r && negb (has_id seen_unknowns i))
            else UnreconciledUnknown i in
          ensure! negb (negb (is_unknown r) && has_id seen_unknowns i)
            else DispositionMismatch i in
          try! rest := adopt_effects evidence seen_unknowns l in
          Ok (adopt r :: rest)
      end
  end.

(** The last loop: evidence nobody claimed. *)
Fixpoint check_claimed (seen_claims : list Z) (l : list ExecutionRecord) :
    result unit AdoptionRefusal :=
  match l with
  | [] => Ok tt
  | r :: l =>
      ensure! has_id seen_claims r.(xr_execution_id)
        else UnclaimedSurvivor r.(xr_execution_id) in
      check_claimed seen_claims l
  end.

Definition adoption_size (claim : AdoptionClaim) (evidence : list ExecutionRecord) : Z :=
  Z.max (Z.max (len claim.(survivor_ids)) (len evidence)) (len claim.(unknown_effects)).

Definition check_adoption (claim : AdoptionClaim) (evidence : list ExecutionRecord)
    (current_epoch : Z) : result AdoptedHistory AdoptionRefusal :=
  let actual := adoption_size claim evidence in
  ensure! negb (actual >? MAX_ADOPTION_SURVIVORS)
    else TooManySurvivors MAX_ADOPTION_SURVIVORS actual in
  ensure! claim.(fence_token) =? current_epoch
    else StaleEpoch claim.(fence_token) current_epoch in
  ensure! negb (bool_decide (claim.(prior_session_state) = Active)) else LiveSession in
  ensure! bool_decide (claim.(prior_session_state) = Failed)
    else NotFailed claim.(prior_session_state) in
  try! seen_ids := distinct_ids [] (map xr_execution_id evidence) in
  try! seen_claims := distinct_ids [] claim.(survivor_ids) in
  try! seen_unknowns := check_unknowns seen_claims seen_ids evidence [] claim.(unknown_effects) in
  try! adopted := adopt_effects evidence seen_unknowns claim.(survivor_ids) in
  try! _ := check_claimed seen_claims evidence in
  Ok (mkHistory adopted).

(** ** The rule *)

Definition named_ids (claim : AdoptionClaim) : list Z :=
  map cu_execution_id claim.(unknown_effects).

(** The evidence carries the effect [i], uncertain or not. *)
Definition carried (evidence : list ExecutionRecord) (i : Z) (uncertain : bool) : Prop :=
  ∃ r, r ∈ evidence ∧ r.(xr_execution_id) = i ∧ is_unknown r = uncertain.

(** What makes a claim acceptable, without the loops. *)
Definition adoptable (claim : AdoptionClaim) (evidence : list ExecutionRecord) (epoch : Z) : Prop :=
  adoption_size claim evidence ≤ MAX_ADOPTION_SURVIVORS
  ∧ claim.(fence_token) = epoch ∧ claim.(prior_session_state) = Failed
  ∧ NoDup (record_ids evidence) ∧ NoDup claim.(survivor_ids) ∧ NoDup (named_ids claim)
  ∧ (∀ i, i ∈ claim.(survivor_ids) ↔ i ∈ record_ids evidence)
  ∧ (∀ i d, mkClaimed i d ∈ claim.(unknown_effects) ↔
       d = Escalated ∧ carried evidence i true).

(** The history: one declaration per claimed id, in claim order, each a copy of
    its record, quarantined exactly when the record is uncertain. *)
Definition adopted_from (claim : AdoptionClaim) (evidence : list ExecutionRecord)
    (h : AdoptedHistory) : Prop :=
  Forall2 (λ i e, ∃ r, r ∈ evidence ∧ r.(xr_execution_id) = i ∧ e = adopt r)
    claim.(survivor_ids) h.(effects).

(** What each refusal says of its claim. *)
Definition refused_for (claim : AdoptionClaim) (evidence : list ExecutionRecord) (epoch : Z)
    (e : AdoptionRefusal) : Prop :=
  match e with
  | TooManySurvivors limit actual =>
      limit = MAX_ADOPTION_SURVIVORS ∧ actual = adoption_size claim evidence ∧ limit < actual
  | StaleEpoch claim_epoch current =>
      claim_epoch = claim.(fence_token) ∧ current = epoch ∧ claim_epoch ≠ current
  | LiveSession => claim.(prior_session_state) = Active
  | NotFailed st => claim.(prior_session_state) = st ∧ st ≠ Active ∧ st ≠ Failed
  | DuplicateEffect i =>
      sublist [i; i] (record_ids evidence) ∨ sublist [i; i] claim.(survivor_ids)
  | MissingEvidence i =>
      i ∈ claim.(survivor_ids) ∧ i ∉ record_ids evidence
      ∨ i ∈ named_ids claim ∧ (i ∉ claim.(survivor_ids) ∨ i ∉ record_ids evidence)
  | UnclaimedSurvivor i => i ∈ record_ids evidence ∧ i ∉ claim.(survivor_ids)
  | UnreconciledUnknown i =>
      carried evidence i true
      ∧ (i ∉ named_ids claim ∨ mkClaimed i Reconciled ∈ claim.(unknown_effects))
  | DispositionMismatch i =>
      sublist [i; i] (named_ids claim)
      ∨ i ∈ named_ids claim ∧ carried evidence i false
  end.

(** ** Lemmas: the loops *)

Lemma has_id_true l i : has_id l i = true ↔ i ∈ l.
Proof. apply bool_decide_eq_true. Qed.

Lemma has_id_false l i : has_id l i = false ↔ i ∉ l.
Proof. apply bool_decide_eq_false. Qed.

Lemma sublist_twice (i : Z) l k : i ∈ l → sublist [i; i] (l ++ i :: k).
Proof.
  intros Hi. change [i; i] with ([i] ++ [i]). apply sublist_app.
  - by apply singleton_sublist_l.
  - apply sublist_skip, sublist_nil_l.
Qed.

Lemma not_twice (i : Z) l : NoDup l → ¬ sublist [i; i] l.
Proof.
  intros Hnd Hs. pose proof (sublist_NoDup _ _ Hnd Hs) as H2.
  apply NoDup_cons in H2 as [H2 _]. by apply H2, list_elem_of_here.
Qed.

Lemma distinct_ids_spec l : ∀ seen, NoDup seen →
  match distinct_ids seen l with
  | Ok out => out = seen ++ l ∧ NoDup (seen ++ l)
  | Err e => ∃ i, e = DuplicateEffect i ∧ sublist [i; i] (seen ++ l)
  end.
Proof.
  induction l as [|i l IH]; intros seen Hnd; simpl; [by rewrite app_nil_r|].
  destruct (has_id seen i) eqn:E; simpl.
  - apply has_id_true in E. exists i. split; [done|]. by apply sublist_twice.
  - apply has_id_false in E. specialize (IH (seen ++ [i])).
    rewrite <- app_assoc in IH. apply IH. apply NoDup_app. split_and!; [done| |apply NoDup_singleton].
    intros x Hx Hxi. apply list_elem_of_singleton in Hxi as ->. done.
Qed.

Lemma find_record_Some ev i r : find_record ev i = Some r → r ∈ ev ∧ r.(xr_execution_id) = i.
Proof.
  unfold find_record. intros Hf. apply find_some in Hf as [Hin He].
  apply Z.eqb_eq in He. by apply list_elem_of_In in Hin.
Qed.

Lemma find_record_None ev i : find_record ev i = None → i ∉ record_ids ev.
Proof.
  unfold find_record. intros Hf Hi. apply list_elem_of_fmap in Hi as (r & -> & Hr).
  apply list_elem_of_In in Hr. pose proof (find_none _ _ Hf r Hr) as Hn. simpl in Hn.
  by rewrite Z.eqb_refl in Hn.
Qed.

(** Records with distinct ids are determined by their id. *)
Lemma record_unique ev r r' :
  NoDup (record_ids ev) → r ∈ ev → r' ∈ ev → r.(xr_execution_id) = r'.(xr_execution_id) → r = r'.
Proof.
  intros Hnd Hr Hr' He. induction ev as [|x ev IH]; [by apply not_elem_of_nil in Hr|].
  apply NoDup_cons in Hnd as [Hx Hnd].
  apply elem_of_cons in Hr as [->|Hr], Hr' as [->|Hr']; try done; [| |by apply IH].
  - exfalso. apply Hx. rewrite He. by apply list_elem_of_fmap_2.
  - exfalso. apply Hx. rewrite <- He. by apply list_elem_of_fmap_2.
Qed.

Lemma check_named_spec claims ids ev seen x :
  match check_named claims ids ev seen x with
  | Ok out => out = (seen ++ [x.(cu_execution_id)]) ∧ (x.(cu_execution_id) ∉ seen)
      ∧ x.(disposition) = Escalated
      ∧ carried ev x.(cu_execution_id) true
  | Err (MissingEvidence i) => i = x.(cu_execution_id) ∧ (i ∉ claims ∨ i ∉ ids ∨ i ∉ record_ids ev)
  | Err (UnreconciledUnknown i) => x = mkClaimed i Reconciled
      ∧ carried ev i true
  | Err (DispositionMismatch i) => i = x.(cu_execution_id)
      ∧ (i ∈ seen ∨ carried ev i false)
  | Err _ => False
  end.
Proof.
  destruct x as [i d]. unfold check_named. cbn [cu_execution_id disposition].
  destruct (has_id seen i) eqn:E1; cbn [negb].
  { apply has_id_true in E1. by split; [|left]. }
  apply has_id_false in E1. destruct (has_id claims i) eqn:E2; cbn [andb].
  2:{ apply has_id_false in E2. by split; [|left]. }
  destruct (has_id ids i) eqn:E3.
  2:{ apply has_id_false in E3. by split; [|right; left]. }
  destruct (find_record ev i) as [r|] eqn:Ef.
  2:{ apply find_record_None in Ef. by split; [|right; right]. }
  apply find_record_Some in Ef as [Hr Hi].
  assert (carried ev i (is_unknown r)) as Hc by by exists r.
  destruct d, (is_unknown r); auto.
Qed.

Lemma check_unknowns_spec claims ids ev l : ∀ seen, NoDup seen →
  match check_unknowns claims ids ev seen l with
  | Ok out => out = seen ++ map cu_execution_id l ∧ NoDup out
      ∧ Forall (λ x, x.(disposition) = Escalated
          ∧ carried ev x.(cu_execution_id) true) l
  | Err (MissingEvidence i) => i ∈ map cu_execution_id l ∧ (i ∉ claims ∨ i ∉ ids ∨ i ∉ record_ids ev)
  | Err (UnreconciledUnknown i) => mkClaimed i Reconciled ∈ l
      ∧ carried ev i true
  | Err (DispositionMismatch i) => sublist [i; i] (seen ++ map cu_execution_id l)
      ∨ i ∈ map cu_execution_id l ∧ carried ev i false
  | Err _ => False
  end.
Proof.
  induction l as [|x l IH]; intros seen Hnd; simpl; [by rewrite app_nil_r|].
  pose proof (check_named_spec claims ids ev seen x) as Hx.
  destruct (check_named claims ids ev seen x) as [out|[]]; try done.
  - destruct Hx as (-> & Hns & Hd & Hr). specialize (IH (seen ++ [cu_execution_id x])).
    rewrite <- app_assoc in IH. cbn [app] in IH.
    assert (NoDup (seen ++ [cu_execution_id x])) as Hnd'.
    { apply NoDup_app. split_and!; [done| |apply NoDup_singleton].
      intros y Hy Hyx. apply list_elem_of_singleton in Hyx as ->. done. }
    specialize (IH Hnd').
    destruct (check_unknowns _ _ _ (seen ++ [cu_execution_id x]) l) as [out|[]]; try done.
    + destruct IH as (-> & Hn & Hall). split_and!; [done..|]. by constructor.
    + destruct IH as [Hin ?]. split; [by apply list_elem_of_further|done].
    + destruct IH as [Hs|[Hin ?]]; [by left|right]. split; [by apply list_elem_of_further|done].
    + destruct IH as [Hin ?]. split; [by apply list_elem_of_further|done].
  - destruct Hx as (-> & Hr). split; [apply list_elem_of_here|done].
  - destruct Hx as (-> & [Hs|Hr]); [left; by apply sublist_twice|right].
    split; [apply list_elem_of_here|done].
  - destruct Hx as (-> & Hr). split; [apply list_elem_of_here|done].
Qed.

Lemma adopt_effects_spec ev named l :
  match adopt_effects ev named l with
  | Ok out =>
      Forall2 (λ i e, ∃ r, r ∈ ev ∧ r.(xr_execution_id) = i ∧ e = adopt r) l out
      ∧ Forall (λ i, i ∈ record_ids ev ∧ ∃ u, carried ev i u ∧ (u = true ↔ i ∈ named)) l
  | Err (MissingEvidence i) => i ∈ l ∧ i ∉ record_ids ev
  | Err (UnreconciledUnknown i) => carried ev i true ∧ i ∉ named
  | Err (DispositionMismatch i) => i ∈ named ∧ carried ev i false
  | Err _ => False
  end.
Proof.
  induction l as [|i l IH]; simpl; [done|].
  destruct (find_record ev i) as [r|] eqn:Ef.
  2:{ apply find_record_None in Ef. split; [apply list_elem_of_here|done]. }
  apply find_record_Some in Ef as [Hr Hi].
  assert (carried ev i (is_unknown r)) as Hc by by exists r.
  assert (i ∈ record_ids ev) as Hin by (rewrite <- Hi; by apply list_elem_of_fmap_2).
  destruct (has_id named i) eqn:En; [apply has_id_true in En|apply has_id_false in En];
    destruct (is_unknown r) eqn:Eu; simpl; try done.
  - destruct (adopt_effects ev named l) as [out|[]]; try done.
    + destruct IH as [IH1 IH2]. split; constructor; eauto.
      split; [done|]. exists true. split; [done|]. by split.
    + destruct IH as [? ?]. split; [by apply list_elem_of_further|done].
  - destruct (adopt_effects ev named l) as [out|[]]; try done.
    + destruct IH as [IH1 IH2]. split; constructor; eauto.
      split; [done|]. exists false. split; [done|]. by split.
    + destruct IH as [? ?]. split; [by apply list_elem_of_further|done].
Qed.

Lemma check_claimed_spec claims l :
  match check_claimed claims l with
  | Ok _ => ∀ i, i ∈ record_ids l → i ∈ claims
  | Err e => ∃ i, e = UnclaimedSurvivor i ∧ i ∈ record_ids l ∧ i ∉ claims
  end.
Proof.
  induction l as [|r l IH]; simpl; [intros i Hi; by apply not_elem_of_nil in Hi|].
  destruct (has_id claims (xr_execution_id r)) eqn:E.
  - apply has_id_true in E. destruct (check_claimed claims l).
    + intros i Hi. apply elem_of_cons in Hi as [->|Hi]; auto.
    + destruct IH as (i & -> & Hi & Hn). exists i. split_and!; [done| |done].
      by apply list_elem_of_further.
  - apply has_id_false in E. exists (xr_execution_id r). split_and!; [done| |done].
    apply list_elem_of_here.
Qed.

Lemma carried_unique ev i u u' :
  NoDup (record_ids ev) → carried ev i u → carried ev i u' → u = u'.
Proof.
  intros Hnd (r & Hr & Hi & Hu) (r' & Hr' & Hi' & Hu').
  assert (r = r') as -> by (apply (record_unique ev); congruence). congruence.
Qed.

Lemma carried_in ev i u : carried ev i u → i ∈ record_ids ev.
Proof. intros (r & Hr & <- & _). by apply list_elem_of_fmap_2. Qed.

Lemma named_elem claim i :
  i ∈ named_ids claim ↔ ∃ d, mkClaimed i d ∈ claim.(unknown_effects).
Proof.
  unfold named_ids. split.
  - intros Hi. apply list_elem_of_fmap in Hi as ([j d] & -> & Hx). by exists d.
  - intros [d Hd]. by apply (list_elem_of_fmap_2 cu_execution_id) in Hd.
Qed.

(** Each refusal contradicts the rule. *)
Lemma refused_not_adoptable claim ev epoch e :
  refused_for claim ev epoch e → ¬ adoptable claim ev epoch.
Proof.
  intros He (Hsz & Hf & Hst & Hnd & Hnds & Hndn & Hcov & Hesc).
  assert (∀ i, i ∈ named_ids claim → carried ev i true) as Hnamed.
  { intros i Hi. apply named_elem in Hi as [d Hd]. by apply Hesc in Hd as [_ Hc]. }
  destruct e as [|st|i|i|i|i|i|limit actual|ce cur]; cbn [refused_for] in He.
  - by rewrite Hst in He.
  - destruct He as (? & ? & ?). congruence.
  - destruct He as [Hc [Hn|Hn]].
    + apply Hn, named_elem. exists Escalated. by apply Hesc.
    + by apply Hesc in Hn as [? _].
  - destruct He as [Hs|[Hi Hc]]; [by apply (not_twice i (named_ids claim))|].
    by pose proof (carried_unique _ _ _ _ Hnd (Hnamed i Hi) Hc).
  - assert (i ∈ named_ids claim → i ∈ record_ids ev) by (intros; by eapply carried_in, Hnamed).
    pose proof (Hcov i). tauto.
  - pose proof (Hcov i). tauto.
  - destruct He as [Hs|Hs]; [by apply (not_twice i (record_ids ev))|].
    by apply (not_twice i (survivor_ids claim)).
  - lia.
  - destruct He as (? & ? & ?). congruence.
Qed.

Lemma check_adoption_spec claim ev epoch :
  match check_adoption claim ev epoch with
  | Ok h => adoptable claim ev epoch ∧ adopted_from claim ev h
  | Err e => refused_for claim ev epoch e
  end.
Proof.
  unfold check_adoption. case_if; reflect_bools; [|done].
  case_if; reflect_bools; [|done]. case_if; reflect_bools; [|done].
  case_if; reflect_bools; [|done].
  pose proof (distinct_ids_spec (map xr_execution_id ev) [] (NoDup_nil_2)) as H1.
  destruct (distinct_ids [] (map _ ev)) as [ids|]; [|destruct H1 as (i & -> & Hi); by left].
  destruct H1 as [-> H1]. cbn [app] in *.
  pose proof (distinct_ids_spec (survivor_ids claim) [] (NoDup_nil_2)) as H2.
  destruct (distinct_ids [] (survivor_ids claim)) as [cs|]; [|destruct H2 as (i & -> & Hi); by right].
  destruct H2 as [-> H2]. cbn [app] in *.
  pose proof (check_unknowns_spec (survivor_ids claim) (map xr_execution_id ev) ev
                (unknown_effects claim) [] (NoDup_nil_2)) as H3.
  destruct (check_unknowns _ _ _ [] (unknown_effects claim)) as [ns|[]]; try done.
  2:{ destruct H3 as [Hn Hc]. split; [done|by right]. }
  2:{ destruct H3 as [Hi Hn]. right. split; [done|]. unfold record_ids in *. tauto. }
  destruct H3 as (-> & H3 & Hall). cbn [app] in *.
  change (map cu_execution_id (unknown_effects claim)) with (named_ids claim) in *.
  pose proof (adopt_effects_spec ev (named_ids claim) (survivor_ids claim)) as H4.
  destruct (adopt_effects ev (named_ids claim) (survivor_ids claim)) as [out|[]]; try done.
  2:{ destruct H4 as [Hc Hn]. split; [done|by left]. }
  2:{ by right. }
  2:{ by left. }
  destruct H4 as [H4 Hcov].
  pose proof (check_claimed_spec (survivor_ids claim) ev) as H5.
  destruct (check_claimed (survivor_ids claim) ev); [|by destruct H5 as (i & -> & Hi)].
  rewrite Forall_forall in Hall. rewrite Forall_forall in Hcov. split; [|done]. split_and!; try done.
  - intros i. split; [|apply H5]. intros Hi. by apply Hcov.
  - intros i d. split.
    + intros Hx. apply Hall in Hx. done.
    + intros [-> Hc]. destruct (Hcov i (H5 i (carried_in _ _ _ Hc))) as (_ & u & Hu & Hiff).
      rewrite (carried_unique _ _ _ _ H1 Hu Hc) in Hiff.
      apply proj1 in Hiff. specialize (Hiff eq_refl). apply named_elem in Hiff as [d Hd].
      destruct (Hall _ Hd) as [Hesc _]. cbn [disposition] in Hesc. by subst d.
Qed.

(** ** Properties *)

(** The adoption check decides its rule.  A claim is accepted exactly when its
    collections are within the bound, its fence is the supervisor's epoch, the
    prior session failed, claim and evidence name the same effects without
    repetition, and the uncertain effects, no others, are named escalated; the
    history then declares the claimed effects in claim order, each a copy of its
    record and quarantined exactly when it is uncertain.  Every refusal is
    typed, and what it reports is true of the claim. *)
Theorem check_adoption_exact claim evidence epoch :
  match check_adoption claim evidence epoch with
  | Ok h => adoptable claim evidence epoch ∧ adopted_from claim evidence h
  | Err e => refused_for claim evidence epoch e ∧ ¬ adoptable claim evidence epoch
  end.
Proof.
  pose proof (check_adoption_spec claim evidence epoch) as H.
  destruct (check_adoption claim evidence epoch); [done|].
  split; [done|]. by eapply refused_not_adoptable.
Qed.

Section Crashed.
Context {W : Type}.
Implicit Types a : Agent W.

(** The claim a supervisor makes over the records of a crashed agent. *)
Definition crash_claim a (epoch : Z) : AdoptionClaim :=
  mkClaim a.(session).(state) (record_ids a.(executions))
    (map (λ r, mkClaimed r.(xr_execution_id) Escalated) (List.filter is_unknown a.(executions)))
    epoch.

Lemma crash_claim_adoptable a epoch :
  agent_ok a → a.(session).(state) = Failed → adoptable (crash_claim a epoch) a.(executions) epoch.
Proof.
  intros (_ & Hlen & Hnd & _) Hst.
  assert (named_ids (crash_claim a epoch) = record_ids (List.filter is_unknown a.(executions))) as Hn.
  { unfold named_ids, crash_claim, record_ids. cbn [unknown_effects]. by rewrite map_map. }
  unfold adoptable. rewrite Hn. split_and!; try done.
  - unfold adoption_size, crash_claim, record_ids. cbn [survivor_ids unknown_effects].
    unfold MAX_EXECUTIONS_PER_AGENT, MAX_ADOPTION_SURVIVORS, len in *. rewrite !length_map.
    pose proof (filter_length_le is_unknown a.(executions)). lia.
  - eapply sublist_NoDup; [exact Hnd|]. unfold record_ids. apply sublist_map, sublist_List_filter.
  - intros i d. cbn [crash_claim unknown_effects]. rewrite list_elem_of_fmap. split.
    + intros (r & [= -> ->] & Hr). split; [done|]. apply list_elem_of_In, filter_In in Hr as [Hr Hu].
      exists r. by apply list_elem_of_In in Hr.
    + intros (-> & r & Hr & <- & Hu). exists r. split; [done|].
      apply list_elem_of_In, filter_In. by apply list_elem_of_In in Hr.
Qed.

Lemma with_session_ok s a : agent_ok a → agent_ok (with_session s a).
Proof. done. Qed.

Lemma adopted_own evidence k es :
  NoDup (record_ids evidence) → (∀ r, r ∈ k → r ∈ evidence) →
  Forall2 (λ i e, ∃ r, r ∈ evidence ∧ r.(xr_execution_id) = i ∧ e = adopt r) (record_ids k) es →
  es = map adopt k.
Proof.
  intros Hnd. revert es. induction k as [|r k IH]; intros es Hk Hf; simpl in *.
  { by inversion Hf. }
  inversion Hf as [|? ? ? es' (r' & Hr' & Hi & ->) Hf']; subst. f_equal.
  - f_equal. apply (record_unique evidence); try done. apply Hk, list_elem_of_here.
  - apply IH; [|done]. intros x Hx. by apply Hk, list_elem_of_further.
Qed.

(** Nothing a crashed agent recorded is lost to its supervisor.  Whatever
    history led to it, the turn records of an agent whose session failed are
    accepted whole under the claim that names them and escalates the uncertain
    ones: the history is those records in order, and the quarantined ids are
    exactly the uncertain effects. *)
Theorem failed_agent_adoptable a epoch :
  agent_ok a → a.(session).(state) = Failed →
  ∃ h, check_adoption (crash_claim a epoch) a.(executions) epoch = Ok h
  ∧ h.(effects) = map adopt a.(executions)
  ∧ quarantined_ids h = record_ids (List.filter is_unknown a.(executions)).
Proof.
  intros Hok Hst. pose proof (crash_claim_adoptable a epoch Hok Hst) as Hr.
  destruct Hok as (_ & _ & Hnd & _).
  pose proof (check_adoption_spec (crash_claim a epoch) a.(executions) epoch) as H.
  destruct (check_adoption (crash_claim a epoch) a.(executions) epoch) as [[es]|e].
  2:{ by destruct (refused_not_adoptable _ _ _ _ H). }
  destruct H as [_ Hf]. exists (mkHistory es). split; [done|].
  apply (adopted_own a.(executions)) in Hf; [|done|by auto].
  cbn [effects] in *. subst es. split; [done|].
  unfold quarantined_ids. cbn [effects]. clear. unfold record_ids.
  generalize (executions a). intros l. induction l as [|r l IH]; simpl; [done|].
  destruct (is_unknown r); simpl; by rewrite IH.
Qed.
End Crashed.

(** ** Witnesses *)

Definition demo_records : list ExecutionRecord :=
  [mkRecord 11 "fs.read" StatusSuccess Accepted; mkRecord 12 "net.post" (StatusUnknown "lost ack") Accepted].

(** An omitted uncertain effect is refused, an escalated one is quarantined, and
    nothing of a live session is adopted. *)
Example check_adoption_runs :
  check_adoption (mkClaim Failed [12; 11] [] 4) demo_records 4 = Err (UnreconciledUnknown 12)
  ∧ (quarantined_ids <$>
      match check_adoption (mkClaim Failed [12; 11] [mkClaimed 12 Escalated] 4) demo_records 4 with
      | Ok h => Some h | Err _ => None
      end) = Some [12]
  ∧ check_adoption (mkClaim Active [11] [] 4) demo_records 4 = Err LiveSession
  ∧ check_adoption (mkClaim Failed [11; 12] [mkClaimed 12 Escalated; mkClaimed 9 Escalated] 4)
      demo_records 4 = Err (MissingEvidence 9).
Proof. vm_compute. done. Qed.

(** The agent that lost an acknowledgement, its session then failed. *)
Definition crashed_agent : Agent FakeWorld := with_session (finish true lost_agent.(session)) lost_agent.

Lemma failed_agent_adoptable_witness :
  ∃ h, check_adoption (crash_claim crashed_agent 4) crashed_agent.(executions) 4 = Ok h
  ∧ quarantined_ids h = [11].
Proof.
  destruct (failed_agent_adoptable crashed_agent 4) as (h & Hh & _ & Hq).
  - apply with_session_ok, lost_agent_ok.
  - vm_compute. reflexivity.
  - exists h. split; [exact Hh|]. rewrite Hq. vm_compute. reflexivity.
Defined.
