(* ===== verification/PromptPolicy.v ===== *)
(** * PromptPolicy: what an assembled prompt promises

    Theorems about [Prompt]: assembly only narrows, does not depend on the order
    of the layers, resolves directives by precedence with a complete audit, and
    returns well-formed prompts. *)

From S2P Require Import Prelude Text Order Session ToolTypes Prompt.

Local Open Scope Z_scope.

(** ** Layers in precedence order *)

Lemma layer_rank_inj : Inj (=) (=) layer_rank.
Proof. by intros [] []. Qed.

Lemma ordered_perm l : ordered_layers l ≡ₚ l.
Proof. apply sort_by_key_perm. Qed.

Lemma ordered_strict l :
  NoDup (ranks l) → StronglySorted (key_lt (λ i, layer_rank i.(li_layer))) (ordered_layers l).
Proof. apply sort_by_key_strict. Qed.

Lemma ordered_unique l l' : NoDup (ranks l') → l ≡ₚ l' → ordered_layers l = ordered_layers l'.
Proof. apply sort_by_key_unique. Qed.

(** ** Directives *)

(** The entry that wins: the first directive with the key. *)
Definition first_directive (l : list (PromptLayer * Directive)) (key : string) :
    option (string * PromptLayer) :=
  (λ p, (p.2.(dir_value), p.1)) <$> find (λ p, str_eqb p.2.(dir_key) key) l.

Lemma find_app {A} (f : A → bool) l k :
  find f (l ++ k) = match find f l with Some x => Some x | None => find f k end.
Proof. induction l as [|x l IH]; simpl; [done|]. by destruct (f x). Qed.

Lemma first_directive_snoc l L d key :
  first_directive (l ++ [(L, d)]) key =
  match first_directive l key with
  | Some e => Some e
  | None => if str_eqb d.(dir_key) key then Some (d.(dir_value), L) else None
  end.
Proof.
  unfold first_directive. rewrite find_app. destruct (find _ l); [done|]. simpl.
  by destruct (str_eqb (dir_key d) key).
Qed.

Lemma btree_get_Some m k v :
  NoDup (map fst m) → btree_get m k = Some v ↔ (k, v) ∈ m.
Proof.
  unfold btree_get. induction m as [|[k' v'] m IH]; intros Hnd; simpl.
  { split; [done|]. intros H. by apply not_elem_of_nil in H. }
  apply NoDup_cons in Hnd as [Hn Hnd]. rewrite elem_of_cons.
  destruct (str_eqb k' k) eqn:E; simpl.
  - apply str_eqb_eq in E as ->. split; [intros [= ->]; by left|].
    intros [[= ->]|Hin]; [done|]. by apply (list_elem_of_fmap_2 fst) in Hin.
  - apply str_eqb_neq in E. rewrite IH by done. split; [by right|]. by intros [[= -> _]|?].
Qed.

Lemma btree_get_None m k : btree_get m k = None ↔ k ∉ map fst m.
Proof.
  unfold btree_get. induction m as [|[k' v'] m IH]; simpl.
  { split; [|done]. intros _ H. by apply not_elem_of_nil in H. }
  rewrite not_elem_of_cons. destruct (str_eqb k' k) eqn:E; simpl.
  - apply str_eqb_eq in E as ->. split; [done|]. by intros [? _].
  - apply str_eqb_neq in E. rewrite IH. split; [|by intros [_ ?]]. by split.
Qed.

(** The map of the loop: its entries are the winners, in key order. *)
Definition winners (l : list (PromptLayer * Directive)) (m : DirectiveMap) : Prop :=
  StronglySorted (key_lt fst) m ∧ ∀ k v, (k, v) ∈ m ↔ first_directive l k = Some v.

Lemma strict_keys {V} (m : list (string * V)) : StronglySorted (key_lt fst) m → NoDup (map fst m).
Proof.
  induction 1 as [|[k v] m Hs IH Hall]; simpl; constructor; [|done].
  intros Hin. apply list_elem_of_fmap in Hin as ([k' v'] & He & Hin). simpl in He. subst k'.
  rewrite Forall_forall in Hall. by apply (key_lt_irrefl fst (k, v)), (Hall _ Hin).
Qed.

Lemma winners_get l m k : winners l m → btree_get m k = first_directive l k.
Proof.
  intros [Hs Hm]. apply option_eq. intros v. rewrite btree_get_Some by by apply strict_keys.
  apply Hm.
Qed.

Lemma winners_insert l m L d :
  winners l m → btree_get m d.(dir_key) = None →
  winners (l ++ [(L, d)]) (btree_insert d.(dir_key) (d.(dir_value), L) m).
Proof.
  intros Hw Hn. pose proof Hw as [Hs Hm]. split.
  - apply sorted_strict.
    + unfold btree_insert. rewrite insert_by_perm. simpl. constructor; [|by apply strict_keys].
      by apply btree_get_None.
    + apply insert_by_sorted; [apply key_le_total|apply key_le_trans|].
      clear -Hs. induction Hs as [|x l Hs IH Hall]; constructor; [done|].
      eapply Forall_impl; [exact Hall|]. intros y Hy. apply key_le_lt. by left.
  - intros k v. unfold btree_insert. rewrite insert_by_perm, elem_of_cons, Hm, first_directive_snoc.
    rewrite (winners_get l m) in Hn by done. destruct (str_eqb (dir_key d) k) eqn:E.
    + apply str_eqb_eq in E as <-. rewrite Hn. split; [by intros [[= ->]|?]|intros [= <-]; by left].
    + apply str_eqb_neq in E. destruct (first_directive l k); [|split; [by intros [[= -> _]|?]|done]].
      split; [by intros [[= ? _]|?]|by right].
Qed.

Lemma winners_skip l m L d e :
  winners l m → btree_get m d.(dir_key) = Some e → winners (l ++ [(L, d)]) m.
Proof.
  intros Hw He. pose proof Hw as [Hs Hm]. split; [done|]. intros k v. rewrite Hm, first_directive_snoc.
  rewrite (winners_get l m) in He by done.
  destruct (first_directive l k) eqn:E; [done|].
  destruct (str_eqb (dir_key d) k) eqn:Ek; [|done]. apply str_eqb_eq in Ek as <-. congruence.
Qed.

(** [o] records that a later directive of [l] lost against the winner. *)
Definition loses (l : list (PromptLayer * Directive)) (o : DirectiveOverride) : Prop :=
  first_directive l o.(ov_key) = Some (o.(winning_value), o.(winning_layer))
  ∧ (o.(overridden_layer), mkDirective o.(ov_key) o.(overridden_value)) ∈ l
  ∧ o.(winning_value) ≠ o.(overridden_value).

(** No directive of [l] conflicts with its winner beyond resolution. *)
Definition resolvable (l : list (PromptLayer * Directive)) : Prop :=
  ∀ L d v W, (L, d) ∈ l → first_directive l d.(dir_key) = Some (v, W) → v ≠ d.(dir_value) →
    is_never_merge_directive_key d.(dir_key) = false ∧ W ≠ L.

Lemma first_directive_stable l L d k e :
  first_directive l k = Some e → first_directive (l ++ [(L, d)]) k = Some e.
Proof. intros H. by rewrite first_directive_snoc, H. Qed.

Lemma first_directive_elem l L d : (L, d) ∈ l → ∃ e, first_directive l d.(dir_key) = Some e.
Proof.
  intros Hin. destruct (first_directive l d.(dir_key)) as [e|] eqn:E; [by exists e|].
  unfold first_directive in E. destruct (find _ l) eqn:Ef; [done|].
  rewrite find_None_iff in Ef. specialize (Ef _ Hin). simpl in Ef. by rewrite str_eqb_refl in Ef.
Qed.

Lemma first_directive_value l k v L :
  first_directive l k = Some (v, L) → (L, mkDirective k v) ∈ l.
Proof.
  unfold first_directive. destruct (find _ l) as [[L' [k' v']]|] eqn:Ef; [|done]. simpl.
  intros [= <- <-]. apply find_Some_elem in Ef as [Hin He]. simpl in He.
  by apply str_eqb_eq in He as <-.
Qed.

(** The loop keeps its three facts: winners, records, no unresolved conflict. *)
Definition merged (l : list (PromptLayer * Directive)) (m : DirectiveMap)
    (os : list DirectiveOverride) : Prop :=
  winners l m ∧ (∀ o, o ∈ os ↔ loses l o) ∧ resolvable l.

Lemma loses_snoc l L d o :
  loses (l ++ [(L, d)]) o ↔
  loses l o ∨ ∃ v W, first_directive l d.(dir_key) = Some (v, W) ∧ v ≠ d.(dir_value)
                     ∧ o = mkOverride d.(dir_key) v W d.(dir_value) L.
Proof.
  unfold loses. rewrite first_directive_snoc, elem_of_app, list_elem_of_singleton. split.
  - intros (Hf & Hin & Hne). destruct (first_directive l (ov_key o)) as [[v W]|] eqn:E.
    + destruct Hin as [Hin|Hin]; [by left|]. injection Hf as -> ->. right.
      destruct o as [k wv wl ovv ol]; simpl in *. injection Hin as -> <-. simpl. by eexists _, _.
    + destruct Hin as [Hin|Hin].
      * apply first_directive_elem in Hin as [e He]. simpl in He. congruence.
      * destruct o as [k wv wl ovv ol]; simpl in *. injection Hin as -> <-. simpl in *.
        rewrite str_eqb_refl in Hf. by injection Hf as <- <-.
  - intros [(Hf & Hin & Hne)|(v & W & Hf & Hne & ->)].
    + rewrite Hf. split_and!; [done|by left|done].
    + simpl. rewrite Hf. split_and!; [done| |done]. right. by destruct d.
Qed.

Lemma resolvable_snoc l L d :
  resolvable l →
  (∀ v W, first_directive l d.(dir_key) = Some (v, W) → v ≠ d.(dir_value) →
     is_never_merge_directive_key d.(dir_key) = false ∧ W ≠ L) →
  resolvable (l ++ [(L, d)]).
Proof.
  intros Hl Hd L' d' v W Hin Hf Hne. apply elem_of_app in Hin as [Hin|Hin].
  - destruct (first_directive_elem _ _ _ Hin) as [e He].
    rewrite (first_directive_stable _ _ _ _ _ He) in Hf. injection Hf as ->. by eapply Hl.
  - apply list_elem_of_singleton in Hin as [= -> ->]. rewrite first_directive_snoc in Hf.
    destruct (first_directive l (dir_key d)) as [e|] eqn:E; [injection Hf as ->; by eapply Hd|].
    rewrite str_eqb_refl in Hf. by injection Hf as <- <-.
Qed.

Lemma merge_directive_spec l m os L d :
  merged l m os →
  match merge_directive m os L d with
  | Ok (m', os') => merged (l ++ [(L, d)]) m' os'
  | Err e => ∃ v W, e = UnresolvableConflict d.(dir_key) v d.(dir_value)
      ∧ first_directive l d.(dir_key) = Some (v, W) ∧ v ≠ d.(dir_value)
      ∧ (is_never_merge_directive_key d.(dir_key) = true ∨ W = L)
  end.
Proof.
  intros (Hw & Ho & Hr). unfold merge_directive. pose proof (winners_get _ _ (dir_key d) Hw) as Hg.
  destruct (btree_get m (dir_key d)) as [[v W]|] eqn:E.
  - destruct (str_eqb v (dir_value d)) eqn:Ev; simpl.
    + apply str_eqb_eq in Ev. split_and!; [by eapply winners_skip| |].
      * intros o. rewrite Ho, loses_snoc. split; [by left|].
        intros [?|(v' & W' & Hf & Hne & _)]; [done|congruence].
      * apply resolvable_snoc; [done|]. intros v' W' Hf Hne. congruence.
    + apply str_eqb_neq in Ev. destruct (is_never_merge_directive_key (dir_key d)) eqn:En; simpl.
      { exists v, W. split_and!; auto. }
      destruct (layer_eqb W L) eqn:EL; simpl; unfold layer_eqb in EL; reflect_bools.
      { exists v, W. split_and!; auto. }
      split_and!; [by eapply winners_skip| |].
      * intros o. rewrite elem_of_app, list_elem_of_singleton, Ho, loses_snoc. split.
        -- intros [?| ->]; [by left|right]. by exists v, W.
        -- intros [?|(v' & W' & Hf & Hne & ->)]; [by left|right]. congruence.
      * apply resolvable_snoc; [done|]. intros v' W' Hf Hne. rewrite <- Hg in Hf. by injection Hf as -> ->.
  - split_and!; [by apply winners_insert| |].
    + intros o. rewrite Ho, loses_snoc. split; [by left|].
      intros [?|(v' & W' & Hf & _)]; [done|congruence].
    + apply resolvable_snoc; [done|]. intros v' W' Hf. congruence.
Qed.

Lemma merge_directives_spec l : ∀ l0 m os,
  merged l0 m os →
  match merge_directives m os l with
  | Ok (m', os') => merged (l0 ++ l) m' os'
  | Err e => ∃ L d v W l1 l2, l = l1 ++ (L, d) :: l2
      ∧ e = UnresolvableConflict d.(dir_key) v d.(dir_value)
      ∧ first_directive (l0 ++ l1) d.(dir_key) = Some (v, W) ∧ v ≠ d.(dir_value)
      ∧ (is_never_merge_directive_key d.(dir_key) = true ∨ W = L)
  end.
Proof.
  induction l as [|[L d] l IH]; intros l0 m os Hm; simpl; [by rewrite app_nil_r|].
  pose proof (merge_directive_spec _ _ _ L d Hm) as Hd.
  destruct (merge_directive m os L d) as [[m' os']|e].
  - specialize (IH _ _ _ Hd). rewrite <- app_assoc in IH. cbn [app] in IH.
    destruct (merge_directives m' os' l) as [[m2 os2]|e]; [done|].
    destruct IH as (L' & d' & v & W & l1 & l2 & -> & Hrest).
    exists L', d', v, W, ((L, d) :: l1), l2. split; [done|].
    by rewrite <- app_assoc in Hrest.
  - destruct Hd as (v & W & Hrest). exists L, d, v, W, [], l. by rewrite app_nil_r.
Qed.

Lemma merged_nil : merged [] [] [].
Proof.
  split_and!.
  - split; [constructor|]. intros k v. split; [|done]. intros H. by apply not_elem_of_nil in H.
  - intros o. split; [intros H; by apply not_elem_of_nil in H|]. by intros [? _].
  - intros L d v W H. by apply not_elem_of_nil in H.
Qed.

(** ** From the ordered layers to precedence *)

(** The snapshot's layer [L] sets [k] to [v]. *)
Definition declares (ls : list LayerInput) (L : PromptLayer) (k v : string) : Prop :=
  ∃ i, i ∈ ls ∧ i.(li_layer) = L ∧ mkDirective k v ∈ i.(li_directives).

(** The winning declaration: no layer of lower rank sets the key. *)
Definition prevails (ls : list LayerInput) (L : PromptLayer) (k v : string) : Prop :=
  declares ls L k v ∧ ∀ L' v', declares ls L' k v' → layer_rank L ≤ layer_rank L'.

Lemma elem_of_concat {A} (x : A) ll : x ∈ concat ll ↔ ∃ l, x ∈ l ∧ l ∈ ll.
Proof.
  rewrite list_elem_of_In, in_concat. setoid_rewrite list_elem_of_In. naive_solver.
Qed.

Lemma layer_directives_elem ls L k v :
  (L, mkDirective k v) ∈ layer_directives ls ↔ declares ls L k v.
Proof.
  unfold layer_directives, declares. rewrite elem_of_concat. split.
  - intros (x & Hin & Hx). apply list_elem_of_fmap in Hx as (i & -> & Hi).
    apply list_elem_of_fmap in Hin as (d & [= -> <-] & Hd). by exists i.
  - intros (i & Hi & <- & Hd). eexists. split; [|by apply list_elem_of_fmap_2].
    by apply list_elem_of_fmap_2.
Qed.

Lemma declares_cons i ls L k v :
  declares (i :: ls) L k v ↔
  i.(li_layer) = L ∧ mkDirective k v ∈ i.(li_directives) ∨ declares ls L k v.
Proof.
  unfold declares. setoid_rewrite elem_of_cons. split.
  - intros (j & [->|Hj] & HL & Hd); [by left|right]. by exists j.
  - intros [[HL Hd]|(j & Hj & HL & Hd)]; [exists i|exists j]; auto.
Qed.

Lemma first_lowest ls k v L :
  StronglySorted (key_lt (λ i, layer_rank i.(li_layer))) ls →
  first_directive (layer_directives ls) k = Some (v, L) → prevails ls L k v.
Proof.
  intros Hs Hf. split; [by apply layer_directives_elem, first_directive_value|].
  induction Hs as [|i ls Hs IH Hall]; [done|]. intros L' v' Hd.
  assert (∀ j, j ∈ ls → layer_rank i.(li_layer) < layer_rank j.(li_layer)) as Hlt.
  { intros j Hj. rewrite Forall_forall in Hall. exact (Hall j Hj). }
  unfold layer_directives, first_directive in Hf. cbn [map concat] in Hf. rewrite find_app in Hf.
  destruct (find _ (map (pair (li_layer i)) (li_directives i))) as [[L0 d]|] eqn:Ef.
  - apply find_Some_elem in Ef as [Hin _]. apply list_elem_of_fmap in Hin as (d' & [= -> ->] & _).
    injection Hf as _ <-. apply declares_cons in Hd as [[<- _]|(j & Hj & <- & _)]; [done|].
    apply Z.lt_le_incl, Hlt, Hj.
  - apply declares_cons in Hd as [[_ Hd]|Hd]; [|by eapply IH].
    rewrite find_None_iff in Ef. specialize (Ef (li_layer i, mkDirective k v')).
    simpl in Ef. rewrite str_eqb_refl in Ef. by discriminate Ef; apply list_elem_of_fmap_2.
Qed.

Lemma first_prevails ls k v L :
  StronglySorted (key_lt (λ i, layer_rank i.(li_layer))) ls →
  resolvable (layer_directives ls) →
  first_directive (layer_directives ls) k = Some (v, L) ↔ prevails ls L k v.
Proof.
  intros Hs Hr. split; [by apply first_lowest|]. intros [Hd Hmin].
  pose proof (proj2 (layer_directives_elem ls L k v) Hd) as Hin.
  destruct (first_directive_elem _ _ _ Hin) as [[v0 L0] He]. simpl in He.
  destruct (first_lowest _ _ _ _ Hs He) as [Hd0 Hmin0].
  assert (L0 = L) as ->. { apply layer_rank_inj. specialize (Hmin0 _ _ Hd). specialize (Hmin _ _ Hd0). lia. }
  destruct (decide (v0 = v)) as [->|Hne]; [done|].
  by destruct (Hr L (mkDirective k v) v0 L Hin He Hne).
Qed.

Lemma declares_perm ls ls' L k v : ls ≡ₚ ls' → declares ls L k v ↔ declares ls' L k v.
Proof. intros Hp. unfold declares. by setoid_rewrite Hp. Qed.

Lemma prevails_perm ls ls' L k v : ls ≡ₚ ls' → prevails ls L k v ↔ prevails ls' L k v.
Proof.
  intros Hp. unfold prevails. rewrite (declares_perm ls ls') by done.
  by setoid_rewrite (declares_perm ls ls' _ _ _ Hp).
Qed.

(** ** What a successful assembly is made of *)

Definition rendered (p : AssembledPrompt) : bytes :=
  render_head p.(core_version) ++ concat (map render_section p.(sections)) ++ render_effective p.

Lemma assemble_prompt_inv s p :
  assemble_prompt s = Ok p →
  snapshot_validate s = Ok tt
  ∧ let ls := ordered_layers s.(snap_layers) in
    p.(core_version) = s.(snap_core_version) ∧ p.(sections) = map (section_of ls) stable_order
    ∧ p.(effective_denied_tools) = merge_denied ls
    ∧ p.(effective_allowed_tools) = merge_narrowing None (map li_allowed_tools ls)
    ∧ p.(effective_allowed_tools) ≠ Some []
    ∧ p.(effective_budget_ceiling_bytes) = merge_budget None (map li_budget_ceiling_bytes ls)
    ∧ p.(effective_scopes) = merge_narrowing None (map li_allowed_scopes ls)
    ∧ (∃ m os, merged (layer_directives ls) m os
         ∧ p.(effective_directives) = map (λ e, mkDirective e.1 e.2.1) m
         ∧ p.(merge_overrides) = sorted_set override_key os)
    ∧ p.(canonical_bytes) = rendered p ∧ len p.(canonical_bytes) ≤ MAX_CANONICAL_BYTES
    ∧ ∀ c, p.(effective_budget_ceiling_bytes) = Some c → len p.(canonical_bytes) ≤ c.
Proof.
  unfold assemble_prompt. destruct (snapshot_validate s) as [[]|]; [|done]. intros Ha.
  split; [done|]. set (ls := ordered_layers (snap_layers s)) in *. cbv zeta.
  unfold assemble_ordered in Ha. case_if_in Ha; [|done]. reflect_bools.
  pose proof (merge_directives_spec (layer_directives ls) [] [] [] merged_nil) as Hm.
  destruct (merge_directives [] [] (layer_directives ls)) as [[m os]|]; [|done].
  match goal with H : context [render_canonical ?q] |- _ => set (p0 := q) in H end.
  unfold render_canonical in Ha. change (render_head _ ++ _) with (rendered p0) in Ha.
  destruct (len (rendered p0) >? MAX_CANONICAL_BYTES) eqn:E; [done|]. simpl in Ha. reflect_bools.
  destruct (merge_budget None (map li_budget_ceiling_bytes ls)) as [c|] eqn:Eb.
  - destruct (len (rendered p0) >? c) eqn:Ec; [done|]. simpl in Ha. injection Ha as <-.
    reflect_bools. split_and!; try done; [by exists m, os|]. cbn. intros ? [= <-]. done.
  - injection Ha as <-. split_and!; try done. by exists m, os.
Qed.

(** ** Well-formed prompts *)

(** Validation of one layer, field by field. *)
Lemma layer_ok_inv i :
  layer_ok i →
  validate_layer_text i.(li_layer) i.(li_text) = Ok tt
  ∧ validate_pinned_layer_trust i.(li_layer) i.(li_text) = Ok tt
  ∧ (∀ l, i.(li_allowed_tools) = Some l → Forall (λ n, validate_prompt_tool_name n = Ok tt) l)
  ∧ Forall (λ n, validate_prompt_tool_name n = Ok tt) i.(li_denied_tools)
  ∧ (∀ b, i.(li_budget_ceiling_bytes) = Some b → 1 ≤ b ≤ MAX_BUDGET_CEILING_BYTES)
  ∧ (∀ l, i.(li_allowed_scopes) = Some l → Forall (λ n, validate_scope n = Ok tt) l)
  ∧ Forall (λ d, validate_directive d = Ok tt) i.(li_directives).
Proof.
  unfold layer_ok, LayerInput_validate. intros H.
  destruct (validate_layer_text _ _) as [[]|]; [|done].
  destruct (validate_pinned_layer_trust _ _) as [[]|]; [|done].
  destruct (match li_allowed_tools i with Some _ => _ | None => _ end) as [[]|] eqn:E1; [|done].
  case_if_in H; [|done].
  destruct (validate_all validate_prompt_tool_name (li_denied_tools i)) as [[]|] eqn:E2; [|done].
  destruct (match li_budget_ceiling_bytes i with Some _ => _ | None => _ end) as [[]|] eqn:E3; [|done].
  destruct (match li_allowed_scopes i with Some _ => _ | None => _ end) as [[]|] eqn:E4; [|done].
  case_if_in H; [|done]. rewrite validate_all_ok in E2. rewrite validate_all_ok in H.
  split_and!; try done.
  - intros l Hl. rewrite Hl in E1. case_if_in E1; [|done]. by apply validate_all_ok.
  - intros b Hb. rewrite Hb in E3. unfold validate_budget_ceiling in E3. case_if_in E3; [|done].
    by reflect_bools.
  - intros l Hl. rewrite Hl in E4. case_if_in E4; [|done]. by apply validate_all_ok.
Qed.

Definition directive_ok (d : Directive) : Prop := validate_directive d = Ok tt.

Definition override_ok (o : DirectiveOverride) : Prop :=
  directive_ok (mkDirective o.(ov_key) o.(winning_value))
  ∧ directive_ok (mkDirective o.(ov_key) o.(overridden_value))
  ∧ layer_rank o.(winning_layer) < layer_rank o.(overridden_layer)
  ∧ o.(winning_value) ≠ o.(overridden_value)
  ∧ is_never_merge_directive_key o.(ov_key) = false.

(** The type invariant of [AssembledPrompt]. *)
Record prompt_wf (p : AssembledPrompt) : Prop := {
  wf_version : validate_core_version p.(core_version) = Ok tt;
  wf_layers : map sec_layer p.(sections) = stable_order;
  wf_texts : Forall (λ s, validate_layer_text s.(sec_layer) s.(sec_text) = Ok tt
                          ∧ validate_pinned_layer_trust s.(sec_layer) s.(sec_text) = Ok tt) p.(sections);
  wf_allowed l : p.(effective_allowed_tools) = Some l →
    l ≠ [] ∧ sorted_strings l ∧ Forall (λ n, validate_prompt_tool_name n = Ok tt) l;
  wf_denied : sorted_strings p.(effective_denied_tools)
    ∧ Forall (λ n, validate_prompt_tool_name n = Ok tt) p.(effective_denied_tools);
  wf_budget b : p.(effective_budget_ceiling_bytes) = Some b → 1 ≤ b ≤ MAX_BUDGET_CEILING_BYTES;
  wf_scopes l : p.(effective_scopes) = Some l →
    sorted_strings l ∧ Forall (λ n, validate_scope n = Ok tt) l;
  wf_directives : StronglySorted (key_lt dir_key) p.(effective_directives)
    ∧ Forall directive_ok p.(effective_directives);
  wf_overrides : StronglySorted (key_lt override_key) p.(merge_overrides)
    ∧ Forall override_ok p.(merge_overrides);
  wf_canonical : p.(canonical_bytes) = rendered p ∧ len p.(canonical_bytes) ≤ MAX_CANONICAL_BYTES
}.

Lemma override_key_inj : Inj (=) (=) override_key.
Proof.
  intros [k wv wl ov ol] [k' wv' wl' ov' ol']. unfold override_key. simpl.
  intros [= -> Hol -> Hwl ->]. by apply layer_rank_inj in Hol as ->, Hwl as ->.
Qed.

(** A member of a narrowed set is in every list that constrains. *)
Lemma narrowed_elem ls (f : LayerInput → option (list string)) out x :
  merge_narrowing None (map f ls) = Some out →
  x ∈ out ↔ ∀ i l, i ∈ ls → f i = Some l → x ∈ l.
Proof.
  intros Hm. pose proof (merge_narrowing_spec (map f ls) None) as H. rewrite Hm in H.
  destruct H as (_ & Hin & _). rewrite Hin. split.
  - intros [_ Hl] i l Hi Hf. apply Hl. rewrite <- Hf. by apply list_elem_of_fmap_2.
  - intros Hl. split; [done|]. intros l Hin'. apply list_elem_of_fmap in Hin' as (i & Hf & Hi). eauto.
Qed.

Lemma narrowed_from ls (f : LayerInput → option (list string)) out :
  merge_narrowing None (map f ls) = Some out →
  sorted_strings out ∧ ∃ i l, i ∈ ls ∧ f i = Some l ∧ ∀ x, x ∈ out → x ∈ l.
Proof.
  intros Hm. pose proof (merge_narrowing_spec (map f ls) None) as H. rewrite Hm in H.
  destruct H as (Hex & Hin & Hs). split; [by apply Hs|].
  destruct (Hex eq_refl) as [l Hl]. apply list_elem_of_fmap in Hl as (i & Hf & Hi).
  exists i, l. split_and!; [done..|]. intros x Hx. by eapply narrowed_elem in Hx.
Qed.

Lemma narrowed_None ls (f : LayerInput → option (list string)) :
  merge_narrowing None (map f ls) = None → ∀ i, i ∈ ls → f i = None.
Proof.
  intros Hm i Hi. pose proof (merge_narrowing_spec (map f ls) None) as H. rewrite Hm in H.
  destruct H as [_ Hn]. destruct (f i) as [l|] eqn:E; [|done].
  destruct (Hn l). rewrite <- E. by apply list_elem_of_fmap_2.
Qed.

Lemma section_texts ls L :
  Forall layer_ok ls →
  validate_layer_text L (section_of ls L).(sec_text) = Ok tt
  ∧ validate_pinned_layer_trust L (section_of ls L).(sec_text) = Ok tt.
Proof.
  intros Hok. unfold section_of. simpl. destruct (find _ ls) as [i|] eqn:E.
  - apply find_Some_elem in E as [Hi HL]. unfold layer_eqb in HL. reflect_bools. subst L.
    rewrite Forall_forall in Hok. by destruct (layer_ok_inv i (Hok i Hi)) as (? & ? & _).
  - by destruct L.
Qed.

Lemma declared_ok ls L k v : Forall layer_ok ls → declares ls L k v → directive_ok (mkDirective k v).
Proof.
  rewrite Forall_forall. intros Hok (i & Hi & _ & Hd).
  destruct (layer_ok_inv i (Hok i Hi)) as (_ & _ & _ & _ & _ & _ & Hall).
  rewrite Forall_forall in Hall. by apply Hall.
Qed.

(** Directives of a successful assembly, in terms of the snapshot. *)
Lemma assembled_directives s p :
  assemble_prompt s = Ok p →
  let ls := s.(snap_layers) in
  StronglySorted (key_lt dir_key) p.(effective_directives)
  ∧ (∀ k v, mkDirective k v ∈ p.(effective_directives) ↔ ∃ L, prevails ls L k v)
  ∧ StronglySorted (key_lt override_key) p.(merge_overrides)
  ∧ (∀ o, o ∈ p.(merge_overrides) ↔
       prevails ls o.(winning_layer) o.(ov_key) o.(winning_value)
       ∧ declares ls o.(overridden_layer) o.(ov_key) o.(overridden_value)
       ∧ o.(winning_value) ≠ o.(overridden_value))
  ∧ (∀ L L' k v v', prevails ls L k v → declares ls L' k v' → v ≠ v' →
       is_never_merge_directive_key k = false ∧ L ≠ L').
Proof.
  intros Ha. apply assemble_prompt_inv in Ha as (Hv & _ & _ & _ & _ & _ & _ & _ & Hd & _).
  destruct Hd as (m & os & (Hw & Ho & Hr) & -> & ->). intros ls.
  apply snapshot_validate_ok in Hv as (_ & _ & _ & Hnd).
  pose proof (ordered_strict ls Hnd) as Hsort. pose proof (ordered_perm ls) as Hp.
  fold ls in Hw, Ho, Hr. destruct Hw as [Hms Hm].
  assert (∀ L k v, first_directive (layer_directives (ordered_layers ls)) k = Some (v, L)
                   ↔ prevails ls L k v) as Hf.
  { intros L k v. rewrite (first_prevails _ _ _ _ Hsort Hr). by apply prevails_perm. }
  split_and!.
  - clear -Hms. induction Hms as [|x m Hms IH Hall]; simpl; constructor; [done|].
    apply Forall_forall. intros d Hd. apply list_elem_of_fmap in Hd as (e & -> & He).
    rewrite Forall_forall in Hall. exact (Hall e He).
  - intros k v. rewrite list_elem_of_fmap. split.
    + intros ([k' [v' L]] & [= -> ->] & Hin). exists L. by apply Hf, Hm.
    + intros [L HL]. exists (k, (v, L)). split; [done|]. by apply Hm, Hf.
  - apply (sorted_set_strict override_key (Inj0 := override_key_inj)).
  - intros o. rewrite sorted_set_elem, Ho. unfold loses.
    by rewrite Hf, layer_directives_elem, (declares_perm _ _ _ _ _ Hp).
  - intros L L' k v v' HL HL' Hne. apply Hf in HL.
    rewrite <- (declares_perm _ _ _ _ _ Hp), <- layer_directives_elem in HL'.
    apply (Hr L' (mkDirective k v') v L HL' HL Hne).
Qed.

(** ** Properties *)

(** What one layer permits. *)
Definition layer_permits (tool : string) (i : LayerInput) : Prop :=
  (tool ∉ i.(li_denied_tools)) ∧ ∀ l, i.(li_allowed_tools) = Some l → tool ∈ l.

Definition layer_scoped (scope : string) (i : LayerInput) : Prop :=
  ∀ l, i.(li_allowed_scopes) = Some l → scope ∈ l.

Lemma assembled_gate s p tool grants :
  assemble_prompt s = Ok p →
  check_dispatch p tool grants = Ok tt ↔ grants = true ∧ Forall (layer_permits tool) s.(snap_layers).
Proof.
  intros Ha. apply assemble_prompt_inv in Ha as (_ & _ & _ & Hd & Hal & _).
  pose proof (ordered_perm s.(snap_layers)) as Hp. set (ls := ordered_layers (snap_layers s)) in *.
  rewrite check_dispatch_ok, <- Hp, Forall_forall, Hd, Hal.
  unfold merge_denied, layer_permits. rewrite string_set_elem, elem_of_concat.
  setoid_rewrite list_elem_of_fmap.
  assert (match merge_narrowing None (map li_allowed_tools ls) with
          | None => True | Some l => tool ∈ l end
          ↔ ∀ i l, i ∈ ls → li_allowed_tools i = Some l → tool ∈ l) as ->.
  { destruct (merge_narrowing None _) as [l|] eqn:E; [by apply narrowed_elem|].
    split; [|done]. intros _ i l Hi Hl. by rewrite (narrowed_None _ _ E i Hi) in Hl. }
  split.
  - intros (-> & Hn & Hl). split; [done|]. intros i Hi. split; [|intros l; by apply Hl].
    intros Hin. apply Hn. eauto.
  - intros [-> Hl]. split_and!; [done| |].
    + intros (l & Hin & i & -> & Hi). by apply (Hl i Hi).
    + intros i l Hi. by apply (Hl i Hi).
Qed.

(** C27: a prompt only narrows.  Under an assembled prompt a tool may be dispatched
    exactly when the dispatcher grants it, no layer denies it and every layer
    with an allow-set lists it; a scope passes exactly when every layer that
    constrains scopes lists it; and the canonical bytes fit the budget ceiling of
    every layer.  No layer, whatever its text, can widen what another allows. *)
Theorem assemble_narrows s p :
  assemble_prompt s = Ok p →
  (∀ tool grants, check_dispatch p tool grants = Ok tt ↔
     grants = true ∧ Forall (layer_permits tool) s.(snap_layers))
  ∧ (∀ scope, (∀ l, p.(effective_scopes) = Some l → scope ∈ l) ↔
       Forall (layer_scoped scope) s.(snap_layers))
  ∧ (∀ i c, i ∈ s.(snap_layers) → i.(li_budget_ceiling_bytes) = Some c →
       len p.(canonical_bytes) ≤ c).
Proof.
  intros Ha. pose proof Ha as (_ & _ & _ & _ & _ & _ & Hb & Hsc & _ & _ & _ & Hc)%assemble_prompt_inv.
  pose proof (ordered_perm s.(snap_layers)) as Hp. set (ls := ordered_layers (snap_layers s)) in *.
  split_and!.
  - intros tool grants. by apply assembled_gate.
  - intros scope. rewrite <- Hp, Forall_forall, Hsc. unfold layer_scoped.
    destruct (merge_narrowing None (map li_allowed_scopes ls)) as [l|] eqn:E.
    + split.
      * intros Hl i Hi k Hk. specialize (Hl l eq_refl). eapply narrowed_elem in Hl; eauto.
      * intros Hl ? [= <-]. apply (narrowed_elem _ _ _ _ E). eauto.
    + split; [|congruence]. intros _ i Hi k Hk. by rewrite (narrowed_None _ _ E i Hi) in Hk.
  - intros i c Hi Hic. pose proof (merge_budget_spec (map li_budget_ceiling_bytes ls) None) as Hm.
    assert (Some c ∈ map li_budget_ceiling_bytes ls) as Hin.
    { rewrite <- Hic. apply list_elem_of_fmap_2. by rewrite Hp. }
    rewrite <- Hb in Hm. destruct (effective_budget_ceiling_bytes p) as [m|].
    + destruct Hm as (_ & _ & Hle). specialize (Hle c Hin). specialize (Hc m eq_refl). lia.
    + destruct Hm as [_ Hn]. by destruct (Hn c).
Qed.

(** Assembly does not depend on the order the layers are supplied in: for a
    valid snapshot any permutation of its layers gives the same prompt, byte for
    byte, or the same refusal. *)
Theorem assemble_order_independent v ls ls' :
  snapshot_validate (mkSnapshot v ls) = Ok tt → ls ≡ₚ ls' →
  assemble_prompt (mkSnapshot v ls) = assemble_prompt (mkSnapshot v ls').
Proof.
  intros Hv Hp. unfold assemble_prompt. rewrite (snapshot_validate_perm v ls ls'), Hv by done.
  simpl. rewrite (ordered_unique ls' ls); [done| |by rewrite Hp].
  by apply snapshot_validate_ok in Hv as (_ & _ & _ & Hnd).
Qed.

(** Directives resolve by precedence and every override is recorded.  Exactly
    the declarations of the highest-precedence layer that sets a key are in
    force, one per key in key order; the audit holds exactly the declarations
    that lost, sorted and without repetition, each beside its winner; keys that
    must never merge have a single value across all layers. *)
Theorem directives_by_precedence s p :
  assemble_prompt s = Ok p →
  let ls := s.(snap_layers) in
  StronglySorted (key_lt dir_key) p.(effective_directives)
  ∧ (∀ k v, mkDirective k v ∈ p.(effective_directives) ↔ ∃ L, prevails ls L k v)
  ∧ StronglySorted (key_lt override_key) p.(merge_overrides)
  ∧ (∀ o, o ∈ p.(merge_overrides) ↔
       prevails ls o.(winning_layer) o.(ov_key) o.(winning_value)
       ∧ declares ls o.(overridden_layer) o.(ov_key) o.(overridden_value)
       ∧ o.(winning_value) ≠ o.(overridden_value))
  ∧ (∀ L L' k v v', is_never_merge_directive_key k = true →
       declares ls L k v → declares ls L' k v' → v = v').
Proof.
  intros Ha ls. destruct (assembled_directives s p Ha) as (H1 & H2 & H3 & H4 & H5).
  fold ls in H2, H4, H5. split_and!; try done. intros L L' k v v' Hk HL HL'.
  assert (∃ v0 L0, prevails ls L0 k v0) as (v0 & L0 & Hw).
  { pose proof Ha as (_ & _ & _ & _ & _ & _ & _ & _ & (m & os & (Hw & _ & Hr) & _) & _)%assemble_prompt_inv.
    apply assemble_prompt_inv in Ha as (Hv & _). apply snapshot_validate_ok in Hv as (_ & _ & _ & Hnd).
    pose proof HL as HL2. rewrite <- (declares_perm _ _ _ _ _ (ordered_perm ls)) in HL2.
    apply layer_directives_elem, first_directive_elem in HL2 as [[v0 L0] Hf]. exists v0, L0.
    rewrite <- (prevails_perm _ _ _ _ _ (ordered_perm ls)).
    apply first_lowest; [by apply ordered_strict|done]. }
  assert (∀ L v, declares ls L k v → v0 = v) as Hall.
  { intros L1 v1 H1'. destruct (decide (v0 = v1)); [done|].
    destruct (H5 L0 L1 k v0 v1 Hw H1'); congruence. }
  by rewrite <- (Hall L v HL), <- (Hall L' v' HL').
Qed.

Lemma permitted_names ls (f : LayerInput → option (list string)) (P : string → Prop) out :
  (∀ i l, i ∈ ls → f i = Some l → Forall P l) →
  merge_narrowing None (map f ls) = Some out → sorted_strings out ∧ Forall P out.
Proof.
  intros Hall Hm. destruct (narrowed_from ls f out Hm) as (Hs & i & l & Hi & Hf & Hsub).
  split; [done|]. specialize (Hall i l Hi Hf). rewrite Forall_forall in *. auto.
Qed.

Lemma assembled_wf s p : assemble_prompt s = Ok p → prompt_wf p.
Proof.
  intros Ha. pose proof (assembled_directives s p Ha) as (Hds & Hdin & Hos & Hoin & Hres).
  apply assemble_prompt_inv in Ha as
    (Hv & Hcv & Hsec & Hden & Hal & Hne & Hb & Hsc & _ & Hcan & Hlen & _).
  apply snapshot_validate_ok in Hv as (Hver & _ & Hok & _).
  pose proof (ordered_perm s.(snap_layers)) as Hp.
  assert (Forall layer_ok (ordered_layers s.(snap_layers))) as Hok' by by rewrite Hp.
  set (ls := ordered_layers (snap_layers s)) in *. clearbody ls.
  pose proof Hok' as Hall. rewrite Forall_forall in Hall.
  constructor; try done.
  - by rewrite Hcv.
  - rewrite Hsec, map_map. apply map_id.
  - rewrite Hsec, Forall_forall. intros x Hx. apply list_elem_of_fmap in Hx as (L & -> & _).
    by apply section_texts.
  - intros l Hl. split; [congruence|]. rewrite Hal in Hl. eapply permitted_names; [|exact Hl].
    intros i k Hi Hk. by apply (layer_ok_inv i (Hall i Hi)).
  - rewrite Hden. split; [apply string_set_sorted|]. apply Forall_forall. intros n Hn.
    unfold merge_denied in Hn. rewrite string_set_elem, elem_of_concat in Hn.
    destruct Hn as (l & Hn & Hl). apply list_elem_of_fmap in Hl as (i & -> & Hi).
    destruct (layer_ok_inv i (Hall i Hi)) as (_ & _ & _ & Hd & _). rewrite Forall_forall in Hd. auto.
  - intros b Hbb. pose proof (merge_budget_spec (map li_budget_ceiling_bytes ls) None) as Hm.
    rewrite <- Hb, Hbb in Hm. destruct Hm as ([?|Hin] & _); [done|].
    apply list_elem_of_fmap in Hin as (i & Hi & Hin). by apply (layer_ok_inv i (Hall i Hin)).
  - intros l Hl. rewrite Hsc in Hl. eapply permitted_names; [|exact Hl].
    intros i k Hi Hk. by apply (layer_ok_inv i (Hall i Hi)).
  - split; [done|]. apply Forall_forall. intros [k v] Hd. apply Hdin in Hd as [L [Hd _]].
    by apply (declared_ok _ _ _ _ Hok Hd).
  - split; [done|]. apply Forall_forall. intros o Ho. apply Hoin in Ho as (Hw & Hl & Hneq).
    destruct (Hres _ _ _ _ _ Hw Hl Hneq) as [Hnm HLne]. pose proof Hw as [Hwd Hmin].
    split_and!; try done; [by apply (declared_ok _ _ _ _ Hok Hwd)|by apply (declared_ok _ _ _ _ Hok Hl)|].
    specialize (Hmin _ _ Hl).
    assert (layer_rank (winning_layer o) ≠ layer_rank (overridden_layer o))
      by (intros He; by apply layer_rank_inj in He). lia.
Qed.

(** C28: every prompt assembly returns is well formed: five sections in stable
    order whose texts pass validation and the trust gate, non-empty allow-set,
    strictly sorted sets of valid names, a budget in range, strictly sorted valid
    directives and override records, and canonical bytes that are its rendering
    within the hard cap. *)
Theorem assemble_prompt_wf s p : assemble_prompt s = Ok p → prompt_wf p.
Proof. apply assembled_wf. Qed.

(** ** Witnesses *)

Definition demo_core : LayerInput :=
  mkLayer CoreContract "contract" (Some ["fs.read"; "fs.write"; "net.get"]) [] (Some 4096) None
    [mkDirective "tone" "concise"].

Definition demo_user : LayerInput :=
  mkLayer UserLayer "prefs" None ["net.get"] None (Some ["workspace.read"])
    [mkDirective "tone" "chatty"; mkDirective "lang" "en"].

Definition demo_turn : LayerInput := text_only RuntimeTurn "do it".

Definition demo_snapshot : PromptSnapshot := mkSnapshot "core@1" [demo_turn; demo_user; demo_core].

Definition demo_prompt : AssembledPrompt :=
  match assemble_prompt demo_snapshot with
  | Ok p => p
  | Err _ => mkAssembledPrompt "" [] None [] None None [] [] []
  end.

Lemma demo_assembled : assemble_prompt demo_snapshot = Ok demo_prompt.
Proof. vm_compute. reflexivity. Qed.

Example demo_prompt_policy :
  demo_prompt.(effective_allowed_tools) = Some ["fs.read"; "fs.write"; "net.get"]
  ∧ demo_prompt.(effective_denied_tools) = ["net.get"]
  ∧ demo_prompt.(effective_directives) = [mkDirective "lang" "en"; mkDirective "tone" "concise"]
  ∧ demo_prompt.(merge_overrides) = [mkOverride "tone" "concise" CoreContract "chatty" UserLayer]
  ∧ check_dispatch demo_prompt "fs.read" true = Ok tt
  ∧ check_dispatch demo_prompt "net.get" true = Err (PromptDenied "net.get").
Proof. vm_compute. done. Qed.

Lemma assemble_narrows_witness :
  check_dispatch demo_prompt "fs.read" true = Ok tt
  ∧ len demo_prompt.(canonical_bytes) ≤ 4096.
Proof.
  destruct (assemble_narrows demo_snapshot demo_prompt demo_assembled) as (Hd & _ & Hb). split.
  - apply Hd. split; [reflexivity|].
    repeat constructor; cbn; try (intros l Hl; simplify_eq); set_solver.
  - apply (Hb demo_core); [set_solver|reflexivity].
Defined.

Lemma assemble_order_independent_witness :
  assemble_prompt (mkSnapshot "core@1" [demo_core; demo_user; demo_turn])
  = assemble_prompt (mkSnapshot "core@1" [demo_turn; demo_core; demo_user]).
Proof.
  apply assemble_order_independent; [vm_compute; reflexivity|].
  symmetry. apply (Permutation_cons_append [demo_core; demo_user] demo_turn).
Defined.

Lemma directives_by_precedence_witness :
  ∃ L, prevails demo_snapshot.(snap_layers) L "tone" "concise".
Proof.
  destruct (directives_by_precedence demo_snapshot demo_prompt demo_assembled) as (_ & Hd & _).
  apply Hd. apply list_elem_of_In. vm_compute. right. left. reflexivity.
Defined.

Lemma assemble_prompt_wf_witness : prompt_wf demo_prompt.
Proof. exact (assemble_prompt_wf demo_snapshot demo_prompt demo_assembled). Defined.

(** A layer that contradicts itself is only refused while no layer above it sets
    the key: below a winner both of its values are recorded as overridden. *)
Example overridden_layer_conflict :
  let user ds := mkLayer UserLayer "" None [] None None ds in
  let core ds := mkLayer CoreContract "" None [] None None ds in
  let two := [mkDirective "tone" "a"; mkDirective "tone" "b"] in
  assemble_prompt (mkSnapshot "core@1" [core []; user two]) = Err (UnresolvableConflict "tone" "a" "b")
  ∧ match assemble_prompt (mkSnapshot "core@1" [core [mkDirective "tone" "c"]; user two]) with
    | Ok p => p.(merge_overrides) = [mkOverride "tone" "c" CoreContract "a" UserLayer;
                                     mkOverride "tone" "c" CoreContract "b" UserLayer]
    | Err _ => False
    end.
Proof. vm_compute. done. Qed.
