(* ===== verification/Canonical.v ===== *)
(** * Canonical: the canonical byte form of a prompt determines the prompt

    [render_canonical] writes length-prefixed text sections, then one line per
    policy item.  The renderings of the parts are shown to be self-delimiting
    (whatever follows them), part by part, and composed: two well-formed prompts
    with the same canonical bytes are equal, so digests and caches over these
    bytes identify the prompt.  The stable head, the part before the Runtime/Turn
    section, is self-delimiting on its own. *)

From Stdlib Require Import Ascii.
From S2P Require Import Prelude Text Order Session ToolTypes Prompt Context PromptPolicy.

Local Open Scope Z_scope.

(** ** Self-delimiting encodings *)

(** [enc] delimits itself on the values of [P]: from the front of any byte string
    at most one value and one remainder can be read. *)
Definition framed {A} (P : A → Prop) (enc : A → bytes) : Prop :=
  ∀ a b r s, P a → P b → enc a ++ r = enc b ++ s → a = b ∧ r = s.

Lemma split_unique {A} (c : A) a b r s :
  (c ∉ a) → (c ∉ b) → a ++ c :: r = b ++ c :: s → a = b ∧ r = s.
Proof.
  revert b. induction a as [|x a IH]; intros [|y b] Ha Hb He; simpl in He.
  - by injection He as <-.
  - injection He as <- _. destruct Hb. apply list_elem_of_here.
  - injection He as -> _. destruct Ha. apply list_elem_of_here.
  - injection He as -> He. apply not_elem_of_cons in Ha as [_ Ha], Hb as [_ Hb].
    by destruct (IH b Ha Hb He) as [-> ->].
Qed.

(** A string free of the byte with code [n]. *)
Definition free (n : Z) (s : string) : Prop := Ascii.ascii_of_N (Z.to_N n) ∉ as_bytes s.

Lemma free_forall n f s :
  f (Ascii.ascii_of_N (Z.to_N n)) = false → str_forall f s = true → free n s.
Proof.
  unfold free, str_forall. intros Hf Hs Hin. rewrite forallb_forall in Hs.
  apply list_elem_of_In in Hin. specialize (Hs _ Hin). congruence.
Qed.

Lemma free_app n s t : free n s → free n t → free n (s +:+ t).
Proof. unfold free. rewrite as_bytes_app. set_solver. Qed.

Lemma free_has_byte n codes s :
  0 ≤ n < 256 → n ∈ codes → has_byte codes s = false → free n s.
Proof.
  intros Hn Hc Hs Hin. unfold has_byte in Hs. rewrite existsb_false_iff in Hs.
  specialize (Hs _ Hin). simpl in Hs. rewrite existsb_false_iff in Hs. specialize (Hs n Hc).
  unfold byte_eqb, byte_val in Hs. rewrite Ascii.N_ascii_embedding in Hs by lia.
  rewrite Z2N.id in Hs by lia. by rewrite Z.eqb_refl in Hs.
Qed.

Lemma free_show n c : is_u64 c → is_ascii_digit (Ascii.ascii_of_N (Z.to_N n)) = false → free n (show c).
Proof. intros Hc Hn. apply (free_forall _ is_ascii_digit); [done|]. by apply show_digits. Qed.

Lemma as_bytes_inj s t : as_bytes s = as_bytes t → s = t.
Proof. intros H. by rewrite <- (of_bytes_as_bytes s), H, of_bytes_as_bytes. Qed.

(** Strings cut at their first separator. *)
Lemma cut_unique n s t r q :
  free n s → free n t →
  as_bytes s ++ Ascii.ascii_of_N (Z.to_N n) :: r = as_bytes t ++ Ascii.ascii_of_N (Z.to_N n) :: q →
  s = t ∧ r = q.
Proof.
  intros Hs Ht He. destruct (split_unique _ _ _ _ _ Hs Ht He) as [H1 ->].
  by apply as_bytes_inj in H1.
Qed.

(** Strings of equal length at the front. *)
Lemma sized_unique s t r q :
  slen s = slen t → as_bytes s ++ r = as_bytes t ++ q → s = t ∧ r = q.
Proof.
  intros Hl He. apply app_inj_1 in He as [H1 H2].
  - by apply as_bytes_inj in H1.
  - unfold slen in Hl. rewrite !as_bytes_length. lia.
Qed.

(** ** Lines *)

Lemma line_single s : line [s] = as_bytes s ++ [LF].
Proof. unfold line. simpl. by rewrite app_nil_r. Qed.

Lemma line_tag tag s : line [tag; s] = as_bytes tag ++ line [s].
Proof. unfold line. simpl. by rewrite <- app_assoc. Qed.

Lemma line_framed : framed (free 10) (λ s, line [s]).
Proof.
  intros s t r q Hs Ht He. rewrite !line_single, <- !app_assoc in He.
  by apply (cut_unique 10 _ _ _ _ Hs Ht He).
Qed.

Lemma tagged_framed tag : framed (free 10) (λ s, line [tag; s]).
Proof.
  intros s t r q Hs Ht He. rewrite !line_tag, <- !app_assoc in He.
  apply app_inv_head in He. by apply line_framed.
Qed.

(** A remainder that does not begin with [tag]. *)
Definition untagged (tag : bytes) (r : bytes) : Prop := ∀ rest, r ≠ tag ++ rest.

(** A block of lines with a common tag ends where the tag does. *)
Lemma block_unique tag (l k : list string) r q :
  Forall (free 10) l → Forall (free 10) k → untagged (as_bytes tag) r → untagged (as_bytes tag) q →
  concat (map (λ s, line [tag; s]) l) ++ r = concat (map (λ s, line [tag; s]) k) ++ q →
  l = k ∧ r = q.
Proof.
  intros Hl Hk Hr Hq. revert k Hk.
  induction l as [|s l IH]; intros [|t k] Hk He; cbn [map concat] in He; rewrite <- ?app_assoc in He.
  - done.
  - rewrite line_tag, <- app_assoc in He. by destruct (Hr _ He).
  - rewrite line_tag, <- app_assoc in He. by destruct (Hq _ (eq_sym He)).
  - apply Forall_cons in Hl as [Hs Hl], Hk as [Ht Hk].
    destruct (tagged_framed tag _ _ _ _ Hs Ht He) as [-> He']. by destruct (IH Hl k Hk He') as [-> ->].
Qed.

(** ** Sections *)

Definition text_ok (s : AssembledSection) : Prop :=
  validate_layer_text s.(sec_layer) s.(sec_text) = Ok tt.

Lemma text_ok_u64 s : text_ok s → is_u64 (slen s.(sec_text)).
Proof.
  unfold text_ok, validate_layer_text. intros H. case_if_in H; [|done]. reflect_bools.
  pose proof (slen_nonneg (sec_text s)).
  unfold is_u64, u64_max, MAX_LAYER_TEXT_BYTES in *. lia.
Qed.

Lemma layer_name_free n L :
  is_ascii_lowercase (Ascii.ascii_of_N (Z.to_N n)) = false → n ≠ 45 → 0 ≤ n < 256 → free n (layer_name L).
Proof.
  intros Hn H45 Hb. apply (free_forall _ (λ b, is_ascii_lowercase b || byte_eqb 45 b)); [|by destruct L].
  rewrite Hn. unfold byte_eqb, byte_val. rewrite Ascii.N_ascii_embedding by lia.
  rewrite Z2N.id by lia. by apply Z.eqb_neq.
Qed.

Lemma layer_name_inj : Inj (=) (=) layer_name.
Proof. by intros [] []. Qed.

(** The sections of a fixed sequence of layers. *)
Lemma sections_unique l k r q :
  map sec_layer l = map sec_layer k → Forall text_ok l → Forall text_ok k →
  concat (map render_section l) ++ r = concat (map render_section k) ++ q → l = k ∧ r = q.
Proof.
  revert k. induction l as [|[L s] l IH]; intros [|[M t] k] Hm Hl Hk He; try done.
  injection Hm as <- Hm. apply Forall_cons in Hl as [Hs Hl], Hk as [Ht Hk].
  apply text_ok_u64 in Hs, Ht. cbn [sec_text map concat] in *.
  unfold render_section in He. cbn [sec_layer sec_text] in He.
  set (n := show (slen s)) in *. set (m := show (slen t)) in *.
  assert (∀ x, line ["[layer:"; layer_name L; " len="; x; "]"]
               = as_bytes ("[layer:" +:+ layer_name L +:+ " len=") ++ as_bytes x ++ as_bytes "]" ++ [LF])
    as Hline.
  { intros x. unfold line. cbn [map concat]. rewrite !as_bytes_app, !app_nil_r, <- !app_assoc. done. }
  rewrite !Hline, <- !app_assoc in He. apply app_inv_head in He.
  change (as_bytes "]") with [Ascii.ascii_of_N (Z.to_N 93)] in He. cbn [app] in He.
  apply (cut_unique 93) in He as [Hn He]; [|by apply free_show..].
  apply show_inj in Hn; [|by destruct Hs|by destruct Ht]. injection He as He.
  rewrite !line_single, <- !app_assoc in He. apply sized_unique in He as [-> He]; [|done].
  injection He as He. by destruct (IH k Hm Hl Hk He) as [-> ->].
Qed.

(** ** Policy lines *)

Definition constraint_items (set : option (list string)) : list string :=
  match set with None => ["*"] | Some l => l end.

Lemma render_constraint_items tag set :
  render_constraint tag set = concat (map (λ s, line [tag; s]) (constraint_items set)).
Proof. destruct set; [done|]. simpl. by rewrite app_nil_r. Qed.

(** A name no validator accepts marks the absence of a constraint. *)
Lemma constraint_items_inj (P : string → Prop) a b :
  ¬ P "*" → (∀ l, a = Some l → Forall P l) → (∀ l, b = Some l → Forall P l) →
  constraint_items a = constraint_items b → a = b.
Proof.
  intros Hstar Ha Hb He. destruct a as [l|], b as [k|]; simpl in He; [by subst| | |done].
  - subst l. specialize (Ha _ eq_refl). by apply Forall_cons in Ha as [? _].
  - subst k. specialize (Hb _ eq_refl). by apply Forall_cons in Hb as [? _].
Qed.

Definition budget_item (b : option Z) : string :=
  match b with None => "*" | Some c => show c end.

Lemma render_budget_item b : render_budget b = line ["budget:"; budget_item b].
Proof. by destruct b. Qed.

Lemma show_not_star c : is_u64 c → show c ≠ "*".
Proof. intros Hc H. destruct (show_digits c Hc) as [Hd _]. by rewrite H in Hd. Qed.

Lemma budget_item_inj a b :
  (∀ c, a = Some c → is_u64 c) → (∀ c, b = Some c → is_u64 c) → budget_item a = budget_item b → a = b.
Proof.
  intros Ha Hb. destruct a as [c|], b as [d|]; simpl; intros He; [|exfalso..|done].
  - f_equal. apply show_inj; [by destruct (Ha c eq_refl)|by destruct (Hb d eq_refl)|done].
  - by apply (show_not_star c (Ha c eq_refl)).
  - by apply (show_not_star d (Hb d eq_refl)).
Qed.

Lemma validate_tool_name_bytes n :
  validate_prompt_tool_name n = Ok tt → str_forall is_tool_name_byte n = true.
Proof.
  unfold validate_prompt_tool_name. destruct (validate_tool_name n) as [[]|] eqn:E; [|done]. intros _.
  unfold validate_tool_name in E. case_if_in E; [|done]. by reflect_bools.
Qed.

Lemma validate_scope_bytes n : validate_scope n = Ok tt → str_forall is_tool_name_byte n = true.
Proof. unfold validate_scope. intros H. case_if_in H; [|done]. by reflect_bools. Qed.

Lemma directive_ok_inv d :
  directive_ok d →
  str_forall is_tool_name_byte d.(dir_key) = true ∧ free 10 d.(dir_value)
  ∧ is_u64 (slen d.(dir_value)).
Proof.
  unfold directive_ok, validate_directive, validate_directive_key, validate_directive_value.
  intros H. destruct (negb (is_empty (dir_key d)) && _ && _ && _ && _) eqn:E; [|done].
  destruct (_ && _) eqn:E2 in H; [|done]. clear H. reflect_bools. split_and!; [done| |].
  - apply (free_has_byte _ [10; 13; 0]); [lia|set_solver|done].
  - pose proof (slen_nonneg (dir_value d)).
    unfold is_u64, u64_max, MAX_DIRECTIVE_VALUE_LEN in *. lia.
Qed.

Lemma tool_bytes_free n s :
  is_tool_name_byte (Ascii.ascii_of_N (Z.to_N n)) = false →
  str_forall is_tool_name_byte s = true → free n s.
Proof. apply free_forall. Qed.

(** ** Directives and override records *)

Definition directive_item (d : Directive) : string := d.(dir_key) +:+ "=" +:+ d.(dir_value).

Lemma render_directive_item d : render_directive d = line ["directive:"; directive_item d].
Proof.
  unfold render_directive, line, directive_item. cbn [map concat].
  by rewrite !as_bytes_app, !app_nil_r, <- !app_assoc.
Qed.

Lemma directive_item_free d : directive_ok d → free 10 (directive_item d).
Proof.
  intros H. apply directive_ok_inv in H as (Hk & Hv & _).
  repeat apply free_app; [by apply tool_bytes_free| |done]. unfold free. set_solver.
Qed.

Lemma directive_item_inj a b :
  directive_ok a → directive_ok b → directive_item a = directive_item b → a = b.
Proof.
  intros Ha Hb He. apply directive_ok_inv in Ha as (Ha & _ & _), Hb as (Hb & _ & _).
  apply (f_equal as_bytes) in He. unfold directive_item in He. rewrite !as_bytes_app in He.
  apply (cut_unique 61) in He as [Hk He]; [|by apply tool_bytes_free..].
  apply as_bytes_inj in He. destruct a, b. simpl in *. by subst.
Qed.

(** The part of an override line after the key. *)
Definition side (label : string) (L : PromptLayer) (size value : string) : bytes :=
  as_bytes label ++ as_bytes (layer_name L) ++ as_bytes size
  ++ as_bytes (show (slen value)) ++ as_bytes ":" ++ as_bytes value.

Definition override_item (o : DirectiveOverride) : string :=
  of_bytes (as_bytes o.(ov_key)
            ++ side " winner:" o.(winning_layer) " wlen=" o.(winning_value)
            ++ side " overridden:" o.(overridden_layer) " olen=" o.(overridden_value)).

Lemma render_override_item o : render_override o = line ["override:"; override_item o].
Proof.
  unfold render_override, line, override_item, side. cbn [map concat].
  by rewrite as_bytes_of_bytes, !app_nil_r, <- !app_assoc.
Qed.

(** Two sides with the same labels: layer and value are read back. *)
Lemma side_unique label size L M v w r q :
  is_u64 (slen v) → is_u64 (slen w) → (∃ rest, as_bytes size = Ascii.ascii_of_N (Z.to_N 32) :: rest) →
  side label L size v ++ r = side label M size w ++ q → L = M ∧ v = w ∧ r = q.
Proof.
  intros Hv Hw [rest Hsize] He. unfold side in He. rewrite <- !app_assoc in He.
  apply app_inv_head in He. rewrite Hsize in He. cbn [app] in He.
  apply (cut_unique 32) in He as [HL He]; [|by apply layer_name_free..].
  apply layer_name_inj in HL. apply app_inv_head in He.
  change (as_bytes ":") with [Ascii.ascii_of_N (Z.to_N 58)] in He. cbn [app] in He.
  apply (cut_unique 58) in He as [Hn He]; [|by apply free_show..].
  apply show_inj in Hn; [|apply slen_nonneg..]. by apply sized_unique in He as [-> ->].
Qed.

Lemma override_item_inj a b :
  override_ok a → override_ok b → override_item a = override_item b → a = b.
Proof.
  intros (Ha1 & Ha2 & _) (Hb1 & Hb2 & _) He.
  apply directive_ok_inv in Ha1 as (Hka & _ & Hwa), Ha2 as (_ & _ & Hoa).
  apply directive_ok_inv in Hb1 as (Hkb & _ & Hwb), Hb2 as (_ & _ & Hob).
  unfold override_item in He. apply of_bytes_inj in He.
  assert (∀ L s v, side " winner:" L s v
    = Ascii.ascii_of_N (Z.to_N 32) :: drop 1 (side " winner:" L s v)) as Hsp by done.
  rewrite (Hsp _ _ (winning_value a)), (Hsp _ _ (winning_value b)) in He. cbn [app] in He.
  apply (cut_unique 32) in He as [Hk He]; [|by apply tool_bytes_free..].
  apply (f_equal (cons (Ascii.ascii_of_N (Z.to_N 32)))) in He.
  rewrite !app_comm_cons, <- !Hsp in He.
  apply side_unique in He as (HwL & Hwv & He); [|done|done|by eexists].
  rewrite <- (app_nil_r (side _ (overridden_layer a) _ _)),
    <- (app_nil_r (side _ (overridden_layer b) _ _)) in He.
  apply side_unique in He as (HoL & Hov & _); [|done|done|by eexists].
  destruct a, b. simpl in *. by subst.
Qed.

Lemma override_item_free o : override_ok o → free 10 (override_item o).
Proof.
  intros (Ha1 & Ha2 & _). apply directive_ok_inv in Ha1 as (Hk & Hw & Hwu), Ha2 as (_ & Ho & Hou).
  assert (∀ label L size v, free 10 label → free 10 size → free 10 v → is_u64 (slen v) →
            LF ∉ side label L size v) as Hside.
  { intros label L size v Hl Hs Hv Hu. unfold side. rewrite !not_elem_of_app. split_and!; try done.
    - by apply (layer_name_free 10).
    - by apply (free_show 10).
    - unfold LF. set_solver. }
  unfold free, override_item. rewrite as_bytes_of_bytes. change (Ascii.ascii_of_N (Z.to_N 10)) with LF.
  rewrite !not_elem_of_app. split_and!; [by apply (tool_bytes_free 10)|..];
    apply Hside; try done; unfold free; set_solver.
Qed.

(** ** Blocks in sequence *)

(** The first byte is one of [cs]. *)
Definition starts (cs : list ascii) (r : bytes) : Prop := ∃ c t, r = c :: t ∧ c ∈ cs.

Definition block (tag : string) (l : list string) : bytes := concat (map (λ s, line [tag; s]) l).

Lemma starts_block c tag l cs r : starts cs r → starts (c :: cs) (block (String c tag) l ++ r).
Proof.
  intros (b & t & -> & Hb). destruct l as [|s l].
  - exists b, t. split; [done|by apply list_elem_of_further].
  - unfold block. cbn [map concat]. rewrite line_tag, <- !app_assoc.
    eexists c, _. split; [reflexivity|apply list_elem_of_here].
Qed.

Lemma starts_untagged c tag cs r : starts cs r → c ∉ cs → untagged (as_bytes (String c tag)) r.
Proof. intros (b & t & -> & Hb) Hc rest [= -> _]. done. Qed.

Lemma blocks_unique c tag l k cs r q :
  Forall (free 10) l → Forall (free 10) k → starts cs r → starts cs q → c ∉ cs →
  block (String c tag) l ++ r = block (String c tag) k ++ q → l = k ∧ r = q.
Proof.
  intros Hl Hk Hr Hq Hc. apply block_unique; [done..| |]; by eapply starts_untagged.
Qed.

(** The effective block as tagged lines. *)
Definition effective_blocks (p : AssembledPrompt) : bytes :=
  line ["[effective]"]
  ++ block "allowed:" (constraint_items p.(effective_allowed_tools))
  ++ block "denied:" p.(effective_denied_tools)
  ++ block "budget:" [budget_item p.(effective_budget_ceiling_bytes)]
  ++ block "scope:" (constraint_items p.(effective_scopes))
  ++ block "directive:" (map directive_item p.(effective_directives))
  ++ block "override:" (map override_item p.(merge_overrides))
  ++ line ["end"].

Lemma block_map {A} tag (f : A → string) (g : A → bytes) l :
  (∀ x, g x = line [tag; f x]) → concat (map g l) = block tag (map f l).
Proof. intros Hg. unfold block. rewrite map_map. f_equal. by apply map_ext. Qed.

Lemma render_effective_blocks p : prompt_wf p → render_effective p = effective_blocks p.
Proof.
  intros Hwf. unfold render_effective, effective_blocks.
  rewrite !render_constraint_items, render_budget_item.
  rewrite (sort_by_key_id override_key) by apply Hwf.
  rewrite (block_map "directive:" directive_item) by apply render_directive_item.
  rewrite (block_map "override:" override_item) by apply render_override_item.
  unfold block. cbn [map concat]. by rewrite (app_nil_r (line ["budget:"; _])).
Qed.

Lemma names_free (P : string → Prop) l :
  (∀ n, P n → str_forall is_tool_name_byte n = true) → Forall P l → Forall (free 10) l.
Proof.
  intros HP Hl. eapply Forall_impl; [exact Hl|]. intros n Hn. apply tool_bytes_free; [done|auto].
Qed.

Lemma constraint_free (P : string → Prop) set :
  (∀ n, P n → str_forall is_tool_name_byte n = true) → (∀ l, set = Some l → Forall P l) →
  Forall (free 10) (constraint_items set).
Proof.
  intros HP Hs. destruct set as [l|]; simpl; [by eapply names_free, Hs|].
  constructor; [|constructor]. unfold free. set_solver.
Qed.

Lemma map_inj_on {A B} (P : A → Prop) (f : A → B) l k :
  (∀ a b, P a → P b → f a = f b → a = b) → Forall P l → Forall P k → map f l = map f k → l = k.
Proof.
  intros Hf Hl. revert k. induction Hl as [|a l Ha Hl IH]; intros [|b k] Hk He; try done.
  apply Forall_cons in Hk as [Hb Hk]. injection He as Hab He. f_equal; auto.
Qed.

Lemma tail_starts p :
  let tail5 := line ["end"] in
  let tail4 := block "override:" (map override_item p.(merge_overrides)) ++ tail5 in
  let tail3 := block "directive:" (map directive_item p.(effective_directives)) ++ tail4 in
  let tail2 := block "scope:" (constraint_items p.(effective_scopes)) ++ tail3 in
  let tail1 := block "budget:" [budget_item p.(effective_budget_ceiling_bytes)] ++ tail2 in
  starts ["e"%char] tail5 ∧ starts ["o"%char; "e"%char] tail4
  ∧ starts ["d"%char; "o"%char; "e"%char] tail3
  ∧ starts ["s"%char; "d"%char; "o"%char; "e"%char] tail2 ∧ starts ["b"%char] tail1
  ∧ starts ["d"%char; "b"%char] (block "denied:" p.(effective_denied_tools) ++ tail1).
Proof.
  cbv zeta. assert (starts ["e"%char] (line ["end"])) as H5.
  { eexists "e"%char, _. split; [reflexivity|apply list_elem_of_here]. }
  split; [done|]. pose proof (starts_block "o" "verride:" (map override_item (merge_overrides p)) _ _ H5) as H4.
  split; [done|]. pose proof (starts_block "d" "irective:" (map directive_item (effective_directives p)) _ _ H4) as H3.
  split; [done|]. pose proof (starts_block "s" "cope:" (constraint_items (effective_scopes p)) _ _ H3) as H2.
  split; [done|]. match goal with |- ?a ∧ ?b => assert a as H1 end.
  { unfold block at 1. cbn [map concat]. rewrite line_tag, <- !app_assoc.
    eexists "b"%char, _. split; [reflexivity|apply list_elem_of_here]. }
  split; [done|]. by apply (starts_block "d" "enied:").
Qed.

(** The policy part determines the effective policy. *)
Lemma effective_unique p q :
  prompt_wf p → prompt_wf q → effective_blocks p = effective_blocks q →
  p.(effective_allowed_tools) = q.(effective_allowed_tools)
  ∧ p.(effective_denied_tools) = q.(effective_denied_tools)
  ∧ p.(effective_budget_ceiling_bytes) = q.(effective_budget_ceiling_bytes)
  ∧ p.(effective_scopes) = q.(effective_scopes)
  ∧ p.(effective_directives) = q.(effective_directives)
  ∧ p.(merge_overrides) = q.(merge_overrides).
Proof.
  intros Hp Hq He. unfold effective_blocks in He. apply app_inv_head in He.
  pose proof (tail_starts p) as (P5 & P4 & P3 & P2 & P1 & P0).
  pose proof (tail_starts q) as (Q5 & Q4 & Q3 & Q2 & Q1 & Q0).
  assert (∀ p, prompt_wf p → ∀ c, effective_budget_ceiling_bytes p = Some c → is_u64 c) as Hbud.
  { intros x Hx c Hc. apply (wf_budget x Hx) in Hc.
    unfold is_u64, u64_max, MAX_BUDGET_CEILING_BYTES in *. lia. }
  assert (∀ p, prompt_wf p → free 10 (budget_item (effective_budget_ceiling_bytes p))) as Hbf.
  { intros x Hx. destruct (effective_budget_ceiling_bytes x) as [c|] eqn:E; simpl.
    - apply free_show; [by eapply Hbud|done].
    - unfold free. set_solver. }
  eapply (blocks_unique "a" "llowed:") in He as [Hal He];
    [|by eapply constraint_free; [apply validate_tool_name_bytes|apply wf_allowed]..|exact P0|exact Q0|set_solver].
  eapply (blocks_unique "d" "enied:") in He as [Hden He];
    [|by eapply names_free; [apply validate_tool_name_bytes|apply wf_denied]..|exact P1|exact Q1|set_solver].
  eapply (blocks_unique "b" "udget:") in He as [Hb He];
    [|by constructor; [apply Hbf|constructor]..|exact P2|exact Q2|set_solver].
  eapply (blocks_unique "s" "cope:") in He as [Hsc He];
    [|by eapply constraint_free; [apply validate_scope_bytes|apply wf_scopes]..|exact P3|exact Q3|set_solver].
  assert (∀ p, prompt_wf p → Forall (free 10) (map directive_item (effective_directives p))) as Hdf.
  { intros x Hx. apply Forall_fmap. eapply Forall_impl; [apply (wf_directives x Hx)|].
    intros d. apply directive_item_free. }
  assert (∀ p, prompt_wf p → Forall (free 10) (map override_item (merge_overrides p))) as Hof.
  { intros x Hx. apply Forall_fmap. eapply Forall_impl; [apply (wf_overrides x Hx)|].
    intros o. apply override_item_free. }
  eapply (blocks_unique "d" "irective:") in He as [Hd He]; [|by apply Hdf..|exact P4|exact Q4|set_solver].
  eapply (blocks_unique "o" "verride:") in He as [Ho _]; [|by apply Hof..|exact P5|exact Q5|set_solver].
  split_and!.
  - apply (constraint_items_inj (λ n, validate_prompt_tool_name n = Ok tt)); [done| | |done];
      intros l Hl; [by apply (wf_allowed p)|by apply (wf_allowed q)].
  - done.
  - injection Hb as Hb. by apply budget_item_inj; [apply Hbud..|].
  - apply (constraint_items_inj (λ n, validate_scope n = Ok tt)); [done| | |done];
      intros l Hl; [by apply (wf_scopes p)|by apply (wf_scopes q)].
  - by apply (map_inj_on directive_ok directive_item); [apply directive_item_inj|apply wf_directives..|].
  - by apply (map_inj_on override_ok override_item); [apply override_item_inj|apply wf_overrides..|].
Qed.

(** ** The head *)

Lemma version_free v : validate_core_version v = Ok tt → free 10 v.
Proof.
  unfold validate_core_version. intros H. case_if_in H; [|done]. reflect_bools.
  by apply (free_forall _ is_version_byte).
Qed.

Lemma head_unique v w r q :
  validate_core_version v = Ok tt → validate_core_version w = Ok tt →
  render_head v ++ r = render_head w ++ q → v = w ∧ r = q.
Proof.
  intros Hv Hw He. unfold render_head in He. rewrite <- !app_assoc in He. apply app_inv_head in He.
  by eapply (tagged_framed "core-version:"); [apply version_free..|].
Qed.

Lemma wf_text_ok p : prompt_wf p → Forall text_ok p.(sections).
Proof. intros Hp. eapply Forall_impl; [apply (wf_texts p Hp)|]. by intros s [? _]. Qed.

(** ** Properties *)

(** The canonical form determines the prompt.  Two well-formed prompts with the
    same canonical bytes are the same prompt: neither the text of a layer, whatever
    headers or lines it imitates, nor a directive value, whatever separators it
    carries, can make two different prompts render alike. *)
Theorem canonical_injective p q :
  prompt_wf p → prompt_wf q → p.(canonical_bytes) = q.(canonical_bytes) → p = q.
Proof.
  intros Hp Hq He. pose proof He as Hb.
  rewrite (proj1 (wf_canonical p Hp)), (proj1 (wf_canonical q Hq)) in He. unfold rendered in He.
  apply head_unique in He as [Hv He]; [|by apply wf_version..].
  apply sections_unique in He as [Hs He];
    [|by rewrite !wf_layers|by apply wf_text_ok..].
  rewrite !render_effective_blocks in He by done.
  apply effective_unique in He as (? & ? & ? & ? & ? & ?); [|done..].
  destruct p, q. simpl in *. by subst.
Qed.

(** The leading bytes up to the Runtime/Turn section. *)
Definition stable_head (p : AssembledPrompt) : bytes :=
  render_head p.(core_version) ++ concat (map render_section (take 4 p.(sections))).

(** Same version, same text in every stable layer. *)
Definition same_stable (p q : AssembledPrompt) : Prop :=
  p.(core_version) = q.(core_version)
  ∧ ∀ L, L ≠ RuntimeTurn → section_text p L = section_text q L.

Lemma sections_shape p :
  prompt_wf p → ∃ a b c d e, p.(sections)
    = [mkSection CoreContract a; mkSection UserLayer b; mkSection ProjectLayer c;
       mkSection SkillsProfile d; mkSection RuntimeTurn e].
Proof.
  intros Hp. pose proof (wf_layers p Hp) as H.
  destruct (sections p) as [|[? a] [|[? b] [|[? c] [|[? d] [|[? e] [|]]]]]]; try done.
  injection H as -> -> -> -> ->. by exists a, b, c, d, e.
Qed.

Lemma same_stable_sections p q :
  prompt_wf p → prompt_wf q →
  same_stable p q ↔ p.(core_version) = q.(core_version) ∧ take 4 p.(sections) = take 4 q.(sections).
Proof.
  intros Hp Hq. unfold same_stable, section_text.
  destruct (sections_shape p Hp) as (a & b & c & d & e & ->).
  destruct (sections_shape q Hq) as (a' & b' & c' & d' & e' & ->). simpl.
  split; intros [Hv H]; (split; [done|]).
  - pose proof (H CoreContract). pose proof (H UserLayer). pose proof (H ProjectLayer).
    pose proof (H SkillsProfile). simpl in *. repeat f_equal; auto.
  - injection H as -> -> -> ->. intros [] HL; done.
Qed.

(** The stable head determines the version and the stable texts. *)
Lemma stable_head_unique p q r s :
  prompt_wf p → prompt_wf q → stable_head p ++ r = stable_head q ++ s →
  p.(core_version) = q.(core_version) ∧ take 4 p.(sections) = take 4 q.(sections) ∧ r = s.
Proof.
  intros Hp Hq He. unfold stable_head in He. rewrite <- !app_assoc in He.
  apply head_unique in He as [Hv He]; [|by apply wf_version..].
  apply sections_unique in He as [Hs He]; [done| |by apply Forall_take, wf_text_ok..].
  by rewrite <- !firstn_map, !wf_layers.
Qed.

Lemma demo_canonical_differs :
  let other := mkSnapshot "core@1" [text_only CoreContract "contract"; text_only RuntimeTurn "x"] in
  match assemble_prompt other with
  | Ok q => q.(canonical_bytes) ≠ demo_prompt.(canonical_bytes)
  | Err _ => False
  end.
Proof. vm_compute. discriminate. Qed.

Definition demo_shuffled : AssembledPrompt :=
  match assemble_prompt (mkSnapshot "core@1" [demo_core; demo_user; demo_turn]) with
  | Ok p => p
  | Err _ => demo_prompt
  end.

Lemma canonical_injective_witness : demo_shuffled = demo_prompt.
Proof.
  apply canonical_injective.
  - apply (assembled_wf (mkSnapshot "core@1" [demo_core; demo_user; demo_turn])).
    vm_compute. reflexivity.
  - exact (assembled_wf _ _ demo_assembled).
  - vm_compute. reflexivity.
Defined.
