(* ===== verification/CacheKey.v ===== *)
(** * CacheKey: prefix-cache keys and input fingerprints

    Models [cache_key.rs], the keys over the stable head of a canonical prompt,
    found by walking the length-prefixed sections, and [fingerprint.rs], the
    fingerprints of complete inputs. *)

From S2P Require Import Prelude Text Wire Order Session ToolTypes Prompt Fallback Context Provider Selection.
From S2P Require Import PromptPolicy Canonical.

Local Open Scope Z_scope.
Local Open Scope rust_scope.

(** ** [cache_key.rs] *)

Definition STABLE_LAYERS : list string := ["core-contract"; "user"; "project"; "skills-profile"].
Definition RUNTIME_LAYER : string := "runtime-turn".
Definition CANONICAL_MAGIC : bytes := as_bytes "prompt/1" ++ [LF].
Definition CORE_VERSION_PREFIX : bytes := as_bytes "core-version:".
Definition SECTION_OPEN : bytes := as_bytes "[layer:".
Definition SECTION_LEN_SEP : bytes := as_bytes " len=".
Definition SECTION_CLOSE : bytes := as_bytes "]" ++ [LF].
Definition EFFECTIVE_OPEN : bytes := as_bytes "[effective]" ++ [LF].

Inductive CacheScope := ScopeSession | ScopeTurn | ScopeRound.

Definition CacheScope_to_string (s : CacheScope) : string :=
  match s with ScopeSession => "session" | ScopeTurn => "turn" | ScopeRound => "round" end.

Inductive CacheKeyError :=
| KeyInvalidProviderId (id : string)
| InvalidModelId (id : string)
| EmptyCanonical
| MissingStableMarker
| KeyCanonicalTooLarge (limit actual : Z).

Definition CacheKeyError_to_string (e : CacheKeyError) : string :=
  match e with
  | KeyInvalidProviderId id => "invalid provider id: " +:+ id
  | InvalidModelId id => "invalid model id: " +:+ id
  | EmptyCanonical => "empty canonical bytes"
  | MissingStableMarker => "canonical bytes carry no runtime-turn section"
  | KeyCanonicalTooLarge limit actual =>
      "canonical bytes of " +:+ show actual +:+ " bytes exceed " +:+ show limit +:+ " byte limit"
  end.

Record CacheKey := mkCacheKey {
  key_provider_id : string;
  key_model_id : string;
  key_scope : CacheScope;
  stable_prefix_hash : Z;
  prefix_len : Z
}.

(** [iter().position(p)] split in two: the bytes before the first match, and the
    rest from it on. *)
Fixpoint break_at (f : ascii → bool) (l : bytes) : option (bytes * bytes) :=
  match l with
  | [] => None
  | b :: l => if f b then Some ([], b :: l)
              else '(pre, post) ← break_at f l; Some (b :: pre, post)
  end.

(** [section_header_len] *)
Definition section_header_len (l : bytes) (layer : string) : option (Z * bytes) :=
  rest ← strip_bytes SECTION_OPEN l;
  rest ← strip_bytes (as_bytes layer) rest;
  rest ← strip_bytes SECTION_LEN_SEP rest;
  '(digits, rest) ← break_at (λ b, negb (is_ascii_digit b)) rest;
  match digits with
  | [] => None
  | _ =>
      text_len ← parse_u64 (of_bytes digits);
      rest ← strip_bytes SECTION_CLOSE rest;
      Some (text_len, rest)
  end.

(** [strip_section] *)
Definition strip_section (l : bytes) (layer : string) : option bytes :=
  '(text_len, rest) ← section_header_len l layer;
  if text_len <=? len rest then strip_bytes [LF] (drop (Z.to_nat text_len) rest) else None.

Fixpoint strip_sections (layers : list string) (l : bytes) : option bytes :=
  match layers with
  | [] => Some l
  | layer :: layers => cursor ← strip_section l layer; strip_sections layers cursor
  end.

(** [stable_prefix_len] *)
Definition stable_prefix_len (canonical : bytes) : option Z :=
  cursor ← strip_bytes CANONICAL_MAGIC canonical;
  cursor ← strip_bytes CORE_VERSION_PREFIX cursor;
  '(_, cursor) ← break_at (byte_eqb 10) cursor;
  cursor ← strip_sections STABLE_LAYERS (drop 1 cursor);
  let boundary := len canonical - len cursor in
  cursor ← strip_section cursor RUNTIME_LAYER;
  _ ← strip_bytes EFFECTIVE_OPEN cursor;
  Some boundary.

(** [CacheKey::new] *)
Definition CacheKey_new (provider_id model_id : string) (scope : CacheScope) (canonical : bytes) :
    result CacheKey CacheKeyError :=
  try! _ := match validate_provider_id provider_id with
            | Ok _ => Ok tt
            | Err _ => Err (KeyInvalidProviderId provider_id)
            end in
  try! _ := match validate_model_name model_id with
            | Ok _ => Ok tt
            | Err _ => Err (InvalidModelId model_id)
            end in
  ensure! negb (len canonical =? 0) else EmptyCanonical in
  ensure! negb (len canonical >? MAX_CANONICAL_BYTES)
  else KeyCanonicalTooLarge MAX_CANONICAL_BYTES (len canonical) in
  match stable_prefix_len canonical with
  | None => Err MissingStableMarker
  | Some n => Ok (mkCacheKey provider_id model_id scope (fnv1a (take (Z.to_nat n) canonical)) n)
  end.

(** ** [fingerprint.rs] *)

Inductive FingerprintError := MissingInput | UnknownComponent (index : Z).

Definition FingerprintError_to_string (e : FingerprintError) : string :=
  match e with
  | MissingInput => "missing fingerprint input"
  | UnknownComponent index => "unknown fingerprint component at index " +:+ show index
  end.

Record InputFingerprint := mkFingerprint { digest : Z; input_len : Z }.

#[export] Instance InputFingerprint_eq_dec : EqDecision InputFingerprint.
Proof. solve_decision. Defined.

(** [InputFingerprint::new] *)
Definition InputFingerprint_new (l : bytes) : result InputFingerprint FingerprintError :=
  ensure! negb (len l =? 0) else MissingInput in
  Ok (mkFingerprint (fnv1a l) (len l)).

(** The first loop of [of_components]: the total, or the first unknown index. *)
Fixpoint known_total (index total : Z) (cs : list (option bytes)) : result Z FingerprintError :=
  match cs with
  | [] => Ok total
  | None :: _ => Err (UnknownComponent index)
  | Some l :: cs => known_total (index + 1) (saturating_add64 total (len l)) cs
  end.

(** The second loop: the length, then the bytes, of each component. *)
Fixpoint hash_components (hash : Z) (cs : list (option bytes)) : Z :=
  match cs with
  | [] => hash
  | None :: cs => hash_components hash cs
  | Some l :: cs =>
      hash_components (fold_left fnv_step l (fold_left fnv_step (to_le_bytes 8 (len l)) hash)) cs
  end.

(** [InputFingerprint::of_components] *)
Definition of_components (cs : list (option bytes)) : result InputFingerprint FingerprintError :=
  try! total := known_total 0 0 cs in
  ensure! negb (total =? 0) else MissingInput in
  Ok (mkFingerprint (hash_components FNV_OFFSET_BASIS cs) total).

(** [InputFingerprint::allows_reuse] *)
Definition allows_reuse (a b : InputFingerprint) : bool := bool_decide (a = b).

(** ** Lemmas: the walk over a canonical form *)

Lemma break_at_app f pre b post :
  forallb (λ x, negb (f x)) pre = true → f b = true →
  break_at f (pre ++ b :: post) = Some (pre, b :: post).
Proof.
  intros Hp Hb. induction pre as [|x pre IH]; simpl; [by rewrite Hb|].
  simpl in Hp. apply andb_true_iff in Hp as [Hx Hp]. apply negb_true_iff in Hx. rewrite Hx.
  by rewrite IH.
Qed.

Lemma break_at_spec f l pre post :
  break_at f l = Some (pre, post) →
  l = pre ++ post ∧ forallb (λ x, negb (f x)) pre = true ∧ ∃ b t, post = b :: t ∧ f b = true.
Proof.
  revert pre. induction l as [|x l IH]; intros pre; simpl; [done|]. destruct (f x) eqn:E.
  - intros [= <- <-]. split_and!; [done..|]. by exists x, l.
  - destruct (break_at f l) as [[pre' post']|]; [|done]. intros [= <- <-].
    destruct (IH pre' eq_refl) as (-> & Hp & Hb). split_and!; [done| |done]. simpl. by rewrite E.
Qed.

(** Reading back the decimal length. *)
Lemma parse_digits_pretty (k : nat) : ∀ x s,
  Z.of_N x < 10 ^ Z.of_nat k → Z.of_N x ≤ u64_max →
  parse_digits 0 (as_bytes (pretty_N_go x s)) = parse_digits (Z.of_N x) (as_bytes s).
Proof.
  induction k as [|k IH]; intros x s Hx Hu.
  - assert (x = 0%N) as -> by (simpl in Hx; lia). by rewrite pretty_N_go_0.
  - destruct (decide (0 < x)%N) as [Hp|Hp].
    2:{ assert (x = 0%N) as -> by lia. by rewrite pretty_N_go_0. }
    rewrite pretty_N_go_step by done.
    pose proof (N.div_mod x 10 ltac:(done)) as Hdm. pose proof (N.mod_lt x 10 ltac:(done)) as Hm.
    assert (Z.of_N (x / 10) * 10 + Z.of_N (x mod 10) = Z.of_N x) as Hz
      by (revert Hdm Hm; generalize (x / 10)%N (x mod 10)%N; lia).
    rewrite IH.
    + change (as_bytes (String (pretty_N_char (x mod 10)) s)) with (pretty_N_char (x mod 10) :: as_bytes s).
      cbn [parse_digits]. rewrite pretty_N_char_digit by done. rewrite pretty_N_char_val by done.
      replace (Z.of_N (x / 10) * 10 + (48 + Z.of_N (x mod 10) - 48)) with (Z.of_N x) by lia.
      by rewrite (proj2 (Z.leb_le _ _) Hu).
    + rewrite Nat2Z.inj_succ, Z.pow_succ_r in Hx by lia.
      revert Hdm Hm. generalize (x / 10)%N (x mod 10)%N. lia.
    + revert Hdm Hm. generalize (x / 10)%N (x mod 10)%N. lia.
Qed.

Lemma parse_u64_show n : is_u64 n → parse_u64 (show n) = Some n.
Proof.
  intros Hn. destruct (show_digits n Hn) as [Hd Hl]. unfold parse_u64.
  assert (parse_digits 0 (as_bytes (show n)) = Some n) as Hp.
  { destruct Hn as [H0 H1]. unfold show, pretty, pretty_N. case_decide as Hz.
    - assert (n = 0) as -> by lia. done.
    - rewrite (parse_digits_pretty 20); [simpl; f_equal; lia| |]; unfold u64_max in *; lia. }
  destruct (as_bytes (show n)) as [|b t] eqn:E.
  { pose proof (as_bytes_length (show n)) as Hln. rewrite E in Hln. unfold slen in Hl. simpl in Hln. lia. }
  unfold str_forall in Hd. rewrite E in Hd. simpl in Hd. apply andb_true_iff in Hd as [Hb _].
  assert (byte_eqb 43 b = false) as ->; [|done].
  unfold is_ascii_digit, in_range, byte_eqb in *. apply andb_true_iff in Hb as [Hb _].
  apply Z.leb_le in Hb. apply Z.eqb_neq. lia.
Qed.

(** One section: header with decimal length, that many bytes, newline. *)
Definition section_bytes (layer : string) (digits text : bytes) : bytes :=
  SECTION_OPEN ++ as_bytes layer ++ SECTION_LEN_SEP ++ digits ++ SECTION_CLOSE ++ text ++ [LF].

Definition is_section (layer : string) (b : bytes) : Prop :=
  ∃ digits text, b = section_bytes layer digits text ∧ forallb is_ascii_digit digits = true
                 ∧ parse_u64 (of_bytes digits) = Some (len text).

Lemma strip_bytes_app p r : strip_bytes p (p ++ r) = Some r.
Proof. by apply strip_bytes_spec. Qed.

Lemma parse_digits_nonneg l : ∀ acc n, 0 ≤ acc → parse_digits acc l = Some n → 0 ≤ n.
Proof.
  induction l as [|b l IH]; intros acc n Ha; simpl; [by intros [= <-]|].
  destruct (is_ascii_digit b) eqn:Eb; [|done]. case_if; [|done]. apply IH.
  unfold is_ascii_digit, in_range in Eb. reflect_bools. lia.
Qed.

Lemma parse_u64_nonneg s n : parse_u64 s = Some n → 0 ≤ n.
Proof.
  unfold parse_u64. destruct (as_bytes s) as [|b t]; [done|]. destruct (byte_eqb 43 b).
  - destruct t; [done|]. by apply parse_digits_nonneg.
  - by apply parse_digits_nonneg.
Qed.

Lemma section_header_spec l layer n rest :
  section_header_len l layer = Some (n, rest) ↔
  ∃ digits, forallb is_ascii_digit digits = true ∧ parse_u64 (of_bytes digits) = Some n
            ∧ l = SECTION_OPEN ++ as_bytes layer ++ SECTION_LEN_SEP ++ digits ++ SECTION_CLOSE ++ rest.
Proof.
  unfold section_header_len. split.
  - intros H. apply bind_Some in H as (l1 & E1 & H). apply bind_Some in H as (l2 & E2 & H).
    apply bind_Some in H as (l3 & E3 & H). apply bind_Some in H as ([digits l4] & E4 & H).
    destruct digits as [|d ds] eqn:Ed; [done|]. rewrite <- Ed in *.
    apply bind_Some in H as (m & E5 & H). apply bind_Some in H as (l5 & E6 & [= -> ->]).
    apply strip_bytes_spec in E1 as ->, E2 as ->, E3 as ->, E6.
    apply break_at_spec in E4 as (-> & Hd & _). subst l4. exists digits. split_and!; [|done..].
    rewrite forallb_forall in Hd. apply forallb_forall. intros x Hx. specialize (Hd x Hx).
    by rewrite negb_involutive in Hd.
  - intros (digits & Hd & Hp & ->).
    apply bind_Some. eexists. split; [apply strip_bytes_app|].
    apply bind_Some. eexists. split; [apply strip_bytes_app|].
    apply bind_Some. eexists. split; [apply strip_bytes_app|].
    apply bind_Some. exists (digits, SECTION_CLOSE ++ rest). split.
    + apply (break_at_app (λ b, negb (is_ascii_digit b)) digits _ ([LF] ++ rest)); [|done].
      rewrite forallb_forall in *. intros x Hx. by rewrite negb_involutive, Hd.
    + destruct digits; [done|]. apply bind_Some. exists n. split; [done|].
      apply bind_Some. eexists. split; [apply strip_bytes_app|done].
Qed.

Lemma strip_section_spec l layer rest :
  strip_section l layer = Some rest ↔ ∃ b, is_section layer b ∧ l = b ++ rest.
Proof.
  unfold strip_section, is_section, section_bytes. split.
  - intros H. apply bind_Some in H as ([n l5] & E & H). apply section_header_spec in E as (ds & Hd & Hp & ->).
    destruct (n <=? len l5) eqn:E7; [|done]. apply Z.leb_le in E7. apply strip_bytes_spec in H.
    eexists. split; [exists ds, (take (Z.to_nat n) l5); split_and!; [reflexivity|done|]|].
    + rewrite Hp. apply parse_u64_nonneg in Hp. f_equal. unfold len in *. rewrite length_take. lia.
    + rewrite <- !app_assoc. do 5 f_equal. by rewrite <- H, take_drop.
  - intros (b & (ds & text & -> & Hd & Hp) & ->). rewrite <- !app_assoc.
    apply bind_Some. exists (len text, text ++ [LF] ++ rest). split.
    + apply section_header_spec. by exists ds.
    + rewrite (proj2 (Z.leb_le _ _)) by len_lia.
      unfold len. rewrite Nat2Z.id, drop_app_length. apply strip_bytes_app.
Qed.

Lemma strip_sections_spec layers : ∀ l rest,
  strip_sections layers l = Some rest ↔ ∃ bs, Forall2 is_section layers bs ∧ l = concat bs ++ rest.
Proof.
  induction layers as [|layer layers IH]; intros l rest; simpl.
  - split; [intros [= ->]; by exists []|]. intros (bs & Hf & ->). by inversion Hf.
  - split.
    + intros H. apply bind_Some in H as (l1 & E & H). apply strip_section_spec in E as (b & Hb & ->).
      apply IH in H as (bs & Hf & ->). exists (b :: bs). split; [by constructor|]. simpl. by rewrite <- app_assoc.
    + intros (bs & Hf & ->). inversion Hf as [|? b ? bs' Hb Hf']; subst. simpl. rewrite <- app_assoc.
      apply bind_Some. eexists. split; [apply strip_section_spec; by exists b|]. apply IH. by exists bs'.
Qed.

(** The layout [stable_prefix_len] recognises, and its stable head. *)
Definition canonical_head (version : bytes) (bs : list bytes) : bytes :=
  CANONICAL_MAGIC ++ CORE_VERSION_PREFIX ++ version ++ [LF] ++ concat bs.

Lemma not_lf_forallb v : LF ∉ v ↔ forallb (λ x, negb (byte_eqb 10 x)) v = true.
Proof.
  rewrite forallb_forall. setoid_rewrite <- list_elem_of_In. split.
  - intros Hv x Hx. apply negb_true_iff. unfold byte_eqb. apply Z.eqb_neq. intros He.
    apply Hv. assert (LF = x) as ->; [|done]. apply byte_val_inj. by rewrite He.
  - intros H Hin. by specialize (H _ Hin).
Qed.

Lemma stable_prefix_spec l n :
  stable_prefix_len l = Some n ↔
  ∃ version bs r t, l = canonical_head version bs ++ r ++ EFFECTIVE_OPEN ++ t ∧ (LF ∉ version)
    ∧ Forall2 is_section STABLE_LAYERS bs ∧ is_section RUNTIME_LAYER r
    ∧ n = len (canonical_head version bs).
Proof.
  unfold stable_prefix_len, canonical_head. split.
  - intros H. apply bind_Some in H as (l1 & E1 & H). apply bind_Some in H as (l2 & E2 & H).
    apply bind_Some in H as ([v l3] & E3 & H). apply bind_Some in H as (l4 & E4 & H).
    apply bind_Some in H as (l5 & E5 & H). apply bind_Some in H as (t & E6 & [= <-]).
    apply strip_bytes_spec in E1 as ->, E2 as ->, E6 as ->.
    apply break_at_spec in E3 as (-> & Hv & b & l3' & -> & Hb).
    assert (b = LF) as -> by (apply byte_val_inj; by apply Z.eqb_eq in Hb).
    apply strip_sections_spec in E4 as (bs & Hbs & E4).
    assert (l3' = concat bs ++ l4) as -> by exact E4.
    apply strip_section_spec in E5 as (r & Hr & ->).
    exists v, bs, r, t. split_and!; [by rewrite <- !app_assoc|by apply not_lf_forallb|done..|].
    unfold len. rewrite ?length_app. cbn [length]. rewrite ?length_app. lia.
  - intros (v & bs & r & t & -> & Hv & Hbs & Hr & ->). rewrite <- !app_assoc.
    apply bind_Some. eexists. split; [apply strip_bytes_app|].
    apply bind_Some. eexists. split; [apply strip_bytes_app|].
    apply bind_Some. eexists. split; [apply break_at_app; [by apply not_lf_forallb|done]|].
    apply bind_Some. exists (r ++ EFFECTIVE_OPEN ++ t). split.
    { apply strip_sections_spec. by exists bs. }
    apply bind_Some. exists (EFFECTIVE_OPEN ++ t). split; [apply strip_section_spec; by exists r|].
    apply bind_Some. exists t. split; [apply strip_bytes_app|].
    f_equal. unfold len. rewrite ?length_app. cbn [length]. rewrite ?length_app. lia.
Qed.

(** The rendering of a well-formed prompt has that layout. *)
Lemma render_is_section s : text_ok s → is_section (layer_name s.(sec_layer)) (render_section s).
Proof.
  intros Hs. apply text_ok_u64 in Hs. destruct (show_digits _ Hs) as [Hd _].
  exists (as_bytes (show (slen s.(sec_text)))), (as_bytes s.(sec_text)). split_and!; [|done|].
  - unfold render_section, section_bytes, line, SECTION_OPEN, SECTION_LEN_SEP, SECTION_CLOSE.
    cbn [map concat]. by rewrite !app_nil_r, <- !app_assoc.
  - rewrite of_bytes_as_bytes, parse_u64_show by done. f_equal.
    unfold slen, len. by rewrite as_bytes_length.
Qed.

Lemma prompt_layout p :
  prompt_wf p →
  ∃ r t, p.(canonical_bytes) = stable_head p ++ r ++ EFFECTIVE_OPEN ++ t
    ∧ is_section RUNTIME_LAYER r
    ∧ stable_head p = canonical_head (as_bytes p.(core_version)) (map render_section (take 4 p.(sections)))
    ∧ Forall2 is_section STABLE_LAYERS (map render_section (take 4 p.(sections))).
Proof.
  intros Hp. pose proof (wf_text_ok p Hp) as Ht. rewrite (proj1 (wf_canonical p Hp)).
  unfold rendered, stable_head. destruct (sections_shape p Hp) as (a & b & c & d & e & Hs).
  rewrite Hs in *. repeat (apply Forall_cons in Ht as [? Ht]).
  exists (render_section (mkSection RuntimeTurn e)), (drop 12 (render_effective p)). split_and!.
  - assert (EFFECTIVE_OPEN ++ drop 12 (render_effective p) = render_effective p) as -> by reflexivity.
    cbn [map concat firstn]. by rewrite !app_nil_r, <- !app_assoc.
  - by apply (render_is_section (mkSection RuntimeTurn e)).
  - unfold canonical_head, render_head, line, CANONICAL_MAGIC, CORE_VERSION_PREFIX.
    cbn [map concat firstn]. by rewrite !app_nil_r, <- !app_assoc.
  - cbn [map firstn]. repeat constructor; (eapply render_is_section || idtac); done.
Qed.

Lemma stable_prefix_prompt p :
  prompt_wf p → stable_prefix_len p.(canonical_bytes) = Some (len (stable_head p)).
Proof.
  intros Hp. destruct (prompt_layout p Hp) as (r & t & Hc & Hr & Hh & Hbs).
  apply stable_prefix_spec. eexists _, _, r, t. rewrite Hc, Hh. split_and!; [done| |done..].
  by apply version_free, wf_version.
Qed.

(** ** Lemmas: fingerprints *)

Definition frame (l : bytes) : bytes := to_le_bytes 8 (len l) ++ l.
Definition frames (ls : list bytes) : bytes := concat (map frame ls).

Lemma hash_components_frames ls : ∀ h,
  hash_components h (map Some ls) = fold_left fnv_step (frames ls) h.
Proof.
  induction ls as [|l ls IH]; intros h; [done|]. cbn [map hash_components]. rewrite IH.
  unfold frames, frame. cbn [map concat]. by rewrite !fold_left_app.
Qed.

Lemma known_total_spec cs : ∀ index total, 0 ≤ total ≤ u64_max →
  match known_total index total cs with
  | Ok n => ∃ ls, cs = map Some ls ∧ n = Z.min (total + len (concat ls)) u64_max
  | Err MissingInput => False
  | Err (UnknownComponent i) =>
      ∃ ls rest, cs = map Some ls ++ None :: rest ∧ i = index + len ls
  end.
Proof.
  induction cs as [|[l|] cs IH]; intros index total Ht; simpl.
  - exists []. split; [done|]. change (len (concat (@nil bytes))) with 0. lia.
  - assert (0 ≤ saturating_add64 total (len l) ≤ u64_max) as Hs.
    { unfold saturating_add64. pose proof (len_nonneg l). unfold u64_max. lia. }
    specialize (IH (index + 1) _ Hs). destruct (known_total (index + 1) _ cs) as [n|[|i]]; [| |].
    + destruct IH as (ls & -> & ->). exists (l :: ls). split; [done|]. cbn [concat].
      unfold saturating_add64. pose proof (len_nonneg (concat ls)). len_lia.
    + done.
    + destruct IH as (ls & rest & -> & ->). exists (l :: ls), rest. split; [done|]. len_lia.
  - exists [], cs. split; [done|]. len_lia.
Qed.

Lemma frames_inj ls : ∀ ks,
  Forall (λ l, len l ≤ u64_max) ls → Forall (λ l, len l ≤ u64_max) ks → frames ls = frames ks → ls = ks.
Proof.
  induction ls as [|l ls IH]; intros [|k ks] Hl Hk He; unfold frames in *; cbn [map concat] in He; try done.
  apply Forall_cons in Hl as [Hl Hls], Hk as [Hk Hks]. unfold frame in He. rewrite <- !app_assoc in He.
  apply app_inj_1 in He as [Hn He]; [|by rewrite !length_to_le].
  apply (f_equal from_le_bytes) in Hn. pose proof (len_nonneg l). pose proof (len_nonneg k).
  rewrite !from_to_le in Hn by (change (256 ^ Z.of_nat 8) with (u64_max + 1); lia).
  apply app_inj_1 in He as [-> He]; [|unfold len in Hn; lia]. f_equal. by apply IH.
Qed.

Lemma of_components_known ls :
  concat ls ≠ [] →
  of_components (map Some ls) = Ok (mkFingerprint (fnv1a (frames ls)) (Z.min (len (concat ls)) u64_max)).
Proof.
  intros Hne. unfold of_components. pose proof (known_total_spec (map Some ls) 0 0) as H.
  destruct (known_total 0 0 (map Some ls)) as [n|[|i]].
  - destruct H as (ks & Hk & ->); [unfold u64_max; lia|].
    apply (inj (map Some)) in Hk as <-. rewrite hash_components_frames.
    assert (0 < len (concat ls)) as Hp.
    { destruct (concat ls) as [|b l]; [done|]. rewrite len_cons. pose proof (len_nonneg l). lia. }
    rewrite (proj2 (Z.eqb_neq _ _)) by (unfold u64_max; lia). done.
  - destruct H. unfold u64_max. lia.
  - destruct H as (ks & rest & Hk & _); [unfold u64_max; lia|]. exfalso.
    assert (None ∈ map (@Some bytes) ls) as Hin.
    { rewrite Hk. apply elem_of_app. right. apply list_elem_of_here. }
    by apply list_elem_of_fmap in Hin as (? & ? & _).
Qed.

(** ** Properties *)

(** The boundary is exact.  The walk accepts exactly the byte strings made of
    the magic line, a version line, the four stable sections with their declared
    lengths, a Runtime/Turn section and the effective block, and returns exactly
    the length of the part before the Runtime/Turn section: header-shaped bytes
    inside a section never move it, and anything else has no boundary. *)
Theorem stable_prefix_exact l n :
  stable_prefix_len l = Some n ↔
  ∃ version bs r t, l = canonical_head version bs ++ r ++ EFFECTIVE_OPEN ++ t ∧ (LF ∉ version)
    ∧ Forall2 is_section STABLE_LAYERS bs ∧ is_section RUNTIME_LAYER r
    ∧ n = len (canonical_head version bs).
Proof. apply stable_prefix_spec. Qed.

Lemma cache_key_prompt p provider model scope :
  prompt_wf p → validate_provider_id provider = Ok tt → validate_model_name model = Ok tt →
  CacheKey_new provider model scope p.(canonical_bytes)
  = Ok (mkCacheKey provider model scope (fnv1a (stable_head p)) (len (stable_head p))).
Proof.
  intros Hp Hi Hm. unfold CacheKey_new. rewrite Hi, Hm, (stable_prefix_prompt p Hp).
  pose proof (wf_canonical p Hp) as [_ Hlen].
  destruct (prompt_layout p Hp) as (r & t & Hc & _).
  assert (0 < len (canonical_bytes p)) as Hpos.
  { rewrite Hc. unfold stable_head, render_head, len. rewrite !length_app. simpl. lia. }
  rewrite (proj2 (Z.eqb_neq _ _)) by lia. cbn [negb].
  rewrite Z.gtb_ltb, (proj2 (Z.ltb_ge _ _)) by done. cbn [negb].
  do 2 f_equal. rewrite Hc. unfold len. by rewrite Nat2Z.id, take_app_length.
Qed.

(** A cache key addresses the stable head.  For every assembled prompt a valid
    route gives a key, over exactly the stable head.  Prompts that agree on the
    version and the stable layers have the same key on the same route, whatever
    their Runtime/Turn text and policy; prompts that do not have different stable
    heads, so their keys differ unless the digest and the length collide. *)
Theorem cache_key_addresses_stable_head p q provider model scope :
  prompt_wf p → prompt_wf q → validate_provider_id provider = Ok tt →
  validate_model_name model = Ok tt →
  CacheKey_new provider model scope p.(canonical_bytes)
    = Ok (mkCacheKey provider model scope (fnv1a (stable_head p)) (len (stable_head p)))
  ∧ (same_stable p q → CacheKey_new provider model scope p.(canonical_bytes)
                       = CacheKey_new provider model scope q.(canonical_bytes))
  ∧ (¬ same_stable p q → stable_head p ≠ stable_head q).
Proof.
  intros Hp Hq Hi Hm. split; [by apply cache_key_prompt|]. split.
  - intros Hs. apply same_stable_sections in Hs as [Hv Hs]; [|done..].
    rewrite !cache_key_prompt by done. unfold stable_head. by rewrite Hv, Hs.
  - intros Hn He. apply Hn. apply same_stable_sections; [done..|].
    destruct (stable_head_unique p q [] [] Hp Hq) as (? & ? & _); [by rewrite He|done].
Qed.

(** Fingerprints are complete and disabled on unknown input.  The first unknown
    component is reported and nothing is hashed; all-empty input is refused;
    otherwise the digest covers the length-framed components and the total length
    travels with it.  The framing is injective, so regrouped or reordered
    components are hashed as different strings, and changing any single byte of
    any component changes the fingerprint. *)
Theorem fingerprint_complete cs :
  match of_components cs with
  | Err (UnknownComponent i) => ∃ ls rest, cs = map Some ls ++ None :: rest ∧ i = len ls
  | Err MissingInput => ∃ ls, cs = map Some ls ∧ concat ls = []
  | Ok fp => ∃ ls, cs = map Some ls ∧ concat ls ≠ []
      ∧ fp = mkFingerprint (fnv1a (frames ls)) (Z.min (len (concat ls)) u64_max)
      ∧ (∀ ks, Forall (λ l, len l ≤ u64_max) ls → Forall (λ l, len l ≤ u64_max) ks →
           frames ls = frames ks → ls = ks)
      ∧ (∀ pre post x y b b' fp', ls = pre ++ (x ++ b :: y) :: post → b ≠ b' →
           of_components (map Some (pre ++ (x ++ b' :: y) :: post)) = Ok fp' →
           allows_reuse fp fp' = false)
  end.
Proof.
  destruct (of_components cs) as [fp|[|i]] eqn:E; unfold of_components in E;
    pose proof (known_total_spec cs 0 0 ltac:(unfold u64_max; lia)) as H;
    destruct (known_total 0 0 cs) as [n|e]; simplify_eq.
  - destruct H as (ls & -> & ->). destruct (Z.min _ _ =? 0) eqn:E0; [done|]. simpl in E.
    apply Z.eqb_neq in E0. exists ls. split; [done|].
    assert (concat ls ≠ []) as Hne by (intros Hn; by rewrite Hn in E0).
    split; [done|]. injection E as <-. rewrite hash_components_frames. split_and!; [done| |].
    + intros ks Hl Hk. by apply frames_inj.
    + intros pre post x y b b' fp' -> Hb Hfp. rewrite of_components_known in Hfp.
      2:{ intros Hn. apply (f_equal length) in Hn. rewrite concat_app in Hn. cbn [concat] in Hn.
          rewrite !length_app in Hn. simpl in Hn. lia. }
      injection Hfp as <-. apply bool_decide_eq_false. intros [= Hd _].
      unfold frames in Hd. rewrite !map_app, !concat_app in Hd. cbn [map concat] in Hd.
      unfold frame in Hd.
      assert (len (x ++ b' :: y) = len (x ++ b :: y)) as Hlen by len_lia. rewrite Hlen in Hd.
      rewrite <- !app_assoc in Hd. cbn [app] in Hd. rewrite !(app_assoc _ (to_le_bytes _ _)) in Hd.
      rewrite !(app_assoc _ x) in Hd. by apply fnv1a_single_byte in Hd.
  - destruct H as (ls & -> & ->). destruct (Z.min _ _ =? 0) eqn:E0; [|done].
    apply Z.eqb_eq in E0. exists ls. split; [done|]. apply len_zero.
    pose proof (len_nonneg (concat ls)). unfold u64_max in E0. lia.
  - done.
  - destruct (negb _); done.
  - destruct H as (ls & rest & -> & ->). exists ls, rest. split; [done|]. lia.
Qed.

(** ** Witnesses *)

Definition demo_quiet : AssembledPrompt :=
  match assemble_prompt (mkSnapshot "core@1" [demo_core; demo_user; text_only RuntimeTurn "[layer:user len=0]"]) with
  | Ok p => p
  | Err _ => demo_prompt
  end.

Lemma demo_quiet_wf : prompt_wf demo_quiet.
Proof.
  apply (assembled_wf (mkSnapshot "core@1" [demo_core; demo_user; text_only RuntimeTurn "[layer:user len=0]"])).
  vm_compute. reflexivity.
Qed.

Lemma cache_key_addresses_stable_head_witness :
  CacheKey_new "local" "small" ScopeSession demo_prompt.(canonical_bytes)
  = CacheKey_new "local" "small" ScopeSession demo_quiet.(canonical_bytes).
Proof.
  apply (cache_key_addresses_stable_head demo_prompt demo_quiet "local" "small" ScopeSession).
  - exact (assembled_wf _ _ demo_assembled).
  - exact demo_quiet_wf.
  - reflexivity.
  - reflexivity.
  - split; [vm_compute; reflexivity|]. intros [] HL; [vm_compute; reflexivity..|done].
Defined.

Example fingerprint_demo :
  of_components [Some (as_bytes "ab"); None] = Err (UnknownComponent 1)
  ∧ of_components [Some []; Some []] = Err MissingInput
  ∧ of_components [Some (as_bytes "ab"); Some (as_bytes "c")]
    ≠ of_components [Some (as_bytes "a"); Some (as_bytes "bc")].
Proof. vm_compute. split_and!; done. Qed.
