(* ===== verification/PromptTurn.v ===== *)
(** * PromptTurn: a turn under an assembled prompt

    Composes [PromptPolicy] with [TurnSafety]: what the layers of a snapshot say
    about tools binds everything a turn of an agent under that prompt executes. *)

From S2P Require Import Prelude Text Order Session Stream ToolTypes Prompt Consent ToolBus Context Assembly.
From S2P Require Import Provider Reconcile Agent Turn TurnSafety PromptPolicy.

Local Open Scope Z_scope.

Section Layers.
Context {W : Type} `{Host W}.
Implicit Types (a : Agent W) (w : W).

(** C26: the layers bind the executor.  For an agent whose prompt was assembled from
    a snapshot, every tool a turn makes the executor run is denied by no layer of
    the snapshot and listed by every layer that has an allow-set, whatever the
    model asked for and whatever the texts of the layers say. *)
Theorem turn_respects_layers log `{!ExecutionLog log} a w model text seed now a' w' o snapshot p :
  assemble_prompt snapshot = Ok p → a.(prompt) = Some p →
  run_turn a w model text seed now = Returned (a', w', o) →
  ∃ new, log w' = log w ++ new
    ∧ Forall (λ tool, Forall (layer_permits tool) snapshot.(snap_layers)) new.
Proof.
  intros Hs Hp E. destruct (run_turn_ran log a w model text seed now a' w' o E) as (new & Hl & Hall & _).
  exists new. split; [done|]. eapply Forall_impl; [exact Hall|]. intros tool (_ & Hgate & _).
  unfold prompt_allows in Hgate. rewrite Hp in Hgate. by apply (assembled_gate _ _ _ _ Hs) in Hgate as [_ ?].
Qed.
End Layers.

(** ** Witnesses *)

Definition layered_agent : Agent FakeWorld := with_prompt (Some demo_prompt) turn_agent.

Definition layered_final : Agent FakeWorld * FakeWorld * ExecOutcome :=
  result_of (layered_agent, turn_world (Ok empty_success), OutCompleted "")
    (run_turn layered_agent (turn_world (Ok empty_success)) "m" "go" [] 5).

Lemma turn_respects_layers_witness :
  ∃ new, map fst layered_final.1.2.(fw_executor).(calls) = [] ++ new
    ∧ Forall (λ tool, Forall (layer_permits tool) demo_snapshot.(snap_layers)) new
    ∧ new = ["fs.read"].
Proof.
  destruct (turn_respects_layers (λ w : FakeWorld, map fst w.(fw_executor).(calls)) layered_agent
    (turn_world (Ok empty_success)) "m" "go" [] 5 layered_final.1.1 layered_final.1.2 layered_final.2
    demo_snapshot demo_prompt demo_assembled) as (new & Hl & Hall).
  - reflexivity.
  - vm_compute. reflexivity.
  - exists new. split; [exact Hl|]. split; [exact Hall|]. vm_compute in Hl. by rewrite Hl.
Defined.
