(* ===== verification/Loaders.v ===== *)
(** * Loaders: project files and skill registries

    Models the declarative loaders of [prompt.rs]: the lexical admission of project paths,
    the line format of project files and of skill registries, and the construction of the
    [LayerInput]s they yield.  The bytes come from the host; nothing here reads files. *)

From stdpp Require Import gmap.
From S2P Require Import Prelude Text Order Session ToolTypes Prompt Consent.

Local Open Scope Z_scope.
Local Open Scope rust_scope.

Definition MAX_PROJECT_FILES : Z := 16.
Definition MAX_PROJECT_FILE_BYTES : Z := 8 * 1024.
Definition MAX_PROJECT_PATH_LEN : Z := 256.
Definition MAX_SKILL_ENTRIES : Z := 16.
Definition MAX_SKILL_ENTRY_BYTES : Z := 8 * 1024.
Definition MAX_SKILL_REGISTRY_BYTES : Z := 64 * 1024.
Definition MAX_SKILL_NAME_LEN : Z := 64.
Definition MAX_SKILL_VERSION_LEN : Z := 32.
Definition SKILL_REGISTRY_VERSION_1 : string := "1".
Definition SUPPORTED_SKILL_VERSIONS : list string := [SKILL_REGISTRY_VERSION_1].

Definition is_supported_skill_version (version : string) : bool :=
  existsb (λ v, str_eqb v version) SUPPORTED_SKILL_VERSIONS.

(** ** Paths *)

Definition SLASH : ascii := Ascii.ascii_of_N 47.

Definition is_unsafe_path_segment (segment : string) : bool :=
  is_empty segment || str_eqb segment "." || str_eqb segment "..".

(** [split_rooted_path] *)
Definition split_rooted_path (path : string) : option (bool * string) :=
  if is_empty path || (slen path >? MAX_PROJECT_PATH_LEN) then None
  else if has_byte [0; 13; 10; 92] path then None
  else
    let '(absolute, rest) :=
      match strip_prefix (String SLASH "") path with Some rest => (true, rest) | None => (false, path) end in
    if is_empty rest then None
    else if existsb is_unsafe_path_segment (split_on SLASH rest) then None
    else Some (absolute, rest).

(** One turn of the loop of [admit_project_path]. *)
Definition under_root (absolute : bool) (candidate : string) (root : string) : bool :=
  match split_rooted_path root with
  | None => false
  | Some (root_abs, root_rest) =>
      if negb (Bool.eqb root_abs absolute) || (slen root_rest >? MAX_PROJECT_PATH_LEN) then false
      else str_eqb candidate root_rest
           || (slen candidate >? slen root_rest) && String.prefix root_rest candidate
              && bool_decide (as_bytes candidate !! String.length root_rest = Some SLASH)
  end.

(** [admit_project_path] *)
Definition admit_project_path (roots : list string) (candidate : string) : result unit PromptError :=
  match split_rooted_path candidate with
  | None => Err (InvalidProjectPath candidate)
  | Some (absolute, rest) =>
      if slen rest >? MAX_PROJECT_PATH_LEN then Err (InvalidProjectPath candidate)
      else if existsb (under_root absolute rest) roots then Ok tt
      else Err (InvalidProjectPath candidate)
  end.

(** ** Lines *)

Definition LF : ascii := Ascii.ascii_of_N 10.
Definition EQ_SIGN : ascii := Ascii.ascii_of_N 61.

(** [str::lines] on text without CR, which both parsers refuse first. *)
Definition lines (s : string) : list string :=
  let parts := split_on LF s in
  match last parts with
  | Some EmptyString => removelast parts
  | _ => parts
  end.

(** [[&str]::join] with a byte. *)
Fixpoint join_on (sep : ascii) (l : list string) : string :=
  match l with
  | [] => ""
  | x :: l => match l with [] => x | _ => x +:+ String sep (join_on sep l) end
  end.

Definition join_lines : list string → string := join_on LF.

Definition split_header_line (line : string) : option (string * string) :=
  match split_once EQ_SIGN line with
  | Some (key, value) => Some (trim key, trim value)
  | None => None
  end.

(** Blank lines and comments. *)
Definition is_skipped (trimmed : string) : bool := is_empty trimmed || String.prefix "#" trimmed.

(** ** Parts *)

Record ProjectParts := mkParts {
  pp_text : list string;
  pp_allowed : list string;
  pp_denied : list string;
  pp_budget : option Z;
  pp_scopes : list string;
  pp_directives : gmap string string
}.

Definition parts_new : ProjectParts := mkParts [] [] [] None [] ∅.

(** A problem at a line. *)
Definition at_line (mk : string → PromptError) (lineno : Z) (detail : string) : PromptError :=
  mk ("line " +:+ show lineno +:+ ": " +:+ detail).

Section Header.
Variable malformed : string → PromptError.

(** A [directive.<name>] header. *)
Definition add_directive (p : ProjectParts) (name value : string) : result ProjectParts PromptError :=
  if is_empty name then Err (malformed "empty directive name")
  else
    try! _ := validate_directive_key name in
    try! _ := validate_directive_value name value in
    match p.(pp_directives) !! name with
    | None => Ok (mkParts p.(pp_text) p.(pp_allowed) p.(pp_denied) p.(pp_budget) p.(pp_scopes)
                    (<[name := value]> p.(pp_directives)))
    | Some first => if str_eqb first value then Ok p else Err (malformed "duplicate directive with different values")
    end.

(** [allow_tool], [deny_tool] and [scope] headers. *)
Definition add_allowed (p : ProjectParts) (value : string) : result ProjectParts PromptError :=
  if is_empty value then Err (malformed "empty allow_tool value")
  else try! _ := validate_prompt_tool_name value in
    Ok (mkParts p.(pp_text) (p.(pp_allowed) ++ [value]) p.(pp_denied) p.(pp_budget) p.(pp_scopes) p.(pp_directives)).
Definition add_denied (p : ProjectParts) (value : string) : result ProjectParts PromptError :=
  if is_empty value then Err (malformed "empty deny_tool value")
  else try! _ := validate_prompt_tool_name value in
    Ok (mkParts p.(pp_text) p.(pp_allowed) (p.(pp_denied) ++ [value]) p.(pp_budget) p.(pp_scopes) p.(pp_directives)).
Definition add_scope (p : ProjectParts) (value : string) : result ProjectParts PromptError :=
  if is_empty value then Err (malformed "empty scope value")
  else try! _ := validate_scope value in
    Ok (mkParts p.(pp_text) p.(pp_allowed) p.(pp_denied) p.(pp_budget) (p.(pp_scopes) ++ [value]) p.(pp_directives)).

(** A [budget] header. *)
Definition add_budget (p : ProjectParts) (value : string) : result ProjectParts PromptError :=
  match parse_u64 value with
  | None => Err (malformed "budget must be a decimal byte count")
  | Some ceiling =>
      try! _ := validate_budget_ceiling ceiling in
      match p.(pp_budget) with
      | None => Ok (mkParts p.(pp_text) p.(pp_allowed) p.(pp_denied) (Some ceiling) p.(pp_scopes) p.(pp_directives))
      | Some first => if first =? ceiling then Ok p else Err (malformed "duplicate budget with different values")
      end
  end.

(** A header line of a project file. *)
Definition project_header (p : ProjectParts) (trimmed : string) : result ProjectParts PromptError :=
  match split_header_line trimmed with
  | None => Err (malformed "expected `key = value` or `text:`")
  | Some (key, value) =>
      if is_empty key then Err (malformed "empty header key")
      else
        match strip_prefix "directive." key with
        | Some name => add_directive p name value
        | None =>
            if str_eqb key "allow_tool" then add_allowed p value
            else if str_eqb key "deny_tool" then add_denied p value
            else if str_eqb key "scope" then add_scope p value
            else if str_eqb key "budget" then add_budget p value
            else Err (malformed "unknown project header key")
        end
  end.
End Header.

Definition with_text (p : ProjectParts) (text : list string) : ProjectParts :=
  mkParts text p.(pp_allowed) p.(pp_denied) p.(pp_budget) p.(pp_scopes) p.(pp_directives).

(** The loop over the lines; after [text:] they are data. *)
Fixpoint project_lines (lineno : Z) (in_text : bool) (p : ProjectParts) (l : list string) :
    result ProjectParts PromptError :=
  match l with
  | [] => Ok p
  | line :: l =>
      if in_text then project_lines (lineno + 1) true (with_text p (p.(pp_text) ++ [line])) l
      else
        let trimmed := trim line in
        if is_skipped trimmed then project_lines (lineno + 1) false p l
        else if str_eqb trimmed "text:" then project_lines (lineno + 1) true p l
        else
          try! p' := project_header (at_line MalformedProject lineno) p trimmed in
          project_lines (lineno + 1) false p' l
  end.

(** [parse_project_source] *)
Definition parse_project_source (source : string) : result ProjectParts PromptError :=
  if slen source >? MAX_PROJECT_FILE_BYTES then Err (ProjectFileTooLarge MAX_PROJECT_FILE_BYTES (slen source))
  else if has_byte [13] source then Err (MalformedProject "project file must use LF newlines only (no CR)")
  else if has_byte [0] source then Err (MalformedProject "project file must not contain NUL")
  else project_lines 1 false parts_new (lines source).

(** An empty list is no constraint. *)
Definition constraint (l : list string) : option (list string) :=
  match l with [] => None | _ => Some (string_set l) end.

(** The directives in the order of the map. *)
Definition directive_list (m : gmap string string) : list Directive :=
  map (λ kv, mkDirective kv.1 kv.2) (sort_by_key fst (map_to_list m)).

Definition layer_of (layer : PromptLayer) (budget : option Z) (p : ProjectParts) : LayerInput :=
  mkLayer layer (join_lines p.(pp_text)) (constraint p.(pp_allowed)) (string_set p.(pp_denied)) budget
    (constraint p.(pp_scopes)) (directive_list p.(pp_directives)).

(** [project_parts_to_layer] *)
Definition project_parts_to_layer (p : ProjectParts) : result LayerInput PromptError :=
  let input := layer_of ProjectLayer p.(pp_budget) p in
  try! _ := LayerInput_validate input in Ok input.

(** [LayerInput::project_from_str] *)
Definition project_from_str (source : string) : result LayerInput PromptError :=
  try! parts := parse_project_source source in project_parts_to_layer parts.

(** ** Merging project files *)

(** The loop that admits and parses the files. *)
Fixpoint parse_files (roots : list string) (files : list (string * string)) :
    result (list (string * ProjectParts)) PromptError :=
  match files with
  | [] => Ok []
  | (path, source) :: files =>
      try! _ := admit_project_path roots path in
      try! parts := match parse_project_source source with
                    | Err (MalformedProject reason) => Err (MalformedProject (path +:+ ": " +:+ reason))
                    | r => r
                    end in
      try! rest := parse_files roots files in
      Ok ((path, parts) :: rest)
  end.

(** Directives of one part into those merged so far, in the order of the map. *)
Fixpoint merge_directive_list (m : gmap string string) (l : list (string * string)) :
    result (gmap string string) PromptError :=
  match l with
  | [] => Ok m
  | (key, value) :: l =>
      match m !! key with
      | None => merge_directive_list (<[key := value]> m) l
      | Some first => if str_eqb first value then merge_directive_list m l
                      else Err (UnresolvableConflict key first value)
      end
  end.

Definition min_budget (a b : option Z) : option Z :=
  match a, b with
  | Some current, Some next => Some (Z.min current next)
  | Some current, None => Some current
  | None, next => next
  end.

(** One file, or one skill, into the parts merged so far. *)
Definition merge_parts (m p : ProjectParts) : result ProjectParts PromptError :=
  try! directives := merge_directive_list m.(pp_directives) (sort_by_key fst (map_to_list p.(pp_directives))) in
  Ok (mkParts (m.(pp_text) ++ p.(pp_text)) (m.(pp_allowed) ++ p.(pp_allowed)) (m.(pp_denied) ++ p.(pp_denied))
        (min_budget m.(pp_budget) p.(pp_budget)) (m.(pp_scopes) ++ p.(pp_scopes)) directives).

Fixpoint merge_files (seen : list string) (m : ProjectParts) (l : list (string * ProjectParts)) :
    result ProjectParts PromptError :=
  match l with
  | [] => Ok m
  | (path, parts) :: l =>
      if bool_decide (path ∈ seen) then Err (MalformedProject (path +:+ ": duplicate project path"))
      else try! m' := merge_parts m parts in merge_files (seen ++ [path]) m' l
  end.

(** [LayerInput::project_from_files_under_roots] *)
Definition project_from_files_under_roots (roots : list string) (files : list (string * string)) :
    result LayerInput PromptError :=
  if len files >? MAX_PROJECT_FILES then Err (TooManyProjectFiles MAX_PROJECT_FILES)
  else
    try! parsed := parse_files roots files in
    try! merged := merge_files [] parts_new (sort_by_key fst parsed) in
    project_parts_to_layer merged.

(** ** Skill registries *)

Definition validate_skill_name (name : string) : result unit PromptError :=
  ensure! negb (is_empty name) && (slen name <=? MAX_SKILL_NAME_LEN) && starts_lowercase name
    && str_forall (λ b, is_ascii_lowercase b || is_ascii_digit b || byte_eqb 95 b || byte_eqb 45 b) name
  else InvalidToolName name in
  Ok tt.

(** A skill while its headers are read: its parts, name and version. *)
Record SkillDraft := mkSkillDraft {
  sd_parts : ProjectParts;
  sd_name : option string;
  sd_version : option string
}.

Record SkillEntry := mkSkillEntry { skill_name : string; skill_fragment : string; skill_parts : ProjectParts }.

Section SkillHeader.
Variable malformed : string → PromptError.

(** A header line of a registry entry. *)
Definition skill_header (d : SkillDraft) (trimmed : string) : result SkillDraft PromptError :=
  let on_parts r := try! p := r in Ok (mkSkillDraft p d.(sd_name) d.(sd_version)) in
  match split_header_line trimmed with
  | None => Err (malformed "expected `key = value` or `text:`")
  | Some (key, value) =>
      if str_eqb key "name" then
        if is_empty value then Err (malformed "empty skill name")
        else if slen value >? MAX_SKILL_NAME_LEN then Err (malformed "skill name exceeds length bound")
        else
          try! _ := validate_skill_name value in
          match d.(sd_name) with
          | None => Ok (mkSkillDraft d.(sd_parts) (Some value) d.(sd_version))
          | Some first => if str_eqb first value then Ok d else Err (malformed "duplicate name lines differ")
          end
      else if str_eqb key "version" then
        if is_empty value then Err (malformed "empty skill version")
        else if slen value >? MAX_SKILL_VERSION_LEN then Err (malformed "skill version exceeds length bound")
        else Ok (mkSkillDraft d.(sd_parts) d.(sd_name) (Some value))
      else
        match strip_prefix "directive." key with
        | Some name => on_parts (add_directive malformed d.(sd_parts) name value)
        | None =>
            if str_eqb key "allow_tool" then on_parts (add_allowed malformed d.(sd_parts) value)
            else if str_eqb key "deny_tool" then on_parts (add_denied malformed d.(sd_parts) value)
            else if str_eqb key "scope" then on_parts (add_scope malformed d.(sd_parts) value)
            else Err (malformed "unknown skill entry key")
        end
  end.
End SkillHeader.

(** The loop over the lines of an entry. *)
Fixpoint skill_lines (in_text : bool) (d : SkillDraft) (l : list (Z * string)) : result SkillDraft PromptError :=
  match l with
  | [] => Ok d
  | (lineno, line) :: l =>
      if in_text then
        skill_lines true (mkSkillDraft (with_text d.(sd_parts) (d.(sd_parts).(pp_text) ++ [line])) d.(sd_name) d.(sd_version)) l
      else
        let trimmed := trim line in
        if is_skipped trimmed then skill_lines false d l
        else if str_eqb trimmed "text:" then skill_lines true d l
        else try! d' := skill_header (at_line MalformedSkill lineno) d trimmed in skill_lines false d' l
  end.

Definition chunk_is_blank (chunk : list (Z * string)) : bool := forallb (λ l, is_skipped (trim l.2)) chunk.

(** [parse_skill_chunk] *)
Definition parse_skill_chunk (chunk : list (Z * string)) : result (option SkillEntry) PromptError :=
  if chunk_is_blank chunk then Ok None
  else
    try! d := skill_lines false (mkSkillDraft parts_new None None) chunk in
    match d.(sd_name) with
    | None => Err (at_line MalformedSkill (match chunk with (n, _) :: _ => n | [] => 0 end)
                     "skill entry misses required `name`")
    | Some name =>
        match d.(sd_version) with
        | None => Err (MissingSkillVersion name)
        | Some version =>
            if negb (is_supported_skill_version version) then Err (UnsupportedSkillVersion version)
            else
              let fragment := join_lines d.(sd_parts).(pp_text) in
              if slen fragment >? MAX_SKILL_ENTRY_BYTES then Err (SkillEntryTooLarge MAX_SKILL_ENTRY_BYTES (slen fragment))
              else Ok (Some (mkSkillEntry name fragment d.(sd_parts)))
        end
    end.

(** The loop that finds the version of the registry: the lines after it. *)
Fixpoint registry_version (lineno : Z) (l : list string) : result (list (Z * string)) PromptError :=
  let malformed := Err (at_line MalformedSkill lineno "first line must be `version = <n>`") in
  match l with
  | [] => Err (MalformedSkill "skill registry misses required `version` header")
  | line :: l =>
      let trimmed := trim line in
      if is_skipped trimmed then registry_version (lineno + 1) l
      else
        match split_header_line trimmed with
        | None => malformed
        | Some (key, value) =>
            if negb (str_eqb key "version") || is_empty value then malformed
            else if (slen value >? MAX_SKILL_VERSION_LEN) || negb (is_supported_skill_version value)
            then Err (UnsupportedSkillVersion value)
            else Ok (imap (λ i line, (lineno + 1 + Z.of_nat i, line)) l)
        end
  end.

(** The chunks between the separators, and the current one. *)
Fixpoint chunks_loop (chunk : list (Z * string)) (l : list (Z * string)) : list (list (Z * string)) :=
  match l with
  | [] => [chunk]
  | x :: l => if str_eqb (trim x.2) "---" then chunk :: chunks_loop [] l else chunks_loop (chunk ++ [x]) l
  end.

(** A trailing separator leaves no chunk. *)
Definition chunks_of (l : list (Z * string)) : list (list (Z * string)) :=
  let chunks := chunks_loop [] l in
  match last chunks with Some [] => removelast chunks | _ => chunks end.

Fixpoint parse_chunks (l : list (list (Z * string))) : result (list SkillEntry) PromptError :=
  match l with
  | [] => Ok []
  | chunk :: l =>
      try! entry := parse_skill_chunk chunk in
      try! rest := parse_chunks l in
      Ok (match entry with Some e => e :: rest | None => rest end)
  end.

(** [windows(2)]: the first name that follows itself. *)
Fixpoint adjacent_duplicate (l : list SkillEntry) : option string :=
  match l with
  | a :: l => match l with
              | b :: _ => if str_eqb a.(skill_name) b.(skill_name) then Some a.(skill_name) else adjacent_duplicate l
              | [] => None
              end
  | [] => None
  end.

(** What an entry contributes: its fragment is one piece of text, if any. *)
Definition entry_parts (e : SkillEntry) : ProjectParts :=
  with_text e.(skill_parts) (if is_empty e.(skill_fragment) then [] else [e.(skill_fragment)]).

Fixpoint merge_entries (m : ProjectParts) (l : list SkillEntry) : result ProjectParts PromptError :=
  match l with
  | [] => Ok m
  | e :: l => try! m' := merge_parts m (entry_parts e) in merge_entries m' l
  end.

(** [LayerInput::skills_from_str] *)
Definition skills_from_str (source : string) : result LayerInput PromptError :=
  if slen source >? MAX_SKILL_REGISTRY_BYTES then Err (SkillRegistryTooLarge MAX_SKILL_REGISTRY_BYTES (slen source))
  else if has_byte [13] source then Err (MalformedSkill "skill registry must use LF newlines only (no CR)")
  else if has_byte [0] source then Err (MalformedSkill "skill registry must not contain NUL")
  else
    try! rest := registry_version 1 (lines source) in
    try! entries := parse_chunks (chunks_of rest) in
    if len entries >? MAX_SKILL_ENTRIES then Err (TooManySkills MAX_SKILL_ENTRIES)
    else
      let entries := sort_by_key skill_name entries in
      match adjacent_duplicate entries with
      | Some name => Err (DuplicateSkill name)
      | None =>
          try! merged := merge_entries parts_new entries in
          let input := layer_of SkillsProfile None merged in
          try! _ := LayerInput_validate input in Ok input
      end.
