(* ===== verification/LoaderFacts.v ===== *)
(** * LoaderFacts: what the loaders admit and what they load

    Admission of paths is the component-wise one; text after the marker is inert; merging
    project files is exact, and does not depend on the order in which the host lists them;
    registries merge their entries by name. *)

From stdpp Require Import gmap.
From S2P Require Import Prelude Text Order Session ToolTypes Prompt Consent PromptPolicy Loaders.

Local Open Scope Z_scope.
Local Open Scope rust_scope.

(** ** Splitting and joining *)

Lemma split_on_app sep a b : split_on sep (a +:+ String sep b) = split_on sep a ++ split_on sep b.
Proof.
  induction a as [|c a IH].
  - change ("" +:+ String sep b) with (String sep b). simpl. destruct (split_on sep b) eqn:E; [by apply split_on_nonempty in E|].
    by rewrite bool_decide_true.
  - change (String c a +:+ String sep b) with (String c (a +:+ String sep b)). cbn [split_on]. rewrite IH.
    destruct (split_on sep a) as [|x l] eqn:E; [by apply split_on_nonempty in E|]. simpl. by case_bool_decide.
Qed.

Lemma join_split sep s : join_on sep (split_on sep s) = s.
Proof.
  induction s as [|c s IH]; [done|]. cbn [split_on].
  destruct (split_on sep s) as [|x l] eqn:E; [by apply split_on_nonempty in E|].
  case_bool_decide as Hc.
  - subst c. change (String sep (join_on sep (x :: l)) = String sep s). by rewrite IH.
  - rewrite <- IH. by destruct l.
Qed.

Lemma join_on_app sep l k : l ≠ [] → k ≠ [] → join_on sep (l ++ k) = join_on sep l +:+ String sep (join_on sep k).
Proof.
  intros Hl Hk. induction l as [|x l IH]; [done|]. destruct l as [|y l].
  - simpl. by destruct k.
  - specialize (IH ltac:(done)). change (x +:+ String sep (join_on sep ((y :: l) ++ k))
      = (x +:+ String sep (join_on sep (y :: l))) +:+ String sep (join_on sep k)).
    rewrite IH, append_assoc. done.
Qed.

(** ** Admission *)

(** A path as whether it is absolute and its segments. *)
Definition segments (path : string) : option (bool * list string) :=
  match split_rooted_path path with Some (absolute, rest) => Some (absolute, split_on SLASH rest) | None => None end.

Lemma list_lookup_middle_tail {A} (l k : list A) : (l ++ k) !! length l = head k.
Proof. rewrite lookup_app_r, Nat.sub_diag by lia. by destruct k. Qed.

Lemma under_split root p : root = p ∨ (slen root < slen p ∧ String.prefix root p = true
    ∧ as_bytes p !! String.length root = Some SLASH) ↔ split_on SLASH root `prefix_of` split_on SLASH p.
Proof.
  split.
  - intros [->|(_ & Hp & Hs)]; [done|]. assert (∃ b, p = root +:+ b) as [b ->].
    { clear Hs. revert p Hp. induction root as [|c root IH]; intros p Hp; [by exists p|].
      destruct p as [|d p]; [done|]. cbn [String.prefix] in Hp. destruct (Ascii.ascii_dec c d) as [<-|]; [|done].
      destruct (IH p Hp) as [b ->]. by exists b. }
    rewrite as_bytes_app, <- as_bytes_length, list_lookup_middle_tail in Hs.
    destruct b as [|c b]; [done|]. simpl in Hs. injection Hs as ->. rewrite split_on_app. by eexists.
  - intros [k Hk]. pose proof (join_split SLASH root) as Hr. pose proof (join_split SLASH p) as Hp. rewrite Hk in Hp.
    destruct k as [|x k]; [left; rewrite app_nil_r in Hp; congruence|right].
    rewrite join_on_app, Hr in Hp by (done || apply split_on_nonempty). rewrite <- Hp. split_and!.
    + rewrite slen_app, slen_cons. pose proof (slen_nonneg (join_on SLASH (x :: k))). lia.
    + clear. induction root as [|c root IH]; [done|]. change (String c root +:+ ?b) with (String c (root +:+ b)).
      cbn [String.prefix]. by destruct (Ascii.ascii_dec c c).
    + by rewrite as_bytes_app, <- as_bytes_length, list_lookup_middle_tail.
Qed.

Lemma segments_clean p absolute segs : segments p = Some (absolute, segs) →
  ∃ rest, split_rooted_path p = Some (absolute, rest) ∧ segs = split_on SLASH rest
    ∧ p = (if absolute then "/" else "") +:+ rest ∧ slen p ≤ MAX_PROJECT_PATH_LEN ∧ slen rest ≤ slen p
    ∧ has_byte [0; 13; 10; 92] p = false ∧ existsb is_unsafe_path_segment segs = false.
Proof.
  unfold segments. destruct (split_rooted_path p) as [[a rest]|] eqn:E; [|done]. intros [= <- <-].
  exists rest. split; [done|]. split; [done|]. unfold split_rooted_path in E.
  destruct (is_empty p); [done|]. cbn [orb] in E. destruct (Z.gtb_spec (slen p) MAX_PROJECT_PATH_LEN); [done|].
  destruct (has_byte _ p); [done|].
  destruct (strip_prefix (String SLASH "") p) as [r|] eqn:Es.
  - destruct (is_empty r); [done|]. destruct (existsb _ _) eqn:Ex; [done|]. injection E as <- <-.
    destruct p as [|c p]; [done|]. simpl in Es. case_bool_decide; [|done]. injection Es as <-. subst c.
    rewrite slen_cons in *. split_and!; done || lia.
  - destruct (is_empty p); [done|]. destruct (existsb _ _) eqn:Ex; [done|]. injection E as <- <-. split_and!; done.
Qed.

Lemma under_root_spec absolute p root : slen p ≤ MAX_PROJECT_PATH_LEN →
  under_root absolute p root = true ↔ ∃ rsegs, segments root = Some (absolute, rsegs) ∧ rsegs `prefix_of` split_on SLASH p.
Proof.
  intros Hp. unfold under_root. destruct (split_rooted_path root) as [[a r]|] eqn:E.
  2: { split; [done|]. unfold segments. rewrite E. by intros (? & ? & _). }
  assert (segments root = Some (a, split_on SLASH r)) as Hs by (unfold segments; by rewrite E).
  destruct (segments_clean _ _ _ Hs) as (r' & E' & _ & _ & H1 & H2 & _). rewrite E in E'. injection E' as <-.
  destruct (Z.gtb_spec (slen r) MAX_PROJECT_PATH_LEN); [lia|]. rewrite orb_false_r.
  destruct (Bool.eqb_spec a absolute) as [->|Hne]; simpl.
  - rewrite orb_true_iff, str_eqb_eq, !andb_true_iff, Z.gtb_lt, bool_decide_eq_true.
    transitivity (split_on SLASH r `prefix_of` split_on SLASH p).
    + rewrite <- under_split. split; (intros [->|Hx]; [by left|right; tauto]).
    + rewrite Hs. split; [eauto|]. by intros (? & [= <-] & ?).
  - split; [done|]. rewrite Hs. by intros (? & [= ? _] & _).
Qed.

(** C37: admission of project paths is exact: a path is admitted exactly when it is a clean
    path (no empty, dot or double-dot segment, no backslash, line break or NUL, bounded)
    whose segments extend those of one of the caller's clean roots, absolute paths under
    absolute roots only; so an admitted path never leaves its root. *)
Theorem admit_exact roots p :
  (admit_project_path roots p = Ok tt ↔ ∃ absolute segs root rsegs, segments p = Some (absolute, segs)
     ∧ root ∈ roots ∧ segments root = Some (absolute, rsegs) ∧ rsegs `prefix_of` segs)
  ∧ (∀ absolute segs, segments p = Some (absolute, segs) →
       p = (if absolute then "/" else "") +:+ join_on SLASH segs ∧ slen p ≤ MAX_PROJECT_PATH_LEN
       ∧ has_byte [0; 13; 10; 92] p = false ∧ segs ≠ []
       ∧ ∀ s, s ∈ segs → s ≠ "" ∧ s ≠ "." ∧ s ≠ "..").
Proof.
  split.
  - unfold admit_project_path. destruct (segments p) as [[a segs]|] eqn:Es.
    + destruct (segments_clean _ _ _ Es) as (rest & -> & -> & _ & H1 & H2 & _).
      destruct (Z.gtb_spec (slen rest) MAX_PROJECT_PATH_LEN); [lia|].
      destruct (existsb (under_root a rest) roots) eqn:Ex.
      * split; [intros _|done]. apply existsb_true_iff in Ex as (root & Hin & Hu).
        apply under_root_spec in Hu as (rsegs & ? & ?); [|lia]. by exists a, (split_on SLASH rest), root, rsegs.
      * split; [done|]. intros (? & ? & root & rsegs & [= <- <-] & Hin & Hr & Hp).
        rewrite existsb_false_iff in Ex. specialize (Ex root Hin). rewrite (proj2 (under_root_spec a rest root ltac:(lia))) in Ex; [done|].
        by exists rsegs.
    + unfold segments in Es. destruct (split_rooted_path p) as [[]|]; [done|]. split; [done|]. by intros (? & ? & ? & ? & ? & _).
  - intros a segs Hs. destruct (segments_clean _ _ _ Hs) as (rest & _ & -> & Hp & H1 & _ & H2 & H3).
    rewrite join_split. split_and!; [done|done|done|apply split_on_nonempty|]. intros s Hin.
    rewrite existsb_false_iff in H3. specialize (H3 s Hin). unfold is_unsafe_path_segment in H3.
    apply orb_false_iff in H3 as [[H4 H5%str_eqb_neq]%orb_false_iff H6%str_eqb_neq]. split_and!; try done.
    by intros ->.
Qed.

(** ** Inert text *)

Lemma removelast_app {A} (l k : list A) : k ≠ [] → removelast (l ++ k) = l ++ removelast k.
Proof. apply List.removelast_app. Qed.

Lemma lines_app h b : lines (h +:+ String LF b) = split_on LF h ++ lines b.
Proof.
  unfold lines. rewrite split_on_app. pose proof (split_on_nonempty LF b) as Hb.
  assert (last (split_on LF h ++ split_on LF b) = last (split_on LF b)) as ->.
  { rewrite last_app. by destruct (last (split_on LF b)) eqn:E; [|apply last_None in E]. }
  destruct (last (split_on LF b)) as [[|c x]|]; [|done..]. by rewrite removelast_app.
Qed.

Lemma split_lines h : split_on LF h = lines h ∨ split_on LF h = lines h ++ [""].
Proof.
  unfold lines. destruct (last (split_on LF h)) as [[|c x]|] eqn:E; [|by left..].
  right. apply last_Some in E as [l ->]. by rewrite removelast_app, app_nil_r.
Qed.

(** One newline at the end is not part of the text. *)
Lemma join_lines_lines s : join_lines (lines s) = s ∨ s = join_lines (lines s) +:+ String LF "" ∨ s = "".
Proof.
  pose proof (join_split LF s) as Hs. destruct (split_lines s) as [E|E]; rewrite E in Hs; [by left|].
  destruct (lines s) as [|x l] eqn:El; [right; right; by rewrite <- Hs|].
  right. left. rewrite join_on_app in Hs by done. by rewrite <- Hs.
Qed.

Lemma project_header_text mk p t p' : project_header mk p t = Ok p' → p'.(pp_text) = p.(pp_text).
Proof.
  unfold project_header, add_directive, add_allowed, add_denied, add_scope, add_budget.
  intros E. repeat (case_match; try done); by simplify_eq/=.
Qed.

Definition header_line (l : string) : Prop := trim l ≠ "text:".

Lemma project_lines_text l : ∀ n p, project_lines n true p l = Ok (with_text p (p.(pp_text) ++ l)).
Proof.
  induction l as [|x l IH]; intros n p; simpl; [by rewrite app_nil_r; destruct p|].
  rewrite IH. simpl. by rewrite <- app_assoc.
Qed.

Lemma project_lines_app l1 l2 : Forall header_line l1 → ∀ n p,
  project_lines n false p (l1 ++ l2)
  = try! p' := project_lines n false p l1 in project_lines (n + len l1) false p' l2.
Proof.
  induction 1 as [|x l1 Hx _ IH]; intros n p; [by rewrite Z.add_0_r|].
  cbn [app project_lines]. rewrite (len_cons x l1), (proj2 (str_eqb_neq _ _) Hx). rewrite Z.add_assoc.
  destruct (is_skipped _); [apply IH|]. destruct (project_header _ _ _); [apply IH|done].
Qed.

Lemma project_lines_keeps l : Forall header_line l → ∀ n p p', project_lines n false p l = Ok p' → p'.(pp_text) = p.(pp_text).
Proof.
  induction 1 as [|x l Hx _ IH]; intros n p p'; simpl; [by intros [= <-]|].
  rewrite (proj2 (str_eqb_neq _ _) Hx). destruct (is_skipped _); [apply IH|].
  destruct (project_header _ _ _) as [p1|] eqn:E; simpl; [|done]. intros Hp. apply project_header_text in E.
  rewrite <- E. by eapply IH.
Qed.

Lemma has_byte_app cs a b : has_byte cs (a +:+ b) = has_byte cs a || has_byte cs b.
Proof. unfold has_byte. rewrite as_bytes_app. apply existsb_app. Qed.

(** The text of a project file is inert.  What follows the first [text:] line is data:
    whatever it holds, lines shaped like headers included, the policy of the file is the
    one of the headers before, an error of those headers is the error of the file, and the
    text is what follows, line by line, less one newline at its end. *)
Theorem project_text_inert head body : Forall header_line (lines head) →
  let source := head +:+ String LF ("text:" +:+ String LF body) in
  slen source ≤ MAX_PROJECT_FILE_BYTES → has_byte [13] source = false → has_byte [0] source = false →
  parse_project_source source
  = match parse_project_source head with Ok p => Ok (with_text p (lines body)) | Err e => Err e end
  ∧ (join_lines (lines body) = body ∨ body = join_lines (lines body) +:+ String LF "" ∨ body = "").
Proof.
  intros Hh source Hs Hcr Hnul. split; [|apply join_lines_lines].
  unfold parse_project_source. rewrite Hcr, Hnul. unfold source in Hs, Hcr, Hnul. rewrite has_byte_app in Hcr, Hnul.
  apply orb_false_iff in Hcr as [-> _], Hnul as [-> _].
  destruct (Z.gtb_spec (slen source) MAX_PROJECT_FILE_BYTES) as [?|_]; [unfold source in *; lia|].
  destruct (Z.gtb_spec (slen head) MAX_PROJECT_FILE_BYTES) as [Hl|_].
  { rewrite slen_app in Hs. pose proof (slen_nonneg (String LF ("text:" +:+ String LF body))). lia. }
  unfold source. rewrite !lines_app.
  assert (project_lines 1 false parts_new (split_on LF head ++ split_on LF "text:" ++ lines body)
    = try! p := project_lines 1 false parts_new (split_on LF head) in Ok (with_text p (p.(pp_text) ++ lines body))) as ->.
  { rewrite project_lines_app.
    - destruct (project_lines _ _ _ (split_on LF head)) as [p|]; [|done]. apply project_lines_text.
    - destruct (split_lines head) as [->| ->]; [done|]. apply Forall_app. split; [done|]. by repeat constructor. }
  assert (project_lines 1 false parts_new (split_on LF head) = project_lines 1 false parts_new (lines head)) as ->.
  { destruct (split_lines head) as [->| ->]; [done|]. rewrite project_lines_app by done.
    by destruct (project_lines _ _ _ (lines head)). }
  destruct (project_lines 1 false parts_new (lines head)) as [p|] eqn:E; [|done].
  by rewrite (project_lines_keeps _ Hh _ _ _ E).
Qed.

(** ** Merging *)

Lemma merge_directive_list_spec l : ∀ m m', merge_directive_list m l = Ok m' →
  ∀ k v, m' !! k = Some v ↔ m !! k = Some v ∨ (k, v) ∈ l.
Proof.
  induction l as [|[key value] l IH]; intros m m'; simpl.
  { intros [= <-] k v. rewrite elem_of_nil. tauto. }
  destruct (m !! key) as [first|] eqn:E.
  - destruct (str_eqb first value) eqn:Ev; [|done]. apply str_eqb_eq in Ev as ->. intros Hm k v.
    rewrite (IH _ _ Hm), elem_of_cons. naive_solver.
  - intros Hm k v. rewrite (IH _ _ Hm), lookup_insert_Some, elem_of_cons. split; [|naive_solver].
    intros [[[-> ->]|[? ?]]|?]; auto.
Qed.

(** Parts merged in order. *)
Fixpoint merge_list (m : ProjectParts) (l : list ProjectParts) : result ProjectParts PromptError :=
  match l with
  | [] => Ok m
  | p :: l => try! m' := merge_parts m p in merge_list m' l
  end.

Lemma merge_files_list l : ∀ seen m m', merge_files seen m l = Ok m' ↔
  merge_list m l.*2 = Ok m' ∧ NoDup l.*1 ∧ ∀ path, path ∈ l.*1 → path ∉ seen.
Proof.
  induction l as [|[path p] l IH]; intros seen m m'; simpl.
  { split; [|tauto]. intros Hm. split_and!; [done|constructor|]. intros path Hp. by apply elem_of_nil in Hp. }
  case_bool_decide as Hin.
  { split; [done|]. intros (_ & _ & Hx). exfalso. apply (Hx path); [by left|done]. }
  destruct (merge_parts m p) as [m1|e]; [|split; [done|by intros [? _]]]. rewrite IH, NoDup_cons.
  split.
  - intros (H1 & H2 & H3). split_and!; [done| |done|].
    + intros Hp. apply (H3 path Hp). set_solver.
    + intros x [->|Hx]%elem_of_cons; [done|]. specialize (H3 x Hx). set_solver.
  - intros (H1 & [H2 H3] & H4). split_and!; [done|done|]. intros x Hx. specialize (H4 x). set_solver.
Qed.

Lemma merge_entries_list l : ∀ m, merge_entries m l = merge_list m (map entry_parts l).
Proof. induction l as [|e l IH]; intros m; simpl; [done|]. destruct (merge_parts _ _); [apply IH|done]. Qed.

Lemma merge_list_spec l : ∀ m m', merge_list m l = Ok m' →
  m'.(pp_text) = m.(pp_text) ++ concat (map pp_text l)
  ∧ m'.(pp_allowed) = m.(pp_allowed) ++ concat (map pp_allowed l)
  ∧ m'.(pp_denied) = m.(pp_denied) ++ concat (map pp_denied l)
  ∧ m'.(pp_scopes) = m.(pp_scopes) ++ concat (map pp_scopes l)
  ∧ m'.(pp_budget) = merge_budget m.(pp_budget) (map pp_budget l)
  ∧ ∀ k v, m'.(pp_directives) !! k = Some v ↔
      m.(pp_directives) !! k = Some v ∨ ∃ p, p ∈ l ∧ p.(pp_directives) !! k = Some v.
Proof.
  induction l as [|p l IH]; intros m m'; simpl.
  { intros [= <-]. rewrite !app_nil_r. split_and!; try done. intros k v. setoid_rewrite elem_of_nil. naive_solver. }
  unfold merge_parts at 1. destruct (merge_directive_list _ _) as [d|] eqn:Ed; [|done].
  intros (H1 & H2 & H3 & H4 & H5 & H6)%IH. simpl in *. rewrite H1, H2, H3, H4, H5, <- !app_assoc. split_and!; try done.
  - by destruct (pp_budget m), (pp_budget p).
  - intros k v. rewrite H6, (merge_directive_list_spec _ _ _ Ed). setoid_rewrite elem_of_cons.
    rewrite (sort_by_key_perm fst), elem_of_map_to_list. naive_solver.
Qed.

(** A layer is the exact sum of parts: its sets are their unions (an absent one constrains
    nothing), its directives are theirs, without contradiction. *)
Definition layer_sums (i : LayerInput) (l : list ProjectParts) : Prop :=
  i.(li_text) = join_lines (concat (map pp_text l))
  ∧ (∀ t, t ∈ i.(li_denied_tools) ↔ ∃ p, p ∈ l ∧ t ∈ p.(pp_denied))
  ∧ (match i.(li_allowed_tools) with
     | Some a => a ≠ [] ∧ ∀ t, t ∈ a ↔ ∃ p, p ∈ l ∧ t ∈ p.(pp_allowed)
     | None => ∀ p, p ∈ l → p.(pp_allowed) = []
     end)
  ∧ (match i.(li_allowed_scopes) with
     | Some a => a ≠ [] ∧ ∀ t, t ∈ a ↔ ∃ p, p ∈ l ∧ t ∈ p.(pp_scopes)
     | None => ∀ p, p ∈ l → p.(pp_scopes) = []
     end)
  ∧ (∀ k v, mkDirective k v ∈ i.(li_directives) ↔ ∃ p, p ∈ l ∧ p.(pp_directives) !! k = Some v)
  ∧ (∀ p q k v w, p ∈ l → q ∈ l → p.(pp_directives) !! k = Some v → q.(pp_directives) !! k = Some w → v = w).

Lemma elem_of_sums (f : ProjectParts → list string) l t : t ∈ concat (map f l) ↔ ∃ p, p ∈ l ∧ t ∈ f p.
Proof.
  rewrite elem_of_concat. setoid_rewrite list_elem_of_fmap. naive_solver.
Qed.

Lemma constraint_spec (f : ProjectParts → list string) l : match constraint (concat (map f l)) with
  | Some a => a ≠ [] ∧ ∀ t, t ∈ a ↔ ∃ p, p ∈ l ∧ t ∈ f p
  | None => ∀ p, p ∈ l → f p = []
  end.
Proof.
  pose proof (λ t, elem_of_sums f l t) as Hs. unfold constraint. destruct (concat (map f l)) as [|x k] eqn:E.
  - intros p Hp. destruct (f p) as [|y r] eqn:Ef; [done|]. exfalso. apply (not_elem_of_nil y), Hs. exists p.
    rewrite Ef. split; [done|by left].
  - split; [|intros t; by rewrite string_set_elem, Hs].
    intros Hn. apply (not_elem_of_nil x). rewrite <- Hn. apply string_set_elem. by left.
Qed.

Lemma directive_list_elem m k v : mkDirective k v ∈ directive_list m ↔ m !! k = Some v.
Proof.
  unfold directive_list. rewrite list_elem_of_fmap. split.
  - intros ([k' v'] & [= -> ->] & Hin). by rewrite (sort_by_key_perm fst), elem_of_map_to_list in Hin.
  - intros Hm. exists (k, v). split; [done|]. by rewrite (sort_by_key_perm fst), elem_of_map_to_list.
Qed.

Lemma layer_of_sums layer budget l m : merge_list parts_new l = Ok m → layer_sums (layer_of layer budget m) l.
Proof.
  intros (H1 & H2 & H3 & H4 & _ & H6)%merge_list_spec. simpl in *.
  assert (∀ k v, m.(pp_directives) !! k = Some v ↔ ∃ p, p ∈ l ∧ p.(pp_directives) !! k = Some v) as Hd.
  { intros k v. rewrite H6, lookup_empty. naive_solver. }
  unfold layer_sums. simpl. rewrite H1, H2, H3, H4. split_and!.
  - done.
  - intros t. rewrite string_set_elem. apply elem_of_sums.
  - apply constraint_spec.
  - apply constraint_spec.
  - intros k v. rewrite directive_list_elem. apply Hd.
  - intros p q k v w Hp Hq Hv Hw. assert (m.(pp_directives) !! k = Some v) as E1 by (apply Hd; eauto).
    assert (m.(pp_directives) !! k = Some w) as E2 by (apply Hd; eauto). congruence.
Qed.

Lemma parse_files_spec roots files : ∀ l, parse_files roots files = Ok l ↔
  Forall2 (λ f x, f.1 = x.1 ∧ admit_project_path roots f.1 = Ok tt ∧ parse_project_source f.2 = Ok x.2) files l.
Proof.
  induction files as [|[path source] files IH]; intros l; simpl.
  { split; [intros [= <-]; constructor|by intros ->%Forall2_nil_inv_l]. }
  split.
  - destruct (admit_project_path roots path) as [[]|] eqn:Ea; [|done].
    destruct (parse_project_source source) as [p|e] eqn:Ep; [|by destruct e].
    destruct (parse_files roots files) as [rest|] eqn:Er; [|done]. intros [= <-].
    constructor; [done|]. by apply IH.
  - intros ([path' p] & rest & (E & Ha & Hp) & Hr%IH & ->)%Forall2_cons_inv_l. simpl in *. subst path'. by rewrite Ha, Hp, Hr.
Qed.

Lemma Forall2_perm_l {A B} (R : A → B → Prop) k k' l : Forall2 R k l → k' ≡ₚ k → ∃ l', Forall2 R k' l' ∧ l' ≡ₚ l.
Proof.
  intros HR Hp. revert l HR. induction Hp as [|x k' k Hp IH|x y k|k1 k2 k3 H1 IH1 H2 IH2]; intros l HR.
  - inversion HR. by exists [].
  - inversion HR as [|? b ? l2 Hxb Hk]; subst. destruct (IH _ Hk) as (l' & ? & Hl). exists (b :: l'). split; [by constructor|].
    by rewrite Hl.
  - inversion HR as [|? b ? l2 Hb Hk]; subst. inversion Hk as [|? c ? l3 Hc Hk']; subst.
    exists (c :: b :: l3). split; [by repeat constructor|constructor].
  - destruct (IH2 _ HR) as (l2 & HR2 & Hl2). destruct (IH1 _ HR2) as (l1 & ? & Hl1). exists l1. split; [done|by rewrite Hl1].
Qed.

Lemma project_files_iff roots files i : project_from_files_under_roots roots files = Ok i ↔
  len files ≤ MAX_PROJECT_FILES ∧ ∃ parsed m,
    Forall2 (λ f x, f.1 = x.1 ∧ admit_project_path roots f.1 = Ok tt ∧ parse_project_source f.2 = Ok x.2) files parsed
    ∧ NoDup parsed.*1 ∧ merge_list parts_new (sort_by_key fst parsed).*2 = Ok m
    ∧ i = layer_of ProjectLayer m.(pp_budget) m ∧ LayerInput_validate i = Ok tt.
Proof.
  assert (∀ parsed : list (string * ProjectParts), NoDup (sort_by_key fst parsed).*1 ↔ NoDup parsed.*1) as Hnd.
  { intros parsed. by rewrite (sort_by_key_perm fst parsed). }
  unfold project_from_files_under_roots, project_parts_to_layer. split.
  - destruct (Z.gtb_spec (len files) MAX_PROJECT_FILES) as [|Hn]; [done|]. intros Hf. split; [done|].
    destruct (parse_files roots files) as [parsed|] eqn:Ep; [|done].
    destruct (merge_files _ _ _) as [m|] eqn:Em; [|done]. apply merge_files_list in Em as (Hm & Hk & _).
    destruct (LayerInput_validate _) as [[]|] eqn:Ev; [|done]. injection Hf as <-.
    exists parsed, m. split_and!; try done; [by apply parse_files_spec|by apply Hnd].
  - intros (Hn & parsed & m & Hp & Hk & Hm & -> & Hv). destruct (Z.gtb_spec (len files) MAX_PROJECT_FILES); [lia|].
    apply parse_files_spec in Hp. rewrite Hp, (proj2 (merge_files_list (sort_by_key fst parsed) [] parts_new m)), Hv; [done|].
    split_and!; [done|by apply Hnd|]. intros path _ Hx. by apply elem_of_nil in Hx.
Qed.

(** C38: merging project files is exact and does not depend on the order of the files.  A
    layer is loaded only from files with distinct admitted paths that all parse; it is
    valid, its denials, allow-set, scopes and directives are exactly the unions of those of
    the files (in particular no file can lift the denial of another), its budget is the
    least one, and listing the files in another order loads the same layer. *)
Theorem project_files_merge roots files i : project_from_files_under_roots roots files = Ok i →
  i.(li_layer) = ProjectLayer ∧ LayerInput_validate i = Ok tt
  ∧ Forall (λ f, admit_project_path roots f.1 = Ok tt) files ∧ NoDup files.*1 ∧ len files ≤ MAX_PROJECT_FILES
  ∧ (∃ parsed, Forall2 (λ f x, f.1 = x.1 ∧ parse_project_source f.2 = Ok x.2) files parsed
       ∧ (let parts := (sort_by_key fst parsed).*2 in layer_sums i parts
       ∧ match i.(li_budget_ceiling_bytes) with
         | Some b => (∃ p, p ∈ parts ∧ p.(pp_budget) = Some b) ∧ ∀ p c, p ∈ parts → p.(pp_budget) = Some c → b ≤ c
         | None => ∀ p, p ∈ parts → p.(pp_budget) = None
         end))
  ∧ ∀ files', files' ≡ₚ files → project_from_files_under_roots roots files' = Ok i.
Proof.
  rewrite project_files_iff. intros (Hn & parsed & m & Hp & Hk & Hm & -> & Hv).
  assert (files.*1 = parsed.*1) as Ek.
  { clear -Hp. induction Hp as [|f x files parsed (Hf & _) _ IH]; [done|]. csimpl. by rewrite Hf, IH. }
  split_and!; try done.
  - clear -Hp. induction Hp as [|f x files parsed (_ & Ha & _) _ IH]; by constructor.
  - by rewrite Ek.
  - exists parsed. split; [eapply Forall2_impl; [done|]; simpl; tauto|]. split; [by apply layer_of_sums|].
    apply merge_list_spec in Hm as (_ & _ & _ & _ & Hb & _). simpl in Hb. simpl. rewrite Hb.
    pose proof (merge_budget_spec (map pp_budget (sort_by_key fst parsed).*2) None) as Hs.
    destruct (merge_budget _ _) as [b|].
    + destruct Hs as ([?|Hin] & _ & Hle); [done|]. split.
      * apply list_elem_of_fmap in Hin as (p & ? & ?). by exists p.
      * intros p c Hin' Hc. apply Hle. rewrite <- Hc. by apply list_elem_of_fmap_2.
    + destruct Hs as [_ Hs]. intros p Hin'. destruct (pp_budget p) as [c|] eqn:Ec; [|done]. exfalso. apply (Hs c).
      rewrite <- Ec. by apply list_elem_of_fmap_2.
  - intros files' Hf. apply project_files_iff. split; [unfold len in *; by rewrite Hf|].
    destruct (Forall2_perm_l _ _ _ _ Hp Hf) as (parsed' & Hf' & Hp'). exists parsed', m. split_and!; try done.
    + by rewrite Hp'.
    + by rewrite (sort_by_key_unique fst parsed' parsed).
Qed.

(** A denial in a project file binds: under every prompt assembled with the layer that
    was loaded, a tool that one file denies, or that no file allows where some file has
    an allow-set, is never dispatched, whatever the other files and layers say. *)
Theorem project_denial_binds roots files i s p tool grants :
  project_from_files_under_roots roots files = Ok i → i ∈ s.(snap_layers) → assemble_prompt s = Ok p →
  check_dispatch p tool grants = Ok tt →
  ∀ f parts, f ∈ files → parse_project_source f.2 = Ok parts →
    (tool ∉ parts.(pp_denied))
    ∧ (parts.(pp_allowed) ≠ [] → ∃ g q, g ∈ files ∧ parse_project_source g.2 = Ok q ∧ tool ∈ q.(pp_allowed)).
Proof.
  rewrite project_files_iff. intros (_ & parsed & m & Hp & _ & Hm & -> & _) Hi Ha Hd f parts Hf Hparts.
  apply (assembled_gate s p tool grants Ha) in Hd as [_ Hall]. rewrite Forall_forall in Hall.
  destruct (Hall _ Hi) as [Hden Hal]. destruct (layer_of_sums ProjectLayer m.(pp_budget) _ m Hm) as (_ & H1 & H2 & _).
  assert (∀ q, q ∈ (sort_by_key fst parsed).*2 ↔ ∃ g, g ∈ files ∧ parse_project_source g.2 = Ok q) as Hq.
  { intros q. rewrite (sort_by_key_perm fst parsed). clear -Hp.
    induction Hp as [|g x files parsed (_ & _ & Hx) _ IH]; simpl.
    - setoid_rewrite elem_of_nil. naive_solver.
    - setoid_rewrite elem_of_cons. rewrite IH. split.
      + intros [->|(g' & ? & ?)]; eauto.
      + intros (g' & [->|?] & Hg); [left; congruence|eauto]. }
  assert (parts ∈ (sort_by_key fst parsed).*2) as Hin by (apply Hq; eauto). split.
  - intros Ht. apply Hden, H1. eauto.
  - intros Hne. destruct (li_allowed_tools _) as [a|]; [|by apply H2 in Hin].
    destruct H2 as [_ H2]. specialize (Hal a eq_refl). apply H2 in Hal as (q & Hq1 & Hq2).
    apply Hq in Hq1 as (g & ? & ?). eauto.
Qed.

(** ** Registries *)

Lemma adjacent_strict l : StronglySorted (λ a b, key_le skill_name a b = true) l → adjacent_duplicate l = None →
  StronglySorted (key_lt skill_name) l.
Proof.
  induction 1 as [|a l Hs IH Hall]; [constructor|]. cbn [adjacent_duplicate]. destruct l as [|b l]; [by repeat constructor|].
  destruct (str_eqb _ _) eqn:E; [done|]. apply str_eqb_neq in E. intros Hd. specialize (IH Hd). constructor; [done|].
  apply StronglySorted_inv in IH as [_ Hb]. inversion Hall as [|? ? Hab _]; subst.
  apply key_le_lt in Hab as [Hab|?]; [|done]. constructor; [done|].
  eapply Forall_impl; [exact Hb|]. intros c Hc. unfold key_lt in *. by eapply cmp_trans.
Qed.

Definition draft_ok (d : SkillDraft) : Prop := ∀ n, d.(sd_name) = Some n → validate_skill_name n = Ok tt.

Lemma skill_header_ok mk d t d' : draft_ok d → skill_header mk d t = Ok d' → draft_ok d'.
Proof.
  intros Hd. unfold skill_header. destruct (split_header_line t) as [[key value]|]; [|done].
  destruct (str_eqb key "name").
  { destruct (is_empty value), (slen value >? MAX_SKILL_NAME_LEN); try done.
    destruct (validate_skill_name value) as [[]|] eqn:Ev; [|done]. destruct (sd_name d) as [first|] eqn:En.
    - destruct (str_eqb first value); [|done]. by intros [= <-].
    - intros [= <-] n. simpl. by intros [= <-]. }
  intros E n. assert (sd_name d' = sd_name d) as ->; [|apply Hd].
  repeat (case_match; try done); by simplify_eq/=.
Qed.

Lemma skill_lines_ok l : ∀ in_text d d', draft_ok d → skill_lines in_text d l = Ok d' → draft_ok d'.
Proof.
  induction l as [|[n line] l IH]; intros in_text d d' Hd; simpl; [by intros [= <-]|].
  destruct in_text; [by apply IH|]. destruct (is_skipped _); [by apply IH|]. destruct (str_eqb _ _); [by apply IH|].
  destruct (skill_header _ _ _) as [d1|] eqn:E; [|done]. apply IH. by eapply skill_header_ok.
Qed.

Definition entry_ok (e : SkillEntry) : Prop :=
  validate_skill_name e.(skill_name) = Ok tt ∧ slen e.(skill_fragment) ≤ MAX_SKILL_ENTRY_BYTES
  ∧ e.(skill_fragment) = join_lines e.(skill_parts).(pp_text).

Lemma parse_chunks_ok l : ∀ es, parse_chunks l = Ok es → Forall entry_ok es.
Proof.
  induction l as [|chunk l IH]; intros es; simpl; [intros [= <-]; constructor|].
  destruct (parse_skill_chunk chunk) as [o|] eqn:E; [|done]. destruct (parse_chunks l) as [rest|]; [|done]. intros [= <-].
  specialize (IH rest eq_refl). destruct o as [e|]; [|done]. constructor; [|done]. unfold parse_skill_chunk in E.
  destruct (chunk_is_blank chunk); [done|]. destruct (skill_lines _ _ _) as [d|] eqn:Ed; [|done].
  apply skill_lines_ok in Ed; [|done]. destruct (sd_name d) as [name|] eqn:En; [|done].
  destruct (sd_version d); [|done]. destruct (negb _); [done|].
  destruct (Z.gtb_spec (slen (join_lines (pp_text (sd_parts d)))) MAX_SKILL_ENTRY_BYTES); [done|]. injection E as <-.
  split_and!; [by apply Ed|done|done].
Qed.

(** A skill registry loads by name.  The layer of a registry is valid and carries no
    budget; it is the exact sum of the entries in the strict order of their names (so
    names are unique and the order of the entries in the file does not matter), each with
    a valid name and a bounded fragment. *)
Theorem skills_merge source i : skills_from_str source = Ok i →
  i.(li_layer) = SkillsProfile ∧ LayerInput_validate i = Ok tt ∧ i.(li_budget_ceiling_bytes) = None
  ∧ ∃ rest entries, registry_version 1 (lines source) = Ok rest ∧ parse_chunks (chunks_of rest) = Ok entries
    ∧ len entries ≤ MAX_SKILL_ENTRIES ∧ Forall entry_ok entries
    ∧ let sorted := sort_by_key skill_name entries in
      StronglySorted (key_lt skill_name) sorted ∧ NoDup (map skill_name entries)
      ∧ layer_sums i (map entry_parts sorted).
Proof.
  unfold skills_from_str. destruct (slen source >? _); [done|]. destruct (has_byte [13] source); [done|].
  destruct (has_byte [0] source); [done|]. destruct (registry_version 1 (lines source)) as [rest|]; [|done].
  destruct (parse_chunks (chunks_of rest)) as [es|] eqn:Ep; [|done].
  destruct (Z.gtb_spec (len es) MAX_SKILL_ENTRIES); [done|].
  destruct (adjacent_duplicate _) eqn:Ea; [done|]. rewrite merge_entries_list.
  destruct (merge_list _ _) as [m|] eqn:Em; [|done]. destruct (LayerInput_validate _) as [[]|] eqn:Ev; [|done]. intros [= <-].
  do 3 (split; [done|]). exists rest, es. do 3 (split; [done|]). split; [by eapply parse_chunks_ok|].
  cbv zeta. pose proof (adjacent_strict _ (sort_by_key_sorted skill_name es) Ea) as Hs.
  split; [done|]. split; [|by apply layer_of_sums].
  change (NoDup (skill_name <$> es)). rewrite <- (sort_by_key_perm skill_name es).
  clear -Hs. induction Hs as [|x l _ IH Hall]; [constructor|]. csimpl. constructor; [|done].
  intros (y & Hy & Hin)%list_elem_of_fmap. rewrite Forall_forall in Hall. specialize (Hall y Hin).
  unfold key_lt in Hall. by rewrite Hy, (proj2 (cmp_eq _ _)) in Hall.
Qed.

(** ** Loading, evaluated *)

Definition text_of (l : list string) : string := join_on LF l.

Definition demo_files : list (string * string) :=
  [(".wheel/b", text_of ["# policy"; "deny_tool = panel_close"; "budget = 4096"; "text:"; "deny_tool = x"; ""]);
   (".wheel/a", text_of ["allow_tool = panel_open"; "directive.tone = concise"; "budget = 1000"; "text:"; "first"])].

Definition demo_layer : LayerInput :=
  mkLayer ProjectLayer (text_of ["first"; "deny_tool = x"]) (Some ["panel_open"]) ["panel_close"] (Some 1000) None
    [mkDirective "tone" "concise"].

Lemma demo_files_load : project_from_files_under_roots [".wheel"] demo_files = Ok demo_layer.
Proof. by vm_compute. Qed.

Lemma project_files_merge_witness :
  project_from_files_under_roots [".wheel"] (reverse demo_files) = Ok demo_layer ∧ LayerInput_validate demo_layer = Ok tt.
Proof.
  destruct (project_files_merge [".wheel"] demo_files demo_layer demo_files_load) as (_ & Hv & _ & _ & _ & _ & Hp).
  split; [apply Hp; apply reverse_Permutation|done].
Defined.

Lemma project_text_inert_witness : let source := text_of ["scope = workspace.read"; "text:"; "allow_tool = x"] in
  parse_project_source source = Ok (mkParts ["allow_tool = x"] [] [] None ["workspace.read"] ∅).
Proof.
  refine (eq_trans (proj1 (project_text_inert "scope = workspace.read" "allow_tool = x" _ _ _ _)) _); [|done|done|done|by vm_compute].
  repeat constructor; unfold header_line; by vm_compute.
Defined.

Definition demo_loaded : PromptSnapshot := mkSnapshot "core@1" [demo_layer].

Lemma project_denial_binds_witness : ∃ p, assemble_prompt demo_loaded = Ok p ∧ check_dispatch p "panel_open" true = Ok tt
  ∧ ∀ f parts, f ∈ demo_files → parse_project_source f.2 = Ok parts → "panel_open" ∉ parts.(pp_denied).
Proof.
  destruct (assemble_prompt demo_loaded) as [p|] eqn:E; [|vm_compute in E; discriminate E]. exists p.
  assert (check_dispatch p "panel_open" true = Ok tt) as Hd.
  { vm_compute in E. injection E as <-. by vm_compute. }
  split; [done|]. split; [done|]. intros f parts Hf Hp.
  exact (proj1 (project_denial_binds [".wheel"] demo_files demo_layer demo_loaded p "panel_open" true
    demo_files_load (list_elem_of_here _ _) E Hd f parts Hf Hp)).
Defined.

Definition demo_registry : string :=
  text_of ["version = 1"; "---"; "name = b"; "version = 1"; "text:"; "later"; "---"; "name = a"; "version = 1"; "deny_tool = x"].

Lemma skills_merge_witness : ∃ i, skills_from_str demo_registry = Ok i ∧ i.(li_layer) = SkillsProfile ∧ i.(li_denied_tools) = ["x"].
Proof.
  destruct (skills_from_str demo_registry) as [i|] eqn:E; [|vm_compute in E; discriminate E]. exists i.
  split; [done|]. split; [exact (proj1 (skills_merge demo_registry i E))|]. vm_compute in E. by injection E as <-.
Defined.

(** ** Where the format and its description part *)

(** Only a line of exactly three dashes is said to separate entries; an indented one inside
    a fragment does too. *)
Lemma indented_separator_splits : ∃ reason, skills_from_str (text_of ["version = 1"; "---"; "name = a"; "version = 1"; "text:";
    "a list"; "  ---"; "of two"]) = Err (MalformedSkill reason).
Proof. eexists. by vm_compute. Qed.

(** Every version field is said to name a supported version; only the last one must. *)
Lemma last_version_wins : is_ok (skills_from_str (text_of ["version = 1"; "---"; "name = a"; "version = 9"; "version = 1"])) = true.
Proof. by vm_compute. Qed.

(** Comments are said to start with [#] in the first byte; blanks before it are accepted. *)
Lemma indented_comment : project_from_str (text_of ["   # note"]) = project_from_str "".
Proof. by vm_compute. Qed.
