(* ===== verification/Compression.v ===== *)
(** * Compression: selective compression of context records

    Models the first half of [compression.rs]: retention classes, tags and
    policy, greedy breakpoint selection, the host's summariser as a parameter,
    the compression core and the compressed view with its deletion and expiry.
    The compaction driver on top of it is in [Compaction.v].

    Record indices are [nat] (they are compared and bounded by the record count,
    never added to past it); byte counts and timestamps are [Z]. *)

From S2P Require Import Prelude Text ToolTypes Context Assembly.

Local Open Scope Z_scope.
Local Open Scope rust_scope.

Definition MAX_SPANS : Z := 32.
Definition MAX_SPAN_ID_LEN : Z := 64.
Definition DEFAULT_MAX_SPAN_BYTES : Z := 8 * 1024.

Inductive CompressionError :=
| InvalidConfig (reason : string)
| InvalidRange (reason : string)
| DuplicateId (id : string)
| TooManySpans (limit : Z)
| SpanSummaryTooLarge (limit actual : Z)
| SummarizerFailed (reason : string)
| SummaryUnavailable (span_id reason : string)
| CompressionContext (inner : ContextError).

(** [Display for CompressionError] *)
Definition CompressionError_to_string (e : CompressionError) : string :=
  match e with
  | InvalidConfig reason => "invalid compression config: " +:+ reason
  | InvalidRange reason => "invalid compression range: " +:+ reason
  | DuplicateId id => "span id collides with source record: " +:+ id
  | TooManySpans limit => "compressed span count exceeds limit " +:+ show limit
  | SpanSummaryTooLarge limit actual =>
      "compressed summary of " +:+ show actual +:+ " bytes exceeds " +:+ show limit +:+ " byte limit"
  | SummarizerFailed reason => "summarizer failed: " +:+ reason
  | SummaryUnavailable span_id reason =>
      "compressed summary unavailable: " +:+ span_id +:+ " (" +:+ reason +:+ ")"
  | CompressionContext inner =>
      "compression source invalid: " +:+ ContextError_to_string inner
  end.

(** ** Retention *)

Inductive RetentionClass := RetPinned | RetRecent | RetNormal | RetEphemeral.

#[export] Instance RetentionClass_eq_dec : EqDecision RetentionClass.
Proof. solve_decision. Defined.

(** [RetentionClass::restrictiveness] *)
Definition restrictiveness (c : RetentionClass) : Z :=
  match c with RetEphemeral => 3 | RetNormal => 2 | RetRecent => 1 | RetPinned => 0 end.

(** [RetentionClass::most_restrictive] *)
Definition most_restrictive (self other : RetentionClass) : RetentionClass :=
  if restrictiveness other >? restrictiveness self then other else self.

(** [RetentionTags], a vector of entries in insertion order. *)
Definition RetentionTags : Type := list (string * RetentionClass).

Definition tags_new : RetentionTags := [].

(** [RetentionTags::set]: replace the first entry of this id, or append. *)
Fixpoint tags_set (tags : RetentionTags) (id : string) (class : RetentionClass) : RetentionTags :=
  match tags with
  | [] => [(id, class)]
  | (name, c) :: tags =>
      if str_eqb name id then (name, class) :: tags else (name, c) :: tags_set tags id class
  end.

(** [RetentionTags::get] *)
Definition tags_get (tags : RetentionTags) (id : string) : RetentionClass :=
  match find (λ e, str_eqb e.1 id) tags with
  | Some (_, class) => class
  | None => RetNormal
  end.

Record RetentionPolicy := mkRetentionPolicy {
  pinned_ttl_ms : option Z;
  recent_ttl_ms : option Z;
  normal_ttl_ms : option Z;
  ephemeral_ttl_ms : option Z
}.

(** [RetentionPolicy::default] *)
Definition RetentionPolicy_default : RetentionPolicy :=
  mkRetentionPolicy None (Some (24 * 60 * 60 * 1000)) (Some (60 * 60 * 1000)) (Some (5 * 60 * 1000)).

(** [RetentionPolicy::ttl_for] *)
Definition ttl_for (p : RetentionPolicy) (class : RetentionClass) : option Z :=
  match class with
  | RetPinned => p.(pinned_ttl_ms)
  | RetRecent => p.(recent_ttl_ms)
  | RetNormal => p.(normal_ttl_ms)
  | RetEphemeral => p.(ephemeral_ttl_ms)
  end.

(** [policy.ttl_for(class).is_some_and(|ttl| now_ms.saturating_sub(since) > ttl)] *)
Definition over_ttl (p : RetentionPolicy) (class : RetentionClass) (since now_ms : Z) : bool :=
  match ttl_for p class with
  | Some ttl => Z.max (now_ms - since) 0 >? ttl
  | None => false
  end.

(** ** Breakpoints *)

Record CompressionConfig := mkCompressionConfig {
  max_span_bytes : Z;
  max_span_tokens : option Z
}.

(** [CompressionConfig::default] *)
Definition CompressionConfig_default : CompressionConfig :=
  mkCompressionConfig DEFAULT_MAX_SPAN_BYTES None.

(** [CompressionConfig::validate] *)
Definition validate_compression (c : CompressionConfig) : result unit CompressionError :=
  ensure! negb (c.(max_span_bytes) =? 0)
  else InvalidConfig "max_span_bytes must be non-zero" in
  ensure! negb (bool_decide (c.(max_span_tokens) = Some 0))
  else InvalidConfig "max_span_tokens must be non-zero when set" in
  Ok tt.

(** [CompressionConfig::effective_span_bytes] *)
Definition effective_span_bytes (c : CompressionConfig) : Z :=
  match c.(max_span_tokens) with
  | Some tokens => Z.min c.(max_span_bytes) (tokens * BYTES_PER_TOKEN_ESTIMATE)
  | None => c.(max_span_bytes)
  end.

Record SpanRange := mkRange { r_start : nat; r_end : nat }.

#[export] Instance SpanRange_eq_dec : EqDecision SpanRange.
Proof. solve_decision. Defined.

(** [SpanRange::len] and [SpanRange::is_empty] *)
Definition range_len (r : SpanRange) : nat := r.(r_end) - r.(r_start).
Definition range_is_empty (r : SpanRange) : bool := (r.(r_end) <=? r.(r_start))%nat.

(** The loop of [select_breakpoints]; it also returns where the last open span
    starts. *)
Fixpoint breakpoint_loop (cap : Z) (index : nat) (rs : list ContextRecord)
    (ranges : list SpanRange) (start : nat) (used : Z) :
    result (list SpanRange * nat) CompressionError :=
  match rs with
  | [] => Ok (ranges, start)
  | r :: rs =>
      let need := footprint_bytes r in
      if (used >? 0) && (used + need >? cap) then
        let ranges := ranges ++ [mkRange start index] in
        ensure! negb (len ranges >? MAX_SPANS) else TooManySpans MAX_SPANS in
        breakpoint_loop cap (S index) rs ranges index need
      else breakpoint_loop cap (S index) rs ranges start (used + need)
  end.

Definition select_breakpoints (rs : list ContextRecord) (config : CompressionConfig) :
    result (list SpanRange) CompressionError :=
  try! _ := validate_compression config in
  try! (ranges, start) := breakpoint_loop (effective_span_bytes config) 0 rs [] 0 0 in
  let ranges := if (start <? length rs)%nat then ranges ++ [mkRange start (length rs)] else ranges in
  ensure! negb (len ranges >? MAX_SPANS) else TooManySpans MAX_SPANS in
  Ok ranges.

(** ** The summariser seam *)

Record SummarizeInput := mkSummarizeInput {
  si_span_id : string;
  si_source_ids : list string;
  si_source_summaries : list string;
  si_total_source_bytes : Z;
  si_untrusted_sources : Z;
  si_now_ms : Z;
  si_previous_summary : option string
}.

(** What the host implements: one call moves the host's world. *)
Definition SummarizeFn (W : Type) : Type :=
  W → SummarizeInput → W * result string CompressionError.

Record FakeSummarizer := mkFakeSummarizer {
  scripted : list string;
  calls : nat
}.

(** [FakeSummarizer::summarize] *)
Definition FakeSummarizer_summarize : SummarizeFn FakeSummarizer := λ f input,
  match f.(scripted) !! f.(calls) with
  | Some text => (mkFakeSummarizer f.(scripted) (S f.(calls)), Ok text)
  | None =>
      (f, Err (SummarizerFailed ("script exhausted at call " +:+ show (Z.of_nat f.(calls))
                                   +:+ " for span " +:+ input.(si_span_id))))
  end.

(** ** Spans and the view *)

Record CompressedSpan := mkSpan {
  span_id : string;
  source_ids : list string;
  span_summary : string;
  span_untrusted : bool;
  retention : RetentionClass;
  source_deadline_ms : Z;
  created_at_ms : Z
}.

Record CompressedView := mkView {
  view_records : list ContextRecord;
  spans : list CompressedSpan;
  tombstones : list string;
  view_tags : RetentionTags
}.

Definition has_str (l : list string) (s : string) : bool := existsb (λ x, str_eqb x s) l.

(** [CompressedView::resolve_summary] *)
Definition resolve_summary (v : CompressedView) (id : string) : result string CompressionError :=
  match find (λ s, str_eqb s.(span_id) id) v.(spans) with
  | Some s => Ok s.(span_summary)
  | None =>
      if has_str v.(tombstones) id then Err (SummaryUnavailable id "deleted or expired")
      else Err (SummaryUnavailable id "unknown")
  end.

(** [if !tombstones.contains(id) { tombstones.push(id) }] for each id. *)
Definition add_tombstones (tombs ids : list string) : list string :=
  fold_left (λ tombs id, if has_str tombs id then tombs else tombs ++ [id]) ids tombs.

Definition span_hit (ids : list string) (s : CompressedSpan) : bool :=
  existsb (has_str ids) s.(source_ids) || has_str ids s.(span_id).

(** [CompressedView::delete_ids] *)
Definition delete_ids (v : CompressedView) (ids : list string) : CompressedView * list string :=
  let invalidated := map span_id (List.filter (span_hit ids) v.(spans)) in
  (mkView
     (List.filter (λ r, negb (has_str ids r.(rec_id)) && negb (has_str invalidated r.(rec_id)))
        v.(view_records))
     (List.filter (λ s, negb (span_hit ids s)) v.(spans))
     (add_tombstones v.(tombstones) ids)
     v.(view_tags),
   invalidated).

Definition span_over (p : RetentionPolicy) (now_ms : Z) (s : CompressedSpan) : bool :=
  over_ttl p s.(retention) s.(source_deadline_ms) now_ms.

(** The record loop of [apply_retention]: kept records and expired ids. *)
Fixpoint retain_records (p : RetentionPolicy) (now_ms : Z) (tags : RetentionTags)
    (live dropped : list string) (rs : list ContextRecord) : list ContextRecord * list string :=
  match rs with
  | [] => ([], [])
  | r :: rs =>
      let '(kept, expired) := retain_records p now_ms tags live dropped rs in
      if has_str live r.(rec_id) then (r :: kept, expired)
      else if has_str dropped r.(rec_id) then (kept, expired)
      else if over_ttl p (tags_get tags r.(rec_id)) r.(collected_at_ms) now_ms then
        (kept, r.(rec_id) :: expired)
      else (r :: kept, expired)
  end.

(** [CompressedView::apply_retention] *)
Definition apply_retention (v : CompressedView) (p : RetentionPolicy) (now_ms : Z) :
    CompressedView * list string :=
  let dropped := map span_id (List.filter (span_over p now_ms) v.(spans)) in
  let live := List.filter (λ s, negb (span_over p now_ms s)) v.(spans) in
  let '(kept, gone) :=
    retain_records p now_ms v.(view_tags) (map span_id live) dropped v.(view_records) in
  let expired := dropped ++ gone in
  (mkView kept live (add_tombstones v.(tombstones) expired) v.(view_tags), expired).

(** ** The compression core *)

(** [inherit_retention]: the loop body, then the loop. *)
Definition inherit_step (tags : RetentionTags) (p : RetentionClass * bool) (id : string) :
    RetentionClass * bool :=
  let '(class, seen) := p in
  let next := tags_get tags id in
  if (seen : bool) then (most_restrictive class next, true) else (next, true).

Definition inherit_retention (ids : list string) (tags : RetentionTags) : RetentionClass :=
  let '(class, seen) := fold_left (inherit_step tags) ids (RetPinned, false) in
  if seen then class else RetNormal.

(** [Ord::min] on priorities: the first argument on a tie. *)
Definition priority_min (a b : ContextPriority) : ContextPriority :=
  if priority_u8 b <? priority_u8 a then b else a.

(** [source_effective_priority] *)
Definition source_effective_priority (r : ContextRecord) : ContextPriority :=
  if r.(rec_untrusted) then priority_min r.(priority) Normal else r.(priority).

(** [iter().min().unwrap_or(d)] and [iter().max().unwrap_or(d)] *)
Definition min_or (d : Z) (l : list Z) : Z :=
  match l with [] => d | x :: l => fold_left Z.min l x end.
Definition max_or (d : Z) (l : list Z) : Z :=
  match l with [] => d | x :: l => fold_left Z.max l x end.
Definition priority_min_or (d : ContextPriority) (l : list ContextPriority) : ContextPriority :=
  match l with [] => d | x :: l => fold_left priority_min l x end.

(** The range loop of [validate_ranges]. *)
Fixpoint check_ranges (record_count cursor : nat) (ranges : list SpanRange) :
    result unit CompressionError :=
  match ranges with
  | [] => Ok tt
  | r :: ranges =>
      let text := show (Z.of_nat r.(r_start)) +:+ ".." +:+ show (Z.of_nat r.(r_end)) in
      ensure! negb (range_is_empty r) else InvalidRange ("empty range " +:+ text) in
      ensure! (r.(r_end) <=? record_count)%nat
      else InvalidRange ("range " +:+ text +:+ " exceeds " +:+ show (Z.of_nat record_count)
                           +:+ " records") in
      ensure! (cursor <=? r.(r_start))%nat
      else InvalidRange ("range " +:+ text +:+ " overlaps or is unsorted") in
      check_ranges record_count r.(r_end) ranges
  end.

Definition validate_ranges (record_count : nat) (ranges : list SpanRange) :
    result unit CompressionError :=
  ensure! negb (len ranges >? MAX_SPANS) else TooManySpans MAX_SPANS in
  check_ranges record_count 0 ranges.

(** [&records[range.start..range.end]] *)
Definition slice {A} (rs : list A) (r : SpanRange) : list A :=
  take (range_len r) (drop r.(r_start) rs).

(** The generation gate over the ranged sources. *)
Fixpoint check_ranged_generations (current : Z) (rs : list ContextRecord)
    (ranges : list SpanRange) : result unit ContextError :=
  match ranges with
  | [] => Ok tt
  | r :: ranges =>
      try! _ := check_generations current (slice rs r) in
      check_ranged_generations current rs ranges
  end.

(** The checks before the summariser is contacted. *)
Definition precheck_ranges (rs : list ContextRecord) (ranges : list SpanRange)
    (current_generation : option Z) : result unit CompressionError :=
  ensure! negb (len rs >? MAX_CONTEXT_RECORDS)
  else CompressionContext (TooManyRecords MAX_CONTEXT_RECORDS) in
  try! _ := map_err CompressionContext (validate_records rs) in
  try! _ := validate_ranges (length rs) ranges in
  match current_generation with
  | Some current => map_err CompressionContext (check_ranged_generations current rs ranges)
  | None => Ok tt
  end.

(** [format!("{n:04}")] *)
Definition pad4 (n : Z) : string :=
  let digits := show n in
  of_bytes (repeat (Ascii.ascii_of_N 48) (4 - String.length digits)) +:+ digits.

Definition span_name (index : nat) : string := "cmp-" +:+ pad4 (Z.of_nat index).

(** [PreviousMode], after it became [next_previous]: [None] on the legacy path,
    [Some next] on the driver's. *)
Inductive PreviousMode := Absent | Chain (seed : option string).

Definition next_previous (m : PreviousMode) : option (option string) :=
  match m with Absent => None | Chain seed => Some seed end.

(** [next_previous.clone().flatten()] *)
Definition flatten {A} (o : option (option A)) : option A :=
  match o with Some o => o | None => None end.

Definition count_untrusted (covered : list ContextRecord) : Z :=
  len (List.filter rec_untrusted covered).

Definition summarize_input (index : nat) (covered : list ContextRecord) (now_ms : Z)
    (previous : option (option string)) : SummarizeInput :=
  mkSummarizeInput (span_name index) (map rec_id covered) (map rec_summary covered)
    (sum_Z (map footprint_bytes covered)) (count_untrusted covered) now_ms (flatten previous).

(** The span metadata and the synthetic record of one covered range. *)
Definition span_of (index : nat) (covered : list ContextRecord) (summary : string)
    (tags : RetentionTags) (now_ms : Z) : CompressedSpan :=
  mkSpan (span_name index) (map rec_id covered) summary (0 <? count_untrusted covered)
    (inherit_retention (map rec_id covered) tags)
    (min_or now_ms (map collected_at_ms covered)) now_ms.

Definition synthetic_of (index : nat) (first : ContextRecord) (covered : list ContextRecord)
    (summary : string) (now_ms : Z) : ContextRecord :=
  mkContextRecord (span_name index) first.(rec_provider) first.(rec_owner)
    (max_or 0 (map rec_generation covered)) now_ms
    (priority_min_or Normal (map source_effective_priority covered))
    summary (Inline []) None (0 <? count_untrusted covered).

Section Compress.
Context {W : Type} (summarize : SummarizeFn W).
Context (rs : list ContextRecord) (tags : RetentionTags) (now_ms : Z).

(** One iteration of the span loop; [covered[0]] of an empty range panics. *)
Definition compress_span (w : W) (index : nat) (range : SpanRange)
    (previous : option (option string)) :
    W * run (result (CompressedSpan * ContextRecord) CompressionError) :=
  let id := span_name index in
  if slen id >? MAX_SPAN_ID_LEN then (w, Returned (Err (InvalidConfig "span id exceeds bound")))
  else if existsb (λ r, str_eqb r.(rec_id) id) rs then (w, Returned (Err (DuplicateId id)))
  else
  let covered := slice rs range in
  match covered with
  | [] => (w, Panicked)
  | first :: _ =>
      match summarize w (summarize_input index covered now_ms previous) with
      | (w, Err e) => (w, Returned (Err e))
      | (w, Ok summary) =>
          if is_empty (trim summary) then
            (w, Returned (Err (SummarizerFailed
                                 ("summarizer returned empty text for span " +:+ id))))
          else if slen summary >? MAX_SUMMARY_BYTES then
            (w, Returned (Err (SpanSummaryTooLarge MAX_SUMMARY_BYTES (slen summary))))
          else
            (w, Returned (Ok (span_of index covered summary tags now_ms,
                              synthetic_of index first covered summary now_ms)))
      end
  end.

(** [if next_previous.is_some() { next_previous = Some(Some(summary)) }] *)
Definition roll (previous : option (option string)) (summary : string) : option (option string) :=
  match previous with Some _ => Some (Some summary) | None => None end.

Fixpoint span_loop (w : W) (index : nat) (ranges : list SpanRange)
    (previous : option (option string)) :
    W * run (result (list CompressedSpan * list ContextRecord) CompressionError) :=
  match ranges with
  | [] => (w, Returned (Ok ([], [])))
  | range :: ranges =>
      match compress_span w index range previous with
      | (w, Returned (Ok (span, record))) =>
          match span_loop w (S index) ranges (roll previous span.(span_summary)) with
          | (w, Returned (Ok (spans, synthetic))) =>
              (w, Returned (Ok (span :: spans, record :: synthetic)))
          | (w, Returned (Err e)) => (w, Returned (Err e))
          | (w, Panicked) => (w, Panicked)
          | (w, OutOfFuel) => (w, OutOfFuel)
          end
      | (w, Returned (Err e)) => (w, Returned (Err e))
      | (w, Panicked) => (w, Panicked)
      | (w, OutOfFuel) => (w, OutOfFuel)
      end
  end.

(** The [while index < records.len()] loop that lays the view out; an index out
    of bounds panics. *)
Fixpoint layout_loop (fuel : nat) (ranges : list SpanRange) (synthetic : list ContextRecord)
    (range_cursor index : nat) : run (list ContextRecord) :=
  match fuel with
  | O => OutOfFuel
  | S fuel =>
      match rs !! index with
      | None => Returned []
      | Some r =>
          let go (record : ContextRecord) (range_cursor index : nat) :=
            match layout_loop fuel ranges synthetic range_cursor index with
            | Returned rest => Returned (record :: rest)
            | Panicked => Panicked
            | OutOfFuel => OutOfFuel
            end in
          match ranges !! range_cursor with
          | Some range =>
              if (index =? range.(r_start))%nat then
                match synthetic !! range_cursor with
                | Some s => go s (S range_cursor) range.(r_end)
                | None => Panicked
                end
              else go r range_cursor (S index)
          | None => go r range_cursor (S index)
          end
      end
  end.

Definition compress_ranges_impl (w : W) (ranges : list SpanRange)
    (current_generation : option Z) (previous : PreviousMode) :
    W * run (result CompressedView CompressionError) :=
  match precheck_ranges rs ranges current_generation with
  | Err e => (w, Returned (Err e))
  | Ok _ =>
      match span_loop w 0 ranges (next_previous previous) with
      | (w, Returned (Ok (spans, synthetic))) =>
          match layout_loop (S (length rs)) ranges synthetic 0 0 with
          | Returned records => (w, Returned (Ok (mkView records spans [] tags)))
          | Panicked => (w, Panicked)
          | OutOfFuel => (w, OutOfFuel)
          end
      | (w, Returned (Err e)) => (w, Returned (Err e))
      | (w, Panicked) => (w, Panicked)
      | (w, OutOfFuel) => (w, OutOfFuel)
      end
  end.

(** [compress_records_at] and [compress_records] *)
Definition compress_records_at (w : W) (ranges : list SpanRange) (current_generation : option Z) :=
  compress_ranges_impl w ranges current_generation Absent.

Definition compress_records (w : W) (ranges : list SpanRange) :=
  compress_records_at w ranges None.

End Compress.
