(* ===== verification/CompressionFacts.v ===== *)
(** * CompressionFacts: what compression preserves

    Theorems about [Compression.v]: breakpoints tile the records into greedy
    whole-record spans; compression accounts for every record, never launders
    trust, priority or retention, and its view passes the admission checks of
    [assemble]; deletion and expiry propagate over every history of a view. *)

From S2P Require Import Prelude Text ToolTypes Context Assembly Compression.

Local Open Scope Z_scope.
Local Open Scope rust_scope.

(** ** Slices *)

Section Slices.
Context {A : Type}.
Implicit Types (l : list A).

Lemma slice_full l : slice l (mkRange 0 (length l)) = l.
Proof. unfold slice, range_len. simpl. rewrite drop_0. apply take_ge. lia. Qed.

Lemma slice_nil l i : slice l (mkRange i i) = [].
Proof. unfold slice, range_len. simpl. by rewrite Nat.sub_diag. Qed.

Lemma slice_snoc l i j x : (i ≤ j)%nat → l !! j = Some x →
  slice l (mkRange i (S j)) = slice l (mkRange i j) ++ [x].
Proof.
  intros Hij Hx. unfold slice, range_len. simpl.
  replace (S j - i)%nat with (S (j - i)) by lia. apply take_S_r.
  rewrite lookup_drop. by replace (i + (j - i))%nat with j by lia.
Qed.

Lemma slice_app l i j k : (i ≤ j ≤ k)%nat →
  slice l (mkRange i j) ++ slice l (mkRange j k) = slice l (mkRange i k).
Proof.
  intros H. unfold slice, range_len. simpl.
  replace (k - i)%nat with ((j - i) + (k - j))%nat by lia.
  rewrite <- take_take_drop, drop_drop. by replace (i + (j - i))%nat with j by lia.
Qed.

Lemma slice_step l i j x : (i < j)%nat → l !! i = Some x →
  slice l (mkRange i j) = x :: slice l (mkRange (S i) j).
Proof.
  intros Hij Hx. unfold slice, range_len. simpl. replace (j - i)%nat with (S (j - S i)) by lia.
  by rewrite (drop_S _ _ _ Hx).
Qed.

Lemma slice_length l r : (r_end r ≤ length l)%nat → length (slice l r) = range_len r.
Proof. intros H. unfold slice, range_len in *. rewrite length_take, length_drop. lia. Qed.

Lemma slice_elem l r x : x ∈ slice l r → x ∈ l.
Proof. unfold slice. intros H%subseteq_take%subseteq_drop. done. Qed.

End Slices.

Definition footprint_sum (rs : list ContextRecord) : Z := sum_Z (map footprint_bytes rs).

Lemma footprint_sum_app l k : footprint_sum (l ++ k) = footprint_sum l + footprint_sum k.
Proof. unfold footprint_sum. by rewrite map_app, sum_Z_app. Qed.

Lemma footprint_sum_nonneg l : 0 ≤ footprint_sum l.
Proof. apply sum_Z_nonneg, Forall_map, Forall_true. intros. apply footprint_nonneg. Qed.

(** ** Breakpoints *)

(** Contiguous non-empty ranges from [from] to [to]. *)
Fixpoint tiles (from : nat) (ranges : list SpanRange) (to : nat) : Prop :=
  match ranges with
  | [] => from = to
  | r :: ranges => r.(r_start) = from ∧ (from < r.(r_end))%nat ∧ tiles r.(r_end) ranges to
  end.

(** A span within the cap, or one record over it behind records without bytes. *)
Definition span_fits (cap : Z) (covered : list ContextRecord) : Prop :=
  footprint_sum covered ≤ cap
  ∨ ∃ zs x, covered = zs ++ [x] ∧ footprint_sum zs = 0.

(** The record after the span did not fit. *)
Definition span_maximal (cap : Z) (rs : list ContextRecord) (r : SpanRange) : Prop :=
  ∀ x, rs !! r.(r_end) = Some x → cap < footprint_sum (slice rs r) + footprint_bytes x.

Definition greedy_span (cap : Z) (rs : list ContextRecord) (r : SpanRange) : Prop :=
  span_fits cap (slice rs r) ∧ span_maximal cap rs r.

Lemma tiles_app ranges : ∀ from mid k to,
  tiles from ranges mid → tiles mid k to → tiles from (ranges ++ k) to.
Proof.
  induction ranges as [|r ranges IH]; intros from mid k to; simpl; [by intros ->|].
  intros (? & ? & ?) ?. eauto.
Qed.

Lemma tiles_le ranges : ∀ from to, tiles from ranges to → (from ≤ to)%nat.
Proof.
  induction ranges as [|r ranges IH]; simpl; intros from to; [lia|].
  intros (? & ? & H%IH). lia.
Qed.

Lemma tiles_concat {A} (l : list A) ranges : ∀ from to, tiles from ranges to →
  concat (map (slice l) ranges) = slice l (mkRange from to).
Proof.
  induction ranges as [|r ranges IH]; simpl; intros from to; [intros ->; by rewrite slice_nil|].
  intros (Hs & Hlt & Ht). rewrite (IH _ _ Ht). apply tiles_le in Ht.
  destruct r as [s e]; simpl in *. subst. apply slice_app. lia.
Qed.

(** The loop without its span bound. *)
Fixpoint pack_loop (cap : Z) (index : nat) (rs : list ContextRecord) (ranges : list SpanRange)
    (start : nat) (used : Z) : list SpanRange * nat :=
  match rs with
  | [] => (ranges, start)
  | r :: rs =>
      let need := footprint_bytes r in
      if (used >? 0) && (used + need >? cap) then
        pack_loop cap (S index) rs (ranges ++ [mkRange start index]) index need
      else pack_loop cap (S index) rs ranges start (used + need)
  end.

Lemma pack_loop_grows cap rs : ∀ index ranges start used,
  len ranges ≤ len (pack_loop cap index rs ranges start used).1.
Proof.
  induction rs as [|r rs IH]; intros index ranges start used; simpl; [done|].
  case_if; [|apply IH]. etrans; [|apply IH]. rewrite len_app. pose proof (len_nonneg [mkRange start index]). lia.
Qed.

Lemma breakpoint_loop_pack cap rs : ∀ index ranges start used, len ranges ≤ MAX_SPANS →
  breakpoint_loop cap index rs ranges start used =
  let p := pack_loop cap index rs ranges start used in
  if len p.1 >? MAX_SPANS then Err (TooManySpans MAX_SPANS) else Ok p.
Proof.
  induction rs as [|r rs IH]; intros index ranges start used Hlen; simpl.
  { case_if; reflect_bools; [lia|done]. }
  destruct ((used >? 0) && _) eqn:E; [|by apply IH].
  destruct (negb (len (ranges ++ [mkRange start index]) >? MAX_SPANS)) eqn:El; reflect_bools.
  - by apply IH.
  - pose proof (pack_loop_grows cap rs (S index) (ranges ++ [mkRange start index]) index
                  (footprint_bytes r)). case_if; reflect_bools; [done|lia].
Qed.

Definition pack_inv (cap : Z) (rs : list ContextRecord) (index : nat) (ranges : list SpanRange)
    (start : nat) : Prop :=
  tiles 0 ranges start ∧ (start ≤ index)%nat ∧ (0 < index → start < index)%nat
  ∧ Forall (greedy_span cap rs) ranges ∧ span_fits cap (slice rs (mkRange start index)).

Lemma pack_loop_spec cap full rs : ∀ done ranges start, 0 < cap → full = done ++ rs →
  pack_inv cap full (length done) ranges start →
  let '(ranges', start') := pack_loop cap (length done) rs ranges start
       (footprint_sum (slice full (mkRange start (length done)))) in
  pack_inv cap full (length full) ranges' start'.
Proof.
  induction rs as [|r rs IH]; intros done ranges start Hcap Hfull Hinv; simpl.
  { by rewrite app_nil_r in Hfull; subst. }
  destruct Hinv as (Ht & Hle & Hlt & Hg & Hf).
  assert (full !! length done = Some r) as Hr.
  { subst. by rewrite lookup_app_r, Nat.sub_diag. }
  assert (S (length done) = length (done ++ [r])) as Hl by (rewrite length_app; simpl; lia).
  assert (full = (done ++ [r]) ++ rs) as Hfull' by (subst; by rewrite <- app_assoc).
  pose proof (slice_snoc full (length done) (length done) r ltac:(lia) Hr) as Hone.
  rewrite slice_nil in Hone. simpl in Hone.
  pose proof (slice_snoc full start (length done) r Hle Hr) as Hsn.
  pose proof (footprint_nonneg r). 
  assert (footprint_sum [r] = footprint_bytes r) as H1 by (unfold footprint_sum; simpl; lia).
  destruct ((_ >? 0) && _) eqn:E; rewrite Hl.
  - reflect_bools.
    replace (footprint_bytes r) with (footprint_sum (slice full (mkRange (length done) (length (done ++ [r])))))
      by (by rewrite <- Hl, Hone).
    apply IH; [done|done|]. split_and!.
    + eapply tiles_app; [done|]. simpl. split_and!; [done| |done].
      destruct (decide (start = length done)) as [->|]; [|lia].
      rewrite slice_nil in H0. unfold footprint_sum in H0. simpl in H0. lia.
    + rewrite <- Hl; lia.
    + rewrite <- Hl; lia.
    + apply Forall_app. split; [done|]. constructor; [|done]. split; [done|].
      intros x Hx. simpl in Hx. rewrite Hr in Hx. simplify_eq. lia.
    + rewrite <- Hl, Hone. right. exists [], r. done.
  - replace (footprint_sum (slice full (mkRange start (length done))) + footprint_bytes r)
      with (footprint_sum (slice full (mkRange start (length (done ++ [r])))))
      by (by rewrite <- Hl, Hsn, footprint_sum_app, H1).
    apply IH; [done|done|]. split_and!; [done|lia|lia|done|].
    rewrite <- Hl, Hsn. apply andb_false_iff in E as [E|E]; reflect_bools.
    + right. eexists _, r. split; [done|].
      pose proof (footprint_sum_nonneg (slice full (mkRange start (length done)))). lia.
    + left. rewrite footprint_sum_app. lia.
Qed.

Definition config_typed (c : CompressionConfig) : Prop :=
  is_u64 c.(max_span_bytes) ∧ ∀ t, c.(max_span_tokens) = Some t → is_u32 t.

Lemma effective_span_pos c : config_typed c → validate_compression c = Ok tt →
  0 < effective_span_bytes c.
Proof.
  unfold validate_compression, effective_span_bytes, config_typed, is_u64, is_u32.
  intros [Hb Ht] H. case_if_in H; [|done]. case_if_in H; [|done]. reflect_bools.
  destruct (max_span_tokens c) as [t|]; [|lia]. specialize (Ht t eq_refl).
  assert (t ≠ 0) by congruence. unfold BYTES_PER_TOKEN_ESTIMATE. lia.
Qed.

(** Breakpoint selection is greedy packing of whole records.  For every valid
    configuration there are ranges that tile the records exactly (contiguous,
    non-empty, from the first to the last), each within the effective cap unless
    a single record exceeds it, each maximal (the next record did not fit), and
    [select_breakpoints] returns them, or [TooManySpans] exactly when there are
    more than [MAX_SPANS]; no record is split, skipped or repeated. *)
Theorem select_breakpoints_greedy rs config :
  config_typed config → validate_compression config = Ok tt →
  ∃ ranges,
    tiles 0 ranges (length rs) ∧ concat (map (slice rs) ranges) = rs
    ∧ Forall (greedy_span (effective_span_bytes config) rs) ranges
    ∧ select_breakpoints rs config
      = if len ranges >? MAX_SPANS then Err (TooManySpans MAX_SPANS) else Ok ranges.
Proof.
  intros Htyped Hv. pose proof (effective_span_pos _ Htyped Hv) as Hcap.
  set (cap := effective_span_bytes config) in *.
  pose proof (pack_loop_spec cap rs rs [] [] 0 Hcap eq_refl) as Hspec.
  rewrite slice_nil in Hspec. unfold footprint_sum in Hspec. simpl in Hspec.
  destruct (pack_loop cap 0 rs [] 0 0) as [ranges start] eqn:E.
  destruct Hspec as (Ht & Hle & Hlt & Hg & Hf).
  { split_and!; [done|done|lia|done|]. left. rewrite slice_nil. unfold footprint_sum. simpl. lia. }
  exists (if (start <? length rs)%nat then ranges ++ [mkRange start (length rs)] else ranges).
  assert (tiles 0 (if (start <? length rs)%nat then ranges ++ [mkRange start (length rs)] else ranges)
            (length rs)) as Hall.
  { destruct (Nat.ltb_spec start (length rs)).
    - eapply tiles_app; [done|]. by split_and!.
    - by replace (length rs) with start by lia. }
  split_and!; [done|by rewrite (tiles_concat _ _ _ _ Hall), slice_full|..].
  - case_if; [|done]. apply Forall_app. split; [done|]. constructor; [|done]. split; [done|].
    intros x Hx. simpl in Hx. by rewrite lookup_ge_None_2 in Hx.
  - unfold select_breakpoints. fold cap. rewrite Hv, breakpoint_loop_pack by done.
    rewrite E. simpl. destruct (len ranges >? MAX_SPANS) eqn:El.
    + destruct (start <? length rs)%nat; [|by rewrite El].
      rewrite len_app, len_cons, len_nil. reflect_bools. case_if; [done|]. reflect_bools. lia.
    + match goal with |- context [negb ?b] => destruct b end; reflexivity.
Qed.

Definition sample_record (id : string) (untrusted : bool) (n : nat) : ContextRecord :=
  mkContextRecord id "workspace" "owner" 1 10 High "note" (Inline (repeat (Ascii.ascii_of_N 97) n))
    None untrusted.

Definition sample_records : list ContextRecord :=
  [sample_record "r0" false 16; sample_record "r1" true 16; sample_record "r2" false 100;
   sample_record "r3" false 4].

Lemma select_breakpoints_greedy_witness :
  select_breakpoints sample_records (mkCompressionConfig 40 (Some 20))
    = Ok [mkRange 0 2; mkRange 2 3; mkRange 3 4]
  ∧ ∃ ranges,
    tiles 0 ranges 4 ∧ concat (map (slice sample_records) ranges) = sample_records
    ∧ Forall (greedy_span (effective_span_bytes (mkCompressionConfig 40 (Some 20))) sample_records) ranges
    ∧ select_breakpoints sample_records (mkCompressionConfig 40 (Some 20))
      = if len ranges >? MAX_SPANS then Err (TooManySpans MAX_SPANS) else Ok ranges.
Proof.
  split; [reflexivity|]. apply (select_breakpoints_greedy sample_records); [|reflexivity].
  split; [split; vm_compute; congruence|]. simpl. intros t [= <-]. split; vm_compute; congruence.
Defined.

(** ** Ranges *)

(** What [validate_ranges] accepts: non-empty, in bounds, sorted and disjoint. *)
Fixpoint ranges_ok (n cursor : nat) (ranges : list SpanRange) : Prop :=
  match ranges with
  | [] => True
  | r :: ranges =>
      (cursor ≤ r.(r_start) < r.(r_end))%nat ∧ (r.(r_end) ≤ n)%nat ∧ ranges_ok n r.(r_end) ranges
  end.

Lemma check_ranges_spec n ranges : ∀ cursor,
  check_ranges n cursor ranges = Ok tt ↔ ranges_ok n cursor ranges.
Proof.
  induction ranges as [|r ranges IH]; intros cursor; cbn [check_ranges ranges_ok]; [done|].
  unfold range_is_empty.
  destruct (Nat.leb_spec (r_end r) (r_start r)); simpl; [split; [done|lia]|].
  destruct (Nat.leb_spec (r_end r) n); [|split; [done|lia]].
  destruct (Nat.leb_spec cursor (r_start r)); [|split; [done|lia]].
  rewrite IH. split; [|tauto]. intros. split_and!; [lia|lia|lia|done].
Qed.

Lemma validate_ranges_spec n ranges :
  validate_ranges n ranges = Ok tt ↔ len ranges ≤ MAX_SPANS ∧ ranges_ok n 0 ranges.
Proof.
  unfold validate_ranges. destruct (negb _) eqn:E; reflect_bools.
  - rewrite check_ranges_spec. split; [auto|tauto].
  - split; [done|lia].
Qed.

Lemma tiles_ranges_ok n ranges : ∀ from to, tiles from ranges to → (to ≤ n)%nat →
  ranges_ok n from ranges.
Proof.
  induction ranges as [|r ranges IH]; simpl; intros from to; [done|].
  intros (? & ? & Ht) Hn. pose proof (tiles_le _ _ _ Ht). split_and!; [lia|lia|lia|eauto].
Qed.

Lemma slice_cons {A} (l : list A) r : (r_start r < r_end r ≤ length l)%nat →
  ∃ x k, slice l r = x :: k.
Proof.
  intros H. destruct (slice l r) as [|x k] eqn:E; [|eauto].
  pose proof (slice_length l r ltac:(lia)) as Hl. rewrite E in Hl. unfold range_len in Hl. simpl in Hl. lia.
Qed.

(** ** Folds over a span's sources *)

Lemma fold_min_spec l : ∀ x, let m := fold_left Z.min l x in m ≤ x ∧ (∀ y, y ∈ l → m ≤ y) ∧ m ∈ x :: l.
Proof.
  induction l as [|z l IH]; intros x; simpl.
  - split_and!; [lia|intros y Hy; by apply elem_of_nil in Hy|by left].
  - destruct (IH (Z.min x z)) as (H1 & H2 & H3). split_and!; [lia| |].
    + intros y [->|Hy]%elem_of_cons; [lia|auto].
    + apply elem_of_cons in H3 as [->|H3]; [|by do 2 right].
      destruct (Z.min_spec x z) as [[_ ->]|[_ ->]]; [by left|right; by left].
Qed.

Lemma fold_max_const g l : Forall (λ z, z = g) l → fold_left Z.max l g = g.
Proof. induction 1 as [|z l -> Hl IH]; simpl; [done|]. by rewrite Z.max_id. Qed.

Lemma priority_min_u8 a b : priority_u8 (priority_min a b) = Z.min (priority_u8 a) (priority_u8 b).
Proof. unfold priority_min. case_if; reflect_bools; lia. Qed.

Lemma fold_priority_min l : ∀ p,
  priority_u8 (fold_left priority_min l p) = fold_left Z.min (map priority_u8 l) (priority_u8 p).
Proof.
  induction l as [|q l IH]; intros p; simpl; [done|]. by rewrite IH, priority_min_u8.
Qed.

Lemma source_effective_priority_eq r : source_effective_priority r = effective_priority r.
Proof.
  unfold source_effective_priority, effective_priority.
  destruct (rec_untrusted r); [|done]. by destruct (priority r).
Qed.

Lemma most_restrictive_rank a b :
  restrictiveness (most_restrictive a b) = Z.max (restrictiveness a) (restrictiveness b).
Proof. unfold most_restrictive. case_if; reflect_bools; lia. Qed.

Lemma inherit_fold tags ids : ∀ c,
  let p := fold_left (inherit_step tags) ids (c, true) in
  p.2 = true
  ∧ (∀ id, id ∈ ids → restrictiveness (tags_get tags id) ≤ restrictiveness p.1)
  ∧ restrictiveness c ≤ restrictiveness p.1 ∧ (p.1 = c ∨ ∃ id, id ∈ ids ∧ p.1 = tags_get tags id).
Proof.
  induction ids as [|x ids IH]; intros c; simpl.
  - split_and!; [done|intros y Hy; by apply elem_of_nil in Hy|lia|by left].
  - destruct (IH (most_restrictive c (tags_get tags x))) as (H1 & H2 & H3 & H4).
    rewrite most_restrictive_rank in H3. split_and!; [done| |lia|].
    + intros y [->|Hy]%elem_of_cons; [lia|auto].
    + destruct H4 as [->|(y & Hy & ->)].
      * unfold most_restrictive. case_if; [right|by left]. exists x. split; [by left|done].
      * right. exists y. split; [by right|done].
Qed.

Lemma inherit_retention_spec tags ids : ids ≠ [] →
  (∀ id, id ∈ ids →
     restrictiveness (tags_get tags id) ≤ restrictiveness (inherit_retention ids tags))
  ∧ ∃ id, id ∈ ids ∧ inherit_retention ids tags = tags_get tags id.
Proof.
  destruct ids as [|x ids]; [done|]. intros _. unfold inherit_retention.
  cbn [fold_left inherit_step].
  destruct (inherit_fold tags ids (tags_get tags x)) as (H1 & H2 & H3 & H4).
  destruct (fold_left (inherit_step tags) ids (tags_get tags x, true)) as [c s]; simpl in *. subst s.
  split.
  - intros id [->|Hid]%elem_of_cons; auto.
  - destruct H4 as [->|(y & Hy & ->)]; [exists x|exists y]; (split; [|done]); [by left|by right].
Qed.

Lemma count_untrusted_pos l : (0 <? count_untrusted l) = existsb rec_untrusted l.
Proof.
  unfold count_untrusted. induction l as [|r l IH]; simpl; [done|].
  destruct (rec_untrusted r); simpl; [|done]. rewrite len_cons.
  pose proof (len_nonneg (List.filter rec_untrusted l)). apply Z.ltb_lt. lia.
Qed.

(** ** The span loop *)

(** What a summary record says of its sources: nothing but the summary text is
    new, and trust, priority and retention are bounded by the sources. *)
Record summarizes (tags : RetentionTags) (now_ms : Z) (covered : list ContextRecord)
    (s : CompressedSpan) (r : ContextRecord) : Prop := {
  sum_sources : covered ≠ [] ∧ source_ids s = map rec_id covered;
  sum_record : rec_id r = span_id s ∧ rec_summary r = span_summary s
               ∧ body r = Inline [] ∧ supersedes r = None;
  sum_text : is_empty (trim (span_summary s)) = false ∧ slen (span_summary s) ≤ MAX_SUMMARY_BYTES;
  sum_trust : span_untrusted s = existsb rec_untrusted covered ∧ rec_untrusted r = span_untrusted s;
  sum_priority : ∀ x, x ∈ covered →
    priority_u8 (effective_priority r) ≤ priority_u8 (effective_priority x);
  sum_retention :
    (∀ x, x ∈ covered → restrictiveness (tags_get tags (rec_id x)) ≤ restrictiveness (retention s))
    ∧ ∃ x, x ∈ covered ∧ retention s = tags_get tags (rec_id x);
  sum_deadline :
    (∀ x, x ∈ covered → source_deadline_ms s ≤ collected_at_ms x)
    ∧ ∃ x, x ∈ covered ∧ source_deadline_ms s = collected_at_ms x;
  sum_created : created_at_ms s = now_ms ∧ collected_at_ms r = now_ms;
  sum_provider : ∃ x, head covered = Some x ∧ rec_provider r = rec_provider x ∧ rec_owner r = rec_owner x;
  sum_generation : ∀ g, (∀ x, x ∈ covered → rec_generation x = g) → rec_generation r = g
}.

Lemma effective_priority_le r : priority_u8 (effective_priority r) ≤ priority_u8 (priority r).
Proof. unfold effective_priority. destruct (rec_untrusted r), (priority r); simpl; lia. Qed.

Lemma span_of_summarizes tags now_ms index first rest summary :
  is_empty (trim summary) = false → slen summary ≤ MAX_SUMMARY_BYTES →
  summarizes tags now_ms (first :: rest) (span_of index (first :: rest) summary tags now_ms)
    (synthetic_of index first (first :: rest) summary now_ms).
Proof.
  intros Ht Hl. set (cov := first :: rest). split; cbn [span_of synthetic_of source_ids rec_id
    span_id rec_summary span_summary body supersedes span_untrusted rec_untrusted retention
    source_deadline_ms created_at_ms collected_at_ms rec_provider rec_owner rec_generation].
  - done.
  - done.
  - done.
  - by rewrite count_untrusted_pos.
  - intros x Hx. etrans; [apply effective_priority_le|]. simpl priority.
    rewrite fold_priority_min.
    destruct (fold_min_spec (map priority_u8 (map source_effective_priority rest))
                (priority_u8 (source_effective_priority first))) as (H1 & H2 & _).
    rewrite <- source_effective_priority_eq.
    apply elem_of_cons in Hx as [->|Hx]; [done|]. apply H2.
    apply list_elem_of_fmap_2, list_elem_of_fmap_2, Hx.
  - destruct (inherit_retention_spec tags (map rec_id cov) ltac:(done)) as [H1 (id & Hid & H2)].
    split.
    + intros x Hx. apply H1. by apply list_elem_of_fmap_2.
    + apply list_elem_of_fmap in Hid as (x & -> & Hx). eauto.
  - destruct (fold_min_spec (map collected_at_ms rest) (collected_at_ms first)) as (H1 & H2 & H3).
    split.
    + intros x [->|Hx]%elem_of_cons; [done|]. apply H2. by apply list_elem_of_fmap_2.
    + change (collected_at_ms first :: map collected_at_ms rest) with (map collected_at_ms cov) in H3.
      apply list_elem_of_fmap in H3 as (x & Hx & Hin). exists x. split; [done|exact Hx].
  - done.
  - by exists first.
  - intros g Hg. simpl. rewrite (Hg first) by left. apply fold_max_const, Forall_map, Forall_forall.
    intros x Hx. apply Hg. by right.
Qed.

(** ** Span names *)

Lemma digit_zeros k l : fold_left digit_step (repeat (Ascii.ascii_of_N 48) k ++ l) 0
  = fold_left digit_step l 0.
Proof. induction k as [|k IH]; [done|]. apply IH. Qed.

Lemma parse_pad4 n : is_u64 n → parse_saturating (pad4 n) = n.
Proof.
  intros H. rewrite <- (parse_show n H) at 2. unfold parse_saturating, pad4. fold digit_step.
  change (fold_left digit_step (as_bytes (of_bytes (repeat (Ascii.ascii_of_N 48) (4 - String.length (show n)))
     +:+ show n)) 0 = fold_left digit_step (as_bytes (show n)) 0).
  rewrite as_bytes_app. unfold as_bytes at 1, of_bytes.
  rewrite String.list_ascii_of_string_of_list_ascii. apply digit_zeros.
Qed.

Lemma span_name_inj i j : Z.of_nat i ≤ u64_max → Z.of_nat j ≤ u64_max →
  span_name i = span_name j → i = j.
Proof.
  intros Hi Hj H. apply (inj (String.append _)) in H. apply (f_equal parse_saturating) in H.
  rewrite !parse_pad4 in H by (split; lia). lia.
Qed.

(** ** The compression core *)

(** How one record of the view came about. *)
Inductive piece :=
| Kept (r : ContextRecord)
| Summed (s : CompressedSpan) (r : ContextRecord) (covered : list ContextRecord).

Definition piece_record (p : piece) : ContextRecord :=
  match p with Kept r => r | Summed _ r _ => r end.
Definition piece_sources (p : piece) : list ContextRecord :=
  match p with Kept r => [r] | Summed _ _ covered => covered end.
Definition piece_span (p : piece) : option CompressedSpan :=
  match p with Kept _ => None | Summed s _ _ => Some s end.
Definition piece_kept (p : piece) : option ContextRecord :=
  match p with Kept r => Some r | Summed _ _ _ => None end.
Definition piece_covered (p : piece) : option (list ContextRecord) :=
  match p with Kept _ => None | Summed _ _ covered => Some covered end.

(** The records between the ranges. *)
Fixpoint gaps {A} (l : list A) (cursor : nat) (ranges : list SpanRange) : list A :=
  match ranges with
  | [] => drop cursor l
  | r :: ranges => slice l (mkRange cursor r.(r_start)) ++ gaps l r.(r_end) ranges
  end.

(** The current branch returned, and not with a view. *)
Ltac returns := eexists _, _; split; [reflexivity|done].

Section Core.
Context {W : Type} (summarize : SummarizeFn W).
Context (rs : list ContextRecord) (tags : RetentionTags) (now_ms : Z).

Definition piece_ok (p : piece) : Prop :=
  match p with Kept _ => True | Summed s r covered => summarizes tags now_ms covered s r end.

(** A successful span loop, call by call. *)
Inductive spanned : W → nat → list SpanRange → option (option string) →
    list CompressedSpan → list ContextRecord → W → Prop :=
| spanned_nil w i previous : spanned w i [] previous [] [] w
| spanned_cons w i range ranges previous first rest summary w1 ss synthetic w2 :
    slice rs range = first :: rest →
    span_name i ∉ map rec_id rs →
    summarize w (summarize_input i (first :: rest) now_ms previous) = (w1, Ok summary) →
    is_empty (trim summary) = false → slen summary ≤ MAX_SUMMARY_BYTES →
    spanned w1 (S i) ranges (roll previous summary) ss synthetic w2 →
    spanned w i (range :: ranges) previous
      (span_of i (first :: rest) summary tags now_ms :: ss)
      (synthetic_of i first (first :: rest) summary now_ms :: synthetic) w2.

Lemma compress_span_spec w i range previous :
  (r_start range < r_end range ≤ length rs)%nat →
  ∃ w1 res, compress_span summarize rs tags now_ms w i range previous = (w1, Returned res)
    ∧ ∀ s r, res = Ok (s, r) → ∃ first rest summary,
        slice rs range = first :: rest ∧ (span_name i ∉ map rec_id rs)
        ∧ summarize w (summarize_input i (first :: rest) now_ms previous) = (w1, Ok summary)
        ∧ is_empty (trim summary) = false ∧ slen summary ≤ MAX_SUMMARY_BYTES
        ∧ s = span_of i (first :: rest) summary tags now_ms
        ∧ r = synthetic_of i first (first :: rest) summary now_ms.
Proof.
  intros Hr. unfold compress_span. destruct (_ >? MAX_SPAN_ID_LEN); [returns|].
  destruct (existsb _ rs) eqn:Ex; [returns|].
  destruct (slice_cons rs range Hr) as (first & rest & E). rewrite E.
  destruct (summarize w _) as [w1 [summary|e]] eqn:Es; [|returns].
  destruct (is_empty (trim summary)) eqn:Et; [returns|].
  destruct (slen summary >? MAX_SUMMARY_BYTES) eqn:El; [returns|]. reflect_bools.
  eexists _, _. split; [done|]. intros s r [= <- <-]. exists first, rest, summary.
  split_and!; try done. intros (x & Hx & Hin)%list_elem_of_fmap.
  rewrite existsb_false_iff in Ex. specialize (Ex x Hin). rewrite <- Hx in Ex.
  by rewrite str_eqb_refl in Ex.
Qed.

Lemma span_loop_spec ranges : ∀ w i cursor previous, ranges_ok (length rs) cursor ranges →
  ∃ w1 res, span_loop summarize rs tags now_ms w i ranges previous = (w1, Returned res)
    ∧ ∀ ss synthetic, res = Ok (ss, synthetic) → spanned w i ranges previous ss synthetic w1.
Proof.
  induction ranges as [|range ranges IH]; intros w i cursor previous Hok; simpl.
  { eexists _, _. split; [done|]. intros ss synthetic [= <- <-]. constructor. }
  destruct Hok as (Hlt & Hle & Hok).
  destruct (compress_span_spec w i range previous ltac:(lia)) as (w1 & res & -> & Hres).
  destruct res as [[s r]|e]; [|returns].
  destruct (Hres s r eq_refl) as (first & rest & summary & ? & ? & ? & ? & ? & -> & ->).
  destruct (IH w1 (S i) (r_end range) (roll previous summary) Hok) as (w2 & res & E & Hres').
  cbn [span_of span_summary]. rewrite E. destruct res as [[ss synthetic]|e]; [|returns].
  eexists _, _. split; [done|]. intros ? ? [= <- <-]. econstructor; eauto.
Qed.

Lemma spanned_length w i ranges previous ss synthetic w' :
  spanned w i ranges previous ss synthetic w' →
  length ss = length ranges ∧ length synthetic = length ranges.
Proof. induction 1; simpl; [done|]. lia. Qed.

(** A laid-out view, record by record. *)
Inductive laid : nat → list SpanRange → list ContextRecord → list ContextRecord → Prop :=
| laid_end : laid (length rs) [] [] []
| laid_span range ranges s synthetic l :
    laid (r_end range) ranges synthetic l →
    laid (r_start range) (range :: ranges) (s :: synthetic) (s :: l)
| laid_pass index r ranges synthetic l :
    rs !! index = Some r →
    match ranges with range :: _ => index ≠ r_start range | [] => True end →
    laid (S index) ranges synthetic l → laid index ranges synthetic (r :: l).

Lemma layout_loop_spec ranges synthetic fuel : ∀ cursor index,
  length synthetic = length ranges → (index ≤ length rs)%nat →
  (length rs - index < fuel)%nat → ranges_ok (length rs) index (drop cursor ranges) →
  ∃ l, layout_loop rs fuel ranges synthetic cursor index = Returned l
    ∧ laid index (drop cursor ranges) (drop cursor synthetic) l.
Proof.
  induction fuel as [|fuel IH]; intros cursor index Hlen Hi Hf Hok; [lia|]. simpl.
  destruct (rs !! index) as [r|] eqn:Er.
  - apply lookup_lt_Some in Er as Hlt.
    assert (match drop cursor ranges with range :: _ => index ≠ r_start range | [] => True end →
      ∃ l, (match layout_loop rs fuel ranges synthetic cursor (S index) with
            | Returned rest => Returned (r :: rest) | Panicked => Panicked | OutOfFuel => OutOfFuel
            end) = Returned l ∧ laid index (drop cursor ranges) (drop cursor synthetic) l) as Hpass.
    { intros Hne. destruct (IH cursor (S index)) as (l & -> & Hl); [done|lia|lia| |].
      - destruct (drop cursor ranges) as [|range k]; [done|].
        destruct Hok as (? & ? & ?). split_and!; [lia|lia|lia|done].
      - eexists. split; [done|]. by econstructor. }
    destruct (ranges !! cursor) as [range|] eqn:Ec.
    + rewrite (drop_S _ _ _ Ec) in *. destruct (Nat.eqb_spec index (r_start range)) as [->|Hne]; [|auto].
      apply lookup_lt_Some in Ec as Hc.
      destruct (lookup_lt_is_Some_2 synthetic cursor ltac:(lia)) as [s Es]. rewrite Es.
      destruct Hok as (? & ? & Hok).
      destruct (IH (S cursor) (r_end range)) as (l & -> & Hl); [done|lia|lia|done|].
      eexists. split; [done|]. rewrite (drop_S _ _ _ Es). by constructor.
    + apply lookup_ge_None_1 in Ec. rewrite drop_ge in Hpass by done. rewrite drop_ge by done.
      by apply Hpass.
  - apply lookup_ge_None_1 in Er. assert (index = length rs) as -> by lia.
    assert (drop cursor ranges = []) as Hd.
    { destruct (drop cursor ranges) as [|range k]; [done|]. destruct Hok as (? & ? & _). lia. }
    eexists. split; [done|]. rewrite Hd.
    apply (f_equal length) in Hd. rewrite length_drop in Hd. simpl in Hd.
    rewrite drop_ge by lia. constructor.
Qed.

Lemma laid_pieces index ranges synthetic l : laid index ranges synthetic l →
  ∀ w i previous ss w', spanned w i ranges previous ss synthetic w' →
  ranges_ok (length rs) index ranges →
  ∃ ps, map piece_record ps = l ∧ concat (map piece_sources ps) = drop index rs
    ∧ omap piece_span ps = ss ∧ Forall piece_ok ps
    ∧ omap piece_kept ps = gaps rs index ranges ∧ omap piece_covered ps = map (slice rs) ranges.
Proof.
  induction 1 as [|range ranges s synthetic l Hl IH|index r ranges synthetic l Hr Hne Hl IH];
    intros w i previous ss w' Hs Hok.
  - inversion Hs; subst. exists []. simpl. rewrite drop_ge by done. by split_and!.
  - inversion Hs as [|? ? ? ? ? first rest summary w1 ss' ? ? Hsl Hfresh Hcall Ht Hlen Hrest]; subst.
    destruct Hok as (? & ? & Hok). destruct (IH _ _ _ _ _ Hrest Hok) as (ps & <- & Hc & Ho & Hf & Hk & Hv).
    exists (Summed (span_of i (first :: rest) summary tags now_ms)
              (synthetic_of i first (first :: rest) summary now_ms) (first :: rest) :: ps).
    split_and!; [done| |by csimpl; rewrite Ho| |by csimpl; rewrite Hk, slice_nil|
                 by csimpl; rewrite Hv, Hsl].
    + cbn [map piece_sources concat]. rewrite Hc, <- Hsl. unfold slice, range_len.
      rewrite <- (take_drop (r_end range - r_start range) (drop (r_start range) rs)) at 2.
      rewrite drop_drop. by replace (r_start range + (r_end range - r_start range))%nat
        with (r_end range) by lia.
    + constructor; [by apply span_of_summarizes|done].
  - destruct (IH _ _ _ _ _ Hs) as (ps & <- & Hc & Ho & Hf & Hk & Hv).
    { destruct ranges as [|range ranges]; [done|]. destruct Hok as (? & ? & ?).
      split_and!; [lia|lia|lia|done]. }
    exists (Kept r :: ps). split_and!; [done| |done|by constructor| |done].
    + simpl. by rewrite Hc, (drop_S _ _ _ Hr).
    + csimpl. rewrite Hk. destruct ranges as [|range ranges]; simpl; [by rewrite (drop_S _ _ _ Hr)|].
      destruct Hok as (? & ? & ?). by rewrite (slice_step rs index (r_start range) r) by (done || lia).
Qed.

Lemma precheck_ranges_ok ranges gen u : precheck_ranges rs ranges gen = Ok u →
  len rs ≤ MAX_CONTEXT_RECORDS ∧ Forall (λ r, validate_record r = Ok tt) rs
  ∧ len ranges ≤ MAX_SPANS ∧ ranges_ok (length rs) 0 ranges.
Proof.
  unfold precheck_ranges. intros H. case_if_in H; [|done]. reflect_bools.
  destruct (validate_records rs) as [[]|] eqn:Ev; simpl in H; [|done].
  destruct (validate_ranges (length rs) ranges) as [[]|] eqn:Er; [|done].
  apply validate_ranges_spec in Er as [? ?]. auto using validate_records_ok.
Qed.

(** Compression always returns, and every success is a piecewise account. *)
Lemma compress_spec w ranges gen mode :
  ∃ w1 res, compress_ranges_impl summarize rs tags now_ms w ranges gen mode = (w1, Returned res)
    ∧ (precheck_ranges rs ranges gen ≠ Ok tt → w1 = w)
    ∧ ∀ v, res = Ok v → precheck_ranges rs ranges gen = Ok tt ∧ ∃ synthetic ps,
        spanned w 0 ranges (next_previous mode) (spans v) synthetic w1
        ∧ tombstones v = [] ∧ view_tags v = tags
        ∧ map piece_record ps = view_records v ∧ concat (map piece_sources ps) = rs
        ∧ omap piece_span ps = spans v ∧ Forall piece_ok ps
        ∧ omap piece_kept ps = gaps rs 0 ranges ∧ omap piece_covered ps = map (slice rs) ranges.
Proof.
  unfold compress_ranges_impl. destruct (precheck_ranges rs ranges gen) as [[]|e] eqn:Ep.
  2:{ eexists _, _. split; [done|]. split; [done|]. done. }
  destruct (precheck_ranges_ok _ _ _ Ep) as (_ & _ & _ & Hok).
  destruct (span_loop_spec ranges w 0 0 (next_previous mode) Hok) as (w1 & res & -> & Hres).
  destruct res as [[ss synthetic]|e]; [|eexists _, _; split; [done|by split]].
  specialize (Hres _ _ eq_refl). destruct (spanned_length _ _ _ _ _ _ _ Hres) as [_ Hlen].
  destruct (layout_loop_spec ranges synthetic (S (length rs)) 0 0) as (l & -> & Hl);
    [done|lia|lia|by rewrite drop_0|]. rewrite !drop_0 in Hl.
  destruct (laid_pieces _ _ _ _ Hl _ _ _ _ _ Hres Hok) as (ps & H1 & H2 & H3 & H4 & H5 & H6).
  rewrite drop_0 in H2. eexists _, _. split; [done|]. split; [done|].
  intros v [= <-]. split; [done|]. exists synthetic, ps. by split_and!.
Qed.

End Core.

(** ** Properties of the core *)

Section Summaries.
Context {W : Type} (summarize : SummarizeFn W).

(** The successful summariser calls from [w] to [w'], in order. *)
Inductive calls_made : W → list SummarizeInput → list string → W → Prop :=
| calls_none w : calls_made w [] [] w
| calls_one w input w1 text inputs texts w2 :
    summarize w input = (w1, Ok text) → calls_made w1 inputs texts w2 →
    calls_made w (input :: inputs) (text :: texts) w2.

(** What the summariser was told for a run of spans. *)
Fixpoint inputs_for (rs : list ContextRecord) (now_ms : Z) (i : nat) (ranges : list SpanRange)
    (ss : list CompressedSpan) (previous : option (option string)) : list SummarizeInput :=
  match ranges, ss with
  | range :: ranges, s :: ss =>
      summarize_input i (slice rs range) now_ms previous
        :: inputs_for rs now_ms (S i) ranges ss (roll previous (span_summary s))
  | _, _ => []
  end.

Lemma spanned_calls rs tags now_ms w i ranges previous ss synthetic w' :
  spanned summarize rs tags now_ms w i ranges previous ss synthetic w' →
  calls_made w (inputs_for rs now_ms i ranges ss previous) (map span_summary ss) w'.
Proof.
  induction 1 as [|? ? ? ? ? ? ? ? ? ? ? ? Hs Hf Hc ? ? H IH]; simpl; [constructor|].
  rewrite Hs. by econstructor.
Qed.

Lemma spanned_sources rs tags now_ms w i ranges previous ss synthetic w' :
  spanned summarize rs tags now_ms w i ranges previous ss synthetic w' →
  map source_ids ss = map (λ r, map rec_id (slice rs r)) ranges.
Proof.
  induction 1 as [|? ? ? ? ? ? ? ? ? ? ? ? Hs ? ? ? ? H IH]; simpl; [done|].
  rewrite Hs, IH. done.
Qed.

Lemma spanned_names rs tags now_ms w i ranges previous ss synthetic w' :
  spanned summarize rs tags now_ms w i ranges previous ss synthetic w' →
  map span_id ss = map span_name (seq i (length ranges))
  ∧ ∀ s, s ∈ ss → span_id s ∉ map rec_id rs.
Proof.
  induction 1 as [|? ? ? ? ? ? ? ? ? ? ? ? ? Hf ? ? ? H [IH1 IH2]]; simpl.
  - split; [done|]. intros s Hs. by apply elem_of_nil in Hs.
  - rewrite IH1. split; [done|]. intros s [->|Hs]%elem_of_cons; auto.
Qed.

Lemma names_NoDup n : Z.of_nat n ≤ MAX_SPANS → NoDup (map span_name (seq 0 n)).
Proof.
  intros Hn. apply NoDup_fmap_2_strong; [|apply NoDup_seq].
  intros x y Hx%elem_of_seq Hy%elem_of_seq. unfold MAX_SPANS in *.
  apply span_name_inj; unfold u64_max; lia.
Qed.

(** Compression returns on every input (no index out of range, no endless
    loop) and its view accounts for the records exactly: the view, in order, is
    made of records passed through verbatim and of one summary per range, and
    replacing each summary by the records of its range gives back the input,
    in order, nothing lost and nothing repeated. *)
Theorem compress_accounts rs tags now_ms w ranges gen mode :
  ∃ w1 res, compress_ranges_impl summarize rs tags now_ms w ranges gen mode = (w1, Returned res)
    ∧ ∀ v, res = Ok v → ∃ ps,
        map piece_record ps = view_records v ∧ concat (map piece_sources ps) = rs
        ∧ omap piece_span ps = spans v
        ∧ map source_ids (spans v) = map (λ r, map rec_id (slice rs r)) ranges
        ∧ (∀ s r covered, Summed s r covered ∈ ps →
             rec_id r = span_id s ∧ source_ids s = map rec_id covered).
Proof.
  destruct (compress_spec summarize rs tags now_ms w ranges gen mode)
    as (w1 & res & E & _ & H). exists w1, res. split; [done|]. intros v Hv.
  destruct (H v Hv) as (_ & synthetic & ps & Hs & _ & _ & H1 & H2 & H3 & H4 & _).
  exists ps. split_and!; try done; [by eapply spanned_sources|].
  intros s r covered Hin. rewrite Forall_forall in H4. specialize (H4 _ Hin). simpl in H4.
  split; apply H4.
Qed.

(** Compression never launders.  Every record of a compressed view is a source
    record unchanged, or the record of a span over source records that adds
    nothing but a bounded, non-blank text: it is untrusted exactly when one of its
    sources is, carries no supersede link and no body, has at most the effective
    priority of each source, the most restrictive retention class among them and
    the earliest collection time as its deadline. *)
Theorem compress_never_launders rs tags now_ms w w1 ranges gen mode v r :
  compress_ranges_impl summarize rs tags now_ms w ranges gen mode = (w1, Returned (Ok v)) →
  r ∈ view_records v →
  r ∈ rs ∨ ∃ s covered, s ∈ spans v ∧ covered ⊆ rs ∧ summarizes tags now_ms covered s r.
Proof.
  intros E Hr. destruct (compress_spec summarize rs tags now_ms w ranges gen mode)
    as (w2 & res & E2 & _ & H). rewrite E in E2. simplify_eq.
  destruct (H v eq_refl) as (_ & synthetic & ps & _ & _ & _ & H1 & H2 & H3 & H4 & _).
  rewrite <- H1 in Hr. apply list_elem_of_fmap in Hr as (p & -> & Hp).
  assert (piece_sources p ⊆ rs) as Hsub.
  { rewrite <- H2. intros x Hx. apply list_elem_of_In, in_concat. exists (piece_sources p).
    split; apply list_elem_of_In; [by apply list_elem_of_fmap_2|done]. }
  rewrite Forall_forall in H4. specialize (H4 p Hp). destruct p as [r|s r covered]; simpl in *.
  - left. apply Hsub. by left.
  - right. exists s, covered. split_and!; [|done|done]. rewrite <- H3.
    apply list_elem_of_omap. by eexists.
Qed.

Lemma spans_NoDup rs tags now_ms w ranges previous ss synthetic w' :
  len ranges ≤ MAX_SPANS → spanned summarize rs tags now_ms w 0 ranges previous ss synthetic w' →
  NoDup (map span_id ss).
Proof. intros Hl Hs. destruct (spanned_names _ _ _ _ _ _ _ _ _ _ Hs) as [-> _]. by apply names_NoDup. Qed.

(** What the summariser is told.  A successful compression made one call per
    range, in range order and nothing else, each naming exactly the ids and
    summaries of its range; on the legacy path no call sees an earlier summary,
    on the driver's path the first call sees the host's seed and every later
    call the summary just returned; the texts returned are the view's summaries. *)
Theorem compress_calls rs tags now_ms w w1 ranges gen mode v :
  compress_ranges_impl summarize rs tags now_ms w ranges gen mode = (w1, Returned (Ok v)) →
  let inputs := inputs_for rs now_ms 0 ranges (spans v) (next_previous mode) in
  calls_made w inputs (map span_summary (spans v)) w1
  ∧ map si_span_id inputs = map span_id (spans v)
  ∧ map si_source_ids inputs = map source_ids (spans v)
  ∧ map si_previous_summary inputs =
      match mode with
      | Absent => map (λ _, None) (spans v)
      | Chain seed => take (length (spans v)) (seed :: map (Some ∘ span_summary) (spans v))
      end.
Proof.
  intros E. destruct (compress_spec summarize rs tags now_ms w ranges gen mode)
    as (w2 & res & E2 & _ & H). rewrite E in E2. simplify_eq.
  destruct (H v eq_refl) as (_ & synthetic & ps & Hs & _).
  split; [by eapply spanned_calls|]. clear H E.
  assert (∀ w i ranges previous ss synthetic w',
    spanned summarize rs tags now_ms w i ranges previous ss synthetic w' →
    let inputs := inputs_for rs now_ms i ranges ss previous in
    map si_span_id inputs = map span_id ss ∧ map si_source_ids inputs = map source_ids ss
    ∧ map si_previous_summary inputs =
        match previous with
        | None => map (λ _, None) ss
        | Some seed => take (length ss) (seed :: map (Some ∘ span_summary) ss)
        end) as Hgen.
  { induction 1 as [|? ? ? ? previous ? ? ? ? ? ? ? Hsl ? ? ? ? ? (IH1 & IH2 & IH3)]; simpl.
    - by destruct previous.
    - rewrite IH1, IH2, IH3, Hsl. by destruct previous. }
  apply Hgen in Hs. by destruct mode.
Qed.

End Summaries.

(** ** The view is admissible *)

Lemma validate_records_complete rs :
  Forall (λ r, validate_record r = Ok tt) rs → validate_records rs = Ok tt.
Proof. induction 1 as [|r rs Hr _ IH]; simpl; [done|]. by rewrite Hr. Qed.

Lemma check_unique_ids_complete rs : ∀ seen,
  NoDup (map rec_id rs) → (∀ r, r ∈ rs → rec_id r ∉ seen) → check_unique_ids seen rs = Ok tt.
Proof.
  induction rs as [|r rs IH]; intros seen Hnd Hs; simpl in *; [done|].
  inversion Hnd as [|? ? Hn Hnd']; subst.
  rewrite bool_decide_eq_false_2 by (apply Hs; left). simpl. apply IH; [done|].
  intros x Hx [Heq|Hin]%elem_of_cons.
  - apply Hn. rewrite <- Heq. by apply list_elem_of_fmap_2.
  - eapply Hs; [by right|done].
Qed.

Lemma check_generations_complete g rs :
  Forall (λ r, r.(rec_generation) = g) rs → check_generations g rs = Ok tt.
Proof. induction 1 as [|r rs Hr _ IH]; simpl; [done|]. by rewrite Hr, Z.eqb_refl. Qed.

Lemma precheck_records_complete rs q :
  len rs ≤ MAX_CONTEXT_RECORDS → Forall (λ r, validate_record r = Ok tt) rs →
  NoDup (map rec_id rs) → Forall (λ r, r.(rec_generation) = q.(current_generation)) rs →
  precheck_records rs q = Ok tt.
Proof.
  intros Hl Hv Hn Hg. unfold precheck_records.
  replace (len rs >? MAX_CONTEXT_RECORDS) with false by (symmetry; rewrite Z.gtb_ltb; by apply Z.ltb_ge).
  simpl. rewrite validate_records_complete by done.
  rewrite check_unique_ids_complete; [by apply check_generations_complete|done|].
  intros r _ Hr. by apply elem_of_nil in Hr.
Qed.

Lemma summarizes_valid tags now_ms covered s r :
  summarizes tags now_ms covered s r → Forall (λ x, validate_record x = Ok tt) covered →
  validate_record r = Ok tt.
Proof.
  intros [_ (_ & Hsum & Hbody & _) (_ & Htext) _ _ _ _ _ (x & Hx & Hp & _) _] Hf.
  destruct covered as [|y covered]; [done|]. simpl in Hx. simplify_eq.
  inversion Hf as [|? ? Hv _]; subst. unfold validate_record in *. rewrite Hp, Hsum, Hbody.
  case_if_in Hv; [|done]. rewrite len_nil. simpl.
  replace (slen (span_summary s) >? MAX_SUMMARY_BYTES) with false; [done|].
  symmetry. rewrite Z.gtb_ltb. by apply Z.ltb_ge.
Qed.

(** Ids of the view: kept ids are sources, span ids are distinct and fresh. *)
Lemma pieces_NoDup tags now_ms ps :
  Forall (piece_ok tags now_ms) ps →
  NoDup (map rec_id (concat (map piece_sources ps))) →
  NoDup (map span_id (omap piece_span ps)) →
  (∀ s, s ∈ omap piece_span ps → span_id s ∉ map rec_id (concat (map piece_sources ps))) →
  NoDup (map rec_id (map piece_record ps)).
Proof.
  set (ids ps := map rec_id (concat (map piece_sources ps))).
  assert (∀ ps id, Forall (piece_ok tags now_ms) ps → id ∈ map rec_id (map piece_record ps) →
    id ∈ ids ps ∨ id ∈ map span_id (omap piece_span ps)) as Hsrc.
  { clear ps. induction ps as [|p ps IH]; intros id Hok Hid; [by apply elem_of_nil in Hid|].
    inversion Hok as [|? ? Hp Hps]; subst.
    assert (ids (p :: ps) = map rec_id (piece_sources p) ++ ids ps) as -> by apply map_app.
    apply elem_of_cons in Hid as [->|Hid].
    - destruct p as [r|s r covered]; simpl; [left; by left|].
      right. destruct Hp as [_ (-> & _) _ _ _ _ _ _ _ _]. by left.
    - destruct (IH id Hps Hid) as [Hi|Hi]; [left; apply elem_of_app; by right|right].
      destruct p; csimpl; [done|by right]. }
  induction ps as [|p ps IH]; intros Hok Hn Hs Hf; [constructor|].
  inversion Hok as [|? ? Hp Hps]; subst.
  assert (ids (p :: ps) = map rec_id (piece_sources p) ++ ids ps) as Hids by apply map_app.
  fold (ids (p :: ps)) in Hn, Hf. rewrite Hids in Hn, Hf. apply NoDup_app in Hn as (Hn1 & Hn2 & Hn3).
  assert (NoDup (map rec_id (map piece_record ps))) as Hrest.
  { apply IH; [done|done| |].
    - destruct p; csimpl in Hs; [done|]. by inversion Hs.
    - intros s' Hs' Hin. apply (Hf s'); [|apply elem_of_app; by right].
      destruct p; csimpl; [done|by right]. }
  simpl. constructor; [|done]. intros [Hin|Hin]%Hsrc; [..|done].
  - destruct p as [r|s r covered]; simpl in *.
    + by apply (Hn2 (rec_id r)); [left|].
    + destruct Hp as [_ (Hid & _) _ _ _ _ _ _ _ _]. rewrite Hid in Hin.
      apply (Hf s); [csimpl; by left|]. apply elem_of_app. by right.
  - destruct p as [r|s r covered]; simpl in *.
    + apply list_elem_of_fmap in Hin as (s' & Hid & Hs'). apply (Hf s'); [done|].
      rewrite <- Hid. by left.
    + destruct Hp as [_ (Hid & _) _ _ _ _ _ _ _ _]. rewrite Hid in Hin.
      csimpl in Hs. by inversion Hs.
Qed.

Lemma pieces_length tags now_ms ps : Forall (piece_ok tags now_ms) ps →
  len (map piece_record ps) ≤ len (concat (map piece_sources ps)).
Proof.
  induction 1 as [|p ps Hp _ IH]; simpl; [done|]. rewrite len_cons, len_app.
  assert (1 ≤ len (piece_sources p)); [|lia].
  destruct p as [r|s r covered]; simpl; [by rewrite len_cons, len_nil|].
  destruct Hp as [[Hne _] _ _ _ _ _ _ _ _ _]. destruct covered; [done|].
  rewrite len_cons. pose proof (len_nonneg covered). lia.
Qed.

Lemma pieces_forall (P : ContextRecord → Prop) tags now_ms ps :
  (∀ covered s r, summarizes tags now_ms covered s r → Forall P covered → P r) →
  Forall (piece_ok tags now_ms) ps → Forall P (concat (map piece_sources ps)) →
  Forall P (map piece_record ps).
Proof.
  intros Hsum. induction 1 as [|p ps Hp _ IH]; simpl; intros HP; [constructor|].
  apply Forall_app in HP as [HP1 HP2]. constructor; [|auto].
  destruct p as [r|s r covered]; simpl in *; [by inversion HP1|by eapply Hsum].
Qed.

(** A compressed view feeds straight into assembly.  If the records pass the
    admission checks of [assemble] (count, validity, unique ids, generation), then
    so does the view of any successful compression of them: summaries are valid
    records of the same generation, and their ids collide with nothing. *)
Theorem compress_feeds_assemble {W} (summarize : SummarizeFn W) rs tags now_ms w w1 ranges gen mode v q :
  precheck_records rs q = Ok tt →
  compress_ranges_impl summarize rs tags now_ms w ranges gen mode = (w1, Returned (Ok v)) →
  precheck_records (view_records v) q = Ok tt.
Proof.
  intros Hpre E. destruct (precheck_records_ok _ _ _ Hpre) as (Hl & Hv & Hn & Hg).
  destruct (compress_spec summarize rs tags now_ms w ranges gen mode)
    as (w2 & res & E2 & _ & H). rewrite E in E2. simplify_eq.
  destruct (H v eq_refl) as (Hp & synthetic & ps & Hs & _ & _ & <- & H2 & H3 & H4 & _).
  destruct (precheck_ranges_ok _ _ _ _ Hp) as (_ & _ & Hr & _).
  apply precheck_records_complete.
  - etrans; [by apply (pieces_length tags now_ms)|]. by rewrite H2.
  - eapply pieces_forall; [intros; by eapply summarizes_valid|done|by rewrite H2].
  - eapply pieces_NoDup; [done|by rewrite H2|rewrite H3; by eapply spans_NoDup|].
    rewrite H2, H3. apply (spanned_names _ _ _ _ _ _ _ _ _ _ _ Hs).
  - eapply pieces_forall; [|done|by rewrite H2]. intros covered s r Hsum Hc. simpl.
    apply (sum_generation _ _ _ _ _ Hsum). by apply Forall_forall.
Qed.

(** ** Witnesses *)

Definition sample_script : FakeSummarizer := mkFakeSummarizer ["first part"; "second part"] 0.
Definition sample_ranges : list SpanRange := [mkRange 0 2; mkRange 3 4].
Definition sample_tags : RetentionTags := tags_set tags_new "r1" RetEphemeral.

Definition sample_compression :=
  compress_records_at FakeSummarizer_summarize sample_records sample_tags 500 sample_script
    sample_ranges (Some 1).

Definition sample_view : CompressedView :=
  match sample_compression.2 with Returned (Ok v) => v | _ => mkView [] [] [] [] end.

Lemma sample_compression_ok : sample_compression = (mkFakeSummarizer (scripted sample_script) 2, Returned (Ok sample_view)).
Proof. vm_compute. reflexivity. Qed.

Example sample_view_shape :
  map rec_id (view_records sample_view) = ["cmp-0000"; "r2"; "cmp-0001"]
  ∧ map source_ids (spans sample_view) = [["r0"; "r1"]; ["r3"]]
  ∧ map span_untrusted (spans sample_view) = [true; false]
  ∧ map retention (spans sample_view) = [RetEphemeral; RetNormal].
Proof. vm_compute. done. Qed.

Lemma compress_never_launders_witness :
  ∃ r, head (view_records sample_view) = Some r ∧ rec_untrusted r = true
    ∧ (r ∈ sample_records ∨ ∃ s covered, s ∈ spans sample_view ∧ covered ⊆ sample_records
       ∧ summarizes sample_tags 500 covered s r).
Proof.
  eexists. split; [vm_compute; reflexivity|]. split; [reflexivity|].
  apply (compress_never_launders FakeSummarizer_summarize sample_records sample_tags 500 sample_script
           _ sample_ranges (Some 1) Absent sample_view _ sample_compression_ok).
  vm_compute. by left.
Defined.

Lemma compress_calls_witness :
  let inputs := inputs_for sample_records 500 0 sample_ranges (spans sample_view) (next_previous Absent) in
  calls_made FakeSummarizer_summarize sample_script inputs (map span_summary (spans sample_view))
    (mkFakeSummarizer (scripted sample_script) 2)
  ∧ map si_span_id inputs = map span_id (spans sample_view)
  ∧ map si_source_ids inputs = map source_ids (spans sample_view)
  ∧ map si_previous_summary inputs = map (λ _, None) (spans sample_view).
Proof.
  exact (compress_calls FakeSummarizer_summarize sample_records sample_tags 500 sample_script _
           sample_ranges (Some 1) Absent sample_view sample_compression_ok).
Defined.

Lemma compress_feeds_assemble_witness :
  let q := mkContextRequest None None 1 in
  precheck_records sample_records q = Ok tt ∧ precheck_records (view_records sample_view) q = Ok tt.
Proof.
  split; [reflexivity|].
  eapply (compress_feeds_assemble FakeSummarizer_summarize sample_records sample_tags 500 sample_script
            _ sample_ranges (Some 1) Absent sample_view); [reflexivity|exact sample_compression_ok].
Defined.
