(* ===== verification/Retention.v ===== *)
(** * Retention: the life of a compressed view

    Theorems about the deletion and expiry operations of [Compression.v] over
    every history of a view: what was deleted stays deleted, together with every
    summary derived from it, and no summary outlives one of its sources. *)

From S2P Require Import Prelude Text ToolTypes Context Assembly Compression CompressionFacts.

Local Open Scope Z_scope.

(** ** Helpers *)

Lemma has_str_true l s : has_str l s = true ↔ s ∈ l.
Proof.
  unfold has_str. rewrite existsb_true_iff. setoid_rewrite str_eqb_eq. split.
  - by intros (x & Hx & ->).
  - eauto.
Qed.

Lemma has_str_false l s : has_str l s = false ↔ s ∉ l.
Proof. rewrite <- has_str_true. by destruct (has_str l s). Qed.

Lemma add_tombstones_elem ids : ∀ tombs id,
  id ∈ add_tombstones tombs ids ↔ id ∈ tombs ∨ id ∈ ids.
Proof.
  unfold add_tombstones. induction ids as [|x ids IH]; intros tombs id; simpl.
  - rewrite elem_of_nil. tauto.
  - rewrite IH, elem_of_cons. destruct (has_str tombs x) eqn:E.
    + apply has_str_true in E. naive_solver.
    + rewrite elem_of_app, list_elem_of_singleton. tauto.
Qed.

Lemma span_hit_false ids s :
  span_hit ids s = false ↔ (∀ id, id ∈ source_ids s → id ∉ ids) ∧ span_id s ∉ ids.
Proof.
  unfold span_hit. rewrite orb_false_iff, has_str_false, existsb_false_iff.
  by setoid_rewrite has_str_false.
Qed.

(** ** The record loop of expiry *)

Section Retain.
Context (p : RetentionPolicy) (now_ms : Z) (tags : RetentionTags) (live dropped : list string).

Definition record_kept (r : ContextRecord) : bool :=
  has_str live r.(rec_id)
  || negb (has_str dropped r.(rec_id)
           || over_ttl p (tags_get tags r.(rec_id)) r.(collected_at_ms) now_ms).

Lemma retain_records_spec rs :
  retain_records p now_ms tags live dropped rs
  = (List.filter record_kept rs,
     map rec_id (List.filter (λ r, negb (record_kept r) && negb (has_str dropped r.(rec_id))) rs)).
Proof.
  induction rs as [|r rs IH]; simpl; [done|]. rewrite IH. unfold record_kept.
  destruct (has_str live (rec_id r)); simpl; [done|].
  destruct (has_str dropped (rec_id r)); simpl; [done|].
  by destruct (over_ttl _ _ _ _).
Qed.

End Retain.

(** ** Histories *)

Inductive ViewOp :=
| DeleteIds (ids : list string)
| ApplyRetention (p : RetentionPolicy) (now_ms : Z).

Definition view_step (v : CompressedView) (op : ViewOp) : CompressedView :=
  match op with
  | DeleteIds ids => (delete_ids v ids).1
  | ApplyRetention p now_ms => (apply_retention v p now_ms).1
  end.

Definition view_history (v : CompressedView) (ops : list ViewOp) : CompressedView :=
  fold_left view_step ops v.

(** Ids deleted by a history. *)
Definition deleted_by (ops : list ViewOp) : list string :=
  concat (map (λ op, match op with DeleteIds ids => ids | ApplyRetention _ _ => [] end) ops).

(** The invariant, relative to the names of all spans there ever were. *)
Record view_inv (names : list string) (v : CompressedView) : Prop := {
  inv_span_ids : NoDup (map span_id (spans v));
  inv_record_ids : NoDup (map rec_id (view_records v));
  inv_names : map span_id (spans v) ⊆ names;
  inv_summaries : ∀ r, r ∈ view_records v → rec_id r ∈ names → rec_id r ∈ map span_id (spans v);
  inv_sources : ∀ s id, s ∈ spans v → id ∈ source_ids s →
    (id ∉ tombstones v) ∧ (id ∉ map rec_id (view_records v)) ∧ (id ∉ names);
  inv_tombstones : ∀ id, id ∈ tombstones v →
    (id ∉ map span_id (spans v)) ∧ (id ∉ map rec_id (view_records v))
}.

(** Nothing comes back: a step only removes. *)
Definition shrinks (v v' : CompressedView) : Prop :=
  view_records v' `sublist_of` view_records v ∧ spans v' `sublist_of` spans v
  ∧ tombstones v ⊆ tombstones v'.

Lemma NoDup_filter_disjoint {A} (f : A → string) (keep : A → bool) l x y :
  NoDup (map f l) → x ∈ l → y ∈ l → keep x = true → keep y = false → f x ≠ f y.
Proof.
  intros Hn Hx Hy Hkx Hky Heq.
  apply list_elem_of_lookup in Hx as [i Hi]. apply list_elem_of_lookup in Hy as [j Hj].
  assert (i = j) as ->; [|congruence].
  eapply (NoDup_lookup (f <$> l)); [exact Hn| |]; rewrite list_lookup_fmap.
  - by rewrite Hi.
  - by rewrite Hj, Heq.
Qed.

(** Dropping spans and records keeps the invariant, when summaries go with their
    spans and new tombstones name nothing that stays. *)
Lemma view_inv_shrink names v rs' keep tombs' :
  view_inv names v → rs' `sublist_of` view_records v →
  let ss' := List.filter keep (spans v) in
  (∀ r s, r ∈ rs' → s ∈ spans v → keep s = false → rec_id r ≠ span_id s) →
  (∀ id, id ∈ tombs' → id ∈ tombstones v
     ∨ ((id ∉ map span_id ss') ∧ (id ∉ map rec_id rs') ∧ ∀ s, s ∈ ss' → id ∉ source_ids s)) →
  view_inv names (mkView rs' ss' tombs' (view_tags v)).
Proof.
  intros [H1 H2 H3 H4 H5 H6] Hr ss' Hgone Ht.
  pose proof (sublist_List_filter keep (spans v)) as Hs. fold ss' in Hs.
  pose proof (sublist_map span_id _ _ Hs) as Hsi. pose proof (sublist_map rec_id _ _ Hr) as Hri.
  split; simpl.
  - exact (sublist_NoDup _ _ H1 Hsi).
  - exact (sublist_NoDup _ _ H2 Hri).
  - intros x Hx. apply H3. by eapply sublist_elem.
  - intros r Hin Hname. pose proof (H4 r (sublist_elem _ _ _ Hr Hin) Hname) as Hlive.
    apply list_elem_of_fmap in Hlive as (s & Heq & Hsin). rewrite Heq.
    apply list_elem_of_fmap_2, List_filter_elem. split; [done|].
    destruct (keep s) eqn:Ek; [done|]. by destruct (Hgone r s Hin Hsin Ek).
  - intros s id Hsin Hid. destruct (H5 s id (sublist_elem _ _ _ Hs Hsin) Hid) as (Ha & Hb & Hc).
    split_and!; [| |done].
    + intros [?|(_ & _ & Hno)]%Ht; [done|]. by eapply Hno.
    + intros ?. apply Hb. by eapply sublist_elem.
  - intros id [Hin|(Ha & Hb & _)]%Ht; [|done]. destruct (H6 id Hin) as [Ha Hb].
    split; intros ?; [apply Ha|apply Hb]; by eapply sublist_elem.
Qed.

Lemma delete_ids_inv names v ids : view_inv names v → view_inv names (delete_ids v ids).1.
Proof.
  intros Hinv. unfold delete_ids. cbn [fst]. apply view_inv_shrink; [done|apply sublist_List_filter|..].
  - intros r s [_ Hk]%List_filter_elem Hs Hhit Heq. reflect_bools.
    rewrite has_str_false in H0. apply H0. rewrite Heq.
    by apply list_elem_of_fmap_2, List_filter_elem.
  - intros id [?|Hid]%add_tombstones_elem; [by left|right]. split_and!.
    + intros (s & -> & [_ Hk]%List_filter_elem)%list_elem_of_fmap. reflect_bools.
      by apply span_hit_false in Hk as [_ ?].
    + intros (r & -> & [_ Hk]%List_filter_elem)%list_elem_of_fmap. reflect_bools.
      by rewrite has_str_false in H.
    + intros s [_ Hk]%List_filter_elem Hin. reflect_bools.
      apply span_hit_false in Hk as [Hk _]. by eapply Hk.
Qed.

Lemma apply_retention_eq v p now_ms :
  let dropped := map span_id (List.filter (span_over p now_ms) (spans v)) in
  let live := List.filter (λ s, negb (span_over p now_ms s)) (spans v) in
  let keep := record_kept p now_ms (view_tags v) (map span_id live) dropped in
  apply_retention v p now_ms =
  let expired := dropped ++ map rec_id (List.filter
        (λ r, negb (keep r) && negb (has_str dropped (rec_id r))) (view_records v)) in
  (mkView (List.filter keep (view_records v)) live (add_tombstones (tombstones v) expired)
     (view_tags v), expired).
Proof. unfold apply_retention. by rewrite retain_records_spec. Qed.

Lemma apply_retention_inv names v p now_ms :
  view_inv names v → view_inv names (apply_retention v p now_ms).1.
Proof.
  intros Hinv. rewrite apply_retention_eq.
  set (dropped := map span_id (List.filter (span_over p now_ms) (spans v))).
  set (live := List.filter (λ s, negb (span_over p now_ms s)) (spans v)).
  set (keep := record_kept p now_ms (view_tags v) (map span_id live) dropped).
  destruct Hinv as [H1 H2 H3 H4 H5 H6] eqn:Hi. clear Hi.
  assert (∀ id, id ∈ dropped → id ∉ map span_id live) as Hdisj.
  { intros id (s & -> & [Hs Hover]%List_filter_elem)%list_elem_of_fmap
      (s' & Heq & [Hs' Hlive]%List_filter_elem)%list_elem_of_fmap.
    revert Heq. apply (NoDup_filter_disjoint span_id (span_over p now_ms) (spans v)); [done..|].
    by apply negb_true_iff. }
  cbn [fst]. apply view_inv_shrink; [done|apply sublist_List_filter|..]; fold live.
  - intros r s [Hr Hk]%List_filter_elem Hs Hover%negb_false_iff Heq.
    assert (rec_id r ∈ dropped) as Hd.
    { rewrite Heq. by apply list_elem_of_fmap_2, List_filter_elem. }
    unfold keep, record_kept in Hk. rewrite (proj2 (has_str_true dropped _) Hd) in Hk.
    rewrite orb_false_r in Hk. apply has_str_true in Hk. by eapply Hdisj.
  - intros id [?|[Hid|Hid]%elem_of_app]%add_tombstones_elem; [by left|right|right].
    + split_and!; [by apply Hdisj| |].
      * intros (r & -> & [Hr Hk]%List_filter_elem)%list_elem_of_fmap.
        unfold keep, record_kept in Hk. rewrite (proj2 (has_str_true dropped _) Hid) in Hk.
        rewrite orb_false_r in Hk. apply has_str_true in Hk. by eapply Hdisj.
      * intros s [Hs _]%List_filter_elem Hin. destruct (H5 s id Hs Hin) as (_ & _ & Hn).
        apply Hn, H3. apply list_elem_of_fmap in Hid as (s' & -> & [Hs' _]%List_filter_elem).
        by apply list_elem_of_fmap_2.
    + apply list_elem_of_fmap in Hid as (r & -> & [Hr Hk]%List_filter_elem). reflect_bools.
      assert (rec_id r ∉ map span_id live) as Hnl.
      { unfold keep, record_kept in H. apply orb_false_iff in H as [H _]. by apply has_str_false. }
      split_and!; [done| |].
      * intros (r' & Heq & [Hr' Hk']%List_filter_elem)%list_elem_of_fmap. symmetry in Heq. revert Heq.
        by apply (NoDup_filter_disjoint rec_id keep (view_records v)).
      * intros s [Hs _]%List_filter_elem Hin. destruct (H5 s _ Hs Hin) as (_ & Hn & _).
        apply Hn. by apply list_elem_of_fmap_2.
Qed.

Lemma view_step_inv names v op : view_inv names v → view_inv names (view_step v op).
Proof. destruct op; [apply delete_ids_inv|apply apply_retention_inv]. Qed.

Lemma view_step_shrinks v op : shrinks v (view_step v op).
Proof.
  destruct op as [ids|p now_ms]; simpl.
  - split_and!; simpl; [apply sublist_List_filter..|]. intros id Hid.
    apply add_tombstones_elem. by left.
  - rewrite apply_retention_eq. split_and!; simpl; [apply sublist_List_filter..|].
    intros id Hid. apply add_tombstones_elem. by left.
Qed.

Lemma view_history_inv names ops : ∀ v, view_inv names v → view_inv names (view_history v ops).
Proof. induction ops as [|op ops IH]; intros v Hv; [done|]. by apply IH, view_step_inv. Qed.

Lemma view_history_shrinks ops : ∀ v, shrinks v (view_history v ops).
Proof.
  induction ops as [|op ops IH]; intros v; [by split_and!|].
  destruct (IH (view_step v op)) as (H1 & H2 & H3).
  destruct (view_step_shrinks v op) as (H4 & H5 & H6). split_and!; [by etrans..|].
  simpl. by etrans.
Qed.

Lemma view_history_tombs ops : ∀ v id, id ∈ deleted_by ops → id ∈ tombstones (view_history v ops).
Proof.
  induction ops as [|op ops IH]; intros v id Hid; [by apply elem_of_nil in Hid|].
  unfold deleted_by in Hid. simpl in Hid. apply elem_of_app in Hid as [Hid|Hid]; [|by apply IH].
  destruct op as [ids|]; [|by apply elem_of_nil in Hid].
  destruct (view_history_shrinks ops (view_step v (DeleteIds ids))) as (_ & _ & Hsub).
  apply Hsub. simpl. apply add_tombstones_elem. by right.
Qed.

Lemma NoDup_concat_disjoint {A B} (f : A → list B) l x y b :
  NoDup (concat (map f l)) → x ∈ l → y ∈ l → x ≠ y → b ∈ f x → b ∉ f y.
Proof.
  assert (∀ l z, z ∈ l → b ∈ f z → b ∈ concat (map f l)) as Hc.
  { intros l' z Hz Hb. apply list_elem_of_In, in_concat. exists (f z).
    split; apply list_elem_of_In; [by apply list_elem_of_fmap_2|done]. }
  induction l as [|z l IH]; simpl; intros Hn Hx Hy Hne Hbx Hby; [by apply elem_of_nil in Hx|].
  apply NoDup_app in Hn as (_ & Hd & Hn).
  apply elem_of_cons in Hx as [->|Hx]; apply elem_of_cons in Hy as [->|Hy]; [done|..].
  - by apply (Hd b Hbx), (Hc l y).
  - by apply (Hd b Hby), (Hc l x).
  - by apply IH.
Qed.

(** The ids a span covers are not ids of the view. *)
Lemma pieces_sources_gone tags now_ms ps s id :
  Forall (piece_ok tags now_ms) ps →
  NoDup (map rec_id (concat (map piece_sources ps))) →
  (∀ s, s ∈ omap piece_span ps → span_id s ∉ map rec_id (concat (map piece_sources ps))) →
  s ∈ omap piece_span ps → id ∈ source_ids s →
  id ∈ map rec_id (concat (map piece_sources ps)) ∧ (id ∉ map rec_id (map piece_record ps)).
Proof.
  intros Hok Hn Hfresh (p & Hp & Hps)%list_elem_of_omap Hid. rewrite Forall_forall in Hok.
  destruct p as [|s' r covered]; simpl in Hps; [done|]. simplify_eq.
  destruct (sum_sources _ _ _ _ _ (Hok _ Hp)) as [_ Hsrc]. rewrite Hsrc in Hid.
  assert (id ∈ map rec_id (concat (map piece_sources ps))) as Hall.
  { apply list_elem_of_fmap in Hid as (x & -> & Hx). apply list_elem_of_fmap_2.
    apply list_elem_of_In, in_concat. exists covered.
    split; apply list_elem_of_In; [|done]. by apply (list_elem_of_fmap_2 piece_sources _ (Summed s r covered)). }
  split; [done|]. intros (x & Hx & (q & -> & Hq)%list_elem_of_fmap)%list_elem_of_fmap.
  rewrite concat_map, map_map in Hn. destruct q as [r'|s' r' covered']; simpl in Hx.
  - refine (NoDup_concat_disjoint _ ps _ (Kept r') id Hn Hp Hq ltac:(done) Hid _).
    simpl. rewrite Hx. by left.
  - destruct (sum_record _ _ _ _ _ (Hok _ Hq)) as [Hr _]. rewrite Hr in Hx.
    apply (Hfresh s'); [|by rewrite <- Hx]. apply list_elem_of_omap. by eexists.
Qed.

(** The invariant holds of the view a compression returns. *)
Lemma compress_view_inv {W} (summarize : SummarizeFn W) rs tags now_ms w w1 ranges gen mode v :
  NoDup (map rec_id rs) →
  compress_ranges_impl summarize rs tags now_ms w ranges gen mode = (w1, Returned (Ok v)) →
  view_inv (map span_id (spans v)) v.
Proof.
  intros Hn E. destruct (compress_spec summarize rs tags now_ms w ranges gen mode)
    as (w2 & res & E2 & _ & H). rewrite E in E2. simplify_eq.
  destruct (H v eq_refl) as (Hp & synthetic & ps & Hs & Ht & _ & H1 & <- & H3 & H4 & _).
  destruct (precheck_ranges_ok _ _ _ _ Hp) as (_ & _ & Hr & _).
  destruct (spanned_names _ _ _ _ _ _ _ _ _ _ _ Hs) as [_ Hfresh].
  pose proof (spans_NoDup _ _ _ _ _ _ _ _ _ _ Hr Hs) as Hsn.
  rewrite <- H3 in Hfresh.
  split; [done| |done|by intros| |]; rewrite ?Ht.
  - rewrite <- H1. eapply pieces_NoDup; [done..|by rewrite H3|done].
  - intros s id Hsin Hid. rewrite <- H1. rewrite <- H3 in Hsin.
    destruct (pieces_sources_gone _ _ _ _ _ H4 Hn Hfresh Hsin Hid) as [Hin Hout].
    split_and!; [by apply not_elem_of_nil|done|].
    intros (s' & -> & Hs')%list_elem_of_fmap. rewrite <- H3 in Hs'. by eapply Hfresh.
  - intros id Hid. by apply elem_of_nil in Hid.
Qed.

Lemma resolve_summary_dead v id : id ∉ map span_id (spans v) →
  resolve_summary v id = Err (SummaryUnavailable id
    (if has_str (tombstones v) id then "deleted or expired" else "unknown")).
Proof.
  intros Hn. unfold resolve_summary. destruct (find _ (spans v)) as [s|] eqn:E.
  - apply find_Some_elem in E as [Hs Heq%str_eqb_eq]. destruct Hn. rewrite <- Heq.
    by apply list_elem_of_fmap_2.
  - by destruct (has_str _ _).
Qed.

(** ** Properties *)

(** Deletion is final and reaches every summary.  Over any history of deletions
    and expiry sweeps of a compressed view, an id that was deleted resolves to a
    typed absence and names no record; and every summary whose span covered it is
    gone as well: its record is not in the view, its text cannot be resolved. *)
Theorem deletion_reaches_summaries {W} (summarize : SummarizeFn W) rs tags now_ms w w1 ranges gen
    mode v ops id :
  NoDup (map rec_id rs) →
  compress_ranges_impl summarize rs tags now_ms w ranges gen mode = (w1, Returned (Ok v)) →
  id ∈ deleted_by ops →
  let v' := view_history v ops in
  resolve_summary v' id = Err (SummaryUnavailable id "deleted or expired")
  ∧ (id ∉ map rec_id (view_records v'))
  ∧ ∀ s, s ∈ spans v → id ∈ source_ids s →
      (span_id s ∉ map rec_id (view_records v')) ∧ is_ok (resolve_summary v' (span_id s)) = false.
Proof.
  intros Hn E Hid v'. pose proof (compress_view_inv _ _ _ _ _ _ _ _ _ _ Hn E) as Hinv0.
  pose proof (view_history_inv _ ops _ Hinv0) as Hinv. fold v' in Hinv.
  destruct (view_history_shrinks ops v) as (_ & Hsub & _). fold v' in Hsub.
  pose proof (view_history_tombs ops v id Hid) as Ht. fold v' in Ht.
  destruct (inv_tombstones _ _ Hinv id Ht) as [Hs Hr]. split_and!; [|done|].
  - rewrite resolve_summary_dead by done. by rewrite (proj2 (has_str_true _ _) Ht).
  - intros s Hsv Hsrc. assert (span_id s ∉ map span_id (spans v')) as Hdead.
    { intros (s' & Heq & Hs')%list_elem_of_fmap.
      assert (s = s') as <-.
      { eapply (NoDup_map_eq span_id (spans v)); [apply Hinv0|done|by eapply sublist_elem|done]. }
      by destruct (inv_sources _ _ Hinv s id Hs' Hsrc) as [? _]. }
    split.
    + intros (r & Heq & Hrin)%list_elem_of_fmap. apply Hdead. rewrite Heq.
      apply (inv_summaries _ _ Hinv r Hrin). rewrite <- Heq. by apply list_elem_of_fmap_2.
    + by rewrite resolve_summary_dead.
Qed.

(** A policy under which a more restrictive class never lives longer. *)
Definition ttl_le (a b : option Z) : Prop :=
  match a, b with Some x, Some y => x ≤ y | _, None => True | None, Some _ => False end.
Definition policy_monotone (p : RetentionPolicy) : Prop :=
  ∀ a b, restrictiveness a ≤ restrictiveness b → ttl_le (ttl_for p b) (ttl_for p a).

Lemma default_policy_monotone : policy_monotone RetentionPolicy_default.
Proof. intros [] []; simpl; lia. Qed.

Lemma over_ttl_mono p a b since_a since_b now_ms :
  policy_monotone p → restrictiveness a ≤ restrictiveness b → since_b ≤ since_a →
  over_ttl p a since_a now_ms = true → over_ttl p b since_b now_ms = true.
Proof.
  intros Hp Hr Hs. specialize (Hp a b Hr). unfold over_ttl, ttl_le in *.
  destruct (ttl_for p a), (ttl_for p b); try done. rewrite !Z.gtb_ltb, !Z.ltb_lt. lia.
Qed.

Lemma view_tags_history ops : ∀ v, view_tags (view_history v ops) = view_tags v.
Proof.
  induction ops as [|op ops IH]; intros v; [done|]. simpl. rewrite IH. destruct op; [done|].
  simpl. by rewrite apply_retention_eq.
Qed.

(** Compression never extends retention.  Under a policy in which more
    restrictive classes live no longer (the default one is), after any history and
    an expiry sweep at [now], every source of every summary still in the view is
    itself within its time to live at [now], and so is every record that was
    passed through: the sweep leaves nothing expired behind, summarised or not. *)
Theorem compression_never_extends_retention {W} (summarize : SummarizeFn W) rs tags now_ms w w1
    ranges gen mode v ops p now :
  NoDup (map rec_id rs) → policy_monotone p →
  compress_ranges_impl summarize rs tags now_ms w ranges gen mode = (w1, Returned (Ok v)) →
  let v' := view_step (view_history v ops) (ApplyRetention p now) in
  (∀ s x, s ∈ spans v' → x ∈ rs → rec_id x ∈ source_ids s →
     over_ttl p (tags_get tags (rec_id x)) (collected_at_ms x) now = false)
  ∧ (∀ r, r ∈ view_records v' → rec_id r ∈ map span_id (spans v')
       ∨ over_ttl p (tags_get tags (rec_id r)) (collected_at_ms r) now = false).
Proof.
  intros Hn Hp E. destruct (compress_spec summarize rs tags now_ms w ranges gen mode)
    as (w2 & res & E2 & _ & H). rewrite E in E2. simplify_eq.
  destruct (H v eq_refl) as (_ & synthetic & ps & _ & _ & Htags & _ & H2 & H3 & H4 & _).
  destruct (view_history_shrinks ops v) as (_ & Hsub & _).
  pose proof (view_tags_history ops v) as Ht. rewrite Htags in Ht.
  cbn [view_step]. rewrite apply_retention_eq, Ht. cbn [fst spans view_records]. split.
  - intros s x [Hs Hover]%List_filter_elem Hx Hsrc. apply (sublist_elem _ _ _ Hsub) in Hs.
    rewrite <- H3 in Hs. apply list_elem_of_omap in Hs as ([|s' r covered] & Hq & Heq); simpl in Heq; [done|].
    injection Heq as ->. rewrite Forall_forall in H4. specialize (H4 _ Hq) as Hsum. simpl in Hsum.
    destruct (sum_sources _ _ _ _ _ Hsum) as [_ Hids]. rewrite Hids in Hsrc.
    apply list_elem_of_fmap in Hsrc as (y & Hxy & Hy).
    assert (y ∈ concat (map piece_sources ps)) as Hyr.
    { apply list_elem_of_In, in_concat. exists covered. split; apply list_elem_of_In; [|done].
      by apply (list_elem_of_fmap_2 piece_sources _ (Summed s r covered)). }
    rewrite H2 in Hyr. pose proof (NoDup_map_eq rec_id rs x y Hn Hx Hyr Hxy) as ->.
    destruct (over_ttl p (tags_get tags (rec_id y)) (collected_at_ms y) now) eqn:Eo; [|done].
    unfold span_over in Hover. rewrite (over_ttl_mono p (tags_get tags (rec_id y)) _ (collected_at_ms y)) in Hover; [done|done|..].
    + by apply (sum_retention _ _ _ _ _ Hsum).
    + by apply (sum_deadline _ _ _ _ _ Hsum).
    + done.
  - intros r [_ Hk]%List_filter_elem. unfold record_kept in Hk. apply orb_true_iff in Hk as [Hk|Hk].
    + left. by apply has_str_true.
    + right. reflect_bools. done.
Qed.

(** ** Witnesses *)

Lemma sample_ids : NoDup (map rec_id sample_records).
Proof. apply NoDup_ListNoDup. repeat constructor; simpl; intuition congruence. Qed.

Lemma deletion_reaches_summaries_witness :
  let v' := view_history sample_view [ApplyRetention RetentionPolicy_default 600; DeleteIds ["r3"]] in
  map rec_id (view_records v') = ["cmp-0000"; "r2"]
  ∧ resolve_summary v' "r3" = Err (SummaryUnavailable "r3" "deleted or expired")
  ∧ ("r3" ∉ map rec_id (view_records v'))
  ∧ ∀ s, s ∈ spans sample_view → "r3" ∈ source_ids s →
      (span_id s ∉ map rec_id (view_records v')) ∧ is_ok (resolve_summary v' (span_id s)) = false.
Proof.
  split; [vm_compute; reflexivity|].
  apply (deletion_reaches_summaries FakeSummarizer_summarize sample_records sample_tags 500 sample_script
           _ sample_ranges (Some 1) Absent sample_view _ _ sample_ids sample_compression_ok).
  vm_compute. by left.
Defined.

Lemma compression_never_extends_retention_witness :
  let v' := view_step (view_history sample_view []) (ApplyRetention RetentionPolicy_default 300011) in
  map rec_id (view_records v') = ["r2"; "cmp-0001"]
  ∧ (∀ s x, s ∈ spans v' → x ∈ sample_records → rec_id x ∈ source_ids s →
       over_ttl RetentionPolicy_default (tags_get sample_tags (rec_id x)) (collected_at_ms x) 300011 = false)
  ∧ (∀ r, r ∈ view_records v' → rec_id r ∈ map span_id (spans v')
       ∨ over_ttl RetentionPolicy_default (tags_get sample_tags (rec_id r)) (collected_at_ms r) 300011 = false).
Proof.
  split; [vm_compute; reflexivity|].
  apply (compression_never_extends_retention FakeSummarizer_summarize sample_records sample_tags 500
           sample_script _ sample_ranges (Some 1) Absent sample_view [] RetentionPolicy_default 300011
           sample_ids default_policy_monotone sample_compression_ok).
Defined.

(** A summary dropped because its source was deleted resolves as [unknown], not as
    deleted: only the ids named by the caller are tombstoned. *)
Example dropped_summary_unknown :
  resolve_summary (delete_ids sample_view ["r3"]).1 "cmp-0001"
  = Err (SummaryUnavailable "cmp-0001" "unknown").
Proof. vm_compute. reflexivity. Qed.
