(* ===== verification/Compaction.v ===== *)
(** * Compaction: the selective-compaction driver

    Models the second half of [compression.rs]: the reserve and the trigger, the
    head/recent window, one guarded driver pass over the compression core, the
    policy with its dry run and the strike counter.  The theorems are in
    [CompactionFacts.v]. *)

From S2P Require Import Prelude Text ToolTypes Context Assembly Compression.

Local Open Scope Z_scope.
Local Open Scope rust_scope.

Definition DEFAULT_RESERVE_BYTES : Z := 16 * 1024.
Definition RESERVE_FRACTION_NUMERATOR : Z := 15.
Definition RESERVE_FRACTION_DENOMINATOR : Z := 100.
Definition DEFAULT_KEEP_RECENT_BYTES : Z := 20 * 1024.
Definition MIN_KEEP_RECORDS : Z := 1.
Definition DEFAULT_COMPACTION_WINDOW_BYTES : Z := 64 * 1024.
Definition DEFAULT_MAX_INEFFECTIVE_STRIKES : Z := 3.
Definition MAX_INEFFECTIVE_STRIKES : Z := 1024.

(** ** Policy, reserve and trigger *)

Record CompactionPolicy := mkCompactionPolicy {
  pol_window_bytes : Z;
  pol_keep_recent_bytes : Z;
  reserve_num : Z;
  reserve_den : Z;
  max_ineffective_strikes : Z
}.

(** [CompactionPolicy::default] *)
Definition CompactionPolicy_default : CompactionPolicy :=
  mkCompactionPolicy DEFAULT_COMPACTION_WINDOW_BYTES DEFAULT_KEEP_RECENT_BYTES
    RESERVE_FRACTION_NUMERATOR RESERVE_FRACTION_DENOMINATOR DEFAULT_MAX_INEFFECTIVE_STRIKES.

(** [CompactionPolicy::validate] *)
Definition validate_policy (p : CompactionPolicy) : result unit CompressionError :=
  ensure! negb (p.(pol_window_bytes) =? 0) else InvalidConfig "window_bytes must be non-zero" in
  ensure! negb (p.(pol_keep_recent_bytes) >=? p.(pol_window_bytes))
  else InvalidConfig "keep_recent_bytes must be strictly below window_bytes" in
  ensure! negb (p.(reserve_den) =? 0) else InvalidConfig "reserve_den must be non-zero" in
  ensure! negb (p.(reserve_num) =? 0) else InvalidConfig "reserve_num must be non-zero" in
  ensure! negb (p.(reserve_num) >? p.(reserve_den))
  else InvalidConfig "reserve fraction must not exceed 1 (reserve_num <= reserve_den)" in
  ensure! negb (p.(max_ineffective_strikes) =? 0)
  else InvalidConfig "max_ineffective_strikes must be non-zero" in
  ensure! negb (p.(max_ineffective_strikes) >? MAX_INEFFECTIVE_STRIKES)
  else InvalidConfig "max_ineffective_strikes exceeds bound" in
  Ok tt.

(** [CompactionPolicy::effective_reserve_bytes] *)
Definition policy_reserve_bytes (p : CompactionPolicy) : Z :=
  let window := p.(pol_window_bytes) in
  if window =? 0 then 0
  else
    let scaled := saturating_mul64 window p.(reserve_num) in
    let fraction := if p.(reserve_den) =? 0 then 0 else scaled / p.(reserve_den) in
    let reserve := Z.max fraction DEFAULT_RESERVE_BYTES in
    Z.min reserve (Z.max (window - 1) 0).

(** The free function [effective_reserve_bytes] *)
Definition effective_reserve_bytes (window : Z) : Z :=
  policy_reserve_bytes
    (mkCompactionPolicy window DEFAULT_KEEP_RECENT_BYTES RESERVE_FRACTION_NUMERATOR
       RESERVE_FRACTION_DENOMINATOR DEFAULT_MAX_INEFFECTIVE_STRIKES).

Definition should_compact (used window reserve : Z) : bool :=
  if (used =? 0) || (window =? 0) || (reserve =? 0) then false
  else saturating_add64 used reserve >? window.

Definition record_ineffective (current : Z) (p : CompactionPolicy) : Z * bool :=
  let next := saturating_add64 current 1 in
  (next, next >=? p.(max_ineffective_strikes)).

(** ** The window *)

Record CompactionWindow := mkWindow { head_idx : list nat; recent_idx : list nat }.

(** The quadratic scan for duplicate ids. *)
Fixpoint check_prior_ids (prior rs : list ContextRecord) : result unit ContextError :=
  match rs with
  | [] => Ok tt
  | r :: rs =>
      ensure! negb (existsb (λ p, str_eqb p.(rec_id) r.(rec_id)) prior)
      else DuplicateRecordId r.(rec_id) in
      check_prior_ids (prior ++ [r]) rs
  end.

(** The checks before selection. *)
Definition precheck_window (rs : list ContextRecord) (current_generation : option Z) :
    result unit ContextError :=
  ensure! negb (len rs >? MAX_CONTEXT_RECORDS) else TooManyRecords MAX_CONTEXT_RECORDS in
  try! _ := validate_records rs in
  try! _ := check_prior_ids [] rs in
  match current_generation with
  | Some current => check_generations current rs
  | None => Ok tt
  end.

(** The newest-first accumulation, over the reversed enumeration. *)
Fixpoint recent_loop (keep_recent_bytes : Z) (protected_ids : list string)
    (items : list (nat * ContextRecord)) (recent : list nat) (kept_bytes : Z) : list nat :=
  match items with
  | [] => recent
  | (index, r) :: items =>
      let protected := existsb (λ id, str_eqb id r.(rec_id)) protected_ids in
      let budget_met := (len recent >=? MIN_KEEP_RECORDS) && (kept_bytes >=? keep_recent_bytes) in
      if negb protected && budget_met then
        recent_loop keep_recent_bytes protected_ids items recent kept_bytes
      else
        recent_loop keep_recent_bytes protected_ids items (recent ++ [index])
          (saturating_add64 kept_bytes (footprint_bytes r))
  end.

(** The two-pointer complement. *)
Fixpoint head_loop (recent : list nat) (cursor : nat) (indices : list nat) : list nat :=
  match indices with
  | [] => []
  | index :: indices =>
      match recent !! cursor with
      | Some r => if (r =? index)%nat then head_loop recent (S cursor) indices
                  else index :: head_loop recent cursor indices
      | None => index :: head_loop recent cursor indices
      end
  end.

Definition select_compaction_window (rs : list ContextRecord) (keep_recent_bytes : Z)
    (protected_ids : list string) (current_generation : option Z) :
    result CompactionWindow CompressionError :=
  try! _ := map_err CompressionContext (precheck_window rs current_generation) in
  let recent := rev (recent_loop keep_recent_bytes protected_ids (rev (enumerate rs)) [] 0) in
  Ok (mkWindow (head_loop recent 0 (seq 0 (length rs))) recent).

(** ** The driver *)

Record SelectiveCompactionConfig := mkSelectiveConfig {
  window_bytes : Z;
  keep_recent_bytes : Z;
  protected_ids : list string;
  cfg_generation : option Z;
  previous_summary : option string
}.

(** [SelectiveCompactionConfig::new] and [from_policy] *)
Definition selective_new (window_bytes : Z) : SelectiveCompactionConfig :=
  mkSelectiveConfig window_bytes DEFAULT_KEEP_RECENT_BYTES [] None None.

Definition selective_from_policy (p : CompactionPolicy) : SelectiveCompactionConfig :=
  mkSelectiveConfig p.(pol_window_bytes) p.(pol_keep_recent_bytes) [] None None.

Inductive CompactionOutcome :=
| Compacted (span_count : Z) (view : CompressedView)
| CompactionNoOp
| CompactionFailed (reason : string).

(** The saturating footprint of the head; [None] is an index out of bounds. *)
Fixpoint head_footprint (rs : list ContextRecord) (head : list nat) (total : Z) : option Z :=
  match head with
  | [] => Some total
  | i :: head =>
      match rs !! i with
      | Some r => head_footprint rs head (saturating_add64 total (footprint_bytes r))
      | None => None
      end
  end.

Definition doomed_reason (head_bytes window_bytes : Z) : string :=
  "compaction doomed: head " +:+ show head_bytes +:+ " bytes plus " +:+ show MAX_SUMMARY_BYTES
    +:+ " byte summary bound exceeds " +:+ show window_bytes +:+ " byte window".

(** Maximal contiguous runs of ascending indices. *)
Fixpoint runs_loop (run_start run_end : nat) (indices : list nat) : list SpanRange :=
  match indices with
  | [] => [mkRange run_start run_end]
  | i :: indices =>
      if (i =? run_end)%nat then runs_loop run_start (S run_end) indices
      else mkRange run_start run_end :: runs_loop i (S i) indices
  end.

(** [if previous.len() > MAX_SUMMARY_BYTES] for the host's seed. *)
Definition seed_too_large (previous : option string) : option CompressionError :=
  match previous with
  | Some text =>
      if slen text >? MAX_SUMMARY_BYTES then
        Some (SpanSummaryTooLarge MAX_SUMMARY_BYTES (slen text))
      else None
  | None => None
  end.

Definition compact_selective {W} (summarize : SummarizeFn W) (rs : list ContextRecord)
    (config : SelectiveCompactionConfig) (tags : RetentionTags) (now_ms : Z) (w : W) :
    W * run CompactionOutcome :=
  match select_compaction_window rs config.(keep_recent_bytes) config.(protected_ids)
          config.(cfg_generation) with
  | Err e => (w, Returned (CompactionFailed (CompressionError_to_string e)))
  | Ok window =>
  match window.(head_idx) with
  | [] => (w, Returned CompactionNoOp)
  | first :: rest =>
  match seed_too_large config.(previous_summary) with
  | Some e => (w, Returned (CompactionFailed (CompressionError_to_string e)))
  | None =>
  match head_footprint rs (first :: rest) 0 with
  | None => (w, Panicked)
  | Some head_bytes =>
  if saturating_add64 head_bytes MAX_SUMMARY_BYTES >? config.(window_bytes) then
    (w, Returned (CompactionFailed (doomed_reason head_bytes config.(window_bytes))))
  else
  match compress_ranges_impl summarize rs tags now_ms w (runs_loop first (S first) rest)
          config.(cfg_generation) (Chain config.(previous_summary)) with
  | (w, Returned (Ok view)) => (w, Returned (Compacted (len view.(spans)) view))
  | (w, Returned (Err e)) => (w, Returned (CompactionFailed (CompressionError_to_string e)))
  | (w, Panicked) => (w, Panicked)
  | (w, OutOfFuel) => (w, OutOfFuel)
  end end end end end.

(** ** The dry run *)

Inductive PreviewOutcome :=
| WouldCompact
| PreviewNoOp
| PreviewFailed (reason : string).

Record CompactionPreview := mkPreview {
  pv_head : list nat;
  pv_recent : list nat;
  pv_head_bytes : Z;
  pv_outcome : PreviewOutcome
}.

Definition preview_compaction (rs : list ContextRecord) (p : CompactionPolicy)
    (protected_ids : list string) (current_generation : option Z) : run CompactionPreview :=
  match validate_policy p with
  | Err e => Returned (mkPreview [] [] 0 (PreviewFailed (CompressionError_to_string e)))
  | Ok _ =>
  match select_compaction_window rs p.(pol_keep_recent_bytes) protected_ids current_generation with
  | Err e => Returned (mkPreview [] [] 0 (PreviewFailed (CompressionError_to_string e)))
  | Ok window =>
  match window.(head_idx) with
  | [] => Returned (mkPreview window.(head_idx) window.(recent_idx) 0 PreviewNoOp)
  | _ :: _ =>
  match head_footprint rs window.(head_idx) 0 with
  | None => Panicked
  | Some head_bytes =>
  if saturating_add64 head_bytes MAX_SUMMARY_BYTES >? p.(pol_window_bytes) then
    Returned (mkPreview window.(head_idx) window.(recent_idx) head_bytes
                (PreviewFailed (doomed_reason head_bytes p.(pol_window_bytes))))
  else
    Returned (mkPreview window.(head_idx) window.(recent_idx) head_bytes WouldCompact)
  end end end end.
