(* ===== verification/CompactionFacts.v ===== *)
(** * CompactionFacts: what a compaction pass guarantees

    Theorems about [Compaction.v]: reserve, trigger and strikes at their
    boundaries; the window is exactly the newest records worth keeping; a pass
    summarises exactly the head and keeps the tail verbatim; the preview agrees
    with the driver; a compacted view is never compacted again. *)

From S2P Require Import Prelude Text ToolTypes Context Assembly Compression CompressionFacts Compaction.

Local Open Scope Z_scope.
Local Open Scope rust_scope.

(** ** The reserve and the strike counter *)

Definition policy_typed (p : CompactionPolicy) : Prop :=
  is_u64 p.(pol_window_bytes) ∧ is_u64 p.(pol_keep_recent_bytes) ∧ is_u64 p.(reserve_num)
  ∧ is_u64 p.(reserve_den) ∧ is_u32 p.(max_ineffective_strikes).

(** Every policy, valid or not, gets a reserve strictly below its window. *)
Lemma policy_reserve_below p : policy_typed p → 0 < p.(pol_window_bytes) →
  0 ≤ policy_reserve_bytes p < p.(pol_window_bytes)
  ∧ Z.min DEFAULT_RESERVE_BYTES (p.(pol_window_bytes) - 1) ≤ policy_reserve_bytes p.
Proof.
  intros _ Hw. unfold policy_reserve_bytes, DEFAULT_RESERVE_BYTES.
  replace (pol_window_bytes p =? 0) with false by (symmetry; apply Z.eqb_neq; lia). lia.
Qed.

(** Consecutive ineffective passes from zero. *)
Fixpoint strikes (p : CompactionPolicy) (n : nat) (current : Z) : Z * bool :=
  match n with
  | O => (current, current >=? p.(max_ineffective_strikes))
  | S n => strikes p n (record_ineffective current p).1
  end.

Lemma strikes_count p n : ∀ current, 0 ≤ current → current + Z.of_nat n ≤ u64_max →
  strikes p n current
  = (current + Z.of_nat n, current + Z.of_nat n >=? p.(max_ineffective_strikes)).
Proof.
  induction n as [|n IH]; intros current Hc Hb; cbn [strikes].
  - by rewrite Z.add_0_r.
  - cbn [record_ineffective fst]. unfold saturating_add64. rewrite Z.min_l by lia.
    rewrite IH by lia. by replace (current + 1 + Z.of_nat n) with (current + Z.of_nat (S n)) by lia.
Qed.

(** Reserve, trigger and strikes agree at their boundaries.  For every valid
    policy the reserve lies strictly below the window and above the smaller of the
    16 KiB floor and the window; with that reserve the trigger fires exactly when a
    non-empty load exceeds the window less the reserve, however large the load (the
    saturating sum hides it only for a window of [usize::MAX]); and the strike counter disables automatic compaction at exactly
    [max_ineffective_strikes] consecutive ineffective passes, not before. *)
Theorem compaction_trigger_exact p used n :
  policy_typed p → validate_policy p = Ok tt → is_u64 used → 1 < p.(pol_window_bytes) < u64_max →
  Z.of_nat n ≤ u64_max →
  let reserve := policy_reserve_bytes p in
  Z.min DEFAULT_RESERVE_BYTES (p.(pol_window_bytes) - 1) ≤ reserve < p.(pol_window_bytes)
  ∧ (should_compact used p.(pol_window_bytes) reserve = true
       ↔ 0 < used ∧ p.(pol_window_bytes) - reserve < used)
  ∧ ((strikes p n 0).2 = true ↔ p.(max_ineffective_strikes) ≤ Z.of_nat n).
Proof.
  intros Hp Hv [Hu0 Hu1] Hw Hn reserve.
  destruct (policy_reserve_below p Hp ltac:(lia)) as [Hr Hf]. fold reserve in Hr, Hf.
  destruct Hp as ([Hw0 Hw1] & _). unfold DEFAULT_RESERVE_BYTES in *.
  split_and!; [lia|lia|..].
  - unfold should_compact, saturating_add64. destruct (Z.eqb_spec used 0) as [->|]; simpl.
    { split; [done|lia]. }
    replace (pol_window_bytes p =? 0) with false by (symmetry; apply Z.eqb_neq; lia).
    replace (reserve =? 0) with false by (symmetry; apply Z.eqb_neq; lia). simpl.
    rewrite Z.gtb_ltb, Z.ltb_lt. lia.
  - rewrite strikes_count by lia. simpl. rewrite Z.geb_leb. apply Z.leb_le.
Qed.

Lemma compaction_trigger_exact_witness :
  validate_policy CompactionPolicy_default = Ok tt
  ∧ Z.min DEFAULT_RESERVE_BYTES (65536 - 1) ≤ policy_reserve_bytes CompactionPolicy_default < 65536
  ∧ (should_compact 49153 65536 (policy_reserve_bytes CompactionPolicy_default) = true
       ↔ 0 < 49153 ∧ 65536 - policy_reserve_bytes CompactionPolicy_default < 49153)
  ∧ ((strikes CompactionPolicy_default 3 0).2 = true ↔ 3 ≤ Z.of_nat 3).
Proof.
  split; [reflexivity|].
  apply (compaction_trigger_exact CompactionPolicy_default 49153 3);
    repeat split; vm_compute; congruence.
Defined.

(** ** The window *)

Lemma check_prior_ids_spec rs : ∀ prior,
  check_prior_ids prior rs = Ok tt ↔
  NoDup (map rec_id rs) ∧ ∀ r, r ∈ rs → rec_id r ∉ map rec_id prior.
Proof.
  induction rs as [|r rs IH]; intros prior; simpl.
  { split; [|done]. intros _. split; [constructor|]. intros r Hr. by apply elem_of_nil in Hr. }
  destruct (existsb _ prior) eqn:E; simpl.
  - split; [done|]. intros [_ H]. apply existsb_true_iff in E as (q & Hq & Heq%str_eqb_eq).
    destruct (H r ltac:(left)). rewrite <- Heq. by apply list_elem_of_fmap_2.
  - rewrite existsb_false_iff in E. rewrite IH, map_app. setoid_rewrite elem_of_app.
    assert (rec_id r ∉ map rec_id prior) as Hnew.
    { intros (q & Heq & Hq)%list_elem_of_fmap. specialize (E q Hq). rewrite <- Heq in E.
      by rewrite str_eqb_refl in E. }
    split.
    + intros [Hn Hp]. split.
      * constructor; [|done]. intros (q & Heq & Hq)%list_elem_of_fmap. apply (Hp q Hq). right.
        rewrite <- Heq. by left.
      * intros q [->|Hq]%elem_of_cons; [done|]. intros Hin. apply (Hp q Hq). by left.
    + intros [Hn Hp]. inversion Hn as [|? ? Hnr Hn']; subst. split; [done|].
      intros q Hq [Hin|[Heq|[]%elem_of_nil]%elem_of_cons].
      * by apply (Hp q); [right|].
      * apply Hnr. rewrite <- Heq. by apply list_elem_of_fmap_2.
Qed.

Lemma precheck_window_ok rs gen u : precheck_window rs gen = Ok u →
  len rs ≤ MAX_CONTEXT_RECORDS ∧ Forall (λ r, validate_record r = Ok tt) rs
  ∧ NoDup (map rec_id rs)
  ∧ (∀ g, gen = Some g → Forall (λ r, r.(rec_generation) = g) rs).
Proof.
  unfold precheck_window. intros H. case_if_in H; [|done]. reflect_bools.
  destruct (validate_records rs) as [[]|] eqn:Ev; [|done].
  destruct (check_prior_ids [] rs) as [[]|] eqn:Ei; [|done].
  apply check_prior_ids_spec in Ei as [? _].
  split_and!; [lia|by apply validate_records_ok|done|].
  intros g ->. destruct u. by apply check_generations_ok.
Qed.

Section Window.
Context (keep : Z) (protect : list string).

Definition is_protected (r : ContextRecord) : bool :=
  existsb (λ id, str_eqb id r.(rec_id)) protect.

Lemma is_protected_spec r : is_protected r = true ↔ rec_id r ∈ protect.
Proof.
  unfold is_protected. rewrite existsb_true_iff. setoid_rewrite str_eqb_eq. split.
  - by intros (x & Hx & ->).
  - eauto.
Qed.

(** The kept tail, decided record by record from the newest. *)
Fixpoint kept_tail (i : nat) (rs : list ContextRecord) : list (nat * ContextRecord) :=
  match rs with
  | [] => []
  | r :: rs =>
      let newer := kept_tail (S i) rs in
      if is_protected r || bool_decide (newer = []) || (footprint_sum (map snd newer) <? keep)
      then (i, r) :: newer else newer
  end.

Definition recent_step (p : list nat * Z) (item : nat * ContextRecord) : list nat * Z :=
  let '(recent, kept) := p in
  let '(index, r) := item in
  if negb (is_protected r) && ((len recent >=? MIN_KEEP_RECORDS) && (kept >=? keep)) then p
  else (recent ++ [index], saturating_add64 kept (footprint_bytes r)).

Lemma recent_loop_fold items : ∀ recent kept,
  recent_loop keep protect items recent kept = (fold_left recent_step items (recent, kept)).1.
Proof.
  induction items as [|[index r] items IH]; intros recent kept; simpl; [done|].
  unfold is_protected. destruct (negb _ && _); apply IH.
Qed.

Lemma recent_fold_spec rs : ∀ i, keep ≤ u64_max →
  foldr (λ x p, recent_step p x) ([], 0) (zip (seq i (length rs)) rs)
  = (rev (map fst (kept_tail i rs)), Z.min (footprint_sum (map snd (kept_tail i rs))) u64_max).
Proof.
  induction rs as [|r rs IH]; intros i Hk; [done|].
  cbn [length seq zip zip_with foldr]. rewrite IH by done. clear IH.
  cbn [kept_tail]. set (newer := kept_tail (S i) rs). unfold recent_step.
  rewrite Z.geb_leb, Z.geb_leb. unfold MIN_KEEP_RECORDS.
  assert ((1 <=? len (rev (map fst newer))) = negb (bool_decide (newer = []))) as ->.
  { unfold len. rewrite length_rev, length_map. destruct newer as [|x newer]; [done|].
    rewrite bool_decide_eq_false_2 by done. apply Z.leb_le. simpl. lia. }
  assert ((keep <=? Z.min (footprint_sum (map snd newer)) u64_max)
          = negb (footprint_sum (map snd newer) <? keep)) as ->.
  { apply eq_true_iff_eq. rewrite negb_true_iff, Z.leb_le, Z.ltb_ge. lia. }
  destruct (is_protected r), (bool_decide (newer = [])), (footprint_sum (map snd newer) <? keep);
    simpl; try done; f_equal; unfold saturating_add64, footprint_sum; simpl; pose proof (footprint_nonneg r); lia.
Qed.

Lemma recent_loop_spec rs : keep ≤ u64_max →
  rev (recent_loop keep protect (rev (enumerate rs)) [] 0) = map fst (kept_tail 0 rs).
Proof.
  intros Hk. rewrite recent_loop_fold. unfold enumerate.
  rewrite <- (fold_left_rev_right (λ x p, recent_step p x)), rev_involutive.
  pose proof (recent_fold_spec rs 0 Hk) as H. unfold foldr in *. 
  rewrite H. simpl. by rewrite rev_involutive.
Qed.

Lemma kept_tail_sublist rs : ∀ i, kept_tail i rs `sublist_of` zip (seq i (length rs)) rs.
Proof.
  induction rs as [|r rs IH]; intros i; cbn [kept_tail length seq zip zip_with]; [done|].
  case_if; by constructor.
Qed.

Lemma kept_tail_range rs i p : p ∈ kept_tail i rs → (i ≤ p.1)%nat.
Proof.
  intros Hp. eapply sublist_elem in Hp; [|apply kept_tail_sublist]. destruct p as [j r].
  apply elem_of_zip_l in Hp. apply elem_of_seq in Hp. simpl. lia.
Qed.

Lemma kept_tail_newer k : ∀ rs i,
  List.filter (λ p, (i + k <? p.1)%nat) (kept_tail i rs) = kept_tail (S (i + k)) (drop (S k) rs).
Proof.
  assert (∀ rs i m, (m < i)%nat → List.filter (λ p, (m <? p.1)%nat) (kept_tail i rs) = kept_tail i rs)
    as Hall.
  { intros rs i m Hm. apply forallb_filter_id, forallb_forall. intros p Hp%list_elem_of_In%kept_tail_range.
    apply Nat.ltb_lt. lia. }
  assert (∀ rs i r m, (i ≤ m)%nat →
    List.filter (λ p, (m <? p.1)%nat) (kept_tail i (r :: rs))
    = List.filter (λ p, (m <? p.1)%nat) (kept_tail (S i) rs)) as Hskip.
  { intros rs i r m Hm. cbn [kept_tail]. case_if; [|done]. cbn [List.filter fst].
    by replace (m <? i)%nat with false by (symmetry; apply Nat.ltb_ge; lia). }
  induction k as [|k IH]; intros [|r rs] i.
  - done.
  - rewrite Hskip by lia. rewrite Nat.add_0_r. simpl. rewrite drop_0. apply Hall. lia.
  - done.
  - rewrite Hskip by lia. replace (i + S k)%nat with (S i + k)%nat by lia. apply IH.
Qed.

Lemma kept_tail_elem k : ∀ rs i r, rs !! k = Some r →
  let newer := kept_tail (S (i + k)) (drop (S k) rs) in
  (i + k)%nat ∈ map fst (kept_tail i rs)
  ↔ rec_id r ∈ protect ∨ newer = [] ∨ footprint_sum (map snd newer) < keep.
Proof.
  induction k as [|k IH]; intros [|r' rs] i r Hr; [done| |done|]; simpl in Hr.
  - injection Hr as ->. cbn [kept_tail drop]. rewrite drop_0, Nat.add_0_r.
    assert (i ∉ map fst (kept_tail (S i) rs)) as Hno.
    { intros (p & -> & Hp%kept_tail_range)%list_elem_of_fmap. lia. }
    rewrite <- is_protected_spec.
    destruct (is_protected r) eqn:E1; simpl; [split; [by left|intros _; by left]|].
    destruct (bool_decide_reflect (kept_tail (S i) rs = [])) as [E2|E2]; simpl;
      [split; [right; by left|intros _; by left]|].
    destruct (Z.ltb_spec (footprint_sum (map snd (kept_tail (S i) rs))) keep); simpl.
    + split; [by right; right|intros _; by left].
    + split; [done|]. intros [?|[?|?]]; [done|done|lia].
  - replace (i + S k)%nat with (S i + k)%nat by lia. cbv zeta.
    change (drop (S (S k)) (r' :: rs)) with (drop (S k) rs). rewrite <- (IH rs (S i) r Hr).
    cbn [kept_tail]. case_if; [|done]. simpl. rewrite elem_of_cons. split; [|by right].
    intros [Heq|]; [lia|done].
Qed.

Lemma kept_tail_lookup rs i p : p ∈ kept_tail i rs → rs !! (p.1 - i)%nat = Some p.2.
Proof.
  intros Hp. eapply sublist_elem in Hp; [|apply kept_tail_sublist].
  apply list_elem_of_lookup in Hp as [k Hk]. unfold zip in Hk.
  apply lookup_zip_with_Some in Hk as (j & r & -> & [-> Hlt]%lookup_seq & Hr). simpl.
  by replace (i + k - i)%nat with k by lia.
Qed.

Lemma kept_tail_records rs ps : (∀ p, p ∈ ps → p ∈ kept_tail 0 rs) →
  omap (λ j, rs !! j) (map fst ps) = map snd ps.
Proof.
  induction ps as [|p ps IH]; intros H; [done|]. csimpl.
  pose proof (kept_tail_lookup rs 0 p (H p ltac:(left))) as Hl. rewrite Nat.sub_0_r in Hl.
  rewrite Hl. f_equal. apply IH. intros q Hq. apply H. by right.
Qed.

End Window.

Lemma sorted_seq n : ∀ i, StronglySorted lt (seq i n).
Proof.
  induction n as [|n IH]; intros i; simpl; constructor; [done|].
  apply Forall_forall. intros j Hj%elem_of_seq. lia.
Qed.

Lemma sorted_sublist (k l : list nat) : k `sublist_of` l → StronglySorted lt l → StronglySorted lt k.
Proof.
  induction 1 as [|x k l Hs IH|x k l Hs IH]; intros Hl; [done|..];
    inversion Hl as [|? ? Hl' Hx]; subst; [|auto].
  constructor; [auto|]. eapply Forall_forall. intros y Hy.
  rewrite Forall_forall in Hx. apply Hx. by eapply sublist_elem.
Qed.

Definition outside (l : list nat) (j : nat) : bool := negb (bool_decide (j ∈ l)).

Lemma head_loop_spec recent n : ∀ i cursor, StronglySorted lt (drop cursor recent) →
  Forall (λ j, (i ≤ j)%nat) (drop cursor recent) →
  head_loop recent cursor (seq i n) = List.filter (outside (drop cursor recent)) (seq i n).
Proof.
  induction n as [|n IH]; intros i cursor Hs Hf; [done|]. cbn [seq head_loop List.filter].
  destruct (recent !! cursor) as [j|] eqn:Ej.
  - rewrite (drop_S _ _ _ Ej) in *. inversion Hs as [|? ? Hs' Hj]; subst.
    inversion Hf as [|? ? Hij Hf']; subst. rewrite Forall_forall in Hj.
    destruct (Nat.eqb_spec j i) as [->|Hne].
    + unfold outside at 1. rewrite bool_decide_eq_true_2 by left. simpl. rewrite IH; [|done|].
      * apply List.filter_ext_in. intros k Hk%list_elem_of_In%elem_of_seq. unfold outside. f_equal.
        apply bool_decide_ext. rewrite elem_of_cons. split; [by right|]. intros [->|]; [lia|done].
      * apply Forall_forall. intros k Hk. specialize (Hj k Hk). simpl in Hj. lia.
    + unfold outside at 1. rewrite bool_decide_eq_false_2; simpl.
      * f_equal. rewrite IH; rewrite (drop_S _ _ _ Ej); [done|done|].
        constructor; [lia|]. apply Forall_forall. intros k Hk. specialize (Hj k Hk). lia.
      * intros [->|Hk]%elem_of_cons; [done|]. specialize (Hj i Hk). lia.
  - apply lookup_ge_None_1 in Ej. unfold outside at 1. rewrite drop_ge in * by done. simpl. f_equal.
    rewrite IH; rewrite drop_ge by done; done.
Qed.

Lemma filter_partition_perm {A} (f : A → bool) l :
  List.filter (λ x, negb (f x)) l ++ List.filter f l ≡ₚ l.
Proof.
  induction l as [|x l IH]; simpl; [done|]. destruct (f x); simpl.
  - by rewrite <- Permutation_middle, IH.
  - by rewrite IH.
Qed.

(** Sorted lists of naturals with the same elements are equal. *)
Lemma sorted_filter_seq l n : StronglySorted lt l → Forall (λ j, (j < n)%nat) l →
  List.filter (λ j, bool_decide (j ∈ l)) (seq 0 n) = l.
Proof.
  intros Hs Hf. assert (AntiSymm eq lt) by (intros x y; lia). apply (StronglySorted_unique lt).
  - eapply sorted_sublist; [apply sublist_List_filter|apply sorted_seq].
  - done.
  - apply NoDup_Permutation.
    + apply (sublist_NoDup _ (seq 0 n)); [apply NoDup_seq|apply sublist_List_filter].
    + clear Hf. induction Hs as [|x l Hl IH Hx]; constructor; [|done].
      intros Hin. rewrite Forall_forall in Hx. specialize (Hx x Hin). lia.
    + intros j. rewrite list_elem_of_In, List.filter_In, <- list_elem_of_In, elem_of_seq, bool_decide_eq_true.
      rewrite Forall_forall in Hf. split; [tauto|]. intros Hj. specialize (Hf j Hj). simpl in Hf. split; [lia|done].
Qed.

Lemma recent_facts keep protect rs :
  let recent := map fst (kept_tail keep protect 0 rs) in
  StronglySorted lt recent ∧ Forall (λ j, (j < length rs)%nat) recent.
Proof.
  assert (map fst (kept_tail keep protect 0 rs) `sublist_of` seq 0 (length rs)) as Hsub.
  { pose proof (sublist_map fst _ _ (kept_tail_sublist keep protect rs 0)) as H.
    assert (map fst (zip (seq 0 (length rs)) rs) = seq 0 (length rs)) as E
      by (apply (fst_zip (seq 0 (length rs)) rs); rewrite length_seq; lia).
    by rewrite E in H. }
  split; [eapply sorted_sublist; [done|apply sorted_seq]|].
  apply Forall_forall. intros j Hj. eapply sublist_elem, elem_of_seq in Hj; [|done]. lia.
Qed.

Lemma select_window_spec rs keep protect gen win : keep ≤ u64_max →
  select_compaction_window rs keep protect gen = Ok win →
  precheck_window rs gen = Ok tt
  ∧ recent_idx win = map fst (kept_tail keep protect 0 rs)
  ∧ head_idx win = List.filter (outside (recent_idx win)) (seq 0 (length rs)).
Proof.
  intros Hk. unfold select_compaction_window. destruct (precheck_window rs gen) as [[]|e]; [|done].
  cbn [map_err]. rewrite recent_loop_spec by done. intros [= <-]. cbn [head_idx recent_idx].
  split_and!; [done|done|]. destruct (recent_facts keep protect rs) as [Hs _].
  rewrite head_loop_spec; rewrite drop_0; [done|done|]. apply Forall_true. lia.
Qed.

(** The compaction window is exactly the newest records worth keeping.  On
    success the head and the recent tail, both in ascending order, partition the
    record indices; and a record is in the tail if and only if its id is
    protected, no newer record is kept, or the newer records kept so far hold
    fewer bytes than the tail budget.  In particular protected records and the
    newest record are never compacted. *)
Theorem select_window_exact rs keep protect gen win :
  is_u64 keep → select_compaction_window rs keep protect gen = Ok win →
  head_idx win ++ recent_idx win ≡ₚ seq 0 (length rs)
  ∧ StronglySorted lt (head_idx win) ∧ StronglySorted lt (recent_idx win)
  ∧ ∀ i r, rs !! i = Some r →
      let newer := List.filter (λ j, (i <? j)%nat) (recent_idx win) in
      i ∈ recent_idx win
      ↔ rec_id r ∈ protect ∨ newer = [] ∨ footprint_sum (omap (λ j, rs !! j) newer) < keep.
Proof.
  intros [_ Hk] H. destruct (select_window_spec _ _ _ _ _ Hk H) as (_ & Hr & Hh).
  destruct (recent_facts keep protect rs) as [Hs Hb]. rewrite <- Hr in Hs, Hb.
  split_and!; [| |done|].
  - rewrite Hh. rewrite <- (sorted_filter_seq _ _ Hs Hb) at 2. apply filter_partition_perm.
  - rewrite Hh. eapply sorted_sublist; [apply sublist_List_filter|apply sorted_seq].
  - intros i r Hi. cbv zeta. pose proof (kept_tail_elem keep protect i rs 0 r Hi) as He.
    cbv zeta in He. rewrite Nat.add_0_l, <- Hr in He. rewrite He.
    pose proof (kept_tail_newer keep protect i rs 0) as Hn. rewrite Nat.add_0_l in Hn.
    assert (List.filter (λ j, (i <? j)%nat) (recent_idx win)
            = map fst (kept_tail keep protect (S i) (drop (S i) rs))) as ->.
    { rewrite <- Hn, Hr. generalize (kept_tail keep protect 0 rs). intros l.
      induction l as [|p l IH]; [done|]. simpl. rewrite IH. by destruct (i <? p.1)%nat. }
    rewrite (kept_tail_records keep protect).
    + destruct (kept_tail keep protect (S i) (drop (S i) rs)); simpl; naive_solver.
    + intros p Hp. rewrite <- Hn in Hp. by apply List_filter_elem in Hp as [? _].
Qed.

Definition window_sample : list ContextRecord :=
  [sample_record "a" true 20; sample_record "p" false 20; sample_record "b" false 20;
   sample_record "z" false 20].

Lemma select_window_exact_witness :
  let win := mkWindow [0; 2]%nat [1; 3]%nat in
  select_compaction_window window_sample 24 ["p"] (Some 1) = Ok win
  ∧ head_idx win ++ recent_idx win ≡ₚ seq 0 (length window_sample)
  ∧ StronglySorted lt (head_idx win) ∧ StronglySorted lt (recent_idx win)
  ∧ ∀ i r, window_sample !! i = Some r →
      let newer := List.filter (λ j, (i <? j)%nat) (recent_idx win) in
      i ∈ recent_idx win
      ↔ rec_id r ∈ ["p"] ∨ newer = [] ∨ footprint_sum (omap (λ j, window_sample !! j) newer) < 24.
Proof.
  split; [reflexivity|].
  apply (select_window_exact window_sample 24 ["p"] (Some 1)); [|reflexivity].
  split; vm_compute; congruence.
Defined.

(** ** The pass *)

(** The indices the ranges cover. *)
Definition covered_idx (ranges : list SpanRange) : list nat :=
  concat (map (λ r, seq r.(r_start) (range_len r)) ranges).

Lemma runs_covered l : ∀ s e, (s < e)%nat → covered_idx (runs_loop s e l) = seq s (e - s) ++ l.
Proof.
  induction l as [|i l IH]; intros s e Hse; cbn [runs_loop].
  - unfold covered_idx, range_len. simpl. by rewrite app_nil_r.
  - destruct (Nat.eqb_spec i e) as [->|Hne].
    + rewrite IH by lia. replace (S e - s)%nat with ((e - s) + 1)%nat by lia.
      rewrite seq_app, <- app_assoc. simpl. by replace (s + (e - s))%nat with e by lia.
    + change (covered_idx (mkRange s e :: runs_loop i (S i) l))
        with (seq s (e - s) ++ covered_idx (runs_loop i (S i) l)).
      rewrite IH by lia. by replace (S i - i)%nat with 1%nat by lia.
Qed.

Lemma runs_ok n l : ∀ s e cursor, (cursor ≤ s < e)%nat → (e ≤ n)%nat →
  StronglySorted lt l → Forall (λ j, (e ≤ j < n)%nat) l → ranges_ok n cursor (runs_loop s e l).
Proof.
  induction l as [|i l IH]; intros s e cursor Hse He Hs Hf; cbn [runs_loop]; [simpl; split_and!; (done || lia)|].
  inversion Hs as [|? ? Hs' Hi]; subst. inversion Hf as [|? ? Hie Hf']; subst.
  assert (Forall (λ j, (S i ≤ j < n)%nat) l) as Hf2.
  { rewrite Forall_forall in *. intros j Hj. specialize (Hi j Hj). specialize (Hf' j Hj). simpl in *. lia. }
  cbv beta in Hie. destruct (Nat.eqb_spec i e) as [->|Hne]; [apply IH; [lia|lia|done|done]|].
  simpl. split_and!; [lia|lia|lia|]. apply IH; [lia|lia|done|done].
Qed.

Lemma omap_seq {A} (l : list A) k : ∀ i, (i + k ≤ length l)%nat →
  omap (λ j, l !! j) (seq i k) = take k (drop i l).
Proof.
  induction k as [|k IH]; intros i Hik; [done|].
  destruct (lookup_lt_is_Some_2 l i ltac:(lia)) as [x Hx].
  rewrite (drop_S _ _ _ Hx). csimpl. rewrite Hx. f_equal. apply IH. lia.
Qed.

Lemma slice_idx {A} (l : list A) r : (r_start r ≤ r_end r ≤ length l)%nat →
  slice l r = omap (λ j, l !! j) (seq (r_start r) (range_len r)).
Proof. intros H. unfold slice, range_len. rewrite omap_seq by lia. done. Qed.

Lemma covered_slices {A} (l : list A) ranges : ∀ cursor, ranges_ok (length l) cursor ranges →
  concat (map (slice l) ranges) = omap (λ j, l !! j) (covered_idx ranges).
Proof.
  induction ranges as [|r ranges IH]; intros cursor Hok; [done|]. destruct Hok as (? & ? & Hok).
  unfold covered_idx. simpl. rewrite omap_app, <- slice_idx by lia. f_equal. by eapply IH.
Qed.

Lemma filter_all_true {A} (f : A → bool) l : (∀ x, x ∈ l → f x = true) → List.filter f l = l.
Proof. intros H. apply forallb_filter_id, forallb_forall. intros x Hx%list_elem_of_In. auto. Qed.

Lemma covered_bound n ranges : ∀ cursor, ranges_ok n cursor ranges →
  ∀ j, j ∈ covered_idx ranges → (cursor ≤ j < n)%nat.
Proof.
  induction ranges as [|r ranges IH]; intros cursor Hok j Hj; [by apply elem_of_nil in Hj|].
  destruct Hok as (? & ? & Hok). unfold covered_idx in Hj. simpl in Hj. unfold range_len in Hj.
  apply elem_of_app in Hj as [Hj%elem_of_seq|Hj]; [lia|]. specialize (IH _ Hok j Hj). lia.
Qed.

Lemma gaps_idx {A} (l : list A) ranges : ∀ cursor, (cursor ≤ length l)%nat →
  ranges_ok (length l) cursor ranges →
  gaps l cursor ranges
  = omap (λ j, l !! j) (List.filter (outside (covered_idx ranges)) (seq cursor (length l - cursor))).
Proof.
  induction ranges as [|r ranges IH]; intros cursor Hc Hok.
  - rewrite filter_all_true; [|done]. rewrite omap_seq by lia. simpl. rewrite take_ge; [done|].
    rewrite length_drop. lia.
  - destruct Hok as (H1 & H2 & Hok). pose proof (covered_bound _ _ _ Hok) as Hb.
    cbn [gaps]. rewrite IH by (done || lia).
    replace (length l - cursor)%nat
      with ((r_start r - cursor) + (range_len r + (length l - r_end r)))%nat by (unfold range_len; lia).
    rewrite !seq_app, !List.filter_app, !omap_app.
    replace (cursor + (r_start r - cursor))%nat with (r_start r) by lia.
    replace (r_start r + range_len r)%nat with (r_end r) by (unfold range_len; lia).
    assert (∀ j, j ∈ covered_idx (r :: ranges) ↔ (r_start r ≤ j < r_end r)%nat ∨ j ∈ covered_idx ranges)
      as Hcov.
    { intros j. unfold covered_idx. simpl. rewrite elem_of_app, elem_of_seq. unfold range_len.
      split; (intros [?|?]; [left; lia|by right]). }
    rewrite (filter_all_true (outside (covered_idx (r :: ranges))) (seq cursor _)).
    2:{ intros j Hj%elem_of_seq. apply negb_true_iff, bool_decide_eq_false. rewrite Hcov.
        intros [?|Hj2%Hb]; lia. }
    rewrite (filter_all_false (outside (covered_idx (r :: ranges))) (seq (r_start r) _)).
    2:{ intros j Hj%elem_of_seq. apply negb_false_iff, bool_decide_eq_true. rewrite Hcov.
        unfold range_len in Hj. left. lia. }
    rewrite slice_idx by (simpl; lia). unfold range_len at 1. simpl. f_equal. f_equal.
    apply List.filter_ext_in. intros j Hj%list_elem_of_In%elem_of_seq. unfold outside. f_equal.
    apply bool_decide_ext. rewrite Hcov. split; [by right|]. intros [?|?]; [lia|done].
Qed.

Lemma recent_complement recent n : StronglySorted lt recent → Forall (λ j, (j < n)%nat) recent →
  List.filter (outside (List.filter (outside recent) (seq 0 n))) (seq 0 n) = recent.
Proof.
  intros Hs Hf. rewrite <- (sorted_filter_seq recent n Hs Hf) at 2.
  apply List.filter_ext_in. intros j Hj%list_elem_of_In. unfold outside at 1.
  rewrite <- (negb_involutive (bool_decide (j ∈ recent))). f_equal.
  change (negb (bool_decide (j ∈ recent))) with (outside recent j).
  destruct (outside recent j) eqn:E.
  - apply bool_decide_eq_true. by apply List_filter_elem.
  - apply bool_decide_eq_false. intros [_ ?]%List_filter_elem. congruence.
Qed.

Lemma head_footprint_Some rs l : ∀ total, Forall (λ j, (j < length rs)%nat) l →
  ∃ b, head_footprint rs l total = Some b.
Proof.
  induction l as [|i l IH]; intros total Hf; simpl; [eauto|]. inversion Hf; subst.
  destruct (lookup_lt_is_Some_2 rs i ltac:(lia)) as [r ->]. by apply IH.
Qed.

Section Pass.
Context {W : Type} (summarize : SummarizeFn W).
Context (rs : list ContextRecord) (config : SelectiveCompactionConfig).
Context (tags : RetentionTags) (now_ms : Z).

Lemma window_head_facts win : keep_recent_bytes config ≤ u64_max →
  select_compaction_window rs (keep_recent_bytes config) (protected_ids config)
    (cfg_generation config) = Ok win →
  StronglySorted lt (head_idx win) ∧ Forall (λ j, (j < length rs)%nat) (head_idx win)
  ∧ recent_idx win = List.filter (outside (head_idx win)) (seq 0 (length rs)).
Proof.
  intros Hk H. destruct (select_window_spec _ _ _ _ _ Hk H) as (_ & Hr & Hh).
  destruct (recent_facts (keep_recent_bytes config) (protected_ids config) rs) as [Hs Hf].
  rewrite <- Hr in Hs, Hf. split_and!.
  - rewrite Hh. eapply sorted_sublist; [apply sublist_List_filter|apply sorted_seq].
  - rewrite Hh. apply Forall_forall. intros j [Hj%elem_of_seq _]%List_filter_elem. lia.
  - rewrite Hh. symmetry. by apply recent_complement.
Qed.

Lemma window_runs_ok first rest n : StronglySorted lt (first :: rest) →
  Forall (λ j, (j < n)%nat) (first :: rest) → ranges_ok n 0 (runs_loop first (S first) rest).
Proof.
  intros Hs Hf. inversion Hs as [|? ? Hs' Hi]; subst. inversion Hf as [|? ? Hn Hf']; subst.
  apply runs_ok; [lia|lia|done|]. rewrite Forall_forall in *. intros j Hj.
  specialize (Hi j Hj). specialize (Hf' j Hj). simpl in *. lia.
Qed.

(** A compaction pass summarises exactly the head and keeps the tail verbatim.
    The pass returns on every input.  When it reports [Compacted], the records
    of the view that are not summaries are the records of the recent tail, all of
    them, unchanged and in order; the spans' sources, concatenated, are the records
    of the head; putting the sources back in place of the summaries gives the
    input; and the reported span count is the view's. *)
Theorem compact_pass_exact w : is_u64 (keep_recent_bytes config) →
  ∃ w1 outcome,
    compact_selective summarize rs config tags now_ms w = (w1, Returned outcome)
    ∧ ∀ n v, outcome = Compacted n v → ∃ win ps,
        select_compaction_window rs (keep_recent_bytes config) (protected_ids config)
          (cfg_generation config) = Ok win
        ∧ n = len (spans v) ∧ map piece_record ps = view_records v
        ∧ concat (map piece_sources ps) = rs ∧ omap piece_span ps = spans v
        ∧ omap piece_kept ps = omap (λ j, rs !! j) (recent_idx win)
        ∧ concat (omap piece_covered ps) = omap (λ j, rs !! j) (head_idx win).
Proof.
  intros [_ Hk]. unfold compact_selective.
  destruct (select_compaction_window _ _ _ _) as [win|e] eqn:Hw; [|returns].
  destruct (window_head_facts win Hk Hw) as (Hs & Hf & Hr).
  destruct (head_idx win) as [|first rest] eqn:Hh; [returns|].
  destruct (seed_too_large _); [returns|].
  destruct (head_footprint_Some rs (first :: rest) 0 Hf) as [b ->].
  destruct (_ >? window_bytes config); [returns|].
  pose proof (window_runs_ok first rest _ Hs Hf) as Hok.
  pose proof (runs_covered rest first (S first) ltac:(lia)) as Hcov.
  replace (S first - first)%nat with 1%nat in Hcov by lia. simpl in Hcov.
  destruct (compress_spec summarize rs tags now_ms w (runs_loop first (S first) rest)
              (cfg_generation config) (Chain (previous_summary config))) as (w1 & res & -> & _ & H).
  destruct res as [v|e]; [|returns]. eexists _, _. split; [done|]. intros n v' [= <- <-].
  destruct (H v eq_refl) as (_ & synthetic & ps & _ & _ & _ & H1 & H2 & H3 & _ & H5 & H6).
  exists win, ps. split_and!; try done.
  - rewrite H5, gaps_idx by (done || lia). by rewrite Nat.sub_0_r, Hcov, Hr.
  - rewrite H6, Hh, (covered_slices _ _ _ Hok). by rewrite Hcov.
Qed.

End Pass.

(** ** The dry run and follow-up passes *)

Lemma runs_cons s e l : ∃ r ranges, runs_loop s e l = r :: ranges ∧ r_start r = s.
Proof.
  revert s e. induction l as [|i l IH]; intros s e; simpl; [by eexists _, _|].
  case_if; [apply IH|by eexists _, _].
Qed.

Lemma check_ranged_generations_complete g rs ranges :
  Forall (λ r, r.(rec_generation) = g) rs → check_ranged_generations g rs ranges = Ok tt.
Proof.
  intros Hg. induction ranges as [|r ranges IH]; simpl; [done|].
  rewrite check_generations_complete; [done|]. rewrite Forall_forall in *.
  intros x Hx%slice_elem. auto.
Qed.

(** What a window admits, the compression core admits, up to the span bound. *)
Lemma precheck_window_ranges rs gen ranges :
  precheck_window rs gen = Ok tt → ranges_ok (length rs) 0 ranges →
  precheck_ranges rs ranges gen
  = if len ranges >? MAX_SPANS then Err (TooManySpans MAX_SPANS) else Ok tt.
Proof.
  intros Hp Hok. destruct (precheck_window_ok _ _ _ Hp) as (Hl & Hv & _ & Hg).
  unfold precheck_ranges, validate_ranges.
  replace (len rs >? MAX_CONTEXT_RECORDS) with false by (symmetry; rewrite Z.gtb_ltb; by apply Z.ltb_ge).
  simpl. rewrite validate_records_complete by done. simpl.
  destruct (len ranges >? MAX_SPANS); [done|]. simpl.
  rewrite (proj2 (check_ranges_spec _ _ _) Hok). destruct gen as [g|]; [|done].
  by rewrite check_ranged_generations_complete by auto.
Qed.

Section Preview.
Context {W : Type} (summarize : SummarizeFn W).

(** The core, when the first span's name is taken: refused before any contact. *)
Lemma span_loop_taken rs tags now_ms w r ranges previous :
  existsb (λ x, str_eqb (rec_id x) (span_name 0)) rs = true →
  span_loop summarize rs tags now_ms w 0 (r :: ranges) previous
  = (w, Returned (Err (DuplicateId (span_name 0)))).
Proof.
  intros He. cbn [span_loop]. unfold compress_span.
  change (slen (span_name 0) >? MAX_SPAN_ID_LEN) with false. by rewrite He.
Qed.

Lemma span_loop_refused rs tags now_ms w r ranges previous w1 e :
  existsb (λ x, str_eqb (rec_id x) (span_name 0)) rs = false →
  (r_start r < r_end r ≤ length rs)%nat →
  summarize w (summarize_input 0 (slice rs r) now_ms previous) = (w1, Err e) →
  span_loop summarize rs tags now_ms w 0 (r :: ranges) previous = (w1, Returned (Err e)).
Proof.
  intros He Hr Hs. cbn [span_loop]. unfold compress_span.
  change (slen (span_name 0) >? MAX_SPAN_ID_LEN) with false. rewrite He.
  destruct (slice_cons rs r Hr) as (x & k & Hx). rewrite Hx in *. by rewrite Hs.
Qed.

(** The preview agrees with the driver.  For a valid policy and an admissible
    seed, a preview [NoOp] or [Failed] is what the driver reports, with the same
    reason and without contacting the summariser.  When the preview says
    [WouldCompact], the driver's first action is to ask the summariser for the
    first run of the head, and a failing answer is reported, except in two cases
    the preview does not look at, where it refuses without contact: more than
    [MAX_SPANS] runs, or a record that already bears the name of the first span. *)
Theorem preview_agrees rs p protect gen seed tags now_ms w :
  policy_typed p → validate_policy p = Ok tt → seed_too_large seed = None →
  let config := mkSelectiveConfig (pol_window_bytes p) (pol_keep_recent_bytes p) protect gen seed in
  let driver := compact_selective summarize rs config tags now_ms w in
  let failed w e := (w, Returned (CompactionFailed (CompressionError_to_string e))) in
  ∃ pv, preview_compaction rs p protect gen = Returned pv ∧
  match pv_outcome pv with
  | PreviewNoOp => driver = (w, Returned CompactionNoOp)
  | PreviewFailed reason => driver = (w, Returned (CompactionFailed reason))
  | WouldCompact => ∃ first rest r ranges,
      pv_head pv = first :: rest ∧ runs_loop first (S first) rest = r :: ranges ∧ r_start r = first
      ∧ if len (r :: ranges) >? MAX_SPANS then driver = failed w (TooManySpans MAX_SPANS)
        else if existsb (λ x, str_eqb (rec_id x) (span_name 0)) rs then
          driver = failed w (DuplicateId (span_name 0))
        else ∀ w1 e, summarize w (summarize_input 0 (slice rs r) now_ms (Some seed)) = (w1, Err e) →
          driver = failed w1 e
  end.
Proof.
  intros (_ & [_ Hk] & _) Hv Hseed config driver failed. unfold driver, compact_selective, preview_compaction.
  rewrite Hv. cbn [window_bytes keep_recent_bytes protected_ids cfg_generation previous_summary config].
  destruct (select_compaction_window _ _ _ _) as [win|e] eqn:Hw; [|by eexists].
  destruct (window_head_facts rs config win Hk Hw) as (Hs & Hf & _).
  destruct (select_window_spec _ _ _ _ _ Hk Hw) as (Hpre & _ & _).
  destruct (head_idx win) as [|first rest] eqn:Hh; [by eexists|]. rewrite Hseed.
  destruct (head_footprint_Some rs (first :: rest) 0 Hf) as [b ->].
  destruct (_ >? pol_window_bytes p); [by eexists|].
  pose proof (window_runs_ok first rest _ Hs Hf) as Hok.
  destruct (runs_cons first (S first) rest) as (r & ranges & Hruns & Hst).
  rewrite Hruns in Hok. eexists. split; [done|]. cbn [pv_outcome pv_head].
  exists first, rest, r, ranges. split_and!; [done..|]. rewrite Hruns.
  unfold compress_ranges_impl. rewrite (precheck_window_ranges _ _ _ Hpre Hok).
  destruct (len (r :: ranges) >? MAX_SPANS); [done|].
  destruct (existsb _ rs) eqn:He; [by rewrite span_loop_taken|].
  intros w1 e Hsum. destruct Hok as (? & ? & _). simpl next_previous.
  rewrite (span_loop_refused rs tags now_ms w r ranges (Some seed) w1 e He); [done|lia|done].
Qed.

Lemma compact_taken rs config tags now_ms w :
  is_u64 (keep_recent_bytes config) →
  existsb (λ x, str_eqb (rec_id x) (span_name 0)) rs = true →
  compact_selective summarize rs config tags now_ms w = (w, Returned CompactionNoOp)
  ∨ ∃ reason, compact_selective summarize rs config tags now_ms w
              = (w, Returned (CompactionFailed reason)).
Proof.
  intros [_ Hk] He. unfold compact_selective.
  destruct (select_compaction_window _ _ _ _) as [win|e] eqn:Hw; [|by eauto].
  destruct (window_head_facts rs config win Hk Hw) as (_ & Hf & _).
  destruct (head_idx win) as [|first rest]; [by left|]. right.
  destruct (seed_too_large _); [by eauto|].
  destruct (head_footprint_Some rs (first :: rest) 0 Hf) as [b ->].
  destruct (_ >? window_bytes config); [by eauto|].
  destruct (runs_cons first (S first) rest) as (r & ranges & -> & _).
  unfold compress_ranges_impl. destruct (precheck_ranges _ _ _) as [[]|e]; [|by eauto].
  rewrite span_loop_taken by done. by eauto.
Qed.

End Preview.

(** A successful pass names its first summary [cmp-0000]. *)
Lemma compacted_first_name {W} (summarize : SummarizeFn W) rs config tags now_ms w w1 n v :
  compact_selective summarize rs config tags now_ms w = (w1, Returned (Compacted n v)) →
  existsb (λ x, str_eqb (rec_id x) (span_name 0)) (view_records v) = true.
Proof.
  unfold compact_selective. intros E.
  destruct (select_compaction_window _ _ _ _) as [win|e]; [|done].
  destruct (head_idx win) as [|first rest]; [done|].
  destruct (seed_too_large _); [done|]. destruct (head_footprint _ _ _) as [b|]; [|done].
  destruct (_ >? window_bytes config); [done|].
  destruct (runs_cons first (S first) rest) as (r & ranges & Hruns & _).
  destruct (compress_spec summarize rs tags now_ms w (runs_loop first (S first) rest)
              (cfg_generation config) (Chain (previous_summary config))) as (w2 & res & Hc & _ & H).
  rewrite Hc in E. destruct res as [v'|e]; [|done]. simplify_eq.
  destruct (H v eq_refl) as (_ & synthetic & ps & Hs & _ & _ & <- & _ & H3 & H4 & _).
  destruct (spanned_names _ _ _ _ _ _ _ _ _ _ _ Hs) as [Hn _]. rewrite Hruns in Hn.
  destruct (spans v) as [|s0 ss]; [done|]. injection Hn as Hn _.
  assert (s0 ∈ omap piece_span ps) as Hin by (rewrite H3; by left).
  apply list_elem_of_omap in Hin as ([|s r' cov] & Hp & Heq); simpl in Heq; [done|].
  rewrite Forall_forall in H4. specialize (H4 _ Hp). simpl in H4.
  destruct (sum_record _ _ _ _ _ H4) as [Hid _]. injection Heq as ->.
  apply existsb_true_iff. exists r'. split.
  - by apply (list_elem_of_fmap_2 piece_record _ (Summed s0 r' cov)).
  - apply str_eqb_eq. by rewrite Hid, Hn.
Qed.

(** A compacted view cannot be compacted again.  Span ids restart at [cmp-0000]
    in every pass, so for every view a pass returned, every later pass over that
    view's records, with any host, configuration and tags, is a no-op or is
    refused, and never contacts the summariser. *)
Theorem followup_pass_refused {W W'} (summarize : SummarizeFn W) (summarize' : SummarizeFn W')
    rs config tags now_ms w w1 n v config' tags' now_ms' w' :
  compact_selective summarize rs config tags now_ms w = (w1, Returned (Compacted n v)) →
  is_u64 (keep_recent_bytes config') →
  let again := compact_selective summarize' (view_records v) config' tags' now_ms' w' in
  again = (w', Returned CompactionNoOp) ∨ ∃ reason, again = (w', Returned (CompactionFailed reason)).
Proof.
  intros E Hk again. apply compact_taken; [done|]. by eapply compacted_first_name.
Qed.

(** ** Witnesses *)

Definition pass_config : SelectiveCompactionConfig := mkSelectiveConfig 8192 24 ["p"] (Some 1) None.

Definition pass_sample :=
  compact_selective FakeSummarizer_summarize window_sample pass_config tags_new 500 sample_script.

Definition pass_view : CompressedView :=
  match pass_sample.2 with Returned (Compacted _ v) => v | _ => mkView [] [] [] [] end.

Lemma pass_sample_ok :
  pass_sample = (mkFakeSummarizer (scripted sample_script) 2, Returned (Compacted 2 pass_view)).
Proof. vm_compute. reflexivity. Qed.

Lemma compact_pass_exact_witness :
  ∃ w1 outcome, pass_sample = (w1, Returned outcome) ∧ outcome = Compacted 2 pass_view
    ∧ ∃ win ps,
        select_compaction_window window_sample 24 ["p"] (Some 1) = Ok win
        ∧ 2 = len (spans pass_view) ∧ map piece_record ps = view_records pass_view
        ∧ concat (map piece_sources ps) = window_sample ∧ omap piece_span ps = spans pass_view
        ∧ omap piece_kept ps = omap (λ j, window_sample !! j) (recent_idx win)
        ∧ concat (omap piece_covered ps) = omap (λ j, window_sample !! j) (head_idx win).
Proof.
  destruct (compact_pass_exact FakeSummarizer_summarize window_sample pass_config tags_new 500
              sample_script) as (w1 & outcome & E & H); [split; vm_compute; congruence|].
  exists w1, outcome. pose proof pass_sample_ok as E2. unfold pass_sample in *. rewrite E in E2.
  injection E2 as -> ->. split; [done|]. split; [done|]. exact (H 2 pass_view eq_refl).
Defined.

Definition preview_policy : CompactionPolicy := mkCompactionPolicy 8192 24 15 100 3.

Lemma preview_agrees_witness :
  let config := mkSelectiveConfig 8192 24 [] (Some 1) None in
  let failing : SummarizeFn nat := λ n _, (S n, Err (SummarizerFailed "down")) in
  let driver := compact_selective failing window_sample config tags_new 500 0%nat in
  let failed w e := (w, Returned (CompactionFailed (CompressionError_to_string e))) in
  ∃ pv, preview_compaction window_sample preview_policy [] (Some 1) = Returned pv ∧
  match pv_outcome pv with
  | PreviewNoOp => driver = (0%nat, Returned CompactionNoOp)
  | PreviewFailed reason => driver = (0%nat, Returned (CompactionFailed reason))
  | WouldCompact => ∃ first rest r ranges,
      pv_head pv = first :: rest ∧ runs_loop first (S first) rest = r :: ranges ∧ r_start r = first
      ∧ if len (r :: ranges) >? MAX_SPANS then driver = failed 0%nat (TooManySpans MAX_SPANS)
        else if existsb (λ x, str_eqb (rec_id x) (span_name 0)) window_sample then
          driver = failed 0%nat (DuplicateId (span_name 0))
        else ∀ w1 e, failing 0%nat (summarize_input 0 (slice window_sample r) 500 (Some None)) = (w1, Err e) →
          driver = failed w1 e
  end.
Proof.
  intros config failing. apply (preview_agrees failing window_sample preview_policy [] (Some 1) None);
    [|reflexivity|reflexivity]. repeat split; vm_compute; congruence.
Defined.

Lemma followup_pass_refused_witness :
  let again := compact_selective FakeSummarizer_summarize (view_records pass_view)
                 (selective_new 65536) tags_new 600 sample_script in
  again = (sample_script, Returned CompactionNoOp)
  ∨ ∃ reason, again = (sample_script, Returned (CompactionFailed reason)).
Proof.
  apply (followup_pass_refused FakeSummarizer_summarize FakeSummarizer_summarize window_sample pass_config
           tags_new 500 sample_script (mkFakeSummarizer (scripted sample_script) 2) 2 pass_view); [exact pass_sample_ok|].
  split; vm_compute; congruence.
Defined.

(** A follow-up pass with something to compact is refused by the collision. *)
Example followup_collides :
  compact_selective FakeSummarizer_summarize (view_records pass_view) (mkSelectiveConfig 8192 0 [] None None)
    tags_new 600 sample_script
  = (sample_script, Returned (CompactionFailed "span id collides with source record: cmp-0000")).
Proof. vm_compute. reflexivity. Qed.

(** The rolling summary crosses the trust boundary: a summariser that repeats what
    it was given carries the text of an untrusted record into a summary that is
    marked trusted, and deleting the untrusted record leaves that text behind. *)
Definition repeating : SummarizeFn () := λ w input,
  (w, Ok (match si_previous_summary input with
          | Some text => text
          | None => String.concat "; " (si_source_summaries input)
          end)).

Definition crossing_sample : list ContextRecord :=
  [mkContextRecord "u" "terminal" "o" 1 10 Normal "planted text" (Inline []) None true;
   mkContextRecord "p" "workspace" "o" 1 10 High "kept" (Inline []) None false;
   mkContextRecord "t" "workspace" "o" 1 10 High "trusted" (Inline []) None false;
   mkContextRecord "z" "workspace" "o" 1 10 High "newest" (Inline []) None false].

Example rolling_summary_crosses_trust :
  ∃ v, compact_selective repeating crossing_sample (mkSelectiveConfig 8192 0 ["p"] None None) tags_new
         500 () = ((), Returned (Compacted 2 v))
  ∧ map (λ s, (source_ids s, span_summary s, span_untrusted s)) (spans v)
    = [(["u"], "planted text", true); (["t"], "planted text", false)]
  ∧ resolve_summary (delete_ids v ["u"]).1 "cmp-0001" = Ok "planted text".
Proof. eexists. split; [vm_compute; reflexivity|]. split; vm_compute; reflexivity. Qed.
