(* ===== verification/Manifest.v ===== *)
(** * Manifest: the launch manifest of the control helper

    Models [manifest.rs] of [crates/bitty-ai-control] and the constants of its
    [lib.rs]: the one-shot binary record with its cursor parser, reference encoder
    and validation, the bounded read to end-of-file, and the non-secret
    expectations the helper compares with the [Establish] echo.  The TLS
    provider's check of the helper key and SHA-256 are parameters. *)

From S2P Require Import Prelude Text Wire.

Local Open Scope Z_scope.
Local Open Scope rust_scope.

Definition BOOTSTRAP_FORMAT_VERSION : Z := 1.
Definition CONTROL_PROTOCOL_VERSION : Z := 1.
Definition CORE_ROLE : Z := 1.
Definition HELPER_ROLE : Z := 2.
Definition DELEGATION_PURPOSE : string := "provider-routing-publication".
Definition CONTROL_PROFILE : string := "provider-publication-control/1".
Definition KEY_MATERIAL_PROFILE_MUTUAL_CERTIFICATES : Z := 1.
Definition KEY_TYPE_ECDSA_P256 : Z := 1.
Definition CONTROL_BOOTSTRAP_MAX_BYTES : Z := 4 * 1024.
Definition LAUNCH_CERT_MAX_BYTES : Z := 1024.
Definition LAUNCH_KEY_MAX_BYTES : Z := 256.
Definition CONTROL_STRING_MAX_BYTES : Z := 128.
Definition RANDOM_ID_BYTES : Z := 32.

Inductive ManifestError :=
| TotalTooLarge
| Truncated (field : string)
| TrailingBytes
| UnsupportedBootstrapVersion (version : Z)
| UnsupportedControlProtocolVersion (version : Z)
| UnexpectedCoreRole (role : Z)
| UnexpectedHelperRole (role : Z)
| FieldTooLarge (field : string) (length max : Z)
| EmptyField (field : string)
| InvalidUtf8 (field : string)
| UnsupportedDelegationPurpose
| UnsupportedControlProfile
| UnsupportedKeyMaterialProfile (profile : Z)
| UnsupportedKeyType (key_type : Z)
| HelperKeyMismatch
| InvalidHelperKeyMaterial
| HelperKeyNotP256.

(** [Display for ManifestError] *)
Definition ManifestError_to_string (e : ManifestError) : string :=
  match e with
  | TotalTooLarge =>
      "launch manifest exceeds the " +:+ show CONTROL_BOOTSTRAP_MAX_BYTES +:+ "-byte bootstrap bound"
  | Truncated field => "launch manifest truncated while reading " +:+ field
  | TrailingBytes => "launch manifest has trailing bytes after the exact record"
  | UnsupportedBootstrapVersion v => "unsupported bootstrap format version " +:+ show v
  | UnsupportedControlProtocolVersion v => "unsupported control protocol version " +:+ show v
  | UnexpectedCoreRole r => "unexpected Core role byte " +:+ show r
  | UnexpectedHelperRole r => "unexpected helper role byte " +:+ show r
  | FieldTooLarge field length max =>
      field +:+ " is " +:+ show length +:+ " bytes, exceeding the " +:+ show max +:+ "-byte bound"
  | EmptyField field => field +:+ " must not be empty"
  | InvalidUtf8 field => field +:+ " is not valid UTF-8"
  | UnsupportedDelegationPurpose => "delegation purpose is not the fixed control purpose"
  | UnsupportedControlProfile => "control profile is not provider-publication-control/1"
  | UnsupportedKeyMaterialProfile p => "unsupported key-material profile " +:+ show p
  | UnsupportedKeyType k => "unsupported key type " +:+ show k
  | HelperKeyMismatch => "helper certificate public key does not match the helper private key"
  | InvalidHelperKeyMaterial =>
      "helper certificate or private key could not be loaded by the provider"
  | HelperKeyNotP256 => "helper key is not ECDSA P-256 as required by key_type 1"
  end.

Record LaunchKeyMaterial := mkKeyMaterial {
  km_profile : Z;
  km_key_type : Z;
  core_certificate_der : bytes;
  helper_certificate_der : bytes;
  helper_private_key_pkcs8_der : bytes
}.

(** Nonces and digests are [u8; 32] in the source. *)
Record LaunchManifest := mkManifest {
  core_instance_nonce : bytes;
  launch_nonce : bytes;
  component_name : string;
  descriptor_version : string;
  executable_name : string;
  executable_sha256 : bytes;
  component_protocol_version : Z;
  control_channel_nonce : bytes;
  data_channel_nonce : bytes;
  delegation_purpose : string;
  control_profile : string;
  key_material : LaunchKeyMaterial
}.

(** ** The cursor *)

Record Cursor := mkCursor { cur_input : bytes; cur_offset : nat }.

(** [Cursor::is_empty] *)
Definition cursor_is_empty (c : Cursor) : bool := (c.(cur_offset) =? length c.(cur_input))%nat.

(** [Cursor::take] *)
Definition cursor_take (c : Cursor) (length : Z) (field : string) :
    result (bytes * Cursor) ManifestError :=
  match checked_add64 (Z.of_nat c.(cur_offset)) length with
  | None => Err (Truncated field)
  | Some stop =>
      ensure! negb (stop >? len c.(cur_input)) else Truncated field in
      Ok (take (Z.to_nat length) (drop c.(cur_offset) c.(cur_input)),
          mkCursor c.(cur_input) (Z.to_nat stop))
  end.

(** [Cursor::u8], [Cursor::u16] and [Cursor::u32]: [width] bytes, big-endian. *)
Definition cursor_uint (width : Z) (c : Cursor) (field : string) :
    result (Z * Cursor) ManifestError :=
  try! (l, c) := cursor_take c width field in Ok (from_be_bytes l, c).

Definition cursor_u8 : Cursor → string → result (Z * Cursor) ManifestError := cursor_uint 1.
Definition cursor_u16 : Cursor → string → result (Z * Cursor) ManifestError := cursor_uint 2.
Definition cursor_u32 : Cursor → string → result (Z * Cursor) ManifestError := cursor_uint 4.

(** [Cursor::array::<32>] *)
Definition cursor_array (c : Cursor) (field : string) : result (bytes * Cursor) ManifestError :=
  cursor_take c RANDOM_ID_BYTES field.

(** [Cursor::bounded_bytes] *)
Definition bounded_bytes (c : Cursor) (field : string) (max : Z) :
    result (bytes * Cursor) ManifestError :=
  try! (length, c) := cursor_u32 c field in
  ensure! negb (length >? max) else FieldTooLarge field length max in
  cursor_take c length field.

(** [Cursor::bounded_string] *)
Definition bounded_string (c : Cursor) (field : string) : result (string * Cursor) ManifestError :=
  try! (l, c) := bounded_bytes c field CONTROL_STRING_MAX_BYTES in
  match l with
  | [] => Err (EmptyField field)
  | _ =>
      match from_utf8 l with
      | Some s => Ok (s, c)
      | None => Err (InvalidUtf8 field)
      end
  end.

(** ** Validation *)

Definition validate_string (field value : string) : result unit ManifestError :=
  ensure! negb (is_empty value) else EmptyField field in
  ensure! negb (slen value >? CONTROL_STRING_MAX_BYTES)
  else FieldTooLarge field (slen value) CONTROL_STRING_MAX_BYTES in
  Ok tt.

Definition validate_bytes (field : string) (value : bytes) (max : Z) : result unit ManifestError :=
  ensure! negb (bool_decide (value = [])) else EmptyField field in
  ensure! negb (len value >? max) else FieldTooLarge field (len value) max in
  Ok tt.

(** [LaunchManifest::validate_non_key] *)
Definition validate_non_key (m : LaunchManifest) : result unit ManifestError :=
  let k := m.(key_material) in
  try! _ := validate_string "component_name" m.(component_name) in
  try! _ := validate_string "descriptor_version" m.(descriptor_version) in
  try! _ := validate_string "executable_name" m.(executable_name) in
  try! _ := validate_string "delegation_purpose" m.(delegation_purpose) in
  try! _ := validate_string "control_profile" m.(control_profile) in
  ensure! str_eqb m.(delegation_purpose) DELEGATION_PURPOSE else UnsupportedDelegationPurpose in
  ensure! str_eqb m.(control_profile) CONTROL_PROFILE else UnsupportedControlProfile in
  ensure! (k.(km_profile) =? KEY_MATERIAL_PROFILE_MUTUAL_CERTIFICATES)
  else UnsupportedKeyMaterialProfile k.(km_profile) in
  ensure! (k.(km_key_type) =? KEY_TYPE_ECDSA_P256) else UnsupportedKeyType k.(km_key_type) in
  try! _ := validate_bytes "core_certificate_der" k.(core_certificate_der) LAUNCH_CERT_MAX_BYTES in
  try! _ := validate_bytes "helper_certificate_der" k.(helper_certificate_der)
              LAUNCH_CERT_MAX_BYTES in
  validate_bytes "helper_private_key_pkcs8_der" k.(helper_private_key_pkcs8_der)
    LAUNCH_KEY_MAX_BYTES.

(** ** The reference encoder *)

(** [write_bytes] and [write_string]; a length that does not fit a [u32] panics
    in the source, and the validated lengths are far below it. *)
Definition write_bytes (l : bytes) : bytes := to_be_bytes 4 (len l) ++ l.
Definition write_string (s : string) : bytes := write_bytes (as_bytes s).

(** [LaunchManifest::encode] *)
Definition encode_manifest (m : LaunchManifest) : bytes :=
  let k := m.(key_material) in
  to_be_bytes 2 BOOTSTRAP_FORMAT_VERSION ++ to_be_bytes 2 CONTROL_PROTOCOL_VERSION
  ++ to_be_bytes 1 CORE_ROLE ++ to_be_bytes 1 HELPER_ROLE
  ++ m.(core_instance_nonce) ++ m.(launch_nonce)
  ++ write_string m.(component_name) ++ write_string m.(descriptor_version)
  ++ write_string m.(executable_name) ++ m.(executable_sha256)
  ++ to_be_bytes 2 m.(component_protocol_version)
  ++ m.(control_channel_nonce) ++ m.(data_channel_nonce)
  ++ write_string m.(delegation_purpose) ++ write_string m.(control_profile)
  ++ to_be_bytes 1 k.(km_profile) ++ to_be_bytes 1 k.(km_key_type)
  ++ write_bytes k.(core_certificate_der) ++ write_bytes k.(helper_certificate_der)
  ++ write_bytes k.(helper_private_key_pkcs8_der).

(** ** The parser *)

Section Parse.
(** [validated_helper_key]: loading the pair through the TLS provider. *)
Context (validated_helper_key : LaunchManifest → result unit ManifestError).

(** [LaunchManifest::validate] *)
Definition validate_manifest (m : LaunchManifest) : result unit ManifestError :=
  try! _ := validate_non_key m in validated_helper_key m.

(** [LaunchManifest::parse] *)
Definition parse_manifest (l : bytes) : result LaunchManifest ManifestError :=
  ensure! negb (len l >? CONTROL_BOOTSTRAP_MAX_BYTES) else TotalTooLarge in
  let c := mkCursor l 0 in
  try! (version, c) := cursor_u16 c "bootstrap_format_version" in
  ensure! (version =? BOOTSTRAP_FORMAT_VERSION) else UnsupportedBootstrapVersion version in
  try! (protocol, c) := cursor_u16 c "control_protocol_version" in
  ensure! (protocol =? CONTROL_PROTOCOL_VERSION) else UnsupportedControlProtocolVersion protocol in
  try! (core, c) := cursor_u8 c "core_role" in
  ensure! (core =? CORE_ROLE) else UnexpectedCoreRole core in
  try! (helper, c) := cursor_u8 c "helper_role" in
  ensure! (helper =? HELPER_ROLE) else UnexpectedHelperRole helper in
  try! (core_instance_nonce, c) := cursor_array c "core_instance_nonce" in
  try! (launch_nonce, c) := cursor_array c "launch_nonce" in
  try! (component_name, c) := bounded_string c "component_name" in
  try! (descriptor_version, c) := bounded_string c "descriptor_version" in
  try! (executable_name, c) := bounded_string c "executable_name" in
  try! (executable_sha256, c) := cursor_array c "executable_sha256" in
  try! (component_protocol_version, c) := cursor_u16 c "component_protocol_version" in
  try! (control_channel_nonce, c) := cursor_array c "control_channel_nonce" in
  try! (data_channel_nonce, c) := cursor_array c "data_channel_nonce" in
  try! (delegation_purpose, c) := bounded_string c "delegation_purpose" in
  try! (control_profile, c) := bounded_string c "control_profile" in
  try! (profile, c) := cursor_u8 c "key_material_profile" in
  ensure! (profile =? KEY_MATERIAL_PROFILE_MUTUAL_CERTIFICATES)
  else UnsupportedKeyMaterialProfile profile in
  try! (key_type, c) := cursor_u8 c "key_type" in
  ensure! (key_type =? KEY_TYPE_ECDSA_P256) else UnsupportedKeyType key_type in
  try! (core_der, c) := bounded_bytes c "core_certificate_der" LAUNCH_CERT_MAX_BYTES in
  try! (helper_der, c) := bounded_bytes c "helper_certificate_der" LAUNCH_CERT_MAX_BYTES in
  try! (helper_key, c) := bounded_bytes c "helper_private_key_pkcs8_der" LAUNCH_KEY_MAX_BYTES in
  ensure! cursor_is_empty c else TrailingBytes in
  let manifest :=
    mkManifest core_instance_nonce launch_nonce component_name descriptor_version executable_name
      executable_sha256 component_protocol_version control_channel_nonce data_channel_nonce
      delegation_purpose control_profile
      (mkKeyMaterial profile key_type core_der helper_der helper_key) in
  try! _ := validate_manifest manifest in
  Ok manifest.

Inductive ManifestReadError :=
| ReadIo (e : option IoError)
| ReadManifest (e : ManifestError).

(** [LaunchManifest::read_from]: one iteration per [read] call; an interruption is
    a read error here. *)
Fixpoint read_from_loop (fuel : nat) (events : list ReadEvent) (buffer : bytes) :
    list ReadEvent * run (result bytes ManifestReadError) :=
  match fuel with
  | O => (events, OutOfFuel)
  | S fuel =>
      match read_call 512 events with
      | (events, Err e) => (events, Returned (Err (ReadIo e)))
      | (events, Ok []) => (events, Returned (Ok buffer))
      | (events, Ok l) =>
          match checked_add64 (len buffer) (len l) with
          | None => (events, Returned (Err (ReadManifest TotalTooLarge)))
          | Some total =>
              if total >? CONTROL_BOOTSTRAP_MAX_BYTES then
                (events, Returned (Err (ReadManifest TotalTooLarge)))
              else read_from_loop fuel events (buffer ++ l)
          end
      end
  end.

(** One call per answer and per delivered byte is enough. *)
Fixpoint stream_size (events : list ReadEvent) : nat :=
  match events with
  | [] => 0
  | RdData l :: events => 1 + length l + stream_size events
  | _ :: events => 1 + stream_size events
  end.

Definition read_from (events : list ReadEvent) :
    list ReadEvent * run (result LaunchManifest ManifestReadError) :=
  match read_from_loop (S (stream_size events)) events [] with
  | (events, Returned (Ok buffer)) =>
      (events, Returned (map_err ReadManifest (parse_manifest buffer)))
  | (events, Returned (Err e)) => (events, Returned (Err e))
  | (events, Panicked) => (events, Panicked)
  | (events, OutOfFuel) => (events, OutOfFuel)
  end.

End Parse.

(** ** Establishment expectations *)

(** [EstablishmentEcho] of the record contract: the fields [verify] reads, which
    are also the fields of [EstablishmentExpectations]. *)
Record EstablishmentEcho := mkEcho {
  echo_bootstrap_format_version : Z;
  echo_control_protocol_version : Z;
  echo_core_instance_nonce : bytes;
  echo_launch_nonce : bytes;
  echo_component_name : string;
  echo_descriptor_version : string;
  echo_executable_name : string;
  echo_executable_sha256 : bytes;
  echo_component_protocol_version : Z;
  echo_control_channel_nonce : bytes;
  echo_data_channel_nonce : bytes;
  echo_delegation_purpose : string;
  echo_control_profile : string;
  echo_key_material_profile : Z;
  echo_key_type : Z;
  echo_core_leaf_digest : bytes;
  echo_helper_leaf_digest : bytes
}.

Definition EstablishmentExpectations : Type := EstablishmentEcho.

(** [EstablishmentExpectations::from_manifest]; [sha256] is the digest of
    [CertificatePin::of_der]. *)
Definition expectations_from_manifest (sha256 : bytes → bytes) (m : LaunchManifest) :
    EstablishmentExpectations :=
  let k := m.(key_material) in
  mkEcho BOOTSTRAP_FORMAT_VERSION CONTROL_PROTOCOL_VERSION m.(core_instance_nonce) m.(launch_nonce)
    m.(component_name) m.(descriptor_version) m.(executable_name) m.(executable_sha256)
    m.(component_protocol_version) m.(control_channel_nonce) m.(data_channel_nonce)
    m.(delegation_purpose) m.(control_profile) k.(km_profile) k.(km_key_type)
    (sha256 k.(core_certificate_der)) (sha256 k.(helper_certificate_der)).

Definition bytes_eqb (a b : bytes) : bool := bool_decide (a = b).

(** [EstablishmentExpectations::verify] *)
Definition verify_echo (e : EstablishmentExpectations) (echo : EstablishmentEcho) :
    result unit string :=
  ensure! (echo_bootstrap_format_version echo =? echo_bootstrap_format_version e)
  else "bootstrap_format_version" in
  ensure! (echo_control_protocol_version echo =? echo_control_protocol_version e)
  else "control_protocol_version" in
  ensure! bytes_eqb (echo_core_instance_nonce echo) (echo_core_instance_nonce e)
  else "core_instance_nonce" in
  ensure! bytes_eqb (echo_launch_nonce echo) (echo_launch_nonce e) else "launch_nonce" in
  ensure! str_eqb (echo_component_name echo) (echo_component_name e) else "component_name" in
  ensure! str_eqb (echo_descriptor_version echo) (echo_descriptor_version e)
  else "descriptor_version" in
  ensure! str_eqb (echo_executable_name echo) (echo_executable_name e) else "executable_name" in
  ensure! bytes_eqb (echo_executable_sha256 echo) (echo_executable_sha256 e)
  else "executable_sha256" in
  ensure! (echo_component_protocol_version echo =? echo_component_protocol_version e)
  else "component_protocol_version" in
  ensure! bytes_eqb (echo_control_channel_nonce echo) (echo_control_channel_nonce e)
  else "control_channel_nonce" in
  ensure! bytes_eqb (echo_data_channel_nonce echo) (echo_data_channel_nonce e)
  else "data_channel_nonce" in
  ensure! str_eqb (echo_delegation_purpose echo) (echo_delegation_purpose e)
  else "delegation_purpose" in
  ensure! str_eqb (echo_control_profile echo) (echo_control_profile e) else "control_profile" in
  ensure! (echo_key_material_profile echo =? echo_key_material_profile e)
  else "key_material_profile" in
  ensure! (echo_key_type echo =? echo_key_type e) else "key_type" in
  ensure! bytes_eqb (echo_core_leaf_digest echo) (echo_core_leaf_digest e)
  else "core_leaf_digest" in
  ensure! bytes_eqb (echo_helper_leaf_digest echo) (echo_helper_leaf_digest e)
  else "helper_leaf_digest" in
  Ok tt.

(** ** Readers and their encodings *)

(** The cursor behind [a], with [l] still to read. *)
Definition at_ (a l : bytes) : Cursor := mkCursor (a ++ l) (length a).

(** A reader that accepts exactly the encodings of the values satisfying [ok]. *)
Definition reads {A} (p : Cursor → result (A * Cursor) ManifestError) (enc : A → bytes)
    (ok : A → Prop) : Prop :=
  (∀ a l v, ok v → len a + len (enc v) ≤ u64_max →
     p (at_ a (enc v ++ l)) = Ok (v, at_ (a ++ enc v) l))
  ∧ (∀ a l v c, p (at_ a l) = Ok (v, c) →
     ok v ∧ ∃ l', l = enc v ++ l' ∧ c = at_ (a ++ enc v) l').

Lemma cursor_take_inv a l n f x c : 0 ≤ n → cursor_take (at_ a l) n f = Ok (x, c) →
  len x = n ∧ ∃ l', l = x ++ l' ∧ c = at_ (a ++ x) l'.
Proof.
  intros Hn. unfold cursor_take, checked_add64, at_. cbn [cur_input cur_offset].
  destruct (_ <=? u64_max) eqn:E; [|done]. destruct (negb _) eqn:E2; [|done]. reflect_bools.
  rewrite len_app in E2. unfold len in *. intros [= <- <-]. rewrite drop_app_length.
  split; [rewrite length_take; lia|]. exists (drop (Z.to_nat n) l). rewrite take_drop.
  split; [done|]. unfold at_. rewrite <- app_assoc, take_drop, length_app, length_take.
  f_equal. lia.
Qed.

Lemma cursor_take_fwd a x l f : len a + len x ≤ u64_max →
  cursor_take (at_ a (x ++ l)) (len x) f = Ok (x, at_ (a ++ x) l).
Proof.
  intros Hb. unfold cursor_take, checked_add64, at_. cbn [cur_input cur_offset].
  replace (Z.of_nat (length a) + len x <=? u64_max) with true by (symmetry; apply Z.leb_le; exact Hb).
  replace (negb _) with true.
  2:{ symmetry. apply negb_true_iff. rewrite Z.gtb_ltb. apply Z.ltb_ge. rewrite !len_app.
      unfold len. lia. }
  unfold len. rewrite Nat2Z.id, drop_app_length, take_app_length. f_equal. f_equal.
  rewrite <- app_assoc. f_equal. rewrite length_app. lia.
Qed.

Lemma reads_array f : reads (λ c, cursor_array c f) (λ x, x) (λ x, len x = RANDOM_ID_BYTES).
Proof.
  unfold cursor_array. split.
  - intros a l v Hv Hb. rewrite <- Hv. by apply cursor_take_fwd.
  - intros a l v c H. by apply cursor_take_inv in H.
Qed.

Lemma reads_uint w f : reads (λ c, cursor_uint (Z.of_nat w) c f) (to_be_bytes w)
  (λ v, 0 ≤ v < 256 ^ Z.of_nat w).
Proof.
  unfold cursor_uint. split.
  - intros a l v Hv Hb.
    assert (len (to_be_bytes w v) = Z.of_nat w) as Hl by (unfold len; by rewrite length_to_be).
    rewrite <- Hl, cursor_take_fwd by done. by rewrite from_to_be.
  - intros a l v c H. destruct (cursor_take _ _ _) as [[x c']|] eqn:E; [|done]. injection H as <- <-.
    apply cursor_take_inv in E as (Hl & l' & -> & ->); [|lia].
    assert (length x = w) as Hw by (unfold len in Hl; lia). subst w.
    split; [apply from_be_bounds|]. rewrite to_from_be. by exists l'.
Qed.

Lemma reads_bounded_bytes f max : 0 ≤ max < 2 ^ 32 →
  reads (λ c, bounded_bytes c f max) write_bytes (λ x, len x ≤ max).
Proof.
  intros Hmax. destruct (reads_uint 4 f) as [Hf Hi]. change (Z.of_nat 4) with 4 in Hf, Hi.
  unfold bounded_bytes, cursor_u32, write_bytes.
  split.
  - intros a l v Hv Hb. rewrite len_app in Hb. rewrite <- app_assoc.
    pose proof (len_nonneg v). rewrite (Hf a (v ++ l) (len v)); [|lia|lia].
    replace (negb (len v >? max)) with true
      by (symmetry; apply negb_true_iff; rewrite Z.gtb_ltb; apply Z.ltb_ge; lia).
    rewrite cursor_take_fwd by (rewrite len_app; lia). by rewrite <- app_assoc.
  - intros a l v c H. destruct (cursor_uint 4 (at_ a l) f) as [[n c']|] eqn:E; [|done].
    apply Hi in E as (Hn & l' & -> & ->). case_if_in H; [|done]. reflect_bools.
    apply cursor_take_inv in H as (Hl & l2 & -> & ->); [|lia]. split; [lia|]. exists l2.
    rewrite Hl, <- !app_assoc. done.
Qed.

Lemma from_utf8_spec l s : from_utf8 l = Some s ↔ is_str s ∧ as_bytes s = l.
Proof.
  unfold from_utf8, is_str. split.
  - destruct (utf8_valid l) eqn:E; [|done]. intros [= <-]. by rewrite as_bytes_of_bytes.
  - intros [H <-]. by rewrite H, of_bytes_as_bytes.
Qed.

Lemma slen_as_bytes s : len (as_bytes s) = slen s.
Proof. unfold len, slen. by rewrite as_bytes_length. Qed.

Lemma reads_string f : reads (λ c, bounded_string c f) write_string
  (λ s, is_str s ∧ s ≠ EmptyString ∧ slen s ≤ CONTROL_STRING_MAX_BYTES).
Proof.
  destruct (reads_bounded_bytes f CONTROL_STRING_MAX_BYTES) as [Hf Hi];
    [unfold CONTROL_STRING_MAX_BYTES; lia|]. unfold bounded_string, write_string. split.
  - intros a l s (Hs & Hne & Hl) Hb. rewrite Hf; [|by rewrite slen_as_bytes|done].
    rewrite (proj2 (from_utf8_spec (as_bytes s) s) (conj Hs eq_refl)).
    destruct s; [done|]. done.
  - intros a l s c H. destruct (bounded_bytes _ _ _) as [[x c']|] eqn:E; [|done].
    apply Hi in E as (Hx & l' & -> & ->). destruct x as [|b x]; [done|].
    destruct (from_utf8 (b :: x)) as [s'|] eqn:Eu; [|done]. injection H as <- <-.
    apply from_utf8_spec in Eu as [Hs Hb]. rewrite <- Hb. split.
    + split_and!; [done| |rewrite <- slen_as_bytes, Hb; done]. intros ->. done.
    + exists l'. done.
Qed.

(** What the Rust types say of a manifest. *)
Record manifest_typed (m : LaunchManifest) : Prop := {
  mt_nonces : len (core_instance_nonce m) = RANDOM_ID_BYTES ∧ len (launch_nonce m) = RANDOM_ID_BYTES
    ∧ len (control_channel_nonce m) = RANDOM_ID_BYTES ∧ len (data_channel_nonce m) = RANDOM_ID_BYTES;
  mt_digest : len (executable_sha256 m) = RANDOM_ID_BYTES;
  mt_strings : is_str (component_name m) ∧ is_str (descriptor_version m) ∧ is_str (executable_name m)
    ∧ is_str (delegation_purpose m) ∧ is_str (control_profile m);
  mt_version : 0 ≤ component_protocol_version m < 2 ^ 16
}.

Lemma validate_string_ok f s : validate_string f s = Ok tt ↔
  s ≠ EmptyString ∧ slen s ≤ CONTROL_STRING_MAX_BYTES.
Proof.
  unfold validate_string. destruct s as [|c s]; simpl; [split; [done|by intros []]|].
  destruct (negb _) eqn:E; reflect_bools; (split; [done || (intros _; split; [done|lia])|]).
  - done.
  - intros [_ ?]. lia.
Qed.

Lemma validate_bytes_ok f l max : validate_bytes f l max = Ok tt ↔ l ≠ [] ∧ len l ≤ max.
Proof.
  unfold validate_bytes. destruct (bool_decide_reflect (l = [])) as [->|Hne]; simpl.
  - split; [done|by intros []].
  - destruct (negb _) eqn:E; reflect_bools; (split; [done || (intros _; split; [done|lia])|]).
    + done.
    + intros [_ ?]. lia.
Qed.

Record non_key_ok (m : LaunchManifest) : Prop := {
  nk_names : (component_name m ≠ EmptyString ∧ slen (component_name m) ≤ CONTROL_STRING_MAX_BYTES)
    ∧ (descriptor_version m ≠ EmptyString ∧ slen (descriptor_version m) ≤ CONTROL_STRING_MAX_BYTES)
    ∧ (executable_name m ≠ EmptyString ∧ slen (executable_name m) ≤ CONTROL_STRING_MAX_BYTES);
  nk_fixed : delegation_purpose m = DELEGATION_PURPOSE ∧ control_profile m = CONTROL_PROFILE;
  nk_tags : km_profile (key_material m) = KEY_MATERIAL_PROFILE_MUTUAL_CERTIFICATES
    ∧ km_key_type (key_material m) = KEY_TYPE_ECDSA_P256;
  nk_keys : (core_certificate_der (key_material m) ≠ []
             ∧ len (core_certificate_der (key_material m)) ≤ LAUNCH_CERT_MAX_BYTES)
    ∧ (helper_certificate_der (key_material m) ≠ []
       ∧ len (helper_certificate_der (key_material m)) ≤ LAUNCH_CERT_MAX_BYTES)
    ∧ (helper_private_key_pkcs8_der (key_material m) ≠ []
       ∧ len (helper_private_key_pkcs8_der (key_material m)) ≤ LAUNCH_KEY_MAX_BYTES)
}.

(** Take the next [try!] or [ensure!] of [H] as passed. *)
Ltac passed H :=
  match type of H with
  | match ?r with Ok _ => _ | Err _ => _ end = _ =>
      let E := fresh "E" in destruct r as [[]|] eqn:E; [|discriminate H]
  | (if ?b then _ else _) = _ => let E := fresh "E" in destruct b eqn:E; [|discriminate H]
  end.

Lemma validate_non_key_ok m : validate_non_key m = Ok tt ↔ non_key_ok m.
Proof.
  unfold validate_non_key. split.
  - intros H. do 11 passed H. reflect_bools.
    repeat match goal with
    | E : str_eqb _ _ = true |- _ => apply str_eqb_eq in E
    | E : validate_string _ _ = Ok tt |- _ => apply validate_string_ok in E as [? ?]
    | E : validate_bytes _ _ _ = Ok tt |- _ => apply validate_bytes_ok in E as [? ?]
    end.
    split; split_and!; assumption.
  - intros [(H1 & H2 & H3) (H4 & H5) (H6 & H7) (H8 & H9 & H10)].
    rewrite (proj2 (validate_string_ok _ _) H1), (proj2 (validate_string_ok _ _) H2),
      (proj2 (validate_string_ok _ _) H3), H4, H5, H6, H7.
    change (validate_string "delegation_purpose" DELEGATION_PURPOSE) with (@Ok unit ManifestError tt).
    change (validate_string "control_profile" CONTROL_PROFILE) with (@Ok unit ManifestError tt).
    rewrite !str_eqb_refl, !Z.eqb_refl. rewrite <- validate_bytes_ok in H8, H9, H10.
    by rewrite H8, H9.
Qed.

(** The next [try!] of [H] was passed by the reader [R] describes. *)
Ltac read_inv H R :=
  match type of H with
  | match ?r with Ok _ => _ | Err _ => _ end = _ =>
      let E := fresh "E" in
      destruct r as [[? ?]|] eqn:E; [|discriminate H];
      apply (proj2 R) in E as (? & ? & -> & ->)
  end.

Lemma cursor_is_empty_at a l : cursor_is_empty (at_ a l) = true ↔ l = [].
Proof.
  unfold cursor_is_empty, at_. simpl. rewrite Nat.eqb_eq, length_app. split.
  - intros H. apply nil_length_inv. lia.
  - intros ->. simpl. lia.
Qed.

Lemma reads_cert f : reads (λ c, bounded_bytes c f LAUNCH_CERT_MAX_BYTES) write_bytes
  (λ x, len x ≤ LAUNCH_CERT_MAX_BYTES).
Proof. apply reads_bounded_bytes. unfold LAUNCH_CERT_MAX_BYTES. lia. Qed.

Lemma reads_key f : reads (λ c, bounded_bytes c f LAUNCH_KEY_MAX_BYTES) write_bytes
  (λ x, len x ≤ LAUNCH_KEY_MAX_BYTES).
Proof. apply reads_bounded_bytes. unfold LAUNCH_KEY_MAX_BYTES. lia. Qed.

Section Bijection.
Context (validated_helper_key : LaunchManifest → result unit ManifestError).

Lemma parse_manifest_sound l m : parse_manifest validated_helper_key l = Ok m →
  l = encode_manifest m ∧ manifest_typed m ∧ len l ≤ CONTROL_BOOTSTRAP_MAX_BYTES
  ∧ validate_manifest validated_helper_key m = Ok tt.
Proof.
  unfold parse_manifest. intros H. passed H. reflect_bools. cbv zeta in H.
  change (mkCursor l 0) with (at_ [] l) in H.
  read_inv H (reads_uint 2 "bootstrap_format_version"). passed H.
  read_inv H (reads_uint 2 "control_protocol_version"). passed H.
  read_inv H (reads_uint 1 "core_role"). passed H.
  read_inv H (reads_uint 1 "helper_role"). passed H.
  read_inv H (reads_array "core_instance_nonce"). read_inv H (reads_array "launch_nonce").
  read_inv H (reads_string "component_name"). read_inv H (reads_string "descriptor_version").
  read_inv H (reads_string "executable_name"). read_inv H (reads_array "executable_sha256").
  read_inv H (reads_uint 2 "component_protocol_version").
  read_inv H (reads_array "control_channel_nonce"). read_inv H (reads_array "data_channel_nonce").
  read_inv H (reads_string "delegation_purpose"). read_inv H (reads_string "control_profile").
  read_inv H (reads_uint 1 "key_material_profile"). passed H.
  read_inv H (reads_uint 1 "key_type"). passed H.
  read_inv H (reads_cert "core_certificate_der"). read_inv H (reads_cert "helper_certificate_der").
  read_inv H (reads_key "helper_private_key_pkcs8_der"). passed H. passed H.
  injection H as <-. reflect_bools. subst.
  match goal with E : cursor_is_empty _ = true |- _ => apply cursor_is_empty_at in E as -> end.
  rewrite app_nil_r in *. split_and!; [done| |done|done].
  split; simpl; [by split_and!|done|split_and!; tauto|].
  match goal with H : 0 ≤ ?v < 256 ^ Z.of_nat 2 |- context [?v] => exact H end.
Qed.

(** The next reader of the goal runs on an encoding. *)
Ltac read_fwd R Hb ok :=
  match goal with
  | |- match ?r with Ok _ => _ | Err _ => _ end = _ =>
      let E := fresh "E" in
      eassert (r = Ok _) as E;
      [eapply (proj1 R); [ok|eapply Hb; rewrite <- ?app_assoc; reflexivity]|];
      rewrite E; clear E; cbv beta iota
  end.

Lemma parse_manifest_complete m : manifest_typed m →
  validate_manifest validated_helper_key m = Ok tt →
  len (encode_manifest m) ≤ CONTROL_BOOTSTRAP_MAX_BYTES →
  parse_manifest validated_helper_key (encode_manifest m) = Ok m.
Proof.
  intros [(T1 & T2 & T3 & T4) T5 (S1 & S2 & S3 & S4 & S5) T6] Hv Hlen.
  assert (validate_non_key m = Ok tt) as Hnk.
  { unfold validate_manifest in Hv. by destruct (validate_non_key m) as [[]|]. }
  apply validate_non_key_ok in Hnk as [(N1 & N2 & N3) (N4 & N5) (N6 & N7) ((_ & N8) & (_ & N9) & (_ & N10))].
  assert (∀ a x l, a ++ x ++ l = encode_manifest m → len a + len x ≤ u64_max) as Hb.
  { intros a x l Heq. apply (f_equal len) in Heq. rewrite !len_app in Heq.
    pose proof (len_nonneg l). unfold CONTROL_BOOTSTRAP_MAX_BYTES, u64_max in *. lia. }
  unfold parse_manifest.
  replace (negb (len (encode_manifest m) >? CONTROL_BOOTSTRAP_MAX_BYTES)) with true
    by (symmetry; apply negb_true_iff; rewrite Z.gtb_ltb; by apply Z.ltb_ge).
  cbv zeta. change (mkCursor (encode_manifest m) 0) with (at_ [] (encode_manifest m)).
  unfold encode_manifest in *. cbv zeta in *.
  read_fwd (reads_uint 2 "bootstrap_format_version") Hb ltac:(done). rewrite Z.eqb_refl.
  read_fwd (reads_uint 2 "control_protocol_version") Hb ltac:(done). rewrite Z.eqb_refl.
  read_fwd (reads_uint 1 "core_role") Hb ltac:(done). rewrite Z.eqb_refl.
  read_fwd (reads_uint 1 "helper_role") Hb ltac:(done). rewrite Z.eqb_refl.
  read_fwd (reads_array "core_instance_nonce") Hb ltac:(done).
  read_fwd (reads_array "launch_nonce") Hb ltac:(done).
  read_fwd (reads_string "component_name") Hb ltac:(done).
  read_fwd (reads_string "descriptor_version") Hb ltac:(done).
  read_fwd (reads_string "executable_name") Hb ltac:(done).
  read_fwd (reads_array "executable_sha256") Hb ltac:(done).
  read_fwd (reads_uint 2 "component_protocol_version") Hb ltac:(done).
  read_fwd (reads_array "control_channel_nonce") Hb ltac:(done).
  read_fwd (reads_array "data_channel_nonce") Hb ltac:(done).
  read_fwd (reads_string "delegation_purpose") Hb ltac:(by rewrite N4 in *).
  read_fwd (reads_string "control_profile") Hb ltac:(by rewrite N5 in *).
  read_fwd (reads_uint 1 "key_material_profile") Hb ltac:(by rewrite N6).
  rewrite (proj2 (Z.eqb_eq _ _) N6).
  read_fwd (reads_uint 1 "key_type") Hb ltac:(by rewrite N7). rewrite (proj2 (Z.eqb_eq _ _) N7).
  read_fwd (reads_cert "core_certificate_der") Hb ltac:(done).
  read_fwd (reads_cert "helper_certificate_der") Hb ltac:(done).
  rewrite <- (app_nil_r (write_bytes (helper_private_key_pkcs8_der (key_material m)))) in Hb |- *.
  read_fwd (reads_key "helper_private_key_pkcs8_der") Hb ltac:(done).
  rewrite (proj2 (cursor_is_empty_at _ _) eq_refl).
  assert (∀ m', m' = m → (try! _ := validate_manifest validated_helper_key m' in Ok m') = Ok m) as Hfin
    by (intros ? ->; by rewrite Hv).
  apply Hfin. by destruct m as [? ? ? ? ? ? ? ? ? ? ? []].
Qed.

End Bijection.

(** ** Reading *)

Section Read.
Context (validated_helper_key : LaunchManifest → result unit ManifestError).

Lemma stream_size_drop l events : (512 < length l)%nat →
  (stream_size (RdData (drop 512 l) :: events) < stream_size (RdData l :: events))%nat.
Proof. intros H. simpl. rewrite length_drop. lia. Qed.

Lemma read_from_loop_returns fuel : ∀ events buffer, (stream_size events < fuel)%nat →
  ∃ events' r, read_from_loop fuel events buffer = (events', Returned r).
Proof.
  induction fuel as [|fuel IH]; intros events buffer Hf; [lia|]. cbn [read_from_loop].
  destruct (read_call 512 events) as [events' [l|e]] eqn:E; [|eauto].
  destruct l as [|b l]; [eauto|]. destruct (checked_add64 _ _); [|eauto]. case_if; [eauto|].
  apply IH. unfold read_call in E. destruct events as [|[k| |e] events]; try done.
  destruct (Nat.leb_spec (length k) 512); simplify_eq; simpl in *.
  - lia.
  - rewrite length_drop. lia.
Qed.

Lemma read_from_loop_chunks fuel : ∀ chunks buffer,
  (stream_size (map RdData chunks) < fuel)%nat → Forall (λ l, l ≠ []) chunks →
  len buffer ≤ CONTROL_BOOTSTRAP_MAX_BYTES →
  (read_from_loop fuel (map RdData chunks) buffer).2
  = Returned (if len (buffer ++ concat chunks) >? CONTROL_BOOTSTRAP_MAX_BYTES
              then Err (ReadManifest TotalTooLarge) else Ok (buffer ++ concat chunks)).
Proof.
  assert (∀ l k : bytes, len l ≤ CONTROL_BOOTSTRAP_MAX_BYTES → len k ≤ 512 →
    checked_add64 (len l) (len k) = Some (len l + len k)) as Hadd.
  { intros l k Hl Hk. unfold checked_add64, CONTROL_BOOTSTRAP_MAX_BYTES, u64_max in *.
    by replace (len l + len k <=? 2 ^ 64 - 1) with true by (symmetry; apply Z.leb_le; lia). }
  induction fuel as [|fuel IH]; intros chunks buffer Hf Hne Hb; [lia|]. cbn [read_from_loop].
  destruct chunks as [|l chunks]; simpl map; cbn [read_call].
  { simpl. rewrite app_nil_r. case_if; reflect_bools; [lia|done]. }
  inversion Hne as [|? ? Hl Hne']; subst.
  assert (∀ events (x rest : bytes), x ≠ [] → len x ≤ 512 → (stream_size (map RdData events) < fuel)%nat →
    Forall (λ l, l ≠ []) events → x ++ concat events = rest →
    (match checked_add64 (len buffer) (len x) with
     | None => (map RdData events, Returned (Err (ReadManifest TotalTooLarge)))
     | Some total =>
         if total >? CONTROL_BOOTSTRAP_MAX_BYTES
         then (map RdData events, Returned (Err (ReadManifest TotalTooLarge)))
         else read_from_loop fuel (map RdData events) (buffer ++ x)
     end).2
    = Returned (if len (buffer ++ rest) >? CONTROL_BOOTSTRAP_MAX_BYTES
                then Err (ReadManifest TotalTooLarge) else Ok (buffer ++ rest))) as Hstep.
  { intros events x rest Hx Hx5 Hs Hev <-. rewrite Hadd by done.
    destruct (len buffer + len x >? CONTROL_BOOTSTRAP_MAX_BYTES) eqn:E; reflect_bools.
    - rewrite !len_app. pose proof (len_nonneg (concat events)). case_if; reflect_bools; [done|lia].
    - rewrite IH by (done || (rewrite len_app; lia)). by rewrite app_assoc. }
  simpl stream_size in Hf.
  destruct (Nat.leb_spec (length l) 512) as [H5|H5].
  - destruct l as [|b l]; [done|]. apply Hstep; [done|unfold len; lia|simpl in Hf; lia|done|done].
  - destruct (take 512 l) as [|b k] eqn:Et.
    { apply (f_equal length) in Et. rewrite length_take in Et. cbn [length] in Et. lia. }
    change (RdData (drop 512 l) :: map RdData chunks) with (map RdData (drop 512 l :: chunks)).
    rewrite <- Et. apply Hstep.
    + by rewrite Et.
    + unfold len. rewrite length_take. lia.
    + simpl. rewrite length_drop. lia.
    + constructor; [|done]. intros Hd. apply (f_equal length) in Hd. rewrite length_drop in Hd.
      cbn [length] in Hd. lia.
    + simpl. by rewrite app_assoc, take_drop.
Qed.

(** C14: The launch manifest is a bijective wire format, read whole.  The parser
    accepts exactly the encodings, of at most 4 KiB, of manifests that satisfy
    every structural rule and whose helper key the TLS provider accepts, and
    returns the manifest that was encoded: no second encoding of a launch, no
    trailing byte, no field out of bounds.  Reading it from a pipe gives the same
    answer however the bytes are split into reads, and always ends. *)
Theorem manifest_wire_bijective l m chunks :
  (parse_manifest validated_helper_key l = Ok m ↔
     l = encode_manifest m ∧ manifest_typed m ∧ len l ≤ CONTROL_BOOTSTRAP_MAX_BYTES
     ∧ non_key_ok m ∧ validated_helper_key m = Ok tt)
  ∧ (Forall (λ x, x ≠ []) chunks →
     (read_from validated_helper_key (map RdData chunks)).2
     = Returned (if len (concat chunks) >? CONTROL_BOOTSTRAP_MAX_BYTES
                 then Err (ReadManifest TotalTooLarge)
                 else map_err ReadManifest (parse_manifest validated_helper_key (concat chunks))))
  ∧ ∀ events, ∃ events' r, read_from validated_helper_key events = (events', Returned r).
Proof.
  assert (∀ m, validate_manifest validated_helper_key m = Ok tt
    ↔ non_key_ok m ∧ validated_helper_key m = Ok tt) as Hval.
  { intros m'. unfold validate_manifest. rewrite <- validate_non_key_ok.
    destruct (validate_non_key m') as [[]|]; [tauto|]. split; [done|]. by intros []. }
  split_and!.
  - split.
    + intros H. apply parse_manifest_sound in H as (? & ? & ? & ?). by rewrite <- Hval.
    + intros (-> & ? & ? & H). apply parse_manifest_complete; [done|by rewrite Hval|done].
  - intros Hne. unfold read_from.
    pose proof (read_from_loop_chunks (S (stream_size (map RdData chunks))) chunks []
                  ltac:(lia) Hne ltac:(done)) as H. simpl app in H.
    destruct (read_from_loop _ _ _) as [events r]. simpl in H. subst r.
    by destruct (len (concat chunks) >? CONTROL_BOOTSTRAP_MAX_BYTES).
  - intros events. unfold read_from.
    destruct (read_from_loop_returns (S (stream_size events)) events [] ltac:(lia)) as (e & r & ->).
    destruct r; eauto.
Qed.

End Read.

(** The helper accepts one [Establish] echo only.  For every launch, the
    expectations derived from the manifest verify an echo if and only if it equals
    them in all seventeen fields; any single difference is refused. *)
Lemma verify_echo_exact e echo : verify_echo e echo = Ok tt ↔ echo = e.
Proof.
  unfold verify_echo. split.
  - intros H. do 17 passed H. reflect_bools.
    repeat match goal with
    | E : bytes_eqb _ _ = true |- _ => apply bool_decide_eq_true in E
    | E : str_eqb _ _ = true |- _ => apply str_eqb_eq in E
    end.
    destruct e, echo. simpl in *. subst. reflexivity.
  - intros ->. unfold bytes_eqb. rewrite !Z.eqb_refl, !str_eqb_refl.
    by rewrite !bool_decide_eq_true_2.
Qed.

(** ** Witness *)

Definition sample_nonce (n : N) : bytes := repeat (Ascii.ascii_of_N n) 32.

Definition sample_manifest : LaunchManifest :=
  mkManifest (sample_nonce 1) (sample_nonce 2) "ai-helper" "1.0" "bitty-ai-helper" (sample_nonce 3) 7
    (sample_nonce 4) (sample_nonce 5) DELEGATION_PURPOSE CONTROL_PROFILE
    (mkKeyMaterial 1 1 (repeat (Ascii.ascii_of_N 48) 40) (repeat (Ascii.ascii_of_N 49) 40)
       (repeat (Ascii.ascii_of_N 50) 30)).

Definition accept_key (m : LaunchManifest) : result unit ManifestError := Ok tt.

Lemma sample_manifest_typed : manifest_typed sample_manifest.
Proof. split; vm_compute; repeat split; discriminate. Qed.

Lemma manifest_wire_bijective_witness :
  parse_manifest accept_key (encode_manifest sample_manifest) = Ok sample_manifest
  ∧ (read_from accept_key
       (map RdData [take 7 (encode_manifest sample_manifest); drop 7 (encode_manifest sample_manifest)])).2
    = Returned (Ok sample_manifest).
Proof.
  destruct (manifest_wire_bijective accept_key (encode_manifest sample_manifest) sample_manifest
    [take 7 (encode_manifest sample_manifest); drop 7 (encode_manifest sample_manifest)])
    as (H1 & H2 & _).
  assert (parse_manifest accept_key (encode_manifest sample_manifest) = Ok sample_manifest) as Hp.
  { apply H1. split_and!; [done|apply sample_manifest_typed|vm_compute; discriminate| |done].
    apply validate_non_key_ok. reflexivity. }
  split; [exact Hp|]. rewrite H2 by (repeat constructor; vm_compute; discriminate).
  vm_compute. reflexivity.
Defined.
