(* ===== verification/IpcApi.v ===== *)
(** * IpcApi: the provider-publication record contract

    The control crate takes its wire records, their codec, the bounds and the
    sequence rules from the [bitty-ipc-api] package, which is not part of this
    repository.  This file states what the control crate uses of it: the record
    shapes as the sources construct and match them, an interface class for the
    rest, and a second class for the documented rules some theorems rely on. *)

From S2P Require Import Prelude Text Wire Manifest.

Local Open Scope Z_scope.

(** Roles, reasons and error codes named by the sources; [Other*] stands for the
    values they do not name. *)
Inductive Sender := SenderCore | SenderHelper.

Inductive Reason :=
| ReasonRegistryMutation | ReasonReset | ReasonSourceMutation | ReasonSupersession
| ReasonGrantLoss | ReasonShutdown.

Inductive ErrorCode := CodeInvalidControl | CodeUnavailable | CodeResourceLimit | OtherCode (code : Z).

Inductive Kind := KindProjection | KindPublish | OtherKind (code : Z).

#[export] Instance Sender_eq_dec : EqDecision Sender.
Proof. solve_decision. Defined.
#[export] Instance Reason_eq_dec : EqDecision Reason.
Proof. solve_decision. Defined.
#[export] Instance ErrorCode_eq_dec : EqDecision ErrorCode.
Proof. solve_decision. Defined.

(** Identifiers ([LifetimeId], [AckId], [ReceiptId], [SessionId]) are 32 bytes. *)
Abbreviation Id := bytes.

(** [AckBody], the body of [Ack] and [Bind]. *)
Record AckBody (Tuple : Type) := mkAckBody {
  ack_lifetime : Id; ack_revision : Z; ack_tuple : Tuple; ack_id : Id
}.
Arguments mkAckBody {Tuple}.
Arguments ack_lifetime {Tuple}.
Arguments ack_revision {Tuple}.
Arguments ack_tuple {Tuple}.
Arguments ack_id {Tuple}.

(** [RecordBody]; [OtherBody] stands for the kinds the helper never handles
    ([Admit] among them). *)
Inductive RecordBody (Tuple Projection : Type) :=
| BodyEstablish (echo : EstablishmentEcho)
| BodyEstablished (echo : EstablishmentEcho) (lifetime_id : Id)
| BodyProjection (lifetime_id : Id) (feed_revision : Z) (payload : Projection)
| BodyPublish (lifetime_id : Id) (feed_revision : Z) (tuple : Tuple) (payload : Projection)
| BodyAck (ack : AckBody Tuple)
| BodyBind (ack : AckBody Tuple)
| BodyBound (lifetime_id : Id) (feed_revision : Z) (tuple : Tuple) (receipt : Id)
| BodyInvalidate (lifetime_id : Id) (feed_revision : Z) (reason : Reason)
| BodyLifetime (lifetime_id : Id) (feed_revision : Z)
| BodyError (code : ErrorCode)
| OtherBody (code : Z).
Arguments BodyEstablish {Tuple Projection}.
Arguments BodyEstablished {Tuple Projection}.
Arguments BodyProjection {Tuple Projection}.
Arguments BodyPublish {Tuple Projection}.
Arguments BodyAck {Tuple Projection}.
Arguments BodyBind {Tuple Projection}.
Arguments BodyBound {Tuple Projection}.
Arguments BodyInvalidate {Tuple Projection}.
Arguments BodyLifetime {Tuple Projection}.
Arguments BodyError {Tuple Projection}.
Arguments OtherBody {Tuple Projection}.

Record ControlRecord (Tuple Projection : Type) := mkRecord {
  rec_sender : Sender;
  rec_sequence : Z;
  rec_session : Id;
  rec_body : RecordBody Tuple Projection
}.
Arguments mkRecord {Tuple Projection}.
Arguments rec_sender {Tuple Projection}.
Arguments rec_sequence {Tuple Projection}.
Arguments rec_session {Tuple Projection}.
Arguments rec_body {Tuple Projection}.

(** What the control crate calls. *)
Class PublicationApi := {
  Tuple : Type;
  Tuple_eq_dec :: EqDecision Tuple;
  Projection : Type;
  CodecError : Type;
  CONTROL_FRAME_MAX_BYTES : Z;
  CONTROL_HEADER_BYTES : Z;
  CONTROL_SMALL_RECORD_MAX_BYTES : Z;
  CONTROL_INFLIGHT_MAX_BYTES : Z;
  CONTROL_QUEUE_MAX_RECORDS : Z;
  encode_record : ControlRecord Tuple Projection → result bytes CodecError;
  decode_record : bytes → result (ControlRecord Tuple Projection) CodecError;
  kind_from_code : Z → option Kind;
  body_kind : RecordBody Tuple Projection → Kind;
  tuple_launch_nonce : Tuple → Id;
  tuple_version : Tuple → Z;
  canonical_bytes : Projection → bytes;
  next_expected_sequence : Z → option Z;
  validate_incoming_sequence : Z → Z → bool;
  validate_session : Id → Id → bool
}.

(** What it relies on: the documented sequence and session rules and bounds that
    fit the four-byte length prefix and hold a record header. *)
Class PublicationLaws (A : PublicationApi) : Prop := {
  frame_bounds : 8 ≤ CONTROL_HEADER_BYTES ≤ CONTROL_FRAME_MAX_BYTES
                 ∧ CONTROL_FRAME_MAX_BYTES < 2 ^ 32;
  queue_bounds : 4 + CONTROL_FRAME_MAX_BYTES ≤ CONTROL_INFLIGHT_MAX_BYTES ≤ u64_max
                 ∧ 1 ≤ CONTROL_QUEUE_MAX_RECORDS;
  next_sequence n m : next_expected_sequence n = Some m → m = n + 1;
  incoming_sequence last n : validate_incoming_sequence last n = true ↔ n = last + 1;
  session_equal a b : validate_session a b = true ↔ a = b
}.

(** ** A table contract

    An instance of the interface whose codec knows a finite list of records and
    frames each as its index behind an eight-byte header: it obeys the laws, so
    theorems stated over the interface can be run. *)

#[export] Instance Echo_eq_dec : EqDecision EstablishmentEcho.
Proof. solve_decision. Defined.
#[export] Instance Kind_eq_dec : EqDecision Kind.
Proof. solve_decision. Defined.
#[export] Instance AckBody_eq_dec {T} `{EqDecision T} : EqDecision (AckBody T).
Proof. solve_decision. Defined.
#[export] Instance RecordBody_eq_dec {T P} `{EqDecision T, EqDecision P} : EqDecision (RecordBody T P).
Proof. solve_decision. Defined.
#[export] Instance ControlRecord_eq_dec {T P} `{EqDecision T, EqDecision P} :
  EqDecision (ControlRecord T P).
Proof. solve_decision. Defined.

Section Table.
Context (table : list (ControlRecord (Id * Z) bytes)).

Definition table_encode (r : ControlRecord (Id * Z) bytes) : result bytes string :=
  match list_find (r =.) table with
  | Some (i, _) => Ok (repeat (Ascii.ascii_of_nat 0) 8 ++ [Ascii.ascii_of_nat i])
  | None => Err "unknown record"
  end.

Definition table_decode (frame : bytes) : result (ControlRecord (Id * Z) bytes) string :=
  match drop 8 frame with
  | [b] => from_option Ok (Err "unknown frame") (table !! Ascii.nat_of_ascii b)
  | _ => Err "malformed frame"
  end.

Definition table_api : PublicationApi := {|
  Tuple := Id * Z;
  Projection := bytes;
  CodecError := string;
  CONTROL_FRAME_MAX_BYTES := 4096;
  CONTROL_HEADER_BYTES := 8;
  CONTROL_SMALL_RECORD_MAX_BYTES := 512;
  CONTROL_INFLIGHT_MAX_BYTES := 65536;
  CONTROL_QUEUE_MAX_RECORDS := 16;
  encode_record := table_encode;
  decode_record := table_decode;
  kind_from_code := λ c, Some (OtherKind c);
  body_kind := λ b, match b with
                    | BodyProjection _ _ _ => KindProjection
                    | BodyPublish _ _ _ _ => KindPublish
                    | _ => OtherKind 0
                    end;
  tuple_launch_nonce := fst;
  tuple_version := snd;
  canonical_bytes := λ p, p;
  next_expected_sequence := λ n, checked_add64 n 1;
  validate_incoming_sequence := λ last n, n =? last + 1;
  validate_session := λ a b, bool_decide (a = b)
|}.

Lemma table_laws : PublicationLaws table_api.
Proof.
  constructor; simpl.
  - lia.
  - unfold u64_max. lia.
  - intros n m. unfold checked_add64. case_if; [by intros [= <-]|done].
  - intros last n. apply Z.eqb_eq.
  - intros a b. apply bool_decide_eq_true.
Qed.

End Table.
