(* ===== verification/Framing.v ===== *)
(** * Framing: bounded control-record framing

    Models [framing.rs] of [crates/bitty-ai-control]: the length-prefixed reader,
    which checks the declared length before it allocates, and the bounded writer
    with its queue, over the streams of [Wire.v] and the record contract of
    [IpcApi.v].  Allocation may fail; the allocator is a parameter. *)

From S2P Require Import Prelude Text Wire Manifest IpcApi.

Local Open Scope Z_scope.
Local Open Scope rust_scope.

(** Four bytes, as the source's module documentation states. *)
Definition CONTROL_FRAME_PREFIX_BYTES : Z := 4.

Section Framing.
Context `{A : PublicationApi}.

Inductive FrameError :=
| FrameClosed
| TruncatedPrefix (received : Z)
| TruncatedBody (expected received : Z)
| ZeroLength
| FrameTooLarge
| FrameShorterThanHeader (actual : Z)
| SmallRecordTooLarge (actual : Z)
| FrameRecord (e : CodecError)
| AllocationFailed (requested : Z)
| FrameIo (e : IoError)
| WriteZero
| QueueFull (limit : Z)
| ByteBudgetExceeded (limit : Z).

(** ** The reader *)

(** The loop of [read_prefix] and [read_body]: one [read] call per answer until
    [need] more bytes are there; interruptions are retried. *)
Fixpoint fill (on_eof : Z → FrameError) (need : nat) (got : bytes) (events : list ReadEvent) :
    list ReadEvent * result bytes FrameError :=
  match need with
  | O => (events, Ok got)
  | S _ =>
      match events with
      | [] => ([], Err (on_eof (len got)))
      | RdData [] :: events => (events, Err (on_eof (len got)))
      | RdData l :: events =>
          if (length l <=? need)%nat then fill on_eof (need - length l) (got ++ l) events
          else (RdData (drop need l) :: events, Ok (got ++ take need l))
      | RdInterrupted :: events => fill on_eof need got events
      | RdFailed e :: events => (events, Err (FrameIo e))
      end
  end.

Definition read_prefix (events : list ReadEvent) : list ReadEvent * result bytes FrameError :=
  fill (λ filled, if filled =? 0 then FrameClosed else TruncatedPrefix filled)
    (Z.to_nat CONTROL_FRAME_PREFIX_BYTES) [] events.

Definition read_body (length : Z) (events : list ReadEvent) :
    list ReadEvent * result bytes FrameError :=
  fill (λ filled, TruncatedBody length filled) (Z.to_nat length) [] events.

(** Bytes 6 and 7 of a frame that holds a header. *)
Definition kind_bytes (frame : bytes) : bytes := take 2 (drop 6 frame).

Definition enforce_small_record_bound (frame : bytes) : result unit FrameError :=
  if len frame <=? CONTROL_SMALL_RECORD_MAX_BYTES then Ok tt
  else
    match kind_from_code (from_be_bytes (kind_bytes frame)) with
    | Some KindProjection | Some KindPublish => Ok tt
    | None => Ok tt
    | Some (OtherKind _) => Err (SmallRecordTooLarge (len frame))
    end.

Section Reader.
Context (allocates : Z → bool).

(** [FrameReader::read_record] *)
Definition read_record (events : list ReadEvent) :
    list ReadEvent * result (ControlRecord Tuple Projection) FrameError :=
  match read_prefix events with
  | (events, Err e) => (events, Err e)
  | (events, Ok prefix) =>
      let length := from_be_bytes prefix in
      if length =? 0 then (events, Err ZeroLength)
      else if length >? CONTROL_FRAME_MAX_BYTES then (events, Err FrameTooLarge)
      else if length <? CONTROL_HEADER_BYTES then (events, Err (FrameShorterThanHeader length))
      else if negb (allocates length) then (events, Err (AllocationFailed length))
      else
        match read_body length events with
        | (events, Err e) => (events, Err e)
        | (events, Ok frame) =>
            (events,
             try! _ := enforce_small_record_bound frame in
             map_err FrameRecord (decode_record frame))
        end
  end.

End Reader.

(** ** The writer *)

Record FrameWriter := mkWriter {
  pending_frames : list bytes;
  pending_bytes : Z
}.

Definition writer_new : FrameWriter := mkWriter [] 0.

(** [FrameWriter::clear] *)
Definition writer_clear (w : FrameWriter) : FrameWriter := mkWriter [] 0.

Definition enqueue_frame (w : FrameWriter) (frame : bytes) : FrameWriter * result unit FrameError :=
  if len w.(pending_frames) >=? CONTROL_QUEUE_MAX_RECORDS then
    (w, Err (QueueFull CONTROL_QUEUE_MAX_RECORDS))
  else if bool_decide (frame = []) then (w, Err ZeroLength)
  else if len frame >? CONTROL_FRAME_MAX_BYTES then (w, Err FrameTooLarge)
  else
    match checked_add64 CONTROL_FRAME_PREFIX_BYTES (len frame) with
    | None => (w, Err (ByteBudgetExceeded CONTROL_INFLIGHT_MAX_BYTES))
    | Some frame_bytes =>
        match checked_add64 w.(pending_bytes) frame_bytes with
        | None => (w, Err (ByteBudgetExceeded CONTROL_INFLIGHT_MAX_BYTES))
        | Some total =>
            if total >? CONTROL_INFLIGHT_MAX_BYTES then
              (w, Err (ByteBudgetExceeded CONTROL_INFLIGHT_MAX_BYTES))
            else (mkWriter (w.(pending_frames) ++ [frame]) total, Ok tt)
        end
    end.

(** [FrameWriter::enqueue] *)
Definition enqueue (w : FrameWriter) (record : ControlRecord Tuple Projection) :
    FrameWriter * result unit FrameError :=
  if len w.(pending_frames) >=? CONTROL_QUEUE_MAX_RECORDS then
    (w, Err (QueueFull CONTROL_QUEUE_MAX_RECORDS))
  else
    match encode_record record with
    | Err e => (w, Err (FrameRecord e))
    | Ok frame => enqueue_frame w frame
    end.

(** [write_all] over the answers of the [write] calls: answers left, bytes taken. *)
Fixpoint write_all (l : bytes) (answers : list WriteEvent) :
    list WriteEvent * bytes * result unit FrameError :=
  match l with
  | [] => (answers, [], Ok tt)
  | _ =>
      match answers with
      | [] => ([], l, Ok tt)
      | WrAccept 0 :: answers => (answers, [], Err WriteZero)
      | WrAccept n :: answers =>
          let '(answers, taken, r) := write_all (drop n l) answers in
          (answers, take n l ++ taken, r)
      | WrInterrupted :: answers => write_all l answers
      | WrFailed e :: answers => (answers, [], Err (FrameIo e))
      end
  end.

Definition write_stream (s : Stream) (l : bytes) : Stream * result unit FrameError :=
  let '(answers, taken, r) := write_all l s.(accepts) in
  (mkStream s.(incoming) answers s.(flushes) (s.(written) ++ taken), r).

Definition write_frame (s : Stream) (frame : bytes) : Stream * result unit FrameError :=
  if bool_decide (frame = []) then (s, Err ZeroLength)
  else if len frame >? CONTROL_FRAME_MAX_BYTES then (s, Err FrameTooLarge)
  else if len frame >? u32_max then (s, Err FrameTooLarge)
  else
    match write_stream s (to_be_bytes 4 (len frame)) with
    | (s, Err e) => (s, Err e)
    | (s, Ok _) => write_stream s frame
    end.

(** The queue loop of [FrameWriter::flush]. *)
Fixpoint flush_loop (s : Stream) (frames : list bytes) (bytes_left : Z) :
    Stream * FrameWriter * result unit FrameError :=
  match frames with
  | [] => (s, mkWriter [] bytes_left, Ok tt)
  | frame :: frames =>
      let bytes_left := Z.max (bytes_left - (CONTROL_FRAME_PREFIX_BYTES + len frame)) 0 in
      match write_frame s frame with
      | (s, Err e) => (s, writer_clear (mkWriter frames bytes_left), Err e)
      | (s, Ok _) => flush_loop s frames bytes_left
      end
  end.

(** [FrameWriter::flush] *)
Definition flush (s : Stream) (w : FrameWriter) : Stream * FrameWriter * result unit FrameError :=
  match flush_loop s w.(pending_frames) w.(pending_bytes) with
  | (s, w, Err e) => (s, w, Err e)
  | (s, w, Ok _) =>
      let '(s, answer) := flush_call s in
      (s, w, match answer with Some e => Err (FrameIo e) | None => Ok tt end)
  end.

(** ** Lemmas *)

Lemma deliverable_data l events : l ≠ [] → deliverable (RdData l :: events) = l ++ deliverable events.
Proof. by destruct l. Qed.

Lemma fill_data on_eof need got l events : l ≠ [] →
  fill on_eof (S need) got (RdData l :: events)
  = if (length l <=? S need)%nat then fill on_eof (S need - length l) (got ++ l) events
    else (RdData (drop (S need) l) :: events, Ok (got ++ take (S need) l)).
Proof. by destruct l. Qed.

(** The loop reads exactly what it needs, however it is delivered. *)
Lemma fill_enough on_eof events : ∀ need got, (need ≤ length (deliverable events))%nat →
  ∃ events', fill on_eof need got events = (events', Ok (got ++ take need (deliverable events)))
    ∧ deliverable events' = drop need (deliverable events).
Proof.
  induction events as [|[l| |e] events IH]; intros need got Hn;
    (destruct need as [|need]; [eexists; simpl fill; split; [by rewrite take_0, app_nil_r|by rewrite drop_0]|]).
  - simpl in Hn. lia.
  - destruct l as [|b l]; [simpl in Hn; lia|]. remember (b :: l) as k eqn:Hk.
    rewrite deliverable_data, length_app in Hn by (by subst). rewrite !deliverable_data by (by subst).
    rewrite fill_data by (by subst).
    destruct (Nat.leb_spec (length k) (S need)).
    + destruct (IH (S need - length k)%nat (got ++ k)) as (ev & E & Hd); [lia|]. exists ev.
      rewrite E, Hd, take_app_ge, drop_app_ge, app_assoc by lia. done.
    + exists (RdData (drop (S need) k) :: events).
      rewrite take_app_le, drop_app_le by lia. split; [done|]. apply deliverable_data.
      intros Hnil. apply (f_equal length) in Hnil. rewrite length_drop in Hnil. simpl in Hnil. lia.
  - simpl. apply IH. done.
  - simpl in Hn. lia.
Qed.

(** Short input: the end is reported with what was received, or the failure is. *)
Lemma fill_short on_eof events : ∀ need got, (length (deliverable events) < need)%nat →
  ∃ events' e, fill on_eof need got events = (events', Err e)
    ∧ (e = on_eof (len (got ++ deliverable events)) ∨ ∃ io, e = FrameIo io).
Proof.
  induction events as [|[l| |e] events IH]; intros need got Hn;
    (destruct need as [|need]; [lia|]).
  - simpl. rewrite app_nil_r. eauto 10.
  - destruct l as [|b l]; [simpl; rewrite app_nil_r; eauto 10|]. remember (b :: l) as k eqn:Hk.
    rewrite deliverable_data, length_app in Hn by (by subst). rewrite deliverable_data by (by subst).
    rewrite fill_data by (by subst).
    destruct (Nat.leb_spec (length k) (S need)); [|lia].
    destruct (IH (S need - length k)%nat (got ++ k)) as (ev & e & E & He); [lia|].
    rewrite <- app_assoc in He. eauto 10.
  - simpl. by apply IH.
  - simpl. eauto 10.
Qed.

Lemma write_all_spec answers : ∀ l,
  ∃ taken, (write_all l answers).1.2 = taken ∧ taken `prefix_of` l
    ∧ ((write_all l answers).2 = Ok tt → taken = l).
Proof.
  induction answers as [|[n| |e] answers IH]; intros l;
    (destruct l as [|b l]; [exists []; split_and!; [done|by exists []|done]|]).
  - exists (b :: l). split_and!; [done|done|done].
  - destruct n as [|n]; [exists []; split_and!; [done|by eexists|done]|].
    cbn [write_all]. destruct (IH (drop (S n) (b :: l))) as (taken & H1 & H2 & H3).
    destruct (write_all (drop (S n) (b :: l)) answers) as [[ans tk] r]. simpl fst in *. simpl snd in *.
    subst tk. exists (take (S n) (b :: l) ++ taken). split_and!; [done| |].
    + rewrite <- (take_drop (S n) (b :: l)) at 2. by apply prefix_app.
    + intros Hr. rewrite (H3 Hr). apply take_drop.
  - apply IH.
  - exists []. split_and!; [done|by eexists|done].
Qed.

Lemma write_stream_spec s l s' r : write_stream s l = (s', r) →
  incoming s' = incoming s ∧ flushes s' = flushes s
  ∧ ∃ taken, written s' = written s ++ taken ∧ taken `prefix_of` l ∧ (r = Ok tt → taken = l).
Proof.
  unfold write_stream. destruct (write_all_spec (accepts s) l) as (taken & H1 & H2 & H3).
  destruct (write_all l (accepts s)) as [[ans tk] r']. intros [= <- <-]. simpl in *. subst. eauto 10.
Qed.

(** One frame as it goes over the wire. *)
Definition frame_wire (frame : bytes) : bytes := to_be_bytes 4 (len frame) ++ frame.

Lemma write_frame_spec s frame s' r : write_frame s frame = (s', r) →
  incoming s' = incoming s ∧ flushes s' = flushes s
  ∧ ∃ taken, written s' = written s ++ taken ∧ taken `prefix_of` frame_wire frame
    ∧ (r = Ok tt → taken = frame_wire frame).
Proof.
  unfold write_frame. intros H.
  assert (∀ e : FrameError, (s, Err e) = (s', r) → incoming s' = incoming s ∧ flushes s' = flushes s
    ∧ ∃ taken, written s' = written s ++ taken ∧ taken `prefix_of` frame_wire frame
      ∧ (r = Ok tt → taken = frame_wire frame)) as Hrefuse.
  { intros e [= <- <-]. split_and!; [done|done|]. exists []. rewrite app_nil_r.
    split_and!; [done|by eexists|done]. }
  do 3 (case_if_in H; [by eapply Hrefuse|]). clear Hrefuse.
  destruct (write_stream s (to_be_bytes 4 (len frame))) as [s1 r1] eqn:E1.
  apply write_stream_spec in E1 as (Hi & Hf & t1 & Hw & Hp & Hok).
  destruct r1 as [[]|e].
  - apply write_stream_spec in H as (Hi2 & Hf2 & t2 & Hw2 & Hp2 & Hok2).
    split_and!; [congruence|congruence|]. exists (t1 ++ t2). rewrite (Hok eq_refl) in *.
    split_and!; [by rewrite Hw2, Hw, app_assoc|by apply prefix_app|]. intros Hr. by rewrite (Hok2 Hr).
  - injection H as <- <-. split_and!; [done|done|]. exists t1. split_and!; [done| |done].
    by apply prefix_app_r.
Qed.

Lemma flush_loop_spec frames : ∀ s n s' w r, flush_loop s frames n = (s', w, r) →
  incoming s' = incoming s ∧ flushes s' = flushes s ∧ pending_frames w = []
  ∧ ∃ taken, written s' = written s ++ taken ∧ taken `prefix_of` concat (map frame_wire frames)
    ∧ (r = Ok tt → taken = concat (map frame_wire frames)).
Proof.
  induction frames as [|frame frames IH]; intros s n s' w r H; cbn [flush_loop] in H.
  - injection H as <- <- <-. split_and!; [done..|]. exists []. rewrite app_nil_r. by split_and!.
  - destruct (write_frame s frame) as [s1 r1] eqn:E1.
    apply write_frame_spec in E1 as (Hi & Hf & t1 & Hw & Hp & Hok). destruct r1 as [[]|e].
    + apply IH in H as (Hi2 & Hf2 & Hq & t2 & Hw2 & Hp2 & Hok2).
      split_and!; [congruence|congruence|done|]. exists (t1 ++ t2). rewrite (Hok eq_refl) in *. cbn [map concat].
      split_and!; [by rewrite Hw2, Hw, app_assoc|by apply prefix_app|]. intros Hr. by rewrite (Hok2 Hr).
    + injection H as <- <- <-. split_and!; [done..|]. exists t1. cbn [map concat].
      split_and!; [done|by apply prefix_app_r|done].
Qed.

(** A flush writes the queued frames whole and in order, or a prefix of them; the
    queue is empty afterwards in either case. *)
Lemma flush_spec s w s' w' r : flush s w = (s', w', r) →
  incoming s' = incoming s ∧ pending_frames w' = []
  ∧ ∃ taken, written s' = written s ++ taken
    ∧ taken `prefix_of` concat (map frame_wire (pending_frames w))
    ∧ (r = Ok tt → taken = concat (map frame_wire (pending_frames w))).
Proof.
  unfold flush. destruct (flush_loop _ _ _) as [[s1 w1] r1] eqn:E.
  apply flush_loop_spec in E as (Hi & Hf & Hq & taken & Hw & Hp & Hok).
  destruct r1 as [[]|e].
  - unfold flush_call. destruct (flushes s1); intros [= <- <- <-]; simpl; eauto 10.
  - intros [= <- <- <-]. split_and!; eauto 10.
Qed.

(** ** What the reader makes of the delivered bytes *)

(** The outcome the delivered bytes determine: how many of them one read consumes,
    and its result. *)
Definition frame_outcome (allocates : Z → bool) (d : bytes) :
    nat * result (ControlRecord Tuple Projection) FrameError :=
  if (length d <? 4)%nat then
    (length d, Err (if len d =? 0 then FrameClosed else TruncatedPrefix (len d)))
  else
    let n := from_be_bytes (take 4 d) in
    if n =? 0 then (4%nat, Err ZeroLength)
    else if n >? CONTROL_FRAME_MAX_BYTES then (4%nat, Err FrameTooLarge)
    else if n <? CONTROL_HEADER_BYTES then (4%nat, Err (FrameShorterThanHeader n))
    else if negb (allocates n) then (4%nat, Err (AllocationFailed n))
    else if len (drop 4 d) <? n then (length d, Err (TruncatedBody n (len (drop 4 d))))
    else
      let frame := take (Z.to_nat n) (drop 4 d) in
      ((4 + Z.to_nat n)%nat,
       try! _ := enforce_small_record_bound frame in map_err FrameRecord (decode_record frame)).

(** The stream ended early: with its end, or with a failure. *)
Definition cut_short (e : FrameError) : bool :=
  match e with FrameClosed | TruncatedPrefix _ | TruncatedBody _ _ => true | _ => false end.

Lemma read_record_outcome allocates events :
  let d := deliverable events in
  let '(n, outcome) := frame_outcome allocates d in
  let '(events', r) := read_record allocates events in
  (r = outcome ∧ ((∀ e, outcome = Err e → cut_short e = false) → deliverable events' = drop n d))
  ∨ (∃ io e, r = Err (FrameIo io) ∧ outcome = Err e ∧ cut_short e = true).
Proof.
  simpl. unfold frame_outcome, read_record, read_prefix.
  change (Z.to_nat CONTROL_FRAME_PREFIX_BYTES) with 4%nat.
  set (d := deliverable events).
  destruct (Nat.ltb_spec (length d) 4) as [Hs|Hs].
  { destruct (fill_short (λ filled, if filled =? 0 then FrameClosed else TruncatedPrefix filled)
      events 4 [] Hs) as (ev & e & -> & [->|[io ->]]).
    - left. split; [done|]. intros H. specialize (H _ eq_refl). by destruct (len d =? 0).
    - right. exists io. eexists. split_and!; [done|done|]. by destruct (len d =? 0). }
  destruct (fill_enough (λ filled, if filled =? 0 then FrameClosed else TruncatedPrefix filled)
    events 4 [] Hs) as (ev & -> & Hd). rewrite app_nil_l. fold d in Hd |- *.
  set (n := from_be_bytes (take 4 d)). do 4 (case_if; [by left|]).
  unfold read_body. rewrite <- Hd.
  destruct (Z.ltb_spec (len (deliverable ev)) n) as [Hb|Hb].
  - destruct (fill_short (λ filled, TruncatedBody n filled) ev (Z.to_nat n) [])
      as (ev' & e & -> & [->|[io ->]]); [unfold len in Hb; lia|left|right].
    + split; [done|]. intros H. by specialize (H _ eq_refl).
    + by eexists _, _.
  - destruct (fill_enough (λ filled, TruncatedBody n filled) ev (Z.to_nat n) [])
      as (ev' & -> & Hd'); [unfold len in Hb; lia|]. left. rewrite app_nil_l. split; [done|].
    intros _. rewrite Hd', Hd, drop_drop. done.
Qed.

Lemma read_record_consumes allocates events events' record :
  read_record allocates events = (events', Ok record) →
  (length (deliverable events') < length (deliverable events))%nat.
Proof.
  intros H. pose proof (read_record_outcome allocates events) as Hr. simpl in Hr.
  set (d := deliverable events) in *. destruct (frame_outcome allocates d) as [n o] eqn:Ho.
  rewrite H in Hr. destruct Hr as [[<- Hd]|(io & e & [=] & _)].
  rewrite Hd by done. rewrite length_drop. unfold frame_outcome in Ho.
  destruct (Nat.ltb_spec (length d) 4); [done|].
  do 5 (case_if_in Ho; [done|]). injection Ho as <- _. lia.
Qed.

(** Reading a record is a function of the delivered bytes alone: however they
    are split and however often the calls are interrupted, the result is the
    reference outcome, and exactly the bytes of the frame are consumed; only where
    the stream is cut short may an input failure take the place of the end. *)
Theorem read_record_reference allocates events :
  let d := deliverable events in
  let '(n, outcome) := frame_outcome allocates d in
  let '(events', r) := read_record allocates events in
  (r = outcome ∧ ((∀ e, outcome = Err e → cut_short e = false) → deliverable events' = drop n d))
  ∨ (∃ io e, r = Err (FrameIo io) ∧ outcome = Err e ∧ cut_short e = true).
Proof. apply read_record_outcome. Qed.

(** The declared length is checked before anything is allocated: the allocator is
    asked for a number of bytes between the header size and the frame bound, or
    not at all. *)
Theorem allocation_bounded f g events :
  (∀ n, CONTROL_HEADER_BYTES ≤ n ≤ CONTROL_FRAME_MAX_BYTES → f n = g n) →
  read_record f events = read_record g events.
Proof.
  intros H. unfold read_record. destruct (read_prefix events) as [ev [prefix|]]; [|done].
  destruct (_ =? 0); [done|]. destruct (from_be_bytes prefix >? _) eqn:E1; [done|].
  destruct (from_be_bytes prefix <? _) eqn:E2; [done|]. rewrite H; [done|]. lia.
Qed.

(** A whole frame at the head of the delivered bytes. *)
Lemma read_record_frame allocates events frame rest :
  allocates (len frame) = true → CONTROL_HEADER_BYTES ≤ len frame ≤ CONTROL_FRAME_MAX_BYTES →
  0 < len frame < 2 ^ 32 →
  deliverable events = frame_wire frame ++ rest →
  ∃ events', read_record allocates events
             = (events', (try! _ := enforce_small_record_bound frame in
                          map_err FrameRecord (decode_record frame)))
    ∧ deliverable events' = rest.
Proof.
  intros Ha Hb Hn Hd. unfold frame_wire in Hd. rewrite <- app_assoc in Hd.
  unfold read_record, read_prefix. change (Z.to_nat CONTROL_FRAME_PREFIX_BYTES) with 4%nat.
  destruct (fill_enough (λ filled, if filled =? 0 then FrameClosed else TruncatedPrefix filled)
    events 4 []) as (ev & -> & Hd1).
  { rewrite Hd, length_app, length_to_be. lia. }
  rewrite Hd, app_nil_l in *. rewrite take_app_length' by (symmetry; apply length_to_be).
  rewrite drop_app_length' in Hd1 by (symmetry; apply length_to_be).
  rewrite from_to_be by (change (256 ^ Z.of_nat 4) with (2 ^ 32); lia).
  rewrite (proj2 (Z.eqb_neq _ _)) by lia. rewrite (proj2 (Z.ltb_ge _ _)) by lia.
  assert ((len frame >? CONTROL_FRAME_MAX_BYTES) = false) as -> by lia. rewrite Ha. simpl negb.
  unfold read_body.
  destruct (fill_enough (λ filled, TruncatedBody (len frame) filled) ev (Z.to_nat (len frame)) [])
    as (ev' & -> & Hd2).
  { rewrite Hd1, length_app. unfold len. lia. }
  assert (Z.to_nat (len frame) = length frame) as Hl by (unfold len; lia).
  rewrite Hl, Hd1, ?app_nil_l in *. rewrite take_app_length. rewrite drop_app_length in Hd2.
  eauto.
Qed.

(** ** The writer's bounds *)

Definition queued_bytes (frames : list bytes) : Z := sum_Z (map (λ f, 4 + len f) frames).

(** What the writer keeps of its queue: the counted bytes are those of the queued
    frames, every frame can be written, and both bounds hold. *)
Record writer_ok (w : FrameWriter) : Prop := {
  writer_bytes : pending_bytes w = queued_bytes (pending_frames w);
  writer_frames : ∀ f, f ∈ pending_frames w → 0 < len f ≤ CONTROL_FRAME_MAX_BYTES;
  writer_count : len (pending_frames w) ≤ CONTROL_QUEUE_MAX_RECORDS;
  writer_budget : pending_bytes w ≤ CONTROL_INFLIGHT_MAX_BYTES
}.

Context `{!PublicationLaws A}.

Lemma writer_new_ok : writer_ok writer_new.
Proof.
  pose proof queue_bounds. pose proof frame_bounds.
  constructor; simpl; [done|set_solver|unfold len; simpl; lia|lia].
Qed.

(** The conditions under which a frame joins the queue. *)
Definition enqueue_fits (w : FrameWriter) (frame : bytes) : Prop :=
  len (pending_frames w) < CONTROL_QUEUE_MAX_RECORDS
  ∧ 0 < len frame ≤ CONTROL_FRAME_MAX_BYTES
  ∧ pending_bytes w + 4 + len frame ≤ CONTROL_INFLIGHT_MAX_BYTES.

Lemma enqueue_frame_spec w frame w' r : writer_ok w → enqueue_frame w frame = (w', r) →
  (r = Ok tt ∧ enqueue_fits w frame
   ∧ w' = mkWriter (pending_frames w ++ [frame]) (pending_bytes w + (4 + len frame)))
  ∨ (w' = w ∧ (∃ e, r = Err e) ∧ ¬ enqueue_fits w frame).
Proof.
  intros Hok. pose proof queue_bounds as Hq. pose proof (writer_budget _ Hok) as Hbudget.
  assert (0 ≤ pending_bytes w) as Hpos.
  { rewrite (writer_bytes _ Hok). apply sum_Z_nonneg, Forall_forall. intros x Hx.
    apply list_elem_of_In, in_map_iff in Hx as (f & <- & _). unfold len. lia. }
  unfold enqueue_frame, enqueue_fits, checked_add64, CONTROL_FRAME_PREFIX_BYTES.
  destruct (Z.geb_spec (len (pending_frames w)) CONTROL_QUEUE_MAX_RECORDS);
    [intros [= <- <-]; right; split_and!; [done|eauto|lia]|].
  case_bool_decide as Hnil; [intros [= <- <-]; right; subst; split_and!;
    [done|eauto|unfold len at 2; simpl; lia]|].
  assert (0 < len frame) by (destruct frame; [done|unfold len; simpl; lia]).
  destruct (Z.gtb_spec (len frame) CONTROL_FRAME_MAX_BYTES);
    [intros [= <- <-]; right; split_and!; [done|eauto|lia]|].
  rewrite (proj2 (Z.leb_le _ _)) by lia.
  destruct (Z.leb_spec (pending_bytes w + (4 + len frame)) u64_max);
    [|intros [= <- <-]; right; split_and!; [done|eauto|lia]].
  destruct (Z.gtb_spec (pending_bytes w + (4 + len frame)) CONTROL_INFLIGHT_MAX_BYTES);
    intros [= <- <-]; [right; split_and!; [done|eauto|lia]|left; split_and!; [done|lia..|done]].
Qed.

Lemma writer_push_ok w frame : writer_ok w → enqueue_fits w frame →
  writer_ok (mkWriter (pending_frames w ++ [frame]) (pending_bytes w + (4 + len frame))).
Proof.
  intros Hok (H1 & H2 & H3). constructor; simpl.
  - rewrite (writer_bytes _ Hok). unfold queued_bytes. rewrite map_app, sum_Z_app. simpl. lia.
  - intros f [Hf| ->%list_elem_of_singleton]%elem_of_app; [by apply (writer_frames _ Hok)|done].
  - unfold len in *. rewrite length_app. simpl. lia.
  - lia.
Qed.

(** A flush empties the queue whatever the stream answers. *)
Lemma flush_queue_ok s w s' w' r : writer_ok w → flush s w = (s', w', r) → w' = writer_new.
Proof.
  intros Hok. unfold flush.
  assert (∀ frames s n s1 w1 r1, n = queued_bytes frames →
    flush_loop s frames n = (s1, w1, r1) → w1 = writer_new) as Hloop.
  { clear. induction frames as [|f frames IH]; intros s n s1 w1 r1 Hn H; cbn [flush_loop] in H.
    - injection H as <- <- <-. by subst.
    - destruct (write_frame s f) as [s2 [[]|e]]; [|by injection H as <- <- <-].
      eapply IH; [|exact H]. subst n. unfold CONTROL_FRAME_PREFIX_BYTES, queued_bytes. simpl.
      assert (0 ≤ sum_Z (map (λ f, 4 + len f) frames)); [|lia].
      apply sum_Z_nonneg, Forall_forall. intros x Hx.
      apply list_elem_of_In, in_map_iff in Hx as (g & <- & _). unfold len. lia. }
  destruct (flush_loop s (pending_frames w) (pending_bytes w)) as [[s1 w1] r1] eqn:E.
  apply Hloop in E; [|apply (writer_bytes _ Hok)]. subst w1.
  destruct r1 as [[]|e]; [destruct (flush_call s1)|]; by intros [= <- <- <-].
Qed.

(** The writer's life: any sequence of enqueues and flushes. *)
Inductive writer_reach : FrameWriter → Prop :=
| WrNew : writer_reach writer_new
| WrEnqueue w record : writer_reach w → writer_reach (enqueue w record).1
| WrFlush w s : writer_reach w → writer_reach (flush s w).1.2
| WrClear w : writer_reach w → writer_reach (writer_clear w).

Lemma enqueue_cases w record w' r : enqueue w record = (w', r) →
  (w' = w ∧ ∃ e, r = Err e)
  ∨ ∃ frame, encode_record record = Ok frame ∧ enqueue_frame w frame = (w', r).
Proof.
  unfold enqueue. case_if; [intros [= <- <-]; eauto|].
  destruct (encode_record record) as [frame|e]; [eauto|intros [= <- <-]; eauto].
Qed.

Lemma enqueue_ok w record : writer_ok w → writer_ok (enqueue w record).1.
Proof.
  intros Hok. destruct (enqueue w record) as [w' r] eqn:E. simpl.
  apply enqueue_cases in E as [[-> _]|(frame & _ & E)]; [done|].
  apply enqueue_frame_spec in E as [(_ & Hf & ->)|(-> & _)]; [by apply writer_push_ok|done|done].
Qed.

(** In every life of the writer the queue holds at most the permitted number of
    frames and of bytes, the byte counter is the size of what is queued, and every
    queued frame is one the reader's bounds admit. *)
Theorem writer_bounded w : writer_reach w → writer_ok w.
Proof.
  induction 1 as [|w record _ IH|w s _ IH|w _ IH].
  - apply writer_new_ok.
  - by apply enqueue_ok.
  - destruct (flush s w) as [[s' w'] r] eqn:E. apply flush_queue_ok in E; [|done].
    subst. apply writer_new_ok.
  - apply writer_new_ok.
Qed.

(** ** Round trip *)

(** A record whose encoding is a frame the reader admits and decodes back. *)
Definition record_ok (allocates : Z → bool) (record : ControlRecord Tuple Projection) : Prop :=
  ∃ frame, encode_record record = Ok frame ∧ decode_record frame = Ok record
    ∧ CONTROL_HEADER_BYTES ≤ len frame ∧ enforce_small_record_bound frame = Ok tt
    ∧ allocates (len frame) = true.

Fixpoint enqueue_all (w : FrameWriter) (records : list (ControlRecord Tuple Projection)) :
    FrameWriter * result unit FrameError :=
  match records with
  | [] => (w, Ok tt)
  | record :: records =>
      match enqueue w record with
      | (w, Err e) => (w, Err e)
      | (w, Ok _) => enqueue_all w records
      end
  end.

Fixpoint read_records (allocates : Z → bool) (n : nat) (events : list ReadEvent) :
    list ReadEvent * list (result (ControlRecord Tuple Projection) FrameError) :=
  match n with
  | O => (events, [])
  | S n =>
      let '(events, r) := read_record allocates events in
      let '(events, rs) := read_records allocates n events in
      (events, r :: rs)
  end.

Lemma enqueue_all_frames allocates records : Forall (record_ok allocates) records →
  ∀ w w', writer_ok w → enqueue_all w records = (w', Ok tt) →
  ∃ frames, pending_frames w' = pending_frames w ++ frames
    ∧ Forall2 (λ record frame, decode_record frame = Ok record
        ∧ CONTROL_HEADER_BYTES ≤ len frame ≤ CONTROL_FRAME_MAX_BYTES
        ∧ enforce_small_record_bound frame = Ok tt ∧ allocates (len frame) = true) records frames.
Proof.
  induction 1 as [|record records Hr _ IH]; intros w w' Hok E; cbn [enqueue_all] in E.
  - injection E as <-. exists []. by rewrite app_nil_r.
  - destruct (enqueue w record) as [w1 r1] eqn:E1. pose proof (enqueue_ok w record Hok) as Hok1.
    rewrite E1 in Hok1. destruct r1 as [[]|]; [|done].
    apply enqueue_cases in E1 as [[_ [? [=]]]|(frame & He & E1)].
    apply enqueue_frame_spec in E1 as [(_ & (_ & Hlen & _) & ->)|(_ & [? [=]] & _)]; [|done].
    destruct Hr as (frame' & He' & Hdec & Hh & Hs & Ha). rewrite He in He'. injection He' as <-.
    destruct (IH _ _ Hok1 E) as (frames & Hq & HF). exists (frame :: frames). simpl in Hq.
    rewrite Hq, <- app_assoc. split; [done|]. constructor; [|done]. split_and!; [done|lia|lia|done|done].
Qed.

Lemma read_records_frames allocates records frames :
  Forall2 (λ record frame, decode_record frame = Ok record
    ∧ CONTROL_HEADER_BYTES ≤ len frame ≤ CONTROL_FRAME_MAX_BYTES
    ∧ enforce_small_record_bound frame = Ok tt ∧ allocates (len frame) = true) records frames →
  ∀ events, deliverable events = concat (map frame_wire frames) →
  ∃ events', read_records allocates (length records) events = (events', map Ok records)
    ∧ deliverable events' = [].
Proof.
  pose proof frame_bounds.
  induction 1 as [|record frame records frames (Hdec & Hb & Hs & Ha) _ IH]; intros events Hd.
  { by exists events. }
  cbn [map concat] in Hd.
  destruct (read_record_frame allocates events frame _ Ha Hb ltac:(lia) Hd) as (ev & E & Hd').
  destruct (IH ev Hd') as (ev' & E' & Hn). exists ev'. cbn [length read_records].
  rewrite E, E', Hs. simpl. by rewrite Hdec.
Qed.

(** C13: records enqueued and flushed are read back by the peer, the same records in
    the same order, under every way the writer's stream takes the bytes and the
    reader's stream delivers them; nothing is left over. *)
Theorem frames_roundtrip allocates records w s s' w' events :
  Forall (record_ok allocates) records →
  enqueue_all writer_new records = (w, Ok tt) →
  flush s w = (s', w', Ok tt) →
  written s' = written s ++ deliverable events →
  ∃ events', read_records allocates (length records) events = (events', map Ok records)
    ∧ deliverable events' = [].
Proof.
  intros Hr Hq Hf Hd. apply (enqueue_all_frames _ _ Hr _ _ writer_new_ok) in Hq as (frames & Hq & HF).
  apply flush_spec in Hf as (_ & _ & taken & Hw & _ & Hall). rewrite (Hall eq_refl), Hd, Hq in Hw.
  eapply read_records_frames; [exact HF|]. by apply app_inv_head in Hw.
Qed.

End Framing.

(** ** A concrete exchange *)

(** Two records of the table contract, written three bytes at a time with an
    interruption and delivered in uneven pieces. *)
Definition table_sample : list (ControlRecord (Id * Z) bytes) :=
  [mkRecord SenderHelper 1 [] (BodyError CodeUnavailable);
   mkRecord SenderHelper 2 [] (BodyLifetime [] 7)].

#[local] Instance sample_api : PublicationApi := table_api table_sample.
#[local] Instance sample_laws : PublicationLaws sample_api := table_laws table_sample.

Definition sample_writer : FrameWriter := (enqueue_all writer_new table_sample).1.

Definition sample_written : Stream :=
  (flush (mkStream [] (WrAccept 3 :: WrInterrupted :: repeat (WrAccept 3) 5) [] []) sample_writer).1.1.

Definition sample_delivery : list ReadEvent :=
  let l := written sample_written in
  [RdData (take 1 l); RdInterrupted; RdData (take 11 (drop 1 l)); RdData (drop 12 l)].

Lemma writer_bounded_witness : writer_reach sample_writer ∧ writer_ok sample_writer.
Proof.
  assert (writer_reach sample_writer) as H.
  { assert (sample_writer
      = (enqueue (enqueue writer_new (mkRecord SenderHelper 1 [] (BodyError CodeUnavailable))).1
           (mkRecord SenderHelper 2 [] (BodyLifetime [] 7))).1) as ->
      by (vm_compute; reflexivity).
    apply WrEnqueue, WrEnqueue, WrNew. }
  split; [exact H|]. exact (writer_bounded sample_writer H).
Defined.

Lemma frames_roundtrip_witness :
  ∃ events', read_records (λ _, true) 2 sample_delivery = (events', map Ok table_sample)
    ∧ deliverable events' = [].
Proof.
  apply (frames_roundtrip (A := sample_api) (λ _, true) table_sample sample_writer
    (mkStream [] (WrAccept 3 :: WrInterrupted :: repeat (WrAccept 3) 5) [] [])
    sample_written writer_new sample_delivery).
  - apply Forall_cons; split; [|apply Forall_cons; split; [|apply Forall_nil; done]].
    + exists (repeat (Ascii.ascii_of_nat 0) 8 ++ [Ascii.ascii_of_nat 0]). split_and!; [reflexivity..|done|reflexivity|reflexivity].
    + exists (repeat (Ascii.ascii_of_nat 0) 8 ++ [Ascii.ascii_of_nat 1]). split_and!; [reflexivity..|done|reflexivity|reflexivity].
  - reflexivity.
  - reflexivity.
  - reflexivity.
Defined.

Lemma allocation_bounded_witness :
  read_record (λ n, n <=? 4096) sample_delivery = read_record (λ n, n <=? 5000) sample_delivery.
Proof.
  apply (allocation_bounded (A := sample_api) (λ n, n <=? 4096) (λ n, n <=? 5000) sample_delivery).
  intros n Hn. assert (n ≤ 4096) by (destruct Hn as [_ Hn]; exact Hn).
  rewrite !(proj2 (Z.leb_le _ _)); [done|lia|lia].
Defined.
