(* ===== verification/Control.v ===== *)
(** * Control: the helper's publication state machine

    Models [state.rs] and [control_registry.rs] of [crates/bitty-ai-control]: the
    helper side of a launch-scoped publication authority, from the establishment
    exchange over publish, bind and invalidation to its revocation.  The registry
    the helper reads and the random source are interfaces; every call of one may
    move its state. *)

From S2P Require Import Prelude Text Wire Manifest IpcApi Framing.

Local Open Scope Z_scope.

(** ** Errors *)

Inductive RegistryError := RegistryUnavailable | InvalidRevision.

(** [RevocationReason] *)
Inductive RevocationReason :=
| RevControlTransport
| RevProtocolViolation
| RevEstablishmentMismatch
| RevRegistryUnavailable
| RevRetainedBytesMismatch
| RevResourceLimit
| RevRandomUnavailable
| RevVersionExhausted
| RevPeerError
| RevPeerWithdrewAuthority
| RevLocalClose.

Inductive Phase := AwaitingEstablish | Ready | AwaitingBind | Revoked.

#[export] Instance Phase_eq_dec : EqDecision Phase.
Proof. solve_decision. Defined.

(** ** Interfaces *)

(** [RegistrySnapshot] *)
Record RegistrySnapshot (P : Type) := mkSnapshot { snap_revision : Z; snap_projection : P }.
Arguments mkSnapshot {P}.
Arguments snap_revision {P}.
Arguments snap_projection {P}.

(** [RegistrySnapshot::new] *)
Definition snapshot_new {P} (feed_revision : Z) (projection : P) :
    result (RegistrySnapshot P) RegistryError :=
  if feed_revision =? 0 then Err InvalidRevision else Ok (mkSnapshot feed_revision projection).

(** [RegistryView]: both calls read the registry under its gate. *)
Class RegistryView (P R : Type) := {
  snapshot : R → R * result (RegistrySnapshot P) RegistryError;
  retained_matches : Z → bytes → R → R * result bool RegistryError
}.

(** [SecureRandom::fill] of the cryptography provider: [None] is its failure. *)
Class SecureRandom (E : Type) := random_fill : Z → E → E * option bytes.

Definition LIFETIME_SECRET_BYTES : Z := 32.

(** ** State *)

Record Lifetime := mkLifetime { life_id : Id; life_revision : Z; life_secret : bytes }.

Record RetiredLifetime := mkRetired { ret_id : Id; ret_revision : Z }.

#[export] Instance RetiredLifetime_eq_dec : EqDecision RetiredLifetime.
Proof. solve_decision. Defined.

(** [RetiredIdentifiers] *)
Record RetiredIdentifiers := mkRetiredIds { retired_life : option Id; retired_receipt : option Id }.

Definition retired_default : RetiredIdentifiers := mkRetiredIds None None.
Definition note_lifetime (r : RetiredIdentifiers) (id : Id) : RetiredIdentifiers :=
  mkRetiredIds (Some id) r.(retired_receipt).
Definition note_receipt (r : RetiredIdentifiers) (id : Id) : RetiredIdentifiers :=
  mkRetiredIds r.(retired_life) (Some id).
Definition lifetime_conflicts (r : RetiredIdentifiers) (id : Id) : bool :=
  bool_decide (r.(retired_life) = Some id).
Definition receipt_bytes_conflict (r : RetiredIdentifiers) (id : Id) : bool :=
  bool_decide (r.(retired_receipt) = Some id).

Section Control.
Context `{A : PublicationApi} {R E : Type} `{RV : !RegistryView Projection R} `{SR : !SecureRandom E}.
Context (allocates : Z → bool).

Inductive HelperControlError :=
| ErrFrame (e : FrameError)
| ErrRecord (e : CodecError)
| ErrManifest (e : ManifestError)
| ErrEstablishmentMismatch (field : string)
| ErrSessionMismatch
| ErrSequenceMismatch
| ErrUnexpectedRecord (kind : Kind)
| ErrUnexpectedSender (sender : Sender)
| ErrCoreRegistryMutation
| ErrStaleAuthority
| ErrPublicationAlreadyPending
| ErrPublicationIdentityMismatch
| ErrPublicationVersionNotIncreasing
| ErrNoPendingBind
| ErrBindMismatch
| ErrRetainedBytesMismatch
| ErrRegistry (e : RegistryError)
| ErrRandomUnavailable
| ErrVersionExhausted
| ErrResourceLimit
| ErrPeerError (code : ErrorCode)
| ErrLaunchMismatch
| ErrClosedByPeer
| ErrNotEstablished
| ErrAlreadyEstablished
| ErrClosed.

Inductive Step :=
| Published (tuple : Tuple)
| Bound (tuple : Tuple) (receipt : Id)
| LifetimeRotated (previous current : Id) (feed_revision : Z) (reason : Reason)
| PredecessorCorrelated
| AuthorityClosed (reason : Reason)
| PeerError (code : ErrorCode).

Inductive ProofState :=
| Unestablished
| Unbound
| Acknowledged
| ProofBound (receipt : Id)
| ProofRevoked.

Record PendingPublication := mkPending {
  pend_lifetime : Id;
  pend_revision : Z;
  pend_tuple : Tuple;
  retained : bytes;
  pend_ack : Id
}.

Record ActiveReceipt := mkReceipt { act_tuple : Tuple; act_receipt : Id }.

Record HelperControl := mkControl {
  stream : Stream;
  writer : FrameWriter;
  registry : R;
  random : E;
  expectations : EstablishmentExpectations;
  session_id : Id;
  phase : Phase;
  in_sequence : Z;
  out_sequence : Z;
  lifetime : option Lifetime;
  predecessor : option RetiredLifetime;
  retired : RetiredIdentifiers;
  pending : option PendingPublication;
  receipt : option ActiveReceipt;
  last_core_publication_version : Z;
  revocation : option RevocationReason
}.

(** Assignments to the parts of the state. *)

(** [self.stream], [self.writer] and [self.out_sequence] *)
Definition set_output (st : Stream) (w : FrameWriter) (n : Z) (s : HelperControl) : HelperControl :=
  mkControl st w s.(registry) s.(random) s.(expectations) s.(session_id) s.(phase) s.(in_sequence)
    n s.(lifetime) s.(predecessor) s.(retired) s.(pending) s.(receipt)
    s.(last_core_publication_version) s.(revocation).
(** [self.stream] after a read *)
Definition set_input (events : list ReadEvent) (s : HelperControl) : HelperControl :=
  set_output (mkStream events s.(stream).(accepts) s.(stream).(flushes) s.(stream).(written))
    s.(writer) s.(out_sequence) s.
Definition set_environment (r : R) (e : E) (s : HelperControl) : HelperControl :=
  mkControl s.(stream) s.(writer) r e s.(expectations) s.(session_id) s.(phase) s.(in_sequence)
    s.(out_sequence) s.(lifetime) s.(predecessor) s.(retired) s.(pending) s.(receipt)
    s.(last_core_publication_version) s.(revocation).
Definition set_in_sequence (n : Z) (s : HelperControl) : HelperControl :=
  mkControl s.(stream) s.(writer) s.(registry) s.(random) s.(expectations) s.(session_id) s.(phase) n
    s.(out_sequence) s.(lifetime) s.(predecessor) s.(retired) s.(pending) s.(receipt)
    s.(last_core_publication_version) s.(revocation).
(** The authority: phase, lifetimes, pending publication, receipt, version. *)
Definition set_authority (p : Phase) (l : option Lifetime) (pre : option RetiredLifetime)
    (ids : RetiredIdentifiers) (pend : option PendingPublication) (rc : option ActiveReceipt) (v : Z)
    (s : HelperControl) : HelperControl :=
  mkControl s.(stream) s.(writer) s.(registry) s.(random) s.(expectations) s.(session_id) p
    s.(in_sequence) s.(out_sequence) l pre ids pend rc v s.(revocation).
Definition set_revocation (reason : RevocationReason) (s : HelperControl) : HelperControl :=
  mkControl s.(stream) s.(writer) s.(registry) s.(random) s.(expectations) s.(session_id) Revoked
    s.(in_sequence) s.(out_sequence) s.(lifetime) s.(predecessor) s.(retired) s.(pending) s.(receipt)
    s.(last_core_publication_version) (Some reason).
Definition set_phase (p : Phase) (s : HelperControl) : HelperControl :=
  set_authority p s.(lifetime) s.(predecessor) s.(retired) s.(pending) s.(receipt)
    s.(last_core_publication_version) s.
Definition set_lifetime (l : option Lifetime) (s : HelperControl) : HelperControl :=
  set_authority s.(phase) l s.(predecessor) s.(retired) s.(pending) s.(receipt)
    s.(last_core_publication_version) s.
Definition set_predecessor (p : option RetiredLifetime) (s : HelperControl) : HelperControl :=
  set_authority s.(phase) s.(lifetime) p s.(retired) s.(pending) s.(receipt)
    s.(last_core_publication_version) s.
Definition set_retired (ids : RetiredIdentifiers) (s : HelperControl) : HelperControl :=
  set_authority s.(phase) s.(lifetime) s.(predecessor) ids s.(pending) s.(receipt)
    s.(last_core_publication_version) s.
Definition set_pending (p : option PendingPublication) (s : HelperControl) : HelperControl :=
  set_authority s.(phase) s.(lifetime) s.(predecessor) s.(retired) p s.(receipt)
    s.(last_core_publication_version) s.
Definition set_receipt (rc : option ActiveReceipt) (s : HelperControl) : HelperControl :=
  set_authority s.(phase) s.(lifetime) s.(predecessor) s.(retired) s.(pending) rc
    s.(last_core_publication_version) s.
Definition set_version (v : Z) (s : HelperControl) : HelperControl :=
  set_authority s.(phase) s.(lifetime) s.(predecessor) s.(retired) s.(pending) s.(receipt) v s.

(** A method of the state machine: the state after it and what it returned. *)
Definition method (X : Type) : Type := HelperControl → HelperControl * result X HelperControlError.

#[export] Instance method_ret : MRet method := λ X x s, (s, Ok x).
#[export] Instance method_bind : MBind method :=
  λ X Y k m s, match m s with (s, Ok x) => k x s | (s, Err e) => (s, Err e) end.

Definition reading {X} (f : HelperControl → X) : method X := λ s, (s, Ok (f s)).
Definition assign (f : HelperControl → HelperControl) : method unit := λ s, (f s, Ok tt).

(** ** Faults *)

Record Fault := mkFault {
  fault_error : HelperControlError;
  fault_reason : RevocationReason;
  fault_code : option ErrorCode
}.

Definition fault_protocol (e : HelperControlError) : Fault :=
  mkFault e RevProtocolViolation (Some CodeInvalidControl).
Definition fault_establishment (field : string) : Fault :=
  mkFault (ErrEstablishmentMismatch field) RevEstablishmentMismatch (Some CodeInvalidControl).
Definition fault_registry (e : RegistryError) : Fault :=
  mkFault (ErrRegistry e) RevRegistryUnavailable (Some CodeUnavailable).
Definition fault_retained : Fault :=
  mkFault ErrRetainedBytesMismatch RevRetainedBytesMismatch (Some CodeInvalidControl).
Definition fault_version : Fault :=
  mkFault ErrVersionExhausted RevVersionExhausted (Some CodeResourceLimit).
Definition fault_resource (e : HelperControlError) : Fault :=
  mkFault e RevResourceLimit (Some CodeResourceLimit).
Definition fault_transport (e : HelperControlError) : Fault := mkFault e RevControlTransport None.
Definition fault_peer (code : ErrorCode) : Fault := mkFault (ErrPeerError code) RevPeerError None.
Definition fault_random_for (e : HelperControlError) : Fault :=
  mkFault e RevRandomUnavailable (Some CodeUnavailable).

(** [RevocationReason::error_code] *)
Definition error_code (r : RevocationReason) : option ErrorCode :=
  match r with
  | RevProtocolViolation | RevEstablishmentMismatch | RevRetainedBytesMismatch =>
      Some CodeInvalidControl
  | RevRegistryUnavailable | RevRandomUnavailable => Some CodeUnavailable
  | RevResourceLimit | RevVersionExhausted => Some CodeResourceLimit
  | RevControlTransport | RevPeerError | RevPeerWithdrewAuthority | RevLocalClose => None
  end.

Definition frame_error (e : FrameError) : HelperControlError :=
  match e with
  | FrameRecord e => ErrRecord e
  | other => ErrFrame other
  end.

Definition send_fault (e : HelperControlError) : Fault :=
  match e with
  | ErrVersionExhausted => mkFault e RevVersionExhausted None
  | ErrResourceLimit
  | ErrFrame (AllocationFailed _)
  | ErrFrame (QueueFull _)
  | ErrFrame (ByteBudgetExceeded _) => mkFault e RevResourceLimit (Some CodeResourceLimit)
  | _ => mkFault e RevControlTransport None
  end.

(** ** Sending and failing *)

Definition raw_send (body : RecordBody Tuple Projection) : method unit := λ s,
  match next_expected_sequence s.(out_sequence) with
  | None => (s, Err ErrVersionExhausted)
  | Some sequence =>
      let record := mkRecord SenderHelper sequence s.(session_id) body in
      match enqueue s.(writer) record with
      | (w, Err e) => (set_output s.(stream) w s.(out_sequence) s, Err (frame_error e))
      | (w, Ok _) =>
          match flush s.(stream) w with
          | (st, w, Err e) => (set_output st w s.(out_sequence) s, Err (frame_error e))
          | (st, w, Ok _) => (set_output st w sequence s, Ok tt)
          end
      end
  end.

Definition send_error_best_effort (code : ErrorCode) (s : HelperControl) : HelperControl :=
  (raw_send (BodyError code) s).1.

Definition clear_authority (s : HelperControl) : HelperControl :=
  set_output s.(stream) (writer_clear s.(writer)) s.(out_sequence)
    (set_authority s.(phase) None None retired_default None None s.(last_core_publication_version) s).

(** [HelperControl::fail] *)
Definition fail (f : Fault) (s : HelperControl) : HelperControl * HelperControlError :=
  if bool_decide (s.(phase) = Revoked) then (s, f.(fault_error))
  else
    let s := clear_authority (set_revocation f.(fault_reason) s) in
    let s := match f.(fault_code) with Some code => send_error_best_effort code s | None => s end in
    (s, f.(fault_error)).

(** [return Err(self.fail(fault))] *)
Definition fail_with {X} (f : Fault) : method X := λ s, let '(s, e) := fail f s in (s, Err e).

Definition emit (body : RecordBody Tuple Projection) : method unit := λ s,
  match raw_send body s with
  | (s, Ok _) => (s, Ok tt)
  | (s, Err e) => fail_with (send_fault e) s
  end.

(** [if !condition { return Err(self.fail(fault)) }] *)
Definition require (c : bool) (f : Fault) : method unit := if c then mret tt else fail_with f.

(** ** Reading *)

Definition read_incoming : method (ControlRecord Tuple Projection) := λ s,
  match read_record allocates s.(stream).(incoming) with
  | (events, Ok record) => (set_input events s, Ok record)
  | (events, Err e) =>
      let fault :=
        match e with
        | FrameClosed | TruncatedPrefix _ | TruncatedBody _ _ | FrameIo _ | WriteZero =>
            fault_transport (frame_error e)
        | AllocationFailed _ | QueueFull _ | ByteBudgetExceeded _ => fault_resource (frame_error e)
        | _ => fault_protocol (frame_error e)
        end in
      fail_with fault (set_input events s)
  end.

Definition validate_envelope (record : ControlRecord Tuple Projection) : method unit :=
  require (bool_decide (record.(rec_sender) = SenderCore))
    (fault_protocol (ErrUnexpectedSender record.(rec_sender)));;
  session ← reading session_id;
  require (validate_session session record.(rec_session)) (fault_protocol ErrSessionMismatch);;
  last ← reading in_sequence;
  require (validate_incoming_sequence last record.(rec_sequence)) (fault_protocol ErrSequenceMismatch);;
  assign (set_in_sequence record.(rec_sequence)).

Definition snapshot_or_fail : method (RegistrySnapshot Projection) := λ s,
  match snapshot s.(registry) with
  | (g, Ok snap) => (set_environment g s.(random) s, Ok snap)
  | (g, Err e) => fail_with (fault_registry e) (set_environment g s.(random) s)
  end.

Definition compare_retained (feed_revision : Z) (bytes : bytes) : method (result bool RegistryError) :=
  λ s, let '(g, r) := retained_matches feed_revision bytes s.(registry) in
       (set_environment g s.(random) s, Ok r).

(** ** Identifiers *)

(** One fill of [n] random bytes. *)
Definition random_id (n : Z) : method (option Id) :=
  λ s, let '(e, r) := random_fill n s.(random) in (set_environment s.(registry) e s, Ok r).

(** [fresh_lifetime] with the [match] of its callers, who fail on its error. *)
Definition fresh_lifetime (feed_revision : Z) : method Lifetime :=
  let unavailable := fault_random_for ErrRandomUnavailable in
  filled ← random_id RANDOM_ID_BYTES;
  match filled with
  | None => fail_with unavailable
  | Some id =>
      filled ← random_id LIFETIME_SECRET_BYTES;
      match filled with
      | None => fail_with unavailable
      | Some secret =>
          conflict ← reading (λ s,
            bool_decide (life_id <$> s.(lifetime) = Some id)
            || bool_decide (ret_id <$> s.(predecessor) = Some id)
            || lifetime_conflicts s.(retired) id);
          require (negb conflict) unavailable;;
          mret (mkLifetime id feed_revision secret)
      end
  end.

Definition retire_current (s : HelperControl) : HelperControl :=
  match s.(lifetime) with
  | Some previous =>
      set_predecessor (Some (mkRetired previous.(life_id) previous.(life_revision)))
        (set_retired (note_lifetime s.(retired) previous.(life_id)) (set_lifetime None s))
  | None => s
  end.

Definition clear_receipt (s : HelperControl) : HelperControl :=
  match s.(receipt) with
  | Some r => set_retired (note_receipt s.(retired) r.(act_receipt)) (set_receipt None s)
  | None => s
  end.

Definition require_active : method unit := λ s,
  match s.(phase) with
  | Revoked => (s, Err ErrClosed)
  | AwaitingEstablish => (s, Err ErrNotEstablished)
  | Ready | AwaitingBind => (s, Ok tt)
  end.

Definition current_identity : method (Id * Z) := λ s,
  match s.(lifetime) with
  | Some l => (s, Ok (l.(life_id), l.(life_revision)))
  | None => (s, Err ErrNotEstablished)
  end.

(** ** Construction *)

(** [HelperControl::with_expectations], behind [from_session]; [e] is the random
    source. *)
Definition with_expectations (st : Stream) (g : R) (e : E) (x : EstablishmentExpectations) :
    HelperControl :=
  mkControl st writer_new g e x x.(echo_launch_nonce) AwaitingEstablish 0 0 None None retired_default
    None None 0 None.

(** [HelperControl::from_stream] *)
Definition from_stream (sha256 : bytes → bytes) (m : LaunchManifest) (st : Stream) (g : R) (e : E) :
    result HelperControl HelperControlError :=
  match validate_non_key m with
  | Err err => Err (ErrManifest err)
  | Ok _ => Ok (with_expectations st g e (expectations_from_manifest sha256 m))
  end.

(** [HelperControl::new]: the manifest and the session describe one launch. *)
Definition control_new (sha256 : bytes → bytes) (m : LaunchManifest)
    (session : EstablishmentExpectations) (st : Stream) (g : R) (e : E) :
    result HelperControl HelperControlError :=
  if bool_decide (expectations_from_manifest sha256 m = session) then from_stream sha256 m st g e
  else Err ErrLaunchMismatch.

(** ** Operations *)

Definition establish : method unit := λ s,
  if bool_decide (s.(phase) = Revoked) then (s, Err ErrClosed)
  else if negb (bool_decide (s.(phase) = AwaitingEstablish)) then
    fail_with (fault_protocol ErrAlreadyEstablished) s
  else
    (record ← read_incoming;
     validate_envelope record;;
     match record.(rec_body) with
     | BodyEstablish echo =>
         x ← reading expectations;
         match verify_echo x echo with
         | Err field => fail_with (fault_establishment field)
         | Ok _ =>
             snap ← snapshot_or_fail;
             l ← fresh_lifetime snap.(snap_revision);
             assign (set_lifetime (Some l));;
             assign (set_phase Ready);;
             emit (BodyEstablished echo l.(life_id));;
             emit (BodyProjection l.(life_id) snap.(snap_revision) snap.(snap_projection))
         end
     | body => fail_with (fault_protocol (ErrUnexpectedRecord (body_kind body)))
     end) s.

Definition handle_publish (lifetime_id : Id) (feed_revision : Z) (tuple : Tuple)
    (payload : Projection) : method Step :=
  current ← current_identity;
  require (bool_decide (lifetime_id = current.1) && (feed_revision =? current.2))
    (fault_protocol ErrStaleAuthority);;
  pend ← reading pending;
  require (bool_decide (pend = None)) (fault_protocol ErrPublicationAlreadyPending);;
  session ← reading session_id;
  require (bool_decide (tuple_launch_nonce tuple = session))
    (fault_protocol ErrPublicationIdentityMismatch);;
  last ← reading last_core_publication_version;
  require (negb (tuple_version tuple <=? last)) (fault_protocol ErrPublicationVersionNotIncreasing);;
  filled ← random_id RANDOM_ID_BYTES;
  match filled with
  | None => fail_with (fault_random_for ErrRandomUnavailable)
  | Some ack_id =>
      conflict ← reading (λ s,
        bool_decide (act_receipt <$> s.(receipt) = Some ack_id)
        || receipt_bytes_conflict s.(retired) ack_id);
      require (negb conflict) (fault_random_for ErrRandomUnavailable);;
      assign clear_receipt;;
      assign (set_pending (Some (mkPending current.1 current.2 tuple (canonical_bytes payload) ack_id)));;
      assign (set_version (tuple_version tuple));;
      assign (set_phase AwaitingBind);;
      emit (BodyAck (mkAckBody current.1 current.2 tuple ack_id));;
      mret (Published tuple)
  end.

(** The four comparisons of [handle_bind]. *)
Definition bind_matches (body : AckBody Tuple) (p : PendingPublication) : bool :=
  bool_decide (body.(ack_lifetime) = p.(pend_lifetime))
  && (body.(ack_revision) =? p.(pend_revision))
  && bool_decide (body.(ack_tuple) = p.(pend_tuple))
  && bool_decide (body.(ack_id) = p.(pend_ack)).

Definition handle_bind (body : AckBody Tuple) : method Step :=
  taken ← reading pending;
  assign (set_pending None);;
  match taken with
  | None => fail_with (fault_protocol ErrNoPendingBind)
  | Some p =>
      require (bind_matches body p) (fault_protocol ErrBindMismatch);;
      comparison ← compare_retained p.(pend_revision) p.(retained);
      match comparison with
      | Err e => fail_with (fault_registry e)
      | Ok false => fail_with fault_retained
      | Ok true =>
          filled ← random_id RANDOM_ID_BYTES;
          match filled with
          | None => fail_with (fault_random_for ErrRandomUnavailable)
          | Some rc =>
              ids ← reading retired;
              require (negb (bool_decide (rc = p.(pend_ack)) || receipt_bytes_conflict ids rc))
                (fault_random_for ErrRandomUnavailable);;
              assign (set_receipt (Some (mkReceipt p.(pend_tuple) rc)));;
              assign (set_phase Ready);;
              emit (BodyBound p.(pend_lifetime) p.(pend_revision) p.(pend_tuple) rc);;
              mret (Bound p.(pend_tuple) rc)
          end
      end
  end.

(** The Core withdraws authority: closed without a replacement lifetime. *)
Definition withdraw (reason : Reason) : method Step :=
  assign (set_revocation RevPeerWithdrewAuthority);;
  assign clear_authority;;
  mret (AuthorityClosed reason).

Definition withdraws (reason : Reason) : bool :=
  match reason with ReasonGrantLoss | ReasonShutdown => true | _ => false end.

(** Replace the current lifetime by [l] and announce it. *)
Definition announce (l : Lifetime) (feed_revision : Z) (projection : Projection) : method unit :=
  assign retire_current;;
  assign (set_lifetime (Some l));;
  assign (set_phase Ready);;
  emit (BodyLifetime l.(life_id) feed_revision);;
  emit (BodyProjection l.(life_id) feed_revision projection).

Definition handle_invalidate (lifetime_id : Id) (feed_revision : Z) (reason : Reason) : method Step :=
  require (negb (bool_decide (reason = ReasonRegistryMutation))) (fault_protocol ErrCoreRegistryMutation);;
  current ← reading (λ s, (λ l, (l.(life_id), l.(life_revision))) <$> s.(lifetime));
  if bool_decide (current = Some (lifetime_id, feed_revision)) then
    assign (set_pending None);;
    assign clear_receipt;;
    if withdraws reason then withdraw reason
    else
      snap ← snapshot_or_fail;
      require (snap.(snap_revision) =? feed_revision) (fault_protocol ErrStaleAuthority);;
      l ← fresh_lifetime feed_revision;
      announce l feed_revision snap.(snap_projection);;
      mret (LifetimeRotated lifetime_id l.(life_id) feed_revision reason)
  else
    pre ← reading predecessor;
    if bool_decide (pre = Some (mkRetired lifetime_id feed_revision)) then
      assign (set_predecessor None);;
      if withdraws reason then withdraw reason else mret PredecessorCorrelated
    else fail_with (fault_protocol ErrStaleAuthority).

(** [HelperControl::step] *)
Definition step : method Step :=
  require_active;;
  record ← read_incoming;
  validate_envelope record;;
  match record.(rec_body) with
  | BodyPublish lifetime_id feed_revision tuple payload =>
      handle_publish lifetime_id feed_revision tuple payload
  | BodyBind ack => handle_bind ack
  | BodyInvalidate lifetime_id feed_revision reason =>
      handle_invalidate lifetime_id feed_revision reason
  | BodyError code => λ s, let '(s, _) := fail (fault_peer code) s in (s, Ok (PeerError code))
  | body => fail_with (fault_protocol (ErrUnexpectedRecord (body_kind body)))
  end.

(** [mutate(&mut self.registry)] *)
Definition run_mutation (mutate : R → R * result unit RegistryError) :
    method (result unit RegistryError) :=
  λ s, let '(g, r) := mutate s.(registry) in (set_environment g s.(random) s, Ok r).

Definition registry_mutated (mutate : R → R * result unit RegistryError) : method Step :=
  require_active;;
  current ← current_identity;
  match checked_add64 current.2 1 with
  | None => fail_with fault_version
  | Some new_revision =>
      before ← snapshot_or_fail;
      require (before.(snap_revision) =? current.2) (fault_protocol ErrStaleAuthority);;
      assign (set_pending None);;
      assign clear_receipt;;
      emit (BodyInvalidate current.1 current.2 ReasonRegistryMutation);;
      mutated ← run_mutation mutate;
      match mutated with
      | Err e => fail_with (fault_registry e)
      | Ok _ =>
          after ← snapshot_or_fail;
          require (after.(snap_revision) =? new_revision) (fault_registry InvalidRevision);;
          l ← fresh_lifetime new_revision;
          announce l new_revision after.(snap_projection);;
          mret (LifetimeRotated current.1 l.(life_id) new_revision ReasonRegistryMutation)
      end
  end.

Definition reset : method Step :=
  require_active;;
  current ← current_identity;
  assign (set_pending None);;
  assign clear_receipt;;
  emit (BodyInvalidate current.1 current.2 ReasonReset);;
  snap ← snapshot_or_fail;
  require (snap.(snap_revision) =? current.2) (fault_protocol ErrStaleAuthority);;
  l ← fresh_lifetime current.2;
  announce l current.2 snap.(snap_projection);;
  mret (LifetimeRotated current.1 l.(life_id) current.2 ReasonReset).

Definition close (s : HelperControl) : HelperControl :=
  if bool_decide (s.(phase) = Revoked) then s
  else clear_authority (set_revocation RevLocalClose s).

Definition proof_state (s : HelperControl) : ProofState :=
  if bool_decide (s.(phase) = Revoked) then ProofRevoked
  else
    match s.(lifetime), s.(pending), s.(receipt) with
    | None, _, _ => Unestablished
    | Some _, Some _, _ => Acknowledged
    | Some _, None, Some r => ProofBound r.(act_receipt)
    | Some _, None, None => Unbound
    end.

End Control.

(** ** The control-only registry *)

Definition CONTROL_ONLY_FEED_REVISION : Z := 1.

Section ControlOnly.
Context `{A : PublicationApi} (empty : Projection).

(** [ControlOnlyRegistry]; [empty] is the contract's empty projection. *)
Record ControlOnlyRegistry := mkControlOnly { only_snapshot : RegistrySnapshot Projection }.

Definition control_only_new : ControlOnlyRegistry :=
  mkControlOnly (mkSnapshot CONTROL_ONLY_FEED_REVISION empty).

#[export] Instance control_only_view : RegistryView Projection ControlOnlyRegistry := {|
  snapshot g := (g, Ok g.(only_snapshot));
  retained_matches feed_revision bytes g :=
    (g, Ok (if feed_revision =? g.(only_snapshot).(snap_revision) then
              bool_decide (canonical_bytes g.(only_snapshot).(snap_projection) = bytes)
            else false))
|}.

End ControlOnly.
