(* ===== verification/ControlSpec.v ===== *)
(** * ControlSpec: the publication authority, abstractly

    What the helper's state machine promises, without streams, queues, registry
    and random state: which authority follows which under the record received from
    the Core, and the records sent in answer.  [Control.v] is shown to refine this
    machine in [ControlRefine.v]; the protocol properties are proved here, by
    induction on its histories. *)

From S2P Require Import Prelude Text Wire Manifest IpcApi Framing Control.

Local Open Scope Z_scope.

Section Spec.
Context `{A : PublicationApi} {R : Type} `{RV : !RegistryView Projection R}.
Context (x : EstablishmentExpectations) (session : Id).

Abbreviation Body := (RecordBody Tuple Projection).

Record Authority := mkAuth {
  a_phase : Phase;
  a_lifetime : option Lifetime;
  a_predecessor : option RetiredLifetime;
  a_retired : RetiredIdentifiers;
  a_pending : option PendingPublication;
  a_receipt : option ActiveReceipt;
  a_version : Z;
  a_revocation : option RevocationReason
}.

Definition auth_initial : Authority :=
  mkAuth AwaitingEstablish None None retired_default None None 0 None.

(** Nothing is left of a revoked authority but the reason. *)
Definition auth_revoked (reason : RevocationReason) (version : Z) : Authority :=
  mkAuth Revoked None None retired_default None None version (Some reason).

Definition auth_active (a : Authority) : Prop := a_phase a = Ready ∨ a_phase a = AwaitingBind.

(** The retired identifiers once a receipt is revoked. *)
Definition receipt_retired (a : Authority) : RetiredIdentifiers :=
  match a_receipt a with
  | Some r => note_receipt (a_retired a) (act_receipt r)
  | None => a_retired a
  end.

(** A lifetime identifier that is none of those remembered. *)
Definition fresh_id (a : Authority) (id : Id) : Prop :=
  life_id <$> a_lifetime a ≠ Some id ∧ ret_id <$> a_predecessor a ≠ Some id
  ∧ retired_life (a_retired a) ≠ Some id.

(** The authority after [l'] took the place of [l]. *)
Definition rotated (a : Authority) (l l' : Lifetime) : Authority :=
  mkAuth Ready (Some l') (Some (mkRetired (life_id l) (life_revision l)))
    (note_lifetime (receipt_retired a) (life_id l)) None None (a_version a) (a_revocation a).

(** A projection some read of the registry returned at this revision. *)
Definition announced (revision : Z) (p : Projection) : Prop :=
  ∃ g g', snapshot g = (g', Ok (mkSnapshot revision p)).

(** A comparison of the retained bytes that some read of the registry confirmed. *)
Definition confirmed (revision : Z) (l : bytes) : Prop :=
  ∃ g g', retained_matches revision l g = (g', Ok true).

(** One transition: the Core record that was taken, if any, and the records sent. *)
Inductive auth_step : Authority → option Body → list Body → Authority → Prop :=
| StEstablish a echo l p :
    a_phase a = AwaitingEstablish → verify_echo x echo = Ok tt → fresh_id a (life_id l) →
    announced (life_revision l) p →
    auth_step a (Some (BodyEstablish echo))
      [BodyEstablished echo (life_id l); BodyProjection (life_id l) (life_revision l) p]
      (mkAuth Ready (Some l) (a_predecessor a) (a_retired a) (a_pending a) (a_receipt a)
         (a_version a) (a_revocation a))
| StPublish a l tuple payload ack :
    auth_active a → a_lifetime a = Some l → a_pending a = None →
    tuple_launch_nonce tuple = session → a_version a < tuple_version tuple →
    act_receipt <$> a_receipt a ≠ Some ack → retired_receipt (a_retired a) ≠ Some ack →
    auth_step a (Some (BodyPublish (life_id l) (life_revision l) tuple payload))
      [BodyAck (mkAckBody (life_id l) (life_revision l) tuple ack)]
      (mkAuth AwaitingBind (a_lifetime a) (a_predecessor a) (receipt_retired a)
         (Some (mkPending (life_id l) (life_revision l) tuple (canonical_bytes payload) ack))
         None (tuple_version tuple) (a_revocation a))
| StBind a p rc :
    auth_active a → a_pending a = Some p → confirmed (pend_revision p) (retained p) →
    rc ≠ pend_ack p → retired_receipt (a_retired a) ≠ Some rc →
    auth_step a (Some (BodyBind (mkAckBody (pend_lifetime p) (pend_revision p) (pend_tuple p) (pend_ack p))))
      [BodyBound (pend_lifetime p) (pend_revision p) (pend_tuple p) rc]
      (mkAuth Ready (a_lifetime a) (a_predecessor a) (a_retired a) None
         (Some (mkReceipt (pend_tuple p) rc)) (a_version a) (a_revocation a))
| StRotateCore a l l' reason p :
    auth_active a → a_lifetime a = Some l → withdraws reason = false → reason ≠ ReasonRegistryMutation →
    fresh_id a (life_id l') → life_revision l' = life_revision l → announced (life_revision l) p →
    auth_step a (Some (BodyInvalidate (life_id l) (life_revision l) reason))
      [BodyLifetime (life_id l') (life_revision l); BodyProjection (life_id l') (life_revision l) p]
      (rotated a l l')
| StRotateMutation a l l' p :
    auth_active a → a_lifetime a = Some l → fresh_id a (life_id l') →
    life_revision l' = life_revision l + 1 → announced (life_revision l') p →
    auth_step a None
      [BodyInvalidate (life_id l) (life_revision l) ReasonRegistryMutation;
       BodyLifetime (life_id l') (life_revision l');
       BodyProjection (life_id l') (life_revision l') p]
      (rotated a l l')
| StRotateReset a l l' p :
    auth_active a → a_lifetime a = Some l → fresh_id a (life_id l') →
    life_revision l' = life_revision l → announced (life_revision l) p →
    auth_step a None
      [BodyInvalidate (life_id l) (life_revision l) ReasonReset;
       BodyLifetime (life_id l') (life_revision l);
       BodyProjection (life_id l') (life_revision l) p]
      (rotated a l l')
| StCorrelate a id revision reason :
    auth_active a → a_predecessor a = Some (mkRetired id revision) →
    withdraws reason = false → reason ≠ ReasonRegistryMutation →
    auth_step a (Some (BodyInvalidate id revision reason)) []
      (mkAuth (a_phase a) (a_lifetime a) None (a_retired a) (a_pending a) (a_receipt a)
         (a_version a) (a_revocation a))
| StWithdraw a id revision reason :
    auth_active a → withdraws reason = true →
    (∃ l, a_lifetime a = Some l ∧ life_id l = id ∧ life_revision l = revision)
    ∨ a_predecessor a = Some (mkRetired id revision) →
    auth_step a (Some (BodyInvalidate id revision reason)) []
      (auth_revoked RevPeerWithdrewAuthority (a_version a))
| StPeerError a code :
    auth_active a →
    auth_step a (Some (BodyError code)) [] (auth_revoked RevPeerError (a_version a))
| StClose a :
    a_phase a ≠ Revoked →
    auth_step a None [] (auth_revoked RevLocalClose (a_version a)).

(** A history, newest transition first.  A failed operation revokes. *)
Inductive auth_trace : list (option Body * list Body) → Authority → Prop :=
| TrNew : auth_trace [] auth_initial
| TrStep h a recv sent a' :
    auth_trace h a → auth_step a recv sent a' → auth_trace ((recv, sent) :: h) a'
| TrFail h a reason version :
    auth_trace h a → a_phase a ≠ Revoked → auth_trace h (auth_revoked reason version).

(** ** The invariant *)

Record authority_ok (a : Authority) : Prop := {
  auth_initial_ok : a_phase a = AwaitingEstablish → a = auth_initial;
  auth_revoked_ok : a_phase a = Revoked → ∃ reason, a = auth_revoked reason (a_version a);
  auth_live : auth_active a → a_revocation a = None ∧ is_Some (a_lifetime a);
  auth_ready : a_phase a = Ready → a_pending a = None;
  auth_await : a_phase a = AwaitingBind → a_receipt a = None ∧
    ∃ l p, a_lifetime a = Some l ∧ a_pending a = Some p
      ∧ pend_lifetime p = life_id l ∧ pend_revision p = life_revision l
      ∧ tuple_launch_nonce (pend_tuple p) = session ∧ tuple_version (pend_tuple p) = a_version a;
  auth_bound : ∀ r, a_receipt a = Some r →
    tuple_launch_nonce (act_tuple r) = session ∧ tuple_version (act_tuple r) = a_version a
    ∧ retired_receipt (a_retired a) ≠ Some (act_receipt r);
  auth_distinct : ∀ l, a_lifetime a = Some l → retired_life (a_retired a) ≠ Some (life_id l)
    ∧ ∀ q, a_predecessor a = Some q → retired_life (a_retired a) = Some (ret_id q)
}.

Lemma auth_initial_inv : authority_ok auth_initial.
Proof. constructor; simpl; try done. all: intros []; done. Qed.

Lemma auth_revoked_inv reason version : authority_ok (auth_revoked reason version).
Proof. constructor; simpl; try done; [eauto|]. intros []; done. Qed.

Lemma receipt_retired_life a : retired_life (receipt_retired a) = retired_life (a_retired a).
Proof. unfold receipt_retired. by destruct (a_receipt a). Qed.

Lemma rotated_inv a l l' : authority_ok a → auth_active a → a_lifetime a = Some l →
  fresh_id a (life_id l') → authority_ok (rotated a l l').
Proof.
  intros Hok Hact Hl (Hf & _). constructor; simpl; try done.
  - intros _. split; [apply (auth_live _ Hok Hact)|eauto].
  - intros k [= <-]. split; [|by intros q [= <-]]. rewrite Hl in Hf. simpl in Hf. congruence.
Qed.

Lemma auth_step_inv a recv sent a' : authority_ok a → auth_step a recv sent a' → authority_ok a'.
Proof.
  intros Hok Hstep. destruct Hstep.
  - rewrite (auth_initial_ok _ Hok H) in *. by constructor; simpl; eauto.
  - constructor; simpl; try done.
    + intros _. split; [apply (auth_live _ Hok H)|eauto].
    + intros _. split; [done|]. eexists _, _. by split_and!.
    + intros k Hk. rewrite receipt_retired_life. by apply (auth_distinct _ Hok).
  - assert (a_phase a = AwaitingBind) as Hp.
    { destruct H as [H|H]; [|done]. by rewrite (auth_ready _ Hok H) in H0. }
    destruct (auth_await _ Hok Hp) as (Hr & l & p' & Hl & Hpd & _ & _ & Hn & Hv).
    rewrite H0 in Hpd. injection Hpd as <-.
    constructor; simpl; try done.
    + intros _. apply (auth_live _ Hok H).
    + intros r [= <-]. by split_and!.
    + apply (auth_distinct _ Hok).
  - by apply rotated_inv.
  - by apply rotated_inv.
  - by apply rotated_inv.
  - destruct Hok as [Hi Hrv Hlive Hready Hawait Hbound Hdist]. constructor; simpl; try done.
    + intros Hp. destruct H as [H|H]; congruence.
    + intros Hp. destruct H as [H|H]; congruence.
    + intros k Hk. split; [by apply Hdist|done].
  - apply auth_revoked_inv.
  - apply auth_revoked_inv.
  - apply auth_revoked_inv.
Qed.

Lemma auth_trace_ok h a : auth_trace h a → authority_ok a.
Proof.
  induction 1 as [|h a recv sent a' _ IH Hs|]; [apply auth_initial_inv| |apply auth_revoked_inv].
  by eapply auth_step_inv.
Qed.

(** ** Evidence *)

Definition publish_event (p : PendingPublication) (payload : Projection) : option Body * list Body :=
  (Some (BodyPublish (pend_lifetime p) (pend_revision p) (pend_tuple p) payload),
   [BodyAck (mkAckBody (pend_lifetime p) (pend_revision p) (pend_tuple p) (pend_ack p))]).

Definition bind_event (p : PendingPublication) (rc : Id) : option Body * list Body :=
  (Some (BodyBind (mkAckBody (pend_lifetime p) (pend_revision p) (pend_tuple p) (pend_ack p))),
   [BodyBound (pend_lifetime p) (pend_revision p) (pend_tuple p) rc]).

(** An invalidation of the predecessor that crossed the helper's own. *)
Definition crossed (ev : option Body * list Body) : Prop :=
  ∃ id revision reason, ev = (Some (BodyInvalidate id revision reason), []).

(** A pending publication is the last one the Core sent, under the current lifetime,
    and its retained bytes are the canonical bytes of that payload. *)
Definition pending_shown (h : list (option Body * list Body)) (p : PendingPublication) : Prop :=
  ∃ payload c h', h = c ++ publish_event p payload :: h' ∧ Forall crossed c
    ∧ retained p = canonical_bytes payload.

Lemma pending_evidence h a p : auth_trace h a → a_pending a = Some p → pending_shown h p.
Proof.
  intros H. revert p. induction H as [|h a recv sent a' Hh IH Hs|]; intros p Hp; [done| |done].
  destruct Hs; simpl in Hp; try done.
  - destruct (IH p Hp) as (payload & c & h' & -> & Hc & Hr). pose proof (auth_trace_ok _ _ Hh) as Hok.
    by rewrite (auth_initial_ok _ Hok H) in Hp.
  - injection Hp as <-. exists payload, [], h. by split_and!.
  - destruct (IH p Hp) as (payload & c & h' & -> & Hc & Hr).
    exists payload, ((Some (BodyInvalidate id revision reason), []) :: c), h'.
    split_and!; [done| |done]. constructor; [|done]. by eexists _, _, _.
Qed.

(** What stands behind a receipt: the Core's publish and bind of one tuple in the
    current lifetime, in this order and with nothing but crossed invalidations in
    between and since, and the registry's confirmation of the published bytes. *)
Definition receipt_shown (h : list (option Body * list Body)) (a : Authority) (r : ActiveReceipt) : Prop :=
  ∃ p payload c1 c2 h',
    h = c2 ++ bind_event p (act_receipt r) :: c1 ++ publish_event p payload :: h'
    ∧ Forall crossed c1 ∧ Forall crossed c2
    ∧ act_tuple r = pend_tuple p
    ∧ (∃ l, a_lifetime a = Some l ∧ life_id l = pend_lifetime p ∧ life_revision l = pend_revision p)
    ∧ confirmed (pend_revision p) (canonical_bytes payload).

Lemma receipt_evidence h a r : auth_trace h a → a_receipt a = Some r → receipt_shown h a r.
Proof.
  intros H. revert r. induction H as [|h a recv sent a' Hh IH Hs|]; intros r Hr; [done| |done].
  pose proof (auth_trace_ok _ _ Hh) as Hok. destruct Hs; simpl in Hr; try done.
  - by rewrite (auth_initial_ok _ Hok H) in Hr.
  - destruct (pending_evidence _ _ _ Hh H0) as (payload & c & h' & -> & Hc & Hb). rewrite Hb in *.
    injection Hr as <-. exists p, payload, c, [], h'. split_and!; try done. simpl.
    destruct H as [H|H]; [by rewrite (auth_ready _ Hok H) in H0|].
    destruct (auth_await _ Hok H) as (_ & l & p' & Hl & Hp' & H1' & H2' & _).
    rewrite H0 in Hp'. injection Hp' as <-. eauto.
  - destruct (IH r Hr) as (p & payload & c1 & c2 & h' & -> & Hc1 & Hc2 & Ht & Hl & Hcf).
    exists p, payload, c1, ((Some (BodyInvalidate id revision reason), []) :: c2), h'.
    split_and!; try done. constructor; [|done]. by eexists _, _, _.
Qed.

(** The versions of the accepted publications, newest first. *)
Definition published_versions (h : list (option Body * list Body)) : list Z :=
  omap (λ ev, match ev.1 with
              | Some (BodyPublish _ _ tuple _) => Some (tuple_version tuple)
              | _ => None
              end) h.

Lemma versions_increase h a : auth_trace h a →
  StronglySorted (λ v w, w < v) (published_versions h)
  ∧ (a_phase a ≠ Revoked → Forall (λ v, v ≤ a_version a) (published_versions h)).
Proof.
  induction 1 as [|h a recv sent a' Hh [IHs IHf] Hs|h a reason version _ [IHs _] _].
  - split; [constructor|intros _; constructor].
  - destruct Hs; simpl; (split; [|intros Hp]); try done; try (apply IHf; try done).
    all: try (destruct H; congruence).
    all: try (by rewrite H).
    + constructor; [done|]. assert (a_phase a ≠ Revoked) as Hn by (destruct H; congruence).
      eapply Forall_impl; [by apply IHf|]. simpl. lia.
    + constructor; [done|]. assert (a_phase a ≠ Revoked) as Hn by (destruct H; congruence).
      eapply Forall_impl; [by apply IHf|]. simpl. lia.
  - by split.
Qed.

(** What the history received and sent, oldest first. *)
Definition received (h : list (option Body * list Body)) : list Body := omap fst (rev h).
Definition sent_records (h : list (option Body * list Body)) : list Body := concat (map snd (rev h)).

Lemma received_cons ev h : received (ev :: h) = received h ++ omap fst [ev].
Proof. unfold received. simpl. by rewrite omap_app. Qed.

Lemma sent_cons ev h : sent_records (ev :: h) = sent_records h ++ snd ev.
Proof. unfold sent_records. simpl. rewrite map_app, concat_app. simpl. by rewrite app_nil_r. Qed.

End Spec.
