(* ===== verification/ControlRefine.v ===== *)
(** * ControlRefine: the state machine refines the abstract authority

    Every operation of [Control.v] that succeeds is a transition of the machine of
    [ControlSpec.v], with the records of the transition on the wire; every one that
    fails leaves a revoked authority and at most one torn record behind. *)

From S2P Require Import Prelude Text Wire Manifest IpcApi Framing Control ControlSpec.

Local Open Scope Z_scope.

Section Refine.
Context `{A : PublicationApi} `{!PublicationLaws A}.
Context {R E : Type} `{RV : !RegistryView Projection R} `{SR : !SecureRandom E}.
Context (allocates : Z → bool).

Abbreviation Body := (RecordBody Tuple Projection).
Abbreviation State := (HelperControl (R := R) (E := E)).

(** The abstraction: what is left of a state without its streams and services. *)
Definition authority_of (s : State) : Authority :=
  mkAuth (phase s) (lifetime s) (predecessor s) (retired s) (pending s) (receipt s)
    (last_core_publication_version s) (revocation s).

(** ** The wire *)

(** The bytes of one record of the helper, and of a numbered sequence of them. *)
Definition record_wire (session : Id) (n : Z) (body : Body) : bytes :=
  match encode_record (mkRecord SenderHelper n session body) with
  | Ok frame => frame_wire frame
  | Err _ => []
  end.

Fixpoint wires (session : Id) (n : Z) (bodies : list Body) : bytes :=
  match bodies with
  | [] => []
  | body :: bodies => record_wire session (n + 1) body ++ wires session (n + 1) bodies
  end.

Lemma wires_app session k l : ∀ n, wires session n (k ++ l) = wires session n k ++ wires session (n + len k) l.
Proof.
  induction k as [|b k IH]; intros n; simpl; [by rewrite Z.add_0_r|].
  rewrite IH, len_cons, app_assoc. do 2 f_equal. lia.
Qed.

(** What an operation does to the parts of the state outside the authority, besides
    the registry and the random source: [sent] goes out, nothing comes in. *)
Record comm (sent : list Body) (s s' : State) : Prop := {
  comm_session : session_id s' = session_id s;
  comm_expect : expectations s' = expectations s;
  comm_in : in_sequence s' = in_sequence s;
  comm_incoming : incoming (stream s') = incoming (stream s);
  comm_out : out_sequence s' = out_sequence s + len sent;
  comm_written : written (stream s') = written (stream s) ++ wires (session_id s) (out_sequence s) sent;
  comm_writer : writer s' = writer s
}.

Lemma comm_trans k l s1 s2 s3 : comm k s1 s2 → comm l s2 s3 → comm (k ++ l) s1 s3.
Proof.
  intros [] []. constructor; try congruence.
  - rewrite len_app. lia.
  - rewrite wires_app. rewrite comm_written1, comm_written0, comm_session0, comm_out0. by rewrite app_assoc.
Qed.

(** Changes of authority, registry and random source alone. *)
Lemma comm_same s s' :
  session_id s' = session_id s → expectations s' = expectations s → in_sequence s' = in_sequence s →
  stream s' = stream s → out_sequence s' = out_sequence s → writer s' = writer s → comm [] s s'.
Proof. intros H1 H2 H3 H4 H5 H6. constructor; rewrite ?H4, ?H5, ?app_nil_r, ?Z.add_0_r; done. Qed.

Lemma clear_receipt_comm s : comm [] s (clear_receipt s).
Proof. unfold clear_receipt. by destruct (receipt s); apply comm_same. Qed.

Lemma retire_current_comm s : comm [] s (retire_current s).
Proof. unfold retire_current. by destruct (lifetime s); apply comm_same. Qed.

(** ** Successful runs *)

Lemma bind_ok {X Y} (m : method X) (k : X → method Y) (s s' : State) y :
  (m ≫= k) s = (s', Ok y) → ∃ s1 v, m s = (s1, Ok v) ∧ k v s1 = (s', Ok y).
Proof.
  unfold mbind, method_bind. destruct (m s) as [s1 [v|e]]; intros H; [eauto|done].
Qed.

Lemma fail_with_ok {X} f (s s' : State) (y : X) : fail_with f s = (s', Ok y) → False.
Proof. unfold fail_with. by destruct (fail f s). Qed.

Lemma require_ok c f (s s' : State) u : require c f s = (s', Ok u) → c = true ∧ s' = s.
Proof. unfold require. destruct c; [by intros [= <-]|by intros ?%fail_with_ok]. Qed.

Lemma snapshot_ok (s s' : State) snap : snapshot_or_fail s = (s', Ok snap) →
  ∃ g, s' = set_environment g (random s) s ∧ announced (snap_revision snap) (snap_projection snap).
Proof.
  unfold snapshot_or_fail. destruct (snapshot (registry s)) as [g [p|e]] eqn:E1.
  - intros [= <- <-]. exists g. split; [done|]. eexists _, _. by destruct p.
  - by intros ?%fail_with_ok.
Qed.

Lemma random_ok n (s s' : State) r : random_id n s = (s', Ok r) →
  ∃ e, s' = set_environment (registry s) e s.
Proof. unfold random_id. destruct (random_fill n (random s)). intros [= <- <-]. eauto. Qed.

Lemma compare_ok revision l (s s' : State) r : compare_retained revision l s = (s', Ok r) →
  ∃ g, s' = set_environment g (random s) s ∧ (r = Ok true → confirmed revision l).
Proof.
  unfold compare_retained. destruct (retained_matches revision l (registry s)) as [g v] eqn:E1.
  intros [= <- <-]. exists g. split; [done|]. intros ->. by exists (registry s), g.
Qed.

Lemma mutation_ok mutate (s s' : State) r : run_mutation mutate s = (s', Ok r) →
  ∃ g, s' = set_environment g (random s) s.
Proof. unfold run_mutation. destruct (mutate (registry s)). intros [= <- <-]. eauto. Qed.

Lemma current_ok (s s' : State) v : current_identity s = (s', Ok v) →
  s' = s ∧ ∃ l, lifetime s = Some l ∧ v = (life_id l, life_revision l).
Proof. unfold current_identity. destruct (lifetime s); [|done]. intros [= <- <-]. eauto. Qed.

Lemma active_ok (s s' : State) u : require_active s = (s', Ok u) → s' = s ∧ auth_active (authority_of s).
Proof.
  unfold require_active, auth_active. simpl. destruct (phase s); intros [= <- <-]; eauto.
Qed.

Lemma fresh_lifetime_ok revision (s s' : State) l : fresh_lifetime revision s = (s', Ok l) →
  ∃ e, s' = set_environment (registry s) e s ∧ life_revision l = revision
    ∧ fresh_id (authority_of s) (life_id l).
Proof.
  unfold fresh_lifetime. intros (s1 & r1 & H1 & H)%bind_ok. apply random_ok in H1 as [e1 ->].
  destruct r1 as [id|]; [|by apply fail_with_ok in H].
  apply bind_ok in H as (s2 & r2 & H2 & H). apply random_ok in H2 as [e2 ->].
  destruct r2 as [secret|]; [|by apply fail_with_ok in H].
  apply bind_ok in H as (s3 & c & [= <- <-] & H). apply bind_ok in H as (s4 & [] & H4 & H).
  apply require_ok in H4 as [Hc ->]. injection H as <- <-. exists e2. simpl in *.
  apply negb_true_iff, orb_false_iff in Hc as [[Hc1 Hc2]%orb_false_iff Hc3].
  apply bool_decide_eq_false in Hc1, Hc2. unfold lifetime_conflicts in Hc3.
  apply bool_decide_eq_false in Hc3. done.
Qed.

(** ** Sending *)

Lemma enqueue_flush (w : FrameWriter) st record w1 st2 w2 :
  w = writer_new → enqueue w record = (w1, Ok tt) → flush st w1 = (st2, w2, Ok tt) →
  w2 = writer_new ∧ incoming st2 = incoming st
  ∧ ∃ frame, encode_record record = Ok frame ∧ written st2 = written st ++ frame_wire frame.
Proof.
  intros -> H1 H2.
  assert (writer_ok w1) as Hok1.
  { pose proof (enqueue_ok writer_new record writer_new_ok) as Hok. by rewrite H1 in Hok. }
  pose proof (flush_queue_ok _ _ _ _ _ Hok1 H2) as ->.
  apply flush_spec in H2 as (Hi & _ & taken & Hw & _ & Hall).
  apply enqueue_cases in H1 as [[_ [? [=]]]|(frame & He & H1)].
  apply enqueue_frame_spec in H1 as [(_ & _ & ->)|(_ & [? [=]] & _)]; [|apply writer_new_ok].
  split_and!; [done|done|]. exists frame. split; [done|]. rewrite Hw, (Hall eq_refl).
  cbn [pending_frames writer_new app map concat]. by rewrite app_nil_r.
Qed.

Lemma raw_send_ok body (s s' : State) : writer s = writer_new → raw_send body s = (s', Ok tt) →
  authority_of s' = authority_of s ∧ comm [body] s s'.
Proof.
  intros Hw. unfold raw_send.
  destruct (next_expected_sequence (out_sequence s)) as [n|] eqn:En; [|done].
  apply next_sequence in En as ->.
  destruct (enqueue _ _) as [w1 [[]|e]] eqn:E1; [|done].
  destruct (flush _ _) as [[st2 w2] [[]|e]] eqn:E2; [|done]. intros [= <-].
  destruct (enqueue_flush _ _ _ _ _ _ Hw E1 E2) as (-> & Hi & frame & He & Hwr).
  split; [done|]. constructor; simpl; try done. unfold record_wire. by rewrite He, app_nil_r.
Qed.

Lemma emit_ok body (s s' : State) u : writer s = writer_new → emit body s = (s', Ok u) →
  authority_of s' = authority_of s ∧ comm [body] s s'.
Proof.
  intros Hw. unfold emit. destruct (raw_send body s) as [s1 [[]|e]] eqn:E1.
  - intros [= <- <-]. by apply raw_send_ok.
  - by intros ?%fail_with_ok.
Qed.

(** ** Handlers *)

(** One bind of a successful run: what its first method did. *)
Ltac run_step H :=
  let s1 := fresh "s" in let v := fresh "v" in let H1 := fresh "Hm" in
  apply bind_ok in H as (s1 & v & H1 & H);
  first
  [ apply require_ok in H1; destruct H1 as [H1 ->]
  | apply snapshot_ok in H1; destruct H1 as (? & -> & H1)
  | apply random_ok in H1; destruct H1 as [? ->]
  | apply compare_ok in H1; destruct H1 as (? & -> & H1)
  | apply mutation_ok in H1; destruct H1 as [? ->]
  | apply current_ok in H1; destruct H1 as (-> & ? & H1 & ->)
  | apply active_ok in H1; destruct H1 as [-> H1]
  | apply fresh_lifetime_ok in H1; destruct H1 as (? & -> & ? & H1)
  | injection H1 as <- <- ].

Ltac absurd_fail H := by apply fail_with_ok in H.

(** The transition an operation performed, up to equality of authorities. *)
Definition performed (s : State) (recv : option Body) (s' : State) : Prop :=
  ∃ sent a', auth_step (expectations s) (session_id s) (authority_of s) recv sent a'
    ∧ authority_of s' = a' ∧ comm sent s s'.

Lemma handle_publish_ok id revision tuple payload (s s' : State) r :
  writer s = writer_new → auth_active (authority_of s) →
  handle_publish id revision tuple payload s = (s', Ok r) →
  r = Published tuple ∧ performed s (Some (BodyPublish id revision tuple payload)) s'.
Proof.
  intros Hw Hact H. unfold handle_publish in H. do 9 run_step H. simpl in *.
  destruct v3 as [ack|]; [|absurd_fail H].
  run_step H. run_step H. simpl in *. do 4 run_step H.
  apply bind_ok in H as (s2 & [] & Hemit & H). injection H as <- <-. split; [done|].
  reflect_bools. subst.
  apply emit_ok in Hemit as [Ha Hc]; [|unfold clear_receipt; simpl; by destruct (receipt s)].
  unfold receipt_bytes_conflict in *. reflect_bools.
  eexists _, _. split_and!.
  - eapply (StPublish _ _ _ x tuple payload ack); simpl; by try done.
  - rewrite Ha. unfold authority_of, clear_receipt, receipt_retired. simpl.
    destruct (receipt s) eqn:Hq; simpl; by rewrite ?Hq.
  - eapply (comm_trans [] [_]); [|exact Hc]. unfold clear_receipt. simpl.
    by destruct (receipt s); apply comm_same.
Qed.

Lemma bind_matches_eq body p : bind_matches body p = true →
  body = mkAckBody (pend_lifetime p) (pend_revision p) (pend_tuple p) (pend_ack p).
Proof. unfold bind_matches. intros H. reflect_bools. destruct body; simpl in *. by subst. Qed.

Lemma handle_bind_ok body (s s' : State) r :
  writer s = writer_new → auth_active (authority_of s) →
  handle_bind body s = (s', Ok r) →
  (∃ p rc, pending s = Some p ∧ r = Bound (pend_tuple p) rc) ∧ performed s (Some (BodyBind body)) s'.
Proof.
  intros Hw Hact H. unfold handle_bind in H. do 2 run_step H. simpl in *.
  destruct (pending s) as [p|] eqn:Hp; [|absurd_fail H]. do 2 run_step H.
  destruct v0 as [[]|]; [|absurd_fail H..]. run_step H.
  destruct v0 as [rc|]; [|absurd_fail H]. do 4 run_step H. simpl in *.
  apply bind_ok in H as (s2 & [] & Hemit & H). injection H as <- <-.
  apply emit_ok in Hemit as [Ha Hc]; [|done]. unfold receipt_bytes_conflict in *. reflect_bools.
  split; [eauto|]. eexists _, _. split_and!.
  - rewrite (bind_matches_eq _ _ Hm). eapply (StBind _ _ _ p rc); simpl; try done. by apply Hm0.
  - by rewrite Ha.
  - eapply (comm_trans [] [_]); [|exact Hc]. by apply comm_same.
Qed.

(** Replacing the current lifetime: two records and the rotated authority. *)
Lemma announce_ok l revision p (s s' : State) old u :
  writer s = writer_new → lifetime s = Some old →
  announce l revision p s = (s', Ok u) →
  comm [BodyLifetime (life_id l) revision; BodyProjection (life_id l) revision p] s s'
  ∧ authority_of s' = mkAuth Ready (Some l) (Some (mkRetired (life_id old) (life_revision old)))
      (note_lifetime (retired s) (life_id old)) (pending s) (receipt s)
      (last_core_publication_version s) (revocation s).
Proof.
  intros Hw Hl H. unfold announce in H. do 3 run_step H.
  apply bind_ok in H as (s1 & [] & H1 & H). unfold retire_current in H1. rewrite Hl in H1.
  apply emit_ok in H1 as [Ha1 Hc1]; [|done].
  apply emit_ok in H as [Ha2 Hc2]; [|by rewrite (comm_writer _ _ _ Hc1)].
  split; [|by rewrite Ha2, Ha1].
  eapply (comm_trans [_] [_]); [|exact Hc2]. eapply (comm_trans [] [_]); [|exact Hc1]. by apply comm_same.
Qed.

Lemma clear_receipt_auth (s : State) : authority_of (clear_receipt s)
  = mkAuth (phase s) (lifetime s) (predecessor s) (receipt_retired (authority_of s)) (pending s) None
      (last_core_publication_version s) (revocation s).
Proof. unfold clear_receipt, receipt_retired, authority_of. simpl. by destruct (receipt s) eqn:Hr; simpl; rewrite ?Hr. Qed.

(** The common tail of the three rotations: from the cleared state to the rotated one. *)
Lemma rotation_ok l revision p (s0 s s' : State) old u :
  authority_of s = mkAuth (phase s0) (lifetime s0) (predecessor s0)
    (receipt_retired (authority_of s0)) None None (last_core_publication_version s0) (revocation s0) →
  writer s = writer_new → lifetime s0 = Some old →
  announce l revision p s = (s', Ok u) →
  comm [BodyLifetime (life_id l) revision; BodyProjection (life_id l) revision p] s s'
  ∧ authority_of s' = rotated (authority_of s0) old l.
Proof.
  intros Ha Hw Hl H. pose proof (f_equal a_lifetime Ha) as Hls. simpl in Hls. rewrite Hl in Hls.
  destruct (announce_ok _ _ _ _ _ _ _ Hw Hls H) as [Hc Ha']. split; [exact Hc|]. rewrite Ha'.
  unfold rotated. injection Ha as H1 H2 H3 H4 H5 H6 H7 H8. by rewrite H4, H5, H6, H7, H8.
Qed.

Lemma cleared_auth (s : State) : authority_of (clear_receipt (set_pending None s))
  = mkAuth (phase s) (lifetime s) (predecessor s) (receipt_retired (authority_of s)) None None
      (last_core_publication_version s) (revocation s).
Proof. apply clear_receipt_auth. Qed.

Lemma cleared_comm (s : State) : comm [] s (clear_receipt (set_pending None s)).
Proof. eapply (comm_trans [] []); [|apply clear_receipt_comm]. by apply comm_same. Qed.

Lemma cleared_fresh (s s1 : State) id :
  authority_of s1 = authority_of (clear_receipt (set_pending None s)) →
  fresh_id (authority_of s1) id → fresh_id (authority_of s) id.
Proof.
  intros -> (H1 & H2 & H3). rewrite cleared_auth in *. simpl in *.
  rewrite receipt_retired_life in H3. done.
Qed.

Lemma withdraw_ok reason (s s' : State) r : withdraw reason s = (s', Ok r) → writer s = writer_new →
  r = AuthorityClosed reason ∧ comm [] s s'
  ∧ authority_of s' = auth_revoked RevPeerWithdrewAuthority (last_core_publication_version s).
Proof.
  unfold withdraw. intros H Hw. do 2 run_step H. injection H as <- <-.
  split_and!; [done| |done]. apply comm_same; simpl; try done.
Qed.

Lemma withdraws_spec reason : withdraws reason = false ∨ withdraws reason = true.
Proof. destruct (withdraws reason); eauto. Qed.

Lemma handle_invalidate_ok id revision reason (s s' : State) r :
  writer s = writer_new → auth_active (authority_of s) →
  handle_invalidate id revision reason s = (s', Ok r) →
  performed s (Some (BodyInvalidate id revision reason)) s'.
Proof.
  intros Hw Hact H. unfold handle_invalidate in H. do 2 run_step H. simpl in *. reflect_bools.
  case_bool_decide as Hcur.
  - destruct (lifetime s) as [l|] eqn:Hl; [|done]. injection Hcur as <- <-. do 2 run_step H.
    destruct (withdraws reason) eqn:Hwd.
    + apply withdraw_ok in H as (-> & Hc & Ha);
        [|by rewrite (comm_writer _ _ _ (cleared_comm s))].
      eexists _, _. split_and!.
      * apply StWithdraw; [done|done|]. left. by exists l.
      * rewrite Ha. f_equal. unfold clear_receipt. simpl. by destruct (receipt s).
      * eapply (comm_trans [] []); [apply cleared_comm|exact Hc].
    + do 3 run_step H. apply bind_ok in H as (s2 & [] & Hann & H). injection H as <- <-.
      reflect_bools. subst.
      eapply (rotation_ok _ _ _ s) in Hann as [Hc Ha];
        [|apply cleared_auth|simpl; by rewrite (comm_writer _ _ _ (cleared_comm s))|done].
      eexists _, _. split_and!.
      * apply (StRotateCore _ _ _ l); try done; [|by rewrite <- Hm1].
        by eapply cleared_fresh.
      * exact Ha.
      * eapply (comm_trans [] [_;_]); [|exact Hc].
        eapply (comm_trans [] []); [apply cleared_comm|]. by apply comm_same.
  - run_step H. case_bool_decide as Hpre; [|absurd_fail H]. run_step H.
    destruct (withdraws reason) eqn:Hwd.
    + apply withdraw_ok in H as (-> & Hc & Ha); [|done]. eexists _, _. split_and!.
      * apply StWithdraw; [done|done|by right].
      * by rewrite Ha.
      * eapply (comm_trans [] []); [|exact Hc]. by apply comm_same.
    + injection H as <- <-. eexists _, _. split_and!.
      * by apply StCorrelate.
      * done.
      * by apply comm_same.
Qed.

(** ** Operations *)

(** The state after the next record was read and its envelope accepted: a record of
    the Core, of this session, with exactly the next sequence number. *)
Definition took (s : State) (recv : option Body) (s2 : State) : Prop :=
  match recv with
  | None => s2 = s
  | Some body => ∃ events,
      read_record allocates (incoming (stream s))
      = (events, Ok (mkRecord SenderCore (in_sequence s + 1) (session_id s) body))
      ∧ s2 = set_in_sequence (in_sequence s + 1) (set_input events s)
  end.

Lemma read_envelope_ok (s s1 s2 : State) record u :
  read_incoming allocates s = (s1, Ok record) → validate_envelope record s1 = (s2, Ok u) →
  took s (Some (rec_body record)) s2.
Proof.
  unfold read_incoming. destruct (read_record allocates _) as [events [rec|e]] eqn:Er;
    [|by intros ?%fail_with_ok]. intros [= <- <-] H. unfold validate_envelope in H.
  do 5 run_step H. injection H as <- <-. simpl in *. reflect_bools.
  apply session_equal in Hm0. apply incoming_sequence in Hm1. exists events.
  destruct rec as [sender n session body]; simpl in *. by subst.
Qed.

(** One operation, as a transition of the abstract machine. *)
Definition transition (s : State) (recv : option Body) (s' : State) : Prop :=
  ∃ s2, took s recv s2 ∧ performed s2 recv s'.

Lemma took_facts s recv s2 : took s recv s2 →
  authority_of s2 = authority_of s ∧ session_id s2 = session_id s ∧ writer s2 = writer s
  ∧ expectations s2 = expectations s.
Proof. destruct recv; simpl; [intros (? & _ & ->)|intros ->]; done. Qed.

Lemma establish_ok (s s' : State) u : writer s = writer_new →
  establish allocates s = (s', Ok u) → ∃ echo, transition s (Some (BodyEstablish echo)) s'.
Proof.
  intros Hw. unfold establish. case_bool_decide as Hr; [done|].
  case_bool_decide as Ha; simpl; [|by intros ?%fail_with_ok]. intros H.
  apply bind_ok in H as (s1 & record & H1 & H). apply bind_ok in H as (s2 & [] & H2 & H).
  pose proof (read_envelope_ok _ _ _ _ _ H1 H2) as Htook.
  destruct (rec_body record); try absurd_fail H. exists echo, s2. split; [exact Htook|].
  apply took_facts in Htook as (Hau & Hse & Hw2 & Hx). rewrite Hw in Hw2.
  apply (f_equal a_phase) in Hau. simpl in Hau. rewrite Ha in Hau. clear H1 H2.
  run_step H. destruct (verify_echo _ _) as [[]|] eqn:Hv; [|absurd_fail H]. do 4 run_step H.
  apply bind_ok in H as (s3 & [] & E1 & H). apply emit_ok in E1 as [Ha1 Hc1]; [|done].
  apply emit_ok in H as [Ha2 Hc2]; [|by rewrite (comm_writer _ _ _ Hc1)].
  eexists _, _. split_and!.
  - apply (StEstablish _ _ _ echo v0 (snap_projection v)); try done; rewrite ?H0; done.
  - by rewrite Ha2, Ha1.
  - rewrite H0. eapply (comm_trans [_] [_]); [|exact Hc2]. eapply (comm_trans [] [_]); [|exact Hc1].
    by apply comm_same.
Qed.

Lemma step_ok (s s' : State) r : writer s = writer_new → step allocates s = (s', Ok r) →
  ∃ body, transition s (Some body) s'.
Proof.
  intros Hw H. unfold step in H. run_step H.
  apply bind_ok in H as (s1 & record & H1 & H). apply bind_ok in H as (s2 & [] & H2 & H).
  pose proof (read_envelope_ok _ _ _ _ _ H1 H2) as Htook. exists (rec_body record), s2.
  split; [exact Htook|]. apply took_facts in Htook as (Hau & Hse & Hw2 & Hx). rewrite Hw in Hw2.
  rewrite <- Hau in Hm. destruct (rec_body record); try absurd_fail H.
  - by apply handle_publish_ok in H as [_ H].
  - by apply handle_bind_ok in H as [_ H].
  - by apply handle_invalidate_ok in H.
  - unfold fail in H. case_bool_decide as Hrev.
    { destruct Hm as [Hm|Hm]; simpl in Hm; congruence. }
    injection H as <- <-. eexists _, _. split_and!; [by apply StPeerError|done|]. by apply comm_same.
Qed.

Lemma registry_mutated_ok mutate (s s' : State) r : writer s = writer_new →
  registry_mutated mutate s = (s', Ok r) → transition s None s'.
Proof.
  intros Hw H. unfold registry_mutated in H. do 2 run_step H. simpl in H.
  destruct (checked_add64 _ _) as [n|] eqn:Hn; [|absurd_fail H]. do 4 run_step H.
  apply bind_ok in H as (s1 & [] & Hemit & H).
  assert (writer (clear_receipt (set_pending None (set_environment x0 (random s) s))) = writer_new) as Hw1
    by (by rewrite (comm_writer _ _ _ (cleared_comm _))).
  apply emit_ok in Hemit as [Ha1 Hc1]; [|exact Hw1]. rewrite <- (comm_writer _ _ _ Hc1) in Hw1.
  run_step H. destruct v2 as [[]|]; [|absurd_fail H]. do 3 run_step H.
  apply bind_ok in H as (s2 & [] & Hann & H). injection H as <- <-. reflect_bools.
  eapply (rotation_ok _ _ _ (set_environment x0 (random s) s)) in Hann as [Hc2 Ha2];
    [|by rewrite <- cleared_auth|done|done].
  assert (n = life_revision x + 1) as ->.
  { unfold checked_add64 in Hn. case_if_in Hn; [by injection Hn as <-|done]. }
  exists s. split; [done|]. eexists _, _. split_and!.
  - apply (StRotateMutation _ _ _ x v4 (snap_projection v2)); try done.
    + by eapply (cleared_fresh (set_environment x0 (random s) s)).
    + by rewrite H0, <- Hm4.
  - exact Ha2.
  - rewrite H0. eapply (comm_trans [_] [_;_]); [|eapply (comm_trans [] [_;_]); [|exact Hc2]].
    + eapply (comm_trans [] [_]); [|exact Hc1]. eapply (comm_trans [] []); [|apply cleared_comm].
      by apply comm_same.
    + by apply comm_same.
Qed.

Lemma reset_ok (s s' : State) r : writer s = writer_new → reset s = (s', Ok r) → transition s None s'.
Proof.
  intros Hw H. unfold reset in H. do 4 run_step H. simpl in H.
  apply bind_ok in H as (s1 & [] & Hemit & H).
  assert (writer (clear_receipt (set_pending None s)) = writer_new) as Hw1
    by (by rewrite (comm_writer _ _ _ (cleared_comm _))).
  apply emit_ok in Hemit as [Ha1 Hc1]; [|exact Hw1]. rewrite <- (comm_writer _ _ _ Hc1) in Hw1.
  do 3 run_step H. apply bind_ok in H as (s2 & [] & Hann & H). injection H as <- <-. reflect_bools.
  eapply (rotation_ok _ _ _ s) in Hann as [Hc2 Ha2]; [|by rewrite <- cleared_auth|done|done].
  exists s. split; [done|]. eexists _, _. split_and!.
  - apply (StRotateReset _ _ _ x v2 (snap_projection v0)); try done.
    + by eapply (cleared_fresh s).
    + by rewrite <- Hm2.
  - exact Ha2.
  - eapply (comm_trans [_] [_;_]); [|eapply (comm_trans [] [_;_]); [|exact Hc2]].
    + eapply (comm_trans [] [_]); [|exact Hc1]. apply cleared_comm.
    + by apply comm_same.
Qed.

Lemma close_ok (s : State) : writer s = writer_new → phase s ≠ Revoked → transition s None (close s).
Proof.
  intros Hw Hp. exists s. split; [done|]. unfold close. rewrite bool_decide_eq_false_2 by done.
  eexists _, _. split_and!; [by apply StClose|done|]. by apply comm_same.
Qed.

(** The operations a caller has. *)
Inductive operation :=
| OpEstablish
| OpStep
| OpMutated (mutate : R → R * result unit RegistryError)
| OpReset
| OpClose.

Definition discard {X} (r : State * result X HelperControlError) : State * result unit HelperControlError :=
  (r.1, match r.2 with Ok _ => Ok tt | Err e => Err e end).

Definition run_op (o : operation) (s : State) : State * result unit HelperControlError :=
  match o with
  | OpEstablish => establish allocates s
  | OpStep => discard (step allocates s)
  | OpMutated mutate => discard (registry_mutated mutate s)
  | OpReset => discard (reset s)
  | OpClose => (close s, Ok tt)
  end.

Lemma discard_ok {X} (r : State * result X HelperControlError) s' u :
  discard r = (s', Ok u) → ∃ v, r = (s', Ok v).
Proof. destruct r as [s [v|e]]; simpl; [intros [= <- <-]; eauto|done]. Qed.

Lemma discard_err {X} (r : State * result X HelperControlError) s' e :
  discard r = (s', Err e) → r = (s', Err e).
Proof. by destruct r as [s [v|e']]; simpl; intros [= <- <-]. Qed.

(** A successful operation is a transition of the abstract machine, or the closing
    of what is closed. *)
Lemma run_op_ok o (s s' : State) : writer s = writer_new → run_op o s = (s', Ok tt) →
  (o = OpClose ∧ phase s = Revoked ∧ s' = s) ∨ ∃ recv, transition s recv s'.
Proof.
  intros Hw. destruct o; simpl; intros H.
  - right. apply establish_ok in H as [echo H]; eauto.
  - right. apply discard_ok in H as [r H]. apply step_ok in H as [body H]; eauto.
  - right. apply discard_ok in H as [r H]. apply registry_mutated_ok in H; eauto.
  - right. apply discard_ok in H as [r H]. apply reset_ok in H; eauto.
  - injection H as <-. destruct (decide (phase s = Revoked)) as [Hp|Hp].
    + left. unfold close. by rewrite bool_decide_eq_true_2.
    + right. exists None. by apply close_ok.
Qed.

(** ** Terminal steps *)

(** What a step that ends the authority leaves as the reason. *)
Definition step_reason (r : Step) (s : State) : Prop :=
  match r with
  | AuthorityClosed _ => revocation s = Some RevPeerWithdrewAuthority
  | PeerError _ => revocation s = Some RevPeerError
  | _ => True
  end.

Lemma withdraw_reason reason (s s' : State) r : withdraw reason s = (s', Ok r) → step_reason r s'.
Proof. unfold withdraw. intros H. do 2 run_step H. by injection H as <- <-. Qed.

Lemma handle_invalidate_reason id revision reason (s s' : State) r :
  handle_invalidate id revision reason s = (s', Ok r) → step_reason r s'.
Proof.
  intros H. unfold handle_invalidate in H. do 2 run_step H. case_bool_decide.
  - do 2 run_step H. destruct (withdraws reason); [by eapply withdraw_reason|].
    do 3 run_step H. apply bind_ok in H as (s2 & [] & _ & H). by injection H as <- <-.
  - run_step H. case_bool_decide; [|absurd_fail H]. run_step H.
    destruct (withdraws reason); [by eapply withdraw_reason|]. by injection H as <- <-.
Qed.

Lemma step_reason_ok (s s' : State) r : writer s = writer_new → step allocates s = (s', Ok r) →
  step_reason r s'.
Proof.
  intros Hw H. unfold step in H. run_step H.
  apply bind_ok in H as (s1 & record & H1 & H). apply bind_ok in H as (s2 & [] & H2 & H).
  pose proof (took_facts _ _ _ (read_envelope_ok _ _ _ _ _ H1 H2)) as (Hau & _ & Hw2 & _).
  rewrite Hw in Hw2. rewrite <- Hau in Hm. destruct (rec_body record); try absurd_fail H.
  - by apply handle_publish_ok in H as [-> _].
  - by apply handle_bind_ok in H as [(p & rc & _ & ->) _].
  - by eapply handle_invalidate_reason.
  - unfold fail in H. case_bool_decide as Hrev.
    { destruct Hm as [Hm|Hm]; simpl in Hm; congruence. }
    by injection H as <- <-.
Qed.

(** ** Invalidation before mutation *)

(** [registry_mutated] up to the invalidation: the identity it announced the end of
    and the revision the mutation has to reach. *)
Definition mutation_prepared : method (R := R) (E := E) (Id * Z * Z) :=
  require_active;;
  current ← current_identity;
  match checked_add64 current.2 1 with
  | None => fail_with fault_version
  | Some new_revision =>
      before ← snapshot_or_fail;
      require (snap_revision before =? current.2) (fault_protocol ErrStaleAuthority);;
      assign (set_pending None);;
      assign clear_receipt;;
      emit (BodyInvalidate current.1 current.2 ReasonRegistryMutation);;
      mret (current, new_revision)
  end.

(** ... and from the mutation on. *)
Definition mutation_finished (mutate : R → R * result unit RegistryError) (v : Id * Z * Z) :
    method (R := R) (E := E) Step :=
  mutated ← run_mutation mutate;
  match mutated with
  | Err e => fail_with (fault_registry e)
  | Ok _ =>
      after ← snapshot_or_fail;
      require (snap_revision after =? v.2) (fault_registry InvalidRevision);;
      l ← fresh_lifetime v.2;
      announce l v.2 (snap_projection after);;
      mret (LifetimeRotated v.1.1 (life_id l) v.2 ReasonRegistryMutation)
  end.

Lemma mutated_split mutate (s : State) :
  registry_mutated mutate s = (mutation_prepared ≫= mutation_finished mutate) s.
Proof.
  unfold registry_mutated, mutation_prepared, mbind, method_bind.
  destruct (require_active s) as [s1 [[]|e1]]; [|done].
  destruct (current_identity s1) as [s2 [current|e2]]; [|done].
  destruct (checked_add64 current.2 1) as [n|];
    [|unfold fail_with; by destruct (fail fault_version s2)].
  destruct (snapshot_or_fail s2) as [s3 [before|e3]]; [|done].
  destruct (require _ _ s3) as [s4 [[]|e4]]; [|done].
  destruct (assign (set_pending None) s4) as [s5 [[]|e5]]; [|done].
  destruct (assign clear_receipt s5) as [s6 [[]|e6]]; [|done].
  by destruct (emit _ s6) as [s7 [[]|e7]].
Qed.

Lemma mutation_prepared_ok (s s1 : State) v : writer s = writer_new → mutation_prepared s = (s1, Ok v) →
  phase s1 ≠ Revoked ∧ ∃ l, lifetime s = Some l
    ∧ comm [BodyInvalidate (life_id l) (life_revision l) ReasonRegistryMutation] s s1.
Proof.
  intros Hw H. unfold mutation_prepared in H. do 2 run_step H. simpl in H.
  destruct (checked_add64 _ _) as [n|] eqn:Hn; [|absurd_fail H]. do 4 run_step H.
  apply bind_ok in H as (s2 & [] & Hemit & H). injection H as <- <-.
  apply emit_ok in Hemit as [Ha Hc]; [|by rewrite (comm_writer _ _ _ (cleared_comm _))].
  split.
  - apply (f_equal a_phase) in Ha. rewrite cleared_auth in Ha. simpl in Ha. rewrite Ha.
    destruct Hm as [Hm|Hm]; simpl in Hm; by rewrite Hm.
  - exists x. split; [done|]. eapply (comm_trans [] [_]); [|exact Hc].
    eapply (comm_trans [] []); [|apply cleared_comm]. by apply comm_same.
Qed.

End Refine.
