(* ===== verification/ControlSafety.v ===== *)
(** * ControlSafety: what holds of every run of the state machine

    The failing side of the operations of [Control.v], and the theorems about
    whatever a caller and a Core do to a helper: the refinement of [ControlSpec.v]
    by histories, fail-closed revocation, the contents of the wire, the evidence
    behind a receipt, and the order of invalidation and mutation. *)

From S2P Require Import Prelude Text Wire Manifest IpcApi Framing Control ControlSpec ControlRefine.

Local Open Scope Z_scope.

(** ** Failures of the frame writer *)

Section Writes.
Context `{A : PublicationApi}.

(** A failure that is not one of a bounded resource. *)
Definition delivery_failure (e : FrameError) : bool :=
  match e with FrameIo _ | WriteZero | ZeroLength | FrameTooLarge => true | _ => false end.

Lemma write_all_failure answers : ∀ l e, (write_all l answers).2 = Err e → delivery_failure e = true.
Proof.
  induction answers as [|[n| |io] answers IH]; intros [|b l] e; try done; cbn [write_all].
  - destruct n as [|n]; [by intros [= <-]|]. specialize (IH (drop (S n) (b :: l)) e).
    destruct (write_all (drop (S n) (b :: l)) answers) as [[a t] r]. exact IH.
  - apply IH.
  - by intros [= <-].
Qed.

Lemma write_stream_failure s l s' e : write_stream s l = (s', Err e) → delivery_failure e = true.
Proof.
  unfold write_stream. pose proof (write_all_failure (accepts s) l e) as H.
  destruct (write_all l (accepts s)) as [[a t] r]. intros [= _ ->]. by apply H.
Qed.

Lemma flush_failure s w s' w' e : flush s w = (s', w', Err e) → delivery_failure e = true.
Proof.
  unfold flush. generalize (pending_bytes w). generalize (pending_frames w). intros frames n.
  assert (∀ s n s1 w1 e, flush_loop s frames n = (s1, w1, Err e) → delivery_failure e = true) as Hloop.
  { clear. induction frames as [|f frames IH]; intros s n s1 w1 e; cbn [flush_loop]; [done|].
    destruct (write_frame s f) as [s2 [[]|e2]] eqn:E2; [apply IH|]. intros [= _ _ <-].
    unfold write_frame in E2. do 3 (case_if_in E2; [by injection E2 as _ <-|]).
    destruct (write_stream s _) as [s3 [[]|e3]] eqn:E3; [by eapply write_stream_failure|].
    injection E2 as _ <-. by eapply write_stream_failure. }
  destruct (flush_loop s frames n) as [[s1 w1] [[]|e1]] eqn:E1.
  - destruct (flush_call s1) as [s2 [io|]]; by intros [= _ _ <-].
  - intros [= _ _ <-]. by eapply Hloop.
Qed.

End Writes.

Section Safety.
Context `{A : PublicationApi} `{!PublicationLaws A}.
Context {R E : Type} `{RV : !RegistryView Projection R} `{SR : !SecureRandom E}.
Context (allocates : Z → bool).

Abbreviation Body := (RecordBody Tuple Projection).
Abbreviation State := (HelperControl (R := R) (E := E)).

Definition live (s : State) : Prop := phase s ≠ Revoked.
Definition dead (s : State) : Prop := ∃ reason version, authority_of s = auth_revoked reason version.

(** The output of a state is a numbered sequence of whole records. *)
Record clean (base : bytes) (bodies : list Body) (s : State) : Prop := {
  clean_writer : writer s = writer_new;
  clean_out : out_sequence s = len bodies;
  clean_written : written (stream s) = base ++ wires (session_id s) 0 bodies
}.

(** ... possibly followed by more records and the beginning of one. *)
Definition torn (base : bytes) (bodies : list Body) (s : State) : Prop :=
  writer s = writer_new ∧ ∃ more tail body,
    out_sequence s = len (bodies ++ more)
    ∧ written (stream s) = base ++ wires (session_id s) 0 (bodies ++ more) ++ tail
    ∧ tail `prefix_of` record_wire (session_id s) (out_sequence s + 1) body.

Definition same_launch (s s' : State) : Prop :=
  session_id s' = session_id s ∧ expectations s' = expectations s.

Lemma clean_torn base bodies s : clean base bodies s → torn base bodies s.
Proof.
  intros []. split; [done|]. exists [], [], (OtherBody 0). rewrite !app_nil_r.
  split_and!; [done|done|]. by eexists.
Qed.

Lemma torn_more base bodies more s : torn base (bodies ++ more) s → torn base bodies s.
Proof. intros (Hw & k & tail & b & H). split; [done|]. exists (more ++ k), tail, b. by rewrite (app_assoc bodies more k). Qed.

Lemma clean_comm base bodies sent s s' : clean base bodies s → comm sent s s' →
  clean base (bodies ++ sent) s'.
Proof.
  intros [] []. constructor; [congruence| |].
  - rewrite len_app. lia.
  - by rewrite wires_app, Z.add_0_l, <- clean_out0, app_assoc, comm_session, <- clean_written0.
Qed.

(** Sending: nothing but the output changes, and a torn record is reported by an
    error that sends no further one. *)
Lemma raw_send_cases base bodies body s s' r : clean base bodies s → raw_send body s = (s', r) →
  authority_of s' = authority_of s ∧ same_launch s s'
  ∧ match r with
    | Ok _ => clean base (bodies ++ [body]) s'
    | Err e => clean base bodies s' ∨ (torn base bodies s' ∧ fault_code (send_fault e) = None)
    end.
Proof.
  intros Hc. destruct r as [[]|e].
  { intros H. apply raw_send_ok in H as [Ha Hcomm]; [|apply Hc].
    split_and!; [done|split; apply Hcomm|]. by eapply clean_comm. }
  unfold raw_send. destruct (next_expected_sequence (out_sequence s)) as [n|] eqn:En;
    [|intros [= <- <-]; by split_and!; try left].
  destruct (enqueue (writer s) _) as [w1 [[]|e1]] eqn:E1.
  - destruct (flush (stream s) w1) as [[st2 w2] [[]|e2]] eqn:E2; [done|]. intros [= <- <-].
    split_and!; [done|done|]. right. rewrite (clean_writer _ _ _ Hc) in E1.
    assert (writer_ok w1) as Hok1.
    { pose proof (enqueue_ok writer_new (mkRecord SenderHelper n (session_id s) body) writer_new_ok) as Hok.
      by rewrite E1 in Hok. }
    pose proof (flush_queue_ok _ _ _ _ _ Hok1 E2) as ->. pose proof (flush_failure _ _ _ _ _ E2) as Hf.
    split; [|by destruct e2].
    apply flush_spec in E2 as (_ & _ & taken & Hw & Hp & _). apply next_sequence in En as ->.
    apply enqueue_cases in E1 as [[_ [? [=]]]|(frame & He & E1)].
    apply enqueue_frame_spec in E1 as [(_ & _ & ->)|(_ & [? [=]] & _)]; [|apply writer_new_ok].
    cbn [pending_frames writer_new app map concat] in Hp. rewrite app_nil_r in Hp.
    split; [done|]. exists [], taken, body. simpl. rewrite !app_nil_r. unfold record_wire. rewrite He.
    split_and!; [apply Hc| |done]. by rewrite Hw, (clean_written _ _ _ Hc), app_assoc.
  - intros [= <- <-]. split_and!; [done|done|]. left.
    assert (w1 = writer s) as ->.
    { apply enqueue_cases in E1 as [[-> _]|(frame & _ & E1)]; [done|].
      apply enqueue_frame_spec in E1 as [([=] & _)|(-> & _)]; [done|].
      rewrite (clean_writer _ _ _ Hc). apply writer_new_ok. }
    by destruct Hc; constructor.
Qed.

(** Revocation, from a clean output. *)
Lemma fail_clean base bodies f s s' e : live s → clean base bodies s → fail f s = (s', e) →
  dead s' ∧ torn base bodies s' ∧ same_launch s s'.
Proof.
  intros Hl Hc. unfold fail. rewrite bool_decide_eq_false_2 by done. intros [= <- _].
  set (s1 := clear_authority (set_revocation (fault_reason f) s)).
  assert (clean base bodies s1) as Hc1 by (by destruct Hc; constructor).
  destruct (fault_code f) as [code|].
  - unfold send_error_best_effort. destruct (raw_send (BodyError code) s1) as [s2 r2] eqn:E2.
    apply (raw_send_cases base bodies) in E2 as (Ha & Hs & Hr); [|done]. simpl.
    split_and!; [eexists _, _; by rewrite Ha| |done]. destruct r2 as [[]|e2].
    + by eapply torn_more, clean_torn.
    + destruct Hr as [Hr|[Hr _]]; [by apply clean_torn|done].
  - split_and!; [by eexists _, _|by apply clean_torn|done].
Qed.

(** Revocation after a failed send: nothing follows a torn record. *)
Lemma fail_torn base bodies f s s' e : live s → torn base bodies s → fault_code f = None →
  fail f s = (s', e) → dead s' ∧ torn base bodies s' ∧ same_launch s s'.
Proof.
  intros Hl Ht Hcode. unfold fail. rewrite bool_decide_eq_false_2 by done. rewrite Hcode.
  intros [= <- _]. split_and!; [by eexists _, _| |done]. destruct Ht as [_ Ht]. by split.
Qed.

(** ** Fail-closed methods *)

(** Started live on a clean output, the method ends on a clean output, live if
    [keep], or fails with the authority gone. *)
Definition fine {X} (keep : bool) (m : method X) : Prop := ∀ base bodies (s : State),
  live s → clean base bodies s →
  match m s with
  | (s', Ok _) => (keep = true → live s') ∧ same_launch s s' ∧ ∃ more, clean base (bodies ++ more) s'
  | (s', Err _) => dead s' ∧ same_launch s s' ∧ torn base bodies s'
  end.

Lemma same_launch_trans s1 s2 s3 : same_launch s1 s2 → same_launch s2 s3 → same_launch s1 s3.
Proof. intros [] []. split; congruence. Qed.

Lemma fine_bind {X Y} keep (m : method X) (k : X → method Y) :
  fine true m → (∀ v, fine keep (k v)) → fine keep (m ≫= k).
Proof.
  intros Hm Hk base bodies s Hl Hc. specialize (Hm base bodies s Hl Hc).
  unfold mbind, method_bind. destruct (m s) as [s1 [v|e]]; [|done].
  destruct Hm as (Hl1 & Hs1 & more & Hc1). specialize (Hk v _ _ _ (Hl1 eq_refl) Hc1).
  destruct (k v s1) as [s2 [w|e]].
  - destruct Hk as (? & ? & more' & Hc2). split_and!; [done|by eapply same_launch_trans|].
    exists (more ++ more'). by rewrite app_assoc.
  - destruct Hk as (? & ? & Ht). split_and!; [done|by eapply same_launch_trans|]. by eapply torn_more.
Qed.

Lemma fine_weaken {X} keep (m : method X) : fine true m → fine keep m.
Proof.
  intros Hm base bodies s Hl Hc. specialize (Hm base bodies s Hl Hc).
  destruct (m s) as [s1 [v|e]]; [|done]. naive_solver.
Qed.

(** A method that only moves the state, without output. *)
Lemma fine_moves {X} keep (m : method X) (f : State → State) (g : State → X) :
  (∀ s, m s = (f s, Ok (g s))) → (∀ s, comm [] s (f s)) →
  (∀ s, live s → keep = true → live (f s)) → fine keep m.
Proof.
  intros Hm Hf Hl base bodies s Hs Hc. rewrite Hm. split_and!; [by apply Hl|split; apply Hf|].
  exists []. eapply clean_comm; [done|apply Hf].
Qed.

Lemma fine_ret {X} keep (v : X) : fine keep (mret v).
Proof. by apply (fine_moves _ _ id (λ _, v)); [|intros s; apply comm_same|]. Qed.

Lemma fine_reading {X} keep (g : State → X) : fine keep (reading g).
Proof. by apply (fine_moves _ _ id g); [|intros s; apply comm_same|]. Qed.

Lemma fine_assign (f : State → State) : (∀ s, comm [] s (f s)) → (∀ s, live s → live (f s)) →
  fine true (assign f).
Proof. intros Hf Hl. by apply (fine_moves _ _ f (λ _, tt)); [| |intros s Hs _; apply Hl]. Qed.

Lemma fine_fail_with {X} keep f : fine keep (fail_with f : method X).
Proof.
  intros base bodies s Hl Hc. unfold fail_with. destruct (fail f s) as [s' e] eqn:E1.
  destruct (fail_clean _ _ _ _ _ _ Hl Hc E1) as (? & ? & ?). done.
Qed.

Lemma fine_require keep c f : fine keep (require c f).
Proof. unfold require. destruct c; [apply fine_ret|apply fine_fail_with]. Qed.

Lemma fine_emit keep body : fine keep (emit body).
Proof.
  intros base bodies s Hl Hc. unfold emit. destruct (raw_send body s) as [s1 r1] eqn:E1.
  destruct (raw_send_cases _ _ _ _ _ _ Hc E1) as (Ha & Hs & Hr).
  assert (live s1) as Hl1. { apply (f_equal a_phase) in Ha. simpl in Ha. unfold live. by rewrite Ha. }
  destruct r1 as [[]|e]; [eauto|]. unfold fail_with.
  destruct (fail (send_fault e) s1) as [s2 e2] eqn:E2. destruct Hr as [Hr|[Hr Hcode]].
  - destruct (fail_clean _ _ _ _ _ _ Hl1 Hr E2) as (? & ? & ?).
    split_and!; [done|by eapply same_launch_trans|done].
  - destruct (fail_torn _ _ _ _ _ _ Hl1 Hr Hcode E2) as (? & ? & ?).
    split_and!; [done|by eapply same_launch_trans|done].
Qed.

(** A service call that may fail. *)
Lemma fine_call {X Y} (m : method X) (f : State → State) (g : State → result X Y) (fault : Y → Fault) :
  (∀ s, comm [] s (f s)) → (∀ s, live s → live (f s)) →
  (∀ s, m s = match g s with Ok v => (f s, Ok v) | Err e => fail_with (fault e) (f s) end) →
  fine true m.
Proof.
  intros Hf Hlf Hm base bodies s Hl Hc. rewrite Hm.
  assert (clean base bodies (f s)) as Hc1.
  { rewrite <- (app_nil_r bodies). eapply clean_comm; [done|apply Hf]. }
  assert (same_launch s (f s)) as Hs1 by (split; apply Hf).
  destruct (g s) as [v|e].
  - split_and!; [by intros _; apply Hlf|done|]. exists []. by rewrite app_nil_r.
  - pose proof (fine_fail_with (X := X) true (fault e) base bodies (f s) (Hlf s Hl) Hc1) as H.
    unfold fail_with in *. destruct (fail (fault e) (f s)) as [s2 e2]. destruct H as (? & ? & ?).
    split_and!; [done|by eapply same_launch_trans|done].
Qed.

Lemma fine_snapshot : fine true snapshot_or_fail.
Proof.
  apply (fine_call _ (λ s, set_environment (snapshot (registry s)).1 (random s) s)
    (λ s, (snapshot (registry s)).2) fault_registry); try done.
  - intros s. by apply comm_same.
  - intros s. unfold snapshot_or_fail. by destruct (snapshot (registry s)) as [g [v|e]].
Qed.

Lemma fine_read : fine true (read_incoming allocates).
Proof.
  intros base bodies s Hl Hc. unfold read_incoming.
  destruct (read_record allocates (incoming (stream s))) as [events r].
  assert (clean base bodies (set_input events s)) as Hc1 by (by destruct Hc; constructor).
  destruct r as [v|e].
  - split_and!; [done|done|]. exists []. by rewrite app_nil_r.
  - match goal with |- context [fail_with ?f _] =>
      pose proof (fine_fail_with (X := ControlRecord Tuple Projection) true f base bodies
        (set_input events s) Hl Hc1) as H; set (fault := f) in * end.
    unfold fail_with in *. destruct (fail fault (set_input events s)) as [s2 e2]. exact H.
Qed.

Lemma fine_random keep n : fine keep (random_id n).
Proof.
  apply (fine_moves _ _ (λ s, set_environment (registry s) (random_fill n (random s)).1 s)
    (λ s, (random_fill n (random s)).2)); [|by intros s; apply comm_same|done].
  intros s. unfold random_id. by destruct (random_fill n (random s)).
Qed.

Lemma fine_compare keep revision l : fine keep (compare_retained revision l).
Proof.
  apply (fine_moves _ _ (λ s, set_environment (retained_matches revision l (registry s)).1 (random s) s)
    (λ s, (retained_matches revision l (registry s)).2)); [|by intros s; apply comm_same|done].
  intros s. unfold compare_retained. by destruct (retained_matches revision l (registry s)).
Qed.

Lemma fine_mutation keep mutate : fine keep (run_mutation mutate).
Proof.
  apply (fine_moves _ _ (λ s, set_environment (mutate (registry s)).1 (random s) s)
    (λ s, (mutate (registry s)).2)); [|by intros s; apply comm_same|done].
  intros s. unfold run_mutation. by destruct (mutate (registry s)).
Qed.

Lemma fine_set_in_sequence n : fine true (assign (set_in_sequence n)).
Proof.
  intros base bodies s Hl Hc. split_and!; [done|done|]. exists []. rewrite app_nil_r.
  by destruct Hc; constructor.
Qed.

Lemma fine_authority (f : State → State) :
  (∀ s, comm [] s (f s)) → (∀ s, phase s ≠ Revoked → phase (f s) ≠ Revoked) → fine true (assign f).
Proof. apply fine_assign. Qed.

Lemma fine_clear_receipt : fine true (assign clear_receipt).
Proof.
  apply fine_authority; [apply clear_receipt_comm|]. intros s. unfold clear_receipt.
  by destruct (receipt s).
Qed.

Lemma fine_retire_current : fine true (assign retire_current).
Proof.
  apply fine_authority; [apply retire_current_comm|]. intros s. unfold retire_current.
  by destruct (lifetime s).
Qed.

Create HintDb control.
#[local] Hint Resolve fine_ret fine_reading fine_fail_with fine_require fine_emit fine_snapshot
  fine_read fine_random fine_compare fine_mutation fine_set_in_sequence fine_clear_receipt
  fine_retire_current : control.
#[local] Hint Extern 2 (fine _ (assign _)) =>
  (apply fine_authority; [by intros; apply comm_same|done]) : control.

Ltac solve_fine :=
  repeat first
  [ solve [eauto with control]
  | apply fine_bind; [|intros ?]
  | match goal with |- fine _ (match ?v with _ => _ end) => destruct v end ].

Lemma fine_envelope record : fine true (validate_envelope record).
Proof. unfold validate_envelope. solve_fine. Qed.

Lemma fine_fresh revision : fine true (fresh_lifetime revision).
Proof. unfold fresh_lifetime. solve_fine. Qed.

Lemma fine_announce keep l revision p : fine keep (announce l revision p).
Proof. unfold announce. solve_fine. Qed.
#[local] Hint Resolve fine_envelope fine_fresh fine_announce : control.

Lemma fine_withdraw reason : fine false (withdraw reason).
Proof.
  intros base bodies s Hl Hc. simpl. split_and!; [done|done|]. exists []. rewrite app_nil_r.
  by destruct Hc; constructor.
Qed.
#[local] Hint Resolve fine_withdraw : control.

Lemma fine_bind_handler body : fine false (handle_bind body).
Proof. unfold handle_bind. solve_fine. Qed.

Lemma fine_invalidate id revision reason : fine false (handle_invalidate id revision reason).
Proof. unfold handle_invalidate. solve_fine. Qed.

(** The operations that read the current identity first run where a lifetime is. *)
Lemma bind_current {Y} (k : Id * Z → method Y) (s : State) l : lifetime s = Some l →
  (current_identity ≫= k) s = k (life_id l, life_revision l) s.
Proof. intros Hl. unfold mbind, method_bind, current_identity. by rewrite Hl. Qed.

(** [fine] at one state. *)
Definition fine_at {X} (m : method X) (s : State) : Prop := ∀ base bodies, clean base bodies s →
  match m s with
  | (s', Ok _) => same_launch s s' ∧ ∃ more, clean base (bodies ++ more) s'
  | (s', Err _) => dead s' ∧ same_launch s s' ∧ torn base bodies s'
  end.

Lemma fine_fine_at {X} (m : method X) s : fine false m → live s → fine_at m s.
Proof.
  intros Hm Hl base bodies Hc. specialize (Hm base bodies s Hl Hc). destruct (m s) as [s' [v|e]]; naive_solver.
Qed.

Lemma fine_publish id revision tuple payload s l : live s → lifetime s = Some l →
  fine_at (handle_publish id revision tuple payload) s.
Proof.
  intros Hl Hlife. unfold fine_at, handle_publish. rewrite (bind_current _ _ _ Hlife).
  apply fine_fine_at; [|done]. solve_fine.
Qed.

Lemma fine_at_bind {X Y} (m : method X) (k : X → method Y) s : fine true m → live s →
  (∀ v s1, m s = (s1, Ok v) → live s1 → fine_at (k v) s1) → fine_at (m ≫= k) s.
Proof.
  intros Hm Hl Hk base bodies Hc. specialize (Hm base bodies s Hl Hc).
  unfold mbind, method_bind. destruct (m s) as [s1 [v|e]]; [|done].
  destruct Hm as (Hl1 & Hs1 & more & Hc1). specialize (Hk v s1 eq_refl (Hl1 eq_refl) _ _ Hc1).
  destruct (k v s1) as [s2 [w|e]].
  - destruct Hk as (? & more' & Hc2). split; [by eapply same_launch_trans|].
    exists (more ++ more'). by rewrite app_assoc.
  - destruct Hk as (? & ? & Ht). split_and!; [done|by eapply same_launch_trans|]. by eapply torn_more.
Qed.

Lemma bind_active {Y} (k : unit → method Y) (s : State) : auth_active (authority_of s) →
  (require_active ≫= k) s = k tt s.
Proof. intros [H|H]; unfold mbind, method_bind, require_active; simpl in H; by rewrite H. Qed.

Lemma fine_peer_error code :
  fine false (λ s : State, let '(s, _) := fail (fault_peer code) s in (s, Ok (PeerError code))).
Proof.
  intros base bodies s Hl Hc. unfold fail. rewrite bool_decide_eq_false_2 by done. simpl.
  split_and!; [done|done|]. exists []. rewrite app_nil_r. by destruct Hc; constructor.
Qed.

Lemma fine_step s l : auth_active (authority_of s) → lifetime s = Some l → fine_at (step allocates) s.
Proof.
  intros Hact Hlife. assert (live s) as Hl.
  { unfold live. destruct Hact as [H|H]; simpl in H; by rewrite H. }
  unfold fine_at, step. rewrite (bind_active _ _ Hact).
  apply fine_at_bind; [apply fine_read|done|]. intros record s1 E1 Hl1.
  apply fine_at_bind; [apply fine_envelope|done|]. intros [] s2 E2 Hl2.
  pose proof (took_facts _ _ _ _ (read_envelope_ok _ _ _ _ _ _ E1 E2)) as [Ha _].
  apply (f_equal a_lifetime) in Ha. simpl in Ha. rewrite Hlife in Ha.
  destruct (rec_body record); try (apply fine_fine_at; [apply fine_fail_with|done]).
  - by eapply fine_publish.
  - apply fine_fine_at; [apply fine_bind_handler|done].
  - apply fine_fine_at; [apply fine_invalidate|done].
  - apply fine_fine_at; [apply fine_peer_error|done].
Qed.

Lemma fine_mutated mutate s l : auth_active (authority_of s) → lifetime s = Some l →
  fine_at (registry_mutated mutate) s.
Proof.
  intros Hact Hlife. unfold fine_at, registry_mutated. rewrite (bind_active _ _ Hact).
  rewrite (bind_current _ _ _ Hlife). apply fine_fine_at; [solve_fine|].
  unfold live. destruct Hact as [H|H]; simpl in H; by rewrite H.
Qed.

Lemma fine_reset s l : auth_active (authority_of s) → lifetime s = Some l → fine_at reset s.
Proof.
  intros Hact Hlife. unfold fine_at, reset. rewrite (bind_active _ _ Hact).
  rewrite (bind_current _ _ _ Hlife). apply fine_fine_at; [solve_fine|].
  unfold live. destruct Hact as [H|H]; simpl in H; by rewrite H.
Qed.

Lemma fine_establish s : phase s = AwaitingEstablish → fine_at (establish allocates) s.
Proof.
  intros Hp. unfold fine_at, establish. rewrite Hp. simpl.
  apply fine_fine_at; [|unfold live; by rewrite Hp]. solve_fine.
Qed.

(** ** Failing operations *)

Lemma revoked_op o s : phase s = Revoked →
  run_op allocates o s = (s, match o with OpClose => Ok tt | _ => Err ErrClosed end).
Proof.
  intros Hp. destruct o; simpl; unfold step, registry_mutated, reset, establish, close, discard;
    unfold mbind, method_bind, require_active; by rewrite Hp.
Qed.

(** The operation is refused before anything happens: it needs an establishment. *)
Definition refused_early (o : operation (R := R)) (s s' : State) (e : HelperControlError) : Prop :=
  phase s = AwaitingEstablish ∧ o ≠ OpEstablish ∧ s' = s ∧ e = ErrNotEstablished.

Lemma run_op_err session o s s' e base bodies :
  authority_ok session (authority_of s) → live s → clean base bodies s →
  run_op allocates o s = (s', Err e) →
  refused_early o s s' e ∨ (dead s' ∧ same_launch s s' ∧ torn base bodies s').
Proof.
  intros Hok Hl Hc H.
  destruct (decide (phase s = AwaitingEstablish)) as [Hp|Hp].
  - destruct o; simpl in H.
    + right. pose proof (fine_establish s Hp base bodies Hc) as Hf. by rewrite H in Hf.
    + left. apply discard_err in H. unfold step, mbind, method_bind, require_active in H.
      rewrite Hp in H. by injection H as <- <-.
    + left. apply discard_err in H. unfold registry_mutated, mbind, method_bind, require_active in H.
      rewrite Hp in H. by injection H as <- <-.
    + left. apply discard_err in H. unfold reset, mbind, method_bind, require_active in H.
      rewrite Hp in H. by injection H as <- <-.
    + done.
  - assert (auth_active (authority_of s)) as Hact.
    { unfold auth_active, live in *. simpl. destruct (phase s); eauto; done. }
    destruct (auth_live _ _ Hok Hact) as [_ [l Hlife]]. simpl in Hlife. right.
    destruct o; simpl in H.
    + unfold establish in H. rewrite !bool_decide_eq_false_2 in H by done. simpl in H.
      pose proof (fine_fail_with (X := unit) false (fault_protocol ErrAlreadyEstablished)
        base bodies s Hl Hc) as Hf. by rewrite H in Hf.
    + apply discard_err in H. pose proof (fine_step s l Hact Hlife base bodies Hc) as Hf. by rewrite H in Hf.
    + apply discard_err in H. pose proof (fine_mutated mutate s l Hact Hlife base bodies Hc) as Hf.
      by rewrite H in Hf.
    + apply discard_err in H. pose proof (fine_reset s l Hact Hlife base bodies Hc) as Hf. by rewrite H in Hf.
    + done.
Qed.

(** ** Runs *)

(** Whatever a caller does with a helper, over any stream, registry and random
    source; between two operations both services may move on their own. *)
Inductive control_reach (base : bytes) : State → Prop :=
| CrNew st g e expect :
    written st = base → control_reach base (with_expectations st g e expect)
| CrOp o s : control_reach base s → control_reach base (run_op allocates o s).1
| CrDrift g e s : control_reach base s → control_reach base (set_environment g e s).

(** A state implements a history of the abstract machine: same authority, and, as
    long as it is live, exactly the records of the history on the wire and as many
    records taken from the Core.  After a revocation more records and the
    beginning of one may follow. *)
Record implements (base : bytes) (h : list (option Body * list Body)) (s : State) : Prop := {
  impl_trace : auth_trace (expectations s) (session_id s) h (authority_of s);
  impl_received : live s → in_sequence s = len (received h);
  impl_clean : live s → clean base (sent_records h) s;
  impl_torn : torn base (sent_records h) s
}.

Lemma clean_took base bodies s recv s2 : took allocates s recv s2 → clean base bodies s →
  clean base bodies s2.
Proof. destruct recv; simpl; [intros (ev & _ & ->) []; by constructor|by intros ->]. Qed.

Lemma implements_transition base h s recv s' : implements base h s → live s →
  transition allocates s recv s' → ∃ sent, implements base ((recv, sent) :: h) s'.
Proof.
  intros [Ht Hr Hc _] Hl (s2 & Htook & sent & a' & Hstep & Ha & Hcomm). exists sent.
  pose proof (took_facts _ _ _ _ Htook) as (Ha2 & Hs2 & Hw2 & Hx2).
  assert (clean base (sent_records ((recv, sent) :: h)) s') as Hc'.
  { rewrite sent_cons. eapply clean_comm; [|exact Hcomm]. by eapply clean_took; [|apply Hc]. }
  constructor.
  - rewrite (comm_session _ _ _ Hcomm), (comm_expect _ _ _ Hcomm), Hs2, Hx2, Ha.
    rewrite Hs2, Hx2, Ha2 in Hstep. by econstructor.
  - intros _. rewrite received_cons, len_app, <- (Hr Hl), (comm_in _ _ _ Hcomm).
    destruct recv as [body|]; simpl in Htook; [destruct Htook as (ev & _ & ->)|subst s2];
      unfold len; simpl; lia.
  - done.
  - by apply clean_torn.
Qed.

Lemma implements_op base h s o : implements base h s → ∃ h', implements base h' (run_op allocates o s).1.
Proof.
  intros Himpl. destruct (decide (phase s = Revoked)) as [Hp|Hl].
  { rewrite (revoked_op _ _ Hp). by exists h. }
  pose proof (auth_trace_ok _ _ _ _ (impl_trace _ _ _ Himpl)) as Hok.
  pose proof (impl_clean _ _ _ Himpl Hl) as Hc.
  destruct (run_op allocates o s) as [s' [[]|e]] eqn:E1; simpl.
  - apply run_op_ok in E1 as [(_ & _ & ->)|[recv Htr]]; [by exists h| |apply Hc].
    destruct (implements_transition _ _ _ _ _ Himpl Hl Htr); eauto.
  - destruct (run_op_err _ _ _ _ _ _ _ Hok Hl Hc E1) as [(_ & _ & -> & _)|(Hd & [Hs Hx] & Htorn)];
      [by exists h|]. exists h. destruct Hd as (reason & version & Ha).
    assert (¬ live s') as Hdead.
    { unfold live. apply (f_equal a_phase) in Ha. simpl in Ha. rewrite Ha. by intros []. }
    constructor; try done. rewrite Hs, Hx, Ha. eapply TrFail; [apply Himpl|done].
Qed.

Lemma reach_implements base s : control_reach base s → ∃ h, implements base h s.
Proof.
  induction 1 as [st g e expect Hb|o s _ [h IH]|g e s _ [h IH]].
  - exists []. assert (clean base [] (with_expectations st g e expect)) as Hc.
    { constructor; simpl; [done|done|]. by rewrite app_nil_r. }
    constructor; [constructor|done|done|by apply clean_torn].
  - by eapply implements_op.
  - exists h. destruct IH as [Ht Hr Hc Htorn]. constructor; try done.
    intros Hl. destruct (Hc Hl). by constructor.
Qed.


(** After any sequence of operations the helper is in one of four coherent
    shapes: untouched before establishment, cleared of every identifier once
    revoked, ready with nothing pending, or awaiting the bind of exactly the
    acknowledged publication of its current lifetime; a receipt is of this launch
    and of the highest accepted version, and no live identifier is a retired one. *)
Theorem control_invariant base s : control_reach base s → authority_ok (session_id s) (authority_of s).
Proof. intros [h Himpl]%reach_implements. eapply auth_trace_ok, Himpl. Qed.

(** C11: an operation that fails has revoked: nothing of the authority is left, and at
    most one record is torn on the wire.  The exceptions change nothing: an
    operation on what is revoked already, and one that has to wait for the
    establishment. *)
Theorem errors_revoke base s o s' e : control_reach base s →
  run_op allocates o s = (s', Err e) →
  (s' = s ∧ ((phase s = Revoked ∧ e = ErrClosed) ∨ refused_early o s s' e))
  ∨ (dead s' ∧ ∃ h, implements base h s ∧ torn base (sent_records h) s').
Proof.
  intros [h Himpl]%reach_implements H. destruct (decide (phase s = Revoked)) as [Hp|Hl].
  { rewrite (revoked_op _ _ Hp) in H. left. destruct o; try done; injection H as <- <-; eauto. }
  destruct (run_op_err _ _ _ _ _ _ _ (auth_trace_ok _ _ _ _ (impl_trace _ _ _ Himpl)) Hl
    (impl_clean _ _ _ Himpl Hl) H) as [Hr|(Hd & _ & Ht)]; [left|right; eauto].
  split; [apply Hr|by right].
Qed.

(** C10: a receipt is backed: the Core published and bound its tuple in the current
    lifetime, the two in this order with nothing but crossed invalidations around,
    the bind named the acknowledgement of that publish, and the registry confirmed
    the canonical bytes of the published payload. *)
Theorem bound_evidence base s r : control_reach base s → proof_state s = ProofBound r →
  ∃ h rc, implements base h s ∧ receipt s = Some rc ∧ act_receipt rc = r
    ∧ receipt_shown h (authority_of s) rc.
Proof.
  intros [h Himpl]%reach_implements Hp. unfold proof_state in Hp.
  case_bool_decide; [done|]. destruct (lifetime s); [|done]. destruct (pending s); [done|].
  destruct (receipt s) as [rc|] eqn:Hr; [|done]. injection Hp as <-. exists h, rc.
  split_and!; [done|done|done|]. eapply receipt_evidence; [apply Himpl|done].
Qed.

(** No replay: the versions of the publications a history accepts strictly
    increase, across lifetimes, and stay below the helper's own mark. *)
Theorem publications_increase base s : control_reach base s →
  ∃ h, implements base h s ∧ StronglySorted (λ v w, w < v) (published_versions h)
    ∧ (live s → Forall (λ v, v ≤ last_core_publication_version s) (published_versions h)).
Proof.
  intros [h Himpl]%reach_implements. exists h. split; [done|].
  apply (versions_increase _ _ _ _ (impl_trace _ _ _ Himpl)).
Qed.

(** A record counts only once and only in order: an operation takes nothing from
    the Core, or the next record on the stream, sent by the Core for this session
    under exactly the next sequence number, and moves the counter by one. *)
Theorem core_records_in_order base s o s' : control_reach base s →
  run_op allocates o s = (s', Ok tt) →
  (in_sequence s' = in_sequence s ∧ incoming (stream s') = incoming (stream s))
  ∨ ∃ body events,
      read_record allocates (incoming (stream s))
      = (events, Ok (mkRecord SenderCore (in_sequence s + 1) (session_id s) body))
      ∧ in_sequence s' = in_sequence s + 1 ∧ incoming (stream s') = events.
Proof.
  intros [h Himpl]%reach_implements H. destruct (impl_torn _ _ _ Himpl) as [Hw _].
  apply run_op_ok in H as [(_ & _ & ->)|(recv & s2 & Htook & sent & a' & _ & _ & Hc)]; [by left| |done].
  rewrite (comm_in _ _ _ Hc), (comm_incoming _ _ _ Hc).
  destruct recv as [body|]; simpl in Htook; [|left; by subst].
  destruct Htook as (events & Hread & ->). right. by exists body, events.
Qed.

(** Revocation is terminal and silent: whatever operations follow, the helper
    reads nothing, writes nothing, runs no mutation and keeps its state. *)
Theorem revoked_terminal ops s : phase s = Revoked →
  foldl (λ s o, (run_op allocates o s).1) s ops = s.
Proof.
  intros Hp. induction ops as [|o ops IH]; [done|]. simpl. by rewrite (revoked_op _ _ Hp).
Qed.

(** ** Invalidation before mutation *)

Lemma fine_mutation_finished mutate v : fine false (mutation_finished mutate v).
Proof. unfold mutation_finished. solve_fine. Qed.

(** The Core hears first: if what the mutation does matters for the outcome in any
    way, the invalidation of the current lifetime is on the wire, whole, before
    anything else the operation writes. *)
Theorem mutation_after_invalidation base s m1 m2 : control_reach base s →
  registry_mutated m1 s ≠ registry_mutated m2 s →
  ∃ l, lifetime s = Some l
    ∧ (written (stream s) ++ record_wire (session_id s) (out_sequence s + 1)
         (BodyInvalidate (life_id l) (life_revision l) ReasonRegistryMutation))
      `prefix_of` written (stream (registry_mutated m1 s).1).
Proof.
  intros [h Himpl]%reach_implements Hne. destruct (impl_torn _ _ _ Himpl) as [Hw _].
  rewrite !mutated_split in *. unfold mbind, method_bind in *.
  destruct (mutation_prepared s) as [s1 [v|e]] eqn:E1; [|done].
  apply mutation_prepared_ok in E1 as (Hl1 & l & Hl & Hc); [|done]. exists l. split; [done|].
  assert (live s) as Hlive.
  { intros Hp. pose proof (auth_trace_ok _ _ _ _ (impl_trace _ _ _ Himpl)) as Hok.
    destruct (auth_revoked_ok _ _ Hok Hp) as [reason Ha]. apply (f_equal a_lifetime) in Ha.
    simpl in Ha. by rewrite Hl in Ha. }
  pose proof (clean_comm _ _ _ _ _ (impl_clean _ _ _ Himpl Hlive) Hc) as Hc1.
  pose proof (comm_written _ _ _ Hc) as Hwr. simpl in Hwr. rewrite app_nil_r in Hwr. rewrite <- Hwr.
  pose proof (fine_mutation_finished m1 v _ _ _ Hl1 Hc1) as Hf.
  destruct (mutation_finished m1 v s1) as [s2 [r|e]]; simpl.
  - destruct Hf as (_ & [Hs _] & more & [_ _ Hw2]). rewrite Hw2, wires_app, app_assoc, Hs.
    rewrite (clean_written _ _ _ Hc1). by eexists.
  - destruct Hf as (_ & [Hs _] & _ & more & tail & b & _ & Hw2 & _).
    rewrite Hw2, wires_app, !app_assoc, Hs, (clean_written _ _ _ Hc1), <- app_assoc. by eexists.
Qed.

End Safety.
