(* ===== verification/ControlDemo.v ===== *)
(** * ControlDemo: a launch from establishment to a receipt

    A helper over the control-only registry and the table contract: the Core
    establishes, publishes the empty projection and binds it.  The theorems of
    [ControlSafety.v] are applied to this run. *)

From S2P Require Import Prelude Text Wire Manifest IpcApi Framing Control ControlSpec ControlRefine ControlSafety.

Local Open Scope Z_scope.

Definition demo_expectations : EstablishmentExpectations := expectations_from_manifest id sample_manifest.
Definition demo_session : Id := echo_launch_nonce demo_expectations.
Definition demo_tuple : Id * Z := (demo_session, 1).
Definition demo_life : Id := as_bytes "L1".
Definition demo_ack : AckBody (Id * Z) := mkAckBody demo_life 1 demo_tuple (as_bytes "A1").

(** What the Core sends, and what the helper answers. *)
Definition demo_core : list (ControlRecord (Id * Z) bytes) :=
  [mkRecord SenderCore 1 demo_session (BodyEstablish demo_expectations);
   mkRecord SenderCore 2 demo_session (BodyPublish demo_life 1 demo_tuple []);
   mkRecord SenderCore 3 demo_session (BodyBind demo_ack)].

Definition demo_helper : list (RecordBody (Id * Z) bytes) :=
  [BodyEstablished demo_expectations demo_life;
   BodyProjection demo_life 1 [];
   BodyAck demo_ack;
   BodyBound demo_life 1 demo_tuple (as_bytes "R1");
   BodyInvalidate demo_life 1 ReasonRegistryMutation;
   BodyError CodeUnavailable].

Definition demo_table : list (ControlRecord (Id * Z) bytes) :=
  demo_core ++ imap (λ i b, mkRecord SenderHelper (Z.of_nat i + 1) demo_session b) demo_helper
  ++ [mkRecord SenderHelper 6 demo_session (BodyError CodeInvalidControl)].

#[local] Instance demo_api : PublicationApi := table_api demo_table.
#[local] Instance demo_laws : PublicationLaws demo_api := table_laws demo_table.

(** A scripted random source. *)
#[export] Instance script_random : SecureRandom (list bytes) :=
  λ _ e, match e with [] => ([], None) | l :: e => (e, Some l) end.

Definition demo_wire (r : ControlRecord (Id * Z) bytes) : bytes :=
  match table_encode demo_table r with Ok f => frame_wire f | Err _ => [] end.

Definition demo_stream : Stream := mkStream [RdData (concat (map demo_wire demo_core))] [] [] [].

Definition demo_start : HelperControl :=
  with_expectations demo_stream (control_only_new ([] : Projection))
    [demo_life; as_bytes "S1"; as_bytes "A1"; as_bytes "R1"] demo_expectations.

Definition demo_always (n : Z) : bool := true.

Definition demo_bound : HelperControl :=
  foldl (λ s o, (run_op demo_always o s).1) demo_start [OpEstablish; OpStep; OpStep].

Lemma demo_reach : control_reach demo_always [] demo_bound.
Proof. do 3 apply CrOp. by apply CrNew. Qed.

Example demo_bound_state : proof_state demo_bound = ProofBound (as_bytes "R1").
Proof. reflexivity. Qed.

(** ** The theorems at this run *)

Lemma run_result {X Y} (p : X * Y) y : p.2 = y → p = (p.1, y).
Proof. destruct p. by intros <-. Qed.


Lemma control_invariant_witness : authority_ok (session_id demo_bound) (authority_of demo_bound).
Proof. exact (control_invariant demo_always [] demo_bound demo_reach). Defined.

(** The stream is over: the next step revokes. *)
Lemma errors_revoke_witness : dead (run_op demo_always OpStep demo_bound).1.
Proof.
  destruct (errors_revoke demo_always [] demo_bound OpStep (run_op demo_always OpStep demo_bound).1
    (ErrFrame FrameClosed) demo_reach) as [[_ [[H _]|[H _]]]|[H _]].
  - apply run_result. reflexivity.
  - exfalso. assert (phase demo_bound = Ready) as Hp by reflexivity. rewrite Hp in H. discriminate H.
  - exfalso. assert (phase demo_bound = Ready) as Hp by reflexivity. rewrite Hp in H. discriminate H.
  - exact H.
Defined.

Lemma bound_evidence_witness :
  ∃ h rc, implements [] h demo_bound ∧ receipt demo_bound = Some rc ∧ act_receipt rc = as_bytes "R1"
    ∧ receipt_shown h (authority_of demo_bound) rc.
Proof.
  apply (bound_evidence demo_always [] demo_bound (as_bytes "R1") demo_reach). reflexivity.
Defined.

Lemma publications_increase_witness :
  ∃ h, implements [] h demo_bound ∧ StronglySorted (λ v w, w < v) (published_versions h)
    ∧ (live demo_bound → Forall (λ v, v ≤ last_core_publication_version demo_bound) (published_versions h)).
Proof. exact (publications_increase demo_always [] demo_bound demo_reach). Defined.

(** The establishment takes the first record. *)
Lemma core_records_in_order_witness :
  in_sequence (run_op demo_always OpEstablish demo_start).1 = 1.
Proof.
  destruct (core_records_in_order demo_always [] demo_start OpEstablish
    (run_op demo_always OpEstablish demo_start).1) as [[H _]|(body & events & _ & H & _)].
  - by apply CrNew.
  - apply run_result. reflexivity.
  - exfalso. assert (in_sequence (run_op demo_always OpEstablish demo_start).1 = 1) as H1 by reflexivity.
    rewrite H1 in H. discriminate H.
  - rewrite H. reflexivity.
Defined.

Lemma revoked_terminal_witness :
  foldl (λ s o, (run_op demo_always o s).1) (close demo_bound) [OpStep; OpReset; OpEstablish]
  = close demo_bound.
Proof. apply (revoked_terminal demo_always [OpStep; OpReset; OpEstablish] (close demo_bound)). reflexivity. Defined.

Definition demo_unchanged (g : ControlOnlyRegistry) : ControlOnlyRegistry * result unit RegistryError :=
  (g, Ok tt).
Definition demo_refused (g : ControlOnlyRegistry) : ControlOnlyRegistry * result unit RegistryError :=
  (g, Err RegistryUnavailable).

(** One mutation that fails and one that misses the revision differ in their error,
    so the invalidation was written. *)
Lemma mutation_after_invalidation_witness :
  ∃ l, lifetime demo_bound = Some l
    ∧ (written (stream demo_bound) ++ record_wire (session_id demo_bound) (out_sequence demo_bound + 1)
         (BodyInvalidate (life_id l) (life_revision l) ReasonRegistryMutation))
      `prefix_of` written (stream (registry_mutated demo_unchanged demo_bound).1).
Proof.
  apply (mutation_after_invalidation demo_always [] demo_bound demo_unchanged demo_refused demo_reach).
  intros H. apply (f_equal snd) in H.
  assert ((registry_mutated demo_unchanged demo_bound).2 = Err (ErrRegistry InvalidRevision)) as H1
    by reflexivity.
  assert ((registry_mutated demo_refused demo_bound).2 = Err (ErrRegistry RegistryUnavailable)) as H2
    by reflexivity.
  rewrite H1, H2 in H. discriminate H.
Defined.
