(* ===== verification/Server.v ===== *)
(** * Server: the pinned TLS endpoint of the helper

    Models [server.rs] of [crates/bitty-ai-control]: the blocking handshake loop
    with its step and wire budgets, the bounded writer, and the checks on the peer
    before a session is exposed.  The TLS connection is [rustls]: an interface with
    the documented behaviour of its calls as laws. *)

From S2P Require Import Prelude Text Wire Manifest IpcApi.

Local Open Scope Z_scope.
Local Open Scope rust_scope.

Definition CONTROL_ALPN : bytes := as_bytes CONTROL_PROFILE.
Definition TLS_PREAUTH_WIRE_MAX_BYTES : Z := 128 * 1024.
Definition TLS_PREAUTH_STEPS_MAX : nat := 256.

(** An [io::Error]; [None] is an interruption. *)
Abbreviation CallError := (option IoError).

(** One [write] call on the underlying stream. *)
Definition write_call (l : bytes) (s : Stream) : Stream * result nat CallError :=
  match s.(accepts) with
  | [] => (mkStream s.(incoming) [] s.(flushes) (s.(written) ++ l), Ok (length l))
  | WrAccept n :: answers =>
      (mkStream s.(incoming) answers s.(flushes) (s.(written) ++ take n l), Ok (length (take n l)))
  | WrInterrupted :: answers => (mkStream s.(incoming) answers s.(flushes) s.(written), Err None)
  | WrFailed e :: answers => (mkStream s.(incoming) answers s.(flushes) s.(written), Err (Some e))
  end.

(** [LimitedWriter] over the stream. *)
Record LimitedWriter := mkLimited { inner : Stream; remaining : nat; exhausted : bool }.

(** [LimitedWriter::write] *)
Definition limited_write (buffer : bytes) (w : LimitedWriter) : LimitedWriter * result nat CallError :=
  match w.(remaining) with
  | O => (mkLimited w.(inner) 0 true, Err (Some "write zero"))
  | _ =>
      let allowed := Nat.min (length buffer) w.(remaining) in
      match write_call (take allowed buffer) w.(inner) with
      | (s, Err e) => (mkLimited s w.(remaining) w.(exhausted), Err e)
      | (s, Ok written) => (mkLimited s (w.(remaining) - written) w.(exhausted), Ok written)
      end
  end.

(** [rustls::ServerConnection], as the server uses it.  [tls_new] builds the
    configuration and the connection for a manifest; [tls_read n] is [read_tls] on a
    reader of at most [n] bytes, [tls_write f] is [write_tls] on a writer whose
    [write] is [f]. *)
Class TlsConnection (C : Type) := {
  tls_new : LaunchManifest → result C string;
  tls_wants_read : C → bool;
  tls_wants_write : C → bool;
  tls_handshaking : C → bool;
  tls_is_13 : C → bool;
  tls_alpn : C → option bytes;
  tls_peer_certificates : C → option (list bytes);
  tls_read : nat → C → list ReadEvent → C * list ReadEvent * result nat CallError;
  tls_write : (bytes → LimitedWriter → LimitedWriter * result nat CallError) →
    C → LimitedWriter → C * LimitedWriter * result nat CallError;
  tls_process : C → C * result unit string
}.

Inductive ControlError :=
| CtlManifest (e : ManifestError)
| CtlRustls (e : string)
| CtlIo (e : CallError)
| CtlUnexpectedEof
| CtlAlpnNotNegotiated
| CtlMissingPeerCertificate
| CtlUnexpectedPeerCertificateChain (count : Z)
| CtlPeerCertificatePinMismatch
| CtlUnexpectedProtocolVersion
| CtlHandshakeWireBudgetExceeded
| CtlHandshakeStepBudgetExceeded.

(** ** What [rustls] documents *)

(** The data a sequence of answers still holds. *)
Fixpoint data_bytes (events : list ReadEvent) : nat :=
  match events with
  | [] => 0
  | RdData l :: events => length l + data_bytes events
  | _ :: events => data_bytes events
  end.

(** Calls of a writer's [write], and the bytes they reported. *)
Inductive write_calls {W} (f : bytes → W → W * result nat CallError) :
    W → list (result nat CallError) → W → Prop :=
| WcNil w : write_calls f w [] w
| WcCons w buffer w1 r rs w2 :
    f buffer w = (w1, r) → write_calls f w1 rs w2 → write_calls f w (r :: rs) w2.

Definition reported (rs : list (result nat CallError)) : nat :=
  foldr (λ r n, match r with Ok k => k + n | Err _ => n end)%nat 0%nat rs.

(** [read_tls] takes what it reports from the reader and no more than the reader
    gives; [write_tls] reaches the writer through [write] and reports the sum. *)
Class TlsLaws (C : Type) `{TC : !TlsConnection C} : Prop := {
  tls_read_bounded n c events c' events' r : tls_read n c events = (c', events', r) →
    (data_bytes events' ≤ data_bytes events ≤ data_bytes events' + n)%nat
    ∧ ∀ k, r = Ok k → data_bytes events = (data_bytes events' + k)%nat;
  tls_write_calls f c w c' w' r : tls_write f c w = (c', w', r) →
    ∃ rs, write_calls f w rs w' ∧ ∀ k, r = Ok k → k = reported rs
}.

Section Server.
Context {C : Type} `{TC : !TlsConnection C}.
Context (sha256 : bytes → bytes) (check_key : LaunchManifest → result unit ManifestError).

Record ControlServer := mkServer {
  srv_connection : C;
  srv_pin : bytes;
  srv_expectations : EstablishmentExpectations
}.

Record EstablishedPeer := mkPeer { peer_certificate : bytes; peer_pin : bytes }.

Record ControlSession := mkSession {
  ses_connection : C;
  ses_stream : Stream;
  ses_peer : EstablishedPeer;
  ses_expectations : EstablishmentExpectations
}.

(** [ControlServer::new] with [ControlServerHandshake::new] *)
Definition server_new (m : LaunchManifest) : result ControlServer ControlError :=
  try! _ := map_err CtlManifest (validate_non_key m) in
  try! _ := map_err CtlManifest (check_key m) in
  try! c := map_err CtlRustls (tls_new m) in
  Ok (mkServer c (sha256 m.(key_material).(core_certificate_der)) (expectations_from_manifest sha256 m)).

(** [PinnedClientCertVerifier::verify_client_cert] *)
Definition verify_client_cert (pin end_entity : bytes) (intermediates : list bytes) : bool :=
  bool_decide (intermediates = []) && bool_decide (sha256 end_entity = pin).

(** [ControlServerHandshake::established_peer] *)
Definition established_peer (pin : bytes) (c : C) : result (option EstablishedPeer) ControlError :=
  if tls_handshaking c then Ok None
  else if negb (tls_is_13 c) then Err CtlUnexpectedProtocolVersion
  else if negb (bool_decide (tls_alpn c = Some CONTROL_ALPN)) then Err CtlAlpnNotNegotiated
  else
    match tls_peer_certificates c with
    | None => Err CtlMissingPeerCertificate
    | Some [certificate] =>
        if bool_decide (sha256 certificate = pin) then
          Ok (Some (mkPeer certificate (sha256 certificate)))
        else Err CtlPeerCertificatePinMismatch
    | Some certificates => Err (CtlUnexpectedPeerCertificateChain (len certificates))
    end.

(** The counters of the loop. *)
Record Handshake := mkHandshake {
  hs_connection : C;
  hs_stream : Stream;
  received_wire : Z;
  sent_wire : Z
}.

(** [checked_sub] of a budget, and the test for what is left of it. *)
Definition budget_left (used : Z) : option nat :=
  if used <? TLS_PREAUTH_WIRE_MAX_BYTES then Some (Z.to_nat (TLS_PREAUTH_WIRE_MAX_BYTES - used)) else None.

(** The read of one iteration. *)
Definition handshake_read (h : Handshake) : Handshake * result unit ControlError :=
  if tls_wants_read h.(hs_connection) then
    match budget_left h.(received_wire) with
    | None => (h, Err CtlHandshakeWireBudgetExceeded)
    | Some room =>
        let '(c, events, r) := tls_read room h.(hs_connection) h.(hs_stream).(incoming) in
        let s := mkStream events h.(hs_stream).(accepts) h.(hs_stream).(flushes) h.(hs_stream).(written) in
        match r with
        | Err e => (mkHandshake c s h.(received_wire) h.(sent_wire), Err (CtlIo e))
        | Ok O => (mkHandshake c s h.(received_wire) h.(sent_wire), Err CtlUnexpectedEof)
        | Ok n =>
            match checked_add64 h.(received_wire) (Z.of_nat n) with
            | None => (mkHandshake c s h.(received_wire) h.(sent_wire), Err CtlHandshakeWireBudgetExceeded)
            | Some total => (mkHandshake c s total h.(sent_wire), Ok tt)
            end
        end
    end
  else (h, Ok tt).

(** The [while handshake.wants_write()] loop. *)
Fixpoint handshake_write (fuel : nat) (h : Handshake) : Handshake * run (result unit ControlError) :=
  match fuel with
  | O => (h, OutOfFuel)
  | S fuel =>
      if tls_wants_write h.(hs_connection) then
        match budget_left h.(sent_wire) with
        | None => (h, Returned (Err CtlHandshakeWireBudgetExceeded))
        | Some room =>
            let '(c, w, r) := tls_write limited_write h.(hs_connection) (mkLimited h.(hs_stream) room false) in
            let h1 := mkHandshake c w.(inner) h.(received_wire) h.(sent_wire) in
            match r with
            | Err e =>
                (h1, Returned (Err (if w.(exhausted) then CtlHandshakeWireBudgetExceeded else CtlIo e)))
            | Ok O => (h1, Returned (Err (CtlIo (Some "write zero"))))
            | Ok n =>
                match checked_add64 h.(sent_wire) (Z.of_nat n) with
                | None => (h1, Returned (Err CtlHandshakeWireBudgetExceeded))
                | Some total => handshake_write fuel (mkHandshake c w.(inner) h.(received_wire) total)
                end
            end
        end
      else (h, Returned (Ok tt))
  end.

(** Every iteration of that loop uses up budget. *)
Definition write_fuel : nat := S (Z.to_nat TLS_PREAUTH_WIRE_MAX_BYTES).

(** The [for] loop of [ControlServer::accept]. *)
Fixpoint accept_loop (steps : nat) (pin : bytes) (h : Handshake) :
    Handshake * run (result EstablishedPeer ControlError) :=
  match steps with
  | O => (h, Returned (Err CtlHandshakeStepBudgetExceeded))
  | S steps =>
      match handshake_read h with
      | (h, Err e) => (h, Returned (Err e))
      | (h, Ok _) =>
          match tls_process h.(hs_connection) with
          | (c, Err e) =>
              (mkHandshake c h.(hs_stream) h.(received_wire) h.(sent_wire), Returned (Err (CtlRustls e)))
          | (c, Ok _) =>
              match handshake_write write_fuel
                      (mkHandshake c h.(hs_stream) h.(received_wire) h.(sent_wire)) with
              | (h, Returned (Ok _)) =>
                  match established_peer pin h.(hs_connection) with
                  | Err e => (h, Returned (Err e))
                  | Ok (Some peer) => (h, Returned (Ok peer))
                  | Ok None => accept_loop steps pin h
                  end
              | (h, Returned (Err e)) => (h, Returned (Err e))
              | (h, Panicked) => (h, Panicked)
              | (h, OutOfFuel) => (h, OutOfFuel)
              end
          end
      end
  end.

(** [ControlServer::accept]: the stream as it was left, and the session. *)
Definition accept (server : ControlServer) (s : Stream) :
    Stream * run (result ControlSession ControlError) :=
  match accept_loop TLS_PREAUTH_STEPS_MAX server.(srv_pin) (mkHandshake server.(srv_connection) s 0 0) with
  | (h, Returned (Ok peer)) =>
      (h.(hs_stream),
       Returned (Ok (mkSession h.(hs_connection) h.(hs_stream) peer server.(srv_expectations))))
  | (h, Returned (Err e)) => (h.(hs_stream), Returned (Err e))
  | (h, Panicked) => (h.(hs_stream), Panicked)
  | (h, OutOfFuel) => (h.(hs_stream), OutOfFuel)
  end.

(** ** The writer's bound *)

Lemma write_call_spec l s s' r : write_call l s = (s', r) →
  ∃ taken, written s' = written s ++ taken ∧ incoming s' = incoming s
    ∧ (length taken ≤ length l)%nat
    ∧ match r with Ok n => n = length taken | Err _ => taken = [] end.
Proof.
  unfold write_call. destruct (accepts s) as [|[n| |e] answers]; intros [= <- <-]; simpl.
  - by exists l.
  - exists (take n l). split_and!; try done. rewrite length_take. lia.
  - exists []. rewrite app_nil_r. split_and!; try done. simpl. lia.
  - exists []. rewrite app_nil_r. split_and!; try done. simpl. lia.
Qed.

Lemma limited_write_spec buffer w w' r : limited_write buffer w = (w', r) →
  ∃ taken, written (inner w') = written (inner w) ++ taken ∧ incoming (inner w') = incoming (inner w)
    ∧ (length taken + remaining w' = remaining w)%nat
    ∧ match r with Ok n => n = length taken | Err _ => taken = [] end.
Proof.
  unfold limited_write. destruct (remaining w) as [|k] eqn:Hk.
  - intros [= <- <-]. exists []. simpl. rewrite app_nil_r. by split_and!.
  - destruct (write_call _ _) as [s [n|e]] eqn:E1; intros [= <- <-];
      apply write_call_spec in E1 as (taken & Hw & Hi & Hlen & Hr); exists taken; simpl.
    + subst n. rewrite length_take in Hlen. split_and!; [done|done|lia|done].
    + subst taken. split_and!; [done|done|simpl; lia|done].
Qed.

(** However often the connection writes, the bytes that pass are those it reports,
    and no more than the writer was given. *)
Lemma limited_calls w rs w' : write_calls limited_write w rs w' →
  ∃ taken, written (inner w') = written (inner w) ++ taken ∧ incoming (inner w') = incoming (inner w)
    ∧ (length taken + remaining w' = remaining w)%nat ∧ reported rs = length taken.
Proof.
  induction 1 as [w|w buffer w1 r rs w2 E1 _ (t2 & Hw2 & Hi2 & Hl2 & Hr2)].
  - exists []. rewrite app_nil_r. by split_and!.
  - apply limited_write_spec in E1 as (t1 & Hw1 & Hi1 & Hl1 & Hr1). exists (t1 ++ t2).
    rewrite Hw2, Hw1, app_assoc, length_app, Hi2, Hi1. split_and!; [done|done|lia|].
    simpl. destruct r as [n|e]; [subst n; lia|by subst t1].
Qed.

(** ** Budgets *)

Context `{!TlsLaws C}.

(** The traffic since [s0], counted exactly. *)
Record counted (s0 : Stream) (h : Handshake) : Prop := {
  cnt_sent : ∃ taken, written (hs_stream h) = written s0 ++ taken ∧ len taken = sent_wire h;
  cnt_received : Z.of_nat (data_bytes (incoming s0))
                 = Z.of_nat (data_bytes (incoming (hs_stream h))) + received_wire h;
  cnt_sent_max : 0 ≤ sent_wire h ≤ TLS_PREAUTH_WIRE_MAX_BYTES;
  cnt_received_max : 0 ≤ received_wire h ≤ TLS_PREAUTH_WIRE_MAX_BYTES
}.

(** The traffic between two states of the stream, bounded. *)
Definition within_budget (s0 s : Stream) : Prop :=
  (∃ taken, written s = written s0 ++ taken ∧ len taken ≤ TLS_PREAUTH_WIRE_MAX_BYTES)
  ∧ (data_bytes (incoming s) ≤ data_bytes (incoming s0))%nat
  ∧ Z.of_nat (data_bytes (incoming s0)) - Z.of_nat (data_bytes (incoming s)) ≤ TLS_PREAUTH_WIRE_MAX_BYTES.

Lemma counted_within s0 h : counted s0 h → within_budget s0 (hs_stream h).
Proof. intros [(taken & Hw & Ht) Hr Hs Hm]. split_and!; [exists taken; split; [done|lia]|lia|lia]. Qed.

Lemma budget_left_spec used n : budget_left used = Some n →
  Z.of_nat n = TLS_PREAUTH_WIRE_MAX_BYTES - used ∧ used < TLS_PREAUTH_WIRE_MAX_BYTES.
Proof. unfold budget_left. destruct (Z.ltb_spec used TLS_PREAUTH_WIRE_MAX_BYTES); [intros [= <-]; lia|done]. Qed.

Lemma handshake_read_spec s0 h h' r : counted s0 h → handshake_read h = (h', r) →
  match r with Ok _ => counted s0 h' | Err _ => within_budget s0 (hs_stream h') end.
Proof.
  intros Hc. unfold handshake_read. case_if; [|by intros [= <- <-]].
  destruct (budget_left (received_wire h)) as [room|] eqn:Hb;
    [|intros [= <- <-]; by apply counted_within].
  apply budget_left_spec in Hb as [Hroom Hlt].
  destruct (tls_read room _ _) as [[c events] r1] eqn:E1.
  apply tls_read_bounded in E1 as [Hb1 Hk]. destruct Hc as [(taken & Hw & Ht) Hr Hs Hm].
  assert (within_budget s0 (mkStream events (accepts (hs_stream h)) (flushes (hs_stream h))
    (written (hs_stream h)))) as Hin.
  { split_and!; simpl; [exists taken; split; [done|lia]|lia|lia]. }
  destruct r1 as [[|n]|e]; [by intros [= <- <-]| |by intros [= <- <-]].
  specialize (Hk _ eq_refl).
  destruct (checked_add64 _ _) as [total|] eqn:Ht'; [|by intros [= <- <-]].
  unfold checked_add64 in Ht'. case_if_in Ht'; [|done]. injection Ht' as <-.
  intros [= <- <-]. constructor; simpl; [by exists taken|lia|lia|lia].
Qed.

Lemma handshake_write_spec s0 fuel : ∀ h h' r, counted s0 h →
  (Z.to_nat (TLS_PREAUTH_WIRE_MAX_BYTES - sent_wire h) < fuel)%nat →
  handshake_write fuel h = (h', r) →
  match r with
  | Returned (Ok _) => counted s0 h'
  | Returned (Err _) => within_budget s0 (hs_stream h')
  | _ => False
  end.
Proof.
  induction fuel as [|fuel IH]; intros h h' r Hc Hf; [lia|]. cbn [handshake_write].
  case_if; [|by intros [= <- <-]].
  destruct (budget_left (sent_wire h)) as [room|] eqn:Hb; [|intros [= <- <-]; by apply counted_within].
  apply budget_left_spec in Hb as [Hroom Hlt].
  destruct (tls_write _ _ _) as [[c w] r1] eqn:E1.
  apply tls_write_calls in E1 as (rs & Hcalls & Hrep).
  apply limited_calls in Hcalls as (t & Hw & Hi & Hl & Hsum). simpl in *.
  destruct Hc as [(taken & Hw0 & Ht0) Hr Hs Hm].
  assert (within_budget s0 (inner w)) as Hin.
  { split_and!; [exists (taken ++ t)|rewrite Hi; lia|rewrite Hi; lia].
    rewrite Hw, Hw0, app_assoc. split; [done|]. unfold len in *. rewrite length_app. lia. }
  destruct r1 as [[|n]|e]; [by intros [= <- <-]| |by intros [= <- <-]].
  specialize (Hrep _ eq_refl).
  destruct (checked_add64 _ _) as [total|] eqn:Ht'; [|by intros [= <- <-]].
  unfold checked_add64 in Ht'. case_if_in Ht'; [|done]. injection Ht' as <-.
  apply IH; simpl; [|lia]. constructor; simpl; [|rewrite Hi; lia|lia|lia].
  exists (taken ++ t). rewrite Hw, Hw0, app_assoc. split; [done|].
  unfold len in *. rewrite length_app. lia.
Qed.

Lemma accept_loop_spec s0 pin steps : ∀ h h' r, counted s0 h →
  accept_loop steps pin h = (h', r) →
  within_budget s0 (hs_stream h')
  ∧ match r with
    | Returned (Ok peer) => established_peer pin (hs_connection h') = Ok (Some peer)
    | Returned (Err _) => True
    | _ => False
    end.
Proof.
  induction steps as [|steps IH]; intros h h' r Hc; cbn [accept_loop].
  { intros [= <- <-]. split; [by apply counted_within|done]. }
  destruct (handshake_read h) as [h1 [[]|e]] eqn:E1;
    pose proof (handshake_read_spec _ _ _ _ Hc E1) as Hc1; [|by intros [= <- <-]].
  destruct (tls_process (hs_connection h1)) as [c [[]|e]];
    [|intros [= <- <-]; split; [by apply (counted_within _ _ Hc1)|done]].
  set (h2 := mkHandshake c (hs_stream h1) (received_wire h1) (sent_wire h1)).
  assert (counted s0 h2) as Hc2 by (by destruct Hc1; constructor).
  assert (Z.to_nat (TLS_PREAUTH_WIRE_MAX_BYTES - sent_wire h2) < write_fuel)%nat as Hfuel.
  { pose proof (cnt_sent_max _ _ Hc2). unfold write_fuel. lia. }
  destruct (handshake_write write_fuel h2) as [h3 r3] eqn:E3.
  pose proof (handshake_write_spec s0 _ _ _ _ Hc2 Hfuel E3) as Hc3.
  destruct r3 as [[[]|e]| |]; [|by intros [= <- <-]|done|done].
  destruct (established_peer pin (hs_connection h3)) as [[peer|]|e] eqn:E4.
  - intros [= <- <-]. split; [by apply counted_within|done].
  - by apply IH.
  - intros [= <- <-]. split; [by apply counted_within|done].
Qed.

Lemma accept_cases server s : ∃ s' r, accept server s = (s', Returned r) ∧ within_budget s s'
  ∧ ∀ ses, r = Ok ses → established_peer (srv_pin server) (ses_connection ses) = Ok (Some (ses_peer ses))
      ∧ ses_expectations ses = srv_expectations server ∧ ses_stream ses = s'.
Proof.
  unfold accept. destruct (accept_loop _ _ _) as [h r] eqn:E1.
  apply (accept_loop_spec s) in E1 as [Hb Hr].
  - destruct r as [[peer|e]| |]; [| |done|done]; eexists _, _; (split_and!; [done|done|]).
    + by intros ses [= <-].
    + done.
  - constructor; simpl; [|lia|unfold TLS_PREAUTH_WIRE_MAX_BYTES; lia..].
    exists []. by rewrite app_nil_r.
Qed.

(** The handshake ends: whatever peer and connection do, [accept] returns within
    its step budget, and before anything is authenticated at most the wire budget
    has been read from the stream and written to it, on every outcome. *)
Theorem accept_bounded server s :
  ∃ s' r, accept server s = (s', Returned r) ∧ within_budget s s'.
Proof. destruct (accept_cases server s) as (s' & r & H & Hb & _). eauto. Qed.

Lemma established_peer_spec pin c peer : established_peer pin c = Ok (Some peer) ↔
  tls_handshaking c = false ∧ tls_is_13 c = true ∧ tls_alpn c = Some CONTROL_ALPN
  ∧ tls_peer_certificates c = Some [peer_certificate peer]
  ∧ peer_pin peer = pin ∧ sha256 (peer_certificate peer) = pin.
Proof.
  unfold established_peer. split.
  - destruct (tls_handshaking c); [done|]. destruct (tls_is_13 c); simpl; [|done].
    case_bool_decide; simpl; [|done]. destruct (tls_peer_certificates c) as [[|cert [|]]|]; try done.
    case_bool_decide; [|done]. intros [= <-]. by split_and!.
  - intros (-> & -> & -> & -> & Hp & Hs). simpl. rewrite bool_decide_eq_true_2 by done. simpl.
    destruct peer; simpl in *. congruence.
Qed.

(** A session is exposed only for the launch's own peer: the handshake is over, on
    TLS 1.3 and with the control protocol negotiated, the peer showed exactly one
    certificate, its digest is the one the manifest pins, and the session carries
    the expectations of that manifest. *)
Theorem accept_pinned m server s s' ses : server_new m = Ok server →
  accept server s = (s', Returned (Ok ses)) →
  validate_non_key m = Ok tt ∧ check_key m = Ok tt
  ∧ tls_handshaking (ses_connection ses) = false ∧ tls_is_13 (ses_connection ses) = true
  ∧ tls_alpn (ses_connection ses) = Some CONTROL_ALPN
  ∧ tls_peer_certificates (ses_connection ses) = Some [peer_certificate (ses_peer ses)]
  ∧ verify_client_cert (sha256 (core_certificate_der (key_material m))) (peer_certificate (ses_peer ses)) []
    = true
  ∧ ses_expectations ses = expectations_from_manifest sha256 m.
Proof.
  intros Hnew Hacc. destruct (accept_cases server s) as (s1 & r & H & _ & Hr).
  rewrite Hacc in H. injection H as <- <-. destruct (Hr _ eq_refl) as (Hp & Hx & _).
  apply established_peer_spec in Hp as (H1 & H2 & H3 & H4 & _ & H6). unfold server_new in Hnew.
  destruct (validate_non_key m) as [[]|]; [|done]. destruct (check_key m) as [[]|]; [|done].
  simpl in Hnew. destruct (tls_new m) as [c|]; [|done]. injection Hnew as <-.
  split_and!; try done. unfold verify_client_cert. apply andb_true_intro. by split; apply bool_decide_eq_true_2.
Qed.

End Server.
