(* ===== verification/Helper.v ===== *)
(** * Helper: the launch of the helper process

    Models [entrypoint.rs] of [crates/bitty-ai-control]: one manifest from the
    bootstrap channel, the pinned handshake of [Server.v] over the control stream,
    then the state machine of [Control.v] until the peer closes authority or
    something fails.  The plain stream inside the TLS session is a parameter. *)

From S2P Require Import Prelude Text Wire Manifest IpcApi Framing Control ControlSpec ControlRefine ControlSafety Server.

Local Open Scope Z_scope.

(** [HelperExit] *)
Inductive HelperExit :=
| ExitAuthorityClosed
| ExitPeerClosed
| ExitUnsupportedPlatform
| ExitBootstrapIo
| ExitBootstrapManifest
| ExitBootstrapTrailingData
| ExitServerConfiguration
| ExitHandshake
| ExitEstablish
| ExitControl.

(** [HelperExit::code] *)
Definition exit_code (e : HelperExit) : Z :=
  match e with
  | ExitAuthorityClosed | ExitPeerClosed => 0
  | ExitUnsupportedPlatform => 2
  | ExitBootstrapIo => 3
  | ExitBootstrapManifest => 4
  | ExitBootstrapTrailingData => 5
  | ExitServerConfiguration => 6
  | ExitHandshake => 7
  | ExitEstablish => 8
  | ExitControl => 9
  end.

Section Helper.
Context `{A : PublicationApi} `{!PublicationLaws A}.
Context {R E C : Type} `{RV : !RegistryView Projection R} `{SR : !SecureRandom E}.
Context `{TC : !TlsConnection C} `{!TlsLaws C}.
Context (allocates : Z → bool) (sha256 : bytes → bytes)
  (check_key : LaunchManifest → result unit ManifestError) (plain : C → Stream → Stream).

Abbreviation State := (HelperControl (R := R) (E := E)).

Definition require_bootstrap_eof (events : list ReadEvent) : result unit HelperExit :=
  match (read_call 1 events).2 with
  | Ok [] => Ok tt
  | Ok _ => Err ExitBootstrapTrailingData
  | Err _ => Err ExitBootstrapIo
  end.

(** The [loop] over [step]. *)
Fixpoint step_loop (fuel : nat) (s : State) : State * run HelperExit :=
  match fuel with
  | O => (s, OutOfFuel)
  | S fuel =>
      match step allocates s with
      | (s, Ok (AuthorityClosed _)) => (s, Returned ExitAuthorityClosed)
      | (s, Ok (PeerError _)) => (s, Returned ExitPeerClosed)
      | (s, Ok _) => step_loop fuel s
      | (s, Err _) => (s, Returned ExitControl)
      end
  end.

(** From an authenticated session on: establishment and the loop. *)
Definition drive (s : State) : State * run HelperExit :=
  match establish allocates s with
  | (s, Err _) => (s, Returned ExitEstablish)
  | (s, Ok _) => step_loop (S (length (deliverable s.(stream).(incoming)))) s
  end.

(** The launch up to the state machine. *)
Definition launch (bootstrap : list ReadEvent) (control : Stream) (g : R) (e : E) :
    run (result State HelperExit) :=
  match read_from check_key bootstrap with
  | (_, Returned (Err (ReadIo _))) => Returned (Err ExitBootstrapIo)
  | (_, Returned (Err (ReadManifest _))) => Returned (Err ExitBootstrapManifest)
  | (bootstrap, Returned (Ok m)) =>
      match require_bootstrap_eof bootstrap with
      | Err exit => Returned (Err exit)
      | Ok _ =>
          match server_new sha256 check_key m with
          | Err _ => Returned (Err ExitServerConfiguration)
          | Ok server =>
              match accept sha256 server control with
              | (_, Returned (Ok ses)) =>
                  Returned (Ok (with_expectations (plain ses.(ses_connection) ses.(ses_stream)) g e
                                  ses.(ses_expectations)))
              | (_, Returned (Err _)) => Returned (Err ExitHandshake)
              | (_, Panicked) => Panicked
              | (_, OutOfFuel) => OutOfFuel
              end
          end
      end
  | (_, Panicked) => Panicked
  | (_, OutOfFuel) => OutOfFuel
  end.

(** [run_helper_on_platform]; [run_helper] is its use with the target's platform. *)
Definition run_helper_on_platform (platform_supported : bool) (bootstrap : list ReadEvent)
    (control : Stream) (g : R) (e : E) : run HelperExit :=
  if negb platform_supported then Returned ExitUnsupportedPlatform
  else
    match launch bootstrap control g e with
    | Returned (Ok s) => (drive s).2
    | Returned (Err exit) => Returned exit
    | Panicked => Panicked
    | OutOfFuel => OutOfFuel
    end.

(** ** The loop *)

Lemma step_consumes base s s' r : control_reach allocates base s → step allocates s = (s', Ok r) →
  (length (deliverable (incoming (stream s'))) < length (deliverable (incoming (stream s))))%nat.
Proof.
  intros [h Himpl]%reach_implements H. destruct (impl_torn _ _ _ Himpl) as [Hw _].
  apply step_ok in H as (body & s2 & (events & Hread & ->) & sent & a' & _ & _ & Hc); [|done].
  rewrite (comm_incoming _ _ _ Hc). by eapply read_record_consumes.
Qed.

Lemma step_reach base s : control_reach allocates base s → control_reach allocates base (step allocates s).1.
Proof. intros H. exact (CrOp _ _ OpStep _ H). Qed.

(** The loop ends, in a state the machine reaches; on success the Core ended it. *)
Lemma step_loop_spec base fuel : ∀ s, control_reach allocates base s →
  (length (deliverable (incoming (stream s))) < fuel)%nat →
  ∃ s' exit, step_loop fuel s = (s', Returned exit) ∧ control_reach allocates base s'
    ∧ match exit with
      | ExitAuthorityClosed => revocation s' = Some RevPeerWithdrewAuthority
      | ExitPeerClosed => revocation s' = Some RevPeerError
      | ExitControl => True
      | _ => False
      end.
Proof.
  induction fuel as [|fuel IH]; intros s Hr Hf; [lia|]. cbn [step_loop].
  pose proof (step_reach _ _ Hr) as Hr'. destruct (step allocates s) as [s1 [r|e]] eqn:E1; simpl in Hr'.
  - pose proof (step_consumes _ _ _ _ Hr E1) as Hlt.
    destruct (reach_implements _ _ _ Hr) as [h Himpl]. destruct (impl_torn _ _ _ Himpl) as [Hw _].
    pose proof (step_reason_ok _ _ _ _ Hw E1) as Hreason.
    destruct r; try (apply IH; [done|lia]).
    + by exists s1, ExitAuthorityClosed.
    + by exists s1, ExitPeerClosed.
  - by exists s1, ExitControl.
Qed.

(** ** The launch *)

Lemma read_from_returns events : ∃ events' r, read_from check_key events = (events', Returned r).
Proof.
  unfold read_from.
  destruct (read_from_loop_returns (S (stream_size events)) events []) as (ev & r & ->); [lia|].
  destruct r; eauto.
Qed.

(** Every way through the launch: refused with its exit, or a state machine on an
    accepted session of the manifest. *)
Lemma launch_cases bootstrap control g e :
  (∃ exit, launch bootstrap control g e = Returned (Err exit) ∧ exit_code exit ≠ 0)
  ∨ ∃ m events server control' ses,
      read_from check_key bootstrap = (events, Returned (Ok m)) ∧ require_bootstrap_eof events = Ok tt
      ∧ server_new sha256 check_key m = Ok server
      ∧ accept sha256 server control = (control', Returned (Ok ses))
      ∧ launch bootstrap control g e
        = Returned (Ok (with_expectations (plain (ses_connection ses) (ses_stream ses)) g e
                          (ses_expectations ses))).
Proof.
  unfold launch. destruct (read_from_returns bootstrap) as (events & r & E1). rewrite E1.
  destruct r as [m|[io|me]]; [|left; by eexists..].
  destruct (require_bootstrap_eof events) as [[]|exit] eqn:E2.
  - destruct (server_new sha256 check_key m) as [server|ce] eqn:E3; [|left; by eexists].
    destruct (accept_cases sha256 server control) as (control' & r & E4 & _). rewrite E4.
    destruct r as [ses|ce]; [right|left; by eexists]. by exists m, events, server, control', ses.
  - left. exists exit. split; [done|]. unfold require_bootstrap_eof in E2.
    destruct ((read_call 1 events).2) as [[|]|]; simplify_eq; done.
Qed.

Lemma drive_cases s : control_reach allocates (written (stream s)) s →
  ∃ s' exit, drive s = (s', Returned exit) ∧ control_reach allocates (written (stream s)) s'
    ∧ (exit_code exit = 0 →
       (∃ echo, transition allocates s (Some (BodyEstablish echo)) (establish allocates s).1)
       ∧ (revocation s' = Some RevPeerWithdrewAuthority ∨ revocation s' = Some RevPeerError)).
Proof.
  intros Hr. unfold drive. pose proof (CrOp _ _ OpEstablish _ Hr) as Hr1. simpl in Hr1.
  destruct (establish allocates s) as [s1 [[]|e]] eqn:E1; simpl in *; [|by exists s1, ExitEstablish].
  destruct (reach_implements _ _ _ Hr) as [h Himpl]. destruct (impl_torn _ _ _ Himpl) as [Hw _].
  apply establish_ok in E1 as [echo Htr]; [|done].
  destruct (step_loop_spec _ _ s1 Hr1 (Nat.lt_succ_diag_r _)) as (s' & exit & E2 & Hr2 & Hx).
  exists s', exit. split_and!; [done|done|]. intros Hz. split; [by exists echo|].
  destruct exit; eauto; done.
Qed.

(** The helper process ends: for every bootstrap channel, control stream, peer,
    registry and random source, [run_helper] returns an exit. *)
Theorem helper_returns platform bootstrap control g e :
  ∃ exit, run_helper_on_platform platform bootstrap control g e = Returned exit.
Proof.
  unfold run_helper_on_platform. destruct platform; simpl; [|eauto].
  destruct (launch_cases bootstrap control g e) as [(exit & -> & _)|(m & ev & srv & c & ses & _ & _ & _ & _ & ->)];
    [eauto|].
  destruct (drive_cases (with_expectations (plain (ses_connection ses) (ses_stream ses)) g e
    (ses_expectations ses))) as (s' & exit & -> & _); [by apply CrNew|eauto].
Qed.


End Helper.
