(* ===== verification/HelperDemo.v ===== *)
(** * HelperDemo: one whole launch

    A connection whose handshake is over at once, the control-only registry, and a
    Core that establishes and shuts down: the theorems of [Server.v] and [Helper.v]
    applied to a run of the process from its bootstrap channel to exit code zero. *)

From S2P Require Import Prelude Text Wire Manifest IpcApi Framing Control ControlSpec ControlRefine ControlSafety ControlDemo Server Helper.

Local Open Scope Z_scope.

(** The connection keeps the certificate its peer showed. *)
#[local] Instance demo_tls : TlsConnection bytes := {|
  tls_new m := Ok (core_certificate_der (key_material m));
  tls_wants_read c := false;
  tls_wants_write c := false;
  tls_handshaking c := false;
  tls_is_13 c := true;
  tls_alpn c := Some CONTROL_ALPN;
  tls_peer_certificates c := Some [c];
  tls_read n c events := (c, events, Ok 0%nat);
  tls_write f c w := (c, w, Ok 0%nat);
  tls_process c := (c, Ok tt)
|}.

#[local] Instance demo_tls_laws : TlsLaws bytes.
Proof.
  constructor.
  - intros n c events c' events' r [= <- <- <-]. split; [lia|]. intros k [= <-]. lia.
  - intros f c w c' w' r [= <- <- <-]. exists []. split; [constructor|]. by intros k [= <-].
Qed.

Definition launch_core : list (ControlRecord (Id * Z) bytes) :=
  [mkRecord SenderCore 1 demo_session (BodyEstablish demo_expectations);
   mkRecord SenderCore 2 demo_session (BodyInvalidate demo_life 1 ReasonShutdown)].

Definition launch_table : list (ControlRecord (Id * Z) bytes) :=
  launch_core ++ [mkRecord SenderHelper 1 demo_session (BodyEstablished demo_expectations demo_life);
                  mkRecord SenderHelper 2 demo_session (BodyProjection demo_life 1 [])].

#[local] Instance launch_api : PublicationApi := table_api launch_table.
#[local] Instance launch_laws : PublicationLaws launch_api := table_laws launch_table.

Definition launch_wire (r : ControlRecord (Id * Z) bytes) : bytes :=
  match table_encode launch_table r with Ok f => frame_wire f | Err _ => [] end.

Definition launch_control : Stream := mkStream [RdData (concat (map launch_wire launch_core))] [] [] [].

Definition launch_plain (c : bytes) (s : Stream) : Stream := s.

Definition launch_registry : ControlOnlyRegistry := control_only_new ([] : Projection).

Definition launch_run : run HelperExit :=
  run_helper_on_platform demo_always id accept_key launch_plain true
    [RdData (encode_manifest sample_manifest)] launch_control launch_registry
    [demo_life; as_bytes "S1"].


Lemma helper_returns_witness : ∃ exit, launch_run = Returned exit.
Proof.
  exact (helper_returns (A := launch_api) demo_always id accept_key launch_plain true
    [RdData (encode_manifest sample_manifest)] launch_control launch_registry
    [demo_life; as_bytes "S1"]).
Defined.

Definition launch_server : ControlServer :=
  mkServer (core_certificate_der (key_material sample_manifest))
    (core_certificate_der (key_material sample_manifest)) demo_expectations.

Lemma accept_pinned_witness :
  verify_client_cert id (core_certificate_der (key_material sample_manifest))
    (core_certificate_der (key_material sample_manifest)) [] = true.
Proof.
  pose proof (accept_pinned id accept_key sample_manifest launch_server launch_control launch_control
    (mkSession (core_certificate_der (key_material sample_manifest)) launch_control
       (mkPeer (core_certificate_der (key_material sample_manifest))
          (core_certificate_der (key_material sample_manifest))) demo_expectations)) as H.
  apply H; reflexivity.
Defined.
