(* ===== verification/Search.v ===== *)
(** * Search: work lists

    The parts every graph search of the sources shares: a set of identifiers seen and
    a queue of those still to visit, and the counting that bounds the loops. *)

From stdpp Require Import gmap.
From S2P Require Import Prelude.

Local Open Scope Z_scope.

(** [visited.insert] and [queue.push_back] for each of the new identifiers. *)
Fixpoint enqueue_new (visited : gset string) (queue ids : list string) : gset string * list string :=
  match ids with
  | [] => (visited, queue)
  | id :: ids =>
      if bool_decide (id ∈ visited) then enqueue_new visited queue ids
      else enqueue_new ({[id]} ∪ visited) (queue ++ [id]) ids
  end.

Lemma size_seen (T visited : gset string) id : id ∈ T → (id ∉ visited) →
  size (T ∖ visited) = S (size (T ∖ ({[id]} ∪ visited))).
Proof.
  intros HT Hv. assert (T ∖ visited = {[id]} ∪ T ∖ ({[id]} ∪ visited)) as ->.
  { apply set_eq. intros x. rewrite elem_of_union, !elem_of_difference, elem_of_union, elem_of_singleton.
    destruct (decide (x = id)) as [->|]; [tauto|]. tauto. }
  rewrite size_union, size_singleton; [done|]. intros x. rewrite elem_of_difference. set_solver.
Qed.

(** Queueing the new identifiers: each is queued once, out of those not yet seen. *)
Lemma enqueue_new_spec (T : gset string) ids : ∀ visited queue v q,
  enqueue_new visited queue ids = (v, q) → (∀ id, id ∈ ids → id ∈ T) →
  (size (T ∖ v) + length q = size (T ∖ visited) + length queue)%nat
  ∧ (∀ x, x ∈ v ↔ x ∈ visited ∨ x ∈ ids)
  ∧ ∃ new, q = queue ++ new ∧ (∀ x, x ∈ new ↔ x ∈ ids ∧ (x ∉ visited)).
Proof.
  induction ids as [|id ids IH]; intros visited queue v q; cbn [enqueue_new].
  { intros [= <- <-] _. split_and!; [done|set_solver|]. exists []. rewrite app_nil_r. set_solver. }
  intros E Hin. assert (∀ x, x ∈ ids → x ∈ T) as Hin' by (intros; apply Hin; by apply elem_of_cons; right).
  case_bool_decide as Hv; apply IH in E as (Hsz & Hel & new & -> & Hnew); try done; clear IH.
  - split_and!; [done| |exists new; split; [done|]]; intros x; rewrite ?Hel, ?Hnew, elem_of_cons.
    all: destruct (decide (x = id)) as [->|]; tauto.
  - split_and!.
    + rewrite Hsz, length_app. simpl.
      assert (size (T ∖ visited) = S (size (T ∖ ({[id]} ∪ visited)))) as ->; [|lia].
      apply size_seen; [apply Hin, list_elem_of_here|done].
    + intros x. rewrite Hel, elem_of_cons, elem_of_union, elem_of_singleton. tauto.
    + exists (id :: new). rewrite <-app_assoc. split; [done|]. intros x.
      rewrite !elem_of_cons, Hnew, elem_of_union, elem_of_singleton.
      destruct (decide (x = id)) as [->|]; tauto.
Qed.
