(* ===== verification/TaskDag.v ===== *)
(** * TaskDag: the task engine

    Models [task_dag.rs] of [crates/bitty-ai-slice]: task identifiers and statuses,
    the dependency graph and every operation of [TaskEngine].  The two tables of the
    engine's database are the state: tasks by their primary key, dependencies as the
    rows in some order.  A statement of the sources is the update or the query it
    names; an operation that fails inside a transaction leaves the tables alone.
    The order of a query without [ORDER BY] is not specified: it is a parameter.
    Failures of the database itself are left out. *)

From stdpp Require Import gmap.
From S2P Require Import Prelude Text Order Search.

Local Open Scope Z_scope.
Local Open Scope rust_scope.

Definition MAX_TASK_ID_BYTES : Z := 128.
Definition MAX_TASK_TITLE_BYTES : Z := 256.
Definition MAX_TASK_DESC_BYTES : Z := 4096.
Definition MAX_AGENT_ID_BYTES : Z := 128.
Definition MAX_FAILURE_REASON_BYTES : Z := 2048.
Definition MAX_DEPENDENCIES_PER_TASK : Z := 128.

Inductive TaskStatus := Pending | ReadyStatus | Running | Blocked | Succeeded | Failed | Cancelled.

#[export] Instance TaskStatus_eq_dec : EqDecision TaskStatus.
Proof. solve_decision. Defined.

Abbreviation TaskId := string.

Inductive TaskEngineError :=
| TaskNotFound (id : TaskId)
| InvalidTaskId (text : string)
| InvalidStatusTransition (task_id : TaskId) (from to : TaskStatus)
| StaleGeneration (task_id : TaskId) (expected found : Z)
| CycleDetected (cycle : list TaskId)
| SelfDependency (id : TaskId)
| DuplicateTask (id : TaskId)
| DependencyNotFound (task_id prerequisite_id : TaskId)
| OversizedField (field : string) (size max : Z)
| EmptyField (field : string).

(** ** Identifiers and statuses *)

Definition is_ascii_alphanumeric (b : ascii) : bool :=
  is_ascii_lowercase b || is_ascii_uppercase b || is_ascii_digit b.

(** The bytes of an identifier: [-], [_], [.], [/] and alphanumerics. *)
Definition task_id_byte (b : ascii) : bool :=
  is_ascii_alphanumeric b || byte_eqb 45 b || byte_eqb 95 b || byte_eqb 46 b || byte_eqb 47 b.

Definition starts_with_byte (n : Z) (l : bytes) : bool :=
  match l with [] => false | b :: _ => byte_eqb n b end.

(** [TaskId::new] *)
Definition TaskId_new (s : string) : result TaskId TaskEngineError :=
  let s := trim s in
  let l := as_bytes s in
  if is_empty s then Err (EmptyField "task_id")
  else if slen s >? MAX_TASK_ID_BYTES then Err (OversizedField "task_id" (slen s) MAX_TASK_ID_BYTES)
  else if starts_with_byte 47 l || starts_with_byte 46 l
          || starts_with_byte 47 (rev l) || starts_with_byte 46 (rev l) then Err (InvalidTaskId s)
  else if contains "//" s || contains ".." s then Err (InvalidTaskId s)
  else if negb (str_forall task_id_byte s) then Err (InvalidTaskId s)
  else Ok s.

(** [TaskStatus::as_str] *)
Definition status_str (s : TaskStatus) : string :=
  match s with
  | Pending => "pending" | ReadyStatus => "ready" | Running => "running" | Blocked => "blocked"
  | Succeeded => "succeeded" | Failed => "failed" | Cancelled => "cancelled"
  end.

(** [TaskStatus::parse] *)
Definition status_parse (s : string) : result TaskStatus TaskEngineError :=
  if str_eqb s "pending" then Ok Pending
  else if str_eqb s "ready" then Ok ReadyStatus
  else if str_eqb s "running" then Ok Running
  else if str_eqb s "blocked" then Ok Blocked
  else if str_eqb s "succeeded" then Ok Succeeded
  else if str_eqb s "failed" then Ok Failed
  else if str_eqb s "cancelled" then Ok Cancelled
  else Err (InvalidTaskId ("unknown status: " +:+ s)).

(** [TaskStatus::is_terminal] *)
Definition is_terminal (s : TaskStatus) : bool :=
  match s with Succeeded | Failed | Cancelled => true | _ => false end.

(** ** Tables *)

Record TaskDraft := mkDraft {
  draft_id : TaskId;
  draft_title : string;
  draft_description : string;
  draft_priority : Z;
  draft_dependencies : list TaskId
}.

Record TaskNode := mkTask {
  task_id : TaskId;
  task_title : string;
  task_description : string;
  task_priority : Z;
  task_status : TaskStatus;
  assigned_agent : option string;
  generation : Z;
  checkpoint : option string;
  failure_reason : option string;
  created_at_ms : Z;
  updated_at_ms : Z
}.

(** The rows of [tasks] and of [task_dependencies] (prerequisite, dependent). *)
Record TaskEngine := mkEngine {
  tasks : gmap TaskId TaskNode;
  edges : list (TaskId * TaskId)
}.

Definition engine_new : TaskEngine := mkEngine ∅ [].

(** [n as i64] of a [u64], the value SQL compares. *)
Definition as_i64 (n : Z) : Z := if n <? 2 ^ 63 then n else n - 2 ^ 64.

(** [-prio] on [i32]. *)
Definition neg_i32 (n : Z) : Z := if n =? - 2 ^ 31 then n else - n.

(** [has_task] *)
Definition has_task (e : TaskEngine) (id : TaskId) : bool := bool_decide (is_Some (tasks e !! id)).

(** [get_task] and [query_task_on_conn] *)
Definition get_task (e : TaskEngine) (id : TaskId) : result TaskNode TaskEngineError :=
  match tasks e !! id with Some t => Ok t | None => Err (TaskNotFound id) end.

(** [query_prerequisites_on_conn], [ORDER BY prerequisite_id] *)
Definition query_prerequisites (e : TaskEngine) (id : TaskId) : list TaskId :=
  sort_by_key (λ s : string, s) (map fst (List.filter (λ d, str_eqb d.2 id) (edges e))).

(** [query_dependents_on_conn], [ORDER BY dependent_id] *)
Definition query_dependents (e : TaskEngine) (id : TaskId) : list TaskId :=
  sort_by_key (λ s : string, s) (map snd (List.filter (λ d, str_eqb d.1 id) (edges e))).

(** [get_dependencies] and [get_dependents] *)
Definition get_dependencies (e : TaskEngine) (id : TaskId) : result (list TaskId) TaskEngineError :=
  if has_task e id then Ok (query_prerequisites e id) else Err (TaskNotFound id).
Definition get_dependents (e : TaskEngine) (id : TaskId) : result (list TaskId) TaskEngineError :=
  if has_task e id then Ok (query_dependents e id) else Err (TaskNotFound id).

(** [UPDATE tasks SET f WHERE task_id = id AND cond], with the rows it changed. *)
Definition update_task (e : TaskEngine) (id : TaskId) (cond : TaskNode → bool) (f : TaskNode → TaskNode) :
    TaskEngine * bool :=
  match tasks e !! id with
  | Some t => if cond t then (mkEngine (<[id := f t]> (tasks e)) (edges e), true) else (e, false)
  | None => (e, false)
  end.

Definition with_status (s : TaskStatus) (now_ms : Z) (t : TaskNode) : TaskNode :=
  mkTask t.(task_id) t.(task_title) t.(task_description) t.(task_priority) s t.(assigned_agent)
    t.(generation) t.(checkpoint) t.(failure_reason) t.(created_at_ms) now_ms.

(** [set_status] and the status updates of the cascades. *)
Definition set_status (e : TaskEngine) (id : TaskId) (s : TaskStatus) (now_ms : Z) : TaskEngine :=
  (update_task e id (λ _, true) (with_status s now_ms)).1.

(** ** Readiness *)

(** What a loop over prerequisites remembers: one is failed, cancelled or blocked;
    one is not finished. *)
Fixpoint scan_prerequisites (e : TaskEngine) (ids : list TaskId) (blocked unfinished : bool) :
    result (bool * bool) TaskEngineError :=
  match ids with
  | [] => Ok (blocked, unfinished)
  | id :: ids =>
      try! t := get_task e id in
      match t.(task_status) with
      | Succeeded => scan_prerequisites e ids blocked unfinished
      | Failed | Cancelled | Blocked => scan_prerequisites e ids true unfinished
      | Pending | ReadyStatus | Running => scan_prerequisites e ids blocked true
      end
  end.

(** The status of a task that has not started: of a new one, and of a retried one. *)
Definition initial_status (blocked unfinished : bool) : TaskStatus :=
  if blocked then Blocked else if unfinished then Pending else ReadyStatus.

(** ** Creation *)

(** The loop over the drafted dependencies. *)
Fixpoint check_dependencies (e : TaskEngine) (id : TaskId) (deps : list TaskId) :
    result unit TaskEngineError :=
  match deps with
  | [] => Ok tt
  | dep :: deps =>
      if str_eqb dep id then Err (SelfDependency id)
      else if negb (has_task e dep) then Err (DependencyNotFound id dep)
      else check_dependencies e id deps
  end.

(** [create_task] *)
Definition create_task (e : TaskEngine) (d : TaskDraft) (now_ms : Z) :
    TaskEngine * result TaskNode TaskEngineError :=
  let title := trim d.(draft_title) in
  let id := d.(draft_id) in
  if is_empty title then (e, Err (EmptyField "title"))
  else if slen title >? MAX_TASK_TITLE_BYTES then
    (e, Err (OversizedField "title" (slen title) MAX_TASK_TITLE_BYTES))
  else if slen d.(draft_description) >? MAX_TASK_DESC_BYTES then
    (e, Err (OversizedField "description" (slen d.(draft_description)) MAX_TASK_DESC_BYTES))
  else if len d.(draft_dependencies) >? MAX_DEPENDENCIES_PER_TASK then
    (e, Err (OversizedField "dependencies" (len d.(draft_dependencies)) MAX_DEPENDENCIES_PER_TASK))
  else if has_task e id then (e, Err (DuplicateTask id))
  else
    match check_dependencies e id d.(draft_dependencies) with
    | Err err => (e, Err err)
    | Ok _ =>
        let deps := sorted_set (λ s : string, s) d.(draft_dependencies) in
        match scan_prerequisites e deps false false with
        | Err err => (e, Err err)
        | Ok (blocked, unfinished) =>
            let t := mkTask id title d.(draft_description) d.(draft_priority)
                       (initial_status blocked unfinished) None 0 None None now_ms now_ms in
            (mkEngine (<[id := t]> (tasks e)) (edges e ++ map (λ dep, (dep, id)) deps), Ok t)
        end
    end.

(** ** Workers *)

(** [generation + 1] on [u64]. *)
Definition next_generation (t : TaskNode) : Z := wrapping_add64 t.(generation) 1.

(** [assign_task] *)
Definition assign_task (e : TaskEngine) (id : TaskId) (agent_id : string) (now_ms : Z) :
    TaskEngine * result Z TaskEngineError :=
  let agent := trim agent_id in
  if is_empty agent then (e, Err (EmptyField "agent_id"))
  else if slen agent >? MAX_AGENT_ID_BYTES then
    (e, Err (OversizedField "agent_id" (slen agent) MAX_AGENT_ID_BYTES))
  else
    match get_task e id with
    | Err err => (e, Err err)
    | Ok t =>
        if negb (bool_decide (t.(task_status) = ReadyStatus)) then
          (e, Err (InvalidStatusTransition id t.(task_status) Running))
        else
          let '(e', changed) :=
            update_task e id
              (λ r, bool_decide (r.(task_status) = ReadyStatus) && (r.(generation) =? t.(generation)))
              (λ r, mkTask r.(task_id) r.(task_title) r.(task_description) r.(task_priority) Running
                      (Some agent) (next_generation t) r.(checkpoint) r.(failure_reason)
                      r.(created_at_ms) now_ms) in
          if changed then (e', Ok (next_generation t))
          else
            match get_task e id with
            | Err err => (e, Err err)
            | Ok current => (e, Err (InvalidStatusTransition id current.(task_status) Running))
            end
    end.

(** The refusals of a worker's report, before and inside the transaction. *)
Definition check_running (id : TaskId) (token : Z) (to : TaskStatus) (t : TaskNode) :
    result unit TaskEngineError :=
  if negb (bool_decide (t.(task_status) = Running)) then
    Err (InvalidStatusTransition id t.(task_status) to)
  else if negb (t.(generation) =? token) then Err (StaleGeneration id t.(generation) token)
  else Ok tt.

Definition lost_report (e : TaskEngine) (id : TaskId) (token : Z) (to : TaskStatus) :
    result TaskNode TaskEngineError :=
  try! current := get_task e id in
  if negb (current.(generation) =? token) then Err (StaleGeneration id current.(generation) token)
  else Err (InvalidStatusTransition id current.(task_status) to).

(** The cascade of [complete_task] over the direct dependents. *)
Fixpoint cascade_ready (e : TaskEngine) (ids : list TaskId) (now_ms : Z) :
    result TaskEngine TaskEngineError :=
  match ids with
  | [] => Ok e
  | id :: ids =>
      try! t := get_task e id in
      match t.(task_status) with
      | Pending | Blocked =>
          try! flags := scan_prerequisites e (query_prerequisites e id) false false in
          let '(failed, unfinished) := flags in
          let e :=
            if negb failed && negb unfinished then set_status e id ReadyStatus now_ms
            else if failed && negb (bool_decide (t.(task_status) = Blocked)) then
              set_status e id Blocked now_ms
            else e in
          cascade_ready e ids now_ms
      | _ => cascade_ready e ids now_ms
      end
  end.

(** [complete_task] *)
Definition complete_task (e : TaskEngine) (id : TaskId) (token : Z) (hash : option string) (now_ms : Z) :
    TaskEngine * result TaskNode TaskEngineError :=
  match get_task e id with
  | Err err => (e, Err err)
  | Ok t =>
      match check_running id token Succeeded t with
      | Err err => (e, Err err)
      | Ok _ =>
          let '(e', changed) :=
            update_task e id
              (λ r, bool_decide (r.(task_status) = Running) && (r.(generation) =? token))
              (λ r, mkTask r.(task_id) r.(task_title) r.(task_description) r.(task_priority) Succeeded
                      r.(assigned_agent) r.(generation) hash r.(failure_reason) r.(created_at_ms) now_ms) in
          if changed then
            match cascade_ready e' (query_dependents e' id) now_ms with
            | Err err => (e, Err err)
            | Ok e'' => (e'', get_task e'' id)
            end
          else (e, lost_report e id token Succeeded)
      end
  end.

(** ** Cascading blocks *)

(** The loop of [cascade_block_downstream_on_conn]. *)
Fixpoint block_loop (fuel : nat) (e : TaskEngine) (visited : gset TaskId) (queue : list TaskId)
    (now_ms : Z) : run (result TaskEngine TaskEngineError) :=
  match fuel with
  | O => OutOfFuel
  | S fuel =>
      match queue with
      | [] => Returned (Ok e)
      | id :: queue =>
          match get_task e id with
          | Err err => Returned (Err err)
          | Ok t =>
              match t.(task_status) with
              | Pending | ReadyStatus =>
                  let e := set_status e id Blocked now_ms in
                  let '(visited, queue) := enqueue_new visited queue (query_dependents e id) in
                  block_loop fuel e visited queue now_ms
              | _ => block_loop fuel e visited queue now_ms
              end
          end
      end
  end.

(** [cascade_block_downstream_on_conn]: each row is queued at most once. *)
Definition cascade_block (e : TaskEngine) (root : TaskId) (now_ms : Z) :
    run (result TaskEngine TaskEngineError) :=
  let '(visited, queue) := enqueue_new ∅ [] (query_dependents e root) in
  block_loop (S (length (edges e))) e visited queue now_ms.

(** The end of [fail_task] and [cancel_task]: block downstream, commit, read back. *)
Definition block_and_commit (e e' : TaskEngine) (id : TaskId) (now_ms : Z) :
    run (TaskEngine * result TaskNode TaskEngineError) :=
  match cascade_block e' id now_ms with
  | Returned (Ok e'') => Returned (e'', get_task e'' id)
  | Returned (Err err) => Returned (e, Err err)
  | Panicked => Panicked
  | OutOfFuel => OutOfFuel
  end.

(** [fail_task] *)
Definition fail_task (e : TaskEngine) (id : TaskId) (token : Z) (reason : string) (now_ms : Z) :
    run (TaskEngine * result TaskNode TaskEngineError) :=
  let reason := trim reason in
  if slen reason >? MAX_FAILURE_REASON_BYTES then
    Returned (e, Err (OversizedField "failure_reason" (slen reason) MAX_FAILURE_REASON_BYTES))
  else
    match get_task e id with
    | Err err => Returned (e, Err err)
    | Ok t =>
        match check_running id token Failed t with
        | Err err => Returned (e, Err err)
        | Ok _ =>
            let '(e', changed) :=
              update_task e id
                (λ r, bool_decide (r.(task_status) = Running) && (r.(generation) =? token))
                (λ r, mkTask r.(task_id) r.(task_title) r.(task_description) r.(task_priority) Failed
                        r.(assigned_agent) r.(generation) r.(checkpoint) (Some reason)
                        r.(created_at_ms) now_ms) in
            if changed then block_and_commit e e' id now_ms
            else Returned (e, lost_report e id token Failed)
        end
    end.

(** [cancel_task] *)
Definition cancel_task (e : TaskEngine) (id : TaskId) (now_ms : Z) :
    run (TaskEngine * result TaskNode TaskEngineError) :=
  match get_task e id with
  | Err err => Returned (e, Err err)
  | Ok t =>
      if is_terminal t.(task_status) then
        Returned (e, Err (InvalidStatusTransition id t.(task_status) Cancelled))
      else
        let '(e', changed) :=
          update_task e id (λ r, negb (is_terminal r.(task_status)))
            (λ r, mkTask r.(task_id) r.(task_title) r.(task_description) r.(task_priority) Cancelled
                    r.(assigned_agent) (next_generation t) r.(checkpoint) r.(failure_reason)
                    r.(created_at_ms) now_ms) in
        if changed then block_and_commit e e' id now_ms
        else
          match get_task e id with
          | Err err => Returned (e, Err err)
          | Ok current => Returned (e, Err (InvalidStatusTransition id current.(task_status) Cancelled))
          end
  end.

(** [retry_task] *)
Definition retry_task (e : TaskEngine) (id : TaskId) (now_ms : Z) :
    TaskEngine * result TaskNode TaskEngineError :=
  match get_task e id with
  | Err err => (e, Err err)
  | Ok t =>
      match t.(task_status) with
      | Failed | Cancelled =>
          match get_dependencies e id with
          | Err err => (e, Err err)
          | Ok prereqs =>
              match scan_prerequisites e prereqs false false with
              | Err err => (e, Err err)
              | Ok (blocked, unfinished) =>
                  let e := (update_task e id (λ _, true)
                    (λ r, mkTask r.(task_id) r.(task_title) r.(task_description) r.(task_priority)
                            (initial_status blocked unfinished) None (next_generation t) None None
                            r.(created_at_ms) now_ms)).1 in
                  (e, get_task e id)
              end
          end
      | s => (e, Err (InvalidStatusTransition id s Pending))
      end
  end.

(** ** Queries *)

(** [ORDER BY priority DESC, created_at_ms ASC, task_id ASC] *)
Definition ready_key (t : TaskNode) : Z * (Z * string) :=
  (- t.(task_priority), (as_i64 t.(created_at_ms), t.(task_id))).

(** [ORDER BY created_at_ms ASC, task_id ASC] *)
Definition list_key (t : TaskNode) : Z * string := (as_i64 t.(created_at_ms), t.(task_id)).

Definition all_rows (e : TaskEngine) : list TaskNode := (map_to_list (tasks e)).*2.

(** [ready_tasks], [next_ready_task], [list_tasks], [get_task_view] *)
Definition ready_tasks (e : TaskEngine) : list TaskNode :=
  sort_by_key ready_key
    (List.filter (λ t, bool_decide (t.(task_status) = ReadyStatus)) (all_rows e)).
Definition next_ready_task (e : TaskEngine) : option TaskNode := head (ready_tasks e).
Definition list_tasks (e : TaskEngine) : list TaskNode := sort_by_key list_key (all_rows e).
Definition get_task_view (e : TaskEngine) (id : TaskId) :
    result (TaskNode * list TaskId) TaskEngineError :=
  try! t := get_task e id in Ok (t, query_prerequisites e id).

Section Unordered.
(** The order in which rows come back from a query without [ORDER BY]. *)
Context (shuffle : ∀ {A : Type}, list A → list A).

(** ** Paths *)

Definition unordered_dependents (e : TaskEngine) (id : TaskId) : list TaskId :=
  map snd (shuffle _ (List.filter (λ d, str_eqb d.1 id) (edges e))).

(** The loop over the rows of one query of [find_path]. *)
Fixpoint visit_rows (current : TaskId) (visited : gset TaskId) (parent : gmap TaskId TaskId)
    (queue rows : list TaskId) : gset TaskId * gmap TaskId TaskId * list TaskId :=
  match rows with
  | [] => (visited, parent, queue)
  | id :: rows =>
      if bool_decide (id ∈ visited) then visit_rows current visited parent queue rows
      else visit_rows current ({[id]} ∪ visited) (<[id := current]> parent) (queue ++ [id]) rows
  end.

(** The reconstruction loop; a missing parent is its [expect]. *)
Fixpoint walk_back (fuel : nat) (parent : gmap TaskId TaskId) (from curr : TaskId) (path : list TaskId) :
    run (list TaskId) :=
  match fuel with
  | O => OutOfFuel
  | S fuel =>
      if str_eqb curr from then Returned (from :: path)
      else
        match parent !! curr with
        | None => Panicked
        | Some p => walk_back fuel parent from p (curr :: path)
        end
  end.

Fixpoint path_loop (fuel : nat) (e : TaskEngine) (visited : gset TaskId) (parent : gmap TaskId TaskId)
    (queue : list TaskId) (from to : TaskId) : run (option (list TaskId)) :=
  match fuel with
  | O => OutOfFuel
  | S fuel =>
      match queue with
      | [] => Returned None
      | current :: queue =>
          if str_eqb current to then
            match walk_back (S (size parent)) parent from to [] with
            | Returned path => Returned (Some path)
            | Panicked => Panicked
            | OutOfFuel => OutOfFuel
            end
          else
            let '(visited, parent, queue) :=
              visit_rows current visited parent queue (unordered_dependents e current) in
            path_loop fuel e visited parent queue from to
      end
  end.

(** [find_path]: the start and at most one identifier per row are queued. *)
Definition find_path (e : TaskEngine) (from to : TaskId) : run (option (list TaskId)) :=
  path_loop (S (S (length (edges e)))) e {[from]} ∅ [from] from to.

(** [add_dependency] *)
Definition add_dependency (e : TaskEngine) (prerequisite dependent : TaskId) :
    run (TaskEngine * result unit TaskEngineError) :=
  if str_eqb prerequisite dependent then Returned (e, Err (SelfDependency dependent))
  else if negb (has_task e prerequisite) then Returned (e, Err (TaskNotFound prerequisite))
  else if negb (has_task e dependent) then Returned (e, Err (TaskNotFound dependent))
  else if bool_decide ((prerequisite, dependent) ∈ edges e) then Returned (e, Ok tt)
  else
    match get_task e dependent with
    | Err err => Returned (e, Err err)
    | Ok d =>
        if bool_decide (d.(task_status) = Running) || is_terminal d.(task_status) then
          Returned (e, Err (InvalidStatusTransition dependent d.(task_status) Pending))
        else
          match find_path e dependent prerequisite with
          | Panicked => Panicked
          | OutOfFuel => OutOfFuel
          | Returned (Some cycle) => Returned (e, Err (CycleDetected (cycle ++ [dependent])))
          | Returned None =>
              let e := mkEngine (tasks e) (edges e ++ [(prerequisite, dependent)]) in
              match get_task e prerequisite with
              | Err err => Returned (e, Err err)
              | Ok p =>
                  match d.(task_status), p.(task_status) with
                  | ReadyStatus, (Failed | Cancelled | Blocked) =>
                      Returned (set_status e dependent Blocked d.(updated_at_ms), Ok tt)
                  | ReadyStatus, (Pending | ReadyStatus | Running) =>
                      Returned (set_status e dependent Pending d.(updated_at_ms), Ok tt)
                  | _, _ => Returned (e, Ok tt)
                  end
              end
          end
    end.

(** ** Topological order *)

(** The key of the ready set. *)
Definition topo_key : Type := Z * (Z * string).

(** [BTreeSet::insert] on the ready set. *)
Definition ready_insert (k : topo_key) (ready : list topo_key) : list topo_key :=
  if bool_decide (k ∈ ready) then ready else insert_by (key_le (λ k, k)) k ready.

Definition key_of (t : TaskNode) : topo_key :=
  (neg_i32 t.(task_priority), (t.(created_at_ms), t.(task_id))).

(** Counting the rows that lead into each task. *)
Fixpoint count_rows (degrees : gmap TaskId Z) (rows : list (TaskId * TaskId)) : gmap TaskId Z :=
  match rows with
  | [] => degrees
  | (_, dep) :: rows =>
      count_rows (match degrees !! dep with
                  | Some n => <[dep := n + 1]> degrees
                  | None => degrees
                  end) rows
  end.

(** [adj_list]: the targets of the rows out of each task. *)
Definition adjacent (rows : list (TaskId * TaskId)) (id : TaskId) : list TaskId :=
  map snd (List.filter (λ d, str_eqb d.1 id) rows).

(** The inner loop: one edge less into each neighbour. *)
Fixpoint release (e : TaskEngine) (degrees : gmap TaskId Z) (ready : list topo_key)
    (neighbors : list TaskId) : run (gmap TaskId Z * list topo_key) :=
  match neighbors with
  | [] => Returned (degrees, ready)
  | v :: neighbors =>
      match degrees !! v with
      | None => release e degrees ready neighbors
      | Some n =>
          let n := (n - 1) mod 2 ^ 64 in
          let degrees := <[v := n]> degrees in
          if n =? 0 then
            match tasks e !! v with
            | None => Panicked
            | Some t => release e degrees (ready_insert (key_of t) ready) neighbors
            end
          else release e degrees ready neighbors
      end
  end.

(** The outer loop over the ready set. *)
Fixpoint topo_loop (fuel : nat) (e : TaskEngine) (rows : list (TaskId * TaskId))
    (degrees : gmap TaskId Z) (ready : list topo_key) (sorted : list TaskId) : run (list TaskId) :=
  match fuel with
  | O => OutOfFuel
  | S fuel =>
      match ready with
      | [] => Returned sorted
      | (_, (_, u)) :: ready =>
          match release e degrees ready (adjacent rows u) with
          | Returned (degrees, ready) => topo_loop fuel e rows degrees ready (sorted ++ [u])
          | Panicked => Panicked
          | OutOfFuel => OutOfFuel
          end
      end
  end.

(** [topological_sort] *)
Definition topological_sort (e : TaskEngine) : run (result (list TaskId) TaskEngineError) :=
  let all := list_tasks e in
  if bool_decide (all = []) then Returned (Ok [])
  else
    let rows := shuffle _ (edges e) in
    let degrees := count_rows (gset_to_gmap 0 (dom (tasks e))) rows in
    let ready := foldr (λ t ready,
      if bool_decide (degrees !! t.(task_id) = Some 0) then ready_insert (key_of t) ready else ready)
      [] all in
    match topo_loop (S (length all)) e rows degrees ready [] with
    | Returned sorted =>
        Returned (if negb (len sorted =? len all) then Err (CycleDetected []) else Ok sorted)
    | Panicked => Panicked
    | OutOfFuel => OutOfFuel
    end.

End Unordered.
