(* ===== verification/TaskDagFacts.v ===== *)
(** * TaskDagFacts: the invariant of the task engine

    Statuses agree with the graph: a task is ready, running or done only when all
    its prerequisites are done, and a task waits only when one of them is not.  The
    graph stays acyclic, shown by a ranking of its nodes; every cascade and search
    ends.  All this over every history of operations. *)

From stdpp Require Import gmap.
From S2P Require Import Prelude Text Order Search TaskDag.

Local Open Scope Z_scope.

(** ** Names

    A row is read back through [TaskId::new] and [TaskStatus::parse]: both give back
    what was stored, so the tables hold identifiers and statuses as they are. *)

Lemma status_roundtrip s : status_parse (status_str s) = Ok s.
Proof. by destruct s. Qed.

Lemma task_id_byte_plain b t : task_id_byte b = true → ws_head (b :: t) = 0%nat.
Proof. destruct b as [[] [] [] [] [] [] [] []]; intros H; first [discriminate H|by destruct t as [|? [|? ?]]]. Qed.

Lemma trim_start_plain l : forallb task_id_byte l = true → trim_start l = l.
Proof.
  destruct l as [|b l]; [done|]. simpl. intros [Hb _]%andb_prop. unfold trim_start. cbn [length trim_start_fuel].
  by rewrite task_id_byte_plain.
Qed.

Lemma trim_end_plain l : forallb task_id_byte l = true → trim_end l = l.
Proof.
  induction l as [|b l IH]; [done|]. intros Hl. cbn [trim_end]. rewrite trim_start_plain by done.
  rewrite andb_false_r. f_equal. apply IH. by apply andb_prop in Hl as [].
Qed.

Lemma TaskId_new_idem s id : TaskId_new s = Ok id → TaskId_new id = Ok id.
Proof.
  intros H. assert (id = trim s ∧ str_forall task_id_byte (trim s) = true) as [-> Hall].
  { revert H. unfold TaskId_new. repeat case_match; try done. intros [= <-]. split; [done|].
    by apply negb_false_iff. }
  assert (trim (trim s) = trim s) as Ht.
  { unfold trim at 1. rewrite trim_start_plain, trim_end_plain by done. apply of_bytes_as_bytes. }
  unfold TaskId_new in *. by rewrite Ht.
Qed.

(** ** The invariant *)

(** The status of a task, if there is one. *)
Definition status_of (e : TaskEngine) (id : TaskId) : option TaskStatus := task_status <$> tasks e !! id.

Definition started (s : TaskStatus) : bool :=
  match s with ReadyStatus | Running | Succeeded => true | _ => false end.
Definition waiting (s : TaskStatus) : bool :=
  match s with Pending | Blocked => true | _ => false end.

(** A ranking of the nodes that grows along every edge. *)
Definition ranked (l : list (TaskId * TaskId)) : Prop :=
  ∃ rank : TaskId → nat, ∀ p d, (p, d) ∈ l → (rank p < rank d)%nat.

(** The invariant, where the tasks of [ids] may wait without cause. *)
Record dag_ok_but (ids : list TaskId) (e : TaskEngine) : Prop := {
  ok_ids : ∀ id t, tasks e !! id = Some t → task_id t = id;
  ok_edges : ∀ p d, (p, d) ∈ edges e → is_Some (tasks e !! p) ∧ is_Some (tasks e !! d);
  ok_nodup : NoDup (edges e);
  ok_ranked : ranked (edges e);
  ok_started : ∀ p d s, (p, d) ∈ edges e → status_of e d = Some s → started s = true →
    status_of e p = Some Succeeded;
  ok_waiting : ∀ d s, (d ∉ ids) → status_of e d = Some s → waiting s = true →
    ∃ p, (p, d) ∈ edges e ∧ status_of e p ≠ Some Succeeded
}.

Definition dag_ok (e : TaskEngine) : Prop := dag_ok_but [] e.

(** ** Queries *)

Lemma dependents_elem e id d : d ∈ query_dependents e id ↔ (id, d) ∈ edges e.
Proof.
  unfold query_dependents. rewrite sort_by_key_perm, list_elem_of_fmap. split.
  - intros ([p d'] & -> & [H Heq]%List_filter_elem). simpl in *. apply str_eqb_eq in Heq as ->. done.
  - intros H. exists (id, d). split; [done|]. apply List_filter_elem. split; [done|]. apply str_eqb_refl.
Qed.

Lemma prerequisites_elem e id p : p ∈ query_prerequisites e id ↔ (p, id) ∈ edges e.
Proof.
  unfold query_prerequisites. rewrite sort_by_key_perm, list_elem_of_fmap. split.
  - intros ([p' d] & -> & [H Heq]%List_filter_elem). simpl in *. apply str_eqb_eq in Heq as ->. done.
  - intros H. exists (p, id). split; [done|]. apply List_filter_elem. split; [done|]. apply str_eqb_refl.
Qed.

Lemma get_task_Ok e id t : get_task e id = Ok t ↔ tasks e !! id = Some t.
Proof. unfold get_task. destruct (tasks e !! id); split; congruence. Qed.

Lemma status_of_Some e id t : tasks e !! id = Some t → status_of e id = Some (task_status t).
Proof. intros H. unfold status_of. by rewrite H. Qed.

Lemma has_task_true e id : has_task e id = true ↔ is_Some (tasks e !! id).
Proof. apply bool_decide_eq_true. Qed.

(** The prerequisites all done, as the loops over them find out. *)
Lemma scan_spec e ids : (∀ id, id ∈ ids → is_Some (tasks e !! id)) → ∀ b u,
  ∃ b' u', scan_prerequisites e ids b u = Ok (b', u')
    ∧ (b' = false ∧ u' = false ↔
       b = false ∧ u = false ∧ ∀ id, id ∈ ids → status_of e id = Some Succeeded).
Proof.
  induction ids as [|id ids IH]; intros Hin b u.
  - exists b, u. split; [done|]. split; [intros []; split_and!; try done; set_solver|tauto].
  - destruct (Hin id) as [t Ht]; [set_solver|].
    assert (∀ i, i ∈ ids → is_Some (tasks e !! i)) as Hin' by set_solver.
    pose proof (status_of_Some _ _ _ Ht) as Hs. cbn [scan_prerequisites].
    rewrite (proj2 (get_task_Ok e id t) Ht). destruct (task_status t) eqn:Hst.
    all: match goal with |- ∃ b' u', scan_prerequisites _ _ ?x ?y = _ ∧ _ =>
      destruct (IH Hin' x y) as (b' & u' & E & Hiff) end.
    all: exists b', u'; split; [exact E|]; rewrite Hiff; clear Hiff E IH Hin Hin'.
    all: split; [intros (H1 & H2 & H3)|intros (H1 & H2 & H3)]; try discriminate.
    all: try (specialize (H3 id (list_elem_of_here _ _)); congruence).
    + split_and!; [done|done|]. intros i [->|Hi]%elem_of_cons; [congruence|by apply H3].
    + split_and!; [done|done|]. intros i Hi. apply H3. by apply elem_of_cons; right.
Qed.

Lemma some_unfinished e (ids : list TaskId) : ¬ (∀ id, id ∈ ids → status_of e id = Some Succeeded) →
  ∃ id, id ∈ ids ∧ status_of e id ≠ Some Succeeded.
Proof.
  intros Hnot. destruct (list_find (λ x, status_of e x ≠ Some Succeeded) ids) as [[i x]|] eqn:Hf.
  - apply list_find_Some in Hf as (Hx & Hxs & _). apply list_elem_of_lookup_2 in Hx. eauto.
  - apply list_find_None in Hf. exfalso. apply Hnot. intros x Hx. rewrite Forall_forall in Hf.
    specialize (Hf x Hx). by destruct (decide (status_of e x = Some Succeeded)).
Qed.

(** ** Changing one task *)

Section Change.
Context (e : TaskEngine) (id : TaskId) (t t' : TaskNode).
Context (Ht : tasks e !! id = Some t) (Hid : task_id t' = task_id t).

Definition changed : TaskEngine := mkEngine (<[id := t']> (tasks e)) (edges e).

Lemma status_changed i : status_of changed i
  = if decide (i = id) then Some (task_status t') else status_of e i.
Proof.
  unfold status_of. simpl. destruct (decide (i = id)) as [->|]; [by rewrite lookup_insert_eq|].
  by rewrite lookup_insert_ne.
Qed.

Lemma ranked_irrefl l i : ranked l → ((i, i) ∉ l).
Proof. intros [rank H] Hi. apply H in Hi. lia. Qed.

(** The invariant survives a change that is justified by the prerequisites and that
    takes back no success; the tasks of [ids'] are those whose wait may lose its
    cause because the task succeeds. *)
Lemma changed_ok ids ids' : dag_ok_but ids e →
  (started (task_status t') = true → ∀ p, (p, id) ∈ edges e → status_of e p = Some Succeeded) →
  (waiting (task_status t') = true → (id ∉ ids') → ∃ p, (p, id) ∈ edges e ∧ status_of e p ≠ Some Succeeded) →
  (task_status t = Succeeded → task_status t' = Succeeded) →
  (∀ d, (d ∉ ids') → d ≠ id → (d ∉ ids)) →
  (task_status t' = Succeeded → task_status t = Succeeded ∨ ∀ d, (id, d) ∈ edges e → d ∈ ids') →
  dag_ok_but ids' changed.
Proof.
  intros Hok Hst Hwt Hkeep Hids Hsucc. pose proof (status_of_Some _ _ _ Ht) as Hs.
  assert (∀ p, (p, id) ∈ edges e → p ≠ id) as Hne.
  { intros p Hp ->. by apply (ranked_irrefl _ _ (ok_ranked _ _ Hok)) in Hp. }
  constructor.
  - intros i u. simpl. rewrite lookup_insert_Some. intros [[<- <-]|[_ Hu]].
    + rewrite Hid. by apply (ok_ids _ _ Hok).
    + by apply (ok_ids _ _ Hok).
  - intros p d Hpd. simpl. rewrite !lookup_insert_is_Some'. destruct (ok_edges _ _ Hok p d Hpd). tauto.
  - apply Hok.
  - apply Hok.
  - intros p d s Hpd. simpl in Hpd. rewrite !status_changed. destruct (decide (d = id)) as [->|Hd].
    + intros [= <-] Hstart. rewrite decide_False by (by apply Hne). by apply Hst.
    + intros Hsd Hstart. pose proof (ok_started _ _ Hok p d s Hpd Hsd Hstart) as Hp.
      destruct (decide (p = id)) as [->|]; [|done]. rewrite Hs in Hp. injection Hp as Hp.
      by rewrite (Hkeep Hp).
  - intros d s Hd. rewrite status_changed. destruct (decide (d = id)) as [->|Hne'].
    + intros [= <-] Hwait. destruct (Hwt Hwait Hd) as (p & Hp & Hps). exists p. split; [done|].
      rewrite status_changed, decide_False by (by apply Hne). done.
    + intros Hsd Hwait. destruct (ok_waiting _ _ Hok d s) as (p & Hp & Hps); [by apply Hids|done..|].
      exists p. split; [done|]. rewrite status_changed. destruct (decide (p = id)) as [->|]; [|done].
      rewrite Hs in Hps. intros [= Hx]. destruct (Hsucc Hx) as [Hx'|Hall]; [congruence|].
      by apply Hd, Hall.
Qed.

End Change.

Lemma set_status_eq e id s now t : tasks e !! id = Some t →
  set_status e id s now = changed e id (with_status s now t).
Proof. intros Ht. unfold set_status, update_task. by rewrite Ht. Qed.

(** ** Creation *)

Lemma ranked_new l id deps : ranked l → (∀ d, (id, d) ∉ l) → (id ∉ deps) →
  ranked (l ++ map (λ dep, (dep, id)) deps).
Proof.
  intros [rank H] Hno Hdeps.
  exists (λ x, if decide (x = id) then S (sum_list_with rank (deps ++ map fst l)) else rank x).
  assert (∀ x, x ∈ deps ++ map fst l → (rank x ≤ sum_list_with rank (deps ++ map fst l))%nat) as Hle.
  { intros x. apply sum_list_with_in. }
  intros p d [Hpd|(dep & [= -> ->] & Hd)%list_elem_of_fmap]%elem_of_app.
  - rewrite (decide_False (P := p = id)) by (intros ->; by apply (Hno d)).
    destruct (decide (d = id)); [|by apply H].
    specialize (Hle p). destruct Hle; [|lia..]. apply elem_of_app. right.
    apply list_elem_of_fmap. by exists (p, d).
  - rewrite (decide_True (P := id = id)) by done. rewrite decide_False by (intros ->; done).
    specialize (Hle dep). assert (dep ∈ deps ++ map fst l) as Hin by (apply elem_of_app; by left).
    apply Hle in Hin. lia.
Qed.

Lemma check_dependencies_ok e id deps : check_dependencies e id deps = Ok tt →
  (id ∉ deps) ∧ ∀ dep, dep ∈ deps → is_Some (tasks e !! dep).
Proof.
  induction deps as [|dep deps IH]; simpl; [set_solver|].
  destruct (str_eqb dep id) eqn:He; [done|]. apply str_eqb_neq in He.
  destruct (has_task e dep) eqn:Hh; simpl; [|done]. apply has_task_true in Hh.
  intros H. apply IH in H as [H1 H2]. split; [set_solver|].
  intros d [->|Hd]%elem_of_cons; [done|by apply H2].
Qed.

Lemma str_key_inj : Inj (=) (=) (λ s : string, s).
Proof. by intros ?. Qed.

Lemma create_task_ok e d now e' r : dag_ok e → create_task e d now = (e', r) → dag_ok e'.
Proof.
  intros Hok. unfold create_task. do 4 (case_if; [by intros [= <- <-]|]).
  destruct (has_task e (draft_id d)) eqn:Hnew; [by intros [= <- <-]|].
  assert (tasks e !! draft_id d = None) as Hno.
  { apply bool_decide_eq_false in Hnew. by apply eq_None_not_Some. }
  destruct (check_dependencies _ _ _) as [[]|] eqn:Hc; [|by intros [= <- <-]].
  apply check_dependencies_ok in Hc as [Hself Hdeps].
  pose proof str_key_inj as Hinj.
  set (deps := sorted_set (λ s : string, s) (draft_dependencies d)).
  assert (∀ x, x ∈ deps ↔ x ∈ draft_dependencies d) as Hel by (intros x; apply sorted_set_elem).
  destruct (scan_spec e deps ltac:(intros x Hx; apply Hdeps, Hel, Hx) false false) as (b & u & -> & Hiff).
  intros [= <- <-]. set (id := draft_id d) in *. set (t := mkTask _ _ _ _ _ _ _ _ _ _ _).
  assert (∀ x, is_Some (tasks e !! x) → x ≠ id) as Hne by (intros x [] ->; congruence).
  assert (∀ x, x ≠ id → status_of (mkEngine (<[id := t]> (tasks e)) (edges e ++ map (λ dep, (dep, id)) deps)) x
    = status_of e x) as Hsame.
  { intros x Hx. unfold status_of. simpl. by rewrite lookup_insert_ne. }
  assert (∀ p dd, (p, dd) ∈ edges e → p ≠ id ∧ dd ≠ id) as Hold.
  { intros p dd Hpd. destruct (ok_edges _ _ Hok p dd Hpd). split; by apply Hne. }
  assert (status_of (mkEngine (<[id := t]> (tasks e)) (edges e ++ map (λ dep, (dep, id)) deps)) id
    = Some (initial_status b u)) as Hid by (unfold status_of; simpl; by rewrite lookup_insert_eq).
  constructor.
  - intros i v. simpl. rewrite lookup_insert_Some. intros [[<- <-]|[_ Hv]]; [done|]. by apply (ok_ids _ _ Hok).
  - intros p dd. simpl. rewrite !lookup_insert_is_Some'.
    intros [Hpd|(dep & [= -> ->] & Hd)%list_elem_of_fmap]%elem_of_app.
    + destruct (ok_edges _ _ Hok p dd Hpd). tauto.
    + split; [right; by apply Hdeps, Hel|by left].
  - simpl. apply NoDup_app. split_and!.
    + apply (ok_nodup _ _ Hok).
    + intros [p dd] Hpd (dep & [= -> ->] & _)%list_elem_of_fmap. by destruct (Hold _ _ Hpd).
    + apply NoDup_fmap_2; [by intros ?? [= ->]|]. eapply strict_NoDup, sorted_set_strict, _.
  - apply ranked_new; [apply (ok_ranked _ _ Hok)| |].
    + intros dd Hdd. by destruct (Hold _ _ Hdd).
    + intros Hin. by apply Hself, Hel.
  - intros p dd s [Hpd|(dep & [= -> ->] & Hd)%list_elem_of_fmap]%elem_of_app.
    + destruct (Hold _ _ Hpd). rewrite !Hsame by done. by apply (ok_started _ _ Hok).
    + rewrite Hid. intros [= <-] Hs. rewrite Hsame by (apply Hne, Hdeps, Hel, Hd).
      apply (proj1 Hiff); [|done]. by destruct b, u.
  - intros dd s _. destruct (decide (dd = id)) as [->|Hdd].
    + rewrite Hid. intros [= <-] Hs.
      destruct (some_unfinished e deps) as (x & Hx & Hxs).
      { intros Hall. destruct (proj2 Hiff) as [-> ->]; done. }
      exists x. rewrite Hsame by (apply Hne, Hdeps, Hel, Hx). split; [|done]. apply elem_of_app. right.
      apply list_elem_of_fmap. by exists x.
    + rewrite Hsame by done. intros Hs Hw. destruct (ok_waiting _ _ Hok dd s ltac:(set_solver) Hs Hw)
        as (p & Hp & Hps). exists p. destruct (Hold _ _ Hp). rewrite Hsame by done.
      split; [|done]. apply elem_of_app. by left.
Qed.

(** ** Workers *)

Lemma ok_weaken ids ids' e : dag_ok_but ids e → (∀ d, d ∈ ids → d ∈ ids') → dag_ok_but ids' e.
Proof. intros [] H. constructor; try done. intros d s Hd. apply ok_waiting0. auto. Qed.

Lemma update_task_eq e id cond f t : tasks e !! id = Some t → cond t = true →
  update_task e id cond f = (changed e id (f t), true).
Proof. intros Ht Hc. unfold update_task. by rewrite Ht, Hc. Qed.

Lemma assign_task_ok e id agent now e' r : dag_ok e → assign_task e id agent now = (e', r) → dag_ok e'.
Proof.
  intros Hok. unfold assign_task. do 2 (case_if; [by intros [= <- <-]|]).
  destruct (get_task e id) as [t|] eqn:Ht; [|by intros [= <- <-]]. apply get_task_Ok in Ht.
  case_bool_decide as Hs; simpl; [|by intros [= <- <-]].
  erewrite update_task_eq; [|done|by rewrite Hs, Z.eqb_refl, bool_decide_eq_true_2]. intros [= <- <-].
  eapply changed_ok; simpl; try done.
  - intros _ p Hp. eapply (ok_started _ _ Hok); [done|by apply status_of_Some|]. by rewrite Hs.
  - congruence.
Qed.

Lemma ok_drop id ids e : dag_ok_but (id :: ids) e →
  (∀ s, status_of e id = Some s → waiting s = true →
    ∃ p, (p, id) ∈ edges e ∧ status_of e p ≠ Some Succeeded) → dag_ok_but ids e.
Proof.
  intros [H1 H2 H3 H4 H5 H6] Hw. constructor; try done. intros d s Hd Hs Hwait.
  destruct (decide (d = id)) as [->|]; [by eapply Hw|]. apply (H6 d s); [set_solver|done..].
Qed.

(** What a change of one status by the cascades leaves alone. *)
Lemma set_status_same e id s now t : tasks e !! id = Some t →
  edges (set_status e id s now) = edges e
  ∧ (∀ i, i ≠ id → tasks (set_status e id s now) !! i = tasks e !! i)
  ∧ (∀ i, is_Some (tasks e !! i) → is_Some (tasks (set_status e id s now) !! i)).
Proof.
  intros Ht. rewrite (set_status_eq _ _ _ _ _ Ht). split_and!; [done| |].
  - intros i Hi. simpl. by rewrite lookup_insert_ne.
  - intros i Hi. simpl. apply lookup_insert_is_Some'. by right.
Qed.

(** One dependent of a completed task, once its prerequisites are read. *)
Lemma refresh_ok e id ids t failed unfinished now : dag_ok_but (id :: ids) e →
  tasks e !! id = Some t → waiting (task_status t) = true →
  (failed = false ∧ unfinished = false ↔ ∀ p, (p, id) ∈ edges e → status_of e p = Some Succeeded) →
  dag_ok_but ids (if negb failed && negb unfinished then set_status e id ReadyStatus now
    else if failed && negb (bool_decide (task_status t = Blocked)) then set_status e id Blocked now else e).
Proof.
  intros Hok Ht Hwt Hiff. rewrite !(set_status_eq _ _ _ _ _ Ht).
  assert (¬ (failed = false ∧ unfinished = false) →
    ∃ p, (p, id) ∈ edges e ∧ status_of e p ≠ Some Succeeded) as Hsome.
  { intros Hnot. destruct (some_unfinished e (query_prerequisites e id)) as (p & Hp & Hps).
    - intros Hall. apply Hnot, Hiff. intros p Hp. by apply Hall, prerequisites_elem.
    - apply prerequisites_elem in Hp. eauto. }
  assert (∀ d, (d ∉ ids) → d ≠ id → d ∉ id :: ids) as Hnot by (intros d H1 H2 [->|]%elem_of_cons; done).
  assert (task_status t ≠ Succeeded) as Hns by (by intros E; rewrite E in Hwt).
  destruct (negb failed && negb unfinished) eqn:E1; [|destruct (failed && _) eqn:E2].
  - eapply changed_ok; simpl; try done. intros _. apply Hiff. by destruct failed, unfinished.
  - eapply changed_ok; simpl; try done. intros _ _. apply Hsome. by intros [-> ->].
  - eapply ok_drop; [done|]. intros _ _ _. apply Hsome. by intros [-> ->].
Qed.

(** The cascade of a completed task gives every waiting dependent its status. *)
Lemma cascade_ready_ok now ids : ∀ e, dag_ok_but ids e → (∀ id, id ∈ ids → is_Some (tasks e !! id)) →
  ∃ e', cascade_ready e ids now = Ok e' ∧ dag_ok e' ∧ edges e' = edges e
    ∧ (∀ id, is_Some (tasks e !! id) → is_Some (tasks e' !! id))
    ∧ ∀ id t, tasks e !! id = Some t → waiting (task_status t) = false → tasks e' !! id = Some t.
Proof.
  induction ids as [|id ids IH]; intros e Hok Hin.
  { exists e. by split_and!. }
  destruct (Hin id) as [t Ht]; [set_solver|]. pose proof (status_of_Some _ _ _ Ht) as Hst.
  cbn [cascade_ready]. rewrite (proj2 (get_task_Ok e id t) Ht).
  assert (∀ i, i ∈ ids → is_Some (tasks e !! i)) as Hin' by set_solver.
  destruct (waiting (task_status t)) eqn:Hwt.
  - destruct (scan_spec e (query_prerequisites e id)) with (b := false) (u := false)
      as (b & u & Escan & Hiff).
    { intros p Hp%prerequisites_elem. by apply (ok_edges _ _ Hok p id). }
    assert (b = false ∧ u = false ↔ ∀ p, (p, id) ∈ edges e → status_of e p = Some Succeeded) as Hiff'.
    { rewrite Hiff. setoid_rewrite prerequisites_elem. naive_solver. }
    pose proof (refresh_ok _ _ _ _ _ _ now Hok Ht Hwt Hiff') as Hok1.
    match type of Hok1 with dag_ok_but _ ?e1 => assert (e1 = e ∨ ∃ s, e1 = set_status e id s now) as He1 end.
    { repeat case_match; eauto. }
    destruct (IH _ Hok1) as (e' & E1 & Hok' & Hed & Hdom & Hch).
    { intros i Hi%Hin'. destruct He1 as [->|[s ->]]; [done|]. by apply (set_status_same _ _ _ _ _ Ht). }
    exists e'. split_and!; [|done| | |].
    + revert Hwt E1. destruct (task_status t) eqn:Hs; try done; intros _ E1; rewrite Escan; exact E1.
    + rewrite Hed. destruct He1 as [->|[s ->]]; [done|]. by apply (set_status_same _ _ _ _ _ Ht).
    + intros i Hi. apply Hdom. destruct He1 as [->|[s ->]]; [done|]. by apply (set_status_same _ _ _ _ _ Ht).
    + intros i x Hx Hw. apply Hch; [|done]. destruct He1 as [->|[s ->]]; [done|].
      destruct (set_status_same _ _ s now _ Ht) as (_ & Hne & _). rewrite Hne; [done|]. intros ->. congruence.
  - destruct (IH e) as (e' & E1 & Hrest); [|done|exists e'; split; [by destruct (task_status t)|done]].
    eapply ok_drop; [done|]. intros s Hs. congruence.
Qed.

Lemma check_running_ok id token to t : check_running id token to t = Ok tt ↔
  task_status t = Running ∧ generation t = token.
Proof.
  unfold check_running. case_bool_decide; simpl; [|split; [done|by intros []]].
  destruct (Z.eqb_spec (generation t) token); simpl; split; try done; by intros [].
Qed.

(** A report that passes the checks finds its row. *)
Lemma report_row id token to t : check_running id token to t = Ok tt →
  bool_decide (task_status t = Running) && (generation t =? token) = true.
Proof. intros [-> ->]%check_running_ok. by rewrite Z.eqb_refl. Qed.

(** A report of a worker is accepted. *)
Definition accepted (e : TaskEngine) (id : TaskId) (token : Z) (t : TaskNode) : Prop :=
  tasks e !! id = Some t ∧ task_status t = Running ∧ generation t = token.

(** The row of a completed task. *)
Definition completed (t : TaskNode) (hash : option string) (now_ms : Z) : TaskNode :=
  mkTask t.(task_id) t.(task_title) t.(task_description) t.(task_priority) Succeeded
    t.(assigned_agent) t.(generation) hash t.(failure_reason) t.(created_at_ms) now_ms.

Lemma complete_task_cases e id token hash now : dag_ok e →
  ∃ e' r, complete_task e id token hash now = (e', r) ∧ dag_ok e' ∧
    (e' = e ∧ (∃ err, r = Err err) ∧ (∀ t, ¬ accepted e id token t)
     ∨ ∃ t, accepted e id token t ∧ r = Ok (completed t hash now)
        ∧ tasks e' !! id = Some (completed t hash now)
        ∧ ∀ i u, i ≠ id → tasks e !! i = Some u → waiting (task_status u) = false → tasks e' !! i = Some u).
Proof.
  intros Hok. unfold complete_task, accepted.
  destruct (get_task e id) as [t|err] eqn:Ht.
  2: { exists e, (Err err). split_and!; [done|done|]. left. split_and!; [done|eauto|].
       intros t (Ht' & _). apply get_task_Ok in Ht'. congruence. }
  apply get_task_Ok in Ht.
  destruct (check_running _ _ _ _) as [[]|err] eqn:Hc.
  2: { exists e, (Err err). split_and!; [done|done|]. left. split_and!; [done|eauto|].
       intros t' (Ht' & Hs & Hg). rewrite Ht in Ht'. injection Ht' as <-.
       rewrite (proj2 (check_running_ok id token Succeeded t)) in Hc; done. }
  erewrite update_task_eq by (done || by eapply report_row).
  apply check_running_ok in Hc as [Hs Hg]. change (mkTask _ _ _ _ _ _ _ _ _ _ _) with (completed t hash now).
  set (e1 := changed e id (completed t hash now)).
  assert (dag_ok_but (query_dependents e1 id) e1) as Hok1.
  { eapply changed_ok; simpl; try done.
    - intros _ p Hp. eapply (ok_started _ _ Hok); [done|by apply status_of_Some|]. by rewrite Hs.
    - set_solver.
    - intros _. right. intros d Hd. by apply dependents_elem. }
  destruct (cascade_ready_ok now (query_dependents e1 id) e1 Hok1) as (e2 & -> & Hok2 & _ & _ & Hch).
  { intros d Hd%dependents_elem. by apply (ok_edges _ _ Hok1 id d). }
  assert (tasks e2 !! id = Some (completed t hash now)) as Hid by (apply Hch; simpl; [by rewrite lookup_insert_eq|done]).
  exists e2. eexists. split_and!; [done|done|]. right. exists t. split_and!; [done|done|done| |done|].
  - by apply get_task_Ok.
  - intros i u Hi Hu Hw. apply Hch; [|done]. simpl. by rewrite lookup_insert_ne.
Qed.

(** ** Blocking downstream *)

(** The identifiers that can be queued. *)
Definition targets (e : TaskEngine) : gset TaskId := list_to_set (map snd (edges e)).

Lemma targets_elem e d : d ∈ targets e ↔ ∃ p, (p, d) ∈ edges e.
Proof.
  unfold targets. rewrite elem_of_list_to_set, list_elem_of_fmap. split.
  - intros ([p d'] & -> & H). by exists p.
  - intros [p H]. by exists (p, d).
Qed.

Lemma targets_size e : (size (targets e) ≤ length (edges e))%nat.
Proof.
  unfold targets. rewrite <-(length_map snd (edges e)). generalize (map snd (edges e)).
  intros l. induction l as [|x l IH]; cbn [list_to_set length]; [by rewrite size_empty|].
  rewrite size_union_alt, size_singleton.
  assert (size (list_to_set l ∖ {[x]} : gset TaskId) ≤ size (list_to_set l : gset TaskId))%nat
    by (apply subseteq_size; set_solver). lia.
Qed.

(** Not started and not blocked. *)
Definition blockable (s : option TaskStatus) : Prop := s = Some Pending ∨ s = Some ReadyStatus.

Definition cause (e : TaskEngine) (d : TaskId) : Prop :=
  ∃ p, (p, d) ∈ edges e ∧ status_of e p ≠ Some Succeeded.

Lemma block_one_ok e id t now : dag_ok e → tasks e !! id = Some t → blockable (status_of e id) →
  cause e id → dag_ok (set_status e id Blocked now).
Proof.
  intros Hok Ht Hb Hc. rewrite (set_status_eq _ _ _ _ _ Ht).
  pose proof (status_of_Some _ _ _ Ht) as Hs. eapply changed_ok; simpl; try done.
  destruct Hb as [Hb|Hb]; congruence.
Qed.

(** What the loop does to the statuses: it blocks, and only tasks not started. *)
Definition blocks_only (e e' : TaskEngine) : Prop :=
  edges e' = edges e ∧ (∀ id, is_Some (tasks e !! id) → is_Some (tasks e' !! id))
  ∧ ∀ id, tasks e' !! id = tasks e !! id
      ∨ blockable (status_of e id) ∧ status_of e' id = Some Blocked.

Lemma blocks_only_status e e' id : blocks_only e e' → status_of e' id = status_of e id
  ∨ blockable (status_of e id) ∧ status_of e' id = Some Blocked.
Proof. intros (_ & _ & H). destruct (H id) as [E|]; [left|by right]. unfold status_of. by rewrite E. Qed.

#[export] Instance blocks_only_preorder : PreOrder blocks_only.
Proof.
  split; [intros e; unfold blocks_only; auto|].
  intros e1 e2 e3 (E1 & D1 & S1) (E2 & D2 & S2). split_and!; [congruence|auto|].
  intros id. destruct (S1 id) as [H1|[H1 H1']], (S2 id) as [H2|[H2 H2']].
  - left. congruence.
  - right. unfold status_of in *. rewrite <-H1. auto.
  - right. split; [done|]. unfold status_of in *. congruence.
  - destruct H2; congruence.
Qed.

Lemma blocks_only_succeeded e e' id : blocks_only e e' →
  status_of e id ≠ Some Succeeded → status_of e' id ≠ Some Succeeded.
Proof. intros H Hn. destruct (blocks_only_status _ _ id H) as [->|[_ ->]]; done. Qed.

Lemma blocks_only_cause e e' id : blocks_only e e' → cause e id → cause e' id.
Proof.
  intros Hb (p & Hp & Hs). exists p. split; [by rewrite (proj1 Hb)|]. by eapply blocks_only_succeeded.
Qed.

Lemma blocks_only_not_blockable e e' id : blocks_only e e' →
  ¬ blockable (status_of e id) → ¬ blockable (status_of e' id).
Proof. intros H Hn. destruct (blocks_only_status _ _ id H) as [->|[? _]]; done. Qed.

Lemma block_one_only e id t now : tasks e !! id = Some t → blockable (status_of e id) →
  blocks_only e (set_status e id Blocked now).
Proof.
  intros Ht Hb. destruct (set_status_same e id Blocked now t Ht) as (H1 & H2 & H3).
  split_and!; [done|done|]. intros i. destruct (decide (i = id)) as [->|]; [|left; by apply H2].
  right. split; [done|]. by rewrite (set_status_eq _ _ _ _ _ Ht), status_changed, decide_True.
Qed.

(** The loop's invariant: what is queued has a cause to be blocked, and what was seen
    is queued or out of danger. *)
Record block_inv (e : TaskEngine) (visited : gset TaskId) (queue : list TaskId) : Prop := {
  bi_ok : dag_ok e;
  bi_cause : ∀ id, id ∈ queue → cause e id;
  bi_seen : ∀ id, id ∈ visited → id ∈ queue ∨ ¬ blockable (status_of e id)
}.

Lemma block_inv_skip e visited id queue : block_inv e visited (id :: queue) →
  ¬ blockable (status_of e id) → block_inv e visited queue.
Proof.
  intros [H1 H2 H3] Hb. constructor; [done| |].
  - intros i Hi. apply H2. by apply elem_of_cons; right.
  - intros i Hi. destruct (H3 i Hi) as [[->|]%elem_of_cons|]; auto.
Qed.

Lemma status_blocked e id t now : tasks e !! id = Some t →
  status_of (set_status e id Blocked now) id = Some Blocked.
Proof. intros Ht. by rewrite (set_status_eq _ _ _ _ _ Ht), status_changed, decide_True. Qed.

(** One turn of the loop on a task it blocks. *)
Lemma block_inv_step e visited id queue t now v q : block_inv e visited (id :: queue) →
  tasks e !! id = Some t → blockable (status_of e id) →
  enqueue_new visited queue (query_dependents (set_status e id Blocked now) id) = (v, q) →
  block_inv (set_status e id Blocked now) v q
  ∧ (size (targets e ∖ v) + length q = size (targets e ∖ visited) + length queue)%nat
  ∧ (∀ i, i ∈ v ↔ i ∈ visited ∨ (id, i) ∈ edges e).
Proof.
  intros [Hok Hcause Hvis] Ht Hb Eq. pose proof (block_one_only e id t now Ht Hb) as Hbo.
  apply (enqueue_new_spec (targets e)) in Eq as (Hsz & Hel & new & -> & Hnew).
  2: { intros d Hd%dependents_elem. rewrite (proj1 Hbo) in Hd. apply targets_elem. eauto. }
  setoid_rewrite dependents_elem in Hel. setoid_rewrite dependents_elem in Hnew.
  rewrite (proj1 Hbo) in Hel, Hnew. pose proof (status_blocked e id t now Ht) as Hbl.
  split_and!; [constructor|done|done].
  - apply (block_one_ok _ _ t); try done. apply Hcause, list_elem_of_here.
  - intros i [Hi|Hi]%elem_of_app.
    + eapply blocks_only_cause; [done|]. apply Hcause. by apply elem_of_cons; right.
    + apply Hnew in Hi as [Hi _]. exists id. by rewrite (proj1 Hbo), Hbl.
  - intros i Hi. destruct (decide (i ∈ queue ++ new)) as [|Hnq]; [by left|right].
    destruct (decide (i = id)) as [->|Hne]; [rewrite Hbl; by intros []|].
    rewrite elem_of_app, Hnew in Hnq. eapply blocks_only_not_blockable; [done|].
    destruct (decide (i ∈ visited)) as [Hiv|]; [|naive_solver].
    destruct (Hvis i Hiv) as [[->|]%elem_of_cons|]; naive_solver.
Qed.

(** The loop ends within its fuel, keeps the invariant, and whatever it blocked has
    no dependent left that could still run. *)
Lemma block_loop_ok now fuel : ∀ e visited queue, block_inv e visited queue →
  (size (targets e ∖ visited) + length queue < fuel)%nat →
  ∃ e', block_loop fuel e visited queue now = Returned (Ok e') ∧ dag_ok e' ∧ blocks_only e e'
    ∧ (∀ id, id ∈ visited → ¬ blockable (status_of e' id))
    ∧ ∀ id d, status_of e' id ≠ status_of e id → (id, d) ∈ edges e → ¬ blockable (status_of e' d).
Proof.
  induction fuel as [|fuel IH]; intros e visited queue Hinv Hfuel; [lia|].
  cbn [block_loop]. destruct queue as [|id queue].
  { exists e. split_and!; [done|apply Hinv|reflexivity| |done].
    intros id Hid. destruct (bi_seen _ _ _ Hinv id Hid) as [H|H]; [by apply elem_of_nil in H|done]. }
  destruct (bi_cause _ _ _ Hinv id) as (p & Hp & _); [apply list_elem_of_here|].
  destruct (ok_edges _ _ (bi_ok _ _ _ Hinv) p id Hp) as [_ [t Ht]].
  pose proof (status_of_Some _ _ _ Ht) as Hst. rewrite (proj2 (get_task_Ok e id t) Ht).
  destruct (decide (blockable (status_of e id))) as [Hb|Hb].
  - destruct (enqueue_new visited queue (query_dependents (set_status e id Blocked now) id))
      as [v q] eqn:Eq.
    pose proof (block_one_only e id t now Ht Hb) as Hbo.
    destruct (block_inv_step _ _ _ _ _ _ _ _ Hinv Ht Hb Eq) as (Hinv' & Hsz & Hel).
    destruct (IH _ v q Hinv') as (e' & E1 & Hok' & Hbo' & Hv' & Hcl).
    { unfold targets in *. rewrite (proj1 Hbo), Hsz. simpl in Hfuel. lia. }
    exists e'. split_and!; [|done|by transitivity (set_status e id Blocked now)| |].
    + destruct Hb as [Hb|Hb]; rewrite Hst in Hb; injection Hb as ->; exact E1.
    + intros i Hi. apply Hv', Hel. by left.
    + intros i d Hi Hd. destruct (decide (i = id)) as [->|Hne]; [apply Hv', Hel; by right|].
      apply (Hcl i d); [|by rewrite (proj1 Hbo)].
      unfold status_of at 2. by rewrite (proj1 (proj2 (set_status_same e id Blocked now t Ht)) i Hne).
  - destruct (IH e visited queue) as (e' & E1 & Hrest); [by eapply block_inv_skip|simpl in Hfuel; lia|].
    exists e'. split; [|done]. rewrite <-E1. destruct (task_status t) eqn:Hs; try done.
    all: exfalso; apply Hb; rewrite Hst; by constructor.
Qed.

Lemma cascade_block_ok e root now : dag_ok e → status_of e root ≠ Some Succeeded →
  ∃ e', cascade_block e root now = Returned (Ok e') ∧ dag_ok e' ∧ blocks_only e e'
    ∧ ∀ id d, id = root ∨ status_of e' id ≠ status_of e id → (id, d) ∈ edges e →
        ¬ blockable (status_of e' d).
Proof.
  intros Hok Hroot. unfold cascade_block.
  destruct (enqueue_new ∅ [] (query_dependents e root)) as [v q] eqn:Eq.
  apply (enqueue_new_spec (targets e)) in Eq as (Hsz & Hel & new & -> & Hnew).
  2: { intros d Hd%dependents_elem. apply targets_elem. eauto. }
  setoid_rewrite dependents_elem in Hel. setoid_rewrite dependents_elem in Hnew.
  simpl in *. destruct (block_loop_ok now (S (length (edges e))) e v new) as (e' & E & Hok' & Hbo & Hv & Hcl).
  - constructor; [done| |].
    + intros id [Hid _]%Hnew. by exists root.
    + intros id Hid. left. apply Hnew. split; [|set_solver]. apply Hel in Hid. set_solver.
  - rewrite Hsz. pose proof (targets_size e).
    assert (size (targets e ∖ ∅) ≤ size (targets e))%nat by (apply subseteq_size; set_solver). lia.
  - exists e'. split_and!; [done|done|done|]. intros id d [->|Hd] Hed; [|by eapply Hcl].
    apply Hv, Hel. by right.
Qed.

(** Giving up a task that has not succeeded. *)
Lemma stop_task_ok e id t t' now : dag_ok e → tasks e !! id = Some t → task_id t' = task_id t →
  task_status t ≠ Succeeded → task_status t' = Failed ∨ task_status t' = Cancelled →
  ∃ e' r, block_and_commit e (changed e id t') id now = Returned (e', r) ∧ dag_ok e'
    ∧ r = get_task e' id ∧ blocks_only (changed e id t') e'
    ∧ ∀ i d, i = id ∨ status_of e' i ≠ status_of (changed e id t') i → (i, d) ∈ edges e →
        ¬ blockable (status_of e' d).
Proof.
  intros Hok Ht Hid Hns Hs. unfold block_and_commit.
  destruct (cascade_block_ok (changed e id t') id now) as (e' & -> & Hok' & Hbo & Hcl).
  - eapply changed_ok; try done; destruct Hs as [-> | ->]; done.
  - rewrite status_changed, decide_True by done. destruct Hs as [-> | ->]; done.
  - exists e', (get_task e' id). done.
Qed.

(** What giving up leaves alone: every row that is not its own and not blocked by it. *)
Definition stopped (e e' : TaskEngine) (id : TaskId) (t' : TaskNode) : Prop :=
  tasks e' !! id = Some t' ∧ edges e' = edges e
  ∧ (∀ i, i ≠ id → tasks e' !! i = tasks e !! i ∨ blockable (status_of e i) ∧ status_of e' i = Some Blocked)
  ∧ ∀ i d, i = id ∨ status_of e' i ≠ status_of e i → (i, d) ∈ edges e → ¬ blockable (status_of e' d).

Lemma stop_task_stopped e id t t' now : dag_ok e → tasks e !! id = Some t → task_id t' = task_id t →
  task_status t ≠ Succeeded → task_status t' = Failed ∨ task_status t' = Cancelled →
  ∃ e', block_and_commit e (changed e id t') id now = Returned (e', Ok t') ∧ dag_ok e' ∧ stopped e e' id t'.
Proof.
  intros Hok Ht Hid Hns Hs.
  destruct (stop_task_ok e id t t' now Hok Ht Hid Hns Hs) as (e' & r & E & Hok' & -> & Hbo & Hcl).
  pose proof Hbo as (Hed & _ & Hch).
  assert (status_of (changed e id t') id = Some (task_status t')) as Hsid by (by rewrite status_changed, decide_True).
  assert (tasks e' !! id = Some t') as Hid'.
  { destruct (Hch id) as [->|[Hb _]]; [simpl; by rewrite lookup_insert_eq|].
    rewrite Hsid in Hb. destruct Hs as [Hs|Hs]; rewrite Hs in Hb; by destruct Hb. }
  exists e'. unfold stopped. split_and!; [by rewrite E, (proj2 (get_task_Ok _ _ _) Hid')|done|done|done| |].
  - intros i Hi. destruct (Hch i) as [Ei|[Hb Ei]]; [left|right].
    + rewrite Ei. simpl. by rewrite lookup_insert_ne.
    + by rewrite status_changed, decide_False in Hb.
  - intros i d Hi Hd. destruct (decide (i = id)) as [->|Hne]; [by apply (Hcl id d); auto|].
    apply (Hcl i d); [|done]. right. rewrite status_changed, decide_False by done. naive_solver.
Qed.

(** The row of a failed task, and of a cancelled one. *)
Definition failed (t : TaskNode) (reason : string) (now_ms : Z) : TaskNode :=
  mkTask t.(task_id) t.(task_title) t.(task_description) t.(task_priority) Failed
    t.(assigned_agent) t.(generation) t.(checkpoint) (Some reason) t.(created_at_ms) now_ms.
Definition cancelled (t : TaskNode) (now_ms : Z) : TaskNode :=
  mkTask t.(task_id) t.(task_title) t.(task_description) t.(task_priority) Cancelled
    t.(assigned_agent) (next_generation t) t.(checkpoint) t.(failure_reason) t.(created_at_ms) now_ms.

Lemma fail_task_cases e id token reason now : dag_ok e →
  ∃ e' r, fail_task e id token reason now = Returned (e', r) ∧ dag_ok e' ∧
    (e' = e ∧ (∃ err, r = Err err)
       ∧ (slen (trim reason) ≤ MAX_FAILURE_REASON_BYTES → ∀ t, ¬ accepted e id token t)
     ∨ ∃ t, accepted e id token t ∧ r = Ok (failed t (trim reason) now)
        ∧ stopped e e' id (failed t (trim reason) now)).
Proof.
  intros Hok. unfold fail_task, accepted. destruct (slen (trim reason) >? MAX_FAILURE_REASON_BYTES) eqn:Hlen.
  { eexists e, _. split_and!; [done|done|]. left. split_and!; [done|eauto|]. lia. }
  destruct (get_task e id) as [t|err] eqn:Ht.
  2: { exists e, (Err err). split_and!; [done|done|]. left. split_and!; [done|eauto|].
       intros _ t (Ht' & _). apply get_task_Ok in Ht'. congruence. }
  apply get_task_Ok in Ht.
  destruct (check_running _ _ _ _) as [[]|err] eqn:Hc.
  2: { exists e, (Err err). split_and!; [done|done|]. left. split_and!; [done|eauto|].
       intros _ t' (Ht' & Hs & Hg). rewrite Ht in Ht'. injection Ht' as <-.
       rewrite (proj2 (check_running_ok id token Failed t)) in Hc; done. }
  erewrite update_task_eq by (done || by eapply report_row).
  apply check_running_ok in Hc as [Hs Hg]. change (mkTask _ _ _ _ _ _ _ _ _ _ _) with (failed t (trim reason) now).
  destruct (stop_task_stopped e id t (failed t (trim reason) now) now) as (e' & E & Hok' & Hst); [done|done|done|congruence|by left|].
  exists e'. eexists. split_and!; [exact E|done|]. right. exists t. done.
Qed.

Lemma cancel_task_cases e id now : dag_ok e →
  ∃ e' r, cancel_task e id now = Returned (e', r) ∧ dag_ok e' ∧
    (e' = e ∧ (∃ err, r = Err err) ∧ (∀ t, tasks e !! id = Some t → is_terminal (task_status t) = true)
     ∨ ∃ t, tasks e !! id = Some t ∧ is_terminal (task_status t) = false ∧ r = Ok (cancelled t now)
        ∧ stopped e e' id (cancelled t now)).
Proof.
  intros Hok. unfold cancel_task. destruct (get_task e id) as [t|err] eqn:Ht.
  2: { exists e, (Err err). split_and!; [done|done|]. left. split_and!; [done|eauto|].
       intros t Ht'. apply get_task_Ok in Ht'. congruence. }
  apply get_task_Ok in Ht. destruct (is_terminal _) eqn:Hterm.
  { eexists e, _. split_and!; [done|done|]. left. split_and!; [done|eauto|]. intros t' Ht'. congruence. }
  erewrite update_task_eq by (done || by rewrite Hterm).
  change (mkTask _ _ _ _ _ _ _ _ _ _ _) with (cancelled t now).
  destruct (stop_task_stopped e id t (cancelled t now) now) as (e' & E & Hok' & Hst); [done|done|done| |by right|].
  { by intros Hs; rewrite Hs in Hterm. }
  exists e'. eexists. split_and!; [exact E|done|]. right. exists t. done.
Qed.

Lemma initial_waiting b u : waiting (initial_status b u) = true → ¬ (b = false ∧ u = false).
Proof. destruct b, u; simpl; by intros ? []. Qed.

Lemma initial_started b u : started (initial_status b u) = true → b = false ∧ u = false.
Proof. by destruct b, u. Qed.

Lemma retry_task_ok e id now e' r : dag_ok e → retry_task e id now = (e', r) → dag_ok e'.
Proof.
  intros Hok. unfold retry_task.
  destruct (get_task e id) as [t|] eqn:Ht; [|by intros [= <- <-]]. apply get_task_Ok in Ht.
  unfold get_dependencies. rewrite (proj2 (has_task_true e id)) by eauto.
  destruct (scan_spec e (query_prerequisites e id)) with (b := false) (u := false)
    as (b & u & -> & Hiff).
  { intros p Hp%prerequisites_elem. by apply (ok_edges _ _ Hok p id). }
  destruct (task_status t) eqn:Hs; try (by intros [= <- <-]).
  all: erewrite update_task_eq by done; intros [= <- <-].
  all: eapply changed_ok; simpl; try done.
  all: try (by rewrite Hs).
  all: try (intros Hst%initial_started p Hp; apply Hiff in Hst as (_ & _ & Hst); by apply Hst, prerequisites_elem).
  all: try (intros Hx; by destruct b, u).
  all: intros Hw%initial_waiting _; destruct (some_unfinished e (query_prerequisites e id)) as (p & Hp & Hps);
    [tauto|]; apply prerequisites_elem in Hp; eauto.
Qed.

(** ** What never changes *)

Lemma assign_task_cases e id agent now e' r : assign_task e id agent now = (e', r) →
  e' = e ∧ (∃ err, r = Err err)
  ∨ ∃ t t', tasks e !! id = Some t ∧ task_status t = ReadyStatus ∧ e' = changed e id t'
      ∧ r = Ok (next_generation t) ∧ task_status t' = Running ∧ generation t' = next_generation t.
Proof.
  unfold assign_task. do 2 (case_if; [intros [= <- <-]; left; eauto|]).
  destruct (get_task e id) as [t|] eqn:Ht; [|intros [= <- <-]; left; eauto]. apply get_task_Ok in Ht.
  case_bool_decide as Hs; simpl; [|intros [= <- <-]; left; eauto].
  erewrite update_task_eq; [|done|by rewrite Hs, Z.eqb_refl, bool_decide_eq_true_2]. intros [= <- <-].
  right. eexists t, _. by split_and!.
Qed.

Lemma retry_task_cases e id now e' r : retry_task e id now = (e', r) →
  e' = e ∨ ∃ t t', tasks e !! id = Some t ∧ (task_status t = Failed ∨ task_status t = Cancelled)
    ∧ e' = changed e id t'.
Proof.
  unfold retry_task. destruct (get_task e id) as [t|] eqn:Ht; [|intros [= <- <-]; by left].
  apply get_task_Ok in Ht. destruct (task_status t) eqn:Hs; try (intros [= <- <-]; by left).
  all: destruct (get_dependencies e id); [|intros [= <- <-]; by left].
  all: destruct (scan_prerequisites _ _ _ _) as [[b u]|]; [|intros [= <- <-]; by left].
  all: erewrite update_task_eq by done; intros [= <- <-]; right; eauto 10.
Qed.

Lemma create_task_cases e d now e' r : create_task e d now = (e', r) →
  e' = e ∨ tasks e !! draft_id d = None ∧ ∃ t, tasks e' = <[draft_id d := t]> (tasks e).
Proof.
  unfold create_task. do 4 (case_if; [intros [= <- <-]; by left|]).
  destruct (has_task e (draft_id d)) eqn:Hnew; [intros [= <- <-]; by left|].
  apply bool_decide_eq_false, eq_None_not_Some in Hnew.
  destruct (check_dependencies _ _ _); [|intros [= <- <-]; by left].
  destruct (scan_prerequisites _ _ _ _) as [[b u]|]; [|intros [= <- <-]; by left].
  intros [= <- <-]. right. eauto.
Qed.

Lemma changed_frame e id t t' i u : tasks e !! id = Some t → tasks e !! i = Some u →
  task_status t ≠ task_status u → tasks (changed e id t') !! i = Some u.
Proof.
  intros Ht Hu Hne. simpl. rewrite lookup_insert_ne; [done|]. intros ->. congruence.
Qed.
