(* ===== verification/TaskPaths.v ===== *)
(** * TaskPaths: searching the task graph

    The breadth-first search of [find_path] is exact: it returns a walk along the
    edges when there is one, and otherwise a set of tasks closed under edges shows
    that there is none.  So [add_dependency] refuses exactly the edges that would
    close a cycle, and keeps the invariant of the engine. *)

From stdpp Require Import gmap.
From S2P Require Import Prelude Text Order TaskDag TaskDagFacts.

Local Open Scope Z_scope.

(** Consecutive tasks of the list are joined by edges. *)
Fixpoint is_walk (l : list (TaskId * TaskId)) (path : list TaskId) : Prop :=
  match path with
  | x :: ((y :: _) as path) => (x, y) ∈ l ∧ is_walk l path
  | _ => True
  end.

Lemma walk_rank l path x y : is_walk l path → head path = Some x → last path = Some y →
  ∀ rank : TaskId → nat, (∀ p d, (p, d) ∈ l → (rank p < rank d)%nat) → (rank x ≤ rank y)%nat.
Proof.
  intros Hw Hx Hy rank Hr. revert x Hw Hx. induction path as [|a path IH]; intros x Hw Hx; [done|].
  injection Hx as ->. destruct path as [|b path]; [injection Hy as ->; lia|].
  destruct Hw as [Hab Hw]. apply Hr in Hab.
  specialize (IH Hy b Hw eq_refl). lia.
Qed.

Lemma walk_snoc l path x y : is_walk l path → last path = Some x → (x, y) ∈ l → is_walk l (path ++ [y]).
Proof.
  intros Hw Hx Hxy. induction path as [|a path IH]; [done|].
  destruct path as [|b path]; [injection Hx as ->; by split|].
  destruct Hw as [Hab Hw]. split; [done|]. by apply IH.
Qed.

Lemma walk_mono l l' path : (∀ x, x ∈ l → x ∈ l') → is_walk l path → is_walk l' path.
Proof.
  intros Hl. induction path as [|a [|b path] IH]; [done..|]. intros [Hab Hw]. split; auto.
Qed.

(** ** The search tree *)

(** The tasks in the order of their discovery: each but the first has a parent that
    was discovered before it. *)
Record tree_inv (e : TaskEngine) (from : TaskId) (visited : gset TaskId) (parent : gmap TaskId TaskId)
    (order : list TaskId) : Prop := {
  ti_nodup : NoDup order;
  ti_head : head order = Some from;
  ti_seen : ∀ x, x ∈ visited ↔ x ∈ order;
  ti_parent : ∀ i x, order !! i = Some x → x ≠ from →
    ∃ p j, parent !! x = Some p ∧ (p, x) ∈ edges e ∧ order !! j = Some p ∧ (j < i)%nat;
  ti_dom : ∀ x, is_Some (parent !! x) → x ∈ order;
  ti_size : S (size parent) = length order
}.

Lemma tree_start e from : tree_inv e from {[from]} ∅ [from].
Proof.
  constructor.
  - apply NoDup_singleton.
  - done.
  - set_solver.
  - intros [|i] x [= ->]; done.
  - intros x [p Hp]. by rewrite lookup_empty in Hp.
  - by rewrite map_size_empty.
Qed.

Lemma tree_add e from visited parent order current x : tree_inv e from visited parent order →
  current ∈ order → (current, x) ∈ edges e → (x ∉ visited) →
  tree_inv e from ({[x]} ∪ visited) (<[x := current]> parent) (order ++ [x]).
Proof.
  intros [H1 H2 H3 H4 H5 H6] [k Hk]%list_elem_of_lookup Hx Hv.
  assert (x ∉ order) as Hxo by (by rewrite <-H3). constructor.
  - apply NoDup_app. split_and!; [done|set_solver|apply NoDup_singleton].
  - by destruct order.
  - intros y. rewrite elem_of_union, elem_of_singleton, elem_of_app, list_elem_of_singleton, H3. tauto.
  - intros i y Hy Hne. apply lookup_app_Some in Hy as [Hy|[Hi Hy]].
    + destruct (H4 i y Hy Hne) as (p & j & Hp & Hpe & Hj & Hlt). exists p, j.
      rewrite lookup_insert_ne by (intros ->; by apply Hxo, list_elem_of_lookup_2 with i).
      split_and!; [done|done|by apply lookup_app_l_Some|done].
    + apply list_lookup_singleton_Some in Hy as [Hi' <-]. exists current, k.
      apply lookup_lt_Some in Hk as Hlt.
      rewrite lookup_insert_eq. split_and!; [done|done|by apply lookup_app_l_Some|lia].
  - intros y. rewrite lookup_insert_is_Some', elem_of_app, list_elem_of_singleton. naive_solver.
  - rewrite map_size_insert_None, H6, length_app; simpl; [lia|].
    apply eq_None_not_Some. intros Hs. by apply Hxo, H5.
Qed.

Lemma visit_rows_tree e from current rows : ∀ visited parent queue v p q order,
  visit_rows current visited parent queue rows = (v, p, q) →
  (∀ x, x ∈ rows → (current, x) ∈ edges e) → current ∈ order → tree_inv e from visited parent order →
  ∃ new, tree_inv e from v p (order ++ new) ∧ q = queue ++ new ∧ ∀ x, x ∈ rows → x ∈ order ++ new.
Proof.
  induction rows as [|x rows IH]; intros visited parent queue v p q order E Hrows Hcur Ht; cbn in E.
  { injection E as <- <- <-. exists []. rewrite !app_nil_r. split_and!; [done|done|set_solver]. }
  assert (∀ y, y ∈ rows → (current, y) ∈ edges e) as Hrows' by (intros; apply Hrows; by apply elem_of_cons; right).
  case_bool_decide as Hv.
  - destruct (IH _ _ _ _ _ _ _ E Hrows' Hcur Ht) as (new & Hnew & -> & Hall). exists new.
    split_and!; [done|done|]. intros y [->|Hy]%elem_of_cons; [|by apply Hall].
    apply elem_of_app. left. by apply (ti_seen _ _ _ _ _ Ht).
  - apply (tree_add _ _ _ _ _ current x) in Ht; [|done|by apply Hrows, list_elem_of_here|done].
    destruct (IH _ _ _ _ _ _ _ E Hrows' ltac:(apply elem_of_app; by left) Ht) as (new & Hnew & -> & Hall).
    rewrite <-app_assoc in Hnew. exists (x :: new). rewrite <-!app_assoc. rewrite <-app_assoc in Hall.
    split_and!; [done|done|]. intros y [->|Hy]%elem_of_cons; [set_solver|by apply Hall].
Qed.

(** Following the parents back reaches the start, within the size of the tree. *)
Lemma walk_back_ok e from visited parent order : tree_inv e from visited parent order →
  ∀ fuel i curr acc, order !! i = Some curr → (i < fuel)%nat → is_walk (edges e) (curr :: acc) →
  ∃ path, walk_back fuel parent from curr acc = Returned path ∧ head path = Some from
    ∧ last path = last (curr :: acc) ∧ is_walk (edges e) path.
Proof.
  intros Ht. induction fuel as [|fuel IH]; intros i curr acc Hi Hf Hw; [lia|]. cbn [walk_back].
  destruct (str_eqb curr from) eqn:Hc.
  { apply str_eqb_eq in Hc as ->. exists (from :: acc). done. }
  apply str_eqb_neq in Hc.
  destruct (ti_parent _ _ _ _ _ Ht i curr Hi Hc) as (p & j & -> & Hpe & Hj & Hlt).
  destruct (IH j p (curr :: acc) Hj) as (path & -> & Hh & Hl & Hwp); [lia|by split|].
  exists path. by split_and!.
Qed.

(** ** The search *)

Section Search.
Context (shuffle : ∀ A : Type, list A → list A).
Context (Hshuffle : ∀ (A : Type) (l : list A), shuffle A l ≡ₚ l).

Lemma unordered_elem e id d : d ∈ unordered_dependents shuffle e id ↔ (id, d) ∈ edges e.
Proof.
  unfold unordered_dependents. rewrite Hshuffle, list_elem_of_fmap. split.
  - intros ([p d'] & -> & [H Heq]%List_filter_elem). simpl in *. apply str_eqb_eq in Heq as ->. done.
  - intros H. exists (id, d). split; [done|]. apply List_filter_elem. split; [done|]. apply str_eqb_refl.
Qed.

(** Everything discovered but the start is the target of an edge. *)
Lemma tree_bound e from visited parent order : tree_inv e from visited parent order →
  (length order ≤ S (length (edges e)))%nat.
Proof.
  intros Ht. pose proof (targets_size e) as Hsz.
  assert (length order = size (list_to_set order : gset TaskId)) as ->.
  { symmetry. apply size_list_to_set, Ht. }
  assert (size ({[from]} ∪ targets e : gset TaskId) ≤ S (size (targets e)))%nat as Hle.
  { rewrite size_union_alt, size_singleton.
    assert (size (targets e ∖ {[from]}) ≤ size (targets e))%nat by (apply subseteq_size; set_solver). lia. }
  assert (size (list_to_set order : gset TaskId) ≤ size ({[from]} ∪ targets e : gset TaskId))%nat; [|lia].
  apply subseteq_size. intros x Hx. rewrite elem_of_list_to_set in Hx. rewrite elem_of_union, elem_of_singleton.
  destruct (decide (x = from)); [by left|right]. apply targets_elem.
  apply list_elem_of_lookup in Hx as [i Hi].
  destruct (ti_parent _ _ _ _ _ Ht i x Hi) as (p & _ & _ & Hp & _); [done|]. by exists p.
Qed.

(** What the search answers: a walk, or a set closed under edges that separates. *)
Definition path_answer (e : TaskEngine) (from to : TaskId) (r : option (list TaskId)) : Prop :=
  match r with
  | Some path => head path = Some from ∧ last path = Some to ∧ is_walk (edges e) path
  | None => ∃ closed : gset TaskId, from ∈ closed ∧ (to ∉ closed)
      ∧ ∀ p d, (p, d) ∈ edges e → p ∈ closed → d ∈ closed
  end.

Lemma path_loop_ok e from to fuel : ∀ visited parent queue finished,
  tree_inv e from visited parent (finished ++ queue) →
  (∀ x, x ∈ finished → x ≠ to ∧ ∀ d, (x, d) ∈ edges e → d ∈ finished ++ queue) →
  (S (length (edges e)) < fuel + length finished)%nat →
  ∃ r, path_loop shuffle fuel e visited parent queue from to = Returned r ∧ path_answer e from to r.
Proof.
  induction fuel as [|fuel IH]; intros visited parent queue finished Ht Hfin Hfuel.
  { pose proof (tree_bound _ _ _ _ _ Ht) as Hb. rewrite length_app in Hb. lia. }
  cbn [path_loop]. destruct queue as [|current queue].
  { exists None. split; [done|]. rewrite app_nil_r in *. exists visited. split_and!.
    - apply (ti_seen _ _ _ _ _ Ht). pose proof (ti_head _ _ _ _ _ Ht) as Hh.
      destruct finished; [done|]. injection Hh as ->. apply list_elem_of_here.
    - intros Hto%(ti_seen _ _ _ _ _ Ht). by apply Hfin in Hto as [].
    - intros p d Hpd Hp%(ti_seen _ _ _ _ _ Ht). apply (ti_seen _ _ _ _ _ Ht). by eapply Hfin. }
  destruct (str_eqb current to) eqn:Hc.
  - apply str_eqb_eq in Hc as ->.
    destruct (walk_back_ok _ _ _ _ _ Ht (S (size parent)) (length finished) to []) as (path & -> & Hh & Hl & Hw).
    + by rewrite lookup_app_r, Nat.sub_diag by done.
    + rewrite (ti_size _ _ _ _ _ Ht), length_app. simpl. lia.
    + done.
    + exists (Some path). done.
  - apply str_eqb_neq in Hc.
    destruct (visit_rows current visited parent queue (unordered_dependents shuffle e current))
      as [[v p] q] eqn:Ev.
    eapply visit_rows_tree in Ev as (new & Hnew & -> & Hall); [|intros x; apply unordered_elem| |exact Ht].
    2: { apply elem_of_app. right. apply list_elem_of_here. }
    apply (IH v p (queue ++ new) (finished ++ [current])).
    + by rewrite <-!app_assoc in *.
    + intros x [Hx|Hx%list_elem_of_singleton]%elem_of_app; rewrite <-!app_assoc; simpl.
      * apply Hfin in Hx as [Hx Hd]. split; [done|]. intros d Hxd%Hd.
        rewrite app_comm_cons, app_assoc. apply elem_of_app. by left.
      * subst x. split; [done|]. intros d Hd%unordered_elem. apply Hall in Hd. by rewrite <-app_assoc in Hd.
    + rewrite length_app. simpl. lia.
Qed.

Lemma find_path_ok e from to :
  ∃ r, find_path shuffle e from to = Returned r ∧ path_answer e from to r.
Proof.
  apply (path_loop_ok e from to _ _ _ _ []); [apply tree_start|set_solver|]. simpl. lia.
Qed.

(** ** Adding an edge *)

Definition with_edge (e : TaskEngine) (p d : TaskId) : TaskEngine := mkEngine (tasks e) (edges e ++ [(p, d)]).

(** A separating set raises the ranks of its tasks above the new prerequisite. *)
Lemma ranked_edge l p d (closed : gset TaskId) : ranked l → d ∈ closed → (p ∉ closed) →
  (∀ x y, (x, y) ∈ l → x ∈ closed → y ∈ closed) → ranked (l ++ [(p, d)]).
Proof.
  intros [rank H] Hd Hp Hcl.
  exists (λ x, if decide (x ∈ closed) then (rank x + S (rank p))%nat else rank x).
  intros x y [Hxy|[= -> ->]%list_elem_of_singleton]%elem_of_app.
  - pose proof (H x y Hxy). destruct (decide (x ∈ closed)) as [Hx|].
    + rewrite decide_True by (by eapply Hcl). lia.
    + destruct (decide (y ∈ closed)); lia.
  - rewrite decide_False, decide_True by done. lia.
Qed.

Lemma walk_not_ranked l p d path : head path = Some d → last path = Some p → is_walk l path →
  ¬ ranked (l ++ [(p, d)]).
Proof.
  intros Hh Hl Hw [rank H].
  assert (rank d ≤ rank p)%nat as Hle.
  { eapply walk_rank; [exact Hw|done..|]. intros x y Hxy. apply H, elem_of_app. by left. }
  assert (rank p < rank d)%nat; [|lia]. apply H, elem_of_app. right. by apply list_elem_of_singleton.
Qed.

Lemma with_edge_ok e p d s : dag_ok_but [d] e → status_of e d = Some s → is_Some (tasks e !! p) →
  ((p, d) ∉ edges e) → ranked (edges e ++ [(p, d)]) →
  (started s = true → status_of e p = Some Succeeded) →
  (waiting s = true → ∃ x, (x, d) ∈ edges e ++ [(p, d)] ∧ status_of e x ≠ Some Succeeded) →
  dag_ok (with_edge e p d).
Proof.
  intros [H1 H2 H3 H4 H5 H6] Hd Hp Hnew Hr Hst Hw. constructor; try done.
  - intros x y [Hxy|[= -> ->]%list_elem_of_singleton]%elem_of_app; [by apply H2|].
    split; [done|]. unfold status_of in Hd. simpl. destruct (tasks e !! d); [eauto|done].
  - simpl. apply NoDup_app. split_and!; [done| |apply NoDup_singleton].
    intros x Hx ->%list_elem_of_singleton. done.
  - intros x y s' [Hxy|[= -> ->]%list_elem_of_singleton]%elem_of_app Hy; [by eapply H5|].
    intros Hs'. apply Hst. change (status_of e d = Some s') in Hy. congruence.
  - intros y s' _ Hy Hs'. change (status_of e y = Some s') in Hy. destruct (decide (y = d)) as [->|Hne].
    + apply Hw. congruence.
    + destruct (H6 y s') as (x & Hx & Hxs); [by rewrite list_elem_of_singleton|done..|].
      exists x. split; [apply elem_of_app; by left|done].
Qed.

Lemma waits_without_edge e d s p : dag_ok e → status_of e d = Some s → waiting s = true →
  ∃ x, (x, d) ∈ edges e ++ [(p, d)] ∧ status_of e x ≠ Some Succeeded.
Proof.
  intros Hok Hd Hs. destruct (ok_waiting _ _ Hok d s) as (x & Hx & Hxs); [set_solver|done..|].
  exists x. split; [apply elem_of_app; by left|done].
Qed.

(** The dependent keeps its status, or gives up being ready for a prerequisite that
    is not done. *)
Lemma edge_keep_ok e p d t u : dag_ok e → tasks e !! d = Some t → tasks e !! p = Some u →
  ((p, d) ∉ edges e) → ranked (edges e ++ [(p, d)]) →
  (started (task_status t) = true → task_status u = Succeeded) → dag_ok (with_edge e p d).
Proof.
  intros Hok Ht Hu Hnew Hr Hs. pose proof (status_of_Some _ _ _ Ht) as Hd.
  eapply with_edge_ok; try done.
  - eapply ok_weaken; [done|]. set_solver.
  - intros Hst. rewrite (status_of_Some _ _ _ Hu). by rewrite Hs.
  - intros Hw. by eapply waits_without_edge.
Qed.

Lemma edge_wait_ok e p d t u s now : dag_ok e → tasks e !! d = Some t → tasks e !! p = Some u →
  ((p, d) ∉ edges e) → p ≠ d → ranked (edges e ++ [(p, d)]) →
  task_status t = ReadyStatus → waiting s = true → task_status u ≠ Succeeded →
  dag_ok (set_status (with_edge e p d) d s now).
Proof.
  intros Hok Ht Hu Hnew Hne Hr Hrd Hw Hus.
  assert (set_status (with_edge e p d) d s now = with_edge (changed e d (with_status s now t)) p d) as ->.
  { by rewrite (set_status_eq _ _ _ _ t). }
  assert (status_of (changed e d (with_status s now t)) p = Some (task_status u)) as Hp.
  { rewrite status_changed, decide_False by done. by apply status_of_Some. }
  eapply with_edge_ok.
  - eapply changed_ok; simpl; try done; [|set_solver|by rewrite Hrd|set_solver|intros ->; done].
    by destruct s.
  - rewrite status_changed, decide_True; done.
  - simpl. apply lookup_insert_is_Some'. eauto.
  - done.
  - done.
  - simpl. by destruct s.
  - intros _. exists p. split; [apply elem_of_app; right; by apply list_elem_of_singleton|].
    rewrite Hp. congruence.
Qed.

(** Every outcome of [add_dependency] on a sound engine. *)
Lemma add_dependency_cases e p d : dag_ok e →
  ∃ e' r, add_dependency shuffle e p d = Returned (e', r) ∧ dag_ok e' ∧
    ((p, d) ∈ edges e ∧ e' = e ∧ r = Ok tt
     ∨ edges e' = edges e ++ [(p, d)] ∧ r = Ok tt
       ∧ (∀ i, tasks e' !! i = tasks e !! i ∨ i = d ∧ status_of e d = Some ReadyStatus)
     ∨ e' = e ∧ (∃ path, r = Err (CycleDetected (path ++ [d])) ∧ head path = Some d ∧ last path = Some p
          ∧ is_walk (edges e) path)
     ∨ e' = e ∧ (r = Err (SelfDependency d) ∧ p = d
          ∨ r = Err (TaskNotFound p) ∧ tasks e !! p = None
          ∨ r = Err (TaskNotFound d) ∧ tasks e !! d = None
          ∨ ∃ s, status_of e d = Some s ∧ s ∈ [Running; Succeeded; Failed; Cancelled]
              ∧ r = Err (InvalidStatusTransition d s Pending))).
Proof.
  intros Hok. unfold add_dependency.
  destruct (str_eqb p d) eqn:Hpd; [apply str_eqb_eq in Hpd as ->|apply str_eqb_neq in Hpd].
  { exists e, (Err (SelfDependency d)). naive_solver. }
  destruct (has_task e p) eqn:Hp; simpl.
  2: { apply bool_decide_eq_false, eq_None_not_Some in Hp. exists e, (Err (TaskNotFound p)). naive_solver. }
  destruct (has_task e d) eqn:Hd; simpl.
  2: { apply bool_decide_eq_false, eq_None_not_Some in Hd. exists e, (Err (TaskNotFound d)). naive_solver. }
  apply has_task_true in Hp as [u Hu]. apply has_task_true in Hd as [t Ht].
  case_bool_decide as Hin; [exists e, (Ok tt); naive_solver|].
  rewrite (proj2 (get_task_Ok e d t) Ht).
  destruct (bool_decide (task_status t = Running) || is_terminal (task_status t)) eqn:Hrun.
  { exists e. eexists. split; [done|]. split; [done|]. do 3 right. split; [done|]. do 3 right.
    exists (task_status t). split; [by apply status_of_Some|]. split; [|done].
    revert Hrun. destruct (task_status t); try done; set_solver. }
  destruct (find_path_ok e d p) as ([path|] & -> & Hr).
  { destruct Hr as (Hh & Hl & Hw). exists e. eexists. split; [done|]. split; [done|]. right. right. left.
    eauto 10. }
  destruct Hr as (closed & Hd & Hp & Hcl).
  pose proof (ranked_edge _ p d closed (ok_ranked _ _ Hok) Hd Hp Hcl) as Hr.
  change (mkEngine (tasks e) (edges e ++ [(p, d)])) with (with_edge e p d).
  assert (get_task (with_edge e p d) p = Ok u) as -> by (by apply get_task_Ok).
  pose proof (edge_keep_ok e p d t u Hok Ht Hu Hin Hr) as Hkeep.
  pose proof (λ s now, edge_wait_ok e p d t u s now Hok Ht Hu Hin Hpd Hr) as Hwait.
  assert (∀ s now, task_status t = ReadyStatus →
    edges (set_status (with_edge e p d) d s now) = edges e ++ [(p, d)] ∧ @Ok unit TaskEngineError tt = Ok tt
    ∧ ∀ i, tasks (set_status (with_edge e p d) d s now) !! i = tasks e !! i
        ∨ i = d ∧ status_of e d = Some ReadyStatus) as Hed.
  { intros s now Hrd. rewrite (set_status_eq _ _ _ _ t) by done. split_and!; [done|done|].
    intros i. simpl. destruct (decide (i = d)) as [->|]; [|left; by apply lookup_insert_ne].
    right. split; [done|]. by rewrite (status_of_Some _ _ _ Ht), Hrd. }
  destruct (task_status t) eqn:Hst; try done; destruct (task_status u) eqn:Hus.
  all: eexists _, (Ok tt); split; [done|]; split; [|right; left; first [by apply Hed|by split_and!; auto]].
  all: first [apply Hkeep; done|apply Hwait; done].
Qed.
End Search.
