(* ===== verification/TaskTopo.v ===== *)
(** * TaskTopo: the topological order

    [topological_sort] on a sound engine: it returns every task once, prerequisites
    first, and at each place the best task that is free there, so the order does not
    depend on the order in which the database returns the rows. *)

From stdpp Require Import gmap.
From S2P Require Import Prelude Text Order TaskDag TaskDagFacts.

Local Open Scope Z_scope.

(** Before, in the order of the ready set. *)
Definition before (k k' : topo_key) : Prop := key_lt (λ k : topo_key, k) k k'.

(** The rows into [v] from a task outside of [sorted]. *)
Definition open_rows (rows : list (TaskId * TaskId)) (sorted : list TaskId) (v : TaskId) : Z :=
  len (List.filter (λ r, str_eqb r.2 v && negb (bool_decide (r.1 ∈ sorted))) rows).

Lemma open_rows_nonneg rows sorted v : 0 ≤ open_rows rows sorted v ≤ len rows.
Proof. split; [apply len_nonneg|apply len_filter_le]. Qed.

Lemma open_rows_cons r rows sorted v : open_rows (r :: rows) sorted v
  = (if str_eqb r.2 v && negb (bool_decide (r.1 ∈ sorted)) then 1 else 0) + open_rows rows sorted v.
Proof. unfold open_rows. simpl. case_match; [by rewrite len_cons|lia]. Qed.

Lemma open_rows_zero rows sorted v : open_rows rows sorted v = 0 ↔ ∀ u, (u, v) ∈ rows → u ∈ sorted.
Proof.
  induction rows as [|[x y] rows IH]; [split; [set_solver|done]|].
  rewrite open_rows_cons. cbn [fst snd]. pose proof (open_rows_nonneg rows sorted v) as [Hnn _].
  destruct (str_eqb y v) eqn:Hy; simpl.
  - apply str_eqb_eq in Hy as ->. case_bool_decide as Hx; simpl.
    + rewrite Z.add_0_l, IH. split; intros H u; [intros [[= ->]|Hu]%elem_of_cons; auto|].
      intros Hu. apply H. by apply elem_of_cons; right.
    + split; [lia|]. intros H. exfalso. apply Hx, H, list_elem_of_here.
  - apply str_eqb_neq in Hy. rewrite Z.add_0_l, IH. split; intros H u.
    + intros [[= -> ->]|Hu]%elem_of_cons; [done|auto].
    + intros Hu. apply H. by apply elem_of_cons; right.
Qed.

Lemma adjacent_elem rows u v : v ∈ adjacent rows u ↔ (u, v) ∈ rows.
Proof.
  unfold adjacent. rewrite list_elem_of_fmap. split.
  - intros ([p d'] & -> & [H Heq]%List_filter_elem). simpl in *. apply str_eqb_eq in Heq as ->. done.
  - intros H. exists (u, v). split; [done|]. apply List_filter_elem. split; [done|]. apply str_eqb_refl.
Qed.

Lemma adjacent_nodup rows u : NoDup rows → NoDup (adjacent rows u).
Proof.
  induction 1 as [|[x y] rows Hx Hnd IH]; unfold adjacent in *; simpl; [constructor|].
  destruct (str_eqb x u) eqn:E; [|done]. apply str_eqb_eq in E as ->. simpl. constructor; [|done].
  by intros Hy%adjacent_elem.
Qed.

(** Sorting [u] closes one row into each of its neighbours. *)
Lemma open_rows_snoc rows sorted u v : NoDup rows → (u ∉ sorted) →
  open_rows rows sorted v = open_rows rows (sorted ++ [u]) v + if bool_decide ((u, v) ∈ rows) then 1 else 0.
Proof.
  intros Hnd Hu. induction Hnd as [|[x y] rows Hx Hnd IH]; [done|].
  rewrite !open_rows_cons, IH. cbn [fst snd]. clear IH.
  destruct (str_eqb y v) eqn:Hy; simpl; [apply str_eqb_eq in Hy as ->|apply str_eqb_neq in Hy].
  - destruct (decide (x = u)) as [->|Hne].
    + rewrite (bool_decide_eq_false_2 (u ∈ sorted)) by done.
      rewrite (bool_decide_eq_true_2 (u ∈ sorted ++ [u])) by (apply elem_of_app; right; apply list_elem_of_here).
      rewrite (bool_decide_eq_false_2 ((u, v) ∈ rows)) by done.
      rewrite (bool_decide_eq_true_2 ((u, v) ∈ (u, v) :: rows)) by apply list_elem_of_here. simpl. lia.
    + rewrite (bool_decide_ext (x ∈ sorted ++ [u]) (x ∈ sorted)) by (rewrite elem_of_app, list_elem_of_singleton; tauto).
      rewrite (bool_decide_ext ((u, v) ∈ (x, v) :: rows) ((u, v) ∈ rows)) by (rewrite elem_of_cons; naive_solver).
      lia.
  - rewrite (bool_decide_ext ((u, v) ∈ (x, y) :: rows) ((u, v) ∈ rows)) by (rewrite elem_of_cons; naive_solver).
    lia.
Qed.

Lemma count_rows_spec rows : ∀ degrees v,
  count_rows degrees rows !! v = (λ n, n + open_rows rows [] v) <$> degrees !! v.
Proof.
  induction rows as [|[x y] rows IH]; intros degrees v.
  - simpl. destruct (degrees !! v); simpl; [|done]. unfold open_rows. simpl. rewrite len_nil. f_equal. lia.
  - cbn [count_rows]. rewrite IH, open_rows_cons. cbn [fst snd].
    rewrite bool_decide_eq_false_2, andb_true_r by set_solver.
    destruct (str_eqb y v) eqn:Hy; [apply str_eqb_eq in Hy as ->|apply str_eqb_neq in Hy].
    + destruct (degrees !! v) eqn:Hv; [rewrite lookup_insert_eq|by rewrite Hv]. simpl. f_equal. lia.
    + destruct (degrees !! y) eqn:Hv; [rewrite lookup_insert_ne by done|]; by rewrite Z.add_0_l.
Qed.

(** ** The ready set *)

Lemma ready_insert_elem k ready k' : k' ∈ ready_insert k ready ↔ k' = k ∨ k' ∈ ready.
Proof.
  unfold ready_insert. case_bool_decide as Hin.
  - naive_solver.
  - by rewrite insert_by_perm, elem_of_cons.
Qed.

Lemma ready_insert_strict k ready : StronglySorted before ready → StronglySorted before (ready_insert k ready).
Proof.
  intros Hs. unfold ready_insert. case_bool_decide as Hin; [done|].
  apply sorted_strict.
  - rewrite map_id, insert_by_perm. apply NoDup_cons. split; [done|]. by apply (strict_NoDup (λ k : topo_key, k)).
  - apply insert_by_sorted; [apply key_le_total|apply key_le_trans|].
    induction Hs as [|x l Hs IH Hall]; constructor.
    + apply IH. set_solver.
    + eapply Forall_impl; [exact Hall|]. intros y Hy. apply key_le_lt. by left.
Qed.

Definition ready_ok (ready : list topo_key) : Prop := StronglySorted before ready.

(** One pass over the neighbours: each loses a row, and those that lost their last
    one become ready. *)
Lemma release_ok e neighbors : ∀ degrees ready, NoDup neighbors → ready_ok ready →
  (∀ v, v ∈ neighbors → is_Some (tasks e !! v) ∧ ∃ n, degrees !! v = Some n ∧ 1 ≤ n ≤ 2 ^ 64) →
  ∃ degrees' ready', release e degrees ready neighbors = Returned (degrees', ready') ∧ ready_ok ready'
    ∧ (∀ v, degrees' !! v = if bool_decide (v ∈ neighbors) then Z.pred <$> degrees !! v else degrees !! v)
    ∧ ∀ k, k ∈ ready' ↔ k ∈ ready
        ∨ ∃ v t, v ∈ neighbors ∧ degrees !! v = Some 1 ∧ tasks e !! v = Some t ∧ k = key_of t.
Proof.
  induction neighbors as [|v neighbors IH]; intros degrees ready Hnd Hs Hall.
  { exists degrees, ready. split_and!; [done|done|done|]. intros k. set_solver. }
  apply NoDup_cons in Hnd as [Hv Hnd].
  destruct (Hall v ltac:(apply list_elem_of_here)) as ([t Ht] & n & Hn & Hle).
  assert (∀ w, w ∈ neighbors → is_Some (tasks e !! w)
    ∧ ∃ m, <[v := Z.pred n]> degrees !! w = Some m ∧ 1 ≤ m ≤ 2 ^ 64) as Hall'.
  { intros w Hw. rewrite lookup_insert_ne by (by intros ->). apply Hall. by apply elem_of_cons; right. }
  cbn [release]. rewrite Hn, Ht. rewrite Z.mod_small by lia.
  change (n - 1) with (Z.pred n) in *.
  assert (∃ ready1, (if Z.pred n =? 0 then release e (<[v := Z.pred n]> degrees) (ready_insert (key_of t) ready) neighbors
      else release e (<[v := Z.pred n]> degrees) ready neighbors)
      = release e (<[v := Z.pred n]> degrees) ready1 neighbors ∧ ready_ok ready1
      ∧ ∀ k, k ∈ ready1 ↔ k ∈ ready ∨ n = 1 ∧ k = key_of t) as (ready1 & -> & Hs1 & Hel1).
  { destruct (Z.eqb_spec (Z.pred n) 0) as [E|E]; eexists; split_and!; try done.
    - by apply ready_insert_strict.
    - intros k. rewrite ready_insert_elem. assert (n = 1) by lia. tauto.
    - intros k. assert (n ≠ 1) by lia. tauto. }
  destruct (IH (<[v := Z.pred n]> degrees) ready1 Hnd Hs1 Hall') as (degrees' & ready' & E & Hs' & Hdeg & Hel).
  exists degrees', ready'. split_and!; [done|done| |].
  - intros w. rewrite Hdeg. destruct (decide (w = v)) as [->|Hne].
    + rewrite bool_decide_eq_false_2 by done. rewrite bool_decide_eq_true_2 by apply list_elem_of_here.
      by rewrite lookup_insert_eq, Hn.
    + rewrite lookup_insert_ne by done.
      by rewrite (bool_decide_ext (w ∈ v :: neighbors) (w ∈ neighbors)) by (rewrite elem_of_cons; tauto).
  - intros k. rewrite Hel, Hel1. split.
    + intros [[Hk|[-> ->]]|(w & u & Hw & Hd & Hu & ->)]; [by left|right|right].
      * exists v, t. split_and!; [apply list_elem_of_here|done..].
      * rewrite lookup_insert_ne in Hd by (by intros ->). exists w, u.
        split_and!; [by apply elem_of_cons; right|done..].
    + intros [Hk|(w & u & [->|Hw]%elem_of_cons & Hd & Hu & ->)]; [auto|left; right|right].
      * rewrite Hd in Hn. split; congruence.
      * exists w, u. rewrite lookup_insert_ne by (by intros ->). done.
Qed.

(** ** The loop *)

(** A task that may come next. *)
Definition free (e : TaskEngine) (rows : list (TaskId * TaskId)) (sorted : list TaskId) (v : TaskId)
    (t : TaskNode) : Prop :=
  tasks e !! v = Some t ∧ (v ∉ sorted) ∧ ∀ u, (u, v) ∈ rows → u ∈ sorted.

(** Every place holds the best task that is free there. *)
Definition greedy (e : TaskEngine) (rows : list (TaskId * TaskId)) (sorted : list TaskId) : Prop :=
  ∀ l1 v l2, sorted = l1 ++ v :: l2 → ∃ t, free e rows l1 v t
    ∧ ∀ w t', free e rows l1 w t' → w ≠ v → before (key_of t) (key_of t').

Record topo_inv (e : TaskEngine) (rows : list (TaskId * TaskId)) (degrees : gmap TaskId Z)
    (ready : list topo_key) (sorted : list TaskId) : Prop := {
  tp_degrees : ∀ v, degrees !! v = (λ _, open_rows rows sorted v) <$> tasks e !! v;
  tp_ready : ∀ k, k ∈ ready ↔ ∃ v t, free e rows sorted v t ∧ k = key_of t;
  tp_strict : ready_ok ready;
  tp_nodup : NoDup sorted;
  tp_greedy : greedy e rows sorted
}.

Lemma greedy_closed e rows sorted u v : greedy e rows sorted → v ∈ sorted → (u, v) ∈ rows → u ∈ sorted.
Proof.
  intros Hg (l1 & l2 & ->)%list_elem_of_split Huv. destruct (Hg l1 v l2 eq_refl) as (t & (_ & _ & H) & _).
  apply elem_of_app. left. by apply H.
Qed.

Lemma greedy_snoc e rows sorted u t : greedy e rows sorted → free e rows sorted u t →
  (∀ w t', free e rows sorted w t' → w ≠ u → before (key_of t) (key_of t')) → greedy e rows (sorted ++ [u]).
Proof.
  intros Hg Hf Hbest l1 v l2 E. destruct (decide (l2 = [])) as [->|Hne].
  - apply app_inj_tail in E as [-> ->]. eauto.
  - apply exists_last in Hne as (l2' & x & ->). rewrite app_comm_cons, app_assoc in E.
    apply app_inj_tail in E as [-> ->]. by eapply Hg.
Qed.

(** There is one such order. *)
Lemma greedy_unique e rows l l' : greedy e rows l → greedy e rows l' → l ≡ₚ l' → l = l'.
Proof.
  intros Hg Hg' Hp. apply Permutation_length in Hp.
  cut (∀ l2 l1 l2', l = l1 ++ l2 → l' = l1 ++ l2' → l2 = l2'); [intros H; by eapply (H l [])|].
  induction l2 as [|v l2 IH]; intros l1 l2' E E'.
  { rewrite E, E', !length_app in Hp. destruct l2'; [done|]. simpl in Hp. lia. }
  destruct l2' as [|v' l2']; [rewrite E, E', !length_app in Hp; simpl in Hp; lia|].
  destruct (Hg _ _ _ E) as (t & Hf & Hbest), (Hg' _ _ _ E') as (t' & Hf' & Hbest').
  destruct (decide (v = v')) as [<-|Hne].
  - f_equal. apply (IH (l1 ++ [v])); rewrite <-app_assoc; done.
  - exfalso. pose proof (Hbest v' t' Hf' ltac:(congruence)) as H1. pose proof (Hbest' v t Hf Hne) as H2.
    assert (key_of t = key_of t') as Hk by (by apply (key_lt_antisym (λ k : topo_key, k))).
    unfold before in H1. rewrite Hk in H1. by apply key_lt_irrefl in H1.
Qed.

Section Loop.
Context (e : TaskEngine) (rows : list (TaskId * TaskId)).
Context (Hok : dag_ok e) (Hrows : rows ≡ₚ edges e) (Hlen : len (edges e) ≤ 2 ^ 64).

Lemma rows_nodup : NoDup rows.
Proof. rewrite Hrows. apply Hok. Qed.

Lemma key_of_id v t : tasks e !! v = Some t → (key_of t).2.2 = v.
Proof. intros Ht. by apply (ok_ids _ _ Hok). Qed.

Lemma free_zero sorted v t : free e rows sorted v t ↔
  tasks e !! v = Some t ∧ (v ∉ sorted) ∧ open_rows rows sorted v = 0.
Proof. unfold free. by rewrite open_rows_zero. Qed.

Lemma row_task u v : (u, v) ∈ rows → is_Some (tasks e !! v).
Proof. rewrite Hrows. apply (ok_edges _ _ Hok). Qed.

(** What is free once a free task [u] is sorted: what was, and the neighbours of [u]
    with no other open row. *)
Lemma free_after sorted u t v tv : greedy e rows sorted → free e rows sorted u t →
  free e rows (sorted ++ [u]) v tv ↔
  free e rows sorted v tv ∧ v ≠ u
  ∨ (u, v) ∈ rows ∧ open_rows rows sorted v = 1 ∧ tasks e !! v = Some tv.
Proof.
  intros Hg (Ht & Hu & Hpre%open_rows_zero). rewrite !free_zero, elem_of_app, list_elem_of_singleton.
  pose proof (open_rows_snoc rows sorted u v rows_nodup Hu) as Hv.
  pose proof (open_rows_nonneg rows (sorted ++ [u]) v).
  case_bool_decide as Huv; split.
  - intros (H1 & H2 & H3). right. split_and!; [done|lia|done].
  - intros [((_ & _ & H3) & _)|(_ & H1 & H2)]; [lia|]. split_and!; [done| |lia].
    intros [Hin| ->]; [|lia]. assert (open_rows rows sorted v = 0); [|lia].
    apply open_rows_zero. intros w Hw. by eapply greedy_closed.
  - intros (H1 & H2 & H3). left. split_and!; [done|tauto|lia|tauto].
  - intros [((H1 & H2 & H3) & H4)|(? & _)]; [|done]. split_and!; [done|tauto|lia].
Qed.

(** Taking the first of the ready set. *)
Lemma topo_step degrees k ready sorted u : topo_inv e rows degrees (k :: ready) sorted → k.2.2 = u →
  ∃ degrees' ready', release e degrees ready (adjacent rows u) = Returned (degrees', ready')
    ∧ (u ∉ sorted) ∧ is_Some (tasks e !! u) ∧ topo_inv e rows degrees' ready' (sorted ++ [u]).
Proof.
  intros [Hdeg Hready Hs Hnd Hg] Hku.
  destruct (proj1 (Hready k) ltac:(apply list_elem_of_here)) as (u' & t & Hfree & ->).
  pose proof Hfree as (Ht & Hu & _). rewrite (key_of_id _ _ Ht) in Hku. subst u'.
  apply StronglySorted_inv in Hs as [Hs Hfirst]. rewrite Forall_forall in Hfirst.
  assert (∀ v tv, free e rows sorted v tv → v ≠ u → key_of tv ∈ ready) as Hrest.
  { intros v tv Hv Hne. assert (key_of tv ∈ key_of t :: ready) as Hin by (apply Hready; eauto).
    apply elem_of_cons in Hin as [Hk|]; [|done]. exfalso. apply Hne. destruct Hv as [Hv _].
    by rewrite <-(key_of_id _ _ Hv), Hk, (key_of_id _ _ Ht). }
  pose proof (λ v, open_rows_snoc rows sorted u v rows_nodup Hu) as Hsnoc.
  destruct (release_ok e (adjacent rows u) degrees ready) as (degrees' & ready' & E & Hs' & Hdeg' & Hel').
  { apply adjacent_nodup, rows_nodup. }
  { done. }
  { intros v Huv%adjacent_elem. split; [by eapply row_task|]. destruct (row_task u v Huv) as [tv Hv].
    exists (open_rows rows sorted v). rewrite Hdeg, Hv. split; [done|].
    pose proof (open_rows_nonneg rows sorted v). pose proof (open_rows_nonneg rows (sorted ++ [u]) v).
    specialize (Hsnoc v). rewrite bool_decide_eq_true_2 in Hsnoc by done.
    assert (len rows = len (edges e)) by (unfold len; by rewrite Hrows). lia. }
  exists degrees', ready'. split_and!; [done|done|eauto|]. constructor; [| |done| |].
  - intros v. rewrite Hdeg', Hdeg.
    rewrite (bool_decide_ext (v ∈ adjacent rows u) ((u, v) ∈ rows)) by apply adjacent_elem.
    specialize (Hsnoc v). case_bool_decide; destruct (tasks e !! v); simpl; try done; f_equal; lia.
  - intros k. rewrite Hel'. setoid_rewrite adjacent_elem. setoid_rewrite (free_after sorted u t) at 1; [|done..].
    split.
    + intros [Hk|(v & tv & Huv & Hd & Hv & ->)].
      * destruct (proj1 (Hready k) ltac:(by apply elem_of_cons; right)) as (v & tv & Hv & ->).
        exists v, tv. split; [|done]. left. split; [done|]. intros ->. destruct Hv as [Hv _].
        rewrite Ht in Hv. injection Hv as <-. by apply (key_lt_irrefl (λ k : topo_key, k) (key_of t)), Hfirst.
      * exists v, tv. rewrite Hdeg, Hv in Hd. injection Hd as Hd. auto.
    + intros (v & tv & [[Hv Hne]|(Huv & Hd & Hv)] & ->); [left; by eapply Hrest|].
      right. exists v, tv. rewrite Hdeg, Hv. split_and!; [done|simpl; by f_equal|done..].
  - apply NoDup_app. split_and!; [done|set_solver|apply NoDup_singleton].
  - eapply greedy_snoc; [done|done|]. intros w tw Hw Hne. by apply Hfirst, (Hrest w).
Qed.

Lemma greedy_task sorted v : greedy e rows sorted → v ∈ sorted → is_Some (tasks e !! v).
Proof.
  intros Hg (l1 & l2 & ->)%list_elem_of_split. destruct (Hg l1 v l2 eq_refl) as (t & (Ht & _) & _). eauto.
Qed.

Lemma sorted_bound sorted : greedy e rows sorted → NoDup sorted → (length sorted ≤ size (tasks e))%nat.
Proof.
  intros Hg Hnd. rewrite <-size_dom. rewrite <-(size_list_to_set (C := gset TaskId) sorted Hnd).
  apply subseteq_size. intros v Hv%elem_of_list_to_set. apply elem_of_dom. by eapply greedy_task.
Qed.

(** When nothing is free, everything is sorted: by induction on the ranks. *)
Lemma exhausted degrees sorted : topo_inv e rows degrees [] sorted →
  ∀ v, is_Some (tasks e !! v) → v ∈ sorted.
Proof.
  intros Hinv. destruct (ok_ranked _ _ Hok) as [rank Hrank].
  cut (∀ n v, (rank v < n)%nat → is_Some (tasks e !! v) → v ∈ sorted); [intros H v; by apply (H (S (rank v))); lia|].
  induction n as [|n IH]; intros v Hn [t Ht]; [lia|].
  destruct (decide (v ∈ sorted)) as [|Hv]; [done|]. exfalso.
  assert (key_of t ∈ ([] : list topo_key)) as Hin; [|by apply elem_of_nil in Hin].
  apply (tp_ready _ _ _ _ _ Hinv). exists v, t. split; [|done]. split_and!; [done|done|].
  intros u Huv. rewrite Hrows in Huv. apply IH; [|by apply (ok_edges _ _ Hok u v)].
  specialize (Hrank u v Huv). lia.
Qed.

Lemma topo_loop_ok fuel : ∀ degrees ready sorted, topo_inv e rows degrees ready sorted →
  (size (tasks e) < fuel + length sorted)%nat →
  ∃ l, topo_loop fuel e rows degrees ready sorted = Returned l ∧ NoDup l ∧ greedy e rows l
    ∧ ∀ v, v ∈ l ↔ is_Some (tasks e !! v).
Proof.
  induction fuel as [|fuel IH]; intros degrees ready sorted Hinv Hfuel.
  { pose proof (sorted_bound sorted (tp_greedy _ _ _ _ _ Hinv) (tp_nodup _ _ _ _ _ Hinv)). lia. }
  cbn [topo_loop]. destruct ready as [|[a [b u]] ready].
  - exists sorted. pose proof (tp_greedy _ _ _ _ _ Hinv). split_and!; [done|apply Hinv|done|].
    intros v. split; [by apply greedy_task|by eapply exhausted].
  - destruct (topo_step _ _ _ _ u Hinv eq_refl) as (degrees' & ready' & -> & _ & _ & Hinv').
    apply IH; [done|]. rewrite length_app. simpl. lia.
Qed.
End Loop.

Lemma gset_to_gmap_zero (m : gmap TaskId TaskNode) v :
  gset_to_gmap (0 : Z) (dom m) !! v = (λ _, 0) <$> m !! v.
Proof.
  destruct (m !! v) eqn:E; simpl.
  - apply lookup_gset_to_gmap_Some. split; [|done]. apply elem_of_dom. eauto.
  - apply lookup_gset_to_gmap_None. by apply not_elem_of_dom.
Qed.

(** The first ready set. *)
Lemma first_ready (e : TaskEngine) (degrees : gmap TaskId Z) all :
  let ready := foldr (λ t ready,
      if bool_decide (degrees !! t.(task_id) = Some 0) then ready_insert (key_of t) ready else ready) [] all in
  ready_ok ready ∧ ∀ k, k ∈ ready ↔ ∃ t, t ∈ all ∧ degrees !! task_id t = Some 0 ∧ k = key_of t.
Proof.
  induction all as [|t all [IHs IH]]; simpl.
  { split; [constructor|]. intros k. split; [by intros ?%elem_of_nil|intros (t & Ht & _); by apply elem_of_nil in Ht]. }
  case_bool_decide as Hz; split; try done; [by apply ready_insert_strict|..].
  all: intros k; rewrite ?ready_insert_elem, IH; setoid_rewrite elem_of_cons; naive_solver.
Qed.

Lemma list_tasks_elem e t : dag_ok e → t ∈ list_tasks e ↔ tasks e !! task_id t = Some t.
Proof.
  intros Hok. unfold list_tasks, all_rows. rewrite sort_by_key_perm, list_elem_of_fmap. split.
  - intros ([id t'] & -> & Hin%elem_of_map_to_list). simpl in *. by rewrite (ok_ids _ _ Hok _ _ Hin).
  - intros H. exists (task_id t, t). split; [done|]. by apply elem_of_map_to_list.
Qed.

Lemma topo_start e rows : dag_ok e → rows ≡ₚ edges e →
  let degrees := count_rows (gset_to_gmap 0 (dom (tasks e))) rows in
  topo_inv e rows degrees (foldr (λ t ready,
      if bool_decide (degrees !! t.(task_id) = Some 0) then ready_insert (key_of t) ready else ready)
      [] (list_tasks e)) [].
Proof.
  intros Hok Hrows degrees.
  assert (∀ v, degrees !! v = (λ _, open_rows rows [] v) <$> tasks e !! v) as Hdeg.
  { intros v. unfold degrees. rewrite count_rows_spec, gset_to_gmap_zero. by destruct (tasks e !! v). }
  destruct (first_ready e degrees (list_tasks e)) as [Hs Hel].
  constructor; [done| |done|constructor|by intros [|]].
  intros k. rewrite Hel. split.
  - intros (t & Ht & Hd & ->). apply list_tasks_elem in Ht; [|done]. exists (task_id t), t. split; [|done].
    rewrite Hdeg, Ht in Hd. injection Hd as Hd. apply free_zero. split_and!; [done|set_solver|done].
  - intros (v & t & (Ht & _ & Hz)%free_zero & ->). exists t. rewrite list_tasks_elem by done.
    rewrite (ok_ids _ _ Hok _ _ Ht), Hdeg, Ht. simpl. by rewrite Hz.
Qed.

Lemma topological_sort_ok (shuffle : ∀ A : Type, list A → list A) e :
  (∀ (A : Type) (l : list A), shuffle A l ≡ₚ l) → dag_ok e → len (edges e) ≤ 2 ^ 64 →
  ∃ l, topological_sort shuffle e = Returned (Ok l) ∧ l ≡ₚ (map_to_list (tasks e)).*1
    ∧ greedy e (edges e) l.
Proof.
  intros Hsh Hok Hlen. unfold topological_sort. case_bool_decide as Hall.
  { exists []. assert (tasks e = ∅) as ->; [|split_and!; [done|done|by intros [|]]].
    apply map_eq. intros v. rewrite lookup_empty. destruct (tasks e !! v) as [t|] eqn:Ht; [|done].
    pose proof (ok_ids _ _ Hok _ _ Ht) as <-. apply list_tasks_elem in Ht; [|done]. rewrite Hall in Ht.
    by apply elem_of_nil in Ht. }
  clear Hall. pose proof (Hsh _ (edges e)) as Hrows.
  assert (length (list_tasks e) = size (tasks e)) as Hsize.
  { unfold list_tasks, all_rows. rewrite sort_by_key_perm, length_fmap. apply length_map_to_list. }
  destruct (topo_loop_ok e (shuffle _ (edges e)) Hok Hrows Hlen (S (length (list_tasks e))) _ _ _
    (topo_start e _ Hok Hrows)) as (l & -> & Hnd & Hg & Hel).
  { simpl. lia. }
  assert (l ≡ₚ (map_to_list (tasks e)).*1) as Hperm.
  { apply NoDup_Permutation; [done|apply NoDup_fst_map_to_list|]. intros v. rewrite Hel, list_elem_of_fmap. split.
    - intros [t Ht]. exists (v, t). split; [done|]. by apply elem_of_map_to_list.
    - intros ([v' t] & -> & Ht%elem_of_map_to_list). eauto. }
  exists l. assert ((len l =? len (list_tasks e)) = true) as ->.
  { apply Z.eqb_eq. unfold len. rewrite Hsize, Hperm, length_fmap, length_map_to_list. done. }
  split_and!; [done|done|]. intros l1 v l2 E. unfold free. setoid_rewrite <-Hrows. by eapply Hg.
Qed.
