(* ===== verification/TaskSafety.v ===== *)
(** * TaskSafety: what the task engine promises

    Histories of operations on the task engine, and the properties of every engine
    they reach: the graph is acyclic and readiness is exact, edges are refused only
    for a cycle, nothing waits forever without a task to act on, reports of workers
    are fenced, a failure reaches what depends on it, success is final, and the
    topological order exists and is unique. *)

From stdpp Require Import gmap.
From S2P Require Import Prelude Text Order TaskDag TaskDagFacts TaskPaths TaskTopo.

Local Open Scope Z_scope.

(** No walk returns to its start. *)
Definition acyclic (l : list (TaskId * TaskId)) : Prop :=
  ∀ path x, is_walk l path → head path = Some x → last path = Some x → path = [x].

Lemma ranked_acyclic l : ranked l → acyclic l.
Proof.
  intros [rank H] path x Hw Hh Hl. destruct path as [|a [|b path]]; [done|by injection Hh as ->|].
  injection Hh as ->. destruct Hw as [Hab Hw].
  assert (rank b ≤ rank x)%nat by (by eapply walk_rank). apply H in Hab. lia.
Qed.

Lemma next_generation_ne t : next_generation t ≠ generation t.
Proof.
  unfold next_generation, wrapping_add64. intros E.
  pose proof (Z.mod_pos_bound (generation t + 1) (2 ^ 64) ltac:(lia)) as Hb.
  destruct (decide (generation t = 2 ^ 64 - 1)) as [H|H]; [rewrite H in E; by vm_compute in E|].
  rewrite Z.mod_small in E; lia.
Qed.

Lemma stopped_frame e e' id t' i u : stopped e e' id t' → tasks e !! i = Some u → i ≠ id →
  ¬ blockable (Some (task_status u)) → tasks e' !! i = Some u.
Proof.
  intros (_ & _ & Hsame & _) Hu Hi Hb. destruct (Hsame i Hi) as [->|[Hx _]]; [done|].
  by rewrite (status_of_Some _ _ _ Hu) in Hx.
Qed.

Section Histories.
Context (shuffle : ∀ A : Type, list A → list A).

(** One operation of the engine, whatever it answers. *)
Inductive dag_step (e : TaskEngine) : TaskEngine → Prop :=
| step_create d now e' r : create_task e d now = (e', r) → dag_step e e'
| step_depend p d e' r : add_dependency shuffle e p d = Returned (e', r) → dag_step e e'
| step_assign id agent now e' r : assign_task e id agent now = (e', r) → dag_step e e'
| step_complete id token hash now e' r : complete_task e id token hash now = (e', r) → dag_step e e'
| step_fail id token reason now e' r : fail_task e id token reason now = Returned (e', r) → dag_step e e'
| step_cancel id now e' r : cancel_task e id now = Returned (e', r) → dag_step e e'
| step_retry id now e' r : retry_task e id now = (e', r) → dag_step e e'.

Inductive dag_reachable : TaskEngine → Prop :=
| reach_new : dag_reachable engine_new
| reach_step e e' : dag_reachable e → dag_step e e' → dag_reachable e'.

Context (Hshuffle : ∀ (A : Type) (l : list A), shuffle A l ≡ₚ l).

Lemma engine_new_ok : dag_ok engine_new.
Proof.
  assert (∀ x, (x ∉ edges engine_new)) as Hno by set_solver.
  constructor; try (intros p d; by intros ?%Hno).
  - intros id t. simpl. by rewrite lookup_empty.
  - constructor.
  - exists (λ _, 0%nat). intros p d ?%Hno. done.
  - intros p d s ?%Hno. done.
  - intros d s _. unfold status_of. simpl. by rewrite lookup_empty.
Qed.

Lemma dag_step_ok e e' : dag_ok e → dag_step e e' → dag_ok e'.
Proof.
  intros Hok Hs. destruct Hs as [d now e' r H|p d e' r H|id ag now e' r H|id tk h now e' r H|id tk rs now e' r H|id now e' r H|id now e' r H].
  - by eapply create_task_ok.
  - destruct (add_dependency_cases shuffle Hshuffle e p d Hok) as (e1 & r1 & E & H1 & _). congruence.
  - by eapply assign_task_ok.
  - destruct (complete_task_cases e id tk h now Hok) as (e1 & r1 & E & H1 & _). congruence.
  - destruct (fail_task_cases e id tk rs now Hok) as (e1 & r1 & E & H1 & _). congruence.
  - destruct (cancel_task_cases e id now Hok) as (e1 & r1 & E & H1 & _). congruence.
  - by eapply retry_task_ok.
Qed.

Lemma reachable_ok e : dag_reachable e → dag_ok e.
Proof. induction 1; [apply engine_new_ok|by eapply dag_step_ok]. Qed.

(** C22: over every history of operations on the task engine the dependency graph is
    free of cycles and of dangling or repeated edges, and a task that was not given
    up is ready, running or done exactly when all of its prerequisites are done. *)
Theorem dag_reachable_sound e : dag_reachable e →
  acyclic (edges e) ∧ NoDup (edges e)
  ∧ (∀ p d, (p, d) ∈ edges e → is_Some (tasks e !! p) ∧ is_Some (tasks e !! d))
  ∧ ∀ d t, tasks e !! d = Some t → task_status t ≠ Failed → task_status t ≠ Cancelled →
      (task_status t = ReadyStatus ∨ task_status t = Running ∨ task_status t = Succeeded
       ↔ ∀ p, (p, d) ∈ edges e → status_of e p = Some Succeeded).
Proof.
  intros Hok%reachable_ok. split_and!; [apply ranked_acyclic, Hok|apply Hok|apply Hok|].
  intros d t Ht Hf Hc. pose proof (status_of_Some _ _ _ Ht) as Hs. split.
  - intros Hst p Hp. eapply (ok_started _ _ Hok); [done|done|]. by destruct Hst as [-> |[-> | ->]].
  - intros Hall. destruct (waiting (task_status t)) eqn:Hw; [|destruct (task_status t); auto; done].
    destruct (ok_waiting _ _ Hok d (task_status t)) as (p & Hp & Hps); [set_solver|done..|].
    by destruct Hps; apply Hall.
Qed.


(** C24: a task that waits has a chain of prerequisites from a task someone can act on:
    one that is ready or running, or one that failed or was cancelled and can be
    retried. *)
Theorem no_deadlock e d t : dag_reachable e → tasks e !! d = Some t → waiting (task_status t) = true →
  ∃ path x s, is_walk (edges e) path ∧ head path = Some x ∧ last path = Some d
    ∧ status_of e x = Some s ∧ s ∈ [ReadyStatus; Running; Failed; Cancelled].
Proof.
  intros Hok%reachable_ok Ht Hw. pose proof (ok_ranked _ _ Hok) as [rank Hrank].
  cut (∀ n d s, (rank d < n)%nat → status_of e d = Some s → waiting s = true →
    ∃ path x s, is_walk (edges e) path ∧ head path = Some x ∧ last path = Some d
      ∧ status_of e x = Some s ∧ s ∈ [ReadyStatus; Running; Failed; Cancelled]).
  { intros H. eapply (H (S (rank d)) d); [lia|by apply status_of_Some|done]. }
  clear d t Ht Hw. induction n as [|n IH]; intros d s Hn Hs Hw; [lia|].
  destruct (ok_waiting _ _ Hok d s) as (p & Hp & Hps); [set_solver|done..|].
  destruct (ok_edges _ _ Hok p d Hp) as [[u Hu] _]. apply status_of_Some in Hu as Hus.
  destruct (waiting (task_status u)) eqn:Huw.
  - destruct (IH p (task_status u)) as (path & x & s' & Hwk & Hh & Hl & Hx & Hin); [|done..|].
    { specialize (Hrank p d Hp). lia. }
    exists (path ++ [d]), x, s'. split_and!; [by eapply walk_snoc| |apply last_snoc|done|done].
    by destruct path.
  - exists [p; d], p, (task_status u). split_and!; [done|done|done|done|].
    destruct (task_status u); try done; set_solver.
Qed.


(** Success is final: whatever happens afterwards, the row of a completed task,
    checkpoint included, is never changed again. *)
Theorem success_final e e' id t : dag_reachable e → rtc dag_step e e' →
  tasks e !! id = Some t → task_status t = Succeeded → tasks e' !! id = Some t.
Proof.
  intros Hr Hsteps Ht Hs. revert Hr Ht. induction Hsteps as [e|e e1 e' Hstep _ IH]; intros Hr Ht; [done|].
  apply IH; [by eapply reach_step|]. clear IH. apply reachable_ok in Hr as Hok.
  destruct Hstep as [d now e1 r H|p d e1 r H|i ag now e1 r H|i tk h now e1 r H|i tk rs now e1 r H|i now e1 r H|i now e1 r H].
  - destruct (create_task_cases _ _ _ _ _ H) as [->|(Hno & t' & ->)]; [done|].
    rewrite lookup_insert_ne; [done|]. congruence.
  - destruct (add_dependency_cases shuffle Hshuffle e p d Hok) as (e2 & r2 & E & _ & Hcase).
    rewrite E in H. injection H as -> ->. destruct Hcase as [(_ & -> & _)|[(_ & _ & Hsame)|[(-> & _)|(-> & _)]]]; try done.
    destruct (Hsame id) as [->|[-> Hd]]; [done|]. rewrite (status_of_Some _ _ _ Ht) in Hd. congruence.
  - destruct (assign_task_cases _ _ _ _ _ _ H) as [[-> _]|(u & t' & Hu & Hus & -> & _)]; [done|].
    eapply changed_frame; [done|done|congruence].
  - destruct (complete_task_cases e i tk h now Hok) as (e2 & r2 & E & _ & Hcase). rewrite E in H. injection H as -> ->.
    destruct Hcase as [(-> & _)|(u & (Hu & Hus & _) & _ & _ & Hrest)]; [done|].
    apply Hrest; [intros ->; congruence|done|by rewrite Hs].
  - destruct (fail_task_cases e i tk rs now Hok) as (e2 & r2 & E & _ & Hcase). rewrite E in H. injection H as -> ->.
    destruct Hcase as [(-> & _)|(u & (Hu & Hus & _) & _ & Hst)]; [done|].
    eapply stopped_frame; [done|done|intros ->; congruence|rewrite Hs; by intros []].
  - destruct (cancel_task_cases e i now Hok) as (e2 & r2 & E & _ & Hcase). rewrite E in H. injection H as -> ->.
    destruct Hcase as [(-> & _)|(u & Hu & Hus & _ & Hst)]; [done|].
    eapply stopped_frame; [done|done|intros ->|rewrite Hs; by intros []]. rewrite Ht in Hu. injection Hu as <-. by rewrite Hs in Hus.
  - destruct (retry_task_cases _ _ _ _ _ H) as [->|(u & t' & Hu & Hus & ->)]; [done|].
    eapply changed_frame; [done|done|]. rewrite Hs. by destruct Hus as [-> | ->].
Qed.

(** A worker's report takes effect exactly when the task is running under the token
    the worker holds; any other report is refused and changes nothing.  A token handed
    out is never the one before. *)
Theorem reports_fenced e id token hash reason now : dag_reachable e →
  slen (trim reason) ≤ MAX_FAILURE_REASON_BYTES →
  (∃ e' r, complete_task e id token hash now = (e', r)
    ∧ (e' = e ∧ (∃ err, r = Err err) ∧ (∀ t, ¬ accepted e id token t)
       ∨ ∃ t t', accepted e id token t ∧ r = Ok t' ∧ tasks e' !! id = Some t'
           ∧ task_status t' = Succeeded ∧ checkpoint t' = hash))
  ∧ (∃ e' r, fail_task e id token reason now = Returned (e', r)
    ∧ (e' = e ∧ (∃ err, r = Err err) ∧ (∀ t, ¬ accepted e id token t)
       ∨ ∃ t t', accepted e id token t ∧ r = Ok t' ∧ tasks e' !! id = Some t'
           ∧ task_status t' = Failed ∧ failure_reason t' = Some (trim reason)))
  ∧ ∀ agent e' new, assign_task e id agent now = (e', Ok new) →
      (∃ t, accepted e' id new t) ∧ ∀ t, tasks e !! id = Some t → new ≠ generation t.
Proof.
  intros Hok%reachable_ok Hlen. split_and!.
  - destruct (complete_task_cases e id token hash now Hok) as (e' & r & E & _ & Hcase).
    exists e', r. split; [done|]. destruct Hcase as [?|(t & Ha & -> & Hid & _)]; [by left|right].
    exists t, (completed t hash now). done.
  - destruct (fail_task_cases e id token reason now Hok) as (e' & r & E & _ & Hcase).
    exists e', r. split; [done|]. destruct Hcase as [(-> & Herr & Hno)|(t & Ha & -> & Hid & _)]; [left; auto|right].
    exists t, (failed t (trim reason) now). done.
  - intros agent e' new H. destruct (assign_task_cases _ _ _ _ _ _ H) as [[_ [err ?]]|(t & t' & Ht & _ & -> & [= ->] & Hs & Hg)]; [done|].
    split; [exists t'; split_and!; [simpl; apply lookup_insert_eq|done|done]|].
    intros u Hu. rewrite Ht in Hu. injection Hu as <-. apply next_generation_ne.
Qed.

(** Giving a task up reaches what depends on it: after a failure or a cancellation no
    dependent of the task, and no dependent of a task that was blocked with it, is
    pending or ready, and every other row is as it was. *)
Theorem giving_up_blocks e id token reason now : dag_reachable e →
  (∀ e' t', fail_task e id token reason now = Returned (e', Ok t') → stopped e e' id t' ∧ task_status t' = Failed)
  ∧ (∀ e' t', cancel_task e id now = Returned (e', Ok t') → stopped e e' id t' ∧ task_status t' = Cancelled
      ∧ ∀ t, tasks e !! id = Some t → generation t' ≠ generation t).
Proof.
  intros Hok%reachable_ok. split; intros e' t' E.
  - destruct (fail_task_cases e id token reason now Hok) as (e1 & r & E1 & _ & Hcase). rewrite E1 in E.
    injection E as -> ->. destruct Hcase as [(_ & [err ?] & _)|(t & _ & [= ->] & Hst)]; done.
  - destruct (cancel_task_cases e id now Hok) as (e1 & r & E1 & _ & Hcase). rewrite E1 in E.
    injection E as -> ->. destruct Hcase as [(_ & [err ?] & _)|(t & Ht & _ & [= ->] & Hst)]; [done|].
    split_and!; [done|done|]. intros u Hu. rewrite Ht in Hu. injection Hu as <-. apply next_generation_ne.
Qed.

End Histories.

(** The topological order does not depend on the order in which the database
    returns the rows of a query. *)
Theorem topological_sort_stable (sh1 sh2 : ∀ A : Type, list A → list A) e :
  (∀ (A : Type) (l : list A), sh1 A l ≡ₚ l) → (∀ (A : Type) (l : list A), sh2 A l ≡ₚ l) →
  dag_reachable sh1 e → len (edges e) ≤ 2 ^ 64 → topological_sort sh1 e = topological_sort sh2 e.
Proof.
  intros H1 H2 Hok%reachable_ok Hlen; [|done].
  destruct (topological_sort_ok sh1 e H1 Hok Hlen) as (l & -> & Hp & Hg).
  destruct (topological_sort_ok sh2 e H2 Hok Hlen) as (l' & -> & Hp' & Hg').
  rewrite (greedy_unique e (edges e) l l'); try done. by rewrite Hp, Hp'.
Qed.
