(* ===== verification/TaskDemo.v ===== *)
(** * TaskDemo: the task engine on a concrete history

    Two tasks, one after the other, from creation to completion: the properties of
    [TaskSafety] at engines where their hypotheses hold; and the cases the sources
    leave open, evaluated. *)

From stdpp Require Import gmap.
From S2P Require Import Prelude Text Order TaskDag TaskDagFacts TaskPaths TaskTopo TaskSafety.

Local Open Scope Z_scope.
Local Open Scope string_scope.

(** Rows in the order of insertion. *)
Definition in_order (A : Type) (l : list A) : list A := l.

Lemma in_order_perm (A : Type) (l : list A) : in_order A l ≡ₚ l.
Proof. done. Qed.

Definition demo_build : TaskDraft := mkDraft "build" "Build" "" 0 [].
Definition demo_test : TaskDraft := mkDraft "test" "Test" "" 5 ["build"].

Definition demo1 : TaskEngine := (create_task engine_new demo_build 1).1.
Definition demo2 : TaskEngine := (create_task demo1 demo_test 2).1.
Definition demo3 : TaskEngine := (assign_task demo2 "build" "worker" 3).1.
Definition demo4 : TaskEngine := (complete_task demo3 "build" 1 (Some "hash") 4).1.

Lemma demo2_reachable : dag_reachable in_order demo2.
Proof.
  eapply reach_step; [eapply reach_step; [apply reach_new|]|].
  - eapply (step_create _ _ demo_build 1). apply surjective_pairing.
  - eapply (step_create _ _ demo_test 2). apply surjective_pairing.
Qed.

Lemma demo3_reachable : dag_reachable in_order demo3.
Proof.
  eapply reach_step; [apply demo2_reachable|].
  eapply (step_assign _ _ "build" "worker" 3). apply surjective_pairing.
Qed.

Lemma demo4_step : dag_step in_order demo3 demo4.
Proof. eapply (step_complete _ _ "build" 1 (Some "hash") 4). apply surjective_pairing. Qed.

(** The whole history, evaluated: the dependent becomes ready when its prerequisite
    is done. *)
Example demo_statuses :
  (λ e, (status_of e "build", status_of e "test")) <$> [demo2; demo3; demo4]
  = [(Some ReadyStatus, Some Pending); (Some Running, Some Pending); (Some Succeeded, Some ReadyStatus)].
Proof. vm_compute. reflexivity. Qed.

Lemma dag_reachable_sound_witness : acyclic (edges demo2) ∧ edges demo2 = [("build", "test")].
Proof. split; [exact (proj1 (dag_reachable_sound in_order in_order_perm demo2 demo2_reachable))|reflexivity]. Defined.


Lemma no_deadlock_witness : ∃ path x s, is_walk (edges demo2) path ∧ head path = Some x
  ∧ last path = Some "test" ∧ status_of demo2 x = Some s ∧ s ∈ [ReadyStatus; Running; Failed; Cancelled].
Proof.
  destruct (tasks demo2 !! "test") as [t|] eqn:Ht; [|vm_compute in Ht; discriminate Ht].
  apply (no_deadlock in_order in_order_perm demo2 "test" t); [apply demo2_reachable|exact Ht|].
  vm_compute in Ht. injection Ht as <-. reflexivity.
Defined.


(** The rows of every other query come back reversed. *)
Definition reversed (A : Type) (l : list A) : list A := rev l.

Lemma reversed_perm (A : Type) (l : list A) : reversed A l ≡ₚ l.
Proof. symmetry. apply Permutation_rev. Qed.

Lemma topological_sort_stable_witness : topological_sort in_order demo2 = topological_sort reversed demo2.
Proof.
  apply topological_sort_stable; [apply in_order_perm|apply reversed_perm|apply demo2_reachable|].
  change (edges demo2) with [("build", "test")]. vm_compute. discriminate.
Defined.

Lemma success_final_witness : ∃ t, tasks demo4 !! "build" = Some t
  ∧ ∀ e', rtc (dag_step in_order) demo4 e' → tasks e' !! "build" = Some t.
Proof.
  destruct (tasks demo4 !! "build") as [t|] eqn:Ht; [|vm_compute in Ht; discriminate Ht].
  exists t. split; [reflexivity|]. intros e' Hsteps.
  apply (success_final in_order in_order_perm demo4 e' "build" t); [|exact Hsteps|exact Ht|].
  - eapply reach_step; [apply demo3_reachable|apply demo4_step].
  - vm_compute in Ht. injection Ht as <-. reflexivity.
Defined.

Lemma reports_fenced_witness : ∃ e' r, complete_task demo3 "build" 7 None 5 = (e', r)
  ∧ (e' = demo3 ∧ (∃ err, r = Err err) ∧ (∀ t, ¬ accepted demo3 "build" 7 t)
     ∨ ∃ t t', accepted demo3 "build" 7 t ∧ r = Ok t' ∧ tasks e' !! "build" = Some t'
         ∧ task_status t' = Succeeded ∧ checkpoint t' = None).
Proof.
  refine (proj1 (reports_fenced in_order in_order_perm demo3 "build" 7 None "why" 5 demo3_reachable _)).
  vm_compute. discriminate.
Defined.

Lemma giving_up_blocks_witness : ∃ e' t', cancel_task demo3 "build" 5 = Returned (e', Ok t')
  ∧ stopped demo3 e' "build" t' ∧ status_of e' "test" = Some Blocked.
Proof.
  destruct (cancel_task demo3 "build" 5) as [[e' [t'|err]]| |] eqn:E; try (vm_compute in E; discriminate E).
  exists e', t'. split; [reflexivity|]. split.
  - exact (proj1 (proj2 (giving_up_blocks in_order in_order_perm demo3 "build" 1 "why" 5 demo3_reachable) e' t' E)).
  - vm_compute in E. injection E as <- _. reflexivity.
Defined.

(** A priority of [i32::MIN] is its own negation: such a task sorts before every other
    in the topological order, although the ready list puts it last. *)
Definition demo_lowest : TaskEngine :=
  (create_task (create_task engine_new (mkDraft "lowest" "L" "" (- 2 ^ 31) []) 1).1 (mkDraft "plain" "P" "" 0 []) 2).1.

Example lowest_priority_sorts_first :
  topological_sort in_order demo_lowest = Returned (Ok ["lowest"; "plain"])
  ∧ map task_id (ready_tasks demo_lowest) = ["plain"; "lowest"].
Proof. split; vm_compute; reflexivity. Qed.

(** A pending task that is given a cancelled prerequisite stays pending. *)
Definition demo_late : run (TaskEngine * result unit TaskEngineError) :=
  let e := (create_task demo2 (mkDraft "other" "O" "" 0 []) 3).1 in
  match cancel_task e "other" 4 with
  | Returned (e, _) => add_dependency in_order e "other" "test"
  | _ => OutOfFuel
  end.

Example late_failed_prerequisite_pending : ∃ e, demo_late = Returned (e, Ok tt)
  ∧ ("other", "test") ∈ edges e ∧ status_of e "other" = Some Cancelled ∧ status_of e "test" = Some Pending.
Proof.
  destruct demo_late as [[e r]| |] eqn:E; try (vm_compute in E; discriminate E).
  exists e. vm_compute in E. injection E as <- <-. split_and!; try reflexivity. simpl. set_solver.
Qed.
