(* ===== verification/TaskViews.v ===== *)
(** * TaskViews: task listings and review approvals

    The rest of [task_dag.rs]: the listing of every task with its prerequisites, which
    reads all the dependencies in one query, and the gate that records independent
    reviews. *)

From stdpp Require Import gmap.
From S2P Require Import Prelude Text Order TaskDag TaskDagFacts TaskTopo TaskSafety.

Local Open Scope Z_scope.
Local Open Scope rust_scope.

(** ** Views *)

Record TaskView := mkView { view_task : TaskNode; dependencies : list TaskId }.

(** [deps_map.entry(dep).or_default().push(prereq)] over the rows. *)
Definition deps_map (rows : list (TaskId * TaskId)) : gmap TaskId (list TaskId) :=
  foldl (λ m row, <[row.2 := default [] (m !! row.2) ++ [row.1]]> m) ∅ rows.

(** The views, each taking its dependencies out of the map. *)
Fixpoint take_views (deps : gmap TaskId (list TaskId)) (tasks : list TaskNode) : list TaskView :=
  match tasks with
  | [] => []
  | t :: tasks => mkView t (default [] (deps !! t.(task_id))) :: take_views (delete t.(task_id) deps) tasks
  end.

(** [TaskEngine::list_task_views]: the dependencies come [ORDER BY prerequisite_id], in an
    unspecified order among equals. *)
Definition list_task_views (shuffle : ∀ A : Type, list A → list A) (e : TaskEngine) : list TaskView :=
  take_views (deps_map (sort_by_key fst (shuffle _ (edges e)))) (list_tasks e).

Lemma deps_map_lookup rows : ∀ id,
  default [] (deps_map rows !! id) = map fst (List.filter (λ d, str_eqb d.2 id) rows).
Proof.
  unfold deps_map. induction rows as [|[p d] rows IH] using rev_ind; intros id; [done|].
  rewrite foldl_app, List.filter_app, map_app. simpl. destruct (str_eqb d id) eqn:E.
  - apply str_eqb_eq in E as ->. rewrite lookup_insert_eq. simpl. by rewrite IH.
  - apply str_eqb_neq in E. rewrite lookup_insert_ne by done. simpl. by rewrite app_nil_r, IH.
Qed.

Lemma take_views_map tasks : NoDup (map task_id tasks) → ∀ deps,
  take_views deps tasks = map (λ t, mkView t (default [] (deps !! t.(task_id)))) tasks.
Proof.
  induction tasks as [|t tasks IH]; intros Hnd deps; simpl; [done|]. apply NoDup_cons in Hnd as [Ht Hnd].
  f_equal. rewrite IH by done. apply map_ext_in. intros x Hx%list_elem_of_In. rewrite lookup_delete_ne; [done|].
  intros Heq. apply Ht. rewrite Heq. by apply list_elem_of_fmap_2.
Qed.

Lemma List_filter_perm {A} (f : A → bool) k l : k ≡ₚ l → List.filter f k ≡ₚ List.filter f l.
Proof.
  induction 1 as [|x k l _ IH|x y l|k1 k2 k3 _ IH1 _ IH2]; simpl; [done|by destruct (f x); rewrite ?IH| |by rewrite IH1].
  destruct (f x), (f y); done || apply perm_swap.
Qed.

(** One query for all is one query for each: the views are those of [get_task_view]. *)
Lemma list_task_views_exact (shuffle : ∀ A : Type, list A → list A) e :
  (∀ (A : Type) (l : list A), shuffle A l ≡ₚ l) → dag_ok e →
  list_task_views shuffle e = map (λ t, mkView t (query_prerequisites e t.(task_id))) (list_tasks e)
  ∧ ∀ id, get_task_view e id = match tasks e !! id with
                                | Some t => Ok (t, query_prerequisites e id) | None => Err (TaskNotFound id) end.
Proof.
  intros Hsh Hok. split; [|intros id; unfold get_task_view, get_task; by destruct (tasks e !! id)].
  unfold list_task_views. rewrite take_views_map.
  - apply map_ext. intros t. rewrite deps_map_lookup. f_equal. unfold query_prerequisites.
    set (rows := List.filter (λ d, str_eqb d.2 (task_id t)) (sort_by_key fst (shuffle _ (edges e)))).
    assert (rows ≡ₚ List.filter (λ d, str_eqb d.2 (task_id t)) (edges e)) as Hp.
    { unfold rows. apply List_filter_perm. rewrite sort_by_key_perm. apply Hsh. }
    assert (NoDup (map fst (List.filter (λ d, str_eqb d.2 (task_id t)) (edges e)))) as Hnd.
    { apply NoDup_fmap_2_strong; [|eapply sublist_NoDup; [apply Hok|apply sublist_List_filter]].
      intros [p d] [p' d'] [_ H1]%List_filter_elem [_ H2]%List_filter_elem Heq. simpl in *.
      apply str_eqb_eq in H1, H2. by subst. }
    symmetry. transitivity (sort_by_key (λ s : string, s) (map fst rows)).
    + apply sort_by_key_unique; [by rewrite List.map_id, Hp|by rewrite Hp].
    + apply sort_by_key_id, sorted_strict; [by rewrite List.map_id, Hp|]. unfold rows.
      assert (StronglySorted (λ a b, key_le fst a b = true) (sort_by_key fst (shuffle _ (edges e)))) as Hs by apply sort_by_key_sorted.
      apply (filter_sorted _ (λ d, str_eqb d.2 (task_id t))) in Hs. clear -Hs.
      induction Hs as [|x l _ IH Hall]; [constructor|]. simpl. constructor; [done|].
      apply Forall_fmap. eapply Forall_impl; [exact Hall|done].
  - unfold list_tasks, all_rows. rewrite sort_by_key_perm.
    assert (map task_id (map_to_list (tasks e)).*2 = (map_to_list (tasks e)).*1) as ->; [|apply NoDup_fst_map_to_list].
    change (map task_id) with (fmap (M := list) task_id). rewrite <- list_fmap_compose. apply list_fmap_ext.
    intros i [id t] Hi. apply list_elem_of_lookup_2, elem_of_map_to_list in Hi. by apply (ok_ids _ _ Hok) in Hi.
Qed.

(** ** Review approvals *)

Definition MAX_REVIEW_AGENT_BYTES : Z := MAX_AGENT_ID_BYTES.
Definition MAX_REVIEW_SESSION_BYTES : Z := 128.
Definition MAX_REVIEW_REF_BYTES : Z := 512.

Inductive ReviewApprovalError :=
| ReviewEmptyField (field : string)
| ReviewOversizedField (field : string) (size max : Z)
| SelfReview | SameSession | SelfReport | SharedPass | CachedPass | PartialChecks.

Record ReviewSubject := mkSubject { rs_task : TaskId; rs_executor_agent : string; rs_executor_session : string }.
Record ReviewerIdentity := mkReviewer { ri_agent : string; ri_session : string }.
Record ReviewEvidence := mkEvidence { re_requirement_ref : string; re_evidence_ref : string }.

Record ReviewApproval := mkApproval {
  ra_task : TaskId;
  executor_agent : string;
  executor_session : string;
  reviewer_agent : string;
  reviewer_session : string;
  requirement_ref : string;
  evidence_ref : string;
  issued_at_ms : Z
}.

Definition check_review_field (value field : string) (max : Z) : result string ReviewApprovalError :=
  let trimmed := trim value in
  if is_empty trimmed then Err (ReviewEmptyField field)
  else if slen trimmed >? max then Err (ReviewOversizedField field (slen trimmed) max)
  else Ok trimmed.

(** [ReviewApproval::issue] *)
Definition issue (subject : ReviewSubject) (reviewer : ReviewerIdentity) (evidence : ReviewEvidence) (now : Z) :
    result ReviewApproval ReviewApprovalError :=
  try! ea := check_review_field subject.(rs_executor_agent) "executor_agent" MAX_REVIEW_AGENT_BYTES in
  try! es := check_review_field subject.(rs_executor_session) "executor_session" MAX_REVIEW_SESSION_BYTES in
  try! ra := check_review_field reviewer.(ri_agent) "reviewer_agent" MAX_REVIEW_AGENT_BYTES in
  try! rs := check_review_field reviewer.(ri_session) "reviewer_session" MAX_REVIEW_SESSION_BYTES in
  try! rq := check_review_field evidence.(re_requirement_ref) "requirement_ref" MAX_REVIEW_REF_BYTES in
  try! ev := check_review_field evidence.(re_evidence_ref) "evidence_ref" MAX_REVIEW_REF_BYTES in
  if str_eqb ra ea then Err SelfReview
  else if str_eqb rs es then Err SameSession
  else if str_eqb rq ev then Err PartialChecks
  else Ok (mkApproval subject.(rs_task) ea es ra rs rq ev now).

(** The inadmissible verdicts: a shared PASS, a cached PASS, a self-report. *)
Inductive PassClaim :=
| SharedPassClaim (task : TaskId) (claimant_agent claimant_session : string)
| CachedPassClaim (task : TaskId) (holder_agent holder_session cache_key : string)
| SelfReportClaim (task : TaskId) (agent session report_ref : string).

Definition into_approval (c : PassClaim) : result ReviewApproval ReviewApprovalError :=
  match c with
  | SharedPassClaim _ _ _ => Err SharedPass
  | CachedPassClaim _ _ _ _ => Err CachedPass
  | SelfReportClaim _ _ _ _ => Err SelfReport
  end.

Definition review_fields (s : ReviewSubject) (r : ReviewerIdentity) (v : ReviewEvidence) : list (string * Z) :=
  [(s.(rs_executor_agent), MAX_REVIEW_AGENT_BYTES); (s.(rs_executor_session), MAX_REVIEW_SESSION_BYTES);
   (r.(ri_agent), MAX_REVIEW_AGENT_BYTES); (r.(ri_session), MAX_REVIEW_SESSION_BYTES);
   (v.(re_requirement_ref), MAX_REVIEW_REF_BYTES); (v.(re_evidence_ref), MAX_REVIEW_REF_BYTES)].

Lemma check_review_field_Ok v f max x : check_review_field v f max = Ok x ↔ x = trim v ∧ x ≠ "" ∧ slen x ≤ max.
Proof.
  unfold check_review_field. destruct (is_empty (trim v)) eqn:E.
  { split; [done|]. intros (-> & Hne & _). by destruct (trim v). }
  destruct (Z.gtb_spec (slen (trim v)) max).
  { split; [done|]. intros (-> & _ & ?). lia. }
  split; [intros [= <-]|by intros (-> & _)]. split_and!; [done| |lia]. by intros Hx; rewrite Hx in E.
Qed.

(** Reviews are independent: an approval is issued exactly when all six fields are present
    and bounded and the reviewer differs from the executor in agent and in session, with
    two distinct pointers; it records the trimmed fields, so blanks cannot make two equal
    identities look distinct.  No other verdict becomes an approval. *)
Theorem review_independent s r v now :
  (∀ a, issue s r v now = Ok a ↔
     Forall (λ f, trim f.1 ≠ "" ∧ slen (trim f.1) ≤ f.2) (review_fields s r v)
     ∧ trim r.(ri_agent) ≠ trim s.(rs_executor_agent) ∧ trim r.(ri_session) ≠ trim s.(rs_executor_session)
     ∧ trim v.(re_requirement_ref) ≠ trim v.(re_evidence_ref)
     ∧ a = mkApproval s.(rs_task) (trim s.(rs_executor_agent)) (trim s.(rs_executor_session)) (trim r.(ri_agent))
             (trim r.(ri_session)) (trim v.(re_requirement_ref)) (trim v.(re_evidence_ref)) now)
  ∧ ∀ c, is_ok (into_approval c) = false.
Proof.
  split; [|by intros []]. intros a. unfold issue, review_fields. rewrite !Forall_cons. simpl.
  repeat match goal with |- context [check_review_field ?x ?f ?m] =>
    let E := fresh "E" in destruct (check_review_field x f m) eqn:E;
    [apply check_review_field_Ok in E as (-> & ? & ?)
    |split; [done|]; intros (Hf & _); exfalso;
     assert (check_review_field x f m = Ok (trim x)) by (apply check_review_field_Ok; tauto); congruence] end.
  destruct (str_eqb (trim (ri_agent r)) _) eqn:E1; [apply str_eqb_eq in E1; split; [done|tauto]|].
  destruct (str_eqb (trim (ri_session r)) _) eqn:E2; [apply str_eqb_eq in E2; split; [done|tauto]|].
  destruct (str_eqb (trim (re_requirement_ref v)) _) eqn:E3; [apply str_eqb_eq in E3; split; [done|tauto]|].
  apply str_eqb_neq in E1, E2, E3. split; [intros [= <-]; split_and!; done|]. by intros (_ & _ & _ & _ & ->).
Qed.
