(* ===== verification/ObjectStore.v ===== *)
(** * ObjectStore: the content-addressed store

    Models [content_hash.rs] and [content_store.rs] of [crates/bitty-ai-session]:
    blobs, rationales, checkpoints and their canonical digest, references, history
    and merge base.  The tables of the store are the state; a column that holds the
    hexadecimal or JSON text of a value holds the value, a column of type INTEGER
    holds an [i64].  SHA-256, the hexadecimal rendering and the JSON of a rationale
    are other crates: they form the class [ContentApi].  Opening, pragmas, schema
    admission and failures of the database itself are left out. *)

From stdpp Require Import gmap.
From S2P Require Import Prelude Text Order Wire Search.

Local Open Scope Z_scope.
Local Open Scope rust_scope.

(** ** Hashes *)

(** [ContentHash]: 32 bytes, ordered byte by byte. *)
Abbreviation ContentHash := string.
Definition is_hash (h : ContentHash) : Prop := slen h = 32.

(** [tombstone_hash] *)
Definition tombstone_hash : ContentHash := of_bytes (repeat Ascii.zero 32).

Definition i64_max : Z := 2 ^ 63 - 1.

(** [n as i64] of a [u64] and [n as u64] of an [i64]. *)
Definition to_i64 (n : Z) : Z := if n <? 2 ^ 63 then n else n - 2 ^ 64.
Definition of_i64 (n : Z) : Z := if n <? 0 then n + 2 ^ 64 else n.

Definition saturating_sub64 (a b : Z) : Z := Z.max 0 (a - b).

Definition MAX_BLOB_BYTES : Z := 16 * 1024 * 1024.
Definition MAX_CHECKPOINT_PARENTS : Z := 16.
Definition MAX_TASK_ID_BYTES : Z := 128.
Definition MAX_AGENT_ID_BYTES : Z := 128.
Definition MAX_SUMMARY_BYTES : Z := 2048.
Definition MAX_REF_NAME_BYTES : Z := 256.
Definition MAX_RATIONALE_FIELD_BYTES : Z := 4096.
Definition MAX_RATIONALE_TOTAL_BYTES : Z := 16384.

Inductive ContentStoreError :=
| CorruptData (expected found : ContentHash)
| CorruptCheckpoint (expected found : ContentHash)
| MissingParent (hash : ContentHash)
| MissingTree (hash : ContentHash)
| MissingTarget (hash : ContentHash)
| InvalidRefName (name : string)
| EmptyField (field : string)
| OversizedField (field : string) (size max : Z).

(** ** Rationales *)

Record Rationale := mkRationale {
  why : string;
  what : string;
  where_focus : option string;
  how : option string;
  expected : option string;
  observed : option string
}.

#[export] Instance Rationale_eq_dec : EqDecision Rationale.
Proof. solve_decision. Defined.

(** [Rationale::check_field], on an optional field *)
Definition check_field (field : string) (val : option string) : result unit ContentStoreError :=
  match val with
  | Some v => if slen v >? MAX_RATIONALE_FIELD_BYTES
              then Err (OversizedField field (slen v) MAX_RATIONALE_FIELD_BYTES) else Ok tt
  | None => Ok tt
  end.

Definition opt_len (s : option string) : Z := match s with Some s => slen s | None => 0 end.

(** [Rationale::validate] *)
Definition Rationale_validate (r : Rationale) : result unit ContentStoreError :=
  if is_empty (trim r.(why)) then Err (EmptyField "why")
  else if is_empty (trim r.(what)) then Err (EmptyField "what")
  else
    try! _ := check_field "why" (Some r.(why)) in
    try! _ := check_field "what" (Some r.(what)) in
    try! _ := check_field "where_focus" r.(where_focus) in
    try! _ := check_field "how" r.(how) in
    try! _ := check_field "expected" r.(expected) in
    try! _ := check_field "observed" r.(observed) in
    let total := slen r.(why) + slen r.(what) + opt_len r.(where_focus) + opt_len r.(how)
                 + opt_len r.(expected) + opt_len r.(observed) in
    if total >? MAX_RATIONALE_TOTAL_BYTES
    then Err (OversizedField "rationale_total" total MAX_RATIONALE_TOTAL_BYTES) else Ok tt.

(** ** Checkpoints *)

Record CheckpointDraft := mkCheckpointDraft {
  parents : list ContentHash;
  cp_task_id : string;
  cp_agent_id : string;
  rationale : Rationale;
  tree_hash : option ContentHash;
  cp_summary : string;
  timestamp_ms : Z
}.

#[export] Instance CheckpointDraft_eq_dec : EqDecision CheckpointDraft.
Proof. solve_decision. Defined.

(** [Checkpoint]: the draft and its identifier. *)
Record Checkpoint := mkCheckpoint { cp_id : ContentHash; cp_draft : CheckpointDraft }.

Class ContentApi := {
  sha256 : bytes → ContentHash;
  to_hex : ContentHash → string;
  rationale_json : Rationale → string
}.

(** Digests have 32 bytes, the rendering is lower-case hexadecimal, and the JSON of a
    rationale is read back. *)
Class ContentLaws `{ContentApi} : Prop := {
  sha256_hash b : is_hash (sha256 b);
  to_hex_len h : slen (to_hex h) = 2 * slen h;
  to_hex_digits h : str_forall (λ b, in_range 48 57 b || in_range 97 102 b) (to_hex h) = true;
  to_hex_inj : Inj (=) (=) to_hex;
  rationale_json_inj : Inj (=) (=) rationale_json
}.

(** The tables. *)
Record ReflogRow := mkReflogRow {
  seq : Z;
  ref_name : string;
  old_hash : option ContentHash;
  new_hash : ContentHash;
  reason : string;
  actor : string;
  at_ms : Z
}.

Record Store := mkStore {
  blobs : gmap ContentHash (bytes * Z);
  checkpoints : gmap ContentHash CheckpointDraft;
  refs : gmap string (ContentHash * Z);
  reflog : list ReflogRow;
  last_seq : Z
}.

Definition store_new : Store := mkStore ∅ ∅ ∅ [] 0.

Section Store.
Context `{ContentApi}.

(** The digest input of [CheckpointDraft::canonical_hash]. *)
Definition length_prefixed (field : bytes) : bytes := to_be_bytes 8 (len field) ++ field.
Definition join (sep : string) (l : list string) : string :=
  match l with [] => "" | x :: l => foldl (λ acc y, acc +:+ sep +:+ y) x l end.
Definition checkpoint_bytes (d : CheckpointDraft) : bytes :=
  let sorted_parents := sort_by_key (λ h : string, h) d.(parents) in
  as_bytes "checkpoint:v2" ++ [Ascii.zero]
  ++ concat (map (λ f, length_prefixed (as_bytes f))
       [join "," (map to_hex sorted_parents); d.(cp_task_id); d.(cp_agent_id);
        match d.(tree_hash) with Some h => to_hex h | None => "" end;
        d.(cp_summary); show d.(timestamp_ms); rationale_json d.(rationale)]).
Definition canonical_hash (d : CheckpointDraft) : ContentHash := sha256 (checkpoint_bytes d).

(** ** Blobs *)

Definition with_blobs (s : Store) b := mkStore b s.(checkpoints) s.(refs) s.(reflog) s.(last_seq).
Definition with_checkpoints (s : Store) c := mkStore s.(blobs) c s.(refs) s.(reflog) s.(last_seq).
Definition with_refs (s : Store) r := mkStore s.(blobs) s.(checkpoints) r s.(reflog) s.(last_seq).

(** [INSERT OR IGNORE] *)
Definition insert_or_ignore {A} (k : string) (v : A) (m : gmap string A) : gmap string A :=
  match m !! k with Some _ => m | None => <[k := v]> m end.

(** [put_blob] *)
Definition put_blob (s : Store) (data : bytes) (created_at_ms : Z) :
    Store * result ContentHash ContentStoreError :=
  if len data >? MAX_BLOB_BYTES then (s, Err (OversizedField "blob_data" (len data) MAX_BLOB_BYTES))
  else
    let hash := sha256 data in
    (with_blobs s (insert_or_ignore hash (data, to_i64 created_at_ms) s.(blobs)), Ok hash).

(** [get_blob] *)
Definition get_blob (s : Store) (hash : ContentHash) : result (option bytes) ContentStoreError :=
  match s.(blobs) !! hash with
  | Some (data, _) =>
      let computed := sha256 data in
      if negb (str_eqb computed hash) then Err (CorruptData hash computed) else Ok (Some data)
  | None => Ok None
  end.

(** [has_blob] and [has_checkpoint] *)
Definition has_blob (s : Store) (hash : ContentHash) : bool := bool_decide (is_Some (s.(blobs) !! hash)).
Definition has_checkpoint (s : Store) (hash : ContentHash) : bool :=
  bool_decide (is_Some (s.(checkpoints) !! hash)).

(** ** Commits *)

(** The checks on the fields of a draft, the same in every commit path. *)
Definition validate_draft (d : CheckpointDraft) : result unit ContentStoreError :=
  if len d.(parents) >? MAX_CHECKPOINT_PARENTS
    then Err (OversizedField "parents" (len d.(parents)) MAX_CHECKPOINT_PARENTS)
  else if is_empty (trim d.(cp_task_id)) then Err (EmptyField "task_id")
  else if slen d.(cp_task_id) >? MAX_TASK_ID_BYTES
    then Err (OversizedField "task_id" (slen d.(cp_task_id)) MAX_TASK_ID_BYTES)
  else if is_empty (trim d.(cp_agent_id)) then Err (EmptyField "agent_id")
  else if slen d.(cp_agent_id) >? MAX_AGENT_ID_BYTES
    then Err (OversizedField "agent_id" (slen d.(cp_agent_id)) MAX_AGENT_ID_BYTES)
  else if slen d.(cp_summary) >? MAX_SUMMARY_BYTES
    then Err (OversizedField "summary" (slen d.(cp_summary)) MAX_SUMMARY_BYTES)
  else Rationale_validate d.(rationale).

(** The loop over the parents. *)
Fixpoint check_parents (s : Store) (l : list ContentHash) : result unit ContentStoreError :=
  match l with
  | [] => Ok tt
  | p :: l => if has_checkpoint s p then check_parents s l else Err (MissingParent p)
  end.

(** The row of a checkpoint: its timestamp is an [i64]. *)
Definition row_of (d : CheckpointDraft) : CheckpointDraft :=
  mkCheckpointDraft d.(parents) d.(cp_task_id) d.(cp_agent_id) d.(rationale) d.(tree_hash)
    d.(cp_summary) (to_i64 d.(timestamp_ms)).
Definition of_row (d : CheckpointDraft) : CheckpointDraft :=
  mkCheckpointDraft d.(parents) d.(cp_task_id) d.(cp_agent_id) d.(rationale) d.(tree_hash)
    d.(cp_summary) (of_i64 d.(timestamp_ms)).

(** [commit_checkpoint] *)
Definition commit_checkpoint (s : Store) (d : CheckpointDraft) :
    Store * result Checkpoint ContentStoreError :=
  match validate_draft d with
  | Err e => (s, Err e)
  | Ok _ =>
      match check_parents s d.(parents) with
      | Err e => (s, Err e)
      | Ok _ =>
          let missing := match d.(tree_hash) with
                         | Some t => if has_blob s t then None else Some t
                         | None => None
                         end in
          match missing with
          | Some t => (s, Err (MissingTree t))
          | None =>
              let id := canonical_hash d in
              (with_checkpoints s (insert_or_ignore id (row_of d) s.(checkpoints)),
               Ok (mkCheckpoint id d))
          end
      end
  end.

(** [validate_ref_name] *)
Definition ref_name_byte (b : ascii) : bool :=
  is_ascii_lowercase b || is_ascii_uppercase b || is_ascii_digit b || byte_eqb 47 b || byte_eqb 45 b
  || byte_eqb 95 b || byte_eqb 46 b.
Definition validate_ref_name (name : string) : result unit ContentStoreError :=
  if is_empty (trim name) then Err (EmptyField "ref_name")
  else if slen name >? MAX_REF_NAME_BYTES
    then Err (OversizedField "ref_name" (slen name) MAX_REF_NAME_BYTES)
  else if negb (str_forall ref_name_byte name) then Err (InvalidRefName name)
  else Ok tt.

Fixpoint validate_ref_names (l : list string) : result unit ContentStoreError :=
  match l with
  | [] => Ok tt
  | name :: l => try! _ := validate_ref_name name in validate_ref_names l
  end.

(** The draft with the tree that is committed with it. *)
Definition with_tree (d : CheckpointDraft) (h : ContentHash) : CheckpointDraft :=
  mkCheckpointDraft d.(parents) d.(cp_task_id) d.(cp_agent_id) d.(rationale) (Some h)
    d.(cp_summary) d.(timestamp_ms).

(** The blob and checkpoint rows of an atomic commit. *)
Definition insert_objects (s : Store) (tree : bytes) (created_at_ms : Z) (d : CheckpointDraft) : Store :=
  mkStore (insert_or_ignore (sha256 tree) (tree, to_i64 created_at_ms) s.(blobs))
    (insert_or_ignore (canonical_hash d) (row_of d) s.(checkpoints)) s.(refs) s.(reflog) s.(last_seq).

(** Upserts of references. *)
Definition set_ref (s : Store) (name : string) (target : ContentHash) (updated_at_ms : Z) : Store :=
  with_refs s (<[name := (target, to_i64 updated_at_ms)]> s.(refs)).
Definition set_refs (s : Store) (l : list (string * ContentHash)) (updated_at_ms : Z) : Store :=
  foldl (λ s r, set_ref s r.1 r.2 updated_at_ms) s l.

(** [commit_checkpoint_atomic] *)
Definition commit_checkpoint_atomic (s : Store) (tree : bytes) (tree_created_at_ms : Z)
    (d : CheckpointDraft) (ref_names : list string) (updated_at_ms : Z) :
    Store * result Checkpoint ContentStoreError :=
  if len tree >? MAX_BLOB_BYTES then (s, Err (OversizedField "blob_data" (len tree) MAX_BLOB_BYTES))
  else
    match validate_draft d with
    | Err e => (s, Err e)
    | Ok _ =>
        match validate_ref_names ref_names with
        | Err e => (s, Err e)
        | Ok _ =>
            let effective := with_tree d (sha256 tree) in
            let id := canonical_hash effective in
            match check_parents s effective.(parents) with
            | Err e => (s, Err e)
            | Ok _ =>
                (set_refs (insert_objects s tree tree_created_at_ms effective)
                   (map (λ name, (name, id)) ref_names) updated_at_ms,
                 Ok (mkCheckpoint id effective))
            end
        end
    end.

(** [get_checkpoint] *)
Definition get_checkpoint (s : Store) (hash : ContentHash) : result (option Checkpoint) ContentStoreError :=
  match s.(checkpoints) !! hash with
  | Some row =>
      let draft := of_row row in
      let computed := canonical_hash draft in
      if negb (str_eqb computed hash) then Err (CorruptCheckpoint hash computed)
      else Ok (Some (mkCheckpoint hash draft))
  | None => Ok None
  end.

(** ** References *)

(** The checks of [update_refs_atomic]. *)
Fixpoint check_targets (s : Store) (l : list (string * ContentHash)) : result unit ContentStoreError :=
  match l with
  | [] => Ok tt
  | (name, target) :: l =>
      try! _ := validate_ref_name name in
      if has_checkpoint s target then check_targets s l else Err (MissingTarget target)
  end.

(** [update_refs_atomic], [update_ref], [get_ref], [delete_ref], [list_refs] *)
Definition update_refs_atomic (s : Store) (l : list (string * ContentHash)) (updated_at_ms : Z) :
    Store * result unit ContentStoreError :=
  match check_targets s l with
  | Err e => (s, Err e)
  | Ok _ => (set_refs s l updated_at_ms, Ok tt)
  end.
Definition update_ref (s : Store) (name : string) (target : ContentHash) (updated_at_ms : Z) :
    Store * result unit ContentStoreError := update_refs_atomic s [(name, target)] updated_at_ms.
Definition get_ref (s : Store) (name : string) : option ContentHash := fst <$> s.(refs) !! name.
Definition delete_ref (s : Store) (name : string) : Store * result bool ContentStoreError :=
  match validate_ref_name name with
  | Err e => (s, Err e)
  | Ok _ => (with_refs s (delete name s.(refs)), Ok (bool_decide (is_Some (s.(refs) !! name))))
  end.
Definition list_refs (s : Store) : list (string * ContentHash) :=
  sort_by_key fst ((λ r, (r.1, r.2.1)) <$> map_to_list s.(refs)).

(** ** Support for garbage collection *)

(** [reflog_window_hashes]: the rows at or after the threshold. *)
Definition reflog_window_hashes (s : Store) (now_ms grace_ms : Z) : list (option ContentHash * ContentHash) :=
  let threshold := Z.min (saturating_sub64 now_ms grace_ms) i64_max in
  map (λ r, (r.(old_hash), r.(new_hash))) (List.filter (λ r, threshold <=? r.(at_ms)) s.(reflog)).

(** [all_checkpoint_hashes] and [all_blob_hashes] *)
Definition all_checkpoint_hashes (s : Store) : list ContentHash :=
  sort_by_key (λ h : string, h) (map_to_list s.(checkpoints)).*1.
Definition all_blob_hashes (s : Store) : list ContentHash :=
  sort_by_key (λ h : string, h) (map_to_list s.(blobs)).*1.

(** [delete_checkpoints_and_blobs] *)
Definition delete_checkpoints_and_blobs (s : Store) (cps bs : list ContentHash) : Store :=
  mkStore (foldr delete s.(blobs) bs) (foldr delete s.(checkpoints) cps) s.(refs) s.(reflog) s.(last_seq).

(** ** History *)

(** Every parent link of the table: what a search can queue. *)
Definition all_links (s : Store) : list ContentHash :=
  concat (map (λ r, r.2.(parents)) (map_to_list s.(checkpoints))).

(** The loop of [log]. *)
Fixpoint log_loop (fuel : nat) (s : Store) (limit : Z) (visited : gset ContentHash)
    (queue : list ContentHash) (out : list Checkpoint) : run (result (list Checkpoint) ContentStoreError) :=
  match fuel with
  | O => OutOfFuel
  | S fuel =>
      match queue with
      | [] => Returned (Ok out)
      | h :: queue =>
          if len out >=? limit then Returned (Ok out)
          else
            match get_checkpoint s h with
            | Err e => Returned (Err e)
            | Ok None => log_loop fuel s limit visited queue out
            | Ok (Some cp) =>
                let '(visited, queue) := enqueue_new visited queue cp.(cp_draft).(parents) in
                log_loop fuel s limit visited queue (out ++ [cp])
            end
      end
  end.

(** [log] *)
Definition log (s : Store) (hash : ContentHash) (limit : Z) :
    run (result (list Checkpoint) ContentStoreError) :=
  log_loop (S (S (length (all_links s)))) s limit {[hash]} [hash] [].

(** The first loop of [merge_base]: every ancestor. *)
Fixpoint ancestors_loop (fuel : nat) (s : Store) (seen : gset ContentHash) (queue : list ContentHash) :
    run (result (gset ContentHash) ContentStoreError) :=
  match fuel with
  | O => OutOfFuel
  | S fuel =>
      match queue with
      | [] => Returned (Ok seen)
      | h :: queue =>
          match get_checkpoint s h with
          | Err e => Returned (Err e)
          | Ok None => ancestors_loop fuel s seen queue
          | Ok (Some cp) =>
              let '(seen, queue) := enqueue_new seen queue cp.(cp_draft).(parents) in
              ancestors_loop fuel s seen queue
          end
      end
  end.

(** The second loop: the first node that is an ancestor of the other side. *)
Fixpoint common_loop (fuel : nat) (s : Store) (ancestors visited : gset ContentHash)
    (queue : list ContentHash) : run (result (option ContentHash) ContentStoreError) :=
  match fuel with
  | O => OutOfFuel
  | S fuel =>
      match queue with
      | [] => Returned (Ok None)
      | h :: queue =>
          if bool_decide (h ∈ ancestors) then Returned (Ok (Some h))
          else
            match get_checkpoint s h with
            | Err e => Returned (Err e)
            | Ok None => common_loop fuel s ancestors visited queue
            | Ok (Some cp) =>
                let '(visited, queue) := enqueue_new visited queue cp.(cp_draft).(parents) in
                common_loop fuel s ancestors visited queue
            end
      end
  end.

(** [merge_base] *)
Definition merge_base (s : Store) (a b : ContentHash) : run (result (option ContentHash) ContentStoreError) :=
  if str_eqb a b then Returned (Ok (Some a))
  else
    let fuel := S (S (length (all_links s))) in
    match ancestors_loop fuel s {[a]} [a] with
    | Returned (Ok ancestors) => common_loop fuel s ancestors {[b]} [b]
    | Returned (Err e) => Returned (Err e)
    | Panicked => Panicked
    | OutOfFuel => OutOfFuel
    end.

End Store.
