(* ===== verification/StoreFacts.v ===== *)
(** * StoreFacts: the invariant of the content-addressed store

    Every row is stored under its own digest, parents, trees and targets exist, and the
    history has no cycle; every write keeps this, so every read of a store that was
    built by the operations is verified and total. *)

From stdpp Require Import gmap.
From S2P Require Import Prelude Text Order Wire Search ObjectStore.

Local Open Scope Z_scope.
Local Open Scope rust_scope.

(** [p] is a parent of [c]; ancestors include the checkpoint itself. *)
Definition link (s : Store) (c p : ContentHash) : Prop := ∃ row, s.(checkpoints) !! c = Some row ∧ p ∈ row.(parents).
Definition ancestor (s : Store) : ContentHash → ContentHash → Prop := rtc (link s).

Definition has_cp (s : Store) (h : ContentHash) : Prop := is_Some (s.(checkpoints) !! h).

Section Facts.
Context `{ContentApi}.

Definition blobs_ok (s : Store) : Prop := ∀ h d n, s.(blobs) !! h = Some (d, n) → sha256 d = h.
Definition rows_ok (s : Store) : Prop := ∀ h row, s.(checkpoints) !! h = Some row → canonical_hash (of_row row) = h.

Record store_ok (s : Store) : Prop := {
  sok_blobs : blobs_ok s;
  sok_rows : rows_ok s;
  sok_parents c p : link s c p → has_cp s p;
  sok_trees h row t : s.(checkpoints) !! h = Some row → row.(tree_hash) = Some t → is_Some (s.(blobs) !! t);
  sok_refs name h n : s.(refs) !! name = Some (h, n) → has_cp s h;
  sok_ranked : ∃ rank : ContentHash → nat, ∀ c p, link s c p → (rank p < rank c)%nat
}.

(** ** Reads *)

Lemma get_blob_ok s h : blobs_ok s → get_blob s h = Ok (fst <$> s.(blobs) !! h).
Proof.
  intros Hb. unfold get_blob. destruct (blobs s !! h) as [[d n]|] eqn:E; [|done].
  rewrite (Hb _ _ _ E). by rewrite (proj2 (str_eqb_eq h h)).
Qed.

Lemma get_checkpoint_ok s h : rows_ok s →
  get_checkpoint s h = Ok ((λ row, mkCheckpoint h (of_row row)) <$> s.(checkpoints) !! h).
Proof.
  intros Hr. unfold get_checkpoint. destruct (checkpoints s !! h) as [row|] eqn:E; [|done].
  rewrite (Hr _ _ E). by rewrite (proj2 (str_eqb_eq h h)).
Qed.

Lemma has_checkpoint_iff s h : has_checkpoint s h = true ↔ has_cp s h.
Proof. unfold has_checkpoint. apply bool_decide_eq_true. Qed.

Lemma of_to_i64 n : is_u64 n → of_i64 (to_i64 n) = n.
Proof.
  unfold is_u64, u64_max, of_i64, to_i64. intros Hn. destruct (Z.ltb_spec n (2 ^ 63)).
  - destruct (Z.ltb_spec n 0); lia.
  - destruct (Z.ltb_spec (n - 2 ^ 64) 0); lia.
Qed.

Lemma of_row_of d : is_u64 d.(timestamp_ms) → of_row (row_of d) = d.
Proof. intros Hd. unfold of_row, row_of. simpl. rewrite of_to_i64 by done. by destruct d. Qed.

(** ** Writes *)

Lemma insert_or_ignore_lookup {A} k (v : A) m i : insert_or_ignore k v m !! i =
  match m !! i with Some x => Some x | None => if bool_decide (i = k) then Some v else None end.
Proof.
  unfold insert_or_ignore. destruct (m !! k) eqn:Ek; case_bool_decide as Hi; subst.
  - by rewrite Ek.
  - by destruct (m !! i).
  - by rewrite lookup_insert_eq, Ek.
  - rewrite lookup_insert_ne by done. by destruct (m !! i).
Qed.

Lemma insert_or_ignore_mono {A} k (v : A) m i : is_Some (m !! i) → is_Some (insert_or_ignore k v m !! i).
Proof. intros [x Hx]. rewrite insert_or_ignore_lookup, Hx. eauto. Qed.

Lemma insert_or_ignore_here {A} k (v : A) m : is_Some (insert_or_ignore k v m !! k).
Proof. rewrite insert_or_ignore_lookup, bool_decide_true by done. destruct (m !! k); eauto. Qed.

Lemma check_parents_ok s l : check_parents s l = Ok tt ↔ ∀ p, p ∈ l → has_cp s p.
Proof.
  induction l as [|p l IH]; simpl; [split; [intros _ p ?%elem_of_nil|]; done|].
  destruct (has_checkpoint s p) eqn:E.
  - rewrite IH. apply has_checkpoint_iff in E. split; [intros Hl q [->|?]%elem_of_cons; auto|].
    intros Hl q Hq. apply Hl. by apply elem_of_cons; right.
  - split; [done|]. intros Hl. exfalso. assert (has_checkpoint s p = true); [|congruence].
    apply has_checkpoint_iff, Hl, list_elem_of_here.
Qed.

(** The rank of a new checkpoint is above its parents. *)
Definition list_max (f : ContentHash → nat) (l : list ContentHash) : nat := foldr (λ h m, Nat.max (f h) m) O l.

Lemma list_max_ge f l h : h ∈ l → (f h ≤ list_max f l)%nat.
Proof. induction l as [|x l IH]; [by intros ?%elem_of_nil|]. intros [->|?]%elem_of_cons; simpl; [lia|]. specialize (IH ltac:(done)). lia. Qed.

(** Objects are added: a blob, and a checkpoint with known parents and tree. *)
Lemma store_ok_blob s d n : store_ok s →
  store_ok (with_blobs s (insert_or_ignore (sha256 d) (d, n) s.(blobs))).
Proof.
  intros [Hb Hr Hp Ht Hf Hk]. constructor; try done.
  - intros h d' n'. simpl. rewrite insert_or_ignore_lookup. destruct (blobs s !! h) eqn:E; [intros [= ->]; by eapply Hb|].
    case_bool_decide; [|done]. by intros [= <- <-].
  - intros h row t Hh Et. simpl. apply insert_or_ignore_mono. by eapply Ht.
Qed.

Lemma store_ok_checkpoint s d : store_ok s → is_u64 d.(timestamp_ms) → (∀ p, p ∈ d.(parents) → has_cp s p) →
  (∀ t, d.(tree_hash) = Some t → is_Some (s.(blobs) !! t)) →
  store_ok (with_checkpoints s (insert_or_ignore (canonical_hash d) (row_of d) s.(checkpoints))).
Proof.
  intros Hok Hd Hp Ht. destruct (s.(checkpoints) !! canonical_hash d) as [old|] eqn:Enew.
  { unfold insert_or_ignore. rewrite Enew. by destruct s. }
  destruct Hok as [Hb Hr Hpar Htree Hf [rank Hrank]]. unfold insert_or_ignore. rewrite Enew.
  set (id := canonical_hash d) in *.
  assert (∀ h, has_cp s h → has_cp (with_checkpoints s (<[id := row_of d]> s.(checkpoints))) h) as Hmono.
  { intros h [row Hh]. exists row. simpl. rewrite lookup_insert_ne; [done|]. congruence. }
  assert (∀ c p, link (with_checkpoints s (<[id := row_of d]> s.(checkpoints))) c p → link s c p ∨ c = id ∧ p ∈ d.(parents)) as Hlink.
  { intros c p (row & Hc & Hin). simpl in Hc. rewrite lookup_insert_Some in Hc. destruct Hc as [[<- <-]|[_ Hc]]; [by right|].
    left. by exists row. }
  constructor; simpl; try done.
  - intros h row. simpl. rewrite lookup_insert_Some. intros [[<- <-]|[_ Hh]]; [by rewrite of_row_of|by apply Hr].
  - intros c p [Hl|[_ Hin]]%Hlink; apply Hmono; [by eapply Hpar|by apply Hp].
  - intros h row t. rewrite lookup_insert_Some. intros [[<- <-]|[_ Hh]]; [apply Ht|by eapply Htree].
  - intros name h n Hn. by eapply Hmono, Hf.
  - exists (λ h, if bool_decide (h = id) then S (list_max rank d.(parents)) else rank h).
    assert (∀ h, has_cp s h → h ≠ id) as Hne by (intros h [? ?] ->; congruence).
    intros c p [Hl|[-> Hin]]%Hlink.
    + rewrite !bool_decide_false; [by apply Hrank| |]; apply Hne; [|by eapply Hpar].
      destruct Hl as (row & Hc & _). by exists row.
    + rewrite (bool_decide_false (p = id)), bool_decide_true by (done || by apply Hne, Hp).
      pose proof (list_max_ge rank d.(parents) p Hin). lia.
Qed.

Lemma store_ok_refs s r : store_ok s → (∀ name h n, r !! name = Some (h, n) → has_cp s h) → store_ok (with_refs s r).
Proof. intros [] Hr. by constructor. Qed.

Lemma store_ok_set_ref s name h n : store_ok s → has_cp s h → store_ok (set_ref s name h n).
Proof.
  intros Hok Hh. apply store_ok_refs; [done|]. intros i x m. rewrite lookup_insert_Some.
  intros [[_ [= <- _]]|[_ Hx]]; [done|by eapply (sok_refs s Hok)].
Qed.

Lemma store_ok_set_refs l : ∀ s n, store_ok s → (∀ x, x ∈ l → has_cp s x.2) → store_ok (set_refs s l n).
Proof.
  induction l as [|[name h] l IH]; intros s n Hok Hl; [done|]. simpl. apply IH.
  - apply store_ok_set_ref; [done|]. apply (Hl (name, h)), list_elem_of_here.
  - intros x Hx. apply (Hl x). by apply elem_of_cons; right.
Qed.

Lemma store_ok_delete_ref s name : store_ok s → store_ok (with_refs s (delete name s.(refs))).
Proof. intros Hok. apply store_ok_refs; [done|]. intros i h n [_ Hi]%lookup_delete_Some. by eapply (sok_refs s Hok). Qed.

Lemma store_ok_insert_objects s tree n d : store_ok s → is_u64 d.(timestamp_ms) → d.(tree_hash) = Some (sha256 tree) →
  (∀ p, p ∈ d.(parents) → has_cp s p) →
  store_ok (insert_objects s tree n d) ∧ has_cp (insert_objects s tree n d) (canonical_hash d).
Proof.
  intros Hok Hd Ht Hp. split.
  - pose proof (store_ok_blob s tree (to_i64 n) Hok) as Hok1.
    apply (store_ok_checkpoint _ d) in Hok1; try done. simpl. rewrite Ht. intros t [= <-]. apply insert_or_ignore_here.
  - unfold has_cp. simpl. apply insert_or_ignore_here.
Qed.

Lemma put_blob_ok s d n : store_ok s → store_ok (put_blob s d n).1.
Proof. intros Hok. unfold put_blob. destruct (_ >? _); [done|]. by apply store_ok_blob. Qed.

Lemma commit_checkpoint_ok s d : store_ok s → is_u64 d.(timestamp_ms) → store_ok (commit_checkpoint s d).1.
Proof.
  intros Hok Hd. unfold commit_checkpoint. destruct (validate_draft d); [|done].
  destruct (check_parents s _) as [[]|] eqn:Hp; [|done]. rewrite check_parents_ok in Hp.
  assert (∀ t, match d.(tree_hash) with Some t => if has_blob s t then None else Some t | None => None end = None →
    d.(tree_hash) = Some t → is_Some (s.(blobs) !! t)) as Ht.
  { intros t Hm Et. rewrite Et in Hm. destruct (has_blob s t) eqn:Hb; [|done]. by apply bool_decide_eq_true in Hb. }
  destruct (match tree_hash d with Some _ => _ | None => _ end) eqn:Hm; [done|].
  apply store_ok_checkpoint; auto.
Qed.

Lemma commit_atomic_ok s tree n d names m : store_ok s → is_u64 d.(timestamp_ms) →
  store_ok (commit_checkpoint_atomic s tree n d names m).1.
Proof.
  intros Hok Hd. unfold commit_checkpoint_atomic. destruct (_ >? _); [done|]. destruct (validate_draft d); [|done].
  destruct (validate_ref_names names); [|done]. destruct (check_parents s _) as [[]|] eqn:Hp; [|done].
  rewrite check_parents_ok in Hp. destruct (store_ok_insert_objects s tree n (with_tree d (sha256 tree))) as [Hok1 Hcp]; try done.
  apply store_ok_set_refs; [done|]. by intros x (name & -> & _)%list_elem_of_fmap.
Qed.

Lemma check_targets_ok s l : check_targets s l = Ok tt → ∀ x, x ∈ l → has_cp s x.2.
Proof.
  induction l as [|[name h] l IH]; simpl; [by intros _ x ?%elem_of_nil|].
  destruct (validate_ref_name name); simpl; [|done]. destruct (has_checkpoint s h) eqn:E; [|done].
  intros Hl x [->|Hx]%elem_of_cons; [by apply has_checkpoint_iff|by apply IH].
Qed.

Lemma update_refs_ok s l n : store_ok s → store_ok (update_refs_atomic s l n).1.
Proof.
  intros Hok. unfold update_refs_atomic. destruct (check_targets s l) as [[]|] eqn:E; [|done].
  apply store_ok_set_refs; [done|]. by apply check_targets_ok.
Qed.

Lemma delete_ref_ok s name : store_ok s → store_ok (delete_ref s name).1.
Proof. intros Hok. unfold delete_ref. destruct (validate_ref_name name); [|done]. by apply store_ok_delete_ref. Qed.

(** A blob that is put is read back; an old blob stays. *)
Lemma put_get_blob s d n : store_ok s → len d ≤ MAX_BLOB_BYTES →
  ∃ s', put_blob s d n = (s', Ok (sha256 d)) ∧ (∃ d', get_blob s' (sha256 d) = Ok (Some d') ∧ sha256 d' = sha256 d)
    ∧ ∀ h d', get_blob s h = Ok (Some d') → get_blob s' h = Ok (Some d').
Proof.
  intros Hok Hd. unfold put_blob. destruct (Z.gtb_spec (len d) MAX_BLOB_BYTES); [lia|]. eexists. split; [done|].
  pose proof (store_ok_blob s d (to_i64 n) Hok) as Hok'.
  split.
  - rewrite get_blob_ok by apply Hok'. simpl. rewrite insert_or_ignore_lookup, bool_decide_true by done.
    destruct (blobs s !! sha256 d) as [[d' m]|] eqn:E; [|by exists d]. exists d'. split; [done|]. by eapply (sok_blobs s Hok).
  - intros h d'. rewrite !get_blob_ok by (apply Hok' || apply Hok). simpl. rewrite insert_or_ignore_lookup.
    by destruct (blobs s !! h) as [[x m]|].
Qed.

(** ** Searches *)

(** The parts of the rows not yet seen: what a search can still queue. *)
Definition left_in {A B} (f : A → list B) (l : list (ContentHash * A)) (seen : gset ContentHash) : nat :=
  length (concat (map (λ r, f r.2) (List.filter (λ r, negb (bool_decide (r.1 ∈ seen))) l))).
Definition links_left (s : Store) (seen : gset ContentHash) : nat := left_in parents (map_to_list s.(checkpoints)) seen.

Lemma left_in_empty {A B} (f : A → list B) l : left_in f l ∅ = length (concat (map (λ r, f r.2) l)).
Proof.
  unfold left_in. f_equal. f_equal. f_equal. induction l as [|x l IH]; [done|]. simpl.
  rewrite bool_decide_false by apply not_elem_of_empty. simpl. by rewrite IH.
Qed.

Lemma links_left_empty s : links_left s ∅ = length (all_links s).
Proof. apply left_in_empty. Qed.

Lemma left_in_perm {A B} (f : A → list B) k l seen : k ≡ₚ l → left_in f k seen = left_in f l seen.
Proof.
  unfold left_in. intros Hp. induction Hp; simpl; repeat case_bool_decide; simpl; rewrite ?length_app; lia.
Qed.

Lemma left_in_other {A B} (f : A → list B) l seen h : (∀ x, x ∈ l → x.1 ≠ h) → left_in f l ({[h]} ∪ seen) = left_in f l seen.
Proof.
  intros Hl. unfold left_in. f_equal. f_equal. f_equal. induction l as [|x l IH]; [done|]. simpl.
  rewrite (bool_decide_ext (x.1 ∈ {[h]} ∪ seen) (x.1 ∈ seen)).
  - rewrite IH; [done|]. intros y Hy. apply Hl. by apply elem_of_cons; right.
  - specialize (Hl x (list_elem_of_here _ _)). rewrite elem_of_union, elem_of_singleton. tauto.
Qed.

(** Seeing a row takes its part off. *)
Lemma left_in_step {A B} (f : A → list B) (m : gmap ContentHash A) seen h row : m !! h = Some row → (h ∉ seen) →
  (left_in f (map_to_list m) ({[h]} ∪ seen) + length (f row) = left_in f (map_to_list m) seen)%nat.
Proof.
  intros Hh Hs. rewrite <-!(left_in_perm f _ _ _ (map_to_list_delete _ _ _ Hh)).
  unfold left_in at 1 2. cbn [List.filter fst snd]. rewrite bool_decide_true, bool_decide_false by (done || set_solver).
  simpl. rewrite length_app. fold (left_in f (map_to_list (delete h m)) ({[h]} ∪ seen)).
  fold (left_in f (map_to_list (delete h m)) seen). rewrite left_in_other; [lia|].
  intros [i x] Hx%elem_of_map_to_list E. simpl in E. subst i. by rewrite lookup_delete_eq in Hx.
Qed.

Lemma links_left_step s seen h row : s.(checkpoints) !! h = Some row → (h ∉ seen) →
  (links_left s ({[h]} ∪ seen) + length row.(parents) = links_left s seen)%nat.
Proof. apply left_in_step. Qed.

(** What a search has found: everything seen or queued is reached from a root, and the
    parents of what is seen are seen or queued. *)
Record search_inv (s : Store) (roots seen : gset ContentHash) (queue : list ContentHash) : Prop := {
  si_roots r : r ∈ roots → r ∈ seen ∨ r ∈ queue ∨ ¬ has_cp s r;
  si_seen h : h ∈ seen → has_cp s h ∧ ∃ r, r ∈ roots ∧ ancestor s r h;
  si_queue h : h ∈ queue → ∃ r, r ∈ roots ∧ ancestor s r h;
  si_links c p : c ∈ seen → link s c p → p ∈ seen ∨ p ∈ queue ∨ ¬ has_cp s p
}.

Lemma search_start s (roots : gset ContentHash) : search_inv s roots ∅ (elements roots).
Proof.
  constructor; [set_solver|set_solver| |set_solver].
  intros h Hh%elem_of_elements. exists h. split; [done|apply rtc_refl].
Qed.

Lemma search_skip s roots seen h queue : search_inv s roots seen (h :: queue) → h ∈ seen ∨ ¬ has_cp s h →
  search_inv s roots seen queue.
Proof.
  intros [H1 H2 H3 H4] Hh. constructor; [|done| |].
  - intros r Hr. destruct (H1 r Hr) as [?|[[->|?]%elem_of_cons|?]]; tauto.
  - intros x Hx. apply H3. by apply elem_of_cons; right.
  - intros c p Hc Hl. destruct (H4 c p Hc Hl) as [?|[[->|?]%elem_of_cons|?]]; tauto.
Qed.

Lemma search_visit s roots seen h queue row new : search_inv s roots seen (h :: queue) →
  s.(checkpoints) !! h = Some row → (∀ p, p ∈ new ↔ p ∈ row.(parents) ∧ (p ∉ {[h]} ∪ seen)) →
  search_inv s roots ({[h]} ∪ seen) (queue ++ new).
Proof.
  intros [H1 H2 H3 H4] Hh Hnew. destruct (H3 h (list_elem_of_here _ _)) as (r & Hr & Ha).
  assert (∀ x, x ∈ seen ∨ x ∈ h :: queue ∨ ¬ has_cp s x → x ∈ {[h]} ∪ seen ∨ x ∈ queue ++ new ∨ ¬ has_cp s x) as Hmono.
  { intros x. rewrite elem_of_cons, elem_of_union, elem_of_singleton, elem_of_app. tauto. }
  constructor.
  - intros x Hx. apply Hmono, H1, Hx.
  - intros x [->%elem_of_singleton|Hx]%elem_of_union; [|by apply H2]. split; [by exists row|eauto].
  - intros x [Hx|Hx]%elem_of_app; [apply H3; by apply elem_of_cons; right|].
    apply Hnew in Hx as [Hx _]. exists r. split; [done|]. eapply rtc_r; [done|]. by exists row.
  - intros c p [->%elem_of_singleton|Hc]%elem_of_union Hl; [|apply Hmono; by eapply H4].
    destruct Hl as (row' & Hrow & Hin). rewrite Hh in Hrow. injection Hrow as <-.
    destruct (decide (p ∈ {[h]} ∪ seen)); [by left|]. right. left. apply elem_of_app. right. by apply Hnew.
Qed.

(** At the end everything reached over existing rows is seen. *)
Lemma search_end s roots seen : search_inv s roots seen [] →
  ∀ h, h ∈ seen ↔ has_cp s h ∧ ∃ r, r ∈ roots ∧ ancestor s r h.
Proof.
  intros [H1 H2 H3 H4] h. split; [apply H2|]. intros [Hcp (r & Hr & Ha)].
  assert (has_cp s r → r ∈ seen) as Hroot.
  { intros Hcr. destruct (H1 r Hr) as [?|[?%elem_of_nil|?]]; done. }
  revert Hcp. pattern h. revert h Ha. apply rtc_ind_r; [done|]. intros y z _ Hyz IH Hz.
  destruct (H4 y z) as [?|[?%elem_of_nil|?]]; try done. apply IH. destruct Hyz as (row & Hy & _). by exists row.
Qed.

End Facts.
