(* ===== verification/HistoryFacts.v ===== *)
(** * HistoryFacts: the walks of the content store

    The breadth-first walks of [log] and [merge_base] end, visit each checkpoint once and
    find a common ancestor exactly when there is one. *)

From stdpp Require Import gmap.
From S2P Require Import Prelude Text Order Search ObjectStore StoreFacts.

Local Open Scope Z_scope.
Local Open Scope rust_scope.

Section Facts.
Context `{ContentApi}.

(** Everything a walk from [h] can queue. *)
Definition universe (s : Store) (h : ContentHash) : gset ContentHash := {[h]} ∪ list_to_set (all_links s).

Lemma universe_link s h c row p : s.(checkpoints) !! c = Some row → p ∈ row.(parents) → p ∈ universe s h.
Proof.
  intros Hc Hp. unfold universe. apply elem_of_union. right. apply elem_of_list_to_set. unfold all_links.
  apply list_elem_of_In, in_concat. exists (parents row). split; [|by apply list_elem_of_In].
  apply in_map_iff. exists (c, row). split; [done|]. by apply list_elem_of_In, elem_of_map_to_list.
Qed.

Lemma universe_size s h : (size (universe s h ∖ {[h]}) ≤ length (all_links s))%nat.
Proof.
  transitivity (size (list_to_set (all_links s) : gset ContentHash)).
  - apply subseteq_size. unfold universe. set_solver.
  - induction (all_links s) as [|x l IH]; [done|]. simpl.
    rewrite size_union_alt, size_singleton. apply le_n_S. etrans; [|exact IH]. apply subseteq_size. set_solver.
Qed.

(** A walk: the queue is seen, what is seen is reached, and the parents of what left the
    queue are seen. *)
Record walk_inv (s : Store) (root : ContentHash) (seen : gset ContentHash) (queue : list ContentHash) : Prop := {
  wi_root : root ∈ seen;
  wi_queue h : h ∈ queue → h ∈ seen;
  wi_seen h : h ∈ seen → ancestor s root h;
  wi_links c p : c ∈ seen → link s c p → c ∈ queue ∨ p ∈ seen
}.

Lemma walk_start s root : walk_inv s root {[root]} [root].
Proof.
  constructor; [set_solver|set_solver| |].
  - intros h ->%elem_of_singleton. apply rtc_refl.
  - intros c p ->%elem_of_singleton _. left. apply list_elem_of_here.
Qed.

Lemma walk_skip s root seen h queue : walk_inv s root seen (h :: queue) → s.(checkpoints) !! h = None → walk_inv s root seen queue.
Proof.
  intros [H1 H2 H3 H4] Hh. constructor; try done.
  - intros x Hx. apply H2. by apply elem_of_cons; right.
  - intros c p Hc Hl. destruct (H4 c p Hc Hl) as [[->|?]%elem_of_cons|?]; auto. destruct Hl as (row & ? & _). congruence.
Qed.

(** One visit: the bound on the turns goes down by one. *)
Lemma walk_visit s root seen h queue row seen' queue' : walk_inv s root seen (h :: queue) →
  s.(checkpoints) !! h = Some row → enqueue_new seen queue row.(parents) = (seen', queue') →
  walk_inv s root seen' queue'
  ∧ (size (universe s root ∖ seen') + length queue' = size (universe s root ∖ seen) + length queue)%nat.
Proof.
  intros [H1 H2 H3 H4] Hh E. destruct (enqueue_new_spec (universe s root) _ _ _ _ _ E) as (Hsz & Hel & new & -> & Hnew).
  { intros p Hp. by eapply universe_link. }
  split; [|done]. assert (h ∈ seen) as Hs by (apply H2, list_elem_of_here). constructor.
  - apply Hel. by left.
  - intros x [Hx|Hx]%elem_of_app; apply Hel; [left; apply H2; by apply elem_of_cons; right|right; by apply Hnew].
  - intros x [Hx|Hx]%Hel; [by apply H3|]. eapply rtc_r; [by apply H3|]. by exists row.
  - intros c p [Hc|Hc]%Hel Hl.
    + destruct (H4 c p Hc Hl) as [[->|?]%elem_of_cons|?].
      * right. apply Hel. right. destruct Hl as (row' & Hr & Hp). rewrite Hh in Hr. by injection Hr as <-.
      * left. apply elem_of_app. by left.
      * right. apply Hel. by left.
    + destruct (decide (c ∈ seen)) as [Hin|Hin].
      * destruct (H4 c p Hin Hl) as [[->|?]%elem_of_cons|?].
        -- right. apply Hel. right. destruct Hl as (row' & Hr & Hp). rewrite Hh in Hr. by injection Hr as <-.
        -- left. apply elem_of_app. by left.
        -- right. apply Hel. by left.
      * left. apply elem_of_app. right. by apply Hnew.
Qed.

Lemma walk_end s root seen : walk_inv s root seen [] → ∀ h, h ∈ seen ↔ ancestor s root h.
Proof.
  intros [H1 H2 H3 H4] h. split; [apply H3|]. revert h. apply rtc_ind_r; [done|].
  intros y z _ Hyz Hy. by destruct (H4 y z Hy Hyz) as [?%elem_of_nil|?].
Qed.

Lemma ancestors_loop_ok s root : rows_ok s → ∀ fuel seen queue, walk_inv s root seen queue →
  (size (universe s root ∖ seen) + length queue < fuel)%nat →
  ∃ A, ancestors_loop fuel s seen queue = Returned (Ok A) ∧ ∀ x, x ∈ A ↔ ancestor s root x.
Proof.
  intros Hok. induction fuel as [|fuel IH]; intros seen queue Hinv Hf; [lia|].
  destruct queue as [|h queue]; [exists seen; split; [done|by apply walk_end]|]. cbn [ancestors_loop]. simpl in Hf.
  rewrite get_checkpoint_ok by done. destruct (checkpoints s !! h) as [row|] eqn:Hrow; simpl.
  - destruct (enqueue_new seen queue row.(parents)) as [seen' queue'] eqn:E.
    destruct (walk_visit s root seen h queue row seen' queue' Hinv Hrow E) as [Hinv' Hsz]. apply IH; [done|lia].
  - apply IH; [by eapply walk_skip|lia].
Qed.

(** The second walk stops at the first node of the set. *)
Lemma common_loop_ok s root A : rows_ok s → ∀ fuel seen queue, walk_inv s root seen queue →
  (∀ x, x ∈ seen → x ∈ queue ∨ (x ∉ A)) → (size (universe s root ∖ seen) + length queue < fuel)%nat →
  ∃ r, common_loop fuel s A seen queue = Returned (Ok r)
    ∧ match r with Some c => c ∈ A ∧ ancestor s root c | None => ∀ x, ancestor s root x → x ∉ A end.
Proof.
  intros Hok. induction fuel as [|fuel IH]; intros seen queue Hinv Hno Hf; [lia|].
  destruct queue as [|h queue].
  { exists None. split; [done|]. intros x Hx%(walk_end s root seen Hinv). by destruct (Hno x Hx) as [?%elem_of_nil|?]. }
  cbn [common_loop]. simpl in Hf. case_bool_decide as HA.
  { exists (Some h). split; [done|]. split; [done|]. apply (wi_seen s root seen _ Hinv), (wi_queue s root seen _ Hinv), list_elem_of_here. }
  rewrite get_checkpoint_ok by done. destruct (checkpoints s !! h) as [row|] eqn:Hrow; simpl.
  - destruct (enqueue_new seen queue row.(parents)) as [seen' queue'] eqn:E.
    destruct (walk_visit s root seen h queue row seen' queue' Hinv Hrow E) as [Hinv' Hsz]. apply IH; [done| |lia].
    destruct (enqueue_new_spec (universe s root) _ _ _ _ _ E) as (_ & Hel & new & -> & Hnew); [intros; by eapply universe_link|].
    intros x Hx. rewrite elem_of_app. apply Hel in Hx. destruct (decide (x ∈ seen)) as [Hs|Hs].
    + destruct (Hno x Hs) as [[->|?]%elem_of_cons|?]; auto.
    + left. right. apply Hnew. tauto.
  - apply IH; [by eapply walk_skip| |lia]. intros x Hx. destruct (Hno x Hx) as [[->|?]%elem_of_cons|?]; auto.
Qed.

(** [log] returns ancestors only, at most [limit] of them. *)
Lemma log_loop_ok s root limit : rows_ok s → ∀ fuel seen queue out, walk_inv s root seen queue →
  (∀ cp, cp ∈ out → ancestor s root cp.(cp_id)) → len out ≤ Z.max 0 limit →
  (size (universe s root ∖ seen) + length queue < fuel)%nat →
  ∃ l, log_loop fuel s limit seen queue out = Returned (Ok l)
    ∧ (∀ cp, cp ∈ l → ancestor s root cp.(cp_id)) ∧ len l ≤ Z.max 0 limit.
Proof.
  intros Hok. induction fuel as [|fuel IH]; intros seen queue out Hinv Hout Hlen Hf; [lia|].
  destruct queue as [|h queue]; [by exists out|]. cbn [log_loop]. simpl in Hf.
  destruct (Z.geb_spec (len out) limit); [by exists out|].
  rewrite get_checkpoint_ok by done. destruct (checkpoints s !! h) as [row|] eqn:Hrow; simpl.
  - destruct (enqueue_new seen queue row.(parents)) as [seen' queue'] eqn:E.
    destruct (walk_visit s root seen h queue row seen' queue' Hinv Hrow E) as [Hinv' Hsz]. apply IH; [done| | |lia].
    + intros cp [Hc| ->%list_elem_of_singleton]%elem_of_app; [by apply Hout|].
      apply (wi_seen s root seen _ Hinv), (wi_queue s root seen _ Hinv), list_elem_of_here.
    + rewrite len_app. change (len [_]) with 1. pose proof (len_nonneg out). lia.
  - apply IH; [by eapply walk_skip|done|done|lia].
Qed.

Lemma log_ok s h limit : store_ok s →
  ∃ l, log s h limit = Returned (Ok l) ∧ (∀ cp, cp ∈ l → ancestor s h cp.(cp_id)) ∧ len l ≤ Z.max 0 limit.
Proof.
  intros Hok. apply (log_loop_ok s h limit (sok_rows s Hok)); [apply walk_start|by intros cp ?%elem_of_nil| |].
  - unfold len. simpl. lia.
  - pose proof (universe_size s h). simpl. lia.
Qed.

(** [merge_base] always returns, and returns a common ancestor of its arguments exactly
    when they have one. *)
Theorem merge_base_common s a b : store_ok s → ∃ r, merge_base s a b = Returned (Ok r)
  ∧ match r with
    | Some c => ancestor s a c ∧ ancestor s b c
    | None => ∀ c, ¬ (ancestor s a c ∧ ancestor s b c)
    end.
Proof.
  intros Hok. unfold merge_base. destruct (str_eqb a b) eqn:E.
  { apply str_eqb_eq in E as <-. eexists. split; [done|]. split; apply rtc_refl. }
  assert (∀ h, (size (universe s h ∖ {[h]}) + length [h] < S (S (length (all_links s))))%nat) as Hf.
  { intros h. pose proof (universe_size s h). simpl. lia. }
  destruct (ancestors_loop_ok s a (sok_rows s Hok) _ _ _ (walk_start s a) (Hf a)) as (A & -> & HA).
  destruct (common_loop_ok s b A (sok_rows s Hok) (S (S (length (all_links s)))) {[b]} [b] (walk_start s b)) as (r & -> & Hr); [|apply Hf|].
  { intros x ->%elem_of_singleton. left. apply list_elem_of_here. }
  exists r. split; [done|]. destruct r as [c|].
  - destruct Hr as [Hc ?]. by apply HA in Hc.
  - intros c [Ha Hb]. by apply (Hr c Hb), HA.
Qed.

End Facts.
