(* ===== verification/Branches.v ===== *)
(** * Branches: typed branch verbs with a reflog

    Models [session_refs.rs] of [crates/bitty-ai-session]: branch names, the verbs
    that move a branch and append to the reflog in one transaction, reading,
    classifying and pruning the history. *)

From stdpp Require Import gmap.
From S2P Require Import Prelude Text Order Search ObjectStore.

Local Open Scope Z_scope.
Local Open Scope rust_scope.

Definition MAX_REFLOG_REASON_BYTES : Z := 512.
Definition MAX_REFLOG_ACTOR_BYTES : Z := 128.
Definition MAX_REFLOG_READ_LIMIT : Z := 1024.
Definition MAX_REFLOG_PRUNE_ROWS : Z := 1024.
Definition MIN_REFLOG_FLOOR : Z := 1.

Inductive RefError :=
| InvalidName
| RefAlreadyExists
| RefNotFound
| ProtectedHead
| ReservedNamespace
| RefMissingTarget (hash : ContentHash)
| RefCorrupt
| RefStorage (detail : string).

Definition NON_FAST_FORWARD_MSG : string := "refusing non-fast-forward branch update".

Abbreviation BranchName := string.

(** [BranchName::parse] *)
Definition BranchName_parse (raw : string) : result BranchName RefError :=
  if str_eqb raw "HEAD" then Err ProtectedHead
  else
    match validate_ref_name raw with
    | Err _ => Err InvalidName
    | Ok _ =>
        match strip_prefix "heads/" raw with
        | Some leaf => if is_empty leaf then Err InvalidName else Ok raw
        | None =>
            if (match strip_prefix "tags/" raw with Some _ => true | None => false end)
               || contains "/" raw then Err ReservedNamespace
            else Err InvalidName
        end
    end.

(** [map_store_err] *)
Definition map_store_err (e : ContentStoreError) : RefError :=
  match e with
  | MissingTarget hash => RefMissingTarget hash
  | CorruptData _ _ | CorruptCheckpoint _ _ | MissingParent _ | MissingTree _ => RefCorrupt
  | InvalidRefName _ | EmptyField _ | OversizedField _ _ _ => InvalidName
  end.

(** [check_reflog_meta] *)
Definition check_reflog_meta (reason actor : string) : result unit RefError :=
  if (slen reason >? MAX_REFLOG_REASON_BYTES) || (slen actor >? MAX_REFLOG_ACTOR_BYTES)
  then Err InvalidName else Ok tt.

(** [append_reflog_tx]: the next number of the AUTOINCREMENT key. *)
Definition append_reflog_tx (s : Store) (name : string) (old : option ContentHash) (new : ContentHash)
    (reason actor : string) (at_ms : Z) : result Store RefError :=
  try! _ := check_reflog_meta reason actor in
  Ok (mkStore s.(blobs) s.(checkpoints) s.(refs)
        (s.(reflog) ++ [mkReflogRow (s.(last_seq) + 1) name old new reason actor (to_i64 at_ms)])
        (s.(last_seq) + 1)).

(** The end of a transaction: commit, or leave the tables as they were. *)
Definition transact {A} (s : Store) (r : result (Store * A) RefError) : Store * result A RefError :=
  match r with Ok (s', a) => (s', Ok a) | Err e => (s, Err e) end.

Section Branches.
Context `{ContentApi}.

(** [commit_checkpoint_with_branch] *)
Definition commit_checkpoint_with_branch (s : Store) (tree : bytes) (tree_created_at_ms : Z)
    (d : CheckpointDraft) (branch_name reason actor : string) (updated_at_ms : Z) :
    Store * result Checkpoint RefError :=
  if len tree >? MAX_BLOB_BYTES
  then (s, Err (map_store_err (OversizedField "blob_data" (len tree) MAX_BLOB_BYTES)))
  else transact s (
    try! _ := map_err map_store_err (validate_draft d) in
    try! branch := BranchName_parse branch_name in
    let effective := with_tree d (sha256 tree) in
    let id := canonical_hash effective in
    try! _ := map_err map_store_err (check_parents s effective.(parents)) in
    let s1 := set_ref (insert_objects s tree tree_created_at_ms effective) "HEAD" id updated_at_ms in
    let previous := get_ref s1 branch in
    let s2 := set_ref s1 branch id updated_at_ms in
    try! s3 := append_reflog_tx s2 branch previous id reason actor updated_at_ms in
    Ok (s3, mkCheckpoint id effective)).

(** [create_branch] *)
Definition create_branch (s : Store) (name : string) (target : ContentHash) (reason actor : string)
    (at_ms : Z) : Store * result BranchName RefError :=
  transact s (
    try! branch := BranchName_parse name in
    if negb (has_checkpoint s target) then Err (RefMissingTarget target)
    else
      match get_ref s branch with
      | Some _ => Err RefAlreadyExists
      | None =>
          try! s' := append_reflog_tx (set_ref s branch target at_ms) branch None target reason actor at_ms in
          Ok (s', branch)
      end).

(** [update_branch] *)
Definition update_branch (s : Store) (name : string) (target : ContentHash) (reason actor : string)
    (at_ms : Z) (fast_forward_only : bool) : run (Store * result BranchName RefError) :=
  match BranchName_parse name with
  | Err e => Returned (s, Err e)
  | Ok branch =>
      if negb (has_checkpoint s target) then Returned (s, Err (RefMissingTarget target))
      else
        match get_ref s branch with
        | None => Returned (s, Err RefNotFound)
        | Some old =>
            let move := transact s (
              try! s' := append_reflog_tx (set_ref s branch target at_ms) branch (Some old) target
                           reason actor at_ms in
              Ok (s', branch)) in
            if fast_forward_only then
              match merge_base s old target with
              | Panicked => Panicked
              | OutOfFuel => OutOfFuel
              | Returned (Err e) => Returned (s, Err (map_store_err e))
              | Returned (Ok base) =>
                  if bool_decide (base = Some old) then Returned move
                  else Returned (s, Err (RefStorage NON_FAST_FORWARD_MSG))
              end
            else Returned move
        end
  end.

(** [delete_branch] *)
Definition delete_branch (s : Store) (name reason actor : string) (at_ms : Z) :
    Store * result ContentHash RefError :=
  transact s (
    try! branch := BranchName_parse name in
    match get_ref s branch with
    | None => Err RefNotFound
    | Some old =>
        try! s' := append_reflog_tx (with_refs s (delete branch s.(refs))) branch (Some old) tombstone_hash
                     reason actor at_ms in
        Ok (s', old)
    end).

(** [rename_branch] *)
Definition rename_branch (s : Store) (old_name new_name reason actor : string) (at_ms : Z) :
    Store * result ContentHash RefError :=
  transact s (
    try! old_branch := BranchName_parse old_name in
    try! new_branch := BranchName_parse new_name in
    if str_eqb old_branch new_branch then Err InvalidName
    else
      match get_ref s old_branch with
      | None => Err RefNotFound
      | Some tip =>
          match get_ref s new_branch with
          | Some _ => Err RefAlreadyExists
          | None =>
              let s1 := set_ref (with_refs s (delete old_branch s.(refs))) new_branch tip at_ms in
              try! s2 := append_reflog_tx s1 old_branch (Some tip) tombstone_hash reason actor at_ms in
              try! s3 := append_reflog_tx s2 new_branch None tip reason actor at_ms in
              Ok (s3, tip)
          end
      end).

(** The loop of [list_branches] over the rows. *)
Fixpoint parse_branches (l : list (string * ContentHash)) : result (list (BranchName * ContentHash)) RefError :=
  match l with
  | [] => Ok []
  | (name, hash) :: l =>
      match BranchName_parse name with
      | Err _ => Err RefCorrupt
      | Ok branch => try! rest := parse_branches l in Ok ((branch, hash) :: rest)
      end
  end.

(** [list_branches]: [GLOB 'heads/*' ORDER BY name] *)
Definition list_branches (s : Store) : result (list (BranchName * ContentHash)) RefError :=
  parse_branches (List.filter (λ r, match strip_prefix "heads/" r.1 with Some _ => true | None => false end)
                    (list_refs s)).

(** [get_branch] *)
Definition get_branch (s : Store) (name : string) : result (option ContentHash) RefError :=
  try! branch := BranchName_parse name in Ok (get_ref s branch).

(** ** Reading the history *)

(** A row as an entry: a negative time is corruption. *)
Fixpoint entries_of (l : list ReflogRow) : result (list ReflogRow) RefError :=
  match l with
  | [] => Ok []
  | r :: l => if r.(at_ms) <? 0 then Err RefCorrupt else try! rest := entries_of l in Ok (r :: rest)
  end.

Definition rows_of (s : Store) (name : string) : list ReflogRow :=
  List.filter (λ r, str_eqb r.(ref_name) name) s.(reflog).

(** [read_reflog]: [ORDER BY seq DESC LIMIT capped] *)
Definition read_reflog (s : Store) (name : string) (limit : Z) : result (list ReflogRow) RefError :=
  match validate_ref_name name with
  | Err _ => Err InvalidName
  | Ok _ =>
      let capped := Z.to_nat (Z.min limit MAX_REFLOG_READ_LIMIT) in
      entries_of (take capped (sort_by_key (λ r, - r.(seq)) (rows_of s name)))
  end.

(** [dump_reflog_all]: [ORDER BY seq ASC] *)
Definition dump_reflog_all (s : Store) : result (list ReflogRow) RefError :=
  entries_of (sort_by_key seq s.(reflog)).

Inductive BranchAbsence :=
| Live (tip : ContentHash)
| Deleted (tip : ContentHash) (reason actor : string) (at_ms : Z)
| NeverExisted.

(** [branch_absence] *)
Definition branch_absence (s : Store) (name : string) : result BranchAbsence RefError :=
  try! branch := BranchName_parse name in
  match get_ref s branch with
  | Some tip => Ok (Live tip)
  | None =>
      try! newest := read_reflog s branch 1 in
      match newest with
      | r :: _ =>
          if str_eqb r.(new_hash) tombstone_hash
          then Ok (Deleted (default tombstone_hash r.(old_hash)) r.(reason) r.(actor) r.(at_ms))
          else Ok NeverExisted
      | [] => Ok NeverExisted
      end
  end.

(** ** Pruning *)

Record PruneReport := mkPruneReport { pruned : Z; floor_kept : Z; tombstone_survived : Z }.

(** [SELECT MAX(seq)] *)
Definition max_seq (l : list ReflogRow) : option Z :=
  match l with [] => None | r :: l => Some (foldr (λ r m, Z.max r.(seq) m) r.(seq) l) end.

(** The scan over the candidates: victims up to the cap, tombstones within the grace. *)
Fixpoint scan_rows (l : list ReflogRow) (older_than_ms grace_threshold cap : Z) (victims : list Z)
    (survived : Z) : result (list Z * Z) RefError :=
  match l with
  | [] => Ok (victims, survived)
  | r :: l =>
      if r.(at_ms) <? 0 then Err RefCorrupt
      else if r.(at_ms) >=? older_than_ms then scan_rows l older_than_ms grace_threshold cap victims survived
      else if str_eqb r.(new_hash) tombstone_hash && (r.(at_ms) >=? grace_threshold)
        then scan_rows l older_than_ms grace_threshold cap victims (survived + 1)
      else if len victims <? cap
        then scan_rows l older_than_ms grace_threshold cap (victims ++ [r.(seq)]) survived
      else scan_rows l older_than_ms grace_threshold cap victims survived
  end.

(** The deletions: each must hit one row. *)
Fixpoint delete_rows (l : list ReflogRow) (name : string) (victims : list Z) : result (list ReflogRow) RefError :=
  match victims with
  | [] => Ok l
  | v :: victims =>
      let hit r := (r.(seq) =? v) && str_eqb r.(ref_name) name in
      if len (List.filter hit l) =? 1 then delete_rows (List.filter (λ r, negb (hit r)) l) name victims
      else Err RefCorrupt
  end.

(** [prune_reflog] *)
Definition prune_reflog (s : Store) (name : string) (older_than_ms max_rows tombstone_grace_ms now_ms : Z) :
    Store * result PruneReport RefError :=
  match validate_ref_name name with
  | Err _ => (s, Err InvalidName)
  | Ok _ =>
      let cap := Z.min max_rows MAX_REFLOG_PRUNE_ROWS in
      let grace_threshold := saturating_sub64 now_ms tombstone_grace_ms in
      match max_seq (rows_of s name) with
      | None => (s, Ok (mkPruneReport 0 0 0))
      | Some top => transact s (
          if existsb (λ r, (r.(seq) =? top) && (r.(at_ms) <? 0)) s.(reflog) then Err RefCorrupt
          else
            let candidates := sort_by_key seq (List.filter (λ r, r.(seq) <? top) (rows_of s name)) in
            try! found := scan_rows candidates older_than_ms grace_threshold cap [] 0 in
            let '(victims, survived) := found in
            try! rest := delete_rows s.(reflog) name victims in
            Ok (mkStore s.(blobs) s.(checkpoints) s.(refs) rest s.(last_seq),
                mkPruneReport (len victims) MIN_REFLOG_FLOOR survived))
      end
  end.

End Branches.
