(* ===== verification/Bindings.v ===== *)
(** * Bindings: durable session identifiers

    Models [sessions.rs] of [crates/bitty-ai-session]: session identifiers, the table
    that binds each to a branch, and the fence by epochs. *)

From stdpp Require Import gmap.
From S2P Require Import Prelude Text Order ObjectStore Branches.

Local Open Scope Z_scope.
Local Open Scope rust_scope.

Definition MAX_SESSION_ID_BYTES : Z := 128.

Inductive SessionError :=
| SessionInvalidId
| SessionExists
| SessionNotFound
| SessionStaleEpoch (claim_epoch current_epoch : Z)
| SessionCorrupt
| SessionStorage (detail : string).

Definition SESSION_RANGE_MSG : string := "session integer out of range: value exceeds i64::MAX".

Abbreviation WheelSessionId := string.

(** [WheelSessionId::parse] *)
Definition session_id_byte (b : ascii) : bool :=
  is_ascii_lowercase b || is_ascii_uppercase b || is_ascii_digit b || byte_eqb 45 b || byte_eqb 95 b
  || byte_eqb 46 b.
Definition WheelSessionId_parse (raw : string) : result WheelSessionId SessionError :=
  if is_empty (trim raw) then Err SessionInvalidId
  else if slen raw >? MAX_SESSION_ID_BYTES then Err SessionInvalidId
  else if str_eqb raw "HEAD" then Err SessionInvalidId
  else if negb (str_forall session_id_byte raw) then Err SessionInvalidId
  else Ok raw.

(** [SessionBinding], and its row with [i64] columns *)
Record SessionBinding := mkBinding {
  session_id : WheelSessionId;
  branch : string;
  head_hash : ContentHash;
  bind_generation : Z;
  bind_epoch : Z;
  bind_updated_at_ms : Z
}.

Record BindingRow := mkBindingRow {
  row_branch : string;
  row_head : ContentHash;
  row_generation : Z;
  row_epoch : Z;
  row_updated_at_ms : Z
}.

Abbreviation BindingTable := (gmap string BindingRow).

(** [map_branch_err] *)
Definition map_branch_err (e : RefError) : SessionError :=
  match e with
  | InvalidName | ProtectedHead | ReservedNamespace => SessionInvalidId
  | RefAlreadyExists => SessionExists
  | RefNotFound => SessionNotFound
  | RefMissingTarget _ | RefCorrupt => SessionCorrupt
  | RefStorage detail => SessionStorage detail
  end.

(** The validation of a row, in [read_binding] and [list_sessions] *)
Definition binding_of_row (id : WheelSessionId) (r : BindingRow) : result SessionBinding SessionError :=
  match BranchName_parse r.(row_branch) with
  | Err _ => Err SessionCorrupt
  | Ok _ =>
      if (r.(row_generation) <? 0) || (r.(row_epoch) <? 0) || (r.(row_updated_at_ms) <? 0)
      then Err SessionCorrupt
      else Ok (mkBinding id r.(row_branch) r.(row_head) (of_i64 r.(row_generation)) (of_i64 r.(row_epoch))
                 (of_i64 r.(row_updated_at_ms)))
  end.

(** [read_binding], [resolve_session] *)
Definition read_binding (t : BindingTable) (id : WheelSessionId) : result (option SessionBinding) SessionError :=
  match t !! id with
  | None => Ok None
  | Some r => try! b := binding_of_row id r in Ok (Some b)
  end.
Definition resolve_session := read_binding.

Definition out_of_range (l : list Z) : bool := existsb (λ n, n >? i64_max) l.

(** [bind_session] *)
Definition bind_session (t : BindingTable) (id : WheelSessionId) (branch : string) (head : ContentHash)
    (generation epoch now_ms : Z) : BindingTable * result SessionBinding SessionError :=
  if out_of_range [generation; epoch; now_ms] then (t, Err (SessionStorage SESSION_RANGE_MSG))
  else
    match read_binding t id with
    | Err e => (t, Err e)
    | Ok (Some _) => (t, Err SessionExists)
    | Ok None =>
        (<[id := mkBindingRow branch head (to_i64 generation) (to_i64 epoch) (to_i64 now_ms)]> t,
         Ok (mkBinding id branch head generation epoch now_ms))
    end.

(** [bump_session_epoch] *)
Definition bump_session_epoch (t : BindingTable) (id : WheelSessionId) (claim_epoch : Z)
    (head : ContentHash) (generation now_ms : Z) : BindingTable * result SessionBinding SessionError :=
  if out_of_range [claim_epoch; generation; now_ms] then (t, Err (SessionStorage SESSION_RANGE_MSG))
  else
    match read_binding t id with
    | Err e => (t, Err e)
    | Ok None => (t, Err SessionNotFound)
    | Ok (Some current) =>
        if claim_epoch <=? current.(bind_epoch)
        then (t, Err (SessionStaleEpoch claim_epoch current.(bind_epoch)))
        else
          (<[id := mkBindingRow current.(branch) head (to_i64 generation) (to_i64 claim_epoch) (to_i64 now_ms)]> t,
           Ok (mkBinding id current.(branch) head generation claim_epoch now_ms))
    end.

Fixpoint bindings_of (l : list (string * BindingRow)) : result (list SessionBinding) SessionError :=
  match l with
  | [] => Ok []
  | (id, r) :: l =>
      match WheelSessionId_parse id with
      | Err _ => Err SessionCorrupt
      | Ok id => try! b := binding_of_row id r in try! rest := bindings_of l in Ok (b :: rest)
      end
  end.

(** [list_sessions]: [ORDER BY session_id] *)
Definition list_sessions (t : BindingTable) : result (list SessionBinding) SessionError :=
  bindings_of (sort_by_key fst (map_to_list t)).

(** ** Properties *)

(** One call that changes the table; the arguments are [u64] and typed names. *)
Inductive binding_step (t : BindingTable) : BindingTable → Prop :=
| step_bind id br h g e now t' r : WheelSessionId_parse id = Ok id → BranchName_parse br = Ok br →
    0 ≤ g → 0 ≤ e → 0 ≤ now → bind_session t id br h g e now = (t', r) → binding_step t t'
| step_bump id h c g now t' r : 0 ≤ c → 0 ≤ g → 0 ≤ now →
    bump_session_epoch t id c h g now = (t', r) → binding_step t t'.

(** Every row is readable. *)
Definition bindings_ok (t : BindingTable) : Prop :=
  ∀ id r, t !! id = Some r → WheelSessionId_parse id = Ok id ∧ BranchName_parse (row_branch r) = Ok (row_branch r)
    ∧ 0 ≤ row_generation r ≤ i64_max ∧ 0 ≤ row_epoch r ≤ i64_max ∧ 0 ≤ row_updated_at_ms r ≤ i64_max.

(** A value that fits an [i64] column as it is. *)
Definition u63 (n : Z) : Prop := 0 ≤ n ≤ i64_max.

Lemma to_i64_small n : 0 ≤ n ≤ i64_max → to_i64 n = n.
Proof. unfold to_i64, i64_max. intros. destruct (Z.ltb_spec n (2 ^ 63)); lia. Qed.

Lemma of_i64_small n : 0 ≤ n → of_i64 n = n.
Proof. unfold of_i64. intros. destruct (Z.ltb_spec n 0); lia. Qed.

Lemma out_of_range_false l : out_of_range l = false → ∀ n, n ∈ l → n ≤ i64_max.
Proof. intros Hl n Hn. unfold out_of_range in Hl. rewrite existsb_false_iff in Hl. apply Hl in Hn. lia. Qed.

Lemma read_binding_row t id r : bindings_ok t → t !! id = Some r →
  read_binding t id = Ok (Some (mkBinding id (row_branch r) (row_head r) (row_generation r) (row_epoch r)
    (row_updated_at_ms r))).
Proof.
  intros Hok Hr. destruct (Hok id r Hr) as (_ & Hb & Hg & He & Hu). unfold read_binding, binding_of_row.
  rewrite Hr, Hb. destruct (Z.ltb_spec (row_generation r) 0), (Z.ltb_spec (row_epoch r) 0),
    (Z.ltb_spec (row_updated_at_ms r) 0); try lia. simpl. by rewrite !of_i64_small by lia.
Qed.

Lemma bind_session_spec t id br h g e now t' r : bindings_ok t → bind_session t id br h g e now = (t', r) →
  t' = t ∧ (∃ err, r = Err err)
  ∨ t !! id = None ∧ r = Ok (mkBinding id br h g e now) ∧ g ≤ i64_max ∧ e ≤ i64_max ∧ now ≤ i64_max
    ∧ t' = <[id := mkBindingRow br h (to_i64 g) (to_i64 e) (to_i64 now)]> t.
Proof.
  intros Hok. unfold bind_session. destruct (out_of_range _) eqn:Hr; [intros [= <- <-]; left; eauto|].
  pose proof (out_of_range_false _ Hr) as Hle.
  destruct (t !! id) as [row|] eqn:Hrow.
  - rewrite (read_binding_row _ _ _ Hok Hrow). intros [= <- <-]. left. eauto.
  - unfold read_binding. rewrite Hrow. intros [= <- <-]. right. split_and!; try done; apply Hle; set_solver.
Qed.

Lemma bump_spec t id h c g now t' r : bindings_ok t → bump_session_epoch t id c h g now = (t', r) →
  t' = t ∧ (∃ err, r = Err err)
  ∨ ∃ row, t !! id = Some row ∧ row_epoch row < c ∧ c ≤ i64_max ∧ g ≤ i64_max ∧ now ≤ i64_max
    ∧ r = Ok (mkBinding id (row_branch row) h g c now)
    ∧ t' = <[id := mkBindingRow (row_branch row) h (to_i64 g) (to_i64 c) (to_i64 now)]> t.
Proof.
  intros Hok. unfold bump_session_epoch. destruct (out_of_range _) eqn:Hr; [intros [= <- <-]; left; eauto|].
  pose proof (out_of_range_false _ Hr) as Hle.
  destruct (t !! id) as [row|] eqn:Hrow.
  - rewrite (read_binding_row _ _ _ Hok Hrow). simpl. destruct (Z.leb_spec c (row_epoch row)).
    + intros [= <- <-]. left. eauto.
    + intros [= <- <-]. right. exists row. split_and!; try done; apply Hle; set_solver.
  - unfold read_binding. rewrite Hrow. intros [= <- <-]. left. eauto.
Qed.

Lemma binding_step_ok t t' : bindings_ok t → binding_step t t' → bindings_ok t'.
Proof.
  intros Hok Hs. destruct Hs as [id br h g e now t' r Hid Hbr Hg He Hn H|id h c g now t' r Hc Hg Hn H].
  - destruct (bind_session_spec _ _ _ _ _ _ _ _ _ Hok H) as [[-> _]|(_ & _ & ? & ? & ? & ->)]; [done|].
    intros i r'. rewrite lookup_insert_Some. intros [[<- <-]|[_ Hr']]; [|by apply Hok].
    simpl. rewrite !to_i64_small by lia. split_and!; done || lia.
  - destruct (bump_spec _ _ _ _ _ _ _ _ Hok H) as [[-> _]|(row & Hrow & ? & ? & ? & ? & _ & ->)]; [done|].
    intros i r'. rewrite lookup_insert_Some. intros [[<- <-]|[_ Hr']]; [|by apply Hok].
    simpl. rewrite !to_i64_small by lia. destruct (Hok _ _ Hrow) as (? & ? & _). split_and!; done || lia.
Qed.

(** The epoch of a session over a step: the same, or strictly greater and claimed; its
    branch never changes. *)
Lemma binding_step_epoch t t' id r : bindings_ok t → binding_step t t' → t !! id = Some r →
  ∃ r', t' !! id = Some r' ∧ row_branch r' = row_branch r ∧ (r' = r ∨ row_epoch r < row_epoch r').
Proof.
  intros Hok Hs Hr. destruct Hs as [i br h g e now t' res Hid Hbr Hg He Hn H|i h c g now t' res Hc Hg Hn H].
  - destruct (bind_session_spec _ _ _ _ _ _ _ _ _ Hok H) as [[-> _]|(Hno & _ & _ & _ & _ & ->)]; [eauto|].
    exists r. rewrite lookup_insert_ne by congruence. auto.
  - destruct (bump_spec _ _ _ _ _ _ _ _ Hok H) as [[-> _]|(row & Hrow & Hlt & Hle & _ & _ & _ & ->)]; [eauto|].
    destruct (decide (i = id)) as [->|]; [|exists r; rewrite lookup_insert_ne by done; auto].
    rewrite Hr in Hrow. injection Hrow as <-. eexists. rewrite lookup_insert_eq. split; [done|]. simpl.
    split; [done|right]. rewrite to_i64_small; [lia|]. destruct (Hok _ _ Hr) as (_ & _ & _ & ? & _). lia.
Qed.

Lemma rtc_bindings_ok t t' : bindings_ok t → rtc binding_step t t' → bindings_ok t'.
Proof. intros Hok Hs. induction Hs; [done|]. apply IHHs. by eapply binding_step_ok. Qed.

Lemma list_sessions_total t : bindings_ok t → ∃ l, list_sessions t = Ok l ∧ map session_id l = sort_by_key (λ s : string, s) (map_to_list t).*1.
Proof.
  intros Hok. unfold list_sessions.
  assert (sort_by_key (λ s : string, s) (map_to_list t).*1 = (sort_by_key fst (map_to_list t)).*1) as ->.
  { apply (strict_ext (λ s : string, s)).
    - apply sort_by_key_strict. rewrite map_id. apply NoDup_fst_map_to_list.
    - pose proof (sort_by_key_strict fst (map_to_list t) (NoDup_fst_map_to_list t)) as Hs.
      induction Hs as [|x l Hs IH Hall]; simpl; constructor; [done|]. by apply Forall_fmap.
    - intros x. by rewrite !sort_by_key_perm. }
  assert (∀ x, x ∈ sort_by_key fst (map_to_list t) → t !! x.1 = Some x.2) as Hin.
  { intros [i r]. rewrite sort_by_key_perm. by intros ?%elem_of_map_to_list. }
  revert Hin. generalize (sort_by_key fst (map_to_list t)). intros l Hin.
  induction l as [|[i r] l IH]; simpl; [by exists []|].
  pose proof (Hin (i, r) (list_elem_of_here _ _)) as Hr. simpl in Hr.
  destruct (Hok i r Hr) as (-> & _). pose proof (read_binding_row _ _ _ Hok Hr) as E.
  unfold read_binding in E. rewrite Hr in E. destruct (binding_of_row i r) as [b|]; [|done]. injection E as ->.
  destruct IH as (rest & -> & Hm); [intros x Hx; apply Hin; by apply elem_of_cons; right|].
  eexists. split; [done|]. simpl. by rewrite Hm.
Qed.

(** Sessions are fenced: over every history of binds and resumes, a bound session
    stays bound to its branch, its epoch never falls, every accepted resume raises it
    strictly, and no stored row is ever unreadable. *)
Theorem session_fenced t t' id r : rtc binding_step ∅ t → rtc binding_step t t' → t !! id = Some r →
  (∃ r', t' !! id = Some r' ∧ row_branch r' = row_branch r ∧ row_epoch r ≤ row_epoch r'
    ∧ resolve_session t' id = Ok (Some (mkBinding id (row_branch r) (row_head r') (row_generation r')
        (row_epoch r') (row_updated_at_ms r'))))
  ∧ (∃ l, list_sessions t' = Ok l)
  ∧ ∀ claim h g now t'' b, 0 ≤ claim → bump_session_epoch t' id claim h g now = (t'', Ok b) → row_epoch r < claim.
Proof.
  intros H0 Hs Hr. assert (bindings_ok ∅) as Hemp by (intros i x Hx; by rewrite lookup_empty in Hx).
  pose proof (rtc_bindings_ok _ _ Hemp H0) as Hok. pose proof (rtc_bindings_ok _ _ Hok Hs) as Hok'.
  assert (∃ r', t' !! id = Some r' ∧ row_branch r' = row_branch r ∧ row_epoch r ≤ row_epoch r') as (r' & Hr' & Hb & He).
  { clear H0 Hemp Hok'. revert r Hr. induction Hs as [t|t t1 t' Hstep _ IH]; intros r Hr; [exists r; split_and!; done || lia|].
    destruct (binding_step_epoch _ _ _ _ Hok Hstep Hr) as (r1 & Hr1 & Hb1 & He1).
    destruct (IH (binding_step_ok _ _ Hok Hstep) r1 Hr1) as (r' & Hr' & Hb' & He').
    exists r'. split_and!; [done|congruence|]. destruct He1 as [->|]; lia. }
  split_and!.
  - exists r'. split_and!; [done|done|done|]. unfold resolve_session. by rewrite (read_binding_row _ _ _ Hok' Hr'), Hb.
  - destruct (list_sessions_total t' Hok') as (l & E & _). eauto.
  - intros claim h g now t'' b Hc H. destruct (bump_spec _ _ _ _ _ _ _ _ Hok' H) as [[_ [err ?]]|(row & Hrow & Hlt & _)]; [done|].
    rewrite Hr' in Hrow. injection Hrow as <-. lia.
Qed.
