(* ===== verification/BranchFacts.v ===== *)
(** * BranchFacts: branch verbs and their history

    Every verb is one transaction; the newest reflog row of a branch always tells where
    the branch is, whatever was pruned. *)

From stdpp Require Import gmap.
From S2P Require Import Prelude Text Order Search ObjectStore StoreFacts Branches Bindings.

Local Open Scope Z_scope.
Local Open Scope rust_scope.

(** The target that the rows of a branch tell: that of the last. *)
Definition replay (l : list ReflogRow) : option ContentHash :=
  match last l with
  | None => None
  | Some r => if str_eqb r.(new_hash) tombstone_hash then None else Some r.(new_hash)
  end.

Record log_wf (s : Store) : Prop := {
  lw_sorted : StronglySorted (λ a b, a.(seq) < b.(seq)) s.(reflog);
  lw_last r : r ∈ s.(reflog) → r.(seq) ≤ s.(last_seq);
  lw_times r : r ∈ s.(reflog) → 0 ≤ r.(at_ms);
  lw_tracks b : BranchName_parse b = Ok b → get_ref s b = replay (rows_of s b)
}.

Definition is_branch (name : string) : Prop := BranchName_parse name = Ok name.

Lemma BranchName_parse_id raw b : BranchName_parse raw = Ok b → b = raw ∧ is_branch raw.
Proof.
  unfold is_branch. intros E. assert (b = raw) as ->; [|done]. unfold BranchName_parse in E.
  repeat case_match; simplify_eq; done.
Qed.

Lemma HEAD_not_branch : ¬ is_branch "HEAD".
Proof. by unfold is_branch. Qed.

(** ** One move of one branch *)

(** The references and one more row. *)
Definition moved (s : Store) (r : gmap string (ContentHash * Z)) (row : ReflogRow) : Store :=
  mkStore s.(blobs) s.(checkpoints) r (s.(reflog) ++ [row]) (s.(last_seq) + 1).

Lemma append_moved s name old new why who at_ s' : append_reflog_tx s name old new why who at_ = Ok s' →
  s' = moved s s.(refs) (mkReflogRow (s.(last_seq) + 1) name old new why who (to_i64 at_)).
Proof. unfold append_reflog_tx. destruct (check_reflog_meta why who); simpl; [|done]. by intros [= <-]. Qed.

Lemma rows_of_snoc s r row name :
  rows_of (moved s r row) name = rows_of s name ++ (if str_eqb row.(ref_name) name then [row] else []).
Proof. unfold rows_of, moved. simpl. rewrite List.filter_app. simpl. by destruct (str_eqb _ name). Qed.

Lemma log_wf_moved s r row : log_wf s → row.(seq) = s.(last_seq) + 1 → 0 ≤ row.(at_ms) →
  (∀ b, is_branch b → b ≠ row.(ref_name) → fst <$> r !! b = get_ref s b) →
  fst <$> r !! row.(ref_name) = (if str_eqb row.(new_hash) tombstone_hash then None else Some row.(new_hash)) →
  log_wf (moved s r row).
Proof.
  intros [Hs Hl Ht Hk] Hseq Hat Hother Hthis. constructor; simpl.
  - clear -Hs Hl Hseq. assert (∀ x, x ∈ s.(reflog) → x.(seq) < row.(seq)) as Hlt by (intros x Hx; specialize (Hl x Hx); lia).
    clear Hl. induction Hs as [|x l Hs IH Hall]; simpl; [by repeat constructor|].
    constructor; [apply IH; intros y Hy; apply Hlt; by apply elem_of_cons; right|].
    apply Forall_app. split; [done|]. constructor; [apply Hlt, list_elem_of_here|constructor].
  - intros x [Hx| ->%list_elem_of_singleton]%elem_of_app; [specialize (Hl x Hx)|]; lia.
  - intros x [Hx| ->%list_elem_of_singleton]%elem_of_app; [by apply Ht|done].
  - intros b Hb. rewrite rows_of_snoc. unfold get_ref. simpl. destruct (str_eqb (ref_name row) b) eqn:E.
    + apply str_eqb_eq in E as <-. rewrite Hthis. unfold replay. by rewrite last_snoc.
    + rewrite app_nil_r. rewrite <-Hk by done. apply Hother; [done|]. intros ->. by rewrite (proj2 (str_eqb_eq _ _) eq_refl) in E.
Qed.

(** A write that leaves the branches and the reflog alone. *)
Lemma log_wf_same s s' : log_wf s → s'.(reflog) = s.(reflog) → s'.(last_seq) = s.(last_seq) →
  (∀ b, is_branch b → get_ref s' b = get_ref s b) → log_wf s'.
Proof.
  intros [Hs Hl Ht Hk] Er El Hr. constructor; rewrite ?Er, ?El; try done.
  intros b Hb. unfold rows_of. rewrite Er, Hr by done. by apply Hk.
Qed.

Section Verbs.
Context `{ContentApi} (digest_nonzero : ∀ b, sha256 b ≠ tombstone_hash).

Record session_ok (s : Store) : Prop := { sess_store : store_ok s; sess_log : log_wf s }.

Lemma cp_not_tombstone s h : store_ok s → has_cp s h → str_eqb h tombstone_hash = false.
Proof.
  intros Hok [row Hh]. destruct (str_eqb h tombstone_hash) eqn:E; [|done]. apply str_eqb_eq in E as ->.
  by destruct (digest_nonzero (checkpoint_bytes (of_row row))), (sok_rows s Hok _ _ Hh).
Qed.

Lemma store_ok_moved s r row : store_ok (with_refs s r) → store_ok (moved s r row).
Proof. intros []. by constructor. Qed.

(** A branch is set to a checkpoint and the move is logged. *)
Lemma session_ok_set s name h at_ old why who : session_ok s → is_branch name → has_cp s h → u63 at_ →
  session_ok (moved s (<[name := (h, to_i64 at_)]> s.(refs)) (mkReflogRow (s.(last_seq) + 1) name old h why who (to_i64 at_))).
Proof.
  intros [Hok Hwf] Hb Hh Hat. split.
  - apply store_ok_moved. by apply (store_ok_set_ref s name h at_).
  - apply log_wf_moved; simpl; try done; [by rewrite to_i64_small; [apply Hat|]| |].
    + intros b _ Hne. by rewrite lookup_insert_ne.
    + rewrite lookup_insert_eq, (cp_not_tombstone s h) by done. done.
Qed.

(** A branch is removed and the tombstone is logged. *)
Lemma session_ok_unset s name at_ old why who : session_ok s → is_branch name → u63 at_ →
  session_ok (moved s (delete name s.(refs)) (mkReflogRow (s.(last_seq) + 1) name old tombstone_hash why who (to_i64 at_))).
Proof.
  intros [Hok Hwf] Hb Hat. split.
  - apply store_ok_moved. by apply store_ok_delete_ref.
  - apply log_wf_moved; simpl; try done; [by rewrite to_i64_small; [apply Hat|]| |].
    + intros b _ Hne. by rewrite lookup_delete_ne.
    + by rewrite lookup_delete_eq.
Qed.

Lemma transact_ok {A} s (r : result (Store * A) RefError) :
  session_ok s → (∀ s' a, r = Ok (s', a) → session_ok s') → session_ok (transact s r).1.
Proof. intros Hs Hr. destruct r as [[s' a]|e]; [by eapply Hr|done]. Qed.

(** A result that is bound is a result. *)
Lemma bind_Ok {A B E} (e : result A E) (k : A → result B E) b :
  (try! x := e in k x) = Ok b → ∃ a, e = Ok a ∧ k a = Ok b.
Proof. destruct e; [eauto|done]. Qed.

Lemma create_branch_ok s name h why who at_ : session_ok s → u63 at_ →
  session_ok (create_branch s name h why who at_).1.
Proof.
  intros Hs Hat. apply transact_ok; [done|]. intros s' a E. apply bind_Ok in E as (b & [-> Hb]%BranchName_parse_id & E).
  destruct (has_checkpoint s h) eqn:Hh; [|done]. apply has_checkpoint_iff in Hh. simpl in E.
  destruct (get_ref s name); [done|]. apply bind_Ok in E as (s1 & ->%append_moved & [= <- _]).
  exact (session_ok_set s name h at_ None why who Hs Hb Hh Hat).
Qed.

Lemma update_branch_ok s name h why who at_ ff s' r : session_ok s → u63 at_ →
  update_branch s name h why who at_ ff = Returned (s', r) → session_ok s'.
Proof.
  intros Hs Hat. unfold update_branch. destruct (BranchName_parse name) as [b|] eqn:Hb; [|by intros [= <- _]].
  apply BranchName_parse_id in Hb as [-> Hb]. destruct (has_checkpoint s h) eqn:Hh; simpl; [|by intros [= <- _]].
  apply has_checkpoint_iff in Hh. destruct (get_ref s name) as [old|]; [|by intros [= <- _]].
  set (move := transact s _). assert (session_ok move.1) as Hm.
  { apply transact_ok; [done|]. intros s1 a E. apply bind_Ok in E as (s2 & ->%append_moved & [= <- _]).
    exact (session_ok_set s name h at_ (Some old) why who Hs Hb Hh Hat). }
  destruct ff; [|intros [= E]; by rewrite E in Hm].
  destruct (merge_base s old h) as [[base|e]| |]; try done; [|by intros [= <- _]].
  case_bool_decide; [intros [= E]; by rewrite E in Hm|by intros [= <- _]].
Qed.

Lemma delete_branch_ok s name why who at_ : session_ok s → u63 at_ → session_ok (delete_branch s name why who at_).1.
Proof.
  intros Hs Hat. apply transact_ok; [done|]. intros s' a E. apply bind_Ok in E as (b & [-> Hb]%BranchName_parse_id & E).
  destruct (get_ref s name) as [old|]; [|done]. apply bind_Ok in E as (s1 & ->%append_moved & [= <- _]).
  exact (session_ok_unset s name at_ (Some old) why who Hs Hb Hat).
Qed.

(** A rename is a deletion and a creation, in one transaction. *)
Lemma rename_branch_ok s old new why who at_ : session_ok s → u63 at_ → session_ok (rename_branch s old new why who at_).1.
Proof.
  intros Hs Hat. apply transact_ok; [done|]. intros s' a E.
  apply bind_Ok in E as (b & [-> Hb]%BranchName_parse_id & E). apply bind_Ok in E as (b' & [-> Hb']%BranchName_parse_id & E).
  destruct (str_eqb old new); [done|]. destruct (get_ref s old) as [tip|] eqn:Ht; [|done].
  destruct (get_ref s new); [done|]. apply bind_Ok in E as (s1 & ->%append_moved & E).
  apply bind_Ok in E as (s2 & ->%append_moved & [= <- _]).
  assert (has_cp s tip) as Htip.
  { unfold get_ref in Ht. apply fmap_Some in Ht as ([h n] & Hh & ->). by eapply (sok_refs s (sess_store s Hs)). }
  pose proof (session_ok_unset s old at_ (Some tip) why who Hs Hb Hat) as H1.
  exact (session_ok_set _ new tip at_ None why who H1 Hb' Htip Hat).
Qed.

Lemma session_ok_HEAD s h n : session_ok s → has_cp s h → session_ok (set_ref s "HEAD" h n).
Proof.
  intros [Hok Hwf] Hh. split; [by apply store_ok_set_ref|]. eapply log_wf_same; [done..|].
  intros b Hb. unfold get_ref. simpl. rewrite lookup_insert_ne; [done|]. intros <-. by apply HEAD_not_branch.
Qed.

Lemma session_ok_objects s tree n d : session_ok s → is_u64 d.(timestamp_ms) → d.(tree_hash) = Some (sha256 tree) →
  (∀ p, p ∈ d.(parents) → has_cp s p) →
  session_ok (insert_objects s tree n d) ∧ has_cp (insert_objects s tree n d) (canonical_hash d).
Proof.
  intros [Hok Hwf] Hd Ht Hp. destruct (store_ok_insert_objects s tree n d Hok Hd Ht Hp) as [Hok' Hcp].
  split; [|done]. split; [done|]. by eapply log_wf_same.
Qed.

Lemma map_err_Ok {A E F} (f : E → F) (r : result A E) a : map_err f r = Ok a → r = Ok a.
Proof. destruct r; simpl; congruence. Qed.

Lemma commit_with_branch_ok s tree n d name why who at_ : session_ok s → is_u64 d.(timestamp_ms) → u63 at_ →
  session_ok (commit_checkpoint_with_branch s tree n d name why who at_).1.
Proof.
  intros Hs Hd Hat. unfold commit_checkpoint_with_branch. destruct (_ >? _); [done|]. apply transact_ok; [done|].
  intros s' a E. apply bind_Ok in E as ([] & _ & E). apply bind_Ok in E as (b & [-> Hb]%BranchName_parse_id & E).
  cbv zeta in E. apply bind_Ok in E as ([] & Hp & E).
  apply map_err_Ok in Hp. pose proof (proj1 (check_parents_ok _ _) Hp) as Hcps.
  apply bind_Ok in E as (s3 & ->%append_moved & [= <- _]).
  destruct (session_ok_objects s tree n (with_tree d (sha256 tree))) as [H1 Hcp]; try done.
  pose proof (session_ok_HEAD _ _ at_ H1 Hcp) as H2. exact (session_ok_set _ name _ at_ _ why who H2 Hb Hcp Hat).
Qed.

(** ** Pruning *)

Definition victim (name : string) (vs : list Z) (r : ReflogRow) : bool :=
  existsb (Z.eqb r.(seq)) vs && str_eqb r.(ref_name) name.

Lemma filter_filter {A} (f g : A → bool) l : List.filter f (List.filter g l) = List.filter (λ x, g x && f x) l.
Proof. induction l as [|x l IH]; [done|]. simpl. destruct (g x); simpl; [destruct (f x)|]; by rewrite IH. Qed.

Lemma delete_rows_spec name vs : ∀ l rest, delete_rows l name vs = Ok rest →
  rest = List.filter (λ r, negb (victim name vs r)) l.
Proof.
  induction vs as [|v vs IH]; intros l rest; simpl.
  - intros [= <-]. unfold victim. simpl. by induction l as [|x l IH]; simpl; [|f_equal].
  - destruct (_ =? 1); [|done]. intros ->%IH. rewrite filter_filter. apply List.filter_ext. intros r.
    unfold victim. simpl. destruct (seq r =? v); simpl; [|done]. by destruct (str_eqb (ref_name r) name), (existsb _ vs).
Qed.

(** Rows of a sorted log: the last has the greatest number. *)
Lemma max_seq_last l : StronglySorted (λ a b, a.(seq) < b.(seq)) l → max_seq l = seq <$> last l.
Proof.
  destruct l as [|x l]; [done|]. intros Hs. unfold max_seq.
  assert (∀ k m, StronglySorted (λ a b, a.(seq) < b.(seq)) k → (∀ y, y ∈ k → m < y.(seq)) →
    foldr (λ r m, Z.max r.(seq) m) m k = default m (seq <$> last k)) as Hmax.
  { induction k as [|y k IH]; intros m Hk Hm; [done|]. inversion_clear Hk as [|? ? Hk' Hall]. simpl.
    rewrite IH; [|done|intros z Hz; apply Hm; by apply elem_of_cons; right].
    rewrite last_cons. specialize (Hm y (list_elem_of_here _ _)). destruct (last k) as [w|] eqn:Ew; simpl; [|lia].
    rewrite Forall_forall in Hall. specialize (Hall w (last_Some_elem_of _ _ Ew)). lia. }
  inversion_clear Hs as [|? ? Hs' Hall]. rewrite Hmax; [|done|by apply Forall_forall].
  rewrite last_cons. by destruct (last l).
Qed.

Lemma scan_rows_old l old grace cap : ∀ vs n vs' n', scan_rows l old grace cap vs n = Ok (vs', n') →
  ∀ v, v ∈ vs' → v ∈ vs ∨ ∃ r, r ∈ l ∧ r.(seq) = v.
Proof.
  induction l as [|r l IH]; intros vs n vs' n'; simpl; [intros [= <- _]; by left|].
  assert (∀ vs1 n1, scan_rows l old grace cap vs1 n1 = Ok (vs', n') → (∀ v, v ∈ vs1 → v ∈ vs ∨ v = r.(seq)) →
    ∀ v, v ∈ vs' → v ∈ vs ∨ ∃ x, x ∈ r :: l ∧ x.(seq) = v) as Hstep.
  { intros vs1 n1 E Hsub v Hv. destruct (IH _ _ _ _ E v Hv) as [Hv1|(x & Hx & <-)].
    - destruct (Hsub v Hv1) as [|Heq]; [by left|]. subst v. right. exists r. split; [apply list_elem_of_here|done].
    - right. exists x. split; [by apply elem_of_cons; right|done]. }
  destruct (at_ms r <? 0); [done|].
  destruct (_ >=? old); [intros E; eapply Hstep; [done|by left]|].
  destruct (_ && _); [intros E; eapply Hstep; [done|by left]|].
  destruct (_ <? cap); intros E; (eapply Hstep; [done|]); [|by left].
  intros v [Hv| ->%list_elem_of_singleton]%elem_of_app; auto.
Qed.

Lemma last_filter {A} (f : A → bool) l x : last l = Some x → f x = true → last (List.filter f l) = Some x.
Proof.
  intros [k ->]%last_Some Hf. rewrite List.filter_app. simpl. rewrite Hf. apply last_snoc.
Qed.

Lemma StronglySorted_filter {A} (R : A → A → Prop) (f : A → bool) l :
  StronglySorted R l → StronglySorted R (List.filter f l).
Proof.
  induction 1 as [|x l Hs IH Hall]; simpl; [constructor|]. destruct (f x); [|done]. constructor; [done|].
  apply Forall_forall. intros y [Hy _]%List_filter_elem. rewrite Forall_forall in Hall. by apply Hall.
Qed.

(** What survives a prune: the newest row of every branch. *)
Lemma pruned_tracks s name vs rest : log_wf s → (∀ v top, v ∈ vs → max_seq (rows_of s name) = Some top → v < top) →
  rest = List.filter (λ r, negb (victim name vs r)) s.(reflog) →
  log_wf (mkStore s.(blobs) s.(checkpoints) s.(refs) rest s.(last_seq)).
Proof.
  intros [Hs Hl Ht Hk] Hvs ->. constructor; simpl.
  - by apply StronglySorted_filter.
  - intros r [Hr _]%List_filter_elem. by apply Hl.
  - intros r [Hr _]%List_filter_elem. by apply Ht.
  - intros b Hb. change (get_ref (mkStore _ _ s.(refs) _ _) b) with (get_ref s b). rewrite Hk by done.
    unfold replay. enough (last (rows_of (mkStore s.(blobs) s.(checkpoints) s.(refs)
      (List.filter (λ r, negb (victim name vs r)) s.(reflog)) s.(last_seq)) b) = last (rows_of s b)) as ->; [done|].
    unfold rows_of at 1. simpl. rewrite filter_filter.
    rewrite (List.filter_ext _ (λ r, str_eqb (ref_name r) b && negb (victim name vs r))) by (intros; apply andb_comm).
    rewrite <-(filter_filter (λ r, negb (victim name vs r)) (λ r, str_eqb (ref_name r) b)). fold (rows_of s b).
    destruct (last (rows_of s b)) as [x|] eqn:E; [|by apply last_None in E as ->].
    apply last_filter; [done|]. apply negb_true_iff. unfold victim.
    destruct (str_eqb (ref_name x) name) eqn:En; [|apply andb_false_r]. rewrite andb_true_r.
    apply existsb_false_iff. intros v Hv. apply Z.eqb_neq.
    assert (x ∈ rows_of s b) as Hx by by apply last_Some_elem_of. apply List_filter_elem in Hx as [_ Hx].
    apply str_eqb_eq in Hx, En. subst b. subst name.
    specialize (Hvs v x.(seq) Hv). rewrite max_seq_last, E in Hvs by by apply StronglySorted_filter.
    specialize (Hvs eq_refl). lia.
Qed.

Lemma prune_reflog_ok s name old rows grace now : session_ok s → session_ok (prune_reflog s name old rows grace now).1.
Proof.
  intros Hs. unfold prune_reflog. destruct (validate_ref_name name) as [u|]; [|done].
  destruct (max_seq (rows_of s name)) as [top|] eqn:Etop; [|done]. apply transact_ok; [done|]. intros s' a E.
  destruct (existsb _ s.(reflog)); [done|]. apply bind_Ok in E as ([vs n] & Hscan & E).
  apply bind_Ok in E as (rest & Hrest%delete_rows_spec & [= <- _]). split; [by destruct Hs as [[] _]|].
  apply (pruned_tracks s name vs); [apply Hs| |done].
  intros v top' Hv Htop. rewrite Etop in Htop. injection Htop as <-.
  destruct (scan_rows_old _ _ _ _ _ _ _ _ Hscan v Hv) as [?%elem_of_nil|(r & Hr & <-)]; [done|].
  rewrite sort_by_key_perm in Hr. apply List_filter_elem in Hr as [_ Hr]. lia.
Qed.

(** ** Every write *)

Lemma set_refs_other l : ∀ s n b, b ∉ l.*1 →
  get_ref (set_refs s l n) b = get_ref s b ∧ (set_refs s l n).(reflog) = s.(reflog) ∧ (set_refs s l n).(last_seq) = s.(last_seq).
Proof.
  induction l as [|[name h] l IH]; intros s n b Hb; [done|]. csimpl in Hb. apply not_elem_of_cons in Hb as [Hne Hb].
  unfold set_refs. simpl. fold (set_refs (set_ref s name h n) l n). destruct (IH (set_ref s name h n) n b Hb) as (-> & -> & ->).
  split_and!; try done. unfold get_ref. simpl. by rewrite lookup_insert_ne.
Qed.

Lemma log_wf_set_refs s l n : log_wf s → (∀ x, x ∈ l → ¬ is_branch x.1) → log_wf (set_refs s l n).
Proof.
  intros Hwf Hl. assert (∀ b, is_branch b → b ∉ l.*1) as Hno.
  { intros b Hb (x & -> & Hx)%list_elem_of_fmap. by apply (Hl x). }
  assert (is_branch "heads/a") as Ha by done.
  destruct (set_refs_other l s n _ (Hno _ Ha)) as (_ & Er & El).
  eapply log_wf_same; [done|done|done|]. intros b Hb. by apply set_refs_other, Hno.
Qed.

(** One call that writes; the generic reference writes are used on other names than
    branches ([HEAD], tags), whose history nobody keeps. *)
Inductive write_step (s : Store) : Store → Prop :=
| w_put d n : write_step s (put_blob s d n).1
| w_commit d : is_u64 d.(timestamp_ms) → write_step s (commit_checkpoint s d).1
| w_atomic tree n d names m : is_u64 d.(timestamp_ms) → (∀ x, x ∈ names → ¬ is_branch x) →
    write_step s (commit_checkpoint_atomic s tree n d names m).1
| w_refs l n : (∀ x, x ∈ l → ¬ is_branch x.1) → write_step s (update_refs_atomic s l n).1
| w_delete_ref name : ¬ is_branch name → write_step s (delete_ref s name).1
| w_commit_branch tree n d name why who at_ : is_u64 d.(timestamp_ms) → u63 at_ →
    write_step s (commit_checkpoint_with_branch s tree n d name why who at_).1
| w_create name h why who at_ : u63 at_ → write_step s (create_branch s name h why who at_).1
| w_update name h why who at_ ff s' r : u63 at_ →
    update_branch s name h why who at_ ff = Returned (s', r) → write_step s s'
| w_delete name why who at_ : u63 at_ → write_step s (delete_branch s name why who at_).1
| w_rename old new why who at_ : u63 at_ → write_step s (rename_branch s old new why who at_).1
| w_prune name old rows grace now : write_step s (prune_reflog s name old rows grace now).1.

Lemma commit_atomic_log s tree n d names m : log_wf s → (∀ x, x ∈ names → ¬ is_branch x) →
  log_wf (commit_checkpoint_atomic s tree n d names m).1.
Proof.
  intros Hwf Hn. unfold commit_checkpoint_atomic. destruct (_ >? _); [done|]. destruct (validate_draft d); [|done].
  destruct (validate_ref_names names); [|done]. destruct (check_parents s _); [|done].
  apply log_wf_set_refs; [by eapply log_wf_same|]. intros x (name & -> & Hx)%list_elem_of_fmap. by apply Hn.
Qed.

Lemma write_step_ok s s' : session_ok s → write_step s s' → session_ok s'.
Proof.
  intros Hs Hw. pose proof (sess_store s Hs) as Hok. pose proof (sess_log s Hs) as Hwf.
  destruct Hw as [d n|d Hd|tree n d names m Hd Hn|l n Hl|name Hn| | |name h why who at_ ff s' r Hat E| | |].
  - split; [by apply put_blob_ok|]. unfold put_blob. destruct (_ >? _); [done|]. by eapply log_wf_same.
  - split; [by apply commit_checkpoint_ok|]. unfold commit_checkpoint.
    destruct (validate_draft d); [|done]. destruct (check_parents s _); [|done]. destruct (match tree_hash d with Some _ => _ | None => _ end); [done|].
    by eapply log_wf_same.
  - split; [by apply commit_atomic_ok|by apply commit_atomic_log].
  - split; [by apply update_refs_ok|]. unfold update_refs_atomic. destruct (check_targets s l); [|done]. by apply log_wf_set_refs.
  - split; [by apply delete_ref_ok|]. unfold delete_ref. destruct (validate_ref_name name); [|done].
    eapply log_wf_same; [done..|]. intros b Hb. unfold get_ref. simpl. rewrite lookup_delete_ne; [done|]. by intros <-.
  - by apply commit_with_branch_ok.
  - by apply create_branch_ok.
  - by eapply update_branch_ok.
  - by apply delete_branch_ok.
  - by apply rename_branch_ok.
  - by apply prune_reflog_ok.
Qed.

Lemma session_ok_new : session_ok store_new.
Proof.
  assert (∀ c p, ¬ link store_new c p) as Hno.
  { intros c p (row & Hc & _). simpl in Hc. by rewrite lookup_empty in Hc. }
  split; constructor; unfold blobs_ok, rows_ok; simpl.
  1, 2, 4, 5: intros *; by rewrite lookup_empty.
  - intros c p Hl. by destruct (Hno c p).
  - exists (λ _, O). intros c p Hl. by destruct (Hno c p).
  - constructor.
  - by intros r ?%elem_of_nil.
  - by intros r ?%elem_of_nil.
  - done.
Qed.

(** ** Reading the history *)

Lemma sort_newest_first l : StronglySorted (λ a b, a.(seq) < b.(seq)) l → sort_by_key (λ r, - r.(seq)) l = rev l.
Proof.
  intros Hs. assert (StronglySorted (key_lt (λ r, - r.(seq))) (rev l)) as Hrev.
  { induction Hs as [|x l Hs IH Hall]; simpl; [constructor|].
    assert (∀ y, y ∈ rev l → x.(seq) < y.(seq)) as Hlt.
    { intros y Hy. rewrite <-Permutation_rev in Hy. rewrite Forall_forall in Hall. by apply Hall. }
    clear Hall Hs. induction IH as [|y k Hk IH Hall]; simpl; [by repeat constructor|].
    constructor; [apply IH; intros z Hz; apply Hlt; by apply elem_of_cons; right|].
    apply Forall_app. split; [done|]. constructor; [|constructor].
    specialize (Hlt y (list_elem_of_here _ _)). unfold key_lt. simpl. apply Z.compare_lt_iff. lia. }
  rewrite <-(sort_by_key_id _ _ Hrev). apply sort_by_key_unique; [|by rewrite <-Permutation_rev].
  rewrite <-(Permutation_rev l). clear Hrev. induction Hs as [|x l Hs IH Hall]; simpl; constructor; [|done].
  intros (y & Hy & Hin)%list_elem_of_fmap. rewrite Forall_forall in Hall. specialize (Hall y Hin). lia.
Qed.

Lemma entries_of_total l : (∀ r, r ∈ l → 0 ≤ r.(at_ms)) → entries_of l = Ok l.
Proof.
  induction l as [|r l IH]; intros Hl; [done|]. simpl. rewrite (proj2 (Z.ltb_ge _ _)) by apply Hl, list_elem_of_here.
  rewrite IH; [done|]. intros x Hx. apply Hl. by apply elem_of_cons; right.
Qed.

Lemma is_branch_ref b : is_branch b → validate_ref_name b = Ok tt.
Proof.
  unfold is_branch, BranchName_parse. destruct (str_eqb b "HEAD"); [done|].
  by destruct (validate_ref_name b) as [[]|].
Qed.

(** [read_reflog] returns the newest rows first. *)
Lemma read_reflog_exact s b n : log_wf s → is_branch b →
  read_reflog s b n = Ok (take (Z.to_nat (Z.min n MAX_REFLOG_READ_LIMIT)) (rev (rows_of s b))).
Proof.
  intros Hwf Hb. unfold read_reflog. rewrite is_branch_ref by done.
  rewrite sort_newest_first by apply StronglySorted_filter, Hwf. apply entries_of_total.
  intros r Hr. apply (lw_times s Hwf). assert (r ∈ rev (rows_of s b)) as Hi by (eapply sublist_elem; [apply sublist_take|done]).
  rewrite <-Permutation_rev in Hi. by apply List_filter_elem in Hi as [? _].
Qed.

(** [branch_absence] tells a live branch, a deleted one and one that never was apart. *)
Lemma branch_absence_exact s b : log_wf s → is_branch b →
  branch_absence s b = Ok match get_ref s b with
                          | Some tip => Live tip
                          | None => match last (rows_of s b) with
                                    | Some r => Deleted (default tombstone_hash r.(old_hash)) r.(reason) r.(actor) r.(at_ms)
                                    | None => NeverExisted
                                    end
                          end.
Proof.
  intros Hwf Hb. unfold branch_absence. rewrite Hb. pose proof (lw_tracks s Hwf b Hb) as Ht.
  destruct (get_ref s b) as [tip|]; [done|]. rewrite read_reflog_exact by done.
  destruct (last (rows_of s b)) as [r|] eqn:El.
  - unfold replay in Ht. rewrite El in Ht. apply last_Some in El as [k ->]. rewrite rev_app_distr. simpl.
    by destruct (str_eqb (new_hash r) tombstone_hash).
  - apply last_None in El as ->. done.
Qed.


End Verbs.
