(* ===== verification/PendingLog.v ===== *)
(** * PendingLog: the durable log of calls in flight

    Models [pending.rs] of [crates/bitty-ai-session]: one row per contacted tool call,
    opened before the effect and closed with a disposition, a bounded cache of recent
    closings, the markers of direct HEAD resumes, and the validation of every row
    that is read.  Rows hold raw text and [i64] columns; the digest column holds the
    digest. *)

From stdpp Require Import gmap.
From S2P Require Import Prelude Text Order ObjectStore Branches Bindings.

Local Open Scope Z_scope.
Local Open Scope rust_scope.

Definition MAX_OPEN_PENDING_PER_SESSION : Z := 32.
Definition MAX_RESOLVED_RECENT : Z := 32.
Definition MAX_PENDING_TOOL_NAME : Z := 64.
Definition MAX_PENDING_CALL_ID : Z := 128.
Definition MAX_HEAD_MARKERS : Z := 32.
Definition MAX_PENDING_DEDUP_AGE_MS : Z := 3600000.

Inductive PendingStatus := Open | Resolved.

Inductive PendingDisposition :=
| DSuccess | DFailed | DDenied | DRefused | DUnknownReconciled | DUnknownEscalated | DAbandoned.

#[export] Instance PendingDisposition_eq_dec : EqDecision PendingDisposition.
Proof. solve_decision. Defined.

#[export] Instance PendingStatus_eq_dec : EqDecision PendingStatus.
Proof. solve_decision. Defined.

Definition pending_status_str (s : PendingStatus) : string :=
  match s with Open => "open" | Resolved => "resolved" end.
Definition pending_status_parse (raw : string) : option PendingStatus :=
  if str_eqb raw "open" then Some Open else if str_eqb raw "resolved" then Some Resolved else None.

(** [PendingDisposition::as_str] and [parse] *)
Definition disposition_str (d : PendingDisposition) : string :=
  match d with
  | DSuccess => "success" | DFailed => "failed" | DDenied => "denied" | DRefused => "refused"
  | DUnknownReconciled => "unknown-reconciled" | DUnknownEscalated => "unknown-escalated"
  | DAbandoned => "abandoned"
  end.
Definition disposition_parse (raw : string) : option PendingDisposition :=
  if str_eqb raw "success" then Some DSuccess
  else if str_eqb raw "failed" then Some DFailed
  else if str_eqb raw "denied" then Some DDenied
  else if str_eqb raw "refused" then Some DRefused
  else if str_eqb raw "unknown-reconciled" then Some DUnknownReconciled
  else if str_eqb raw "unknown-escalated" then Some DUnknownEscalated
  else if str_eqb raw "abandoned" then Some DAbandoned
  else None.

Record PendingEntry := mkPending {
  call_id : string;
  pe_session : WheelSessionId;
  pe_task : option string;
  pe_tool : string;
  args_digest : ContentHash;
  pe_status : PendingStatus;
  disposition : option PendingDisposition;
  pe_generation : Z;
  pe_epoch : Z;
  begun_at_ms : Z;
  resolved_at_ms : option Z
}.

Inductive PendingError :=
| PendingInvalidId
| PendingExists
| PendingNotFound
| PendingStaleEpoch (claim_epoch current_epoch : Z)
| PendingStaleGeneration (expected found : Z)
| TooManyOpen (limit : Z)
| Mismatch (stored supplied : PendingDisposition)
| PendingCorrupt
| PendingStorage (detail : string).

Definition PENDING_RANGE_MSG : string := "pending integer out of range: value exceeds i64::MAX".

(** [StoredRow] *)
Record StoredRow := mkRow {
  sr_session : string;
  sr_task : option string;
  sr_tool : string;
  sr_digest : ContentHash;
  sr_status : string;
  sr_disposition : option string;
  sr_generation : Z;
  sr_epoch : Z;
  sr_begun : Z;
  sr_resolved : option Z
}.

(** The three tables. *)
Record PendingTables := mkTables {
  effects : gmap string StoredRow;
  recent : gmap string StoredRow;
  head_scope : gmap string Z
}.

Definition pending_new : PendingTables := mkTables ∅ ∅ ∅.

(** ** Shapes *)

Definition is_ascii_hexdigit (b : ascii) : bool :=
  is_ascii_digit b || in_range 97 102 b || in_range 65 70 b.

(** [valid_call_id], [valid_tool], [valid_task_id] *)
Definition valid_call_id (raw : string) : bool :=
  negb (is_empty raw) && (slen raw <=? MAX_PENDING_CALL_ID) && str_forall is_ascii_hexdigit raw.
Definition valid_tool (raw : string) : bool := negb (is_empty raw) && (slen raw <=? MAX_PENDING_TOOL_NAME).
Definition valid_task_id (raw : option string) : bool :=
  match raw with None => true | Some id => negb (is_empty id) && (slen id <=? ObjectStore.MAX_TASK_ID_BYTES) end.

(** [StoredRow::into_entry] *)
Definition into_entry (id : string) (r : StoredRow) : result PendingEntry PendingError :=
  if negb (valid_call_id id) then Err PendingCorrupt
  else
    match WheelSessionId_parse r.(sr_session) with
    | Err _ => Err PendingCorrupt
    | Ok session =>
        if negb (valid_tool r.(sr_tool)) || negb (valid_task_id r.(sr_task)) then Err PendingCorrupt
        else
          match pending_status_parse r.(sr_status) with
          | None => Err PendingCorrupt
          | Some status =>
              let disposition := match r.(sr_disposition) with
                                 | None => Ok None
                                 | Some raw => match disposition_parse raw with
                                               | Some d => Ok (Some d)
                                               | None => Err PendingCorrupt
                                               end
                                 end in
              try! d := disposition in
              match status, d, r.(sr_resolved) with
              | Open, None, None | Resolved, Some _, Some _ =>
                  if (r.(sr_generation) <? 0) || (r.(sr_epoch) <? 0) || (r.(sr_begun) <? 0)
                     || match r.(sr_resolved) with Some at_ => at_ <? 0 | None => false end
                  then Err PendingCorrupt
                  else Ok (mkPending id session r.(sr_task) r.(sr_tool) r.(sr_digest) status d
                             (of_i64 r.(sr_generation)) (of_i64 r.(sr_epoch)) (of_i64 r.(sr_begun))
                             (of_i64 <$> r.(sr_resolved)))
              | _, _, _ => Err PendingCorrupt
              end
          end
    end.

(** [read_entry] and [read_cached] *)
Definition read_row (t : gmap string StoredRow) (id : string) : result (option PendingEntry) PendingError :=
  match t !! id with
  | None => Ok None
  | Some r => try! e := into_entry id r in Ok (Some e)
  end.

(** ** Duplicates *)

Inductive PendingDuplicateKind := IdenticalWithinWindow | PayloadConflict | Expired.

(** [is_dedup_expired] *)
Definition is_dedup_expired (begun now : Z) : bool := saturating_sub64 now begun >? MAX_PENDING_DEDUP_AGE_MS.

Section Pending.
Context `{ContentApi}.

(** [is_payload_conflict], [classify_duplicate] *)
Definition is_payload_conflict (existing : PendingEntry) (new_args : bytes) : bool :=
  negb (str_eqb existing.(args_digest) (sha256 new_args)).
Definition classify_duplicate (existing : PendingEntry) (new_args : bytes) (now_ms : Z) : PendingDuplicateKind :=
  if is_dedup_expired existing.(begun_at_ms) now_ms then Expired
  else if is_payload_conflict existing new_args then PayloadConflict
  else IdenticalWithinWindow.

(** ** Opening and closing *)

Record PendingBegin := mkBegin {
  bg_call_id : string;
  bg_session : WheelSessionId;
  bg_task : option string;
  bg_tool : string;
  bg_args : bytes;
  bg_generation : Z;
  bg_epoch : Z;
  bg_now : Z
}.

(** [SELECT COUNT] of the open rows of a session *)
Definition open_rows_of (t : PendingTables) (session : string) : list (string * StoredRow) :=
  List.filter (λ r, str_eqb r.2.(sr_session) session && str_eqb r.2.(sr_status) "open") (map_to_list t.(effects)).

(** [PendingStore::begin] *)
Definition begin (t : PendingTables) (req : PendingBegin) : PendingTables * result PendingEntry PendingError :=
  if negb (valid_call_id req.(bg_call_id)) || negb (valid_tool req.(bg_tool)) || negb (valid_task_id req.(bg_task))
  then (t, Err PendingInvalidId)
  else if out_of_range [req.(bg_generation); req.(bg_epoch); req.(bg_now)]
  then (t, Err (PendingStorage PENDING_RANGE_MSG))
  else
    let digest := sha256 req.(bg_args) in
    if len (open_rows_of t req.(bg_session)) >=? MAX_OPEN_PENDING_PER_SESSION
    then (t, Err (TooManyOpen MAX_OPEN_PENDING_PER_SESSION))
    else if bool_decide (is_Some (t.(effects) !! req.(bg_call_id)))
            || bool_decide (is_Some (t.(recent) !! req.(bg_call_id)))
    then (t, Err PendingExists)
    else
      let row := mkRow req.(bg_session) req.(bg_task) req.(bg_tool) digest "open" None
                   (to_i64 req.(bg_generation)) (to_i64 req.(bg_epoch)) (to_i64 req.(bg_now)) None in
      (mkTables (<[req.(bg_call_id) := row]> t.(effects)) t.(recent) t.(head_scope),
       Ok (mkPending req.(bg_call_id) req.(bg_session) req.(bg_task) req.(bg_tool) digest Open None
             req.(bg_generation) req.(bg_epoch) req.(bg_now) None)).

Record PendingResolve := mkResolve {
  rs_call_id : string;
  rs_disposition : PendingDisposition;
  rs_claim_epoch : Z;
  rs_generation : Z;
  rs_now : Z
}.

(** [ORDER BY resolved_at_ms DESC, call_id DESC LIMIT 32] *)
Definition recent_key (r : string * StoredRow) : Z * string := (default 0 r.2.(sr_resolved), r.1).
Definition newest_first (t : gmap string StoredRow) : list (string * StoredRow) :=
  rev (sort_by_key recent_key (map_to_list t)).
Definition evict (t : gmap string StoredRow) : gmap string StoredRow :=
  list_to_map (take (Z.to_nat MAX_RESOLVED_RECENT) (newest_first t)).

(** [insert_resolved_cache]: a taken key is a constraint violation. *)
Definition insert_resolved_cache (t : gmap string StoredRow) (e : PendingEntry) :
    result (gmap string StoredRow) PendingError :=
  let d := default DAbandoned e.(disposition) in
  let at_ := default e.(begun_at_ms) e.(resolved_at_ms) in
  let row := mkRow e.(pe_session) e.(pe_task) e.(pe_tool) e.(args_digest) "resolved" (Some (disposition_str d))
               (to_i64 e.(pe_generation)) (to_i64 e.(pe_epoch)) (to_i64 e.(begun_at_ms)) (Some (to_i64 at_)) in
  if bool_decide (is_Some (t !! e.(call_id))) then Err PendingExists
  else Ok (evict (<[e.(call_id) := row]> t)).

(** A closing of a call that is closed already. *)
Definition settle_again (e : PendingEntry) (supplied : PendingDisposition) : result PendingEntry PendingError :=
  let stored := default DAbandoned e.(disposition) in
  if bool_decide (stored = supplied) then Ok e else Err (Mismatch stored supplied).

(** [PendingStore::resolve] *)
Definition resolve (t : PendingTables) (req : PendingResolve) : PendingTables * result PendingEntry PendingError :=
  if negb (valid_call_id req.(rs_call_id)) then (t, Err PendingInvalidId)
  else if out_of_range [req.(rs_now)] then (t, Err (PendingStorage PENDING_RANGE_MSG))
  else
    match read_row t.(effects) req.(rs_call_id) with
    | Err e => (t, Err e)
    | Ok (Some entry) =>
        if bool_decide (entry.(pe_status) = Resolved) then (t, settle_again entry req.(rs_disposition))
        else if req.(rs_claim_epoch) <? entry.(pe_epoch)
        then (t, Err (PendingStaleEpoch req.(rs_claim_epoch) entry.(pe_epoch)))
        else if negb (req.(rs_generation) =? entry.(pe_generation))
        then (t, Err (PendingStaleGeneration entry.(pe_generation) req.(rs_generation)))
        else
          let resolved := mkPending entry.(call_id) entry.(pe_session) entry.(pe_task) entry.(pe_tool)
                            entry.(args_digest) Resolved (Some req.(rs_disposition)) entry.(pe_generation)
                            entry.(pe_epoch) entry.(begun_at_ms) (Some req.(rs_now)) in
          match insert_resolved_cache t.(recent) resolved with
          | Err e => (t, Err e)
          | Ok recent => (mkTables (delete req.(rs_call_id) t.(effects)) recent t.(head_scope), Ok resolved)
          end
    | Ok None =>
        match read_row t.(recent) req.(rs_call_id) with
        | Err e => (t, Err e)
        | Ok (Some cached) => (t, settle_again cached req.(rs_disposition))
        | Ok None => (t, Err PendingNotFound)
        end
    end.

(** ** Reading *)

Fixpoint entries_of_rows (l : list (string * StoredRow)) : result (list PendingEntry) PendingError :=
  match l with
  | [] => Ok []
  | (id, r) :: l => try! e := into_entry id r in try! rest := entries_of_rows l in Ok (e :: rest)
  end.

Definition bogus_status (r : StoredRow) : bool :=
  negb (str_eqb r.(sr_status) "open") && negb (str_eqb r.(sr_status) "resolved").

(** [PendingStore::list_open]: [ORDER BY begun_at_ms, call_id] *)
Definition list_open (t : PendingTables) (session : WheelSessionId) : result (list PendingEntry) PendingError :=
  try! open := entries_of_rows (sort_by_key (λ r, (r.2.(sr_begun), r.1)) (open_rows_of t session)) in
  if existsb (λ r, str_eqb r.2.(sr_session) session && bogus_status r.2) (map_to_list t.(effects))
  then Err PendingCorrupt else Ok open.

(** [PendingStore::get] *)
Definition get (t : PendingTables) (id : string) : result (option PendingEntry) PendingError :=
  if negb (valid_call_id id) then Err PendingInvalidId
  else
    try! live := read_row t.(effects) id in
    match live with
    | Some e => Ok (Some e)
    | None => read_row t.(recent) id
    end.

(** [PendingStore::open_blob_roots] *)
Definition open_blob_roots (t : PendingTables) : result (list ContentHash) PendingError :=
  try! open := entries_of_rows (List.filter (λ r, str_eqb r.2.(sr_status) "open") (map_to_list t.(effects))) in
  if existsb (λ r, bogus_status r.2) (map_to_list t.(effects)) then Err PendingCorrupt
  else Ok (sorted_set (λ h : string, h)
    (map args_digest (List.filter (λ e, bool_decide (e.(pe_status) = Open)
                                          && negb (str_eqb e.(args_digest) tombstone_hash)) open))).

(** ** Markers *)

(** [bind_head] and [unbind_head] *)
Definition bind_head (t : PendingTables) (session : WheelSessionId) (now_ms : Z) :
    PendingTables * result unit PendingError :=
  if out_of_range [now_ms] then (t, Err (PendingStorage PENDING_RANGE_MSG))
  else if bool_decide (is_Some (t.(head_scope) !! session)) then (t, Err PendingExists)
  else if Z.of_nat (size t.(head_scope)) >=? MAX_HEAD_MARKERS then (t, Err (TooManyOpen MAX_HEAD_MARKERS))
  else (mkTables t.(effects) t.(recent) (<[session := to_i64 now_ms]> t.(head_scope)), Ok tt).
Definition unbind_head (t : PendingTables) (session : WheelSessionId) : PendingTables * result unit PendingError :=
  if bool_decide (is_Some (t.(head_scope) !! session))
  then (mkTables t.(effects) t.(recent) (delete session t.(head_scope)), Ok tt)
  else (t, Err PendingNotFound).

Fixpoint markers_of (l : list (string * Z)) : result (list WheelSessionId) PendingError :=
  match l with
  | [] => Ok []
  | (id, at_) :: l =>
      match WheelSessionId_parse id with
      | Err _ => Err PendingCorrupt
      | Ok id => if at_ <? 0 then Err PendingCorrupt else try! rest := markers_of l in Ok (id :: rest)
      end
  end.

(** [list_head_sessions]: [ORDER BY session_id LIMIT 32] *)
Definition list_head_sessions (t : PendingTables) : result (list WheelSessionId) PendingError :=
  markers_of (take (Z.to_nat MAX_HEAD_MARKERS) (sort_by_key fst (map_to_list t.(head_scope)))).

End Pending.
