(* ===== verification/PendingFacts.v ===== *)
(** * PendingFacts: what the log of calls in flight promises

    The log as its clients see it: entries instead of rows, no corruption, no key
    conflicts and a cache given by what it keeps.  The operations on the tables refine
    the operations on the log, and the invariant of the log holds over every history. *)

From stdpp Require Import gmap.
From S2P Require Import Prelude Text Order ObjectStore Branches Bindings PendingLog.

Local Open Scope Z_scope.
Local Open Scope rust_scope.

(** ** The newest rows *)

Section Newer.
Context {A K} `{RustOrd K} (key : A → K).

Definition key_ltb (a b : A) : bool := match cmp (key a) (key b) with Lt => true | _ => false end.

(** How many elements are newer. *)
Definition newer (l : list A) (x : A) : nat := length (List.filter (key_ltb x) l).

Lemma key_ltb_true a b : key_ltb a b = true ↔ key_lt key a b.
Proof. unfold key_ltb, key_lt. by destruct (cmp (key a) (key b)). Qed.

Lemma key_lt_asymm a b : key_lt key a b → ¬ key_lt key b a.
Proof. intros Hab Hba. assert (a = b) as -> by by apply (anti_symm (key_lt key)). by apply key_lt_irrefl in Hab. Qed.

Lemma newer_perm k l x : k ≡ₚ l → newer k x = newer l x.
Proof.
  intros Hp. unfold newer. induction Hp; simpl; try congruence.
  - destruct (key_ltb x x0); simpl; congruence.
  - destruct (key_ltb x x0), (key_ltb x y); simpl; congruence.
Qed.

Lemma newer_all l x : Forall (key_lt key x) l → newer l x = length l.
Proof.
  unfold newer. induction 1 as [|y l Hy _ IH]; [done|]. simpl.
  apply key_ltb_true in Hy as ->. simpl. by rewrite IH.
Qed.

(** The last [n] of a sorted list are those with fewer than [n] newer. *)
Lemma take_rev_newer l : StronglySorted (key_lt key) l → ∀ n x,
  x ∈ take n (rev l) ↔ x ∈ l ∧ (newer l x < n)%nat.
Proof.
  induction 1 as [|a l Hs IH Hall]; intros n x; simpl.
  { rewrite take_nil. split; [by intros ?%elem_of_nil|by intros [?%elem_of_nil _]]. }
  rewrite take_app, elem_of_app, IH, length_rev, elem_of_cons. unfold newer at 2. cbn [List.filter].
  assert (a ∈ take (n - length l) [a] ↔ (length l < n)%nat) as Ha.
  { destruct (n - length l)%nat as [|k] eqn:E; simpl.
    - split; [by intros ?%elem_of_nil|lia].
    - rewrite take_nil, list_elem_of_singleton. split; [lia|done]. }
  assert (∀ y, y ∈ take (n - length l) [a] → y = a) as Hone.
  { intros y. destruct (n - length l)%nat; simpl; [by intros ?%elem_of_nil|]. rewrite take_nil. by intros ?%list_elem_of_singleton. }
  destruct (key_ltb x a) eqn:E.
  - apply key_ltb_true in E. assert (x ∉ a :: l) as Hno.
    { intros [->|Hx]%elem_of_cons; [by apply key_lt_irrefl in E|].
      rewrite Forall_forall in Hall. by apply (key_lt_asymm x a), Hall. }
    split; [intros [[Hx _]|Hx%Hone]; exfalso; apply Hno, elem_of_cons; auto|].
    intros [Hx _]. exfalso. by apply Hno, elem_of_cons.
  - fold (newer l x). split.
    + intros [[Hx Hr]|Hx]; [tauto|]. pose proof (Hone _ Hx) as ->. split; [by left|].
      rewrite newer_all by done. by apply Ha.
    + intros [[->|Hx] Hr]; [right; apply Ha; by rewrite newer_all in Hr by done|by left].
Qed.

End Newer.

Lemma length_List_filter_fmap {A B} (g : A → B) (f : B → bool) l :
  length (List.filter f (g <$> l)) = length (List.filter (λ x, f (g x)) l).
Proof. induction l as [|x l IH]; [done|]. csimpl. destruct (f (g x)); csimpl; by rewrite IH. Qed.

Lemma List_filter_ext_in {A} (f g : A → bool) l : (∀ x, x ∈ l → f x = g x) → List.filter f l = List.filter g l.
Proof.
  induction l as [|x l IH]; intros Hf; [done|]. simpl. rewrite (Hf x) by apply list_elem_of_here.
  rewrite IH; [done|]. intros y Hy. apply Hf. by apply elem_of_cons; right.
Qed.

Lemma recent_key_NoDup t : NoDup (map recent_key (map_to_list t)).
Proof.
  apply (NoDup_fmap_1 snd). rewrite <-list_fmap_compose. apply NoDup_fst_map_to_list.
Qed.

(** [evict] keeps the rows with fewer than 32 newer ones. *)
Lemma evict_lookup t id r :
  evict t !! id = Some r ↔ t !! id = Some r ∧ Z.of_nat (newer recent_key (map_to_list t) (id, r)) < MAX_RESOLVED_RECENT.
Proof.
  unfold evict. set (l := take _ _).
  assert (NoDup l.*1) as Hnd.
  { apply (sublist_NoDup _ (newest_first t).*1); [|apply (sublist_map fst), sublist_take].
    unfold newest_first. rewrite <-(Permutation_rev _), sort_by_key_perm. apply NoDup_fst_map_to_list. }
  rewrite <-elem_of_list_to_map by done. unfold l, newest_first.
  rewrite (take_rev_newer recent_key) by apply sort_by_key_strict, recent_key_NoDup.
  rewrite (newer_perm _ _ _ _ (sort_by_key_perm recent_key (map_to_list t))).
  rewrite sort_by_key_perm, elem_of_map_to_list.
  unfold MAX_RESOLVED_RECENT. split; intros [? ?]; split; done || lia.
Qed.

(** ** Rows and entries *)

Definition row_of_entry (e : PendingEntry) : StoredRow :=
  mkRow e.(pe_session) e.(pe_task) e.(pe_tool) e.(args_digest) (pending_status_str e.(pe_status))
    (disposition_str <$> e.(disposition)) (to_i64 e.(pe_generation)) (to_i64 e.(pe_epoch))
    (to_i64 e.(begun_at_ms)) (to_i64 <$> e.(resolved_at_ms)).

(** A well-formed entry of the given identifier and status. *)
Record entry_ok (st : PendingStatus) (id : string) (e : PendingEntry) : Prop := {
  eok_id : e.(call_id) = id;
  eok_valid : valid_call_id id = true;
  eok_session : WheelSessionId_parse e.(pe_session) = Ok e.(pe_session);
  eok_tool : valid_tool e.(pe_tool) = true;
  eok_task : valid_task_id e.(pe_task) = true;
  eok_status : e.(pe_status) = st;
  eok_coherent : match st, e.(disposition), e.(resolved_at_ms) with
                 | Open, None, None => True
                 | Resolved, Some _, Some n => u63 n
                 | _, _, _ => False
                 end;
  eok_generation : u63 e.(pe_generation);
  eok_epoch : u63 e.(pe_epoch);
  eok_begun : u63 e.(begun_at_ms)
}.

Lemma disposition_parse_str d : disposition_parse (disposition_str d) = Some d.
Proof. by destruct d. Qed.

Lemma status_parse_str s : pending_status_parse (pending_status_str s) = Some s.
Proof. by destruct s. Qed.

Lemma u63_ltb n : u63 n → (to_i64 n <? 0) = false ∧ of_i64 (to_i64 n) = n ∧ to_i64 n = n.
Proof.
  intros Hn. rewrite to_i64_small by done. split_and!; [|by apply of_i64_small, Hn|done].
  apply Z.ltb_ge, Hn.
Qed.

(** A row written is read back. *)
Lemma into_entry_row st id e : entry_ok st id e → into_entry id (row_of_entry e) = Ok e.
Proof.
  intros [Hid Hv Hs Ht Hk Hst Hc Hg He Hb]. destruct e as [cid se ta to dg s d g ep be rs]. simpl in *. subst cid s.
  unfold into_entry. simpl. rewrite Hv, Hs, Ht, Hk. simpl. rewrite status_parse_str.
  apply u63_ltb in Hg as (-> & -> & _), He as (-> & -> & _), Hb as (-> & -> & _).
  destruct st, d as [d|], rs as [n|]; simpl; try done; rewrite ?disposition_parse_str; simpl.
  apply u63_ltb in Hc as (-> & E & _). simpl. by rewrite E.
Qed.

(** ** The log *)

Record Log := mkLog {
  live : gmap string PendingEntry;
  cached : gmap string PendingEntry;
  markers : gmap string Z
}.

Definition tables (L : Log) : PendingTables :=
  mkTables (row_of_entry <$> L.(live)) (row_of_entry <$> L.(cached)) L.(markers).

(** The open calls of a session. *)
Definition open_of (L : Log) (session : string) : list PendingEntry :=
  List.filter (λ e, str_eqb e.(pe_session) session) (map_to_list L.(live)).*2.

Record log_ok (L : Log) : Prop := {
  lok_live id e : L.(live) !! id = Some e → entry_ok Open id e;
  lok_cached id e : L.(cached) !! id = Some e → entry_ok Resolved id e;
  lok_disjoint id e : L.(live) !! id = Some e → L.(cached) !! id = None;
  lok_open session : len (open_of L session) ≤ MAX_OPEN_PENDING_PER_SESSION;
  lok_recent : Z.of_nat (size L.(cached)) ≤ MAX_RESOLVED_RECENT;
  lok_markers id n : L.(markers) !! id = Some n → WheelSessionId_parse id = Ok id ∧ u63 n;
  lok_heads : Z.of_nat (size L.(markers)) ≤ MAX_HEAD_MARKERS
}.

(** The entries with fewer than 32 closed after them. *)
Definition closing_key (x : string * PendingEntry) : Z * string := (default 0 x.2.(resolved_at_ms), x.1).
Definition newest (m : gmap string PendingEntry) : gmap string PendingEntry :=
  filter (λ x, Z.of_nat (newer closing_key (map_to_list m) x) < MAX_RESOLVED_RECENT) m.

Section Log.
Context `{ContentApi}.

Definition opened (req : PendingBegin) : PendingEntry :=
  mkPending req.(bg_call_id) req.(bg_session) req.(bg_task) req.(bg_tool) (sha256 req.(bg_args)) Open None
    req.(bg_generation) req.(bg_epoch) req.(bg_now) None.

Definition closed (e : PendingEntry) (req : PendingResolve) : PendingEntry :=
  mkPending e.(call_id) e.(pe_session) e.(pe_task) e.(pe_tool) e.(args_digest) Resolved
    (Some req.(rs_disposition)) e.(pe_generation) e.(pe_epoch) e.(begun_at_ms) (Some req.(rs_now)).

Definition log_begin (L : Log) (req : PendingBegin) : Log * result PendingEntry PendingError :=
  if negb (valid_call_id req.(bg_call_id)) || negb (valid_tool req.(bg_tool)) || negb (valid_task_id req.(bg_task))
  then (L, Err PendingInvalidId)
  else if out_of_range [req.(bg_generation); req.(bg_epoch); req.(bg_now)]
  then (L, Err (PendingStorage PENDING_RANGE_MSG))
  else if len (open_of L req.(bg_session)) >=? MAX_OPEN_PENDING_PER_SESSION
  then (L, Err (TooManyOpen MAX_OPEN_PENDING_PER_SESSION))
  else
    match L.(live) !! req.(bg_call_id), L.(cached) !! req.(bg_call_id) with
    | None, None => (mkLog (<[req.(bg_call_id) := opened req]> L.(live)) L.(cached) L.(markers), Ok (opened req))
    | _, _ => (L, Err PendingExists)
    end.

Definition log_resolve (L : Log) (req : PendingResolve) : Log * result PendingEntry PendingError :=
  if negb (valid_call_id req.(rs_call_id)) then (L, Err PendingInvalidId)
  else if out_of_range [req.(rs_now)] then (L, Err (PendingStorage PENDING_RANGE_MSG))
  else
    match L.(live) !! req.(rs_call_id), L.(cached) !! req.(rs_call_id) with
    | Some e, _ =>
        if req.(rs_claim_epoch) <? e.(pe_epoch) then (L, Err (PendingStaleEpoch req.(rs_claim_epoch) e.(pe_epoch)))
        else if negb (req.(rs_generation) =? e.(pe_generation))
        then (L, Err (PendingStaleGeneration e.(pe_generation) req.(rs_generation)))
        else (mkLog (delete req.(rs_call_id) L.(live)) (newest (<[req.(rs_call_id) := closed e req]> L.(cached)))
                L.(markers), Ok (closed e req))
    | None, Some e => (L, settle_again e req.(rs_disposition))
    | None, None => (L, Err PendingNotFound)
    end.

(** ** Refinement *)

Lemma newest_lookup m id e : newest m !! id = Some e ↔
  m !! id = Some e ∧ Z.of_nat (newer closing_key (map_to_list m) (id, e)) < MAX_RESOLVED_RECENT.
Proof. unfold newest. by rewrite map_lookup_filter_Some. Qed.

Lemma rows_key st id e : entry_ok st id e → recent_key (id, row_of_entry e) = closing_key (id, e).
Proof.
  intros [_ _ _ _ _ _ Hc _ _ _]. unfold recent_key, closing_key. simpl. f_equal.
  destruct st, (disposition e), (resolved_at_ms e); simpl; try done. by apply to_i64_small.
Qed.

Lemma newer_rows st m id e : (∀ id e, m !! id = Some e → entry_ok st id e) → m !! id = Some e →
  newer recent_key (map_to_list (row_of_entry <$> m)) (id, row_of_entry e) = newer closing_key (map_to_list m) (id, e).
Proof.
  intros Hok He. rewrite map_to_list_fmap. unfold newer.
  rewrite length_List_filter_fmap. f_equal. apply List_filter_ext_in. intros [i x] Hx%elem_of_map_to_list.
  unfold key_ltb. simpl. by rewrite (rows_key st i x), (rows_key st id e) by auto.
Qed.

(** The eviction keeps the entries with fewer than 32 closed after them. *)
Lemma evict_newest m : (∀ id e, m !! id = Some e → entry_ok Resolved id e) →
  evict (row_of_entry <$> m) = row_of_entry <$> newest m.
Proof.
  intros Hok. apply map_eq. intros id. apply option_eq. intros r. rewrite evict_lookup, !lookup_fmap, !fmap_Some. split.
  - intros [(e & He & ->) Hr]. exists e. split; [|done]. apply newest_lookup. split; [done|].
    by rewrite <-(newer_rows Resolved) by done.
  - intros (e & [He Hr]%newest_lookup & ->). split; [eauto|]. by rewrite (newer_rows Resolved).
Qed.

Lemma size_evict t : Z.of_nat (size (evict t)) ≤ MAX_RESOLVED_RECENT.
Proof.
  unfold evict. generalize (newest_first t). intros l.
  assert (∀ k : list (string * StoredRow), (size (list_to_map k : gmap string StoredRow) ≤ length k)%nat) as Hk.
  { intros k. induction k as [|[i r] k IH]; simpl; [by rewrite map_size_empty|].
    rewrite map_size_insert. destruct (list_to_map k !! i); simpl; lia. }
  specialize (Hk (take (Z.to_nat MAX_RESOLVED_RECENT) l)). rewrite length_take in Hk. unfold MAX_RESOLVED_RECENT in *. lia.
Qed.

Lemma open_rows_eq L session : log_ok L →
  open_rows_of (tables L) session = (λ e, (e.(call_id), row_of_entry e)) <$> open_of L session.
Proof.
  intros Hok. unfold open_rows_of, open_of. simpl. rewrite map_to_list_fmap.
  assert (∀ x, x ∈ map_to_list L.(live) → entry_ok Open x.1 x.2) as Hl.
  { intros [i e] ?%elem_of_map_to_list. by apply (lok_live L Hok). }
  induction (map_to_list L.(live)) as [|[i e] l IH]; [done|]. csimpl.
  destruct (Hl (i, e) (list_elem_of_here _ _)) as [Hid _ _ _ _ Hst _ _ _ _]. simpl in Hid, Hst. rewrite Hst.
  rewrite IH by (intros; apply Hl; by apply elem_of_cons; right).
  change (str_eqb (pending_status_str Open) "open") with true. rewrite andb_true_r.
  destruct (str_eqb (pe_session e) session); csimpl; [by rewrite Hid|done].
Qed.

Lemma read_row_entries st m id : (∀ id e, m !! id = Some e → entry_ok st id e) →
  read_row (row_of_entry <$> m) id = Ok (m !! id).
Proof.
  intros Hok. unfold read_row. rewrite lookup_fmap. destruct (m !! id) as [e|] eqn:E; simpl; [|done].
  by rewrite (into_entry_row st id e) by auto.
Qed.

Lemma present_rows (m : gmap string PendingEntry) id :
  bool_decide (is_Some ((row_of_entry <$> m) !! id)) = bool_decide (is_Some (m !! id)).
Proof. apply bool_decide_ext. by rewrite lookup_fmap, fmap_is_Some. Qed.

(** Opening refines opening of the log. *)
Lemma begin_refines L req : log_ok L →
  begin (tables L) req = (tables (log_begin L req).1, (log_begin L req).2).
Proof.
  intros Hok. unfold begin, log_begin. destruct (_ || _); [done|]. destruct (out_of_range _); [done|].
  unfold len. rewrite open_rows_eq, length_fmap by done. destruct (_ >=? _); [done|].
  simpl. rewrite !present_rows. destruct (live L !! _) as [e|] eqn:El; simpl; [done|].
  destruct (cached L !! _) as [e|] eqn:Ec; simpl; [done|].
  unfold tables. simpl. by rewrite fmap_insert.
Qed.

Lemma cache_refines L e req : log_ok L → entry_ok Open req.(rs_call_id) e → u63 req.(rs_now) →
  L.(cached) !! req.(rs_call_id) = None →
  insert_resolved_cache (row_of_entry <$> L.(cached)) (closed e req)
  = Ok (row_of_entry <$> newest (<[req.(rs_call_id) := closed e req]> L.(cached))).
Proof.
  intros Hok He Hn Hc. unfold insert_resolved_cache. simpl. rewrite (eok_id _ _ _ He).
  rewrite present_rows, Hc. simpl. f_equal.
  rewrite <-evict_newest, fmap_insert; [done|].
  intros id x. rewrite lookup_insert_Some. intros [[<- <-]|[_ Hx]]; [|by apply (lok_cached L Hok)].
  by destruct He; constructor.
Qed.

(** Closing refines closing of the log: the key of the cache is never taken. *)
Lemma resolve_refines L req : log_ok L → 0 ≤ req.(rs_now) →
  resolve (tables L) req = (tables (log_resolve L req).1, (log_resolve L req).2).
Proof.
  intros Hok Hn. unfold resolve, log_resolve. destruct (negb _); [done|].
  destruct (out_of_range _) eqn:Hr; [done|]. simpl.
  rewrite (read_row_entries Open), (read_row_entries Resolved) by apply Hok.
  destruct (live L !! _) as [e|] eqn:El; [|by destruct (cached L !! _)].
  pose proof (lok_live L Hok _ _ El) as He. rewrite (eok_status _ _ _ He). simpl.
  destruct (_ <? _); [done|]. destruct (negb _); [done|]. fold (closed e req). rewrite cache_refines; try done.
  - unfold tables. simpl. by rewrite fmap_delete.
  - split; [done|]. apply (out_of_range_false _ Hr), list_elem_of_here.
  - by eapply (lok_disjoint L Hok).
Qed.

(** ** The invariant *)

Definition typed_begin (req : PendingBegin) : Prop :=
  WheelSessionId_parse req.(bg_session) = Ok req.(bg_session)
  ∧ 0 ≤ req.(bg_generation) ∧ 0 ≤ req.(bg_epoch) ∧ 0 ≤ req.(bg_now).

Lemma len_filter_perm {A} (f : A → bool) k l : k ≡ₚ l → len (List.filter f k) = len (List.filter f l).
Proof. intros Hp. unfold len. f_equal. induction Hp; simpl; repeat case_match; simpl; congruence. Qed.

Lemma open_insert L id e c m : L.(live) !! id = None →
  len (open_of (mkLog (<[id := e]> L.(live)) c m) e.(pe_session)) = 1 + len (open_of L e.(pe_session))
  ∧ ∀ session, session ≠ e.(pe_session) →
      len (open_of (mkLog (<[id := e]> L.(live)) c m) session) = len (open_of L session).
Proof.
  intros Hid. assert ((map_to_list (<[id := e]> L.(live))).*2 ≡ₚ e :: (map_to_list L.(live)).*2) as Hp
    by (by rewrite map_to_list_insert by done).
  unfold open_of. simpl. split; [|intros session Hne]; rewrite (len_filter_perm _ _ _ Hp); simpl.
  - rewrite (proj2 (str_eqb_eq _ _)) by done. apply len_cons.
  - destruct (str_eqb (pe_session e) session) eqn:E; [|done]. by apply str_eqb_eq in E.
Qed.

Lemma open_delete L id c m session : len (open_of (mkLog (delete id L.(live)) c m) session) ≤ len (open_of L session).
Proof.
  unfold open_of. simpl. destruct (L.(live) !! id) as [e|] eqn:E; [|by rewrite delete_id by done].
  assert ((map_to_list L.(live)).*2 ≡ₚ e :: (map_to_list (delete id L.(live))).*2) as Hp
    by (by rewrite <-(map_to_list_delete _ _ _ E)).
  rewrite (len_filter_perm _ _ _ Hp). simpl. destruct (str_eqb _ _); [rewrite len_cons|]; lia.
Qed.

Lemma log_begin_ok L req : log_ok L → typed_begin req → log_ok (log_begin L req).1.
Proof.
  intros Hok (Hs & Hg & He & Hn). unfold log_begin. destruct (_ || _) eqn:Hv; [done|].
  destruct (out_of_range _) eqn:Hr; [done|]. pose proof (out_of_range_false _ Hr) as Hle.
  destruct (_ >=? _) eqn:Hroom; [done|]. destruct (live L !! _) eqn:El; [done|]. destruct (cached L !! _) eqn:Ec; [done|].
  simpl. rewrite !orb_false_iff, !negb_false_iff in Hv. destruct Hv as [[Hv Ht] Hk].
  constructor; simpl; try apply Hok.
  - intros id e. rewrite lookup_insert_Some. intros [[<- <-]|[_ Hx]]; [|by apply (lok_live L Hok)].
    constructor; try done; simpl; split; try done; apply Hle; rewrite !elem_of_cons; auto.
  - intros id e. rewrite lookup_insert_Some. intros [[<- _]|[_ Hx]]; [done|by eapply (lok_disjoint L Hok)].
  - intros session. destruct (open_insert L _ (opened req) (cached L) (markers L) El) as [Heq Hne].
    destruct (decide (session = bg_session req)) as [->|]; [|rewrite Hne by done; apply (lok_open L Hok)].
    simpl in Heq. rewrite Heq. unfold MAX_OPEN_PENDING_PER_SESSION in *. lia.
Qed.

Lemma log_resolve_ok L req : log_ok L → 0 ≤ req.(rs_now) → log_ok (log_resolve L req).1.
Proof.
  intros Hok Hn. unfold log_resolve. destruct (negb _); [done|]. destruct (out_of_range _) eqn:Hr; [done|].
  destruct (live L !! _) as [e|] eqn:El; [|by destruct (cached L !! _)].
  destruct (_ <? _); [done|]. destruct (negb _); [done|]. simpl.
  pose proof (lok_live L Hok _ _ El) as He. pose proof (lok_disjoint L Hok _ _ El) as Hc.
  assert (u63 req.(rs_now)) as Hu by (split; [done|apply (out_of_range_false _ Hr), list_elem_of_here]).
  assert (∀ id x, <[req.(rs_call_id) := closed e req]> L.(cached) !! id = Some x → entry_ok Resolved id x) as Hres.
  { intros id x. rewrite lookup_insert_Some. intros [[<- <-]|[_ Hx]]; [by destruct He; constructor|by apply (lok_cached L Hok)]. }
  constructor; simpl; try apply Hok.
  - intros id x. rewrite lookup_delete_Some. intros [_ Hx]. by apply (lok_live L Hok).
  - intros id x [Hx _]%newest_lookup. by apply Hres.
  - intros id x. rewrite lookup_delete_Some. intros [Hne Hx]. destruct (newest _ !! id) as [y|] eqn:E; [|done].
    apply newest_lookup in E as [E _]. rewrite lookup_insert_ne in E by done.
    by rewrite (lok_disjoint L Hok _ _ Hx) in E.
  - intros session. etrans; [apply open_delete|apply (lok_open L Hok)].
  - rewrite <-(map_size_fmap row_of_entry), <-evict_newest by done. apply size_evict.
Qed.

(** One call that changes the tables. *)
Inductive pending_step (t : PendingTables) : PendingTables → Prop :=
| step_begin req : typed_begin req → pending_step t (begin t req).1
| step_resolve req : 0 ≤ req.(rs_now) → pending_step t (resolve t req).1
| step_bind_head session now : WheelSessionId_parse session = Ok session → 0 ≤ now →
    pending_step t (bind_head t session now).1
| step_unbind_head session : pending_step t (unbind_head t session).1.

Lemma markers_ok L m : log_ok L → (∀ id n, m !! id = Some n → WheelSessionId_parse id = Ok id ∧ u63 n) →
  Z.of_nat (size m) ≤ MAX_HEAD_MARKERS → log_ok (mkLog L.(live) L.(cached) m).
Proof. intros [] Hm Hs. by constructor. Qed.

Lemma pending_step_ok L t' : log_ok L → pending_step (tables L) t' → ∃ L', t' = tables L' ∧ log_ok L'.
Proof.
  intros Hok Hs. destruct Hs as [req Hreq|req Hn|session now Hp Hn|session].
  - rewrite begin_refines by done. eexists. split; [done|by apply log_begin_ok].
  - rewrite resolve_refines by done. eexists. split; [done|by apply log_resolve_ok].
  - unfold bind_head. destruct (out_of_range _) eqn:Hr; [by exists L|]. case_bool_decide as Hnew; [by exists L|].
    destruct (_ >=? _) eqn:Hroom; [by exists L|]. apply eq_None_not_Some in Hnew.
    assert (u63 now) as Hu by (split; [done|apply (out_of_range_false _ Hr), list_elem_of_here]). simpl in *.
    exists (mkLog L.(live) L.(cached) (<[session := to_i64 now]> L.(markers))). split; [done|].
    apply markers_ok; [done| |].
    + intros id n. rewrite lookup_insert_Some. intros [[<- <-]|[_ Hx]]; [|by apply (lok_markers L Hok)].
      split; [done|]. by rewrite to_i64_small.
    + rewrite map_size_insert_None by done. lia.
  - unfold unbind_head. case_bool_decide as Hhas; [|by exists L]. simpl in *.
    exists (mkLog L.(live) L.(cached) (delete session L.(markers))). split; [done|]. apply markers_ok; [done| |].
    + intros id n. rewrite lookup_delete_Some. intros [_ Hx]. by apply (lok_markers L Hok).
    + pose proof (lok_heads L Hok). rewrite map_size_delete_Some by done. lia.
Qed.

Lemma pending_reachable_ok t : rtc pending_step pending_new t → ∃ L, t = tables L ∧ log_ok L.
Proof.
  assert (log_ok (mkLog ∅ ∅ ∅)) as Hemp.
  { constructor; simpl; try (intros *; by rewrite lookup_empty); try (by rewrite map_size_empty).
    intros session. unfold open_of. simpl. by rewrite map_to_list_empty. }
  intros Hs. assert (pending_new = tables (mkLog ∅ ∅ ∅)) as E by (unfold tables; simpl; by rewrite fmap_empty).
  rewrite E in Hs. clear E. revert Hemp Hs. generalize (mkLog ∅ ∅ ∅). intros L Hok Hs.
  remember (tables L) as t0 eqn:Et. revert L Hok Et.
  induction Hs as [|t0 t1 t Hstep _ IH]; intros L Hok ->; [by exists L|].
  destruct (pending_step_ok L t1 Hok Hstep) as (L' & -> & Hok'). by eapply IH.
Qed.

(** ** Reads *)

Lemma entries_of_rows_total l : (∀ x, x ∈ l → ∃ e, entry_ok Open x.1 e ∧ x.2 = row_of_entry e) →
  ∃ es, entries_of_rows l = Ok es ∧ l = (λ e, (e.(call_id), row_of_entry e)) <$> es
    ∧ ∀ e, e ∈ es → entry_ok Open e.(call_id) e.
Proof.
  induction l as [|[id r] l IH]; intros Hl.
  { exists []. split_and!; [done|done|]. by intros e ?%elem_of_nil. }
  destruct IH as (es & E & -> & Hes); [intros; apply Hl; by apply elem_of_cons; right|].
  destruct (Hl (id, r) (list_elem_of_here _ _)) as (e & He & Hr). simpl in He, Hr. subst r.
  exists (e :: es). simpl. rewrite (into_entry_row _ _ _ He). simpl. rewrite E. simpl.
  pose proof (eok_id _ _ _ He) as Hid. split_and!; [done|csimpl; by rewrite Hid|].
  intros x [->|Hx]%elem_of_cons; [by rewrite Hid|by apply Hes].
Qed.

Lemma no_bogus (f : string * StoredRow → bool) L : log_ok L →
  existsb (λ r, f r && bogus_status r.2) (map_to_list (row_of_entry <$> L.(live))) = false.
Proof.
  intros Hok. apply existsb_false_iff. intros [id r] Hr. rewrite map_to_list_fmap in Hr.
  apply list_elem_of_fmap in Hr as ([i e] & [= -> ->] & He%elem_of_map_to_list). simpl.
  unfold bogus_status. simpl. rewrite (eok_status _ _ _ (lok_live L Hok _ _ He)). apply andb_false_r.
Qed.

Definition begun_key (e : PendingEntry) : Z * string := (e.(begun_at_ms), e.(call_id)).

Lemma open_of_elem L session e : log_ok L →
  e ∈ open_of L session ↔ L.(live) !! e.(call_id) = Some e ∧ e.(pe_session) = session.
Proof.
  intros Hok. unfold open_of. rewrite List_filter_elem, str_eqb_eq, list_elem_of_fmap. split.
  - intros [([i x] & -> & Hx%elem_of_map_to_list) ?]. simpl in *. by rewrite (eok_id _ _ _ (lok_live L Hok _ _ Hx)).
  - intros [He ?]. split; [|done]. exists (call_id e, e). split; [done|]. by apply elem_of_map_to_list.
Qed.

Definition keyed (e : PendingEntry) : string * StoredRow := (e.(call_id), row_of_entry e).

Lemma keyed_inj a b : entry_ok Open a.(call_id) a → entry_ok Open b.(call_id) b → keyed a = keyed b → a = b.
Proof.
  intros Ha%into_entry_row Hb%into_entry_row [= Hid Hr]. rewrite Hid in Ha. unfold row_of_entry in *. congruence.
Qed.

Lemma keyed_elem k l e : keyed <$> k ≡ₚ keyed <$> l → (∀ e, e ∈ k → entry_ok Open e.(call_id) e) →
  (∀ e, e ∈ l → entry_ok Open e.(call_id) e) → e ∈ k → e ∈ l.
Proof.
  intros Hp Hk Hl He. assert (keyed e ∈ keyed <$> l) as Hin by (rewrite <-Hp; apply list_elem_of_fmap; eauto).
  apply list_elem_of_fmap in Hin as (e' & HF & He'). apply keyed_inj in HF as ->; auto.
Qed.

Lemma keyed_sorted es : (∀ e, e ∈ es → entry_ok Open e.(call_id) e) →
  StronglySorted (key_lt (λ r : string * StoredRow, (r.2.(sr_begun), r.1))) (keyed <$> es) →
  StronglySorted (key_lt begun_key) es.
Proof.
  induction es as [|e es IH]; intros Hok Hs; [constructor|]. inversion_clear Hs as [|? ? Hs' Hall]. constructor.
  - apply IH; [|done]. intros x Hx. apply Hok. by apply elem_of_cons; right.
  - apply Forall_forall. intros x Hx. rewrite Forall_fmap, Forall_forall in Hall. specialize (Hall x Hx).
    unfold key_lt, begun_key in *. simpl in Hall.
    rewrite !to_i64_small in Hall; [done| |]; eapply (eok_begun Open), Hok; [|apply list_elem_of_here].
    by apply elem_of_cons; right.
Qed.

Lemma open_ids_NoDup L session : log_ok L → NoDup (call_id <$> open_of L session).
Proof.
  intros Hok. apply NoDup_map_filter.
  assert (map call_id (map_to_list L.(live)).*2 = (map_to_list L.(live)).*1) as ->; [|apply NoDup_fst_map_to_list].
  change (map call_id) with (fmap (M := list) call_id). rewrite <-list_fmap_compose. apply list_fmap_ext. intros i [id e] He%list_elem_of_lookup_2.
  apply elem_of_map_to_list in He. simpl. apply (eok_id _ _ _ (lok_live L Hok _ _ He)).
Qed.

(** [list_open] returns the open calls of the session, oldest first, and no others. *)
Lemma list_open_exact L session : log_ok L →
  ∃ es, list_open (tables L) session = Ok es ∧ StronglySorted (key_lt begun_key) es
    ∧ len es ≤ MAX_OPEN_PENDING_PER_SESSION
    ∧ ∀ e, e ∈ es ↔ L.(live) !! e.(call_id) = Some e ∧ e.(pe_session) = session.
Proof.
  intros Hok. unfold list_open. rewrite (open_rows_eq L session Hok). fold keyed.
  set (key := λ r : string * StoredRow, (r.2.(sr_begun), r.1)).
  assert (∀ e, e ∈ open_of L session → entry_ok Open e.(call_id) e) as Hopen.
  { intros e [He _]%open_of_elem; [|done]. by apply (lok_live L Hok). }
  destruct (entries_of_rows_total (sort_by_key key (keyed <$> open_of L session))) as (es & E & Hes & Hall).
  { intros x. rewrite sort_by_key_perm. intros (e & -> & He)%list_elem_of_fmap. exists e. split; [by apply Hopen|done]. }
  fold keyed in Hes. exists es. rewrite E. simpl.
  rewrite (no_bogus (λ r, str_eqb r.2.(sr_session) session)) by done.
  assert (keyed <$> es ≡ₚ keyed <$> open_of L session) as Hp by (rewrite <-Hes; apply sort_by_key_perm).
  split_and!; [done| | |].
  - apply keyed_sorted; [done|]. rewrite <-Hes. apply sort_by_key_strict. apply (NoDup_fmap_1 snd).
    change (map key) with (fmap (M := list) key). rewrite <-!list_fmap_compose. by apply open_ids_NoDup.
  - apply Permutation_length in Hp. rewrite !length_fmap in Hp. unfold len. rewrite Hp. apply (lok_open L Hok).
  - intros e. rewrite <-open_of_elem by done. split; apply keyed_elem; done.
Qed.

(** [get] finds a call that is open or in the cache. *)
Lemma get_exact L id : log_ok L → valid_call_id id = true →
  get (tables L) id = Ok (match L.(live) !! id with Some e => Some e | None => L.(cached) !! id end).
Proof.
  intros Hok Hv. unfold get. rewrite Hv. simpl. rewrite (read_row_entries Open) by apply Hok.
  destruct (live L !! id); [done|]. simpl. by rewrite (read_row_entries Resolved) by apply Hok.
Qed.

(** [open_blob_roots] returns the digests of all open calls. *)
Lemma open_blob_roots_exact L : log_ok L →
  ∃ roots, open_blob_roots (tables L) = Ok roots
    ∧ ∀ h, h ∈ roots ↔ h ≠ tombstone_hash ∧ ∃ id e, L.(live) !! id = Some e ∧ e.(args_digest) = h.
Proof.
  intros Hok. unfold open_blob_roots. simpl. rewrite map_to_list_fmap.
  destruct (entries_of_rows_total (List.filter (λ r, str_eqb r.2.(sr_status) "open")
    (prod_map id row_of_entry <$> map_to_list (live L)))) as (es & -> & Hes & Hall).
  { intros x. rewrite List_filter_elem. intros [([i e] & -> & He%elem_of_map_to_list)%list_elem_of_fmap _].
    exists e. split; [by apply (lok_live L Hok)|done]. }
  simpl. rewrite <-map_to_list_fmap. pose proof (no_bogus (λ _, true) L Hok) as Hb. simpl in Hb. rewrite Hb.
  eexists. split; [done|]. intros h. rewrite sorted_set_elem.
  change (map args_digest) with (fmap (M := list) args_digest). rewrite list_elem_of_fmap.
  assert (∀ e, e ∈ es ↔ live L !! call_id e = Some e) as Hel.
  { intros e. split.
    - intros He. assert (keyed e ∈ keyed <$> es) as Hin by (apply list_elem_of_fmap; eauto).
      fold keyed in Hes. rewrite <-Hes, List_filter_elem in Hin. destruct Hin as [Hin _].
      apply list_elem_of_fmap in Hin as ([i x] & Hx & Hlx%elem_of_map_to_list). injection Hx as Hid Hrow.
      pose proof (lok_live L Hok _ _ Hlx) as Hxo. pose proof (eok_id _ _ _ Hxo) as Hix.
      simpl in Hid. subst i. rewrite (keyed_inj e x); [by rewrite Hix|by apply Hall|by rewrite Hix|].
      unfold keyed, row_of_entry. congruence.
    - intros He. pose proof (lok_live L Hok _ _ He) as Ho. assert (keyed e ∈ keyed <$> es) as Hin.
      { fold keyed in Hes. rewrite <-Hes. apply List_filter_elem. split; [|simpl; by rewrite (eok_status _ _ _ Ho)].
        apply list_elem_of_fmap. exists (call_id e, e). split; [done|]. by apply elem_of_map_to_list. }
      apply list_elem_of_fmap in Hin as (x & Hx & Hin). apply keyed_inj in Hx as ->; auto. }
  split.
  - intros (e & -> & He). rewrite List_filter_elem, andb_true_iff, negb_true_iff in He. destruct He as (He & _ & Ht).
    split; [intros Et; by rewrite (proj2 (str_eqb_eq _ _) Et) in Ht|]. apply Hel in He. eauto.
  - intros (Hne & id & e & He & <-). pose proof (lok_live L Hok _ _ He) as Ho. exists e. split; [done|].
    rewrite List_filter_elem, andb_true_iff, negb_true_iff. split_and!.
    + apply Hel. by rewrite (eok_id _ _ _ Ho).
    + rewrite (eok_status _ _ _ Ho). done.
    + destruct (str_eqb _ _) eqn:E; [|done]. by apply str_eqb_eq in E.
Qed.

Lemma list_head_sessions_exact L : log_ok L →
  ∃ l, list_head_sessions (tables L) = Ok l ∧ ∀ id, id ∈ l ↔ is_Some (L.(markers) !! id).
Proof.
  intros Hok. unfold list_head_sessions. simpl. set (l := sort_by_key fst (map_to_list (markers L))).
  assert (length l ≤ Z.to_nat MAX_HEAD_MARKERS)%nat as Hlen.
  { unfold l. rewrite sort_by_key_perm, length_map_to_list. pose proof (lok_heads L Hok). lia. }
  rewrite take_ge by done.
  assert (∀ x, x ∈ l ↔ L.(markers) !! x.1 = Some x.2) as Hin.
  { intros [i n]. unfold l. by rewrite sort_by_key_perm, elem_of_map_to_list. }
  assert (markers_of l = Ok l.*1) as ->.
  { assert (∀ x, x ∈ l → L.(markers) !! x.1 = Some x.2) as Hl by (intros; by apply Hin).
    clear Hin Hlen. induction l as [|[i n] l IH]; [done|]. simpl.
    destruct (lok_markers L Hok i n (Hl _ (list_elem_of_here _ _))) as [-> Hn].
    rewrite (proj2 (Z.ltb_ge _ _)) by apply Hn. rewrite IH; [done|]. intros x Hx. apply Hl. by apply elem_of_cons; right. }
  eexists. split; [done|]. intros id. rewrite list_elem_of_fmap. split.
  - intros (x & -> & Hx%Hin). eauto.
  - intros [n Hn]. exists (id, n). split; [done|]. by apply Hin.
Qed.


(** C18: the log of calls in flight refines a log without rows: over every history of
    begins, resolves and markers, the tables are the rows of well-formed entries within
    the caps (32 open per session, 32 recent, 32 markers), opening and closing act as on
    the entries (no row is ever unreadable, no cache key is ever taken, the cache keeps
    the 32 last closed), and every read is total and exact. *)
Theorem pending_log_refines t : rtc pending_step pending_new t → ∃ L, t = tables L ∧ log_ok L
  ∧ (∀ req, begin t req = (tables (log_begin L req).1, (log_begin L req).2))
  ∧ (∀ req, 0 ≤ req.(rs_now) → resolve t req = (tables (log_resolve L req).1, (log_resolve L req).2))
  ∧ (∀ id, valid_call_id id = true →
       get t id = Ok (match L.(live) !! id with Some e => Some e | None => L.(cached) !! id end))
  ∧ (∀ session, ∃ es, list_open t session = Ok es ∧ StronglySorted (key_lt begun_key) es
       ∧ len es ≤ MAX_OPEN_PENDING_PER_SESSION
       ∧ ∀ e, e ∈ es ↔ L.(live) !! e.(call_id) = Some e ∧ e.(pe_session) = session)
  ∧ (∃ roots, open_blob_roots t = Ok roots
       ∧ ∀ h, h ∈ roots ↔ h ≠ tombstone_hash ∧ ∃ id e, L.(live) !! id = Some e ∧ e.(args_digest) = h)
  ∧ (∃ l, list_head_sessions t = Ok l ∧ ∀ id, id ∈ l ↔ is_Some (L.(markers) !! id)).
Proof.
  intros (L & -> & Hok)%pending_reachable_ok. exists L. split_and!; try done.
  - intros req. by apply begin_refines.
  - intros req Hn. by apply resolve_refines.
  - intros id Hv. by apply get_exact.
  - intros session. by apply list_open_exact.
  - by apply open_blob_roots_exact.
  - by apply list_head_sessions_exact.
Qed.

(** Fenced: the claim is current and the generation is that of the call. *)
Definition may_close (e : PendingEntry) (req : PendingResolve) : bool :=
  (e.(pe_epoch) <=? req.(rs_claim_epoch)) && (req.(rs_generation) =? e.(pe_generation)).

Lemma get_cases L id e : log_ok L → valid_call_id id = true → get (tables L) id = Ok (Some e) →
  e.(pe_status) = Open ∧ L.(live) !! id = Some e
  ∨ e.(pe_status) = Resolved ∧ L.(live) !! id = None ∧ L.(cached) !! id = Some e ∧ is_Some e.(disposition).
Proof.
  intros Hok Hv. rewrite get_exact by done. destruct (live L !! id) as [x|] eqn:El; intros [= E].
  - subst x. left. split; [|done]. apply (eok_status _ _ _ (lok_live L Hok _ _ El)).
  - right. destruct (lok_cached L Hok _ _ E) as [_ _ _ _ _ Hst Hc _ _ _]. split_and!; try done.
    by destruct (disposition e).
Qed.

Lemma log_resolve_open L req e : log_ok L → valid_call_id req.(rs_call_id) = true → u63 req.(rs_now) →
  L.(live) !! req.(rs_call_id) = Some e →
  log_resolve L req = if may_close e req
    then (mkLog (delete req.(rs_call_id) L.(live)) (newest (<[req.(rs_call_id) := closed e req]> L.(cached)))
            L.(markers), Ok (closed e req))
    else (L, Err (if req.(rs_claim_epoch) <? e.(pe_epoch)
                  then PendingStaleEpoch req.(rs_claim_epoch) e.(pe_epoch)
                  else PendingStaleGeneration e.(pe_generation) req.(rs_generation))).
Proof.
  intros Hok Hv Hn He. unfold log_resolve, out_of_range, may_close. rewrite Hv, He. simpl.
  assert ((req.(rs_now) >? i64_max) = false) as -> by (unfold u63 in Hn; lia). simpl.
  rewrite Z.leb_antisym. destruct (_ <? _); [done|]. by destruct (_ =? _).
Qed.

(** The entry just closed stays in the cache unless 32 closed entries are newer. *)
Lemma newest_kept L id e : log_ok L → L.(cached) !! id = None →
  (∀ i x n, L.(cached) !! i = Some x → x.(resolved_at_ms) = Some n → n < default 0 e.(resolved_at_ms)) →
  newest (<[id := e]> L.(cached)) !! id = Some e.
Proof.
  intros Hok Hid Hold. apply newest_lookup. rewrite lookup_insert_eq. split; [done|].
  assert (newer closing_key (map_to_list (<[id := e]> (cached L))) (id, e) = 0%nat) as ->; [|done].
  unfold newer. rewrite filter_all_false; [done|]. intros [i x] Hx%elem_of_map_to_list.
  destruct (key_ltb closing_key (id, e) (i, x)) eqn:E; [|done]. exfalso. apply key_ltb_true in E.
  rewrite lookup_insert_Some in Hx. destruct Hx as [[<- <-]|[_ Hx]]; [by apply key_lt_irrefl in E|].
  destruct (lok_cached L Hok _ _ Hx) as [_ _ _ _ _ _ Hc _ _ _].
  destruct (disposition x), (resolved_at_ms x) as [n|] eqn:En; try done.
  specialize (Hold _ _ _ Hx En). unfold key_lt, closing_key in E. simpl in E. rewrite En in E. simpl in E.
  unfold pair_compare in E. simpl in E. destruct (Z.compare_spec (default 0 (resolved_at_ms e)) n); try done; lia.
Qed.

Definition after_close (L : Log) (e : PendingEntry) (req : PendingResolve) : Log :=
  mkLog (delete req.(rs_call_id) L.(live)) (newest (<[req.(rs_call_id) := closed e req]> L.(cached))) L.(markers).

Lemma settle_again_closed L e req : log_ok L → valid_call_id req.(rs_call_id) = true → u63 req.(rs_now) →
  L.(live) !! req.(rs_call_id) = None → L.(cached) !! req.(rs_call_id) = Some e →
  log_resolve L req = (L, settle_again e req.(rs_disposition)).
Proof.
  intros Hok Hv Hn El Ec. unfold log_resolve, out_of_range. rewrite Hv, El, Ec. simpl.
  by assert ((req.(rs_now) >? i64_max) = false) as -> by (unfold u63 in Hn; lia).
Qed.

(** The reads after a closing. *)
Lemma after_close_reads L e req : log_ok L → log_ok (after_close L e req) →
  valid_call_id req.(rs_call_id) = true → L.(live) !! req.(rs_call_id) = Some e →
  (∀ session es, list_open (tables (after_close L e req)) session = Ok es → e ∉ es)
  ∧ (∀ id x, valid_call_id id = true → id ≠ req.(rs_call_id) → get (tables L) id = Ok (Some x) →
       x.(pe_status) = Open → get (tables (after_close L e req)) id = Ok (Some x))
  ∧ (get (tables (after_close L e req)) req.(rs_call_id) = Ok (Some (closed e req))
     ∨ get (tables (after_close L e req)) req.(rs_call_id) = Ok None).
Proof.
  intros Hok Hok' Hv El. pose proof (lok_live L Hok _ _ El) as He. split_and!.
  - intros session es E Hin. destruct (list_open_exact _ session Hok') as (es' & E' & _ & _ & Hes).
    rewrite E in E'. injection E' as <-. apply Hes in Hin as [Hin _]. simpl in Hin.
    by rewrite (eok_id _ _ _ He), lookup_delete_eq in Hin.
  - intros id x Hid Hne Hg Ho. rewrite get_exact by done. simpl. rewrite lookup_delete_ne by done.
    destruct (get_cases L id x Hok Hid Hg) as [[_ ->]|(Hr & _)]; [done|congruence].
  - rewrite get_exact by done. simpl. rewrite lookup_delete_eq. destruct (newest _ !! _) as [x|] eqn:E; [left|by right].
    apply newest_lookup in E as [E _]. rewrite lookup_insert_eq in E. by injection E as <-.
Qed.

(** A retry after a closing. *)
Lemma after_close_retry L e req : log_ok L → log_ok (after_close L e req) →
  valid_call_id req.(rs_call_id) = true → u63 req.(rs_now) → L.(live) !! req.(rs_call_id) = Some e →
  (∀ id x n, get (tables L) id = Ok (Some x) → x.(resolved_at_ms) = Some n → n < req.(rs_now)) →
  resolve (tables (after_close L e req)) req = (tables (after_close L e req), Ok (closed e req)).
Proof.
  intros Hok Hok' Hv Hn El Hold. rewrite resolve_refines by (done || apply Hn).
  rewrite (settle_again_closed _ (closed e req)); try done; simpl; [|by rewrite lookup_delete_eq|].
  - unfold settle_again. simpl. by rewrite bool_decide_true.
  - apply newest_kept; [done|by eapply (lok_disjoint L Hok)|]. simpl. intros i x n Hx Hr. apply (Hold i x n); [|done].
    rewrite get_exact; [|done|apply (eok_valid _ _ _ (lok_cached L Hok _ _ Hx))].
    destruct (live L !! i) as [y|] eqn:Ey; [|by rewrite Hx]. by rewrite (lok_disjoint L Hok _ _ Ey) in Hx.
Qed.


End Log.
