(* ===== verification/ContextTree.v ===== *)
(** * ContextTree: named slots, their canonical bytes and the three-way merge

    Models the tree half of [context_compiler.rs] of [crates/bitty-ai-slice]: entries,
    the map from slots to entries, the canonical encoding and its decoder, differences
    and the three-way merge, and the seam [ContextTreeMerge] that [merge.rs] uses. *)

From stdpp Require Import gmap.
From S2P Require Import Prelude Text Order Wire ObjectStore.

Local Open Scope Z_scope.
Local Open Scope rust_scope.

Definition MAX_SLOT_NAME_BYTES : Z := 256.

Inductive CompilerError :=
| Zone1BudgetExceeded (size max : Z)
| UntrustedInZone1 (field : string)
| TotalBudgetExceeded (size max : Z)
| OversizedSlotName (name : string) (max : Z)
| InvalidSlotName (name : string)
| CorruptedTree (msg : string).

Inductive EntryKind := KBlob | KTree.

#[export] Instance EntryKind_eq_dec : EqDecision EntryKind.
Proof. solve_decision. Defined.

(** [EntryKind::as_u8] *)
Definition as_u8 (k : EntryKind) : Z := match k with KBlob => 1 | KTree => 2 end.

Record TreeEntry := mkEntry {
  te_name : string;
  te_hash : ContentHash;
  te_kind : EntryKind;
  size_bytes : Z
}.

#[export] Instance TreeEntry_eq_dec : EqDecision TreeEntry.
Proof. solve_decision. Defined.

Definition slot_byte (b : ascii) : bool := negb ((byte_val b <? 32) || (byte_val b =? 127)).

(** [TreeEntry::new] *)
Definition TreeEntry_new (name : string) (hash : ContentHash) (kind : EntryKind) (size : Z) :
    result TreeEntry CompilerError :=
  let name_str := trim name in
  if is_empty name_str then Err (InvalidSlotName name_str)
  else if slen name_str >? MAX_SLOT_NAME_BYTES then Err (OversizedSlotName name_str MAX_SLOT_NAME_BYTES)
  else if negb (str_forall slot_byte name_str) then Err (InvalidSlotName name_str)
  else Ok (mkEntry name_str hash kind size).

(** [ContextTree]: a [BTreeMap] of entries. *)
Abbreviation ContextTree := (gmap string TreeEntry).

Definition tree_insert (t : ContextTree) (e : TreeEntry) : ContextTree := <[e.(te_name) := e]> t.

(** [entries]: in the order of the slots. *)
Definition slots (t : ContextTree) : list (string * TreeEntry) := sort_by_key fst (map_to_list t).
Definition tree_entries (t : ContextTree) : list TreeEntry := (slots t).*2.

(** ** Canonical bytes *)

Definition TREE_MAGIC : bytes := as_bytes "tree:v1" ++ [Ascii.zero].

Definition entry_bytes (e : TreeEntry) : bytes :=
  let name := as_bytes e.(te_name) in
  to_be_bytes 4 (len name) ++ name ++ as_bytes e.(te_hash) ++ to_be_bytes 1 (as_u8 e.(te_kind))
  ++ to_be_bytes 8 e.(size_bytes).

(** [canonical_bytes] *)
Definition canonical_bytes (t : ContextTree) : bytes :=
  TREE_MAGIC ++ concat (map entry_bytes (tree_entries t)).

(** One turn of the loop of [from_canonical_bytes]: an entry and the bytes after it.
    The text of a UTF-8 error leaves out its position. *)
Definition decode_entry (l : bytes) : result (TreeEntry * bytes) CompilerError :=
  if 4 >? len l then Err (CorruptedTree "unexpected EOF reading slot name length")
  else
    let name_len := from_be_bytes (take 4 l) in
    let l := drop 4 l in
    if name_len + 32 + 1 + 8 >? len l then Err (CorruptedTree "unexpected EOF reading tree entry payload")
    else
      match from_utf8 (take (Z.to_nat name_len) l) with
      | None => Err (CorruptedTree "invalid UTF-8 in slot name")
      | Some name_str =>
          let l := drop (Z.to_nat name_len) l in
          let hash := of_bytes (take 32 l) in
          let l := drop 32 l in
          let kind_byte := from_be_bytes (take 1 l) in
          let l := drop 1 l in
          try! kind := (if kind_byte =? 1 then Ok KBlob else if kind_byte =? 2 then Ok KTree
                        else Err (CorruptedTree ("unknown entry kind tag: " +:+ show kind_byte))) in
          let size_bytes := from_be_bytes (take 8 l) in
          try! entry := TreeEntry_new name_str hash kind size_bytes in
          Ok (entry, drop 8 l)
      end.

Fixpoint decode_loop (fuel : nat) (l : bytes) (entries : ContextTree) : run (result ContextTree CompilerError) :=
  match l with
  | [] => Returned (Ok entries)
  | _ =>
      match fuel with
      | O => OutOfFuel
      | S fuel =>
          match decode_entry l with
          | Err e => Returned (Err e)
          | Ok (entry, l) => decode_loop fuel l (tree_insert entries entry)
          end
      end
  end.

(** [from_canonical_bytes] *)
Definition from_canonical_bytes (l : bytes) : run (result ContextTree CompilerError) :=
  if (len l <? len TREE_MAGIC) || negb (bool_decide (take (length TREE_MAGIC) l = TREE_MAGIC))
  then Returned (Err (CorruptedTree "invalid context tree magic header"))
  else decode_loop (length l) (drop (length TREE_MAGIC) l) ∅.

(** [digest] *)
Definition tree_digest `{ContentApi} (t : ContextTree) : ContentHash := sha256 (canonical_bytes t).

(** ** Differences and merging *)

Record TreeDiff := mkDiff {
  added : list TreeEntry;
  modified : list (TreeEntry * TreeEntry);
  removed : list TreeEntry
}.

(** [diff] *)
Definition diff (base target : ContextTree) : TreeDiff :=
  mkDiff
    (omap (λ x, match base !! x.1 with None => Some x.2 | Some _ => None end) (slots target))
    (omap (λ x, match base !! x.1 with
                | Some b => if bool_decide (b = x.2) then None else Some (b, x.2)
                | None => None
                end) (slots target))
    (omap (λ x, match target !! x.1 with None => Some x.2 | Some _ => None end) (slots base)).

Definition diff_is_empty (d : TreeDiff) : bool :=
  match d.(added), d.(modified), d.(removed) with [], [], [] => true | _, _, _ => false end.

Record SlotConflict := mkConflict {
  sc_slot : string;
  sc_base : option TreeEntry;
  sc_ours : option TreeEntry;
  sc_theirs : option TreeEntry
}.

Record TreeMergeResult := mkMerge { merged : ContextTree; conflicts : list SlotConflict }.

(** The arms of the match of [merge_3way]: insert an entry, leave the slot out, or a conflict. *)
Inductive slot_outcome := Keep (e : TreeEntry) | Drop | Conflict.

Definition merge_slot (b o t : option TreeEntry) : slot_outcome :=
  match b, o, t with
  | Some bv, Some ov, Some tv =>
      if bool_decide (ov = bv) && bool_decide (tv = bv) then Keep bv
      else if bool_decide (tv = bv) && negb (bool_decide (ov = bv)) then Keep ov
      else if bool_decide (ov = bv) && negb (bool_decide (tv = bv)) then Keep tv
      else if bool_decide (ov = tv) then Keep ov
      else Conflict
  | None, Some ov, None => Keep ov
  | None, None, Some tv => Keep tv
  | None, Some ov, Some tv => if bool_decide (ov = tv) then Keep ov else Conflict
  | Some bv, None, Some tv => if bool_decide (tv = bv) then Drop else Conflict
  | Some bv, Some ov, None => if bool_decide (ov = bv) then Drop else Conflict
  | Some _, None, None => Drop
  | None, None, None => Conflict
  end.

(** The loop over the slots. *)
Fixpoint merge_slots (base ours theirs : ContextTree) (keys : list string) (acc : TreeMergeResult) : TreeMergeResult :=
  match keys with
  | [] => acc
  | key :: keys =>
      let b := base !! key in
      let o := ours !! key in
      let t := theirs !! key in
      merge_slots base ours theirs keys
        match merge_slot b o t with
        | Keep e => mkMerge (tree_insert acc.(merged) e) acc.(conflicts)
        | Drop => acc
        | Conflict => mkMerge acc.(merged) (acc.(conflicts) ++ [mkConflict key b o t])
        end
  end.

(** [merge_3way] *)
Definition merge_3way (base ours theirs : ContextTree) : TreeMergeResult :=
  let all_keys := sorted_set (λ s : string, s) ((slots base).*1 ++ (slots ours).*1 ++ (slots theirs).*1) in
  merge_slots base ours theirs all_keys (mkMerge ∅ []).

(** [slot_payload_refs] *)
Definition slot_payload_refs (t : ContextTree) : list (ContentHash * bool) :=
  map (λ e, (e.(te_hash), bool_decide (e.(te_kind) = KTree))) (tree_entries t).
