(* ===== verification/TreeFacts.v ===== *)
(** * TreeFacts: the canonical encoding and the three-way merge of context trees

    Every tree that the code can build or decode is well formed; a well-formed tree is read back from its canonical
    bytes; the merge decides each slot on its own, is symmetric and loses no change. *)

From stdpp Require Import gmap.
From S2P Require Import Prelude Text Order Wire Manifest ObjectStore ContextTree.

Local Open Scope Z_scope.
Local Open Scope rust_scope.

(** ** Well-formed trees *)

Record entry_wf (e : TreeEntry) : Prop := {
  ewf_str : is_str e.(te_name);
  ewf_trim : trim e.(te_name) = e.(te_name);
  ewf_nonempty : is_empty e.(te_name) = false;
  ewf_len : slen e.(te_name) ≤ MAX_SLOT_NAME_BYTES;
  ewf_bytes : str_forall slot_byte e.(te_name) = true;
  ewf_hash : is_hash e.(te_hash);
  ewf_size : 0 ≤ e.(size_bytes) < 2 ^ 64
}.

Definition tree_wf (t : ContextTree) : Prop := ∀ k e, t !! k = Some e → e.(te_name) = k ∧ entry_wf e.

(** [TreeEntry::new] is the identity on the parts of a well-formed entry, and yields
    only well-formed entries. *)
Lemma TreeEntry_new_id e : entry_wf e →
  TreeEntry_new e.(te_name) e.(te_hash) e.(te_kind) e.(size_bytes) = Ok e.
Proof.
  intros [_ Ht He Hl Hb _ _]. unfold TreeEntry_new. rewrite Ht, He, Hb. simpl.
  destruct (Z.gtb_spec (slen (te_name e)) MAX_SLOT_NAME_BYTES); [lia|]. by destruct e.
Qed.

Lemma TreeEntry_new_wf n h k size e : is_str n → is_hash h → 0 ≤ size < 2 ^ 64 →
  TreeEntry_new n h k size = Ok e → entry_wf e.
Proof.
  intros Hn Hh Hs. unfold TreeEntry_new. destruct (is_empty (trim n)) eqn:He; [done|].
  destruct (Z.gtb_spec (slen (trim n)) MAX_SLOT_NAME_BYTES); [done|].
  destruct (str_forall slot_byte (trim n)) eqn:Hb; simpl; [|done]. intros [= <-].
  constructor; simpl; try done; [by apply trim_is_str|apply trim_idem].
Qed.

Lemma tree_insert_wf t e : tree_wf t → entry_wf e → tree_wf (tree_insert t e).
Proof. intros Ht He k x. unfold tree_insert. rewrite lookup_insert_Some. intros [[<- <-]|[_ Hx]]; [done|by apply Ht]. Qed.

(** ** The codec *)

Lemma kind_byte k : from_be_bytes (to_be_bytes 1 (as_u8 k)) = as_u8 k.
Proof. by destruct k. Qed.

Lemma decode_entry_bytes e r : entry_wf e → decode_entry (entry_bytes e ++ r) = Ok (e, r).
Proof.
  intros He. pose proof He as [Hs _ _ Hl _ Hh Hz]. unfold decode_entry, entry_bytes.
  set (n := as_bytes (te_name e)). assert (len n = slen (te_name e)) as Hn by apply slen_as_bytes.
  assert (0 ≤ len n < 256 ^ Z.of_nat 4) as Hb by (split; [apply len_nonneg|unfold MAX_SLOT_NAME_BYTES in Hl; lia]).
  assert (length (as_bytes (te_hash e)) = 32%nat) as Hh' by (unfold is_hash, slen in Hh; rewrite as_bytes_length; lia).
  rewrite <-!app_assoc.
  assert (∀ k v x, take k (to_be_bytes k v ++ x) = to_be_bytes k v ∧ drop k (to_be_bytes k v ++ x) = x) as Hbe.
  { intros k v x. by rewrite take_app_length', drop_app_length' by by rewrite length_to_be. }
  destruct (Z.gtb_spec 4 (len (to_be_bytes 4 (len n) ++ n ++ as_bytes (te_hash e) ++
    to_be_bytes 1 (as_u8 (te_kind e)) ++ to_be_bytes 8 (size_bytes e) ++ r))) as [Hbad|_].
  { unfold len in Hbad. rewrite length_app, length_to_be in Hbad. lia. }
  rewrite (proj1 (Hbe _ _ _)), (proj2 (Hbe _ _ _)), from_to_be by done.
  destruct (Z.gtb_spec (len n + 32 + 1 + 8) (len (n ++ as_bytes (te_hash e) ++
    to_be_bytes 1 (as_u8 (te_kind e)) ++ to_be_bytes 8 (size_bytes e) ++ r))) as [Hbad|_].
  { unfold len in Hbad. rewrite !length_app, !length_to_be, Hh' in Hbad. lia. }
  assert (Z.to_nat (len n) = length n) as -> by (unfold len; lia).
  rewrite take_app_length, drop_app_length. unfold n at 1.
  rewrite (proj2 (from_utf8_spec _ (te_name e)) (conj Hs eq_refl)).
  rewrite take_app_length', drop_app_length' by done.
  rewrite (proj1 (Hbe _ _ _)), (proj2 (Hbe _ _ _)), kind_byte, (proj1 (Hbe _ _ _)), (proj2 (Hbe _ _ _)), from_to_be by done.
  rewrite of_bytes_as_bytes. pose proof (TreeEntry_new_id e He) as Hnew.
  destruct (te_kind e) eqn:Ek; simpl in *; rewrite ?Ek in Hnew; by rewrite Hnew.
Qed.

Lemma decode_entry_wf l e r : decode_entry l = Ok (e, r) → entry_wf e ∧ (length r < length l)%nat.
Proof.
  unfold decode_entry. destruct (Z.gtb_spec 4 (len l)) as [|H4]; [done|].
  pose proof (from_be_bounds (take 4 l)) as Hnb. set (n := from_be_bytes (take 4 l)) in *.
  destruct (Z.gtb_spec (n + 32 + 1 + 8) (len (drop 4 l))) as [|Hlen]; [done|].
  unfold len in *. rewrite length_drop in Hlen.
  destruct (from_utf8 _) as [s|] eqn:Es; [|done]. apply from_utf8_spec in Es as [Hs _].
  set (kb := from_be_bytes (take 1 _)). set (q := drop 1 _). set (h := take 32 _).
  assert (length q = (length l - 4 - Z.to_nat n - 32 - 1)%nat) as Hq by (unfold q; rewrite !length_drop; lia).
  assert (is_hash (of_bytes h)) as Hh.
  { unfold is_hash, slen. rewrite <-as_bytes_length, as_bytes_of_bytes. unfold h. rewrite length_take, !length_drop. lia. }
  assert (0 ≤ from_be_bytes (take 8 q) < 2 ^ 64) as Hz.
  { pose proof (from_be_bounds (take 8 q)) as Hb. rewrite length_take, Nat.min_l in Hb by lia. done. }
  intros E. assert (∃ k, TreeEntry_new s (of_bytes h) k (from_be_bytes (take 8 q)) = Ok e ∧ drop 8 q = r) as (k & Hk & <-).
  { destruct (kb =? 1); [|destruct (kb =? 2); [|done]]; simpl in E;
    destruct (TreeEntry_new _ _ _ _) eqn:Et; try done; injection E as <- <-; eauto. }
  split; [by eapply TreeEntry_new_wf|]. rewrite length_drop. lia.
Qed.

Lemma decode_loop_total : ∀ fuel l acc, (length l ≤ fuel)%nat → tree_wf acc →
  ∃ r, decode_loop fuel l acc = Returned r ∧ ∀ t, r = Ok t → tree_wf t.
Proof.
  induction fuel as [|fuel IH]; intros l acc Hl Hacc; (destruct l as [|b l]; [eexists; split; [done|by intros t [= <-]]|]); [simpl in Hl; lia|].
  cbn [decode_loop]. destruct (decode_entry (b :: l)) as [[e r]|err] eqn:E; [|eexists; split; [done|done]].
  apply decode_entry_wf in E as [He Hr]. apply IH; [simpl in *; lia|by apply tree_insert_wf].
Qed.

Lemma entry_bytes_long e : (45 ≤ length (entry_bytes e))%nat ∨ ¬ entry_wf e.
Proof.
  destruct (decide (length (as_bytes (te_hash e)) = 32%nat)) as [E|E].
  - left. unfold entry_bytes. rewrite !length_app, !length_to_be, E. lia.
  - right. intros [_ _ _ _ _ Hh _]. unfold is_hash, slen in Hh. rewrite as_bytes_length in E. lia.
Qed.

Lemma decode_loop_entries es : ∀ fuel acc, Forall entry_wf es → (length es ≤ fuel)%nat →
  decode_loop fuel (concat (map entry_bytes es)) acc = Returned (Ok (foldl tree_insert acc es)).
Proof.
  induction es as [|e es IH]; intros fuel acc Hes Hf; cbn [map concat foldl length] in *; [by destruct fuel|].
  inversion_clear Hes as [|? ? He Hes']. destruct fuel as [|fuel]; [lia|].
  assert (∃ b l, entry_bytes e ++ concat (map entry_bytes es) = b :: l) as (b & l & E).
  { destruct (entry_bytes_long e) as [Hb|]; [|done]. destruct (entry_bytes e) as [|b l]; [simpl in Hb; lia|]. by exists b, (l ++ concat (map entry_bytes es)). }
  rewrite E. cbn [decode_loop]. rewrite <-E, decode_entry_bytes by done. apply IH; [done|lia].
Qed.

Lemma slots_elem t x : x ∈ slots t ↔ t !! x.1 = Some x.2.
Proof. unfold slots. rewrite sort_by_key_perm. destruct x. by rewrite elem_of_map_to_list. Qed.

Lemma slots_strict t : StronglySorted (key_lt fst) (slots t).
Proof. apply sort_by_key_strict, NoDup_fst_map_to_list. Qed.

Lemma foldl_insert es : NoDup (map te_name es) → ∀ acc k e, foldl tree_insert acc es !! k = Some e ↔
  e ∈ es ∧ e.(te_name) = k ∨ (k ∉ map te_name es) ∧ acc !! k = Some e.
Proof.
  induction es as [|x es IH]; intros Hnd acc k e; simpl.
  { split; [intros H; right; split; [by intros ?%elem_of_nil|done]|]. by intros [[?%elem_of_nil _]|[_ ?]]. }
  inversion_clear Hnd as [|? ? Hx Hnd']. rewrite (IH Hnd'). unfold tree_insert. rewrite lookup_insert_Some, !elem_of_cons. split.
  - intros [[? ?]|[Hk [[<- <-]|[? ?]]]]; [by left; auto|by left; auto|]. right. split; [|done]. intros [->|?]; done.
  - intros [[[->|?] Hk]|[Hk ?]].
    + right. subst k. split; [done|]. auto.
    + by left.
    + right. split; [tauto|]. right. split; [|done]. intros <-. apply Hk. by left.
Qed.

Lemma slots_keys_NoDup t : NoDup (slots t).*1.
Proof. unfold slots. rewrite sort_by_key_perm. apply NoDup_fst_map_to_list. Qed.

Lemma foldl_entries t : tree_wf t → foldl tree_insert ∅ (tree_entries t) = t.
Proof.
  intros Ht. assert (map te_name (tree_entries t) = (slots t).*1) as Hn.
  { unfold tree_entries. change (map te_name) with (fmap (M := list) te_name). rewrite <-list_fmap_compose.
    apply list_fmap_ext. intros i [k e] Hx%list_elem_of_lookup_2. apply slots_elem in Hx. simpl. by destruct (Ht k e Hx). }
  apply map_eq. intros k. apply option_eq. intros e. rewrite foldl_insert by (rewrite Hn; apply slots_keys_NoDup).
  rewrite lookup_empty. unfold tree_entries. rewrite list_elem_of_fmap. split.
  - intros [[(x & -> & Hx%slots_elem) Hk]|[_ ?]]; [|done]. destruct (Ht _ _ Hx) as [Hk' _]. congruence.
  - intros He. left. destruct (Ht _ _ He) as [Hk _]. split; [|done]. exists (k, e). split; [done|by apply slots_elem].
Qed.

Lemma tree_entries_wf t : tree_wf t → Forall entry_wf (tree_entries t).
Proof.
  intros Ht. apply Forall_forall. intros e. unfold tree_entries. rewrite list_elem_of_fmap.
  intros (x & -> & Hx%slots_elem). by destruct (Ht _ _ Hx).
Qed.

Lemma decode_canonical_bytes t : tree_wf t → from_canonical_bytes (canonical_bytes t) = Returned (Ok t).
Proof.
  intros Ht. unfold from_canonical_bytes, canonical_bytes. rewrite take_app_length, drop_app_length.
  rewrite bool_decide_true by done. destruct (Z.ltb_spec (len (TREE_MAGIC ++ concat (map entry_bytes (tree_entries t)))) (len TREE_MAGIC)) as [Hbad|_].
  { rewrite len_app in Hbad. pose proof (len_nonneg (concat (map entry_bytes (tree_entries t)))). lia. }
  simpl orb. cbv iota. pose proof (tree_entries_wf t Ht) as Hes.
  rewrite decode_loop_entries; [by rewrite foldl_entries|done|].
  rewrite length_app. assert (length (tree_entries t) ≤ length (concat (map entry_bytes (tree_entries t))))%nat; [|lia].
  induction Hes as [|e es He _ IH]; [done|]. simpl. rewrite length_app. destruct (entry_bytes_long e); [lia|done].
Qed.

Lemma from_canonical_total l : ∃ r, from_canonical_bytes l = Returned r ∧ ∀ t, r = Ok t → tree_wf t.
Proof.
  unfold from_canonical_bytes. destruct (_ || _); [by eexists|].
  apply decode_loop_total; [rewrite length_drop; lia|]. intros k e He. by rewrite lookup_empty in He.
Qed.

(** The canonical codec: a well-formed tree is read back from its canonical bytes;
    the decoder returns on every input, and a tree it returns is well formed, so it can
    be stored and read again. *)
Theorem tree_codec :
  (∀ t, tree_wf t → from_canonical_bytes (canonical_bytes t) = Returned (Ok t))
  ∧ (∀ l, ∃ r, from_canonical_bytes l = Returned r ∧ ∀ t, r = Ok t → tree_wf t).
Proof. split; [apply decode_canonical_bytes|apply from_canonical_total]. Qed.

(** ** The merge *)

(** The reference: agreement, else the side that changed. *)
Definition three_way (b o t : option TreeEntry) : option (option TreeEntry) :=
  if bool_decide (o = t) then Some o
  else if bool_decide (o = b) then Some t
  else if bool_decide (t = b) then Some o
  else None.

Lemma merge_slot_three_way b o t : ¬ (b = None ∧ o = None ∧ t = None) →
  three_way b o t = match merge_slot b o t with Keep e => Some (Some e) | Drop => Some None | Conflict => None end.
Proof.
  intros Hne. unfold three_way, merge_slot. destruct b as [b|], o as [o|], t as [t|]; try (by exfalso; apply Hne);
    repeat case_bool_decide; simplify_eq; simpl; repeat case_bool_decide; congruence || done.
Qed.

Lemma three_way_comm b o t : three_way b t o = three_way b o t.
Proof. unfold three_way. repeat case_bool_decide; congruence. Qed.

(** The merge of one slot has the name of the slot. *)
Lemma merge_slot_name b o t k e : (∀ x, b = Some x ∨ o = Some x ∨ t = Some x → x.(te_name) = k ∧ entry_wf x) →
  merge_slot b o t = Keep e → e.(te_name) = k ∧ entry_wf e.
Proof.
  intros Hx He. apply Hx. unfold merge_slot in He. repeat case_match; simplify_eq; auto.
Qed.

Lemma merge_slots_spec base ours theirs keys : tree_wf base → tree_wf ours → tree_wf theirs → NoDup keys → ∀ acc,
  (∀ k, (merge_slots base ours theirs keys acc).(merged) !! k =
     if bool_decide (k ∈ keys) then
       match merge_slot (base !! k) (ours !! k) (theirs !! k) with Keep e => Some e | _ => acc.(merged) !! k end
     else acc.(merged) !! k)
  ∧ (merge_slots base ours theirs keys acc).(conflicts) = acc.(conflicts)
      ++ omap (λ k, match merge_slot (base !! k) (ours !! k) (theirs !! k) with
                    | Conflict => Some (mkConflict k (base !! k) (ours !! k) (theirs !! k))
                    | _ => None
                    end) keys.
Proof.
  intros Hb Ho Ht. induction keys as [|x keys IH]; intros Hnd acc; cbn [merge_slots omap list_omap].
  { split; [done|]. by rewrite app_nil_r. }
  inversion_clear Hnd as [|? ? Hx Hnd']. specialize (IH Hnd'). cbv zeta.
  set (acc' := match merge_slot _ _ _ with Keep _ => _ | _ => _ end). destruct (IH acc') as [IH1 IH2]. split.
  - intros k. rewrite IH1. destruct (decide (k = x)) as [->|Hne].
    + rewrite (bool_decide_false (x ∈ keys)), (bool_decide_true (x ∈ x :: keys)) by (done || apply list_elem_of_here).
      unfold acc'. destruct (merge_slot _ _ _) as [e| |] eqn:E; simpl; try done.
      apply (merge_slot_name _ _ _ x) in E as [<- _]; [apply lookup_insert_eq|]. intros y [?|[?|?]]; auto.
    + rewrite (bool_decide_ext (k ∈ x :: keys) (k ∈ keys)) by (rewrite elem_of_cons; tauto).
      assert (acc'.(merged) !! k = acc.(merged) !! k) as ->; [|done].
      unfold acc'. destruct (merge_slot _ _ _) as [e| |] eqn:E; simpl; try done.
      apply (merge_slot_name _ _ _ x) in E as [<- _]; [by apply lookup_insert_ne|]. intros y [?|[?|?]]; auto.
  - rewrite IH2. unfold acc'. destruct (merge_slot _ _ _); simpl; try done. by rewrite <-app_assoc.
Qed.

Definition swap_sides (c : SlotConflict) : SlotConflict := mkConflict c.(sc_slot) c.(sc_base) c.(sc_theirs) c.(sc_ours).

Definition all_slots (base ours theirs : ContextTree) : list string :=
  sorted_set (λ s : string, s) ((slots base).*1 ++ (slots ours).*1 ++ (slots theirs).*1).

Lemma slots_key t k : k ∈ (slots t).*1 ↔ is_Some (t !! k).
Proof.
  rewrite list_elem_of_fmap. split.
  - intros (x & -> & Hx%slots_elem). eauto.
  - intros [e He]. exists (k, e). split; [done|by apply slots_elem].
Qed.

Lemma all_slots_elem base ours theirs k : k ∈ all_slots base ours theirs ↔
  ¬ (base !! k = None ∧ ours !! k = None ∧ theirs !! k = None).
Proof.
  unfold all_slots. rewrite sorted_set_elem, !elem_of_app, !slots_key, <-!not_eq_None_Some.
  destruct (base !! k), (ours !! k), (theirs !! k); split; intros; naive_solver.
Qed.

Lemma all_slots_strict base ours theirs : StronglySorted (key_lt (λ s : string, s)) (all_slots base ours theirs).
Proof. apply sorted_set_strict. apply _. Qed.

Lemma all_slots_NoDup base ours theirs : NoDup (all_slots base ours theirs).
Proof. apply (strict_NoDup (λ s : string, s)), all_slots_strict. Qed.

Lemma all_slots_swap base ours theirs : all_slots base theirs ours = all_slots base ours theirs.
Proof.
  apply (strict_ext (λ s : string, s)); [apply all_slots_strict..|]. intros k. rewrite !all_slots_elem. tauto.
Qed.

Lemma merged_lookup base ours theirs k : tree_wf base → tree_wf ours → tree_wf theirs →
  (merge_3way base ours theirs).(merged) !! k = default None (three_way (base !! k) (ours !! k) (theirs !! k)).
Proof.
  intros Hb Ho Ht. unfold merge_3way. fold (all_slots base ours theirs).
  destruct (merge_slots_spec base ours theirs _ Hb Ho Ht (all_slots_NoDup base ours theirs) (mkMerge ∅ [])) as [-> _].
  simpl. rewrite lookup_empty. case_bool_decide as Hk; rewrite all_slots_elem in Hk.
  - rewrite merge_slot_three_way by done. by destruct (merge_slot _ _ _).
  - assert (base !! k = None ∧ ours !! k = None ∧ theirs !! k = None) as (-> & -> & ->); [|done].
    destruct (base !! k), (ours !! k), (theirs !! k); naive_solver.
Qed.

Lemma merge_conflicts base ours theirs : tree_wf base → tree_wf ours → tree_wf theirs →
  (merge_3way base ours theirs).(conflicts) =
  omap (λ k, match three_way (base !! k) (ours !! k) (theirs !! k) with
             | None => Some (mkConflict k (base !! k) (ours !! k) (theirs !! k))
             | Some _ => None
             end) (all_slots base ours theirs).
Proof.
  intros Hb Ho Ht. unfold merge_3way. fold (all_slots base ours theirs).
  destruct (merge_slots_spec base ours theirs _ Hb Ho Ht (all_slots_NoDup base ours theirs) (mkMerge ∅ [])) as [_ ->].
  simpl. assert (∀ k, k ∈ all_slots base ours theirs → ¬ (base !! k = None ∧ ours !! k = None ∧ theirs !! k = None)) as Hin
    by (intros k; by rewrite all_slots_elem).
  induction (all_slots base ours theirs) as [|k l IH]; [done|]. csimpl.
  rewrite (merge_slot_three_way (base !! k)) by (apply Hin, list_elem_of_here).
  rewrite IH by (intros; apply Hin; by apply elem_of_cons; right). by destruct (merge_slot _ _ _).
Qed.

(** C21: the three-way merge agrees with the reference on every slot: where the sides agree
    their value (or absence) stands, where one side kept the base the other side's change
    wins, and only where both changed differently is the slot a conflict, left out of the
    tree and reported once with its three values; the merged tree is well formed and the
    merge is symmetric in its sides. *)
Theorem merge_3way_correct base ours theirs : tree_wf base → tree_wf ours → tree_wf theirs →
  let m := merge_3way base ours theirs in
  (∀ k, m.(merged) !! k = default None (three_way (base !! k) (ours !! k) (theirs !! k)))
  ∧ (∀ c, c ∈ m.(conflicts) ↔ ∃ k, three_way (base !! k) (ours !! k) (theirs !! k) = None
       ∧ c = mkConflict k (base !! k) (ours !! k) (theirs !! k))
  ∧ NoDup (map sc_slot m.(conflicts)) ∧ tree_wf m.(merged)
  ∧ merge_3way base theirs ours = mkMerge m.(merged) (map swap_sides m.(conflicts)).
Proof.
  intros Hb Ho Ht m. assert (∀ k, m.(merged) !! k = default None (three_way (base !! k) (ours !! k) (theirs !! k))) as Hm
    by (intros k; by apply merged_lookup).
  split_and!; [done| | | |].
  - intros c. unfold m. rewrite merge_conflicts, list_elem_of_omap by done. split.
    + intros (k & _ & Hk). destruct (three_way _ _ _) eqn:E; [done|]. injection Hk as <-. eauto.
    + intros (k & Hk & ->). exists k. rewrite Hk. split; [|done]. apply all_slots_elem. intros (E1 & E2 & E3).
      by rewrite E1, E2, E3 in Hk.
  - unfold m. rewrite merge_conflicts by done. pose proof (all_slots_NoDup base ours theirs) as Hnd.
    induction Hnd as [|k l Hk Hnd IH]; [constructor|]. csimpl. destruct (three_way _ _ _); [done|]. csimpl. constructor; [|done].
    intros (c & -> & Hc)%list_elem_of_fmap. apply Hk. apply list_elem_of_omap in Hc as (y & Hy & Hc). by case_match; simplify_eq/=.
  - intros k e. rewrite Hm. unfold three_way. repeat case_bool_decide; simpl; eauto.
    intros Hx. done.
  - assert ((merge_3way base theirs ours).(merged) = m.(merged)) as E1.
    { apply map_eq. intros k. by rewrite Hm, merged_lookup, three_way_comm. }
    assert ((merge_3way base theirs ours).(conflicts) = map swap_sides m.(conflicts)) as E2.
    { unfold m. rewrite !merge_conflicts, all_slots_swap by done. induction (all_slots base ours theirs) as [|k l IH]; [done|].
      csimpl. rewrite three_way_comm, IH. by destruct (three_way _ _ _). }
    destruct (merge_3way base theirs ours). simpl in *. by subst.
Qed.

(** Two trees have no difference exactly when they are the same. *)
Lemma diff_empty a b : diff_is_empty (diff a b) = true ↔ a = b.
Proof.
  assert (∀ X (f : string * TreeEntry → option X) l, omap f l = [] ↔ ∀ x, x ∈ l → f x = None) as Hnil.
  { intros X f l. induction l as [|x l IH]; csimpl; [split; [intros _ y ?%elem_of_nil|]; done|].
    destruct (f x) eqn:E; [split; [done|intros H; by rewrite (H x (list_elem_of_here _ _)) in E]|].
    rewrite IH. split; [|intros H y Hy; apply H; by apply elem_of_cons; right].
    intros H y [->|Hy]%elem_of_cons; auto. }
  unfold diff, diff_is_empty. simpl. split.
  - intros H. repeat case_match; try done. rewrite !Hnil in *. apply map_eq. intros k.
    match goal with H1 : ∀ x, x ∈ slots b → match a !! x.1 with Some _ => None | None => _ end = None,
      H2 : ∀ x, x ∈ slots b → match a !! x.1 with Some b => _ | None => None end = None,
      H3 : ∀ x, x ∈ slots a → _ |- _ => rename H1 into Ha, H2 into Hc, H3 into Hr end.
    destruct (a !! k) as [x|] eqn:Ea, (b !! k) as [y|] eqn:Eb; try done.
    + specialize (Hc (k, y) (proj2 (slots_elem b (k, y)) Eb)). simpl in Hc. rewrite Ea in Hc. case_bool_decide; [by subst|done].
    + specialize (Hr (k, x) (proj2 (slots_elem a (k, x)) Ea)). simpl in Hr. by rewrite Eb in Hr.
    + specialize (Ha (k, y) (proj2 (slots_elem b (k, y)) Eb)). simpl in Ha. by rewrite Ea in Ha.
  - intros <-. assert (∀ X (f : string * TreeEntry → option X), (∀ x, a !! x.1 = Some x.2 → f x = None) → omap f (slots a) = []) as Hz.
    { intros X f Hf. apply Hnil. intros x Hx%slots_elem. by apply Hf. }
    rewrite !Hz; [done|..]; intros x Hx; rewrite Hx; try done. by rewrite bool_decide_true.
Qed.
