(* ===== verification/PendingHost.v ===== *)
(** * PendingHost: an executor that records each call before its effect

    Models [pending_host.rs] of [crates/bitty-ai-slice]: the adapter that opens a row of
    the durable log, delegates to an inner executor of the bus, and closes the row with
    the outcome.  The inner executor holds no handle on the log. *)

From stdpp Require Import gmap.
From S2P Require Import Prelude Text Order Session ToolTypes ToolBus ObjectStore Branches Bindings PendingLog PendingFacts.

Local Open Scope Z_scope.
Local Open Scope rust_scope.

Definition MAX_CALL_ID_MINT_ATTEMPTS : Z := 1024.

Definition MINT_EXHAUSTED_MSG : string := "pending log call-id mint exhausted".
Definition LOG_UNAVAILABLE_MSG : string := "pending log unavailable; refusing before effect".

(** [PendingToolExecutor], with the world of its inner executor and the log *)
Record PendingToolExecutor (W : Type) := mkPendingExecutor {
  inner : W;
  log_tables : PendingTables;
  px_session : WheelSessionId;
  px_task : option string;
  px_generation : Z;
  px_epoch : Z;
  next_seq : Z
}.

Arguments mkPendingExecutor {W}.
Arguments inner {W}.
Arguments log_tables {W}.
Arguments px_session {W}.
Arguments px_task {W}.
Arguments px_generation {W}.
Arguments px_epoch {W}.
Arguments next_seq {W}.

(** [map_begin_err] *)
Definition map_begin_err (tool : string) (err : PendingError) : ToolError :=
  match err with
  | TooManyOpen limit => CallLimitExceeded limit
  | _ => ErrDenied tool LOG_UNAVAILABLE_MSG
  end.

Section Host.
Context {W : Type} `{ContentApi}.
Implicit Types x : PendingToolExecutor W.

(** [set_generation], [set_epoch], [set_task_id] *)
Definition set_generation x g := mkPendingExecutor x.(inner) x.(log_tables) x.(px_session) x.(px_task) g x.(px_epoch) x.(next_seq).
Definition set_epoch x e := mkPendingExecutor x.(inner) x.(log_tables) x.(px_session) x.(px_task) x.(px_generation) e x.(next_seq).
Definition set_task_id x t := mkPendingExecutor x.(inner) x.(log_tables) x.(px_session) t x.(px_generation) x.(px_epoch) x.(next_seq).

Definition with_log x t seq :=
  mkPendingExecutor x.(inner) t x.(px_session) x.(px_task) x.(px_generation) x.(px_epoch) seq.
Definition with_inner x (w : W) : PendingToolExecutor W :=
  mkPendingExecutor w x.(log_tables) x.(px_session) x.(px_task) x.(px_generation) x.(px_epoch) x.(next_seq).

(** [mint_pending_call_id] *)
Definition mint_pending_call_id (session : WheelSessionId) (seq : Z) : string :=
  to_hex (sha256 (as_bytes ("bitty-pending-v1/" +:+ session +:+ "/" +:+ show seq))).

Definition begin_request x (call_id tool : string) (arguments : bytes) (now_ms : Z) : PendingBegin :=
  mkBegin call_id x.(px_session) x.(px_task) tool arguments x.(px_generation) x.(px_epoch) now_ms.

(** The loop of [begin_guarded], with the attempts that are left after this one. *)
Fixpoint begin_loop (more : nat) x (tool : string) (arguments : bytes) (now_ms seq : Z) :
    PendingToolExecutor W * result string ToolError :=
  let call_id := mint_pending_call_id x.(px_session) seq in
  match begin x.(log_tables) (begin_request x call_id tool arguments now_ms) with
  | (t, Ok _) => (with_log x t (wrapping_add64 seq 1), Ok call_id)
  | (t, Err PendingExists) =>
      match more with
      | O => (with_log x t x.(next_seq), Err (ErrDenied tool MINT_EXHAUSTED_MSG))
      | S more => begin_loop more (with_log x t x.(next_seq)) tool arguments now_ms (wrapping_add64 seq 1)
      end
  | (t, Err other) => (with_log x t x.(next_seq), Err (map_begin_err tool other))
  end.

(** [begin_guarded] *)
Definition begin_guarded x (tool : string) (arguments : bytes) (now_ms : Z) :
    PendingToolExecutor W * result string ToolError :=
  begin_loop (Z.to_nat (MAX_CALL_ID_MINT_ATTEMPTS - 1)) x tool arguments now_ms x.(next_seq).

(** [resolve_best_effort] *)
Definition resolve_best_effort x (call_id : string) (d : PendingDisposition) (now_ms : Z) : PendingToolExecutor W :=
  with_log x (resolve x.(log_tables) (mkResolve call_id d x.(px_epoch) x.(px_generation) now_ms)).1 x.(next_seq).

(** [execute_with_context] *)
Definition execute_with_context (delegate : ToolExecutor W) : ToolExecutor (PendingToolExecutor W) :=
  λ x tool arguments context,
    match begin_guarded x tool arguments context.(ec_now_ms) with
    | (x, Err e) => (x, [], Err e)
    | (x, Ok call_id) =>
        let '(w, ops, outcome) := delegate x.(inner) tool arguments context in
        let x := with_inner x w in
        let x := match outcome with
                 | Ok _ => resolve_best_effort x call_id DSuccess context.(ec_now_ms)
                 | Err (ErrEffectUnknown _ _) => x
                 | Err (ErrDenied _ _) => resolve_best_effort x call_id DDenied context.(ec_now_ms)
                 | Err _ => resolve_best_effort x call_id DFailed context.(ec_now_ms)
                 end in
        (x, ops, outcome)
    end.

(** [execute]: a context of its own, with the next identifier of the process; [None] is
    the panic of an exhausted counter. *)
Definition execute_now (delegate : ToolExecutor W) (counter : Z) x (tool : string) (arguments : bytes) (now_ms : Z) :
    option (Z * (PendingToolExecutor W * list SessionOp * result ToolSuccess ToolError)) :=
  match IdIssuer_execution counter with
  | Some (id, counter) =>
      Some (counter, execute_with_context delegate x tool arguments (mkExecContext id now_ms))
  | None => None
  end.

(** ** Properties *)

(** The executor is bound to a session by typed values, and its log is reachable. *)
Definition host_ok x : Prop :=
  (∃ L, x.(log_tables) = tables L ∧ log_ok L) ∧ WheelSessionId_parse x.(px_session) = Ok x.(px_session)
  ∧ 0 ≤ x.(px_generation) ∧ 0 ≤ x.(px_epoch).

Lemma with_log_id x : with_log x x.(log_tables) x.(next_seq) = x.
Proof. by destruct x. Qed.

Lemma log_begin_cases L req : log_ok L → typed_begin req →
  (∃ e, log_begin L req = (L, Err e))
  ∨ L.(live) !! req.(bg_call_id) = None ∧ L.(cached) !! req.(bg_call_id) = None ∧ u63 req.(bg_now)
    ∧ log_begin L req = (mkLog (<[req.(bg_call_id) := opened req]> L.(live)) L.(cached) L.(markers), Ok (opened req))
    ∧ log_ok (log_begin L req).1.
Proof.
  intros Hok Hr. pose proof (log_begin_ok L req Hok Hr) as Hok'. unfold log_begin in *.
  destruct (_ || _); [eauto|]. destruct (out_of_range _) eqn:Ho; [eauto|]. destruct (_ >=? _); [eauto|].
  destruct (live L !! _); [eauto|]. destruct (cached L !! _); [eauto|]. right. split_and!; try done. split; [apply Hr|].
  apply (out_of_range_false _ Ho). rewrite !elem_of_cons. auto.
Qed.

(** Either the log refuses and nothing changes, or a fresh identifier is open in it. *)
Lemma begin_loop_cases more : ∀ x tool args now seq L, x.(log_tables) = tables L → log_ok L →
  WheelSessionId_parse x.(px_session) = Ok x.(px_session) → 0 ≤ x.(px_generation) → 0 ≤ x.(px_epoch) → 0 ≤ now →
  (∃ e, begin_loop more x tool args now seq = (x, Err e))
  ∨ ∃ id seq', let req := begin_request x id tool args now in
      let L' := mkLog (<[id := opened req]> L.(live)) L.(cached) L.(markers) in
      begin_loop more x tool args now seq = (with_log x (tables L') seq', Ok id)
      ∧ L.(live) !! id = None ∧ L.(cached) !! id = None ∧ u63 now ∧ log_ok L'.
Proof.
  induction more as [|more IH]; intros x tool args now seq L Ht Hok Hs Hg He Hn; cbn [begin_loop].
  all: set (id := mint_pending_call_id _ _); set (req := begin_request x id tool args now).
  all: assert (typed_begin req) as Hreq by done.
  all: rewrite Ht, begin_refines by done.
  all: destruct (log_begin_cases L req Hok Hreq) as [[e ->]|(Hl & Hc & Hu & E & Hok')].
  all: try (rewrite E in Hok' |- *; right; exists id, (wrapping_add64 seq 1); split_and!; done).
  all: simpl; rewrite <-Ht, !with_log_id.
  - destruct e; eauto.
  - destruct e; try (by left; eauto). by apply (IH x tool args now (wrapping_add64 seq 1) L).
Qed.

(** The disposition that an outcome closes the row with; none for an unknown effect. *)
Definition disposition_of (r : result ToolSuccess ToolError) : option PendingDisposition :=
  match r with
  | Ok _ => Some DSuccess
  | Err (ErrEffectUnknown _ _) => None
  | Err (ErrDenied _ _) => Some DDenied
  | Err _ => Some DFailed
  end.

Lemma execute_unfold delegate x tool args ctx x1 id w ops r :
  begin_guarded x tool args ctx.(ec_now_ms) = (x1, Ok id) → delegate x1.(inner) tool args ctx = (w, ops, r) →
  execute_with_context delegate x tool args ctx
  = (match disposition_of r with
     | Some d => resolve_best_effort (with_inner x1 w) id d ctx.(ec_now_ms)
     | None => with_inner x1 w
     end, ops, r).
Proof. intros Hb Hd. unfold execute_with_context. rewrite Hb, Hd. by destruct r as [?|[]]. Qed.

(** A row that this executor opened is closed by it. *)
Lemma close_own x1 L req id d now : x1.(log_tables) = tables L → log_ok L → L.(live) !! id = Some (opened req) →
  u63 now → x1.(px_epoch) = req.(bg_epoch) → x1.(px_generation) = req.(bg_generation) →
  let close := mkResolve id d x1.(px_epoch) x1.(px_generation) now in
  (resolve_best_effort x1 id d now).(log_tables) = tables (after_close L (opened req) close)
  ∧ log_ok (after_close L (opened req) close).
Proof.
  intros Ht Hok Hl Hn He Hg close. unfold resolve_best_effort. simpl. fold close.
  assert (0 ≤ close.(rs_now)) as Hc by apply Hn. rewrite Ht, resolve_refines by done.
  pose proof (log_resolve_ok L close Hok Hc) as Hok'.
  assert (valid_call_id id = true) as Hv by apply (eok_valid _ _ _ (lok_live L Hok _ _ Hl)).
  rewrite (log_resolve_open L close (opened req)) in * by done.
  assert (may_close (opened req) close = true) as Hm.
  { unfold may_close. simpl. rewrite He, Hg, Z.eqb_refl, andb_true_r. apply Z.leb_refl. }
  rewrite Hm in *. done.
Qed.

(** C20: no effect outruns its record: either the log refuses, and then the delegate is
    never contacted and nothing changes, or the delegate runs exactly once while a row
    with a fresh identifier and the digest of the arguments is open.  Its outcome is
    returned unchanged; an unknown effect leaves that row open, every other outcome
    closes it, and no other open call is touched. *)
Theorem effects_recorded delegate x tool args ctx x' ops r : host_ok x → 0 ≤ ctx.(ec_now_ms) →
  execute_with_context delegate x tool args ctx = (x', ops, r) →
  (x' = x ∧ ops = [] ∧ ∃ e, r = Err e ∧ begin_guarded x tool args ctx.(ec_now_ms) = (x, Err e))
  ∨ ∃ id x1, let row := opened (begin_request x id tool args ctx.(ec_now_ms)) in
      begin_guarded x tool args ctx.(ec_now_ms) = (x1, Ok id)
      ∧ get x.(log_tables) id = Ok None ∧ get x1.(log_tables) id = Ok (Some row) ∧ x1.(inner) = x.(inner)
      ∧ delegate x1.(inner) tool args ctx = (x'.(inner), ops, r)
      ∧ match disposition_of r with
        | None => get x'.(log_tables) id = Ok (Some row)
        | Some _ => ∀ session es, list_open x'.(log_tables) session = Ok es → row ∉ es
        end
      ∧ (∀ i e, valid_call_id i = true → i ≠ id → get x.(log_tables) i = Ok (Some e) → e.(pe_status) = Open →
           get x'.(log_tables) i = Ok (Some e))
      ∧ host_ok x'.
Proof.
  intros ((L & Ht & Hok) & Hs & Hg & He) Hn E.
  destruct (begin_loop_cases (Z.to_nat (MAX_CALL_ID_MINT_ATTEMPTS - 1)) x tool args ctx.(ec_now_ms) x.(next_seq) L)
    as [[e Hb]|(id & seq' & Hb & Hl & Hc & Hu & Hok')]; try done; fold (begin_guarded x tool args ctx.(ec_now_ms)) in Hb.
  { left. unfold execute_with_context in E. rewrite Hb in E. injection E as <- <- <-. eauto. }
  right. cbv zeta in Hok'. set (req := begin_request x id tool args ctx.(ec_now_ms)) in *.
  set (L1 := mkLog (<[id := opened req]> L.(live)) L.(cached) L.(markers)) in *. set (x1 := with_log x (tables L1) seq') in *.
  assert (L1.(live) !! id = Some (opened req)) as Hl1 by apply lookup_insert_eq.
  assert (valid_call_id id = true) as Hv by apply (eok_valid _ _ _ (lok_live L1 Hok' _ _ Hl1)).
  destruct (delegate x1.(inner) tool args ctx) as [[w ops'] r'] eqn:Ed.
  rewrite (execute_unfold delegate x tool args ctx x1 id w ops' r') in E by done. injection E as E <- <-.
  exists id, x1. cbv zeta. split_and!; try done.
  - rewrite Ht, get_exact, Hl, Hc by done. done.
  - simpl. rewrite get_exact, Hl1 by done. done.
  - rewrite Ed, <-E. by destruct (disposition_of r').
  - destruct (disposition_of r') as [d|]; subst x'; [|simpl; by rewrite get_exact, Hl1 by done].
    destruct (close_own (with_inner x1 w) L1 req id d ctx.(ec_now_ms)) as [-> Hok2]; try done.
    by destruct (after_close_reads L1 (opened req) _ Hok' Hok2 Hv Hl1) as (? & _).
  - intros i e Hi Hne Hget Ho. assert (get (tables L1) i = Ok (Some e)) as Hget1.
    { rewrite Ht in Hget. rewrite get_exact in Hget |- * by done. simpl. by rewrite lookup_insert_ne by done. }
    destruct (disposition_of r') as [d|]; subst x'; [|done].
    destruct (close_own (with_inner x1 w) L1 req id d ctx.(ec_now_ms)) as [-> Hok2]; try done.
    destruct (after_close_reads L1 (opened req) _ Hok' Hok2 Hv Hl1) as (_ & Hk & _). by apply Hk.
  - destruct (disposition_of r') as [d|]; subst x'; [|split_and!; try done; by exists L1].
    destruct (close_own (with_inner x1 w) L1 req id d ctx.(ec_now_ms)) as [Ht2 Hok2]; try done.
    split_and!; try done. by eexists.
Qed.

(** A minted identifier has the shape of one. *)
Lemma mint_valid `{!ContentLaws} session seq : valid_call_id (mint_pending_call_id session seq) = true.
Proof.
  unfold mint_pending_call_id, valid_call_id. set (h := sha256 _).
  pose proof (sha256_hash (as_bytes ("bitty-pending-v1/" +:+ session +:+ "/" +:+ show seq))) as Hh.
  fold h in Hh. assert (slen (to_hex h) = 64) as Hl by (rewrite to_hex_len, Hh; done).
  assert (is_empty (to_hex h) = false) as -> by (destruct (to_hex h); [done|done]).
  rewrite Hl. simpl. pose proof (to_hex_digits h) as Hd.
  unfold str_forall in *. rewrite List.forallb_forall in *. intros b Hb. specialize (Hd b Hb).
  unfold is_ascii_hexdigit, is_ascii_digit, in_range in *. rewrite !orb_true_iff in *. tauto.
Qed.

Definition taken (L : Log) (id : string) : Prop := is_Some (L.(live) !! id) ∨ is_Some (L.(cached) !! id).

Lemma log_begin_admits L req : valid_call_id req.(bg_call_id) = true → valid_tool req.(bg_tool) = true →
  valid_task_id req.(bg_task) = true → u63 req.(bg_generation) → u63 req.(bg_epoch) → u63 req.(bg_now) →
  len (open_of L req.(bg_session)) < MAX_OPEN_PENDING_PER_SESSION →
  (log_begin L req).2 = Ok (opened req) ∧ ¬ taken L req.(bg_call_id)
  ∨ log_begin L req = (L, Err PendingExists) ∧ taken L req.(bg_call_id).
Proof.
  intros Hv Ht Hk Hg He Hn Hroom. unfold log_begin, out_of_range, taken. rewrite Hv, Ht, Hk. simpl.
  assert ((bg_generation req >? i64_max) = false ∧ (bg_epoch req >? i64_max) = false ∧ (bg_now req >? i64_max) = false)
    as (-> & -> & ->) by (unfold u63 in *; lia). simpl.
  destruct (Z.geb_spec (len (open_of L (bg_session req))) MAX_OPEN_PENDING_PER_SESSION); [lia|].
  destruct (live L !! _) eqn:El; [right; split; [done|left; eauto]|].
  destruct (cached L !! _) eqn:Ec; [right; split; [done|right; eauto]|].
  left. split; [done|]. by intros [[? ?]|[? ?]].
Qed.

(** The mint takes the first free sequence, within its 1024 attempts. *)
Lemma begin_guarded_first_free `{!ContentLaws} x tool args now L k : x.(log_tables) = tables L → log_ok L →
  valid_tool tool = true → valid_task_id x.(px_task) = true → u63 x.(px_generation) → u63 x.(px_epoch) → u63 now →
  len (open_of L x.(px_session)) < MAX_OPEN_PENDING_PER_SESSION →
  0 ≤ x.(next_seq) → 0 ≤ k < MAX_CALL_ID_MINT_ATTEMPTS → x.(next_seq) + k ≤ u64_max →
  (∀ j, 0 ≤ j < k → taken L (mint_pending_call_id x.(px_session) (x.(next_seq) + j))) →
  ¬ taken L (mint_pending_call_id x.(px_session) (x.(next_seq) + k)) →
  (begin_guarded x tool args now).2 = Ok (mint_pending_call_id x.(px_session) (x.(next_seq) + k)).
Proof.
  intros Ht Hok Hv Hk Hg He Hn Hroom Hs0 Hk0 Hmax Htaken Hfree. unfold begin_guarded.
  assert (∀ n seq more, seq = x.(next_seq) + k - Z.of_nat n → Z.of_nat n ≤ k → (n ≤ more)%nat →
    (begin_loop more x tool args now seq).2 = Ok (mint_pending_call_id x.(px_session) (x.(next_seq) + k))) as Hloop.
  { induction n as [|n IH]; intros seq more Hseq Hnk Hmore.
    all: set (req := begin_request x (mint_pending_call_id x.(px_session) seq) tool args now).
    all: assert (valid_call_id req.(bg_call_id) = true) as Hid by apply mint_valid.
    all: destruct more as [|more]; cbn [begin_loop]; fold req; rewrite Ht, begin_refines by done.
    all: try lia.
    all: destruct (log_begin_admits L req) as [[E Hf]|[E Hf]]; try done; simpl in Hf.
    - rewrite E. simpl. repeat f_equal. lia.
    - exfalso. apply Hfree. by replace (x.(next_seq) + k) with seq by lia.
    - rewrite E. simpl. repeat f_equal. lia.
    - exfalso. apply Hfree. by replace (x.(next_seq) + k) with seq by lia.
    - exfalso. apply Hf. replace seq with (x.(next_seq) + (k - Z.of_nat (S n))) by lia. apply Htaken. lia.
    - rewrite E. simpl. rewrite <-Ht, with_log_id. apply IH; [|lia|lia].
      rewrite wrapping_add64_small; lia. }
  apply (Hloop (Z.to_nat k)); unfold MAX_CALL_ID_MINT_ATTEMPTS in *; lia.
Qed.


End Host.
