(* ===== verification/Merge.v ===== *)
(** * Merge: merge commits and garbage collection

    Models [merge.rs] of [crates/bitty-ai-slice]: the strict merge base, the merge of two
    tips into a two-parent commit on a branch, and the bounded collection of what no
    reference, recent reflog row or open call reaches.  The hash sets of the source are
    visited in no fixed order; the model takes one. *)

From stdpp Require Import gmap.
From S2P Require Import Prelude Text Order Search ObjectStore Branches Bindings PendingLog ContextTree.

Local Open Scope Z_scope.
Local Open Scope rust_scope.

Inductive MergeError :=
| NoCommonAncestor
| CrissCrossHistory
| Conflicts (l : list SlotConflict)
| MissingObject (hash : ContentHash)
| MergeStaleGeneration (expected found : Z)
| MergeInvalidName
| MergeNotFound
| MergeAlreadyExists
| MergeCorrupt
| MergeStorage.

(** A fallible computation with loops. *)
Abbreviation merge_run A := (run (result A MergeError)).

Definition bind_run {A B} (r : merge_run A) (k : A → merge_run B) : merge_run B :=
  match r with
  | Returned (Ok a) => k a
  | Returned (Err e) => Returned (Err e)
  | Panicked => Panicked
  | OutOfFuel => OutOfFuel
  end.
Notation "'run!' x := e 'in' k" := (bind_run e (λ x, k)) (at level 10, x name, e at level 99, k at level 200) : rust_scope.

(** [map_store], [map_pending], [map_ref_err] *)
Definition map_store (e : ContentStoreError) : MergeError :=
  match e with
  | MissingTarget hash | MissingParent hash | MissingTree hash => MissingObject hash
  | CorruptData _ _ | CorruptCheckpoint _ _ | EmptyField _ | InvalidRefName _ | OversizedField _ _ _ => MergeCorrupt
  end.
Definition map_pending (e : PendingError) : MergeError :=
  match e with PendingStorage _ => MergeStorage | _ => MergeCorrupt end.
Definition map_ref_err (e : RefError) : MergeError :=
  match e with
  | InvalidName | ProtectedHead | ReservedNamespace => MergeInvalidName
  | RefAlreadyExists => MergeAlreadyExists
  | RefNotFound => MergeNotFound
  | RefMissingTarget hash => MissingObject hash
  | RefCorrupt => MergeCorrupt
  | RefStorage _ => MergeStorage
  end.

(** [TaskGenerationLookup] *)
Class TaskGenerationLookup := { task_generation : string → result Z MergeError }.

(** [ContextTreeMerge::decode_canonical] *)
Definition decode_canonical (l : bytes) : merge_run ContextTree :=
  match from_canonical_bytes l with
  | Returned (Ok t) => Returned (Ok t)
  | Returned (Err _) => Returned (Err MergeCorrupt)
  | Panicked => Panicked
  | OutOfFuel => OutOfFuel
  end.

Section Merge.
Context `{ContentApi}.

(** ** The strict merge base *)

(** The identifiers that are pushed: those not seen yet. *)
Definition unseen (seen : gset ContentHash) (l : list ContentHash) : list ContentHash :=
  List.filter (λ h, negb (bool_decide (h ∈ seen))) l.

(** The loop of [ancestor_set]. *)
Fixpoint ancestor_loop (fuel : nat) (s : Store) (root : ContentHash) (seen : gset ContentHash)
    (queue : list ContentHash) : merge_run (gset ContentHash) :=
  match fuel with
  | O => OutOfFuel
  | S fuel =>
      match queue with
      | [] => Returned (Ok seen)
      | current :: queue =>
          if bool_decide (current ∈ seen) then ancestor_loop fuel s root seen queue
          else
            let seen := {[current]} ∪ seen in
            match get_checkpoint s current with
            | Err e => Returned (Err (map_store e))
            | Ok None => Returned (Err (if str_eqb current root then MissingObject current else MergeCorrupt))
            | Ok (Some cp) =>
                ancestor_loop fuel s root seen (queue ++ unseen seen cp.(cp_draft).(parents))
            end
      end
  end.

(** [ancestor_set] *)
Definition ancestor_set (s : Store) (root : ContentHash) : merge_run (gset ContentHash) :=
  ancestor_loop (S (S (length (all_links s)))) s root ∅ [root].

(** The loop that fills [per_node]. *)
Fixpoint per_node_loop (s : Store) (common : list ContentHash) : merge_run (gmap ContentHash (gset ContentHash)) :=
  match common with
  | [] => Returned (Ok ∅)
  | c :: common =>
      run! ancestors := ancestor_set s c in
      run! rest := per_node_loop s common in
      Returned (Ok (<[c := ancestors]> rest))
  end.

(** The candidates of which another common ancestor descends. *)
Definition is_strict_ancestor (per_node : gmap ContentHash (gset ContentHash)) (common : list ContentHash)
    (candidate : ContentHash) : bool :=
  existsb (λ other, negb (str_eqb candidate other)
                    && bool_decide (candidate ∈ default ∅ (per_node !! other))) common.

(** [strict_merge_base] *)
Definition strict_merge_base (s : Store) (a b : ContentHash) : merge_run ContentHash :=
  if str_eqb a b then
    match get_checkpoint s a with
    | Err e => Returned (Err (map_store e))
    | Ok None => Returned (Err (MissingObject a))
    | Ok (Some _) => Returned (Ok a)
    end
  else
    run! ancestors_a := ancestor_set s a in
    run! ancestors_b := ancestor_set s b in
    let common := elements (ancestors_a ∩ ancestors_b) in
    match common with
    | [] => Returned (Err NoCommonAncestor)
    | [c] => Returned (Ok c)
    | _ =>
        run! per_node := per_node_loop s common in
        let minimal := sort_by_key (λ h : string, h)
                         (List.filter (λ c, negb (is_strict_ancestor per_node common c)) common) in
        match minimal with
        | [] => Returned (Err MergeCorrupt)
        | [m] => Returned (Ok m)
        | _ => Returned (Err CrissCrossHistory)
        end
    end.

(** ** Merging *)

(** [materialize_tree] *)
Definition materialize_tree (s : Store) (id : ContentHash) : merge_run ContextTree :=
  match get_checkpoint s id with
  | Err e => Returned (Err (map_store e))
  | Ok None => Returned (Err (MissingObject id))
  | Ok (Some cp) =>
      match cp.(cp_draft).(tree_hash) with
      | None => Returned (Err MergeCorrupt)
      | Some h =>
          match get_blob s h with
          | Err e => Returned (Err (map_store e))
          | Ok None => Returned (Err (MissingObject h))
          | Ok (Some bytes) => decode_canonical bytes
          end
      end
  end.

Record MergeInput := mkMergeInput {
  mi_ours : ContentHash;
  mi_theirs : ContentHash;
  target_branch : string;
  mi_task_id : string;
  mi_agent_id : string;
  mi_rationale : Rationale;
  mi_summary : string;
  expected_task_generation : option Z;
  mi_actor : string;
  mi_reason : string;
  mi_at_ms : Z
}.

Definition merge_draft (i : MergeInput) : CheckpointDraft :=
  mkCheckpointDraft [i.(mi_ours); i.(mi_theirs)] i.(mi_task_id) i.(mi_agent_id) i.(mi_rationale) None
    i.(mi_summary) i.(mi_at_ms).

(** The generation fence. *)
Definition check_generation `{TaskGenerationLookup} (i : MergeInput) : result unit MergeError :=
  match i.(expected_task_generation) with
  | None => Ok tt
  | Some fenced =>
      try! live := task_generation i.(mi_task_id) in
      if negb (live =? fenced) then Err (MergeStaleGeneration live fenced) else Ok tt
  end.

(** The steps of [merge_commit] that only read: the bytes of the merged tree. *)
Definition merged_bytes `{TaskGenerationLookup} (s : Store) (i : MergeInput) : merge_run bytes :=
  run! _ := Returned (map_err map_ref_err (BranchName_parse i.(target_branch))) in
  run! _ := Returned (check_generation i) in
  run! base_id := strict_merge_base s i.(mi_ours) i.(mi_theirs) in
  run! base_tree := materialize_tree s base_id in
  run! ours_tree := materialize_tree s i.(mi_ours) in
  run! theirs_tree := materialize_tree s i.(mi_theirs) in
  let m := merge_3way base_tree ours_tree theirs_tree in
  match m.(conflicts) with
  | [] => Returned (Ok (canonical_bytes m.(merged)))
  | l => Returned (Err (Conflicts l))
  end.

(** [merge_commit] *)
Definition merge_commit `{TaskGenerationLookup} (s : Store) (i : MergeInput) :
    run (Store * result Checkpoint MergeError) :=
  match merged_bytes s i with
  | OutOfFuel => OutOfFuel
  | Panicked => Panicked
  | Returned (Err e) => Returned (s, Err e)
  | Returned (Ok bytes) =>
      let '(s, r) := commit_checkpoint_with_branch s bytes i.(mi_at_ms) (merge_draft i) i.(target_branch)
                       i.(mi_reason) i.(mi_actor) i.(mi_at_ms) in
      Returned (s, map_err map_ref_err r)
  end.

(** ** Garbage collection *)

Record GcOptions := mkGcOptions {
  gc_now_ms : Z;
  reflog_grace_ms : Z;
  max_deletes_per_call : Z;
  dry_run : bool
}.

Definition GcOptions_default : GcOptions := mkGcOptions 0 0 256 false.

Record GcReport := mkGcReport {
  reachable_checkpoints : Z;
  deleted_checkpoints : Z;
  deleted_blobs : Z;
  truncated : bool
}.

Record GcPlan := mkGcPlan {
  gp_reachable : gset ContentHash;
  unreachable_checkpoints : list ContentHash;
  unreferenced_blobs : list ContentHash
}.

Definition GC_MAX_NESTED_TREE_DEPTH : Z := 8.

(** The roots: the targets of references and the hashes of recent reflog rows. *)
Definition ref_targets (s : Store) : gset ContentHash := list_to_set (list_refs s).*2.
Definition window_roots (window : list (option ContentHash * ContentHash)) : gset ContentHash :=
  list_to_set (List.filter (λ h, negb (str_eqb h tombstone_hash))
    (concat (map (λ r : option ContentHash * ContentHash,
                    match r.1 with Some old => [old; r.2] | None => [r.2] end) window))).

(** What the search over checkpoints finds. *)
Record Reach := mkReach {
  reachable : gset ContentHash;
  surviving_trees : gset ContentHash;
  parents_of : list (ContentHash * list ContentHash)
}.

Fixpoint reach_loop (fuel : nat) (s : Store) (r : Reach) (queue : list ContentHash) : merge_run Reach :=
  match fuel with
  | O => OutOfFuel
  | S fuel =>
      match queue with
      | [] => Returned (Ok r)
      | current :: queue =>
          if bool_decide (current ∈ r.(reachable)) then reach_loop fuel s r queue
          else
            match get_checkpoint s current with
            | Err e => Returned (Err (map_store e))
            | Ok None => reach_loop fuel s r queue
            | Ok (Some cp) =>
                let seen := {[current]} ∪ r.(reachable) in
                let trees := match cp.(cp_draft).(tree_hash) with
                             | Some t => {[t]} ∪ r.(surviving_trees)
                             | None => r.(surviving_trees)
                             end in
                reach_loop fuel s
                  (mkReach seen trees ((current, cp.(cp_draft).(parents)) :: r.(parents_of)))
                  (queue ++ unseen seen cp.(cp_draft).(parents))
            end
      end
  end.

(** Every parent of a reachable checkpoint is reachable. *)
Definition closed_links (r : Reach) : bool :=
  forallb (λ x, forallb (λ p, bool_decide (p ∈ r.(reachable))) x.2) r.(parents_of).

(** The entries of one tree: every hash survives, nested trees are queued. *)
Fixpoint visit_refs (refs : list (ContentHash * bool)) (depth : Z) (visited : gset ContentHash)
    (surviving : gset ContentHash) (queue : list (ContentHash * Z)) :
    result (gset ContentHash * list (ContentHash * Z)) MergeError :=
  match refs with
  | [] => Ok (surviving, queue)
  | (hash, is_tree) :: refs =>
      let surviving := {[hash]} ∪ surviving in
      if is_tree then
        if depth + 1 >? GC_MAX_NESTED_TREE_DEPTH then Err MergeCorrupt
        else visit_refs refs depth visited surviving
               (if bool_decide (hash ∈ visited) then queue else queue ++ [(hash, depth + 1)])
      else visit_refs refs depth visited surviving queue
  end.

(** The walk over the surviving trees. *)
Fixpoint tree_loop (fuel : nat) (s : Store) (visited surviving : gset ContentHash)
    (queue : list (ContentHash * Z)) : merge_run (gset ContentHash) :=
  match fuel with
  | O => OutOfFuel
  | S fuel =>
      match queue with
      | [] => Returned (Ok surviving)
      | (tree_hash, depth) :: queue =>
          if bool_decide (tree_hash ∈ visited) then tree_loop fuel s visited surviving queue
          else
            let visited := {[tree_hash]} ∪ visited in
            match get_blob s tree_hash with
            | Err e => Returned (Err (map_store e))
            | Ok None => Returned (Err MergeCorrupt)
            | Ok (Some bytes) =>
                run! tree := decode_canonical bytes in
                run! next := Returned (visit_refs (slot_payload_refs tree) depth visited surviving queue) in
                let '(surviving, queue) := next in
                tree_loop fuel s visited surviving queue
            end
      end
  end.

(** Bounds on the turns of the loops: a root or a parent link each; for trees, a root
    or an entry of a stored blob, of which each takes at least 45 bytes. *)
Definition reach_fuel (s : Store) (roots : list ContentHash) : nat := S (length roots + length (all_links s)).
Definition blob_total (s : Store) : nat := length (concat (map (λ b, b.2.1) (map_to_list s.(blobs)))).
Definition tree_fuel (s : Store) (roots : list ContentHash) : nat := S (length roots + blob_total s).

(** [gc_compute] *)
Definition gc_compute (s : Store) (t : PendingTables) (o : GcOptions) : merge_run GcPlan :=
  let targets := ref_targets s in
  if negb (forallb (has_checkpoint s) (elements targets)) then Returned (Err MergeCorrupt)
  else
    let window := reflog_window_hashes s o.(gc_now_ms) o.(reflog_grace_ms) in
    let roots := elements (targets ∪ window_roots window) in
    run! r := reach_loop (reach_fuel s roots) s (mkReach ∅ ∅ []) roots in
    if negb (closed_links r) then Returned (Err MergeCorrupt)
    else
      let trees := elements r.(surviving_trees) in
      let unreachable := List.filter (λ h, negb (bool_decide (h ∈ r.(reachable)))) (all_checkpoint_hashes s) in
      run! surviving := tree_loop (tree_fuel s trees) s ∅ r.(surviving_trees) (map (λ h, (h, 0)) trees) in
      run! pending := Returned (map_err map_pending (open_blob_roots t)) in
      let surviving := list_to_set pending ∪ surviving in
      Returned (Ok (mkGcPlan r.(reachable) unreachable
        (List.filter (λ h, negb (bool_decide (h ∈ surviving))) (all_blob_hashes s)))).

(** [bound_report] *)
Definition bound_report (p : GcPlan) (max_deletes : Z) : GcReport :=
  let total := len p.(unreachable_checkpoints) + len p.(unreferenced_blobs) in
  let budget := Z.min max_deletes total in
  let cps := Z.min (len p.(unreachable_checkpoints)) budget in
  mkGcReport (Z.of_nat (size p.(gp_reachable))) cps (saturating_sub64 budget cps) (total >? budget).

(** [gc_preview] *)
Definition gc_preview (s : Store) (t : PendingTables) (o : GcOptions) : merge_run GcReport :=
  run! plan := gc_compute s t o in
  Returned (Ok (bound_report plan o.(max_deletes_per_call))).

(** [collect_garbage] *)
Definition collect_garbage (s : Store) (t : PendingTables) (o : GcOptions) :
    run (Store * result GcReport MergeError) :=
  let finish (r : merge_run (Store * GcReport)) :=
    match r with
    | Returned (Ok (s', report)) => Returned (s', Ok report)
    | Returned (Err e) => Returned (s, Err e)
    | Panicked => Panicked
    | OutOfFuel => OutOfFuel
    end in
  finish (
    if o.(dry_run) then run! report := gc_preview s t o in Returned (Ok (s, report))
    else
      run! plan := gc_compute s t o in
      let report := bound_report plan o.(max_deletes_per_call) in
      let cps := take (Z.to_nat report.(deleted_checkpoints)) plan.(unreachable_checkpoints) in
      let bs := take (Z.to_nat report.(deleted_blobs)) plan.(unreferenced_blobs) in
      if (report.(deleted_checkpoints) =? 0) && (report.(deleted_blobs) =? 0) then Returned (Ok (s, report))
      else Returned (Ok (delete_checkpoints_and_blobs s cps bs, report))).

(** [export_preview] *)
Definition export_preview (s : Store) : list (string * ContentHash) := list_refs s.

End Merge.
