(* ===== verification/MergeFacts.v ===== *)
(** * MergeFacts: the strict merge base and merge commits

    The search for ancestors is exact, so the strict merge base is the greatest common
    ancestor whenever there is one; a merge commit either fails and leaves the store as it
    was, or records the merge of the three trees on the branch. *)

From stdpp Require Import gmap.
From S2P Require Import Prelude Text Order Wire Search ObjectStore StoreFacts Branches Bindings BranchFacts PendingLog ContextTree TreeFacts Merge.

Local Open Scope Z_scope.
Local Open Scope rust_scope.

Section Facts.
Context `{ContentApi}.

(** ** Ancestors *)

Lemma unseen_elem seen l p : p ∈ unseen seen l ↔ p ∈ l ∧ (p ∉ seen).
Proof. unfold unseen. by rewrite List_filter_elem, negb_true_iff, bool_decide_eq_false. Qed.

Lemma unseen_length seen l : (length (unseen seen l) ≤ length l)%nat.
Proof. pose proof (len_filter_le (λ h, negb (bool_decide (h ∈ seen))) l) as Hl. unfold len in Hl. unfold unseen. lia. Qed.

Lemma ancestor_loop_ok s root : store_ok s → ∀ fuel seen queue, search_inv s {[root]} seen queue →
  (∀ h, h ∈ queue → has_cp s h) → (length queue + links_left s seen < fuel)%nat →
  ∃ A, ancestor_loop fuel s root seen queue = Returned (Ok A) ∧ search_inv s {[root]} A [].
Proof.
  intros Hok. induction fuel as [|fuel IH]; intros seen queue Hinv Hq Hf; [lia|].
  destruct queue as [|h queue]; [by exists seen|]. cbn [ancestor_loop].
  assert (∀ x, x ∈ queue → has_cp s x) as Hq' by (intros; apply Hq; by apply elem_of_cons; right).
  case_bool_decide as Hs; [apply IH; [by eapply search_skip; eauto|done|simpl in Hf; lia]|].
  destruct (Hq h (list_elem_of_here _ _)) as [row Hrow].
  rewrite get_checkpoint_ok, Hrow by apply Hok. simpl. apply IH.
  - eapply search_visit; [done|done|]. intros p. apply unseen_elem.
  - intros p [Hp|Hp]%elem_of_app; [by apply Hq'|]. apply unseen_elem in Hp as [Hp _].
    apply (sok_parents s Hok h). by exists row.
  - pose proof (links_left_step s seen h row Hrow Hs). pose proof (unseen_length ({[h]} ∪ seen) row.(parents)).
    rewrite length_app. simpl in Hf. lia.
Qed.

Lemma ancestor_has_cp s a x : store_ok s → has_cp s a → ancestor s a x → has_cp s x.
Proof.
  intros Hok Ha Hx. revert x Hx. apply rtc_ind_r; [done|]. intros y z _ Hyz _. by eapply (sok_parents s Hok).
Qed.

Lemma ancestor_set_ok s root : store_ok s → has_cp s root →
  ∃ A, ancestor_set s root = Returned (Ok A) ∧ ∀ x, x ∈ A ↔ ancestor s root x.
Proof.
  intros Hok Hr. destruct (ancestor_loop_ok s root Hok (S (S (length (all_links s)))) ∅ [root]) as (A & E & Hinv).
  - pose proof (search_start s {[root]}) as Hs. by rewrite elements_singleton in Hs.
  - by intros h ->%list_elem_of_singleton.
  - rewrite links_left_empty. simpl. lia.
  - exists A. split; [done|]. intros x. rewrite (search_end s _ _ Hinv). split.
    + by intros [_ (r & ->%elem_of_singleton & ?)].
    + intros Hx. split; [by eapply ancestor_has_cp|]. exists root. split; [by apply elem_of_singleton|done].
Qed.

Lemma ancestor_set_missing s root : store_ok s → ¬ has_cp s root →
  ancestor_set s root = Returned (Err (MissingObject root)).
Proof.
  intros Hok Hr. apply eq_None_not_Some in Hr. unfold ancestor_set. cbn [ancestor_loop].
  rewrite bool_decide_false by apply not_elem_of_empty. rewrite get_checkpoint_ok, Hr by apply Hok. simpl.
  by rewrite (proj2 (str_eqb_eq root root)).
Qed.

Lemma per_node_ok s common : store_ok s → (∀ c, c ∈ common → has_cp s c) →
  ∃ m, per_node_loop s common = Returned (Ok m)
    ∧ ∀ c, c ∈ common → ∃ A, m !! c = Some A ∧ ∀ x, x ∈ A ↔ ancestor s c x.
Proof.
  intros Hok. induction common as [|c common IH]; intros Hc; [exists ∅; split; [done|by intros c ?%elem_of_nil]|].
  destruct (ancestor_set_ok s c Hok (Hc c (list_elem_of_here _ _))) as (A & E & HA).
  destruct IH as (m & Em & Hm); [intros; apply Hc; by apply elem_of_cons; right|].
  exists (<[c := A]> m). cbn [per_node_loop]. rewrite E. simpl. rewrite Em. simpl. split; [done|].
  intros x Hx. destruct (decide (x = c)) as [->|Hne]; [exists A; by rewrite lookup_insert_eq|].
  rewrite lookup_insert_ne by done. apply Hm. by apply elem_of_cons in Hx as [?|?].
Qed.

(** ** The greatest common ancestor *)

Definition common_ancestor (s : Store) (a b c : ContentHash) : Prop := ancestor s a c ∧ ancestor s b c.
Definition greatest (s : Store) (a b m : ContentHash) : Prop :=
  common_ancestor s a b m ∧ ∀ c, common_ancestor s a b c → ancestor s m c.

(** No other common ancestor descends from it. *)
Definition lowest (s : Store) (common : list ContentHash) (c : ContentHash) : Prop :=
  c ∈ common ∧ ∀ o, o ∈ common → ancestor s o c → o = c.

Lemma rank_ancestor s rank o c : (∀ c p, link s c p → (rank p < rank c)%nat) → ancestor s o c → o = c ∨ (rank c < rank o)%nat.
Proof.
  intros Hr. revert c. apply rtc_ind_r; [by left|]. intros y z _ Hyz [->|Hy]; right; specialize (Hr y z Hyz); lia.
Qed.

Definition per_node_exact (s : Store) (common : list ContentHash) (m : gmap ContentHash (gset ContentHash)) : Prop :=
  ∀ c, c ∈ common → ∃ A, m !! c = Some A ∧ ∀ x, x ∈ A ↔ ancestor s c x.

Lemma is_strict_ancestor_spec s common m c : per_node_exact s common m →
  is_strict_ancestor m common c = true ↔ ∃ o, o ∈ common ∧ o ≠ c ∧ ancestor s o c.
Proof.
  intros Hm. unfold is_strict_ancestor. rewrite existsb_true_iff. split.
  - intros (o & Ho & Hb). apply andb_true_iff in Hb as [Hne Hin]. destruct (Hm o Ho) as (A & EA & HA).
    rewrite EA in Hin. apply bool_decide_eq_true, HA in Hin. exists o. split_and!; try done.
    intros ->. by rewrite (proj2 (str_eqb_eq c c)) in Hne.
  - intros (o & Ho & Hne & Ha). exists o. split; [done|]. destruct (Hm o Ho) as (A & EA & HA). rewrite EA.
    apply andb_true_iff. split; [|by apply bool_decide_eq_true, HA].
    destruct (str_eqb c o) eqn:E; [|done]. apply str_eqb_eq in E. congruence.
Qed.

Lemma is_strict_ancestor_lowest s common m c : per_node_exact s common m → c ∈ common →
  is_strict_ancestor m common c = false ↔ lowest s common c.
Proof.
  intros Hm Hc. pose proof (is_strict_ancestor_spec s common m c Hm) as Hs. split.
  - intros E. split; [done|]. intros o Ho Ha. destruct (decide (o = c)) as [|Hne]; [done|]. exfalso.
    rewrite (proj2 Hs) in E; [done|]. eauto.
  - intros [_ Hl]. destruct (is_strict_ancestor m common c); [|done]. destruct (proj1 Hs eq_refl) as (o & Ho & Hne & Ha).
    by rewrite (Hl o Ho Ha) in Hne.
Qed.

(** Below every common ancestor lies a lowest one. *)
Lemma lowest_covers s common m c : store_ok s → per_node_exact s common m → c ∈ common →
  ∃ l, lowest s common l ∧ ancestor s l c.
Proof.
  intros Hok Hm. destruct (sok_ranked s Hok) as [rank Hr].
  remember (list_max rank common - rank c)%nat as n eqn:Hn. revert c Hn.
  induction n as [n IH] using lt_wf_ind. intros c Hn Hc. destruct (is_strict_ancestor m common c) eqn:E.
  - apply (is_strict_ancestor_spec s) in E as (o & Ho & Hne & Ha); [|done].
    destruct (rank_ancestor s rank o c Hr Ha) as [?|Hlt]; [done|]. pose proof (list_max_ge rank common o Ho).
    destruct (IH (list_max rank common - rank o)%nat ltac:(lia) o eq_refl Ho) as (l & Hl & Hlo).
    exists l. split; [done|]. by etrans.
  - exists c. split; [|apply rtc_refl]. by eapply is_strict_ancestor_lowest.
Qed.

Lemma greatest_lowest s common g l : (∀ c, c ∈ common → ancestor s g c) → g ∈ common → lowest s common l → l = g.
Proof. intros Hg Hin [Hl Hlow]. symmetry. apply Hlow; [done|by apply Hg]. Qed.

(** The choice among the common ancestors. *)
Lemma minimal_exact s a b common m : store_ok s → per_node_exact s common m → NoDup common →
  (∀ c, c ∈ common ↔ common_ancestor s a b c) → common ≠ [] →
  match sort_by_key (λ h : string, h) (List.filter (λ c, negb (is_strict_ancestor m common c)) common) with
  | [] => False
  | [l] => greatest s a b l
  | _ => ∀ g, ¬ greatest s a b g
  end.
Proof.
  intros Hok Hm Hnd Hcommon Hne. set (minimal := sort_by_key _ _).
  assert (∀ l, l ∈ minimal ↔ lowest s common l) as Hmin.
  { intros l. unfold minimal. rewrite sort_by_key_perm, List_filter_elem, negb_true_iff. split.
    - intros [Hl E]. by eapply is_strict_ancestor_lowest.
    - intros Hl. split; [apply Hl|]. eapply is_strict_ancestor_lowest; [done|apply Hl|done]. }
  assert (NoDup minimal) as Hndm.
  { unfold minimal. rewrite sort_by_key_perm. by eapply sublist_NoDup, sublist_List_filter. }
  destruct common as [|c0 common']; [done|]. set (common := c0 :: common') in *.
  destruct (lowest_covers s common m c0 Hok Hm (list_elem_of_here _ _)) as (l0 & Hl0 & _). apply Hmin in Hl0.
  destruct minimal as [|l [|l' minimal]]; [by apply elem_of_nil in Hl0| |].
  - assert (lowest s common l) as Hl by (apply Hmin, list_elem_of_here). split; [apply Hcommon, Hl|].
    intros c Hc%Hcommon. destruct (lowest_covers s common m c Hok Hm Hc) as (l1 & Hl1 & Ha).
    apply Hmin, list_elem_of_singleton in Hl1 as ->. done.
  - intros g [Hg1 Hg2]. assert (∀ x, x ∈ l :: l' :: minimal → x = g) as Hall.
    { intros x Hx%Hmin. eapply greatest_lowest; [|by apply Hcommon|done]. intros c Hc. by apply Hg2, Hcommon. }
    apply NoDup_cons in Hndm as [Hnot _]. apply Hnot. rewrite (Hall l) by apply list_elem_of_here.
    rewrite (Hall l') by (apply elem_of_cons; right; apply list_elem_of_here). apply list_elem_of_here.
Qed.

Lemma choose_base s a b common : store_ok s → NoDup common → (∀ c, c ∈ common ↔ common_ancestor s a b c) →
  (∀ c, c ∈ common → has_cp s c) →
  ∃ r, match common with
       | [] => Returned (Err NoCommonAncestor)
       | [c] => Returned (Ok c)
       | _ =>
           run! per_node := per_node_loop s common in
           let minimal := sort_by_key (λ h : string, h)
                            (List.filter (λ c, negb (is_strict_ancestor per_node common c)) common) in
           match minimal with
           | [] => Returned (Err MergeCorrupt)
           | [m] => Returned (Ok m)
           | _ => Returned (Err CrissCrossHistory)
           end
       end = Returned r
    ∧ match r with
      | Ok m => greatest s a b m
      | Err NoCommonAncestor => ∀ c, ¬ common_ancestor s a b c
      | Err CrissCrossHistory => (∃ c, common_ancestor s a b c) ∧ ∀ m, ¬ greatest s a b m
      | Err _ => False
      end.
Proof.
  intros Hok Hnd Hcommon Hcp. destruct common as [|c0 [|c1 common']].
  - eexists. split; [done|]. by intros c ?%Hcommon%elem_of_nil.
  - eexists. split; [done|]. split; [apply Hcommon, list_elem_of_here|].
    intros c Hc%Hcommon. apply list_elem_of_singleton in Hc as ->. apply rtc_refl.
  - set (common := c0 :: c1 :: common') in *. destruct (per_node_ok s common Hok Hcp) as (m & -> & Hm). simpl.
    pose proof (minimal_exact s a b common m Hok Hm Hnd Hcommon ltac:(done)) as Hx.
    fold common. destruct (sort_by_key _ _) as [|l [|l' minimal]]; [done| |]; eexists; (split; [done|]); [done|].
    split; [|done]. exists c0. apply Hcommon, list_elem_of_here.
Qed.

(** The strict merge base of two checkpoints of a store is their greatest common
    ancestor: it is returned exactly when one exists, histories without a common ancestor
    and histories with several lowest ones are told apart, and a tip without a row is
    reported as missing. *)
Theorem strict_merge_base_correct s a b : store_ok s → ∃ r, strict_merge_base s a b = Returned r
  ∧ match r with
    | Ok m => has_cp s a ∧ has_cp s b ∧ greatest s a b m
    | Err NoCommonAncestor => has_cp s a ∧ has_cp s b ∧ ∀ c, ¬ common_ancestor s a b c
    | Err CrissCrossHistory => has_cp s a ∧ has_cp s b ∧ (∃ c, common_ancestor s a b c) ∧ ∀ m, ¬ greatest s a b m
    | Err (MissingObject h) => (h = a ∨ h = b) ∧ ¬ has_cp s h
    | Err _ => False
    end.
Proof.
  intros Hok. unfold strict_merge_base. destruct (str_eqb a b) eqn:Eab.
  { apply str_eqb_eq in Eab as <-. rewrite get_checkpoint_ok by apply Hok.
    destruct (checkpoints s !! a) as [row|] eqn:Ea; simpl; eexists; (split; [done|]).
    - split_and!; [by eexists..|]. split; [split; apply rtc_refl|]. by intros c [? _].
    - split; [by left|]. intros [? ?]. congruence. }
  assert (∀ h, checkpoints s !! h = None → ancestor_set s h = Returned (Err (MissingObject h)) ∧ ¬ has_cp s h) as Hmiss.
  { intros h Hh. assert (¬ has_cp s h) as Hn by (intros [? ?]; congruence). split; [by apply ancestor_set_missing|done]. }
  destruct (checkpoints s !! a) as [row|] eqn:Ea; [|destruct (Hmiss a Ea) as [-> ?]; eexists; split; [done|by split; [left|]]].
  destruct (ancestor_set_ok s a Hok) as (A & -> & HA); [by eexists|]. simpl.
  destruct (checkpoints s !! b) as [row'|] eqn:Eb; [|destruct (Hmiss b Eb) as [-> ?]; eexists; split; [done|by split; [right|]]].
  destruct (ancestor_set_ok s b Hok) as (B & -> & HB); [by eexists|]. simpl.
  assert (∀ c, c ∈ elements (A ∩ B) ↔ common_ancestor s a b c) as Hcommon.
  { intros c. rewrite elem_of_elements, elem_of_intersection, HA, HB. done. }
  assert (has_cp s a ∧ has_cp s b) as [Hca Hcb] by (split; by eexists).
  destruct (choose_base s a b (elements (A ∩ B)) Hok (NoDup_elements _) Hcommon) as (r & E & Hr).
  { intros c Hc. apply Hcommon in Hc as [Hc _]. apply (ancestor_has_cp s a c Hok Hca Hc). }
  exists r. split; [exact E|]. destruct r as [|[]]; tauto.
Qed.


(** ** Merge commits *)

Lemma decode_canonical_total l : ∃ r, decode_canonical l = Returned r ∧ ∀ t, r = Ok t → tree_wf t.
Proof.
  unfold decode_canonical. destruct (from_canonical_total l) as (r & -> & Hr). destruct r; eexists; (split; [done|]); [|done].
  intros t [= <-]. by apply Hr.
Qed.

Lemma materialize_total s h : store_ok s → ∃ r, materialize_tree s h = Returned r ∧ ∀ t, r = Ok t → tree_wf t.
Proof.
  intros Hok. unfold materialize_tree. rewrite get_checkpoint_ok by apply Hok.
  destruct (checkpoints s !! h) as [row|]; simpl; [|by eexists]. destruct (tree_hash row) as [t|]; [|by eexists].
  rewrite get_blob_ok by apply Hok. destruct (blobs s !! t) as [[d n]|]; simpl; [apply decode_canonical_total|by eexists].
Qed.

(** The branch and HEAD are on the new checkpoint, and one row says so. *)
Definition committed (s s' : Store) (cp : Checkpoint) (d : CheckpointDraft) (tree : bytes) (branch why who : string) (at_ : Z) : Prop :=
  cp.(cp_draft) = with_tree d (sha256 tree) ∧ cp.(cp_id) = canonical_hash cp.(cp_draft)
  ∧ has_cp s' cp.(cp_id) ∧ is_Some (s'.(blobs) !! sha256 tree)
  ∧ get_ref s' "HEAD" = Some cp.(cp_id) ∧ get_ref s' branch = Some cp.(cp_id)
  ∧ (∀ name, name ≠ "HEAD" → name ≠ branch → get_ref s' name = get_ref s name)
  ∧ s'.(reflog) = s.(reflog)
      ++ [mkReflogRow (s.(last_seq) + 1) branch (get_ref s branch) cp.(cp_id) why who (to_i64 at_)].

Lemma commit_with_branch_spec s tree n d branch why who at_ :
  let '(s', r) := commit_checkpoint_with_branch s tree n d branch why who at_ in
  match r with Ok cp => committed s s' cp d tree branch why who at_ | Err _ => s' = s end.
Proof.
  unfold commit_checkpoint_with_branch. destruct (_ >? _); [done|]. destruct (map_err _ (validate_draft d)); [|done]. simpl.
  destruct (BranchName_parse branch) as [b|] eqn:Eb; simpl; [|done].
  assert (b = branch ∧ branch ≠ "HEAD") as [-> Hne].
  { apply BranchName_parse_id in Eb as [-> Hb]. split; [done|]. intros ->. by apply HEAD_not_branch. }
  destruct (map_err _ (check_parents _ _)); simpl; [|done].
  destruct (append_reflog_tx _ _ _ _ _ _ _) as [s3|] eqn:E; simpl; [|done]. apply append_moved in E as ->.
  unfold committed, has_cp, get_ref. simpl. rewrite !lookup_insert_eq, !(lookup_insert_ne _ branch) by done.
  rewrite lookup_insert_eq. split_and!; try done; [apply insert_or_ignore_here..| |].
  - intros name H1 H2. by rewrite !lookup_insert_ne.
  - by rewrite (lookup_insert_ne _ "HEAD") by done.
Qed.

(** The three trees of a merge. *)
Definition merge_trees (s : Store) (i : MergeInput) (m : TreeMergeResult) : Prop :=
  ∃ base tb to_ tt_, strict_merge_base s i.(mi_ours) i.(mi_theirs) = Returned (Ok base)
    ∧ materialize_tree s base = Returned (Ok tb) ∧ materialize_tree s i.(mi_ours) = Returned (Ok to_)
    ∧ materialize_tree s i.(mi_theirs) = Returned (Ok tt_) ∧ m = merge_3way tb to_ tt_
    ∧ tree_wf tb ∧ tree_wf to_ ∧ tree_wf tt_.

Lemma strict_merge_base_total s a b : store_ok s → ∃ r, strict_merge_base s a b = Returned r.
Proof.
  intros Hok. unfold strict_merge_base. destruct (str_eqb a b).
  { rewrite get_checkpoint_ok by apply Hok. destruct (checkpoints s !! a); by eexists. }
  assert (∀ h, ∃ r, ancestor_set s h = Returned r ∧ ∀ A, r = Ok A → has_cp s h ∧ ∀ x, x ∈ A ↔ ancestor s h x) as Hset.
  { intros h. destruct (checkpoints s !! h) as [row|] eqn:E.
    - destruct (ancestor_set_ok s h Hok) as (A & EA & HA); [by eexists|]. exists (Ok A). split; [done|].
      intros A' [= <-]. split; [by eexists|done].
    - exists (Err (MissingObject h)). split; [apply ancestor_set_missing; [done|]; intros [? ?]; congruence|done]. }
  destruct (Hset a) as ([A|e] & -> & HA); [|by eexists]. destruct (Hset b) as ([B|e] & -> & HB); [|by eexists]. simpl.
  destruct (HA A eq_refl) as [Hca HA']. destruct (HB B eq_refl) as [_ HB'].
  destruct (choose_base s a b (elements (A ∩ B)) Hok (NoDup_elements _)) as (r & E & _); [| |by exists r].
  - intros c. by rewrite elem_of_elements, elem_of_intersection, HA', HB'.
  - intros c. rewrite elem_of_elements, elem_of_intersection, HA'. intros [Hc _]. by apply (ancestor_has_cp s a).
Qed.

Lemma run_bind_total {A B} (e : merge_run A) (k : A → merge_run B) : (∃ r, e = Returned r) →
  (∀ a, e = Returned (Ok a) → ∃ r, k a = Returned r) → ∃ r, bind_run e k = Returned r.
Proof. intros [[a|err] ->] Hk; simpl; [by apply Hk|by eexists]. Qed.

Lemma run_bind_Ok {A B} (e : merge_run A) (k : A → merge_run B) b : bind_run e k = Returned (Ok b) →
  ∃ a, e = Returned (Ok a) ∧ k a = Returned (Ok b).
Proof. destruct e as [[a|err]| |]; simpl; try done. eauto. Qed.

Lemma merged_bytes_total `{TaskGenerationLookup} s i : store_ok s → ∃ r, merged_bytes s i = Returned r.
Proof.
  intros Hok. assert (∀ h, ∃ r, materialize_tree s h = Returned r) as Hm.
  { intros h. destruct (materialize_total s h Hok) as (r & -> & _). by eexists. }
  unfold merged_bytes. do 2 (apply run_bind_total; [by eexists|]; intros _ _).
  apply run_bind_total; [by apply strict_merge_base_total|]. intros base _.
  do 3 (apply run_bind_total; [apply Hm|]; intros ? _). destruct (conflicts _); by eexists.
Qed.

Lemma merged_bytes_Ok `{TaskGenerationLookup} s i l : store_ok s → merged_bytes s i = Returned (Ok l) →
  check_generation i = Ok tt ∧ ∃ m, merge_trees s i m ∧ m.(conflicts) = [] ∧ l = canonical_bytes m.(merged).
Proof.
  intros Hok E. unfold merged_bytes in E. apply run_bind_Ok in E as (b & _ & E). apply run_bind_Ok in E as ([] & [= Eg] & E).
  apply run_bind_Ok in E as (base & Eb & E). apply run_bind_Ok in E as (tb & Etb & E).
  apply run_bind_Ok in E as (to_ & Eto & E). apply run_bind_Ok in E as (tt_ & Ett & E).
  assert (∀ h t, materialize_tree s h = Returned (Ok t) → tree_wf t) as Hwf.
  { intros h t Ht. destruct (materialize_total s h Hok) as (r & Er & Hr). rewrite Ht in Er. injection Er as <-. by apply Hr. }
  split; [done|]. exists (merge_3way tb to_ tt_). destruct (conflicts _) eqn:Ec; [|done]. injection E as <-.
  split_and!; try done. exists base, tb, to_, tt_. split_and!; eauto.
Qed.

Lemma merged_bytes_conflicts `{TaskGenerationLookup} s i m : is_branch i.(target_branch) → check_generation i = Ok tt →
  merge_trees s i m → m.(conflicts) ≠ [] → merged_bytes s i = Returned (Err (Conflicts m.(conflicts))).
Proof.
  intros Hb Hg (base & tb & to_ & tt_ & Eb & Etb & Eto & Ett & -> & _) Hc. unfold merged_bytes.
  rewrite Hb, Hg. simpl. rewrite Eb. simpl. rewrite Etb. simpl. rewrite Eto. simpl. rewrite Ett. simpl.
  by destruct (conflicts _).
Qed.

(** C16: a merge commit is all or nothing: it always returns; a failure, of whatever kind,
    leaves the store as it was, and conflicting slots are always reported as such; a
    success has passed the generation fence, has the two tips as parents and the clean
    three-way merge of the trees as its tree (which can be read back), moves HEAD and the
    branch to it, no other reference, and appends exactly one reflog row. *)
Theorem merge_commit_correct `{TaskGenerationLookup} s i : store_ok s → ∃ s' r, merge_commit s i = Returned (s', r)
  ∧ match r with
    | Err _ => s' = s
    | Ok cp => check_generation i = Ok tt ∧ cp.(cp_draft).(parents) = [i.(mi_ours); i.(mi_theirs)]
        ∧ ∃ m, merge_trees s i m ∧ m.(conflicts) = []
            ∧ committed s s' cp (merge_draft i) (canonical_bytes m.(merged)) i.(target_branch) i.(mi_reason)
                i.(mi_actor) i.(mi_at_ms)
            ∧ from_canonical_bytes (canonical_bytes m.(merged)) = Returned (Ok m.(merged))
    end
  ∧ ∀ m, is_branch i.(target_branch) → check_generation i = Ok tt → merge_trees s i m → m.(conflicts) ≠ [] →
      r = Err (Conflicts m.(conflicts)).
Proof.
  intros Hok. unfold merge_commit. destruct (merged_bytes_total s i Hok) as ([l|e] & E); rewrite E.
  - pose proof (commit_with_branch_spec s l i.(mi_at_ms) (merge_draft i) i.(target_branch) i.(mi_reason) i.(mi_actor) i.(mi_at_ms)) as Hc.
    destruct (commit_checkpoint_with_branch _ _ _ _ _ _ _ _) as [s' r] eqn:Ec. eexists _, _. split; [done|].
    destruct (merged_bytes_Ok s i l Hok E) as (Hg & m & Hm & Hnc & ->). split.
    + destruct r as [cp|e]; simpl; [|done]. split_and!; [done| |].
      * destruct Hc as [-> _]. done.
      * exists m. split_and!; try done. apply decode_canonical_bytes.
        destruct Hm as (base & tb & to_ & tt_ & _ & _ & _ & _ & -> & W1 & W2 & W3).
        intros k x. rewrite merged_lookup by done. unfold three_way. repeat case_bool_decide; simpl; eauto; done.
    + intros m' Hb _ Hm' Hne. by rewrite (merged_bytes_conflicts s i m' Hb Hg Hm' Hne) in E.
  - eexists _, _. split; [done|]. split; [done|]. intros m Hb Hg Hm Hne.
    rewrite (merged_bytes_conflicts s i m Hb Hg Hm Hne) in E. congruence.
Qed.

End Facts.
