(* ===== verification/GcFacts.v ===== *)
(** * GcFacts: garbage collection is safe, exact and resumable

    The plan deletes exactly what no reference, recent reflog row or open call reaches;
    a call deletes a bounded part of it, in one transaction, and the store stays sound
    once all of the plan's checkpoints are gone. *)

From stdpp Require Import gmap.
From S2P Require Import Prelude Text Order Wire Search ObjectStore StoreFacts Branches Bindings BranchFacts PendingLog ContextTree TreeFacts Merge MergeFacts.

Local Open Scope Z_scope.
Local Open Scope rust_scope.

Section Facts.
Context `{ContentApi}.

(** ** What is live *)

Definition root (s : Store) (o : GcOptions) (h : ContentHash) : Prop :=
  (∃ name n, s.(refs) !! name = Some (h, n))
  ∨ h ≠ tombstone_hash ∧ ∃ r, r ∈ s.(reflog) ∧ Z.min (saturating_sub64 o.(gc_now_ms) o.(reflog_grace_ms)) i64_max ≤ r.(at_ms)
      ∧ (r.(old_hash) = Some h ∨ r.(new_hash) = h).
Definition live (s : Store) (o : GcOptions) (h : ContentHash) : Prop := has_cp s h ∧ ∃ r, root s o r ∧ ancestor s r h.

(** A stored tree names a blob, or a nested tree. *)
Definition tree_at (s : Store) (h : ContentHash) (t : ContextTree) : Prop :=
  ∃ d n, s.(blobs) !! h = Some (d, n) ∧ from_canonical_bytes d = Returned (Ok t).
Definition names_blob (s : Store) (h b : ContentHash) : Prop := ∃ t k, tree_at s h t ∧ (b, k) ∈ slot_payload_refs t.
Definition nests (s : Store) (h b : ContentHash) : Prop := ∃ t, tree_at s h t ∧ (b, true) ∈ slot_payload_refs t.

(** The blobs that live trees, their entries and open calls need. *)
Definition live_tree (s : Store) (o : GcOptions) (t : ContentHash) : Prop :=
  ∃ h row, live s o h ∧ s.(checkpoints) !! h = Some row ∧ row.(tree_hash) = Some t.
Definition retained (s : Store) (p : PendingTables) (o : GcOptions) (b : ContentHash) : Prop :=
  live_tree s o b ∨ (∃ t x, live_tree s o t ∧ rtc (nests s) t x ∧ names_blob s x b)
  ∨ ∃ l, open_blob_roots p = Ok l ∧ b ∈ l.

(** ** Roots *)

Lemma ref_targets_elem s h : h ∈ ref_targets s ↔ ∃ name n, s.(refs) !! name = Some (h, n).
Proof.
  unfold ref_targets, list_refs. rewrite elem_of_list_to_set, list_elem_of_fmap. split.
  - intros ([name h'] & -> & Hx). rewrite sort_by_key_perm, list_elem_of_fmap in Hx.
    destruct Hx as ([i [x n]] & [= -> ->] & Hi%elem_of_map_to_list). simpl. eauto.
  - intros (name & n & Hi). exists (name, h). split; [done|]. rewrite sort_by_key_perm, list_elem_of_fmap.
    exists (name, (h, n)). split; [done|]. by apply elem_of_map_to_list.
Qed.

Lemma window_roots_elem s o h : h ∈ window_roots (reflog_window_hashes s o.(gc_now_ms) o.(reflog_grace_ms)) ↔
  h ≠ tombstone_hash ∧ ∃ r, r ∈ s.(reflog) ∧ Z.min (saturating_sub64 o.(gc_now_ms) o.(reflog_grace_ms)) i64_max ≤ r.(at_ms)
    ∧ (r.(old_hash) = Some h ∨ r.(new_hash) = h).
Proof.
  unfold window_roots. rewrite elem_of_list_to_set, List_filter_elem, negb_true_iff.
  assert (str_eqb h tombstone_hash = false ↔ h ≠ tombstone_hash) as ->.
  { rewrite <-not_true_iff_false. by rewrite str_eqb_eq. }
  match goal with |- ?a ∧ ?b ↔ ?b ∧ ?c => enough (a ↔ c) by tauto end. rewrite list_elem_of_In, in_concat. setoid_rewrite in_map_iff.
  unfold reflog_window_hashes. setoid_rewrite in_map_iff. setoid_rewrite <-list_elem_of_In. split.
  - intros (l & (x & <- & r & <- & Hr) & Hh). apply List_filter_elem in Hr as [Hr Ht]. exists r. simpl in Hh.
    split_and!; [done|lia|]. destruct (old_hash r); rewrite ?elem_of_cons in Hh; rewrite ?elem_of_nil in Hh; naive_solver.
  - intros (r & Hr & Ht & Hh). eexists. split.
    + eexists. split; [done|]. exists r. split; [done|]. apply List_filter_elem. split; [done|]. lia.
    + simpl. destruct (old_hash r); rewrite ?elem_of_cons; naive_solver.
Qed.

Lemma roots_elem s o h :
  h ∈ ref_targets s ∪ window_roots (reflog_window_hashes s o.(gc_now_ms) o.(reflog_grace_ms)) ↔ root s o h.
Proof. by rewrite elem_of_union, ref_targets_elem, window_roots_elem. Qed.

(** ** Checkpoints *)

(** What the search keeps beside the set: the trees and links of what it has seen. *)
Record reach_inv (s : Store) (r : Reach) : Prop := {
  ri_trees t : t ∈ r.(surviving_trees) ↔ ∃ h row, h ∈ r.(reachable) ∧ s.(checkpoints) !! h = Some row ∧ row.(tree_hash) = Some t;
  ri_parents h l : (h, l) ∈ r.(parents_of) ↔ h ∈ r.(reachable) ∧ ∃ row, s.(checkpoints) !! h = Some row ∧ l = row.(parents)
}.

Lemma reach_inv_visit s r h row : reach_inv s r → s.(checkpoints) !! h = Some row →
  reach_inv s (mkReach ({[h]} ∪ r.(reachable))
    (match row.(tree_hash) with Some t => {[t]} ∪ r.(surviving_trees) | None => r.(surviving_trees) end)
    ((h, row.(parents)) :: r.(parents_of))).
Proof.
  intros [Ht Hp] Hh. constructor; simpl.
  - intros t. setoid_rewrite elem_of_union. setoid_rewrite elem_of_singleton. split.
    + destruct (tree_hash row) as [t'|] eqn:E; [rewrite elem_of_union, elem_of_singleton; intros [->|Hx]|intros Hx].
      * exists h, row. auto.
      * apply Ht in Hx as (h' & row' & ? & ? & ?). eauto 6.
      * apply Ht in Hx as (h' & row' & ? & ? & ?). eauto 6.
    + intros (h' & row' & [->|Hin] & Hrow & Et).
      * rewrite Hh in Hrow. injection Hrow as <-. rewrite Et. set_solver.
      * assert (t ∈ surviving_trees r) as Hx by (apply Ht; eauto). destruct (tree_hash row); [set_solver|done].
  - intros h' l. rewrite elem_of_cons, elem_of_union, elem_of_singleton, Hp. split.
    + intros [[= -> ->]|[? ?]]; [split; [by left|eauto]|auto].
    + intros [[->|?] (row' & Hrow & ->)]; [left; congruence|right; eauto].
Qed.

Lemma reach_loop_ok s roots : rows_ok s → ∀ fuel r queue, search_inv s roots r.(reachable) queue → reach_inv s r →
  (length queue + links_left s r.(reachable) < fuel)%nat →
  ∃ r', reach_loop fuel s r queue = Returned (Ok r') ∧ search_inv s roots r'.(reachable) [] ∧ reach_inv s r'.
Proof.
  intros Hok. induction fuel as [|fuel IH]; intros r queue Hinv Hri Hf; [lia|].
  destruct queue as [|h queue]; [by exists r|]. cbn [reach_loop]. simpl in Hf.
  case_bool_decide as Hs; [apply IH; [by eapply search_skip; eauto|done|lia]|].
  rewrite get_checkpoint_ok by done. destruct (checkpoints s !! h) as [row|] eqn:Hrow; simpl.
  - apply IH; simpl.
    + eapply search_visit; [done|done|]. intros p. apply unseen_elem.
    + by apply (reach_inv_visit s r h row).
    + pose proof (links_left_step s r.(reachable) h row Hrow Hs). pose proof (unseen_length ({[h]} ∪ r.(reachable)) row.(parents)).
      rewrite length_app. lia.
  - apply IH; [|done|lia]. eapply search_skip; [done|]. right. intros [? ?]. congruence.
Qed.

(** ** Trees *)

Lemma decode_loop_size : ∀ fuel l acc t, decode_loop fuel l acc = Returned (Ok t) → (size t ≤ size acc + length l)%nat.
Proof.
  induction fuel as [|fuel IH]; intros l acc t; (destruct l as [|b l]; [intros [= <-]; simpl; lia|]); [done|].
  cbn [decode_loop]. destruct (decode_entry (b :: l)) as [[e r]|] eqn:E; [|done]. apply decode_entry_wf in E as [_ Hr].
  intros Ht%IH. unfold tree_insert in Ht. rewrite map_size_insert in Ht. destruct (acc !! te_name e); unfold id in Ht; cbn [length] in *; lia.
Qed.

Lemma decoded_size d t : from_canonical_bytes d = Returned (Ok t) → (length (slot_payload_refs t) ≤ length d)%nat.
Proof.
  unfold from_canonical_bytes. destruct (_ || _); [done|]. intros Ht%decode_loop_size.
  rewrite map_size_empty, length_drop in Ht. unfold slot_payload_refs, tree_entries, slots.
  rewrite length_map, length_fmap, sort_by_key_perm, length_map_to_list. lia.
Qed.

Lemma tree_at_unique s h t t' : tree_at s h t → tree_at s h t' → t = t'.
Proof. intros (d & n & E & D) (d' & n' & E' & D'). congruence. Qed.

Lemma visit_refs_Ok refs depth visited : ∀ surviving queue S Q, visit_refs refs depth visited surviving queue = Ok (S, Q) →
  (∀ b, b ∈ S ↔ b ∈ surviving ∨ ∃ k, (b, k) ∈ refs)
  ∧ ∃ new, Q = queue ++ new ∧ (length new ≤ length refs)%nat
      ∧ ∀ x, x ∈ new.*1 ↔ (x, true) ∈ refs ∧ (x ∉ visited).
Proof.
  induction refs as [|[h k] refs IH]; intros surviving queue S Q; cbn [visit_refs].
  { intros [= <- <-]. split; [intros b; split; [by left|intros [?|[k ?%elem_of_nil]]; done]|].
    exists []. rewrite app_nil_r. split_and!; [done|done|]. intros x. simpl. split; [by intros ?%elem_of_nil|by intros [?%elem_of_nil _]]. }
  assert (∀ b, (∃ k', (b, k') ∈ (h, k) :: refs) ↔ b = h ∨ ∃ k', (b, k') ∈ refs) as Hex.
  { intros b. setoid_rewrite elem_of_cons. split; [intros (k' & [[= -> _]|?]); eauto|intros [->|[k' ?]]; eauto]. }
  assert (∀ b, (b, true) ∈ (h, k) :: refs ↔ b = h ∧ k = true ∨ (b, true) ∈ refs) as Htrue.
  { intros b. rewrite elem_of_cons. split; [intros [[= -> <-]|?]; auto|intros [[-> ->]|?]; auto]. }
  assert (∀ q, visit_refs refs depth visited ({[h]} ∪ surviving) q = Ok (S, Q) →
    (∀ b, b ∈ S ↔ b ∈ surviving ∨ ∃ k', (b, k') ∈ (h, k) :: refs)) as HS.
  { intros q [HS _]%IH b. rewrite HS, Hex, elem_of_union, elem_of_singleton. tauto. }
  destruct k; [destruct (_ >? _); [done|]|]; intros E; (split; [by eapply HS|]); apply IH in E as [_ (new & -> & Hlen & Hnew)].
  - case_bool_decide as Hv.
    + exists new. split_and!; [done|simpl; lia|]. intros x. rewrite Hnew, Htrue. split; [tauto|]. intros [[[-> _]|?] ?]; [done|tauto].
    + exists ((h, depth + 1) :: new). rewrite <-app_assoc. split_and!; [done|simpl; lia|]. intros x. csimpl.
      rewrite elem_of_cons, Hnew, Htrue. split; [intros [->|[? ?]]; tauto|]. intros [[[-> _]|?] ?]; tauto.
  - exists new. split_and!; [done|simpl; lia|]. intros x. rewrite Hnew, Htrue. split; [tauto|]. intros [[[_ ?]|?] ?]; [done|tauto].
Qed.

Record tree_inv (s : Store) (roots visited surviving : gset ContentHash) (queue : list ContentHash) : Prop := {
  ti_roots r : r ∈ roots → r ∈ visited ∨ r ∈ queue;
  ti_reach h : h ∈ visited ∨ h ∈ queue → ∃ r, r ∈ roots ∧ rtc (nests s) r h;
  ti_nests h b : h ∈ visited → nests s h b → b ∈ visited ∨ b ∈ queue;
  ti_surviving b : b ∈ surviving ↔ b ∈ roots ∨ ∃ h, h ∈ visited ∧ names_blob s h b
}.

Lemma tree_inv_skip s roots visited surviving h queue : tree_inv s roots visited surviving (h :: queue) → h ∈ visited →
  tree_inv s roots visited surviving queue.
Proof.
  intros [H1 H2 H3 H4] Hh. constructor; [| | |done].
  - intros r Hr. destruct (H1 r Hr) as [?|[->|?]%elem_of_cons]; auto.
  - intros x Hx. apply H2. rewrite elem_of_cons. tauto.
  - intros x b Hx Hb. destruct (H3 x b Hx Hb) as [?|[->|?]%elem_of_cons]; auto.
Qed.

Lemma tree_inv_visit s roots visited surviving h queue t S new : tree_inv s roots visited surviving (h :: queue) →
  tree_at s h t → (∀ b, b ∈ S ↔ b ∈ surviving ∨ ∃ k, (b, k) ∈ slot_payload_refs t) →
  (∀ x, x ∈ new ↔ (x, true) ∈ slot_payload_refs t ∧ (x ∉ {[h]} ∪ visited)) →
  tree_inv s roots ({[h]} ∪ visited) S (queue ++ new).
Proof.
  intros [H1 H2 H3 H4] Ht HS Hnew. destruct (H2 h) as (r0 & Hr0 & Hpath); [right; apply list_elem_of_here|].
  assert (∀ x, x ∈ visited ∨ x ∈ h :: queue → x ∈ {[h]} ∪ visited ∨ x ∈ queue ++ new) as Hmono.
  { intros x. rewrite elem_of_cons, elem_of_union, elem_of_singleton, elem_of_app. tauto. }
  constructor.
  - intros r Hr. apply Hmono, H1, Hr.
  - intros x. rewrite elem_of_union, elem_of_singleton, elem_of_app. intros [[->|Hx]|[Hx|Hx]].
    + eauto.
    + apply H2. by left.
    + apply H2. right. by apply elem_of_cons; right.
    + apply Hnew in Hx as [Hx _]. exists r0. split; [done|]. eapply rtc_r; [done|]. by exists t.
  - intros x b [->%elem_of_singleton|Hx]%elem_of_union Hb; [|by eapply Hmono, H3].
    destruct Hb as (t' & Ht' & Hb). rewrite (tree_at_unique _ _ _ _ Ht' Ht) in Hb.
    destruct (decide (b ∈ {[h]} ∪ visited)); [by left|]. right. apply elem_of_app. right. by apply Hnew.
  - intros b. rewrite HS, H4. split.
    + intros [[?|(x & Hx & Hb)]|[k Hk]]; [by left| |]; right; [exists x|exists h]; (split; [set_solver|done || by exists t, k]).
    + intros [?|(x & [->%elem_of_singleton|Hx]%elem_of_union & Hb)]; [by left; left| |left; right; eauto].
      right. destruct Hb as (t' & k & Ht' & Hk). exists k. by rewrite <-(tree_at_unique _ _ _ _ Ht' Ht).
Qed.

Definition bytes_left (s : Store) (seen : gset ContentHash) : nat := left_in fst (map_to_list s.(blobs)) seen.

Lemma tree_loop_ok s roots : blobs_ok s → ∀ fuel visited surviving queue,
  tree_inv s roots visited surviving queue.*1 → (length queue + bytes_left s visited < fuel)%nat →
  ∃ r, tree_loop fuel s visited surviving queue = Returned r
    ∧ ∀ S, r = Ok S → ∃ V, tree_inv s roots V S [].
Proof.
  intros Hok. induction fuel as [|fuel IH]; intros visited surviving queue Hinv Hf; [lia|].
  destruct queue as [|[h depth] queue]; [eexists; split; [done|]; intros S [= <-]; by exists visited|]. cbn [tree_loop]. simpl in Hf.
  case_bool_decide as Hv; [apply IH; [by eapply tree_inv_skip|lia]|].
  rewrite get_blob_ok by done. destruct (blobs s !! h) as [[d n]|] eqn:Hd; simpl; [|by eexists].
  unfold decode_canonical. destruct (from_canonical_total d) as (r & Er & _). rewrite Er.
  destruct r as [t|]; simpl; [|by eexists].
  destruct (visit_refs _ _ _ _ _) as [[S Q]|] eqn:Ev; simpl; [|by eexists].
  apply visit_refs_Ok in Ev as (HS & new & -> & Hlen & Hnew). apply IH.
  - rewrite fmap_app. eapply tree_inv_visit; [done|by exists d, n|done|done].
  - pose proof (left_in_step fst s.(blobs) visited h (d, n) Hd Hv) as Hl. pose proof (decoded_size d t Er).
    unfold bytes_left in *. rewrite length_app. simpl in Hl. lia.
Qed.

(** At the end: the roots and everything that a tree reached from them names. *)
Lemma tree_inv_end s roots V S : tree_inv s roots V S [] →
  ∀ b, b ∈ S ↔ b ∈ roots ∨ ∃ t x, t ∈ roots ∧ rtc (nests s) t x ∧ names_blob s x b.
Proof.
  intros [H1 H2 H3 H4] b. rewrite H4. apply or_iff_compat_l. split.
  - intros (h & Hh & Hb). destruct (H2 h) as (r & Hr & Hp); [by left|]. eauto.
  - intros (t & x & Ht & Hp & Hb). exists x. split; [|done]. clear Hb. revert x Hp. apply rtc_ind_r.
    + by destruct (H1 t Ht) as [?|?%elem_of_nil].
    + intros y z _ Hyz Hy. by destruct (H3 y z Hy Hyz) as [?|?%elem_of_nil].
Qed.

(** ** The plan *)

Record plan_exact (s : Store) (p : PendingTables) (o : GcOptions) (plan : GcPlan) : Prop := {
  pe_reachable h : h ∈ plan.(gp_reachable) ↔ live s o h;
  pe_checkpoints h : h ∈ plan.(unreachable_checkpoints) ↔ has_cp s h ∧ ¬ live s o h;
  pe_blobs b : b ∈ plan.(unreferenced_blobs) ↔ is_Some (s.(blobs) !! b) ∧ ¬ retained s p o b;
  pe_split b : b ∈ plan.(unreferenced_blobs) ∨ retained s p o b ∨ s.(blobs) !! b = None;
  pe_closed h c : live s o h → link s h c → live s o c;
  pe_nodup : NoDup plan.(unreachable_checkpoints) ∧ NoDup plan.(unreferenced_blobs)
}.

Lemma all_keys_elem {A} (m : gmap string A) h : h ∈ sort_by_key (λ h : string, h) (map_to_list m).*1 ↔ is_Some (m !! h).
Proof.
  rewrite sort_by_key_perm, list_elem_of_fmap. split.
  - intros ([i x] & -> & Hx%elem_of_map_to_list). by exists x.
  - intros [x Hx]. exists (h, x). split; [done|]. by apply elem_of_map_to_list.
Qed.

Lemma closed_links_spec s r : reach_inv s r → closed_links r = true ↔ ∀ h p, h ∈ r.(reachable) → link s h p → p ∈ r.(reachable).
Proof.
  intros [_ Hp]. unfold closed_links. rewrite List.forallb_forall. split.
  - intros Hall h p Hh (row & Hrow & Hin). assert ((h, parents row) ∈ r.(parents_of)) as Hx by (apply Hp; eauto).
    apply list_elem_of_In, Hall in Hx. simpl in Hx. rewrite List.forallb_forall in Hx.
    apply list_elem_of_In, Hx in Hin. by apply bool_decide_eq_true in Hin.
  - intros Hcl [h l] Hx%list_elem_of_In. apply Hp in Hx as [Hh (row & Hrow & ->)]. simpl. apply List.forallb_forall.
    intros p Hin%list_elem_of_In. apply bool_decide_eq_true. apply (Hcl h); [done|]. by exists row.
Qed.

Lemma all_keys_NoDup {A} (m : gmap string A) (f : string → bool) :
  NoDup (List.filter f (sort_by_key (λ h : string, h) (map_to_list m).*1)).
Proof.
  eapply sublist_NoDup; [|apply sublist_List_filter]. rewrite sort_by_key_perm. apply NoDup_fst_map_to_list.
Qed.

(** The plan is computed on every sound store, and what it computes is exact. *)
Lemma gc_compute_spec s p o : blobs_ok s → rows_ok s → ∃ r, gc_compute s p o = Returned r
  ∧ ∀ plan, r = Ok plan → plan_exact s p o plan.
Proof.
  intros Hb Hr. unfold gc_compute. destruct (forallb _ _); cbn [negb]; [|by eexists].
  set (roots := ref_targets s ∪ window_roots (reflog_window_hashes s o.(gc_now_ms) o.(reflog_grace_ms))).
  destruct (reach_loop_ok s roots Hr (reach_fuel s (elements roots)) (mkReach ∅ ∅ []) (elements roots)) as (r & -> & Hend & Hri).
  { apply search_start. }
  { constructor; simpl.
    - intros t. split; [by intros ?%elem_of_empty|]. by intros (h & row & ?%elem_of_empty & _).
    - intros h l. split; [by intros ?%elem_of_nil|by intros [?%elem_of_empty _]]. }
  { unfold reach_fuel. simpl. rewrite links_left_empty. lia. }
  cbn [bind_run]. assert (∀ h, h ∈ r.(reachable) ↔ live s o h) as Hlive.
  { intros h. rewrite (search_end s _ _ Hend). unfold live. by setoid_rewrite <-roots_elem. }
  destruct (closed_links r) eqn:Hcl; cbn [negb]; [|by eexists]. rewrite (closed_links_spec s) in Hcl by done.
  assert (∀ t, t ∈ r.(surviving_trees) ↔ live_tree s o t) as Htree.
  { intros t. rewrite (ri_trees s r Hri). unfold live_tree. by setoid_rewrite Hlive. }
  destruct (tree_loop_ok s r.(surviving_trees) Hb (tree_fuel s (elements r.(surviving_trees))) ∅ r.(surviving_trees)
    (map (λ h, (h, 0)) (elements r.(surviving_trees)))) as (res & -> & HS).
  { change (map (λ h : string, (h, 0))) with (fmap (M := list) (λ h : string, (h, 0))). rewrite <-list_fmap_compose.
    rewrite (list_fmap_ext _ id) by done. rewrite list_fmap_id. constructor; [set_solver| |set_solver|set_solver].
    intros h [?|Hh%elem_of_elements]; [set_solver|]. exists h. split; [done|apply rtc_refl]. }
  { unfold tree_fuel, bytes_left, blob_total. rewrite left_in_empty, length_map. lia. }
  destruct res as [S|]; simpl; [|by eexists]. destruct (HS S eq_refl) as (V & HV).
  destruct (open_blob_roots p) as [l|] eqn:El; simpl; [|by eexists]. eexists. split; [done|]. intros plan [= <-].
  assert (∀ b, b ∈ list_to_set l ∪ S ↔ retained s p o b) as Hret.
  { intros b. rewrite elem_of_union, elem_of_list_to_set, (tree_inv_end s _ _ _ HV). unfold retained. setoid_rewrite Htree.
    rewrite El. split; [intros [?|[?|?]]; eauto|]. intros [?|[?|(l' & [= <-] & ?)]]; auto. }
  constructor; simpl; [done| | | | |split; apply all_keys_NoDup].
  - intros h. rewrite List_filter_elem, negb_true_iff, bool_decide_eq_false. unfold all_checkpoint_hashes.
    by rewrite all_keys_elem, Hlive.
  - intros b. rewrite List_filter_elem, negb_true_iff, bool_decide_eq_false. unfold all_blob_hashes.
    by rewrite all_keys_elem, Hret.
  - intros b. destruct (blobs s !! b) eqn:Eb; [|by right; right]. destruct (decide (b ∈ list_to_set l ∪ S)) as [Hin|Hin].
    + right. left. by apply Hret.
    + left. rewrite List_filter_elem, negb_true_iff, bool_decide_eq_false. split; [|done]. by apply all_keys_elem.
  - intros h c Hh Hl. apply Hlive. apply (Hcl h); [by apply Hlive|done].
Qed.

(** ** Collecting *)

Lemma delete_all_lookup {A} (m : gmap string A) l h : foldr delete m l !! h = if bool_decide (h ∈ l) then None else m !! h.
Proof.
  induction l as [|x l IH]; simpl; [done|].
  destruct (decide (h = x)) as [->|Hne]; [rewrite lookup_delete_eq, bool_decide_true; [done|apply list_elem_of_here]|].
  rewrite lookup_delete_ne, IH by done. rewrite (bool_decide_ext (h ∈ x :: l) (h ∈ l)); [done|]. rewrite elem_of_cons. tauto.
Qed.

Lemma delete_all_size {A} (m : gmap string A) l : NoDup l → (∀ h, h ∈ l → is_Some (m !! h)) →
  (size (foldr delete m l) + length l = size m)%nat.
Proof.
  induction l as [|x l IH]; simpl; intros Hnd Hl; [lia|]. apply NoDup_cons in Hnd as [Hx Hnd].
  assert (is_Some (foldr delete m l !! x)) as Hin.
  { rewrite delete_all_lookup, bool_decide_false by done. apply Hl, list_elem_of_here. }
  rewrite map_size_delete_Some by done. specialize (IH Hnd ltac:(intros; apply Hl; by apply elem_of_cons; right)).
  assert (size (foldr delete m l) ≠ 0%nat); [|lia]. intros Hz%map_size_empty_inv. rewrite Hz, lookup_empty in Hin. by destruct Hin.
Qed.

(** What one call deletes: a prefix of each list of the plan, within the budget. *)
Lemma bound_report_spec plan n : 0 ≤ n → let rep := bound_report plan n in
  let total := len plan.(unreachable_checkpoints) + len plan.(unreferenced_blobs) in
  0 ≤ rep.(deleted_checkpoints) ≤ len plan.(unreachable_checkpoints) ∧ 0 ≤ rep.(deleted_blobs) ≤ len plan.(unreferenced_blobs)
  ∧ rep.(deleted_checkpoints) + rep.(deleted_blobs) = Z.min n total
  ∧ (rep.(truncated) = true ↔ n < total)
  ∧ (rep.(truncated) = false → rep.(deleted_checkpoints) = len plan.(unreachable_checkpoints)
       ∧ rep.(deleted_blobs) = len plan.(unreferenced_blobs)).
Proof.
  intros Hn. pose proof (len_nonneg plan.(unreachable_checkpoints)). pose proof (len_nonneg plan.(unreferenced_blobs)).
  unfold bound_report, saturating_sub64. cbn. split_and!; lia.
Qed.

Lemma take_elem {A} n (l : list A) x : x ∈ take n l → x ∈ l.
Proof. apply sublist_elem, sublist_take. Qed.

Lemma take_len {A} n (l : list A) : 0 ≤ n ≤ len l → len (take (Z.to_nat n) l) = n.
Proof. unfold len. rewrite length_take. lia. Qed.

(** The store after a batch. *)
Record swept (s s' : Store) (p : PendingTables) (o : GcOptions) (rep : GcReport) : Prop := {
  sw_rows h row : s'.(checkpoints) !! h = Some row → s.(checkpoints) !! h = Some row;
  sw_blobs b x : s'.(blobs) !! b = Some x → s.(blobs) !! b = Some x;
  sw_live h : live s o h → s'.(checkpoints) !! h = s.(checkpoints) !! h;
  sw_retained b : retained s p o b → s'.(blobs) !! b = s.(blobs) !! b;
  sw_size : Z.of_nat (size s'.(checkpoints)) + rep.(deleted_checkpoints) = Z.of_nat (size s.(checkpoints))
    ∧ Z.of_nat (size s'.(blobs)) + rep.(deleted_blobs) = Z.of_nat (size s.(blobs));
  sw_complete : rep.(truncated) = false →
    (∀ h, has_cp s' h → live s o h) ∧ (∀ b, is_Some (s'.(blobs) !! b) → retained s p o b)
}.

Lemma swept_batch s p o plan n : plan_exact s p o plan → 0 ≤ n →
  let rep := bound_report plan n in
  swept s (delete_checkpoints_and_blobs s (take (Z.to_nat rep.(deleted_checkpoints)) plan.(unreachable_checkpoints))
             (take (Z.to_nat rep.(deleted_blobs)) plan.(unreferenced_blobs))) p o rep.
Proof.
  intros [Hr Hc Hb Hsplit _ [Hn1 Hn2]] Hn rep. destruct (bound_report_spec plan n Hn) as (H1 & H2 & _ & _ & Hall). fold rep in H1, H2, Hall. clearbody rep.
  set (cps := take _ _). set (bs := take _ _).
  assert (∀ h, h ∈ cps → has_cp s h ∧ ¬ live s o h) as Hcps by (intros h Hh%take_elem; by apply Hc).
  assert (∀ b, b ∈ bs → is_Some (s.(blobs) !! b) ∧ ¬ retained s p o b) as Hbs by (intros b Hh%take_elem; by apply Hb).
  constructor; simpl.
  - intros h row. rewrite delete_all_lookup. by case_bool_decide.
  - intros b x. rewrite delete_all_lookup. by case_bool_decide.
  - intros h Hl. rewrite delete_all_lookup, bool_decide_false; [done|]. by intros [_ ?]%Hcps.
  - intros b Hl. rewrite delete_all_lookup, bool_decide_false; [done|]. by intros [_ ?]%Hbs.
  - pose proof (delete_all_size s.(checkpoints) cps (sublist_NoDup _ _ Hn1 (sublist_take _ _)) (λ h Hh, proj1 (Hcps h Hh))).
    pose proof (delete_all_size s.(blobs) bs (sublist_NoDup _ _ Hn2 (sublist_take _ _)) (λ h Hh, proj1 (Hbs h Hh))).
    pose proof (take_len _ _ H1) as L1. pose proof (take_len _ _ H2) as L2. fold cps in L1. fold bs in L2. unfold len in L1, L2. lia.
  - intros [E1 E2]%Hall. unfold cps, bs. rewrite E1, E2. unfold len. rewrite !Nat2Z.id, !take_ge by done. split.
    + intros h. unfold has_cp. simpl. rewrite delete_all_lookup. case_bool_decide as Hh; [by intros [? ?]|].
      intros Hcp. rewrite Hc in Hh. destruct (decide (h ∈ plan.(gp_reachable))) as [?|Hno]; [by apply Hr|].
      rewrite Hr in Hno. tauto.
    + intros b. simpl. rewrite delete_all_lookup. case_bool_decide as Hh; [by intros [? ?]|].
      intros [x Hx]. destruct (Hsplit b) as [?|[?|?]]; [done|done|congruence].
Qed.

(** Nothing is lost by a complete batch: what is left is sound. *)
Lemma swept_ok s s' p o rep plan : store_ok s → plan_exact s p o plan → swept s s' p o rep →
  s'.(refs) = s.(refs) → rep.(truncated) = false → store_ok s'.
Proof.
  intros Hok Hplan Hsw Er Ht. destruct Hsw as [Hrows Hblobs Hlive Hret _ Hall]. destruct (Hall Ht) as [Hl _].
  assert (∀ c q, link s' c q → link s c q ∧ live s o c) as Hlink.
  { intros c q (row & Hc & Hin). split; [exists row; split; [by apply Hrows|done]|]. apply Hl. by exists row. }
  assert (∀ h, live s o h → has_cp s' h) as Hkeep by (intros h Hh; unfold has_cp; rewrite Hlive by done; apply Hh).
  constructor.
  - intros h d n Hd. by eapply (sok_blobs s Hok), Hblobs.
  - intros h row Hh. by eapply (sok_rows s Hok), Hrows.
  - intros c q [Hcq Hc]%Hlink. by eapply Hkeep, (pe_closed s p o plan Hplan).
  - intros h row t Hh Et. assert (live s o h) as Hlh by (apply Hl; by exists row).
    rewrite Hret; [by eapply (sok_trees s Hok), Et; apply Hrows|]. left. exists h, row. split_and!; [done|by apply Hrows|done].
  - intros name h n Hn. rewrite Er in Hn. apply Hkeep. split; [by eapply (sok_refs s Hok)|].
    exists h. split; [left; eauto|apply rtc_refl].
  - destruct (sok_ranked s Hok) as [rank Hrank]. exists rank. intros c q [Hcq _]%Hlink. by apply Hrank.
Qed.

(** C15: garbage collection is safe, exact and resumable.  It returns on every sound store,
    with the report that a preview gives, and leaves references and reflog alone; a
    failure or a dry run changes nothing.  Every checkpoint reached from a reference or a
    recent reflog row and every blob that a live tree (nested trees included) or an open
    call needs is kept; the rows removed are counted exactly and are at most the bound;
    a truncated call removes as many as the bound allows, and after a complete one only
    live rows are left and the store is sound. *)
Theorem gc_correct s p o : store_ok s → 0 ≤ o.(max_deletes_per_call) →
  ∃ s' r, collect_garbage s p o = Returned (s', r) ∧ gc_preview s p o = Returned r
    ∧ s'.(refs) = s.(refs) ∧ s'.(reflog) = s.(reflog)
    ∧ match r with
      | Err _ => s' = s
      | Ok rep => if o.(dry_run) then s' = s
          else swept s s' p o rep
            ∧ rep.(deleted_checkpoints) + rep.(deleted_blobs) ≤ o.(max_deletes_per_call)
            ∧ (rep.(truncated) = true → rep.(deleted_checkpoints) + rep.(deleted_blobs) = o.(max_deletes_per_call))
            ∧ (rep.(truncated) = false → store_ok s')
      end.
Proof.
  intros Hok Hn. destruct (gc_compute_spec s p o (sok_blobs s Hok) (sok_rows s Hok)) as (r & E & Hr).
  unfold collect_garbage, gc_preview. rewrite E. destruct r as [plan|e]; cbn [bind_run].
  2: { destruct o.(dry_run); by eexists _, _. }
  specialize (Hr plan eq_refl). set (rep := bound_report plan o.(max_deletes_per_call)).
  destruct o.(dry_run); [by eexists _, _|].
  pose proof (swept_batch s p o plan o.(max_deletes_per_call) Hr Hn) as Hsw. cbv zeta in Hsw. fold rep in Hsw.
  destruct (bound_report_spec plan o.(max_deletes_per_call) Hn) as (H1 & H2 & H3 & H4 & H5). fold rep in H1, H2, H3, H4, H5.
  assert (∀ s', s'.(refs) = s.(refs) → swept s s' p o rep → swept s s' p o rep
    ∧ rep.(deleted_checkpoints) + rep.(deleted_blobs) ≤ o.(max_deletes_per_call)
    ∧ (rep.(truncated) = true → rep.(deleted_checkpoints) + rep.(deleted_blobs) = o.(max_deletes_per_call))
    ∧ (rep.(truncated) = false → store_ok s')) as Hfinish.
  { intros s' Er Hs'. split_and!; [done|lia|intros Ht%H4; lia|]. by eapply swept_ok. }
  destruct (_ && _) eqn:Ez; (eexists _, _; split_and!; [done|done|done|done|]); apply Hfinish; try done.
  apply andb_true_iff in Ez as [Z1%Z.eqb_eq Z2%Z.eqb_eq]. rewrite Z1, Z2 in Hsw. simpl in Hsw. by destruct s.
Qed.


(** ** Histories *)

(** A write, a merge, or a collection that is not cut short. *)
Inductive session_step (s : Store) : Store → Prop :=
| step_write s' : write_step s s' → session_step s s'
| step_merge (L : TaskGenerationLookup) i s' r : u63 i.(mi_at_ms) → merge_commit s i = Returned (s', r) → session_step s s'
| step_gc p o s' r : 0 ≤ o.(max_deletes_per_call) → collect_garbage s p o = Returned (s', r) →
    (∀ rep, r = Ok rep → o.(dry_run) = false → rep.(truncated) = false) → session_step s s'.

Lemma gc_keeps_log s p o s' r : collect_garbage s p o = Returned (s', r) →
  s'.(refs) = s.(refs) ∧ s'.(reflog) = s.(reflog) ∧ s'.(last_seq) = s.(last_seq).
Proof.
  unfold collect_garbage, gc_preview. destruct (gc_compute s p o) as [[plan|e]| |]; cbn [bind_run].
  2: by destruct (dry_run o); intros [= <- _].
  2, 3: by destruct (dry_run o).
  destruct (dry_run o); [by intros [= <- _]|]. by destruct (_ && _); intros [= <- _].
Qed.

Lemma gc_step_ok s p o s' r : store_ok s → 0 ≤ o.(max_deletes_per_call) → collect_garbage s p o = Returned (s', r) →
  (∀ rep, r = Ok rep → o.(dry_run) = false → rep.(truncated) = false) → store_ok s'.
Proof.
  intros Hok Hn E Ht. pose proof (gc_keeps_log s p o s' r E) as (Er & _ & _).
  destruct (gc_compute_spec s p o (sok_blobs s Hok) (sok_rows s Hok)) as (res & Ec & Hres).
  unfold collect_garbage, gc_preview in E. rewrite Ec in E. destruct res as [plan|e]; cbn [bind_run] in E.
  2: { by destruct o.(dry_run); injection E as <- _. }
  specialize (Hres plan eq_refl). destruct o.(dry_run) eqn:Ed; [by injection E as <- _|].
  pose proof (swept_batch s p o plan o.(max_deletes_per_call) Hres Hn) as Hsw. cbv zeta in Hsw.
  destruct (_ && _); injection E as <- <-; [done|]. eapply swept_ok; [done|done|done|done|]. by apply Ht.
Qed.

Lemma session_step_ok s s' : (∀ b, sha256 b ≠ tombstone_hash) → session_ok s → session_step s s' → session_ok s'.
Proof.
  intros Hz Hs [s1 Hw|L i s1 r Hat E|p o s1 r Hn E Ht]; [by eapply write_step_ok| |].
  { unfold merge_commit in E. destruct (merged_bytes s i) as [[l|e]| |]; try done; [|by injection E as <- _].
    pose proof (commit_with_branch_ok Hz s l i.(mi_at_ms) (merge_draft i) i.(target_branch) i.(mi_reason) i.(mi_actor) i.(mi_at_ms) Hs) as Hc.
    destruct (commit_checkpoint_with_branch _ _ _ _ _ _ _ _) as [s2 r2]. injection E as <- _. apply Hc; [|done].
    unfold u63, i64_max in Hat. unfold is_u64, u64_max. simpl. lia. }
  pose proof (gc_keeps_log s p o s1 r E) as (Er & El & Eq). split; [by eapply gc_step_ok; [apply Hs|..]|].
  eapply log_wf_same; [apply Hs|done|done|]. intros b _. unfold get_ref. by rewrite Er.
Qed.

Lemma rtc_session_ok s s' : (∀ b, sha256 b ≠ tombstone_hash) → rtc session_step s s' → session_ok s → session_ok s'.
Proof.
  intros Hz Hs. induction Hs as [|a c b Hac _ IH]; [done|]. intros Ha. apply IH. by eapply session_step_ok.
Qed.


End Facts.
