(* ===== verification/TaskFence.v ===== *)
(** * TaskFence: the task engine behind the generation fence of a merge

    Models the implementation of [TaskGenerationLookup] for [TaskEngine] in
    [task_dag.rs]; a merge under this fence commits only for the live generation. *)

From stdpp Require Import gmap.
From S2P Require Import Prelude Text ObjectStore Branches ContextTree Merge TaskDag.

Local Open Scope Z_scope.
Local Open Scope rust_scope.

(** [map_task] *)
Definition map_task (e : TaskEngineError) : MergeError :=
  match e with
  | TaskNotFound _ => MergeNotFound
  | InvalidTaskId _ | TaskDag.EmptyField _ | TaskDag.OversizedField _ _ _ => MergeInvalidName
  | InvalidStatusTransition _ _ _ | StaleGeneration _ _ _ | CycleDetected _ | SelfDependency _ | DuplicateTask _
  | DependencyNotFound _ _ => MergeCorrupt
  end.

(** [task_generation] *)
#[export] Instance engine_lookup (e : TaskEngine) : TaskGenerationLookup := {
  task_generation task_id :=
    try! id := map_err map_task (TaskId_new task_id) in
    try! node := map_err map_task (get_task e id) in
    Ok node.(generation)
}.

(** The fence passes exactly for the live generation of an existing task. *)
Lemma fence_exact (e : TaskEngine) (i : MergeInput) g : i.(expected_task_generation) = Some g →
  @check_generation (engine_lookup e) i = Ok tt ↔
  ∃ id node, TaskId_new i.(mi_task_id) = Ok id ∧ tasks e !! id = Some node ∧ node.(generation) = g.
Proof.
  intros Hg. unfold check_generation. rewrite Hg. simpl. destruct (TaskId_new i.(mi_task_id)) as [id|]; simpl.
  2: { split; [done|]. by intros (? & ? & ? & _). }
  unfold get_task. destruct (tasks e !! id) as [node|] eqn:En; simpl.
  2: { split; [done|]. intros (? & ? & [= <-] & ? & _). congruence. }
  destruct (Z.eqb_spec (generation node) g) as [Heq|Hne]; simpl.
  - split; [|done]. intros _. by exists id, node.
  - split; [done|]. intros (? & n & [= <-] & E & <-). rewrite En in E. by injection E as <-.
Qed.
