(* ===== verification/SessionDemo.v ===== *)
(** * SessionDemo: the session plane on concrete histories

    A digest that can be evaluated, a store with a fork, a merge and some garbage, a log
    with a call in flight: the properties of the session plane where their hypotheses
    hold, and the cases the sources leave open, evaluated. *)

From stdpp Require Import gmap.
From S2P Require Import Prelude Text Order Wire Session ToolTypes ToolBus ObjectStore StoreFacts HistoryFacts Branches Bindings BranchFacts PendingLog PendingFacts ContextTree TreeFacts PendingHost Merge MergeFacts GcFacts.

Local Open Scope string_scope.
Local Open Scope Z_scope.

(** ** A digest *)

Definition demo_digest (l : bytes) : Z :=
  foldl (λ acc b, (acc * 65599 + byte_val b + 1) mod 2 ^ 61) 7 l.

Definition hex_digit (n : Z) : ascii :=
  Ascii.ascii_of_N (Z.to_N (if n <? 10 then 48 + n else 87 + n)).

#[local] Instance demo_api : ContentApi := {
  sha256 l := of_bytes (Ascii.ascii_of_N 1 :: to_be_bytes 31 (demo_digest l));
  to_hex h := of_bytes (concat (map (λ b, [hex_digit (byte_val b / 16); hex_digit (byte_val b mod 16)]) (as_bytes h)));
  rationale_json r := r.(why) +:+ "|" +:+ r.(what)
}.

Lemma demo_nonzero b : sha256 b ≠ tombstone_hash.
Proof.
  intros E. apply (f_equal (λ h, head (as_bytes h))) in E. unfold sha256, demo_api, tombstone_hash in E.
  rewrite !as_bytes_of_bytes in E. cbn [head repeat] in E. discriminate E.
Qed.

(** ** A fork and a merge *)

Definition demo_why : Rationale := mkRationale "why" "what" None None None None.
Definition demo_entry (name payload : string) : TreeEntry :=
  mkEntry name (sha256 (as_bytes payload)) KBlob (slen payload).
Definition demo_tree (l : list TreeEntry) : ContextTree := foldl tree_insert ∅ l.

Definition demo_cp (parents : list ContentHash) (summary : string) (at_ : Z) : CheckpointDraft :=
  mkCheckpointDraft parents "task" "agent" demo_why None summary at_.

(** A commit of a tree on a branch. *)
Definition demo_commit (s : Store) (parents : list ContentHash) (t : ContextTree) (summary branch : string) (at_ : Z) : Store :=
  (commit_checkpoint_with_branch s (canonical_bytes t) at_ (demo_cp parents summary at_) branch "r" "a" at_).1.
Definition demo_id (parents : list ContentHash) (t : ContextTree) (summary : string) (at_ : Z) : ContentHash :=
  canonical_hash (with_tree (demo_cp parents summary at_) (tree_digest t)).

Definition tree0 : ContextTree := demo_tree [demo_entry "plan" "p0"; demo_entry "notes" "n0"].
Definition tree1 : ContextTree := demo_tree [demo_entry "plan" "p1"; demo_entry "notes" "n0"].
Definition tree2 : ContextTree := demo_tree [demo_entry "plan" "p0"; demo_entry "notes" "n2"].
Definition tree3 : ContextTree := demo_tree [demo_entry "plan" "p3"; demo_entry "notes" "n0"].

Definition id0 := Eval vm_compute in demo_id [] tree0 "base" 1.
Definition id1 := Eval vm_compute in demo_id [id0] tree1 "ours" 2.
Definition id2 := Eval vm_compute in demo_id [id0] tree2 "theirs" 3.
Definition id3 := Eval vm_compute in demo_id [id0] tree3 "other" 4.

Definition store1 : Store := (put_blob store_new (as_bytes "args") 0).1.
Definition store2 : Store := demo_commit store1 [] tree0 "base" "heads/main" 1.
Definition store3 : Store := demo_commit store2 [id0] tree1 "ours" "heads/ours" 2.
Definition store4 : Store := demo_commit store3 [id0] tree2 "theirs" "heads/theirs" 3.
Definition store5 : Store := demo_commit store4 [id0] tree3 "other" "heads/other" 4.

Lemma demo_commit_step s parents t summary branch at_ : u63 at_ → is_u64 at_ →
  session_step s (demo_commit s parents t summary branch at_).
Proof. intros Hat Hu. by apply step_write, w_commit_branch. Qed.

Lemma demo_history : rtc session_step store_new store5.
Proof.
  apply (rtc_l _ _ store1); [apply step_write, w_put|].
  apply (rtc_l _ _ store2); [by apply demo_commit_step|].
  apply (rtc_l _ _ store3); [by apply demo_commit_step|].
  apply (rtc_l _ _ store4); [by apply demo_commit_step|].
  apply rtc_once. by apply demo_commit_step.
Qed.

Lemma store5_session : session_ok store5.
Proof. exact (rtc_session_ok _ _ demo_nonzero demo_history session_ok_new). Qed.

Lemma store5_ok : store_ok store5.
Proof. apply store5_session. Qed.

(** The fork, evaluated. *)
Example demo_refs : list_refs store5 =
  [("HEAD", id3); ("heads/main", id0); ("heads/other", id3); ("heads/ours", id1); ("heads/theirs", id2)].
Proof. vm_compute. reflexivity. Qed.

#[local] Instance no_tasks : TaskGenerationLookup := { task_generation _ := Err MergeNotFound }.

Definition demo_merge (ours theirs : ContentHash) : MergeInput :=
  mkMergeInput ours theirs "heads/ours" "task" "agent" demo_why "merge" None "a" "r" 9.

(** The merge of the fork has both changes; two changes of one slot conflict. *)
Definition merge_outcome (s : Store) (i : MergeInput) : option (merge_run ContextTree * nat) + list string :=
  match merge_commit s i with
  | Returned (s', Ok cp) => inl (Some (materialize_tree s' cp.(cp_id), length s'.(reflog)))
  | Returned (_, Err (Conflicts l)) => inr (map sc_slot l)
  | _ => inl None
  end.

Example demo_merged : merge_outcome store5 (demo_merge id1 id2)
  = inl (Some (Returned (Ok (demo_tree [demo_entry "plan" "p1"; demo_entry "notes" "n2"])), 5%nat)).
Proof. vm_compute. reflexivity. Qed.

Example demo_conflict : merge_outcome store5 (demo_merge id1 id3) = inr ["plan"].
Proof. vm_compute. reflexivity. Qed.

Lemma merge_commit_correct_witness : ∃ s' r, merge_commit store5 (demo_merge id1 id2) = Returned (s', r)
  ∧ match r with Err _ => s' = store5 | Ok cp => cp.(cp_draft).(parents) = [id1; id2] end.
Proof.
  destruct (merge_commit_correct store5 (demo_merge id1 id2) store5_ok) as (s' & r & E & H & _).
  exists s', r. split; [exact E|]. destruct r as [cp|]; [exact (proj1 (proj2 H))|exact H].
Defined.

Lemma strict_merge_base_correct_witness :
  strict_merge_base store5 id1 id2 = Returned (Ok id0) ∧ greatest store5 id1 id2 id0.
Proof.
  assert (strict_merge_base store5 id1 id2 = Returned (Ok id0)) as E by (vm_compute; reflexivity).
  split; [exact E|]. destruct (strict_merge_base_correct store5 id1 id2 store5_ok) as (r & E' & H).
  rewrite E in E'. injection E' as <-. exact (proj2 (proj2 H)).
Defined.

Lemma merge_base_common_witness : ∃ c, merge_base store5 id1 id2 = Returned (Ok (Some c)) ∧ ancestor store5 id1 c.
Proof.
  exists id0. assert (merge_base store5 id1 id2 = Returned (Ok (Some id0))) as E by (vm_compute; reflexivity).
  split; [exact E|]. destruct (merge_base_common store5 id1 id2 store5_ok) as (r & E' & H).
  rewrite E in E'. injection E' as <-. exact (proj1 H).
Defined.


(** ** Collecting *)

(** A branch is deleted and its history expires; the call in flight pins its arguments. *)
Definition store6 : Store := (delete_branch store5 "heads/theirs" "r" "a" 5).1.
Definition demo_begin : PendingBegin := mkBegin "ab" "session" None "tool" (as_bytes "args") 1 1 7.
Definition demo_log : PendingTables := (begin pending_new demo_begin).1.
Definition demo_gc (n : Z) (dry : bool) : GcOptions := mkGcOptions 1000 10 n dry.

Lemma store6_ok : store_ok store6.
Proof. by apply (delete_branch_ok store5 "heads/theirs" "r" "a" 5 store5_session). Qed.

(** The checkpoint of the deleted branch and its tree go, the pinned blob stays; without
    the call it goes too. *)
Example demo_collected : (λ r, match r with Returned (s, Ok rep) => (rep, has_checkpoint s id2, has_blob s (sha256 (as_bytes "args"))) | _ => (mkGcReport 0 0 0 true, true, false) end)
  <$> [collect_garbage store6 demo_log (demo_gc 256 false); collect_garbage store6 pending_new (demo_gc 256 false); collect_garbage store6 demo_log (demo_gc 1 false)]
  = [(mkGcReport 3 1 1 false, false, true); (mkGcReport 3 1 2 false, false, false); (mkGcReport 3 1 0 true, false, true)].
Proof. vm_compute. reflexivity. Qed.

Lemma gc_correct_witness : ∃ s' r, collect_garbage store6 demo_log (demo_gc 1 false) = Returned (s', r)
  ∧ gc_preview store6 demo_log (demo_gc 1 false) = Returned r ∧ s'.(refs) = store6.(refs).
Proof.
  destruct (gc_correct store6 demo_log (demo_gc 1 false) store6_ok ltac:(discriminate)) as (s' & r & E & P & R & _).
  exists s', r. split; [exact E|]. split; [exact P|exact R].
Defined.

(** ** Trees *)

Lemma demo_entry_wf name payload : is_str name → trim name = name → is_empty name = false → slen name ≤ MAX_SLOT_NAME_BYTES →
  str_forall slot_byte name = true → slen payload < 2 ^ 64 → entry_wf (demo_entry name payload).
Proof.
  intros H1 H2 H3 H4 H5 H6. constructor; [exact H1|exact H2|exact H3|exact H4|exact H5| |split; [apply slen_nonneg|exact H6]].
  unfold is_hash, te_hash, demo_entry, sha256, demo_api. rewrite slen_of_bytes, len_cons. unfold len. by rewrite length_to_be.
Qed.

Lemma demo_tree_wf p n : slen p < 2 ^ 64 → slen n < 2 ^ 64 → tree_wf (demo_tree [demo_entry "plan" p; demo_entry "notes" n]).
Proof.
  intros Hp Hn. unfold demo_tree. simpl foldl. repeat apply tree_insert_wf; try by apply demo_entry_wf.
  intros k e He. by rewrite lookup_empty in He.
Qed.

Lemma merge_3way_correct_witness : tree_wf (merge_3way tree0 tree1 tree2).(merged)
  ∧ merge_3way tree0 tree2 tree1 = mkMerge (merge_3way tree0 tree1 tree2).(merged) (map swap_sides (merge_3way tree0 tree1 tree2).(conflicts)).
Proof.
  destruct (merge_3way_correct tree0 tree1 tree2) as (_ & _ & _ & Hw & Hs).
  - by apply demo_tree_wf.
  - by apply demo_tree_wf.
  - by apply demo_tree_wf.
  - split; [exact Hw|exact Hs].
Defined.

Lemma tree_codec_witness : from_canonical_bytes (canonical_bytes tree0) = Returned (Ok tree0).
Proof. apply (proj1 tree_codec). by apply demo_tree_wf. Defined.
