(* ===== verification/SessionCases.v ===== *)
(** * SessionCases: bindings and calls in flight on concrete histories, and open cases

    The remaining witnesses of the session plane, and behaviours that the comments of the
    sources describe otherwise. *)

From stdpp Require Import gmap.
From S2P Require Import Prelude Text Order Wire Session ToolTypes ToolBus ObjectStore StoreFacts Branches Bindings BranchFacts PendingLog PendingFacts ContextTree PendingHost Merge SessionDemo.

Local Open Scope string_scope.
Local Open Scope Z_scope.

#[local] Existing Instance demo_api.

(** ** Sessions *)

Definition bound1 : BindingTable := (bind_session ∅ "s" "heads/main" id0 1 1 5).1.
Definition bound2 : BindingTable := (bump_session_epoch bound1 "s" 2 id1 1 6).1.

Lemma bound1_step : binding_step ∅ bound1.
Proof. eapply (step_bind _ "s" "heads/main" id0 1 1 5); done || apply surjective_pairing. Qed.

Lemma bound2_step : binding_step bound1 bound2.
Proof. eapply (step_bump _ "s" id1 2 1 6); done || apply surjective_pairing. Qed.

Lemma session_fenced_witness : ∃ r', bound2 !! "s" = Some r' ∧ row_branch r' = "heads/main" ∧ 1 ≤ row_epoch r'.
Proof.
  destruct (session_fenced bound1 bound2 "s" (mkBindingRow "heads/main" id0 1 1 5)) as ((r' & Hr & Hb & He & _) & _ & _).
  - apply rtc_once, bound1_step.
  - apply rtc_once, bound2_step.
  - reflexivity.
  - exists r'. split; [exact Hr|]. split; [exact Hb|exact He].
Defined.

(** ** Calls in flight *)

Lemma demo_log_reachable : rtc pending_step pending_new demo_log.
Proof. apply rtc_once. by apply (step_begin pending_new demo_begin). Qed.

Lemma pending_log_refines_witness : ∃ roots, open_blob_roots demo_log = Ok roots.
Proof.
  destruct (pending_log_refines demo_log demo_log_reachable) as (L & _ & _ & _ & _ & _ & _ & (roots & E & _) & _).
  exists roots. exact E.
Defined.

Definition demo_resolve : PendingResolve := mkResolve "ab" DSuccess 1 1 8.


(** ** The recording executor *)

Definition demo_host : PendingToolExecutor RecordingExecutor :=
  mkPendingExecutor (mkRecordingExecutor [Ok (mkToolSuccess "ok" []); Err (ErrEffectUnknown "tool" "lost")] [])
    pending_new "session" None 1 1 0.
Definition demo_ctx : ExecutionContext := mkExecContext 1 7.
Definition demo_run x := execute_with_context RecordingExecutor_execute x "tool" (as_bytes "args") demo_ctx.

(** The first call leaves no open row, the second, of unknown effect, leaves its own. *)
Example demo_runs :
  let '(x1, _, r1) := demo_run demo_host in
  let '(x2, _, r2) := demo_run x1 in
  (r1, list_open x1.(log_tables) "session", r2, map_err (λ _, tt) (list_open x2.(log_tables) "session"))
  = (Ok (mkToolSuccess "ok" []), Ok [], Err (ErrEffectUnknown "tool" "lost"),
     Ok [opened (begin_request x1 (mint_pending_call_id "session" 1) "tool" (as_bytes "args") 7)]).
Proof. vm_compute. reflexivity. Qed.

Lemma effects_recorded_witness : ∃ x' ops r, demo_run demo_host = (x', ops, r) ∧ r = Ok (mkToolSuccess "ok" []) ∧ host_ok x'.
Proof.
  destruct (demo_run demo_host) as [[x' ops] r] eqn:E. exists x', ops, r. split; [reflexivity|].
  assert (r = Ok (mkToolSuccess "ok" [])) as Hr by (vm_compute in E; injection E as _ _ <-; reflexivity).
  split; [exact Hr|].
  destruct (effects_recorded RecordingExecutor_execute demo_host "tool" (as_bytes "args") demo_ctx x' ops r) as [(_ & _ & e & He & _)|(id & x1 & Hx)].
  - split; [exists (mkLog ∅ ∅ ∅)|split; [reflexivity|split; discriminate]]. split; [reflexivity|].
    destruct (pending_reachable_ok pending_new (rtc_refl _ _)) as (L & EL & HL).
    replace (mkLog ∅ ∅ ∅) with L; [exact HL|]. destruct L as [l c m]. unfold tables in EL. simpl in EL. injection EL as E1 E2 E3.
    symmetry in E1, E2. apply fmap_empty_inv in E1, E2. by subst.
  - discriminate.
  - exact E.
  - rewrite Hr in He. discriminate He.
  - apply Hx.
Defined.

(** ** Open cases *)

(** A fast-forward that is refused: the tip [old] is an ancestor of the target, but the
    first common ancestor that the walk meets is the other parent of the target. *)
Definition ff_root := Eval vm_compute in canonical_hash (demo_cp [] "root" 1).
Definition ff_old := Eval vm_compute in canonical_hash (demo_cp [ff_root] "old" 2).
Definition ff_target := Eval vm_compute in canonical_hash (demo_cp [ff_root; ff_old] "target" 3).
Definition ff_store : Store :=
  let s := (commit_checkpoint store_new (demo_cp [] "root" 1)).1 in
  let s := (commit_checkpoint s (demo_cp [ff_root] "old" 2)).1 in
  let s := (commit_checkpoint s (demo_cp [ff_root; ff_old] "target" 3)).1 in
  (create_branch s "heads/main" ff_old "r" "a" 4).1.

Lemma fast_forward_refused : ancestor ff_store ff_target ff_old
  ∧ merge_base ff_store ff_old ff_target = Returned (Ok (Some ff_root))
  ∧ update_branch ff_store "heads/main" ff_target "r" "a" 5 true
    = Returned (ff_store, Err (RefStorage NON_FAST_FORWARD_MSG)).
Proof.
  split; [|split; vm_compute; reflexivity]. apply rtc_once.
  exists (row_of (demo_cp [ff_root; ff_old] "target" 3)). split; [vm_compute; reflexivity|].
  apply elem_of_cons. right. apply list_elem_of_here.
Qed.

(** A clock past [i64::MAX] is stored as a negative time: the branch is created, and from
    then on its history cannot be read. *)
Lemma clock_poisons_reflog : let s := (create_branch ff_store "heads/late" ff_root "r" "a" (2 ^ 63)).1 in
  get_branch s "heads/late" = Ok (Some ff_root) ∧ read_reflog s "heads/late" 10 = Err RefCorrupt
  ∧ dump_reflog_all s = Err RefCorrupt.
Proof. vm_compute. repeat split; reflexivity. Qed.

(** A collection that is cut short can delete a parent before its child; a branch on the
    child is accepted, and from then on every collection fails. *)
Definition cut_child := Eval vm_compute in canonical_hash (demo_cp [ff_root] "child" 2).
Definition cut_store : Store :=
  let s := (commit_checkpoint store_new (demo_cp [] "root" 1)).1 in
  (commit_checkpoint s (demo_cp [ff_root] "child" 2)).1.
Definition cut_gc (s : Store) := collect_garbage s pending_new (mkGcOptions 1000 10 1 false).

Lemma truncated_gc_strands :
  let s := match cut_gc cut_store with Returned (s, _) => s | _ => cut_store end in
  let s' := (create_branch s "heads/again" cut_child "r" "a" 2000).1 in
  (create_branch s "heads/again" cut_child "r" "a" 2000).2 = Ok "heads/again"
  ∧ cut_gc s' = Returned (s', Err MergeCorrupt).
Proof. vm_compute. split; reflexivity. Qed.

(** A closing with a clock behind those of 32 cached closings is evicted by its own
    insertion: a retry with the same disposition is not found. *)
Definition hex_id (n : nat) : string := "a" +:+ show (100 + Z.of_nat n).
Definition open_close (t : PendingTables) (n : nat) : PendingTables :=
  let t := (begin t (mkBegin (hex_id n) "session" None "tool" [] 1 1 1)).1 in
  (resolve t (mkResolve (hex_id n) DSuccess 1 1 (1000 + Z.of_nat n))).1.
Definition busy_log : PendingTables := (begin (foldl open_close pending_new (List.seq 0 32)) demo_begin).1.

Lemma late_close_not_idempotent : let '(t, r) := resolve busy_log demo_resolve in
  r = Ok (closed (opened demo_begin) demo_resolve) ∧ (resolve t demo_resolve).2 = Err PendingNotFound.
Proof. vm_compute. split; reflexivity. Qed.
