(* ===== verification/McpTypes.v ===== *)
(** * McpTypes: errors and configuration of the MCP client

    Models [error.rs] and [config.rs] of [crates/bitty-ai-mcp]: the bounded errors that
    quote names only, their display, and the validation of server configurations. *)

From S2P Require Import Prelude Text Session ToolTypes Consent.

Local Open Scope Z_scope.
Local Open Scope rust_scope.

(** ** Limits and constants of the crate root *)

Definition PROTOCOL_VERSION : string := "2025-11-25".
Definition DEFAULT_MCP_TIMEOUT_MS : Z := 10000.
Definition MAX_TIMEOUT_MS : Z := 30000.

(** ** Errors *)

Definition MAX_ERROR_TEXT_BYTES : Z := 512.
Definition MAX_ERROR_NAME_BYTES : Z := 128.

(** The loop over [value.chars()], one byte per character (compare [bound_reason]). *)
Fixpoint bound_error_loop (max_bytes : Z) (chars bounded : bytes) : bytes :=
  match chars with
  | [] => bounded
  | c :: chars =>
      if len bounded >=? max_bytes then bounded else bound_error_loop max_bytes chars (bounded ++ [scrub c])
  end.

Definition bound_error_text (value : string) (max_bytes : Z) : string :=
  of_bytes (bound_error_loop max_bytes (char_leads value) []).

Definition bound_error_name (value : string) : string := bound_error_text value MAX_ERROR_NAME_BYTES.

Inductive McpStage :=
| StConfig | StSpawn | StCredential | StHandshake | StListTools | StCallTool | StFrame | StSupervise | StBridge.

#[export] Instance McpStage_eq_dec : EqDecision McpStage.
Proof. solve_decision. Defined.

(** [Display for McpStage] *)
Definition McpStage_to_string (s : McpStage) : string :=
  match s with
  | StConfig => "config"
  | StSpawn => "spawn"
  | StCredential => "credential"
  | StHandshake => "handshake"
  | StListTools => "list-tools"
  | StCallTool => "call-tool"
  | StFrame => "frame"
  | StSupervise => "supervise"
  | StBridge => "bridge"
  end.

Inductive McpFailure :=
| InvalidConfig (reason : string)
| SpawnFailed (program : string)
| ChildExited (detail : string)
| TransportClosed
| CredentialMissing (name : string)
| CredentialFailed (name : string)
| HandshakeRejected (detail : string)
| VersionMismatch (expected got : string)
| NoToolCapability
| CapabilityDrift (detail : string)
| IdentityMismatch (server : string)
| McpFrameTooLarge (limit actual : Z)
| TooManyPages (limit : Z)
| DuplicateCursor (cursor : string)
| McpDuplicateTool (name : string)
| McpUnknownTool (name : string)
| AllowlistDeny (name : string)
| AuthorizerDeny (reason : string)
| McpConsentDeny (reason : string)
| TierDeny (reason : string)
| McpArgumentsTooLarge (limit actual : Z)
| McpResultTooLarge (limit actual : Z)
| ToolFailed (tool reason : string)
| McpEffectUnknown (tool reason : string)
| McpTimeout (timeout_ms : Z)
| Supervision (detail : string)
| McpIo (context : string).

#[export] Instance McpFailure_eq_dec : EqDecision McpFailure.
Proof. solve_decision. Defined.

(** [McpFailure::retryable] *)
Definition failure_retryable (f : McpFailure) : bool :=
  match f with
  | SpawnFailed _ | ChildExited _ | TransportClosed | McpEffectUnknown _ _ | McpTimeout _ | McpIo _ => true
  | _ => false
  end.

Definition quoted (s : string) : string := "'" +:+ s +:+ "'".

(** [Display for McpFailure] *)
Definition McpFailure_to_string (f : McpFailure) : string :=
  match f with
  | InvalidConfig reason => "invalid config: " +:+ reason
  | SpawnFailed program => "failed to spawn " +:+ quoted program
  | ChildExited detail => "child exited: " +:+ detail
  | TransportClosed => "transport closed (explicit reconnect required)"
  | CredentialMissing name => "credential " +:+ quoted name +:+ " is missing or empty"
  | CredentialFailed name => "credential " +:+ quoted name +:+ " helper failed"
  | HandshakeRejected detail => "handshake rejected: " +:+ detail
  | VersionMismatch expected got =>
      "protocol version mismatch: expected " +:+ quoted expected +:+ ", got " +:+ quoted got
  | NoToolCapability => "server offers no tool capability"
  | CapabilityDrift detail => "capability drift: " +:+ detail
  | IdentityMismatch server =>
      "server identity mismatch: " +:+ quoted server +:+ " binary digest does not match pin"
  | McpFrameTooLarge limit actual =>
      "frame of " +:+ show actual +:+ " bytes exceeds " +:+ show limit +:+ " byte limit"
  | TooManyPages limit => "tool listing exceeds " +:+ show limit +:+ " pages"
  | DuplicateCursor cursor => "tool listing repeated cursor " +:+ quoted cursor
  | McpDuplicateTool name => "duplicate tool: " +:+ name
  | McpUnknownTool name => "unknown tool: " +:+ name
  | AllowlistDeny name => "tool " +:+ quoted name +:+ " is not allowlisted"
  | AuthorizerDeny reason => "authorizer denied: " +:+ reason
  | McpConsentDeny reason => "consent denied: " +:+ reason
  | TierDeny reason => "tier denied: " +:+ reason
  | McpArgumentsTooLarge limit actual =>
      "tool arguments of " +:+ show actual +:+ " bytes exceed " +:+ show limit +:+ " byte limit"
  | McpResultTooLarge limit actual =>
      "tool result of " +:+ show actual +:+ " bytes exceeds " +:+ show limit +:+ " byte limit"
  | ToolFailed tool reason => "tool " +:+ quoted tool +:+ " reported failure: " +:+ reason
  | McpEffectUnknown tool reason => "tool " +:+ quoted tool +:+ " effect unknown: " +:+ reason
  | McpTimeout timeout_ms => "timed out after " +:+ show timeout_ms +:+ "ms"
  | Supervision detail => "supervision: " +:+ detail
  | McpIo context => "i/o failure: " +:+ context
  end.

Record McpError := mkMcpError { stage : McpStage; failure : McpFailure; retryable : bool }.

#[export] Instance McpError_eq_dec : EqDecision McpError.
Proof. solve_decision. Defined.

(** [McpError::new] *)
Definition McpError_new (s : McpStage) (f : McpFailure) : McpError := mkMcpError s f (failure_retryable f).

(** [McpError::invalid_config] *)
Definition invalid_config (reason : string) : McpError :=
  McpError_new StConfig (InvalidConfig (bound_error_text reason MAX_ERROR_TEXT_BYTES)).

(** [Display for McpError] *)
Definition McpError_to_string (e : McpError) : string :=
  "mcp " +:+ McpStage_to_string e.(stage) +:+ ": " +:+ McpFailure_to_string e.(failure).

(** ** Server configurations *)

Definition MAX_SERVER_ID_LEN : Z := 32.
Definition MAX_COMMAND_LEN : Z := 256.
Definition MAX_COMMAND_ARGS : Z := 32.
Definition MAX_COMMAND_ARG_LEN : Z := 1024.
Definition MAX_ENV_REFS : Z := 16.
Definition MAX_CREDENTIAL_ARGS : Z := 16.
Definition MAX_ALLOWLIST_LEN : Z := 32.
Definition MAX_ALLOWLIST_ENTRY_LEN : Z := 64.
Definition MAX_CWD_LEN : Z := 1024.
Definition MAX_ENV_VAR_LEN : Z := 64.
Definition SHA256_PIN_LEN : Z := 64.

(** The shell metacharacters, by their codes. *)
Definition is_shell_byte (b : ascii) : bool :=
  existsb (λ n, byte_eqb n b) [59; 124; 38; 36; 96; 40; 41; 60; 62; 92; 34; 39; 33; 42; 63; 126; 35].

(** [u8::is_ascii_control] *)
Definition is_ascii_control (b : ascii) : bool := in_range 0 31 b || byte_eqb 127 b.

Inductive CredentialRef :=
| CredEnv (var : string)
| CredCmd (name program : string) (args : list string).

(** [CredentialRef::ref_name] *)
Definition ref_name (c : CredentialRef) : string :=
  match c with CredEnv var => "env:" +:+ var | CredCmd _ program _ => "cmd:" +:+ program end.

Definition is_env_name (value : string) : bool :=
  match value with
  | EmptyString => false
  | String b _ =>
      if slen value >? MAX_ENV_VAR_LEN then false
      else if negb (is_ascii_uppercase b) then false
      else str_forall (λ b, is_ascii_uppercase b || is_ascii_digit b || byte_eqb 95 b) value
  end.

Definition is_server_id (value : string) : bool :=
  match value with
  | EmptyString => false
  | String b _ =>
      if slen value >? MAX_SERVER_ID_LEN then false
      else if negb (is_ascii_lowercase b) then false
      else str_forall (λ b, is_ascii_lowercase b || is_ascii_digit b || byte_eqb 95 b) value
  end.

Definition is_sha256_pin (value : string) : bool :=
  if negb (slen value =? SHA256_PIN_LEN) then false
  else str_forall (λ b, is_ascii_digit b || in_range 97 102 b) value.

Definition validate_program (program : string) : result unit McpError :=
  ensure! negb (is_empty program || (slen program >? MAX_COMMAND_LEN))
  else invalid_config "program path is empty or over-bound" in
  ensure! negb (contains_nul program || existsb is_ascii_control (as_bytes program))
  else invalid_config "program path carries control bytes" in
  ensure! negb (existsb is_shell_byte (as_bytes program))
  else invalid_config "program path carries shell metacharacters (no shell; use direct argv)" in
  Ok tt.

Definition is_alnum (b : ascii) : bool := is_ascii_lowercase b || is_ascii_uppercase b || is_ascii_digit b.

Definition is_allowlist_entry (value : string) : bool :=
  if is_empty value || (slen value >? MAX_ALLOWLIST_ENTRY_LEN) then false
  else str_forall (λ b, is_alnum b || byte_eqb 95 b || byte_eqb 46 b || byte_eqb 45 b) value.

(** An argument over its bound or with a NUL. *)
Definition bad_arg (arg : string) : bool := (slen arg >? MAX_COMMAND_ARG_LEN) || contains_nul arg.

(** [CredentialRef::validate] *)
Definition credential_validate (c : CredentialRef) : result unit McpError :=
  match c with
  | CredEnv var =>
      ensure! is_env_name var
      else invalid_config "credential env var must match ^[A-Z][A-Z0-9_]*$ (1..=64 bytes)" in Ok tt
  | CredCmd name program args =>
      ensure! is_env_name name
      else invalid_config "credential target name must match ^[A-Z][A-Z0-9_]*$ (1..=64 bytes)" in
      try! _ := validate_program program in
      ensure! negb (len args >? MAX_CREDENTIAL_ARGS)
      else invalid_config "credential helper carries too many arguments" in
      ensure! negb (existsb bad_arg args)
      else invalid_config "credential helper argument is over-bound or NUL-bearing" in
      Ok tt
  end.

Fixpoint credentials_validate (l : list CredentialRef) : result unit McpError :=
  match l with
  | [] => Ok tt
  | c :: l => try! _ := credential_validate c in credentials_validate l
  end.

Record McpServerConfig := mkServerConfig {
  cfg_id : string;
  cfg_command : string;
  cfg_args : list string;
  cfg_env_refs : list CredentialRef;
  cfg_cwd : string;
  cfg_timeout_ms : Z;
  cfg_tool_allowlist : list string;
  cfg_sha256_pin : option string
}.

(** [McpServerConfig::validate] *)
Definition config_validate (c : McpServerConfig) : result unit McpError :=
  ensure! is_server_id c.(cfg_id) else invalid_config "server id must match ^[a-z][a-z0-9_]*$ (1..=32 bytes)" in
  ensure! negb (is_empty c.(cfg_command)) else invalid_config "command is required" in
  try! _ := validate_program c.(cfg_command) in
  ensure! match c.(cfg_sha256_pin) with Some pin => is_sha256_pin pin | None => true end
  else invalid_config "sha256 pin must be 64 lowercase hex (0-9, a-f)" in
  ensure! negb (len c.(cfg_args) >? MAX_COMMAND_ARGS)
  else invalid_config "server command carries too many arguments" in
  ensure! negb (existsb bad_arg c.(cfg_args)) else invalid_config "server argument is over-bound or NUL-bearing" in
  ensure! negb (len c.(cfg_env_refs) >? MAX_ENV_REFS)
  else invalid_config "server carries too many credential references" in
  try! _ := credentials_validate c.(cfg_env_refs) in
  ensure! negb (is_empty c.(cfg_cwd) || (slen c.(cfg_cwd) >? MAX_CWD_LEN))
  else invalid_config "cwd is empty or over-bound" in
  ensure! String.prefix "/" c.(cfg_cwd) else invalid_config "cwd must be an absolute path" in
  ensure! negb (contains_nul c.(cfg_cwd)) else invalid_config "cwd must not contain NUL" in
  ensure! negb (existsb (str_eqb "..") (split_on (Ascii.ascii_of_N 47) c.(cfg_cwd)))
  else invalid_config "cwd must not contain '..' segments" in
  ensure! negb ((c.(cfg_timeout_ms) =? 0) || (c.(cfg_timeout_ms) >? MAX_TIMEOUT_MS))
  else invalid_config "timeout_ms must be within 1..=30000" in
  ensure! match c.(cfg_tool_allowlist) with [] => false | _ => true end
  else invalid_config "tool allowlist must not be empty" in
  ensure! negb (len c.(cfg_tool_allowlist) >? MAX_ALLOWLIST_LEN)
  else invalid_config "tool allowlist exceeds 32 entries" in
  ensure! forallb is_allowlist_entry c.(cfg_tool_allowlist)
  else invalid_config "allowlist entry must be 1..=64 bytes of [a-zA-Z0-9_.-]" in
  Ok tt.

(** [McpServerConfig::effective_timeout_ms] *)
Definition effective_timeout_ms (c : McpServerConfig) : Z :=
  if c.(cfg_timeout_ms) =? 0 then DEFAULT_MCP_TIMEOUT_MS else Z.min c.(cfg_timeout_ms) MAX_TIMEOUT_MS.

(** ** Bounded text *)

Lemma bound_error_loop_eq max cs : 0 ≤ max → ∀ acc, len acc ≤ max →
  bound_error_loop max cs acc = acc ++ take (Z.to_nat (max - len acc)) (map scrub cs).
Proof.
  intros Hm. induction cs as [|c cs IH]; intros acc Ha; simpl; [by rewrite take_nil, app_nil_r|].
  destruct (Z.geb_spec (len acc) max).
  - replace (Z.to_nat (max - len acc)) with 0%nat by lia. by rewrite take_0, app_nil_r.
  - rewrite IH by len_lia. replace (Z.to_nat (max - len acc)) with (S (Z.to_nat (max - len (acc ++ [scrub c])))) by len_lia.
    simpl. by rewrite <- app_assoc.
Qed.

(** Every text of an error is printable ASCII within its bound, and a text that is so
    already is kept. *)
Theorem bound_error_sound s max : 0 ≤ max →
  printable (bound_error_text s max) ∧ slen (bound_error_text s max) ≤ max
  ∧ (printable s → slen s ≤ max → bound_error_text s max = s).
Proof.
  intros Hm. unfold bound_error_text. rewrite bound_error_loop_eq by (rewrite ?len_nil; lia). simpl. split_and!.
  - unfold printable, str_forall. rewrite as_bytes_of_bytes. apply forallb_forall. intros b Hb.
    apply list_elem_of_In, elem_of_take in Hb as (i & Hb%list_elem_of_lookup_2 & _).
    apply list_elem_of_fmap in Hb as (c & -> & _). apply scrub_printable.
  - rewrite slen_of_bytes. unfold len. rewrite length_take. lia.
  - intros Hp Hl. rewrite char_leads_printable, map_scrub_id by done.
    rewrite take_ge; [apply of_bytes_as_bytes|]. rewrite as_bytes_length. unfold slen in Hl. rewrite len_nil. lia.
Qed.

(** What a configuration that passes validation promises to the process spawner: a plain
    program without shell bytes, a pinned absolute directory without [..], a bounded wait
    and a bounded, non-empty allow-list of plain names. *)
Theorem config_validate_sound c : config_validate c = Ok tt →
  0 < slen c.(cfg_command) ≤ MAX_COMMAND_LEN
  ∧ (∀ b, b ∈ as_bytes c.(cfg_command) → is_shell_byte b = false ∧ is_ascii_control b = false)
  ∧ (∃ rest, c.(cfg_cwd) = String (Ascii.ascii_of_N 47) rest)
  ∧ (∀ s, s ∈ split_on (Ascii.ascii_of_N 47) c.(cfg_cwd) → s ≠ "..")
  ∧ effective_timeout_ms c = c.(cfg_timeout_ms) ∧ c.(cfg_timeout_ms) ≤ MAX_TIMEOUT_MS
  ∧ 0 < len c.(cfg_tool_allowlist) ≤ MAX_ALLOWLIST_LEN
  ∧ (∀ t, t ∈ c.(cfg_tool_allowlist) → is_allowlist_entry t = true)
  ∧ (∀ pin, c.(cfg_sha256_pin) = Some pin → slen pin = SHA256_PIN_LEN).
Proof.
  unfold config_validate. intros H.
  repeat match type of H with (if ?g then _ else _) = _ => destruct g eqn:?; [|discriminate H] end.
  destruct (validate_program (cfg_command c)) as [u|] eqn:Ep; [|discriminate H].
  repeat match type of H with (if ?g then _ else _) = _ => destruct g eqn:?; [|discriminate H] end.
  destruct (credentials_validate (cfg_env_refs c)); [|discriminate H].
  repeat match type of H with (if ?g then _ else _) = _ => destruct g eqn:?; [|discriminate H] end.
  clear H. unfold validate_program in Ep.
  repeat match type of Ep with (if ?g then _ else _) = _ => destruct g eqn:?; [|discriminate Ep] end.
  reflect_bools. repeat match goal with Hx : existsb _ _ = false |- _ => rewrite existsb_false_iff in Hx end.
  split_and!; try done.
  - pose proof (slen_nonneg (cfg_command c)). assert (slen (cfg_command c) ≠ 0); [|lia].
    destruct (cfg_command c) as [|x s]; [done|]. rewrite slen_cons. pose proof (slen_nonneg s). lia.
  - auto.
  - match goal with Hx : String.prefix _ _ = true |- _ => apply prefix_spec in Hx as [rest ->] end. by exists rest.
  - intros s Hs ->. match goal with Hx : ∀ x, x ∈ split_on _ _ → _ |- _ => by specialize (Hx _ Hs) end.
  - unfold effective_timeout_ms. destruct (Z.eqb_spec (cfg_timeout_ms c) 0); [done|lia].
  - destruct (cfg_tool_allowlist c); [done|]. rewrite len_cons. pose proof (len_nonneg l). lia.
  - intros t Ht. match goal with Hx : forallb _ _ = true |- _ => rewrite forallb_forall in Hx; apply Hx; by apply list_elem_of_In end.
  - intros pin Hp. rewrite Hp in *. match goal with Hx : is_sha256_pin _ = true |- _ => unfold is_sha256_pin in Hx; destruct (negb (_ =? _)) eqn:En; [done|] end. reflect_bools. lia.
Qed.

Definition demo_server : McpServerConfig :=
  mkServerConfig "demo" "/bin/fake-mcp" ["--stdio"] [CredEnv "DEMO_TOKEN"; CredCmd "KEY" "/usr/bin/pass" ["show"]]
    "/tmp/bitty" 10000 ["echo"; "list.files-2"] None.

Lemma config_validate_sound_witness :
  config_validate demo_server = Ok tt ∧ 0 < slen demo_server.(cfg_command) ≤ MAX_COMMAND_LEN.
Proof. assert (config_validate demo_server = Ok tt) as H by by vm_compute. split; [done|]. by apply config_validate_sound. Defined.
