(* ===== verification/McpFrame.v ===== *)
(** * McpFrame: the line reader of the MCP client

    Models [frame.rs] of [crates/bitty-ai-mcp]: newline-delimited frames read through a
    buffered source, with at most one byte more than the cap retained, malformed lines
    dropped and counted, and oversize lines refused after they have been consumed. *)

From S2P Require Import Prelude Text Wire Session ToolTypes Consent McpTypes.

Local Open Scope Z_scope.
Local Open Scope rust_scope.

Definition MAX_FRAME_BYTES : Z := 256 * 1024.

Record FrameStats := mkFrameStats {
  received : Z;
  dropped_malformed : Z;
  rejected_oversize : Z
}.

Definition stats_new : FrameStats := mkFrameStats 0 0 0.

Definition drop_one (s : FrameStats) : FrameStats :=
  mkFrameStats s.(received) (s.(dropped_malformed) + 1) s.(rejected_oversize).
Definition receive_one (s : FrameStats) : FrameStats :=
  mkFrameStats (s.(received) + 1) s.(dropped_malformed) s.(rejected_oversize).
Definition reject_one (s : FrameStats) : FrameStats :=
  mkFrameStats s.(received) s.(dropped_malformed) (s.(rejected_oversize) + 1).

Definition check_frame_len (n : Z) : result unit McpError :=
  if n >? MAX_FRAME_BYTES then Err (McpError_new StFrame (McpFrameTooLarge MAX_FRAME_BYTES n)) else Ok tt.

(** [str::ends_with] of one byte. *)
Definition ends_with_byte (n : Z) (s : string) : bool :=
  match last (as_bytes s) with Some b => byte_eqb n b | None => false end.

Definition decode_line (raw : bytes) (stats : FrameStats) : FrameStats * option string :=
  match from_utf8 raw with
  | None => (drop_one stats, None)
  | Some text =>
      let trimmed := trim text in
      if is_empty trimmed then (drop_one stats, None)
      else if negb (String.prefix "{" trimmed) || negb (ends_with_byte 125 trimmed) then (drop_one stats, None)
      else (receive_one stats, Some text)
  end.

(** ** The buffered source *)

(** A [BufReader]: the bytes read and not yet consumed, and the answers of the reads to
    come. *)
Record BufSource := mkBuf { buffered : bytes; reads : list ReadEvent }.

(** [BufRead::fill_buf]: reads only when the buffer is empty; any failure of that read,
    an interruption included, is handed to the caller. *)
Definition fill_buf (s : BufSource) : BufSource * result bytes unit :=
  match s.(buffered) with
  | _ :: _ => (s, Ok s.(buffered))
  | [] =>
      match s.(reads) with
      | [] => (s, Ok [])
      | RdData l :: es => (mkBuf l es, Ok l)
      | (RdInterrupted | RdFailed _) :: es => (mkBuf [] es, Err tt)
      end
  end.

Definition consume (n : nat) (s : BufSource) : BufSource := mkBuf (drop n s.(buffered)) s.(reads).

Definition is_lf (b : ascii) : bool := byte_eqb 10 b.

(** [available.iter().position(|byte| *byte == b'\n')] *)
Fixpoint position_lf (l : bytes) : option nat :=
  match l with
  | [] => None
  | b :: l => if is_lf b then Some O else S <$> position_lf l
  end.

(** The probe: at most [MAX_FRAME_BYTES + 1] bytes are retained. *)
Definition cap : nat := Z.to_nat (MAX_FRAME_BYTES + 1).
Arguments cap : simpl never.

Definition retain (raw : bytes) (retained : Z) (chunk : bytes) : bytes :=
  if retained <? MAX_FRAME_BYTES + 1 then raw ++ take (Z.to_nat (MAX_FRAME_BYTES + 1 - retained)) chunk else raw.

(** The inner loop of [next_line]: bytes retained, bytes consumed, whether the source
    ended. *)
Fixpoint read_raw (fuel : nat) (s : BufSource) (raw : bytes) (retained : Z) :
    run (BufSource * result (bytes * Z * bool) McpError) :=
  match fuel with
  | O => OutOfFuel
  | S fuel =>
      let '(s, answer) := fill_buf s in
      match answer with
      | Err _ => Returned (s, Err (McpError_new StFrame (McpIo (bound_error_text "stdout read" MAX_ERROR_TEXT_BYTES))))
      | Ok [] => Returned (s, Ok (raw, retained, true))
      | Ok available =>
          match position_lf available with
          | Some offset =>
              let want := S offset in
              Returned (consume want s, Ok (retain raw retained (take want available), retained + Z.of_nat want, false))
          | None =>
              read_raw fuel (consume (length available) s) (retain raw retained available) (retained + len available)
          end
      end
  end.

(** One trailing newline and one carriage return before it. *)
Definition strip_line (raw : bytes) : bytes :=
  match last raw with
  | Some b =>
      if is_lf b then
        let raw := removelast raw in
        match last raw with Some c => if byte_eqb 13 c then removelast raw else raw | None => raw end
      else raw
  | None => raw
  end.

(** What is left in a source, for the fuel of its loops. *)
Definition event_size (e : ReadEvent) : nat := match e with RdData l => S (length l) | _ => 1%nat end.
Definition source_size (s : BufSource) : nat := (length s.(buffered) + sum_list_with event_size s.(reads))%nat.

(** [FramedLines::next_line] *)
Fixpoint next_line_loop (fuel : nat) (s : BufSource) (stats : FrameStats) :
    run (BufSource * FrameStats * result (option string) McpError) :=
  match fuel with
  | O => OutOfFuel
  | S fuel =>
      match read_raw (S (source_size s)) s [] 0 with
      | Panicked => Panicked
      | OutOfFuel => OutOfFuel
      | Returned (s, Err e) => Returned (s, stats, Err e)
      | Returned (s, Ok (raw, retained, eof)) =>
          if eof && bool_decide (raw = []) then Returned (s, stats, Ok None)
          else
            let raw := strip_line raw in
            if retained >? MAX_FRAME_BYTES then
              Returned (s, reject_one stats,
                Err (McpError_new StFrame (McpFrameTooLarge MAX_FRAME_BYTES (Z.min (len raw) (MAX_FRAME_BYTES + 1)))))
            else if eof && bool_decide (raw = []) then Returned (s, stats, Ok None)
            else
              match decode_line raw stats with
              | (stats, Some line) => Returned (s, stats, Ok (Some line))
              | (stats, None) => if eof then Returned (s, stats, Ok None) else next_line_loop fuel s stats
              end
      end
  end.

Definition next_line (s : BufSource) (stats : FrameStats) : run (BufSource * FrameStats * result (option string) McpError) :=
  next_line_loop (S (source_size s)) s stats.

(** ** The reference: lines of the whole stream *)

(** The lines of a stream, each with its newline. *)
Fixpoint raw_lines (s : bytes) : list bytes :=
  match s with
  | [] => []
  | b :: s =>
      if is_lf b then [b] :: raw_lines s
      else match raw_lines s with [] => [[b]] | l :: ls => (b :: l) :: ls end
  end.

(** The first line that is a frame or too long, the lines before it counted. *)
Fixpoint next_ref (ls : list bytes) (stats : FrameStats) : list bytes * FrameStats * result (option string) McpError :=
  match ls with
  | [] => ([], stats, Ok None)
  | l :: ls =>
      if len l >? MAX_FRAME_BYTES then
        (ls, reject_one stats, Err (McpError_new StFrame
           (McpFrameTooLarge MAX_FRAME_BYTES (len (strip_line (take cap l))))))
      else match decode_line (strip_line l) stats with
           | (stats, Some line) => (ls, stats, Ok (Some line))
           | (stats, None) => next_ref ls stats
           end
  end.

(** A source whose reads deliver bytes until the end: no failure, no empty read. *)
Definition delivers (s : BufSource) : Prop := Forall (λ e, ∃ l, e = RdData l ∧ l ≠ []) s.(reads).

Definition remaining (s : BufSource) : bytes := s.(buffered) ++ deliverable s.(reads).

Lemma fill_buf_delivers s : delivers s →
  ∃ s', fill_buf s = (s', Ok s'.(buffered)) ∧ delivers s' ∧ remaining s' = remaining s
    ∧ (s'.(buffered) = [] → remaining s = []) ∧ (source_size s' ≤ source_size s)%nat.
Proof.
  destruct s as [b es]. unfold delivers, fill_buf, remaining, source_size. simpl. intros Hd.
  destruct b as [|c b]; [|by exists (mkBuf (c :: b) es)].
  destruct es as [|e es]; [by exists (mkBuf [] [])|].
  apply Forall_cons in Hd as [(l & -> & Hl) Hes]. exists (mkBuf l es). simpl.
  split_and!; try done; [by destruct l|lia].
Qed.

Lemma position_lf_Some l n : position_lf l = Some n →
  take (S n) l ++ drop (S n) l = l ∧ (∃ a, take (S n) l = a ++ [Ascii.ascii_of_N 10] ∧ forallb (negb ∘ is_lf) a = true) ∧ (n < length l)%nat.
Proof.
  revert n. induction l as [|b l IH]; intros n; simpl; [done|]. destruct (is_lf b) eqn:E.
  - intros [= <-]. rewrite take_0, drop_0. split_and!; [done| |lia]. exists []. split; [|done].
    assert (b = Ascii.ascii_of_N 10) as ->; [|done]. apply byte_val_inj. unfold is_lf, byte_eqb in E. by apply Z.eqb_eq in E.
  - destruct (position_lf l) as [m|]; [|done]. intros [= <-]. destruct (IH m eq_refl) as (H1 & (a & Ha & Hf) & H2).
    split_and!; [by rewrite take_drop| |lia]. exists (b :: a). simpl in *. by rewrite Ha, E, Hf.
Qed.

Lemma position_lf_None l : position_lf l = None → forallb (negb ∘ is_lf) l = true.
Proof.
  induction l as [|b l IH]; simpl; [done|]. destruct (is_lf b); [done|]. destruct (position_lf l); [done|]. simpl. auto.
Qed.

(** The first line of a stream: an unfinished prefix [pre] goes on with [s]. *)
Lemma raw_lines_app_lf a s : forallb (negb ∘ is_lf) a = true →
  raw_lines (a ++ [Ascii.ascii_of_N 10] ++ s) = (a ++ [Ascii.ascii_of_N 10]) :: raw_lines s.
Proof.
  induction a as [|b a IH]; cbn [forallb]; [done|]. intros [Hb Ha]%andb_true_iff. unfold compose in Hb. apply negb_true_iff in Hb.
  rewrite <- app_comm_cons. cbn [raw_lines]. rewrite Hb, IH by done. done.
Qed.

Lemma raw_lines_no_lf a : forallb (negb ∘ is_lf) a = true → raw_lines a = match a with [] => [] | _ => [a] end.
Proof.
  induction a as [|b a IH]; simpl; [done|]. intros [Hb Ha]%andb_true_iff. unfold compose in Hb. apply negb_true_iff in Hb.
  rewrite Hb, IH by done. by destruct a.
Qed.

Lemma retain_take pre chunk : retain (take cap pre) (len pre) chunk = take cap (pre ++ chunk).
Proof.
  unfold retain. destruct (Z.ltb_spec (len pre) (MAX_FRAME_BYTES + 1)).
  - assert (length pre ≤ cap)%nat by (unfold cap, len in *; lia). rewrite (take_ge pre) by done.
    rewrite take_app_ge by lia. do 2 f_equal. unfold cap, len in *. lia.
  - symmetry. apply take_app_le. unfold cap, len in *. lia.
Qed.

(** The loop gathers exactly the next line: all of it is consumed and counted, its first
    [cap] bytes are retained. *)
Lemma read_raw_spec fuel : ∀ s pre, delivers s → (source_size s < fuel)%nat → forallb (negb ∘ is_lf) pre = true →
  ∃ s' line eof, read_raw fuel s (take cap pre) (len pre) = Returned (s', Ok (take cap line, len line, eof))
    ∧ delivers s' ∧ (source_size s' ≤ source_size s)%nat ∧ (line ≠ pre → source_size s' < source_size s)%nat
    ∧ (eof = true → line = pre ++ remaining s ∧ remaining s' = [] ∧ forallb (negb ∘ is_lf) line = true)
    ∧ (∃ ext, line = pre ++ ext ∧ (eof = false → ext ≠ []))
    ∧ raw_lines (pre ++ remaining s) = match line with [] => [] | _ => line :: raw_lines (remaining s') end.
Proof.
  induction fuel as [|fuel IH]; intros s pre Hd Hf Hp; [lia|]. simpl.
  destruct (fill_buf_delivers s Hd) as (s1 & -> & Hd1 & Hr & He & Hsz).
  destruct (buffered s1) as [|b av] eqn:Eb.
  { exists s1, pre, true. rewrite (He eq_refl), Hr, (He eq_refl), app_nil_r. split_and!; try done.
    - exists []. by rewrite app_nil_r.
    - by apply raw_lines_no_lf. }
  rewrite <- Eb. assert (Er : remaining s1 = buffered s1 ++ deliverable s1.(reads)) by done.
  assert (Hs1 : ∀ n, (0 < n)%nat → (source_size (consume n s1) < source_size s1)%nat).
  { intros n Hn. unfold source_size, consume. simpl. rewrite length_drop, Eb. simpl. lia. }
  destruct (position_lf (buffered s1)) as [n|] eqn:En.
  - destruct (position_lf_Some _ _ En) as (H1 & (a & Ha & Hfa) & H2).
    exists (consume (S n) s1), (pre ++ take (S n) (buffered s1)), false. rewrite retain_take, len_app.
    assert (Z.of_nat (S n) = len (take (S n) (buffered s1))) as -> by (unfold len; rewrite length_take; lia).
    specialize (Hs1 (S n) ltac:(lia)). split_and!; try done; try lia.
    { eexists. split; [done|]. intros _. rewrite Ha. by destruct a. }
    assert (Hrem : pre ++ remaining s = (pre ++ a) ++ [Ascii.ascii_of_N 10] ++ remaining (consume (S n) s1)).
    { rewrite <- Hr, Er, <- H1, Ha at 1. unfold remaining, consume. simpl. by rewrite <- !app_assoc. }
    rewrite Hrem, raw_lines_app_lf by (by rewrite forallb_app, Hp). rewrite Ha, (app_assoc pre). by destruct (pre ++ a).
  - pose proof (position_lf_None _ En) as Hn. rewrite retain_take. rewrite <- len_app.
    destruct (IH (consume (length (buffered s1)) s1) (pre ++ buffered s1)) as (s' & line & eof & -> & Hd' & Hz1 & Hz2 & He1 & He2 & Hl).
    { done. } { specialize (Hs1 (length (buffered s1)) ltac:(rewrite Eb; simpl; lia)). lia. }
    { by rewrite forallb_app, Hp, Hn. }
    specialize (Hs1 (length (buffered s1)) ltac:(rewrite Eb; simpl; lia)).
    assert (Hrem : (pre ++ buffered s1) ++ remaining (consume (length (buffered s1)) s1) = pre ++ remaining s).
    { rewrite <- Hr, Er, <- app_assoc. unfold remaining, consume. simpl. by rewrite drop_ge. }
    exists s', line, eof. rewrite Hrem in *. split_and!; try done; try lia.
    destruct He2 as (ext & -> & _). exists (buffered s1 ++ ext). rewrite app_assoc. split; [done|]. intros _. by rewrite Eb.
Qed.

Lemma len_strip_line raw : len (strip_line raw) ≤ len raw.
Proof.
  assert (∀ l : bytes, len (removelast l) ≤ len l) as Hr.
  { induction l as [|b l IH]; simpl; [lia|]. destruct l; [len_lia|]. len_lia. }
  unfold strip_line. destruct (last raw) as [b|]; [|lia]. destruct (is_lf b); [|lia].
  pose proof (Hr raw). destruct (last (removelast raw)) as [c|]; [|done]. destruct (byte_eqb 13 c); [|done].
  pose proof (Hr (removelast raw)). lia.
Qed.

Lemma strip_line_no_lf l : l ≠ [] → forallb (negb ∘ is_lf) l = true → strip_line l = l.
Proof.
  intros Hl Hf. unfold strip_line. destruct (last l) as [b|] eqn:E; [|done].
  rewrite forallb_forall in Hf. assert (In b l) as Hin.
  { apply list_elem_of_In. apply last_Some in E as [k ->]. set_solver. }
  specialize (Hf _ Hin). unfold compose in Hf. apply negb_true_iff in Hf. by rewrite Hf.
Qed.

Lemma next_line_loop_spec fuel : ∀ s stats, delivers s → (source_size s < fuel)%nat →
  ∃ s' rest stats' r, next_line_loop fuel s stats = Returned (s', stats', r)
    ∧ next_ref (raw_lines (remaining s)) stats = (rest, stats', r) ∧ delivers s' ∧ raw_lines (remaining s') = rest.
Proof.
  induction fuel as [|fuel IH]; intros s stats Hd Hf; [lia|]. cbn [next_line_loop].
  destruct (read_raw_spec (S (source_size s)) s []) as (s1 & line & eof & Er & Hd1 & Hz1 & Hz2 & He1 & He2 & Hl); [done|lia|done|].
  rewrite take_nil in Er. rewrite len_nil in Er. rewrite Er. simpl in Hl. rewrite Hl.
  destruct line as [|b line].
  { destruct He2 as (ext & Ex & He2). destruct eof; [|by destruct (He2 eq_refl)]. rewrite take_nil. simpl. destruct (He1 eq_refl) as (_ & Hr1 & _). simpl.
    exists s1, [], stats, (Ok None). rewrite Hr1. done. }
  assert (take cap (b :: line) ≠ []) as Hne by done.
  rewrite (bool_decide_eq_false_2 _ Hne), andb_false_r. set (l := b :: line) in *. cbn [next_ref].
  destruct (Z.gtb_spec (len l) MAX_FRAME_BYTES) as [Hgt|Hle].
  { eexists s1, _, _, _. split_and!; try done. do 3 f_equal. f_equal. symmetry. apply Z.min_l.
    assert (len (take cap l) ≤ MAX_FRAME_BYTES + 1) by (unfold len; rewrite length_take; unfold cap, MAX_FRAME_BYTES; lia).
    pose proof (len_strip_line (take cap l)). lia. }
  assert (take cap l = l) as Et by (apply take_ge; unfold cap, len in *; lia). rewrite Et.
  replace (eof && bool_decide (strip_line l = [])) with false.
  2: { destruct eof; [|done]. destruct (He1 eq_refl) as (_ & _ & Hlf). symmetry. apply bool_decide_eq_false. by rewrite strip_line_no_lf. }
  destruct (decode_line (strip_line l) stats) as [stats1 [t|]]; [by eexists s1, _, _, _|].
  destruct eof.
  - destruct (He1 eq_refl) as (_ & Hr1 & _). rewrite Hr1. simpl. eexists s1, _, _, _. split_and!; try done. by rewrite Hr1.
  - assert (source_size s1 < source_size s)%nat by (apply Hz2; done). apply IH; [done|lia].
Qed.

