(* ===== verification/McpJson.v ===== *)
(** * McpJson: the JSON helpers of the MCP client

    Models [json.rs] of [crates/bitty-ai-mcp]: escaping of outbound strings and the scoped
    extraction of fields from inbound frames.  The source scans byte offsets of a [&str];
    here an offset is the suffix that starts at it.  A slice of a [&str] whose end is not
    at a character boundary panics; such an end is [at_boundary] of the suffix after it. *)

From S2P Require Import Prelude Text Session ToolTypes McpTypes.

Local Open Scope Z_scope.
Local Open Scope rust_scope.

Definition byte (n : N) : ascii := Ascii.ascii_of_N n.

Definition QUOTE : ascii := byte 34.
Definition BACKSLASH : ascii := byte 92.

(** JSON texts below are written with single quotes for the quotes of JSON. *)
Definition J (s : string) : string := of_bytes (map (λ b, if bool_decide (b = byte 39) then QUOTE else b) (as_bytes s)).

(** Sequencing of computations that may panic. *)
Notation "'let!' x := e 'in' k" :=
  (match e with Returned x => k | Panicked => Panicked | OutOfFuel => OutOfFuel end)
  (at level 10, x pattern, e at level 99, k at level 200) : rust_scope.

Definition is_byte (c b : ascii) : bool := bool_decide (b = c).

(** ** Escaping *)

Definition hex_digit (n : Z) : ascii := byte (Z.to_N (if n <? 10 then 48 + n else 87 + n)).

(** [format!("\\u{:04x}", code)] *)
Definition unicode_escape (code : Z) : bytes :=
  [BACKSLASH; byte 117; hex_digit (code / 4096); hex_digit (code / 256 mod 16); hex_digit (code / 16 mod 16); hex_digit (code mod 16)].

(** One character; those of several bytes are pushed as they are, byte by byte. *)
Definition escape_byte (b : ascii) : bytes :=
  let n := byte_val b in
  if n =? 34 then [BACKSLASH; QUOTE]
  else if n =? 92 then [BACKSLASH; BACKSLASH]
  else if n =? 10 then [BACKSLASH; byte 110]
  else if n =? 13 then [BACKSLASH; byte 114]
  else if n =? 9 then [BACKSLASH; byte 116]
  else if n =? 8 then [BACKSLASH; byte 98]
  else if n =? 12 then [BACKSLASH; byte 102]
  else if n <? 32 then unicode_escape n
  else [b].

Definition escape_into (value : bytes) : bytes := flat_map escape_byte value.

Definition escaped (value : string) : string := of_bytes (escape_into (as_bytes value)).

(** ** Offsets of values *)

(** [u8::is_ascii_whitespace] *)
Definition is_ascii_whitespace (b : ascii) : bool :=
  existsb (λ n, byte_eqb n b) [32; 9; 10; 12; 13].

Fixpoint skip_ws (l : bytes) : bytes :=
  match l with
  | [] => []
  | b :: t => if is_ascii_whitespace b then skip_ws t else l
  end.

Fixpoint strip_bytes (pat l : bytes) : option bytes :=
  match pat, l with
  | [], _ => Some l
  | p :: pat, b :: l => if bool_decide (p = b) then strip_bytes pat l else None
  | _ :: _, [] => None
  end.

(** The search of [value_offset] from the left, [find_subslice] included. *)
Fixpoint value_search (pat l : bytes) : option bytes :=
  match l with
  | [] => None
  | _ :: t =>
      match strip_bytes pat l with
      | Some rest =>
          match skip_ws rest with
          | c :: rest => if byte_eqb 58 c then Some (skip_ws rest) else value_search pat t
          | [] => value_search pat t
          end
      | None => value_search pat t
      end
  end.

(** [value_offset] *)
Definition value_offset (line key : string) : option bytes :=
  value_search (QUOTE :: as_bytes key ++ [QUOTE]) (as_bytes line).

(** ** Strings *)

(** [u32::from_str_radix(digits, 16)] on a few digits, a sign included. *)
Definition hex_val (b : ascii) : option Z :=
  if is_ascii_digit b then Some (byte_val b - 48)
  else if in_range 97 102 b then Some (byte_val b - 87)
  else if in_range 65 70 b then Some (byte_val b - 55)
  else None.

Fixpoint hex_digits (acc : Z) (l : bytes) : option Z :=
  match l with
  | [] => Some acc
  | b :: l => match hex_val b with Some d => hex_digits (acc * 16 + d) l | None => None end
  end.

Definition from_str_radix_16 (l : bytes) : option Z :=
  match l with
  | [] => None
  | b :: t => if byte_eqb 43 b then match t with [] => None | _ => hex_digits 0 t end else hex_digits 0 l
  end.

(** [char::from_u32] of at most 16 bits, in UTF-8. *)
Definition char_from_u32 (code : Z) : option bytes :=
  let c n := byte (Z.to_N n) in
  if code <? 128 then Some [c code]
  else if code <? 2048 then Some [c (192 + code / 64); c (128 + code mod 64)]
  else if (55296 <=? code) && (code <=? 57343) then None
  else Some [c (224 + code / 4096); c (128 + code / 64 mod 64); c (128 + code mod 64)].

(** The byte escapes of [find_string_field]. *)
Definition simple_escape (b : ascii) : option ascii :=
  let n := byte_val b in
  if (n =? 34) || (n =? 92) || (n =? 47) then Some b
  else if n =? 98 then Some (byte 8)
  else if n =? 102 then Some (byte 12)
  else if n =? 110 then Some (byte 10)
  else if n =? 114 then Some (byte 13)
  else if n =? 116 then Some (byte 9)
  else None.

(** Whether a character starts at (or the text ends before) a suffix. *)
Definition at_boundary (l : bytes) : bool :=
  match l with [] => true | b :: _ => negb (is_cont b) end.

Definition push (p : bytes) (r : run (option bytes)) : run (option bytes) :=
  match r with Returned (Some out) => Returned (Some (p ++ out)) | other => other end.

(** The loop of [find_string_field] after the opening quote.  A character of several bytes
    is pushed byte by byte: its bytes are neither quotes nor backslashes. *)
Fixpoint read_string (l : bytes) : run (option bytes) :=
  match l with
  | [] => Returned None
  | b :: t =>
      if is_byte QUOTE b then Returned (Some [])
      else if is_byte BACKSLASH b then
        match t with
        | [] => Returned None
        | e :: t =>
            match simple_escape e with
            | Some c => push [c] (read_string t)
            | None =>
                if byte_eqb 117 e then
                  match t with
                  | d1 :: d2 :: d3 :: d4 :: t4 =>
                      if negb (at_boundary t && at_boundary t4) then Panicked
                      else
                        match from_str_radix_16 [d1; d2; d3; d4] with
                        | None => Returned None
                        | Some code =>
                            match char_from_u32 code with
                            | None => Returned None
                            | Some c => push c (read_string t4)
                            end
                        end
                  | _ => Returned None
                  end
                else Returned None
            end
        end
      else push [b] (read_string t)
  end.

Definition find_string_field (line key : string) : run (option string) :=
  match value_offset line key with
  | Some (b :: t) =>
      if is_byte QUOTE b then
        let! out := read_string t in Returned (of_bytes <$> out)
      else Returned None
  | _ => Returned None
  end.

(** ** Raw values *)

(** The text between quotes, escapes kept. *)
Fixpoint raw_string (l : bytes) : option bytes :=
  match l with
  | [] => None
  | b :: t =>
      if is_byte BACKSLASH b then match t with [] => None | c :: t => (λ r, b :: c :: r) <$> raw_string t end
      else if is_byte QUOTE b then Some []
      else cons b <$> raw_string t
  end.

Definition prepend (p : bytes) (r : option (bytes * bytes)) : option (bytes * bytes) :=
  match r with Some (taken, rest) => Some (p ++ taken, rest) | None => None end.

(** The loop of [balanced_end]: what it passed, the closing bracket included, and the rest.
    The bracket at the start makes [depth] positive at every closing one. *)
Fixpoint balanced (op cl : ascii) (depth : nat) (in_string : bool) (l : bytes) : option (bytes * bytes) :=
  match l with
  | [] => None
  | b :: t =>
      if in_string then
        if is_byte BACKSLASH b then
          match t with [] => None | c :: t => prepend [b; c] (balanced op cl depth true t) end
        else prepend [b] (balanced op cl depth (negb (is_byte QUOTE b)) t)
      else if is_byte QUOTE b then prepend [b] (balanced op cl depth true t)
      else if is_byte op b then prepend [b] (balanced op cl (S depth) false t)
      else if is_byte cl b then
        match pred depth with O => Some ([b], t) | depth => prepend [b] (balanced op cl depth false t) end
      else prepend [b] (balanced op cl depth false t)
  end.

(** [balanced_end] from the suffix at its start. *)
Definition balanced_end (op cl : ascii) (l : bytes) : option (bytes * bytes) :=
  match l with b :: _ => if is_byte op b then balanced op cl 0 false l else None | [] => None end.

(** Up to a comma or a closing bracket. *)
Fixpoint raw_token (l : bytes) : bytes :=
  match l with
  | [] => []
  | b :: t => if existsb (λ n, byte_eqb n b) [44; 125; 93] then [] else b :: raw_token t
  end.

Definition find_raw_field (line key : string) : option string :=
  match value_offset line key with
  | Some (b :: t) =>
      if is_byte QUOTE b then of_bytes <$> raw_string t
      else if byte_eqb 123 b then (of_bytes ∘ fst) <$> balanced_end (byte 123) (byte 125) (b :: t)
      else if byte_eqb 91 b then (of_bytes ∘ fst) <$> balanced_end (byte 91) (byte 93) (b :: t)
      else let token := trim (of_bytes (raw_token (b :: t))) in if is_empty token then None else Some token
  | _ => None
  end.

Definition find_object_field (line key : string) : option string :=
  match find_raw_field line key with
  | Some raw => if String.prefix "{" raw then Some raw else None
  | None => None
  end.

Definition find_bool_field (line key : string) : option bool :=
  match find_raw_field line key with
  | Some raw => if str_eqb raw "true" then Some true else if str_eqb raw "false" then Some false else None
  | None => None
  end.

Definition has_method (line : string) : run bool :=
  let! r := find_string_field line "method" in Returned (match r with Some _ => true | None => false end).

(** ** Escaping is injective, closed and one line *)

Lemma is_byte_true c b : is_byte c b = true ↔ b = c.
Proof. apply bool_decide_eq_true. Qed.

Lemma byte_val_byte n : (n < 256)%N → byte_val (byte n) = Z.of_N n.
Proof. intros H. unfold byte_val, byte. by rewrite Ascii.N_ascii_embedding. Qed.

(** By cases on the bytes that are escaped with a letter, the other control bytes, and the
    rest. *)
Lemma escape_byte_cases b :
  (∃ e, escape_byte b = [BACKSLASH; e] ∧ simple_escape e = Some b)
  ∨ (byte_val b < 32 ∧ escape_byte b = unicode_escape (byte_val b))
  ∨ (32 ≤ byte_val b ∧ escape_byte b = [b] ∧ b ≠ QUOTE ∧ b ≠ BACKSLASH).
Proof.
  assert (∀ n, (n < 256)%N → byte_val b = Z.of_N n → b = byte n) as Hb.
  { intros n Hn E. apply byte_val_inj. by rewrite byte_val_byte. }
  unfold escape_byte.
  repeat match goal with
  | |- context [byte_val b =? ?k] =>
      destruct (Z.eqb_spec (byte_val b) k) as [E|?];
      [left; rewrite (Hb (Z.to_N k)) by (done || exact E); eexists; split; reflexivity|]
  end.
  destruct (Z.ltb_spec (byte_val b) 32); [by right; left|]. right; right. split_and!; try done; by intros ->.
Qed.

Lemma unicode_escape_read b t : byte_val b < 32 → at_boundary t = true →
  read_string (unicode_escape (byte_val b) ++ t) = push [b] (read_string t).
Proof.
  intros Hb Ht. unfold unicode_escape. cbn [app read_string].
  replace (is_byte QUOTE BACKSLASH) with false by done. replace (is_byte BACKSLASH BACKSLASH) with true by done.
  replace (simple_escape (byte 117)) with (@None ascii) by done. replace (byte_eqb 117 (byte 117)) with true by done.
  cbn [at_boundary]. rewrite Ht, andb_true_r.
  destruct b as [b0 b1 b2 b3 b4 b5 b6 b7].
  assert (b5 = false ∧ b6 = false ∧ b7 = false) as (-> & -> & ->).
  { destruct b5, b6, b7; try done; exfalso; destruct b0, b1, b2, b3, b4; by vm_compute in Hb. }
  by destruct b0, b1, b2, b3, b4.
Qed.

Lemma read_string_plain b t : b ≠ QUOTE → b ≠ BACKSLASH → read_string (b :: t) = push [b] (read_string t).
Proof.
  intros H1 H2. cbn [read_string]. unfold is_byte. by rewrite !bool_decide_eq_false_2.
Qed.

Lemma push_nil r : push [] r = r.
Proof. by destruct r as [[]| |]. Qed.

Lemma push_push p q r : push p (push q r) = push (p ++ q) r.
Proof. destruct r as [[o|]| |]; simpl; [by rewrite app_assoc|done..]. Qed.

(** One character in front: an ASCII byte is escaped, the others are pushed. *)
Lemma read_escaped_byte b t : at_boundary t = true ∨ 32 ≤ byte_val b →
  read_string (escape_byte b ++ t) = push [b] (read_string t).
Proof.
  intros Hb. destruct (escape_byte_cases b) as [(e & -> & He)|[(Hlt & ->)|(Hge & -> & H1 & H2)]].
  - cbn [app read_string]. replace (is_byte QUOTE BACKSLASH) with false by done.
    replace (is_byte BACKSLASH BACKSLASH) with true by done. by rewrite He.
  - apply unicode_escape_read; [done|]. destruct Hb; [done|lia].
  - simpl. by apply read_string_plain.
Qed.

Lemma escape_into_app k l : escape_into (k ++ l) = escape_into k ++ escape_into l.
Proof. apply flat_map_app. Qed.

Lemma at_boundary_valid l r : utf8_valid l = true → at_boundary r = true → at_boundary (escape_into l ++ r) = true.
Proof.
  intros Hv Hr. destruct (utf8_uncons l Hv) as [->|(c & t & -> & Hc & _)]; [done|].
  destruct (utf8_char_shape c Hc) as (b & t' & -> & Hb & _). unfold escape_into. simpl. rewrite <- app_assoc.
  destruct (escape_byte_cases b) as [(e & -> & _)|[(_ & ->)|(_ & -> & _)]]; [done|done|]. simpl. by rewrite Hb.
Qed.

(** The bytes of a character past the first, and the first of several, are not escaped. *)
Lemma read_escaped_char c r : utf8_char c = true → at_boundary r = true →
  read_string (escape_into c ++ r) = push c (read_string r).
Proof.
  intros Hc Hr. assert (∀ t, Forall (λ x, 32 ≤ byte_val x) t → read_string (escape_into t ++ r) = push t (read_string r)) as Hh.
  { induction 1 as [|x t Hx _ IH]; [by rewrite push_nil|]. unfold escape_into in *. simpl. rewrite <- app_assoc.
    rewrite read_escaped_byte by auto. rewrite IH, push_push. done. }
  destruct c as [|b [|b1 t]]; [done| |].
  - unfold escape_into. simpl. rewrite app_nil_r. apply read_escaped_byte. auto.
  - destruct (utf8_char_shape _ Hc) as (? & ? & [= <- <-] & _ & Ht & _). apply Hh. constructor.
    + simpl in Hc. unfold in_range in Hc. destruct t as [|b2 [|b3 [|b4 t]]]; reflect_bools; lia || done.
    + eapply Forall_impl; [exact Ht|]. intros x Hx. unfold is_cont, in_range in Hx. reflect_bools. lia.
Qed.

(** An escaped string is read back whatever follows its closing quote. *)
Lemma read_string_escaped v rest : utf8_valid v = true → read_string (escape_into v ++ QUOTE :: rest) = Returned (Some v).
Proof.
  intros Hv. assert (∀ r, at_boundary r = true → read_string (escape_into v ++ r) = push v (read_string r)) as H.
  { revert v Hv. apply (utf8_ind (λ v, ∀ r, at_boundary r = true → read_string (escape_into v ++ r) = push v (read_string r))).
    - intros r _. by rewrite push_nil.
    - intros c t Hc Ht IH r Hr. rewrite escape_into_app, <- app_assoc.
      rewrite read_escaped_char by (done || by apply at_boundary_valid). rewrite IH by done. apply push_push. }
  rewrite H by done. simpl. by rewrite app_nil_r.
Qed.

(** The digits of an escape are plain bytes. *)
Lemma hex_digit_plain n : 0 ≤ n < 16 → 32 ≤ byte_val (hex_digit n) ∧ hex_digit n ≠ QUOTE ∧ hex_digit n ≠ BACKSLASH.
Proof.
  intros Hn. assert (48 ≤ byte_val (hex_digit n) ∧ byte_val (hex_digit n) ≠ 92) as [H1 H2].
  { unfold hex_digit. rewrite byte_val_byte; destruct (Z.ltb_spec n 10); lia. }
  split_and!; [lia| |]; intros E; rewrite E in *; [change (byte_val QUOTE) with 34 in H1; lia|done].
Qed.

Lemma unicode_escape_digits n : 0 ≤ n < 32 →
  Forall (λ d, 32 ≤ byte_val d ∧ d ≠ QUOTE ∧ d ≠ BACKSLASH) (drop 2 (unicode_escape n)).
Proof.
  intros Hn. unfold unicode_escape. cbn [drop]. repeat constructor; apply hex_digit_plain;
    first [by rewrite Z.div_small by lia|apply Z.mod_pos_bound; lia].
Qed.

Lemma raw_string_plain d t : d ≠ QUOTE → d ≠ BACKSLASH → raw_string (d :: t) = cons d <$> raw_string t.
Proof. intros H1 H2. cbn [raw_string]. unfold is_byte. by rewrite !bool_decide_eq_false_2. Qed.

Lemma raw_string_backslash e t : raw_string (BACKSLASH :: e :: t) = (λ r, BACKSLASH :: e :: r) <$> raw_string t.
Proof. done. Qed.

Lemma raw_string_escaped v rest : raw_string (escape_into v ++ QUOTE :: rest) = Some (escape_into v).
Proof.
  induction v as [|b v IH]; [done|]. unfold escape_into in *. simpl. rewrite <- app_assoc.
  destruct (escape_byte_cases b) as [(e & -> & _)|[(Hb & ->)|(_ & -> & H1 & H2)]].
  - simpl app at 1. by rewrite raw_string_backslash, IH.
  - pose proof (byte_val_bounds b). pose proof (unicode_escape_digits (byte_val b) ltac:(lia)) as Hd.
    unfold unicode_escape in *. cbn [drop] in Hd. rewrite !Forall_cons in Hd. destruct Hd as ((_ & ? & ?) & (_ & ? & ?) & (_ & ? & ?) & (_ & ? & ?) & _).
    simpl app at 1. rewrite raw_string_backslash, !raw_string_plain by done. by rewrite IH.
  - simpl app at 1. rewrite raw_string_plain by done. by rewrite IH.
Qed.

(** No control byte survives escaping, so no line break does. *)
Lemma escape_into_printing v b : b ∈ escape_into v → 32 ≤ byte_val b.
Proof.
  unfold escape_into. rewrite list_elem_of_In, in_flat_map. intros (x & _ & Hb%list_elem_of_In).
  destruct (escape_byte_cases x) as [(e & Ee & He)|[(Hlt & Ee)|(Hge & Ee & _)]]; rewrite Ee in Hb.
  - apply elem_of_cons in Hb as [->|Hb%list_elem_of_singleton]; [done|subst b]. unfold simple_escape in He.
    destruct (Z.leb_spec 32 (byte_val e)); [done|exfalso].
    repeat match type of He with context [byte_val e =? ?k] => destruct (Z.eqb_spec (byte_val e) k); [lia|] end. done.
  - pose proof (byte_val_bounds x). pose proof (unicode_escape_digits (byte_val x) ltac:(lia)) as Hd.
    unfold unicode_escape in *. cbn [drop] in Hd.
    do 2 (apply elem_of_cons in Hb as [->|Hb]; [done|]). rewrite Forall_forall in Hd. by apply Hd.
  - by apply list_elem_of_singleton in Hb as ->.
Qed.

(** ** Panics of the reader *)

(** Every [\u] is followed by four bytes that are whole characters. *)
Fixpoint escapes_ok (l : bytes) : bool :=
  match l with
  | [] => true
  | b :: t =>
      (if is_byte BACKSLASH b then
         match t with
         | e :: t => if byte_eqb 117 e then
             match t with _ :: _ :: _ :: _ :: t4 => at_boundary t && at_boundary t4 | _ => true end else true
         | [] => true
         end
       else true) && escapes_ok t
  end.

Lemma push_cases p r : push p r = Panicked → r = Panicked.
Proof. by destruct r as [[]| |]. Qed.

Lemma read_string_fuel l : read_string l ≠ OutOfFuel.
Proof.
  induction l as [l IH] using (induction_ltof1 _ (@length _)). unfold ltof in IH.
  assert (∀ p t, (length t < length l)%nat → push p (read_string t) ≠ OutOfFuel) as Hp.
  { intros p t Hl. specialize (IH t Hl). by destruct (read_string t) as [[]| |]. }
  destruct l as [|b t]; [done|]. cbn [read_string]. repeat (case_match; simplify_eq; try done); apply Hp; simpl; lia.
Qed.

Lemma read_string_safe l : escapes_ok l = true → read_string l ≠ Panicked.
Proof.
  induction l as [l IH] using (induction_ltof1 _ (@length _)). unfold ltof in IH. intros Hl.
  assert (∀ p t, (length t < length l)%nat → escapes_ok t = true → push p (read_string t) ≠ Panicked) as Hp.
  { intros p t Hlt Ht H%push_cases. by apply (IH t). }
  destruct l as [|b t]; [done|]. cbn [read_string escapes_ok] in *. apply andb_true_iff in Hl as [H1 H2].
  destruct (is_byte QUOTE b); [done|]. destruct (is_byte BACKSLASH b); [|apply Hp; [simpl; lia|done]].
  destruct t as [|e t]; [done|]. cbn [escapes_ok] in H2. apply andb_true_iff in H2 as [_ H2].
  destruct (simple_escape e); [apply Hp; [simpl; lia|done]|]. destruct (byte_eqb 117 e); [|done].
  destruct t as [|d1 [|d2 [|d3 [|d4 t4]]]]; try done. rewrite H1. simpl negb. cbv iota.
  destruct (from_str_radix_16 _); [|done]. destruct (char_from_u32 _); [|done]. apply Hp; [simpl; lia|].
  cbn [escapes_ok] in H2. reflect_bools. done.
Qed.

Lemma escapes_ok_suffix k l : escapes_ok (k ++ l) = true → escapes_ok l = true.
Proof. induction k as [|b k IH]; [done|]. cbn [app escapes_ok]. intros [_ H]%andb_true_iff. auto. Qed.

Lemma escapes_ok_prefix k l : escapes_ok (k ++ l) = true → escapes_ok k = true.
Proof.
  induction k as [|b k IH]; [done|]. cbn [app escapes_ok]. intros [H1 H2]%andb_true_iff. rewrite IH by done.
  apply andb_true_iff. split; [|done]. destruct (is_byte BACKSLASH b); [|done]. destruct k as [|e k]; [done|].
  simpl in H1 |- *. destruct (byte_eqb 117 e); [|done]. destruct k as [|d1 [|d2 [|d3 [|d4 k]]]]; try done.
  simpl in *. apply andb_true_iff in H1 as [-> H1]. by destruct k.
Qed.

Lemma skip_ws_suffix l : ∃ k, l = k ++ skip_ws l.
Proof.
  induction l as [|b l [k IH]]; [by exists []|]. simpl. destruct (is_ascii_whitespace b); [|by exists []].
  exists (b :: k). simpl. by rewrite <- IH.
Qed.

Lemma strip_bytes_Some pat : ∀ l rest, strip_bytes pat l = Some rest → l = pat ++ rest.
Proof.
  induction pat as [|p pat IH]; intros [|b l] rest H; simplify_eq/=; try done.
  case_bool_decide; [|done]. simplify_eq. f_equal. auto.
Qed.

Lemma value_search_suffix pat l v : value_search pat l = Some v → ∃ k, l = k ++ v.
Proof.
  induction l as [|b l IH]; [done|]. cbn [value_search]. intros H.
  assert (value_search pat l = Some v → ∃ k, b :: l = k ++ v) as Hr.
  { intros Hv. destruct (IH Hv) as [k ->]. by exists (b :: k). }
  destruct (strip_bytes pat (b :: l)) as [rest|] eqn:Es; [|by apply Hr].
  apply strip_bytes_Some in Es. destruct (skip_ws_suffix rest) as [k1 E1]. destruct (skip_ws rest) as [|c r]; [by apply Hr|].
  destruct (byte_eqb 58 c); [|by apply Hr]. injection H as <-. destruct (skip_ws_suffix r) as [k2 E2].
  exists (pat ++ k1 ++ c :: k2). rewrite Es, E1, E2 at 1. rewrite <- !app_assoc. by rewrite <- app_comm_cons.
Qed.

(** A frame whose escapes are whole never makes the reader panic. *)
Lemma find_string_field_total line key : escapes_ok (as_bytes line) = true → ∃ r, find_string_field line key = Returned r.
Proof.
  intros H. unfold find_string_field, value_offset. destruct (value_search _ _) as [[|b t]|] eqn:E; [by eexists| |by eexists].
  destruct (is_byte QUOTE b); [|by eexists]. apply value_search_suffix in E as [k E]. rewrite E in H.
  apply escapes_ok_suffix in H. cbn [escapes_ok] in H. apply andb_true_iff in H as [_ H].
  pose proof (read_string_safe t H). pose proof (read_string_fuel t). destruct (read_string t); [by eexists|done..].
Qed.

Lemma find_string_field_fuel line key : find_string_field line key ≠ OutOfFuel.
Proof.
  unfold find_string_field. destruct (value_offset line key) as [[|b t]|]; [done| |done]. destruct (is_byte QUOTE b); [|done].
  pose proof (read_string_fuel t). by destruct (read_string t).
Qed.
