(* ===== verification/McpClient.v ===== *)
(** * McpClient: handshake, listing and calls of the MCP client

    Models [handshake.rs], [tools.rs] and [call.rs] of [crates/bitty-ai-mcp] over a line
    transport.  The peer is the sequence of answers its [recv_line] calls will give, each
    with the time it takes; past the end of the sequence it stays silent.  The clock moves
    only in those calls. *)

From S2P Require Import Prelude Text Order Session Stream ToolTypes Consent McpTypes McpJson.

Local Open Scope Z_scope.
Local Open Scope rust_scope.

(** ** The transport *)

Inductive RecvAnswer :=
| RecvLine (after : Z) (line : string)
| RecvNone (after : Z)
| RecvErr (after : Z) (e : McpError).

(** [sent] holds every frame handed to [send_line]; [send_faults] the answers of the sends
    to come, all successful past their end. *)
Record Transport := mkTransport {
  clock : Z;
  script : list RecvAnswer;
  send_faults : list (option McpError);
  sent : list string
}.

Definition send_line (t : Transport) (line : string) : Transport * result unit McpError :=
  match t.(send_faults) with
  | [] => (mkTransport t.(clock) t.(script) [] (t.(sent) ++ [line]), Ok tt)
  | fault :: faults =>
      (mkTransport t.(clock) t.(script) faults (t.(sent) ++ [line]),
       match fault with None => Ok tt | Some e => Err e end)
  end.

Definition recv_line (t : Transport) (timeout_ms : Z) : Transport * result (option string) McpError :=
  let after d script := mkTransport (t.(clock) + d) script t.(send_faults) t.(sent) in
  match t.(script) with
  | [] => (after timeout_ms [], Ok None)
  | RecvLine d line :: script => (after d script, Ok (Some line))
  | RecvNone d :: script => (after d script, Ok None)
  | RecvErr d e :: script => (after d script, Err e)
  end.

(** ** Handshake *)

Definition MCP_CLIENT_NAME : string := "bitty-ai-mcp".
Definition MCP_CLIENT_VERSION : string := "0.0.1".
Definition SAMPLING_REFUSED_MESSAGE : string := "Sampling not supported".
Definition ELICITATION_REFUSED_MESSAGE : string := "Elicitation not supported".
Definition UNKNOWN_METHOD_MESSAGE : string := "Method not found".
Definition MAX_SURFACED_FRAMES : Z := 16.

Inductive ToolsCapabilityShape :=
| BoolTrue
| ObjectShape (list_changed : option bool).

#[export] Instance ToolsCapabilityShape_eq_dec : EqDecision ToolsCapabilityShape.
Proof. solve_decision. Defined.

Record InitializeResult := mkInitialize {
  protocol_version : string;
  tools_supported : bool;
  tools_shape : ToolsCapabilityShape
}.

(** [InitializeResult::matches_pin] *)
Definition matches_pin (a b : InitializeResult) : bool :=
  str_eqb a.(protocol_version) b.(protocol_version) && Bool.eqb a.(tools_supported) b.(tools_supported)
  && bool_decide (a.(tools_shape) = b.(tools_shape)).

Definition initialize_request (id : Z) : string :=
  J "{'jsonrpc':'2.0','id':" +:+ show id
  +:+ J ",'method':'initialize','params':{'protocolVersion':'" +:+ PROTOCOL_VERSION
  +:+ J "','capabilities':{'roots':{'listChanged':true}},'clientInfo':{'name':'" +:+ MCP_CLIENT_NAME
  +:+ J "','version':'" +:+ MCP_CLIENT_VERSION +:+ J "'}}}".

Definition initialized_notification : string := J "{'jsonrpc':'2.0','method':'notifications/initialized'}".

Definition handshake_error (f : McpFailure) : McpError := McpError_new StHandshake f.

Definition unwrap_or {A} (d : A) (o : option A) : A := match o with Some a => a | None => d end.

Definition parse_initialize_result (line : string) : run (result InitializeResult McpError) :=
  match find_object_field line "error" with
  | Some error =>
      let code := unwrap_or "?" (find_raw_field error "code") in
      let! message := find_string_field error "message" in
      Returned (Err (handshake_error (HandshakeRejected
        (bound_error_text ("server answered error " +:+ code +:+ ": " +:+ unwrap_or "" message) MAX_ERROR_TEXT_BYTES))))
  | None =>
      match find_object_field line "result" with
      | None => Returned (Err (handshake_error (HandshakeRejected "initialize answer carries no result")))
      | Some res =>
          let! version := find_string_field res "protocolVersion" in
          match version with
          | None => Returned (Err (handshake_error (HandshakeRejected "initialize result carries no protocolVersion")))
          | Some version =>
              if negb (str_eqb version PROTOCOL_VERSION) then
                Returned (Err (handshake_error (VersionMismatch PROTOCOL_VERSION (bound_error_text version MAX_ERROR_NAME_BYTES))))
              else
                match find_object_field res "capabilities" with
                | None => Returned (Err (handshake_error NoToolCapability))
                | Some capabilities =>
                    Returned
                      (if bool_decide (find_bool_field capabilities "tools" = Some true)
                       then Ok (mkInitialize version true BoolTrue)
                       else match find_object_field capabilities "tools" with
                            | Some tools => Ok (mkInitialize version true (ObjectShape (find_bool_field tools "listChanged")))
                            | None => Err (handshake_error NoToolCapability)
                            end)
                end
          end
      end
  end.

Definition refusal_frame (id_token message : string) : string :=
  J "{'jsonrpc':'2.0','id':" +:+ id_token +:+ J ",'error':{'code':-32601,'message':'" +:+ message +:+ J "'}}".

Definition is_id_byte (b : ascii) : bool := is_alnum b || byte_eqb 95 b || byte_eqb 45 b || byte_eqb 46 b.

Definition render_id_token (token : string) : option string :=
  if is_empty token then None
  else if str_forall is_ascii_digit token then Some token
  else if str_eqb token "true" || str_eqb token "false" || str_eqb token "null" then Some token
  else if slen token >? 128 then None
  else if str_forall is_id_byte token then Some (J "'" +:+ token +:+ J "'")
  else None.

(** The reply to a request for [method]. *)
Definition answer_request (method id_token cwd : string) : string :=
  if str_eqb method "ping" then J "{'jsonrpc':'2.0','id':" +:+ id_token +:+ J ",'result':{}}"
  else if str_eqb method "roots/list" then
    J "{'jsonrpc':'2.0','id':" +:+ id_token +:+ J ",'result':{'roots':[{'uri':'" +:+ escaped ("file://" +:+ cwd) +:+ J "'}]}}"
  else if str_eqb method "sampling/createMessage" then refusal_frame id_token SAMPLING_REFUSED_MESSAGE
  else if str_eqb method "elicitation/create" then refusal_frame id_token ELICITATION_REFUSED_MESSAGE
  else if String.prefix "sampling/" method then refusal_frame id_token SAMPLING_REFUSED_MESSAGE
  else if String.prefix "elicitation/" method then refusal_frame id_token ELICITATION_REFUSED_MESSAGE
  else refusal_frame id_token UNKNOWN_METHOD_MESSAGE.

Definition handle_server_request (line cwd : string) : run (option string) :=
  let! method := find_string_field line "method" in
  Returned
    match method with
    | None => None
    | Some method =>
        match find_raw_field line "id" with
        | None => None
        | Some id => (λ token, answer_request method token cwd) <$> render_id_token id
        end
    end.

Definition response_id_matches (line want : string) : bool :=
  match find_raw_field line "id" with Some token => str_eqb token want | None => false end.

Definition remaining_ms (t : Transport) (deadline : Z) : Z :=
  if t.(clock) >=? deadline then 0 else Z.min (deadline - t.(clock)) u32_max.

Definition timed_out (budget_ms : Z) : McpError := handshake_error (McpTimeout budget_ms).

(** A notification is kept while there is room. *)
Definition surface (surfaced : list string) (line : string) : list string :=
  if len surfaced <? MAX_SURFACED_FRAMES then surfaced ++ [line] else surfaced.

(** The loop of [wait_for_response]. *)
Fixpoint wait_loop (fuel : nat) (t : Transport) (want cwd : string) (deadline budget_ms : Z) (surfaced : list string) :
    run (Transport * list string * result string McpError) :=
  match fuel with
  | O => OutOfFuel
  | S fuel =>
      let '(t, answer) := recv_line t (remaining_ms t deadline) in
      match answer with
      | Err e => Returned (t, surfaced, Err e)
      | Ok None =>
          if t.(clock) >=? deadline then Returned (t, surfaced, Err (timed_out budget_ms))
          else wait_loop fuel t want cwd deadline budget_ms surfaced
      | Ok (Some line) =>
          let! is_method := has_method line in
          if is_method : bool then
            let! reply := handle_server_request line cwd in
            let '(t, surfaced, fault) :=
              match reply with
              | Some reply => let '(t, r) := send_line t reply in (t, surfaced, match r with Ok _ => None | Err e => Some e end)
              | None => (t, surface surfaced line, None)
              end in
            match fault with
            | Some e => Returned (t, surfaced, Err e)
            | None =>
                if t.(clock) >=? deadline then Returned (t, surfaced, Err (timed_out budget_ms))
                else wait_loop fuel t want cwd deadline budget_ms surfaced
            end
          else if response_id_matches line want then Returned (t, surfaced, Ok line)
          else if t.(clock) >=? deadline then Returned (t, surfaced, Err (timed_out budget_ms))
          else wait_loop fuel t want cwd deadline budget_ms surfaced
      end
  end.

(** One iteration per answer to come, and one per wait of a silent peer. *)
Definition wait_fuel (t : Transport) (deadline : Z) : nat :=
  (length t.(script) + Z.to_nat ((deadline - t.(clock)) / u32_max) + 2)%nat.

Definition wait_for_response (t : Transport) (want_id : Z) (cwd : string) (deadline budget_ms : Z) (surfaced : list string) :
    run (Transport * list string * result string McpError) :=
  wait_loop (wait_fuel t deadline) t (show want_id) cwd deadline budget_ms surfaced.

Definition handshake (t : Transport) (cwd : string) (timeout_ms : Z) (surfaced : list string) :
    run (Transport * list string * result InitializeResult McpError) :=
  let bound := Z.max timeout_ms 1 in
  let deadline := t.(clock) + bound in
  let '(t, r) := send_line t (initialize_request 1) in
  match r with
  | Err e => Returned (t, surfaced, Err e)
  | Ok _ =>
      let! (t, surfaced, answer) := wait_for_response t 1 cwd deadline bound surfaced in
      match answer with
      | Err e => Returned (t, surfaced, Err e)
      | Ok answer =>
          let! negotiated := parse_initialize_result answer in
          match negotiated with
          | Err e => Returned (t, surfaced, Err e)
          | Ok negotiated =>
              let '(t, r) := send_line t initialized_notification in
              Returned (t, surfaced, match r with Ok _ => Ok negotiated | Err e => Err e end)
          end
      end
  end.

(** ** Listing tools *)

Definition MAX_TOOL_PAGES : nat := 5.

Definition clean_byte (b : ascii) : ascii :=
  let lower := to_ascii_lowercase_byte b in
  if is_ascii_lowercase lower || is_ascii_digit lower || byte_eqb 95 lower then lower else byte 95.

Definition clean (value : string) : string := of_bytes (map clean_byte (as_bytes value)).

(** [format!("{suffix:08x}")] of 32 bits. *)
Definition hex8 (n : Z) : string := of_bytes (map (λ i, hex_digit (n / 16 ^ i mod 16)) [7; 6; 5; 4; 3; 2; 1; 0]).

Definition sanitize_mcp_name (server_id raw_tool : string) : string :=
  let candidate := "mcp_" +:+ clean server_id +:+ "_" +:+ clean raw_tool in
  if (slen candidate <=? MAX_TOOL_NAME_LEN) && is_ok (validate_tool_name candidate) then candidate
  else
    let digest := fnv1a (as_bytes candidate) in
    let keep := MAX_TOOL_NAME_LEN - 1 - 8 in
    let prefix := if slen candidate <? keep then candidate else of_bytes (take (Z.to_nat keep) (as_bytes candidate)) in
    prefix +:+ "_" +:+ hex8 (Z.land digest 4294967295).

Record RawMcpTool := mkRawTool { raw_tool_name : string; raw_description : string; raw_schema : bytes }.

Record ImportedTool := mkImported { it_spec : ToolSpec; it_digest : Z; it_server : string; it_raw_name : string }.

Definition list_error (f : McpFailure) : McpError := McpError_new StListTools f.

(** The skip over a string of [split_array_objects] and [collect_text_parts]: what follows
    its closing quote. *)
Fixpoint after_string (l : bytes) : bytes :=
  match l with
  | [] => []
  | b :: t =>
      if is_byte BACKSLASH b then match t with [] => [] | _ :: t => after_string t end
      else if is_byte QUOTE b then t
      else after_string t
  end.

Fixpoint split_array_objects (fuel : nat) (l : bytes) : run (result (list string) McpError) :=
  match fuel with
  | O => OutOfFuel
  | S fuel =>
      match l with
      | [] => Returned (Ok [])
      | b :: t =>
          if byte_eqb 123 b then
            match balanced_end (byte 123) (byte 125) l with
            | None => Returned (Err (list_error (HandshakeRejected "tools/list array is unbalanced")))
            | Some (object, rest) =>
                let! r := split_array_objects fuel rest in
                Returned (match r with Ok objects => Ok (of_bytes object :: objects) | Err e => Err e end)
            end
          else if is_byte QUOTE b then split_array_objects fuel (after_string t)
          else split_array_objects fuel t
      end
  end.

(** The entries of a page; those without a name are skipped. *)
Fixpoint raw_entries (objects : list string) : run (list RawMcpTool) :=
  match objects with
  | [] => Returned []
  | object :: objects =>
      let! name := find_string_field object "name" in
      match name with
      | None => raw_entries objects
      | Some name =>
          if is_empty name then raw_entries objects
          else
            let! description := find_string_field object "description" in
            let schema := match find_object_field object "inputSchema" with Some s => as_bytes s | None => [] end in
            let! entries := raw_entries objects in
            Returned (mkRawTool name (unwrap_or "" description) schema :: entries)
      end
  end.

Definition parse_tools_page (line : string) : run (result (list RawMcpTool * option string) McpError) :=
  match find_object_field line "error" with
  | Some error =>
      let code := unwrap_or "?" (find_raw_field error "code") in
      Returned (Err (list_error (HandshakeRejected (bound_error_text ("tools/list answered error " +:+ code) MAX_ERROR_TEXT_BYTES))))
  | None =>
      match find_object_field line "result" with
      | None => Returned (Err (list_error (HandshakeRejected "tools/list answer carries no result")))
      | Some res =>
          let! entries :=
            match find_raw_field res "tools" with
            | None => Returned (Ok [])
            | Some array =>
                if negb (String.prefix "[" (of_bytes (trim_start (as_bytes array)))) then
                  Returned (Err (list_error (HandshakeRejected "tools/list result.tools is not an array")))
                else
                  let! objects := split_array_objects (S (String.length array)) (as_bytes array) in
                  match objects with
                  | Err e => Returned (Err e)
                  | Ok objects => let! entries := raw_entries objects in Returned (Ok entries)
                  end
            end in
          match entries with
          | Err e => Returned (Err e)
          | Ok entries =>
              let! cursor := find_string_field res "nextCursor" in
              Returned (Ok (entries, match cursor with Some c => if is_empty c then None else Some c | None => None end))
          end
      end
  end.

(** [truncate_utf8] of [tools.rs] and [truncate_to] of [call.rs]. *)
Definition truncate_to (value : string) (max_bytes : Z) : string :=
  if slen value <=? max_bytes then value
  else of_bytes (take (back_to_boundary (as_bytes value) (Z.to_nat max_bytes)) (as_bytes value)).

Definition import_tool (server_id : string) (raw : RawMcpTool) : result ImportedTool McpError :=
  let rejected text := list_error (HandshakeRejected (bound_error_text text MAX_ERROR_TEXT_BYTES)) in
  ensure! negb (len raw.(raw_schema) >? MAX_TOOL_SCHEMA_BYTES)
  else rejected ("tool " +:+ quoted raw.(raw_tool_name) +:+ " schema exceeds 16384 bytes") in
  match ToolSpec_new (sanitize_mcp_name server_id raw.(raw_tool_name))
          (truncate_to raw.(raw_description) MAX_TOOL_DESCRIPTION_LEN) raw.(raw_schema)
          ("mcp." +:+ server_id) true Mcp None with
  | Err error => Err (rejected ("tool " +:+ quoted raw.(raw_tool_name) +:+ " rejected: " +:+ ToolError_to_string error))
  | Ok spec => Ok (mkImported spec (schema_digest spec) server_id raw.(raw_tool_name))
  end.

Definition list_request (id : Z) (cursor : option string) : string :=
  J "{'jsonrpc':'2.0','id':" +:+ show id +:+ J ",'method':'tools/list','params':{" +:+
  match cursor with Some token => J "'cursor':'" +:+ escaped token +:+ J "'" | None => "" end +:+ "}}".

(** The loop over the pages: [cursor] is the one to ask for, [used] those already spent. *)
Fixpoint page_loop (pages : nat) (t : Transport) (next_id : Z) (cwd : string) (deadline bound : Z) (surfaced : list string)
    (cursor : option string) (used : list string) (raws : list RawMcpTool) :
    run (Transport * Z * list string * result (list RawMcpTool) McpError) :=
  match pages with
  | O =>
      Returned (t, next_id, surfaced,
        match cursor with Some _ => Err (list_error (TooManyPages (Z.of_nat MAX_TOOL_PAGES))) | None => Ok raws end)
  | S pages =>
      let id := next_id in
      let next_id := wrapping_add64 next_id 1 in
      let '(t, r) := send_line t (list_request id cursor) in
      match r with
      | Err e => Returned (t, next_id, surfaced, Err e)
      | Ok _ =>
          let used := match cursor with Some spent => used ++ [spent] | None => used end in
          let! (t, surfaced, answer) := wait_for_response t id cwd deadline bound surfaced in
          match answer with
          | Err e => Returned (t, next_id, surfaced, Err (list_error e.(failure)))
          | Ok answer =>
              let! page := parse_tools_page answer in
              match page with
              | Err e => Returned (t, next_id, surfaced, Err e)
              | Ok (entries, None) => Returned (t, next_id, surfaced, Ok (raws ++ entries))
              | Ok (entries, Some token) =>
                  if existsb (str_eqb token) used then
                    Returned (t, next_id, surfaced, Err (list_error (DuplicateCursor (bound_error_name token))))
                  else page_loop pages t next_id cwd deadline bound surfaced (Some token) used (raws ++ entries)
              end
          end
      end
  end.

Fixpoint import_allowlisted (server_id : string) (allowlist : list string) (raws : list RawMcpTool) (imported : list ImportedTool) :
    result (list ImportedTool) McpError :=
  match allowlist with
  | [] => Ok imported
  | wanted :: allowlist =>
      match List.find (λ e, str_eqb e.(raw_tool_name) wanted) raws with
      | None => Err (list_error (McpUnknownTool (bound_error_name wanted)))
      | Some raw =>
          try! tool := import_tool server_id raw in
          if existsb (λ kept, str_eqb kept.(it_spec).(spec_name) tool.(it_spec).(spec_name)) imported then
            Err (list_error (McpDuplicateTool (bound_error_name tool.(it_spec).(spec_name))))
          else import_allowlisted server_id allowlist raws (imported ++ [tool])
      end
  end.

(** [u64::clamp(1, MAX_TIMEOUT_MS)] *)
Definition clamp_timeout (timeout_ms : Z) : Z := Z.min (Z.max timeout_ms 1) MAX_TIMEOUT_MS.

Definition list_tools (t : Transport) (server_id cwd : string) (allowlist : list string) (next_id timeout_ms : Z)
    (surfaced : list string) : run (Transport * Z * list string * result (list ImportedTool) McpError) :=
  let bound := clamp_timeout timeout_ms in
  let deadline := t.(clock) + bound in
  let! (t, next_id, surfaced, raws) := page_loop MAX_TOOL_PAGES t next_id cwd deadline bound surfaced None [] [] in
  Returned (t, next_id, surfaced, try! raws := raws in import_allowlisted server_id allowlist raws []).

(** ** Classifiers and snapshots *)

Definition is_notification (method line : string) : run bool :=
  match find_raw_field line "id" with
  | Some _ => Returned false
  | None => let! m := find_string_field line "method" in Returned (bool_decide (m = Some method))
  end.

Definition is_tools_list_changed_notification : string → run bool := is_notification "notifications/tools/list_changed".
Definition is_resources_list_changed_notification : string → run bool :=
  is_notification "notifications/resources/list_changed".
Definition is_prompts_list_changed_notification : string → run bool := is_notification "notifications/prompts/list_changed".

(** [ToolListSnapshot::from_imported] *)
Definition snapshot_of (tools : list ImportedTool) : list (string * Z) :=
  sort_by_key fst (map (λ e, (e.(it_spec).(spec_name), e.(it_digest))) tools).

(** [ToolListSnapshot::digest_of] *)
Definition digest_of (entries : list (string * Z)) (name : string) : option Z :=
  snd <$> List.find (λ e, str_eqb e.1 name) entries.

Record ToolListDiff := mkToolDiff { added : list string; removed : list string; changed : list string }.

Definition diff_tool_snapshots (old new : list (string * Z)) : ToolListDiff :=
  mkToolDiff
    (sort_by_key id (map fst (List.filter (λ e, bool_decide (digest_of old e.1 = None)) new)))
    (sort_by_key id (map fst (List.filter (λ e, bool_decide (digest_of new e.1 = None)) old)))
    (sort_by_key id (map fst (List.filter
       (λ e, match digest_of new e.1 with Some d => negb (d =? e.2) | None => false end) old))).

(** ** Calls *)

Definition MAX_CALL_ARGUMENTS_BYTES : Z := 16 * 1024.
Definition MAX_CALL_RESULT_BYTES : Z := 16 * 1024.
Definition MAX_CALL_SUMMARY_BYTES : Z := 4 * 1024.

Inductive McpCallError :=
| CallTransport (e : McpError)
| CallArgumentsTooLarge (limit actual : Z)
| CallResultRejected (limit actual : Z)
| CallFailed (tool reason : string)
| CallProtocolRejected (tool : string) (code : Z) (message : string)
| CallUnknown (tool reason : string).

(** An [i32] in decimal. *)
Definition show_int (n : Z) : string := if n <? 0 then "-" +:+ show (- n) else show n.

Definition call_request (id : Z) (raw_tool : string) (arguments : bytes) : string :=
  let args_text := match arguments with [] => "{}" | _ => from_utf8_lossy arguments end in
  J "{'jsonrpc':'2.0','id':" +:+ show id +:+ J ",'method':'tools/call','params':{'name':'" +:+ escaped raw_tool
  +:+ J "','arguments':" +:+ args_text +:+ "}}".

(** [str::find] of a pattern: what follows its first occurrence. *)
Fixpoint after_pattern (pat l : bytes) : option bytes :=
  match strip_bytes pat l with
  | Some rest => Some rest
  | None => match l with [] => None | _ :: t => after_pattern pat t end
  end.

(** The loop of [collect_text_parts]: the retained text and the length of all parts. *)
Fixpoint collect_loop (fuel : nat) (rest text : bytes) (length_so_far : Z) : run (bytes * Z) :=
  match fuel with
  | O => OutOfFuel
  | S fuel =>
      match after_pattern (QUOTE :: as_bytes "text" ++ [QUOTE]) rest with
      | None => Returned (text, length_so_far)
      | Some after_key =>
          match after_pattern [byte 58] after_key with
          | None => Returned (text, length_so_far)
          | Some after_colon =>
              match trim_start after_colon with
              | [] => Panicked
              | b :: t =>
                  if negb (is_byte QUOTE b) then if at_boundary t then collect_loop fuel t text length_so_far else Panicked
                  else
                    let! part := find_string_field (J "{'text':" +:+ of_bytes (b :: t)) "text" in
                    let part := as_bytes (unwrap_or "" part) in
                    let length_so_far := length_so_far + len part in
                    let text := if length_so_far <=? MAX_CALL_RESULT_BYTES + 1 then text ++ part else text in
                    if length_so_far >? MAX_CALL_RESULT_BYTES + 1 then Returned (text, length_so_far)
                    else collect_loop fuel (after_string t) text length_so_far
              end
          end
      end
  end.

Definition collect_text_parts (res : string) : run (bytes * Z) :=
  match find_raw_field res "content" with
  | None => Returned ([], 0)
  | Some array => collect_loop (S (String.length array)) (as_bytes array) [] 0
  end.

(** [str::parse::<i32>] *)
Definition parse_i32 (s : string) : option Z :=
  let digits l := match l with [] => None | _ => parse_digits 0 l end in
  let in_i32 n := if (- 2 ^ 31 <=? n) && (n <? 2 ^ 31) then Some n else None in
  match as_bytes s with
  | [] => None
  | b :: t =>
      if byte_eqb 45 b then match digits t with Some n => in_i32 (- n) | None => None end
      else match digits (if byte_eqb 43 b then t else b :: t) with Some n => in_i32 n | None => None end
  end.

Definition parse_call_result (line tool : string) : run (result (bytes * Z) McpCallError) :=
  match find_object_field line "error" with
  | Some error =>
      let code_raw := unwrap_or "?" (find_raw_field error "code") in
      let! message := find_string_field error "message" in
      let message := unwrap_or "" message in
      let failed := CallFailed tool (bound_error_text ("server error " +:+ code_raw +:+ ": " +:+ message) MAX_ERROR_TEXT_BYTES) in
      Returned (Err
        match parse_i32 (trim code_raw) with
        | Some code =>
            if (-32602 <=? code) && (code <=? -32600)
            then CallProtocolRejected tool code (bound_error_text message MAX_ERROR_TEXT_BYTES)
            else failed
        | None => failed
        end)
  | None =>
      match find_object_field line "result" with
      | None => Returned (Err (CallFailed tool "call answer carries no result"))
      | Some res =>
          let! (text, length_seen) := collect_text_parts res in
          if bool_decide (find_bool_field res "isError" = Some true) then
            let reason := match text with [] => "tool reported error" | _ => of_bytes text end in
            Returned (Err (CallFailed tool (bound_error_text reason MAX_ERROR_TEXT_BYTES)))
          else if negb (bool_decide (text = [])) || (length_seen >? 0) then Returned (Ok (text, length_seen))
          else
            Returned (Ok match find_raw_field res "structuredContent" with
                         | Some structured => (as_bytes structured, slen structured)
                         | None => ([], 0)
                         end)
      end
  end.

(** The end of [call_tool], once an answer has been read. *)
Definition settle_call (tool : string) (parsed : result (bytes * Z) McpCallError) : result ToolSuccess McpCallError :=
  match parsed with
  | Err (CallTransport inner) =>
      Err (CallUnknown tool (bound_error_text ("transport closed mid-call: " +:+ McpError_to_string inner) MAX_ERROR_TEXT_BYTES))
  | Err other => Err other
  | Ok (text, observed) =>
      if observed >? MAX_CALL_RESULT_BYTES then Err (CallResultRejected MAX_CALL_RESULT_BYTES observed)
      else
        match ToolSuccess_new (truncate_to (of_bytes text) MAX_CALL_SUMMARY_BYTES) text with
        | Ok success => Ok success
        | Err (SummaryTooLarge _ _ | ResultTooLarge _ _) => Err (CallResultRejected MAX_CALL_RESULT_BYTES observed)
        | Err error =>
            Err (CallFailed tool (bound_error_text ("result rejected: " +:+ ToolError_to_string error) MAX_ERROR_TEXT_BYTES))
        end
  end.

(** No answer, or none that was read. *)
Definition unknown_reason (bound : Z) (error : McpError) : string :=
  bound_error_text
    match error.(failure) with
    | McpTimeout _ => "no answer within " +:+ show bound +:+ "ms"
    | _ => "transport closed mid-call: " +:+ McpError_to_string error
    end MAX_ERROR_TEXT_BYTES.

Definition call_tool (t : Transport) (id : Z) (raw_tool tool : string) (arguments : bytes) (cwd : string) (timeout_ms : Z)
    (surfaced : list string) : run (Transport * list string * result ToolSuccess McpCallError) :=
  if len arguments >? MAX_CALL_ARGUMENTS_BYTES then
    Returned (t, surfaced, Err (CallArgumentsTooLarge MAX_CALL_ARGUMENTS_BYTES (len arguments)))
  else
    let bound := clamp_timeout timeout_ms in
    let deadline := t.(clock) + bound in
    let '(t, r) := send_line t (call_request id raw_tool arguments) in
    match r with
    | Err e => Returned (t, surfaced, Err (CallTransport e))
    | Ok _ =>
        let! (t, surfaced, answer) := wait_for_response t id cwd deadline bound surfaced in
        match answer with
        | Err error => Returned (t, surfaced, Err (CallUnknown tool (unknown_reason bound error)))
        | Ok answer =>
            let! parsed := parse_call_result answer tool in
            Returned (t, surfaced, settle_call tool parsed)
        end
    end.

(** [call_stage] *)
Definition call_stage (e : McpCallError) : McpError :=
  match e with
  | CallTransport inner => inner
  | CallArgumentsTooLarge limit actual => McpError_new StCallTool (McpArgumentsTooLarge limit actual)
  | CallResultRejected limit actual => McpError_new StCallTool (McpResultTooLarge limit actual)
  | CallFailed tool reason => McpError_new StCallTool (ToolFailed tool reason)
  | CallProtocolRejected tool code message =>
      McpError_new StCallTool (ToolFailed tool
        (bound_error_text ("protocol rejected (code " +:+ show_int code +:+ "): " +:+ message) MAX_ERROR_TEXT_BYTES))
  | CallUnknown tool reason => McpError_new StCallTool (McpEffectUnknown tool reason)
  end.
