(* ===== verification/McpAdapter.v ===== *)
(** * McpAdapter: the tool executor over MCP tools

    Models [bridge.rs] of [crates/bitty-ai-mcp]: the adapter that owns a transport, the
    imported tools and the policy hooks, its gates, the staleness of its tool list, and the
    explicit re-list with the protocol pin.  The authorizer and the ledger are functions:
    they answer and keep no state of their own. *)

From S2P Require Import Prelude Text Order Session Stream ToolTypes Consent ToolBus McpTypes McpJson McpClient.

Local Open Scope Z_scope.
Local Open Scope rust_scope.

Record McpAdapterParams := mkParams {
  mp_protocol_id : string;
  mp_base : AuthBase;
  mp_cwd : string;
  mp_timeout_ms : Z
}.

Record McpToolAdapter := mkAdapter {
  ad_server_id : string;
  ad_tools : list ImportedTool;
  ad_transport : Transport;
  ad_authorizer : AuthContext → AuthDecision;
  ad_consent : ConsentQuery → ConsentDecision;
  ad_params : McpAdapterParams;
  ad_next_id : Z;
  list_version : Z;
  list_stale : bool;
  protocol_pin : option InitializeResult
}.

Definition with_transport (a : McpToolAdapter) (t : Transport) (next_id : Z) : McpToolAdapter :=
  mkAdapter a.(ad_server_id) a.(ad_tools) t a.(ad_authorizer) a.(ad_consent) a.(ad_params) next_id
    a.(list_version) a.(list_stale) a.(protocol_pin).

Definition with_list (a : McpToolAdapter) (tools : list ImportedTool) (version : Z) (stale : bool) : McpToolAdapter :=
  mkAdapter a.(ad_server_id) tools a.(ad_transport) a.(ad_authorizer) a.(ad_consent) a.(ad_params) a.(ad_next_id)
    version stale a.(protocol_pin).

Definition bridge_error (f : McpFailure) : McpError := McpError_new StBridge f.

Definition bridge_config (reason : string) : McpError :=
  bridge_error (InvalidConfig (bound_error_text reason MAX_ERROR_TEXT_BYTES)).

(** [McpToolAdapter::new] *)
Definition adapter_new (server_id : string) (tools : list ImportedTool) (t : Transport)
    (authorizer : AuthContext → AuthDecision) (consent : ConsentQuery → ConsentDecision) (params : McpAdapterParams) :
    result McpToolAdapter McpError :=
  ensure! is_ok (validate_protocol_id params.(mp_protocol_id)) else bridge_config "protocol id must be owner.name" in
  ensure! negb ((params.(mp_timeout_ms) =? 0) || (params.(mp_timeout_ms) >? MAX_TIMEOUT_MS))
  else bridge_config "timeout_ms must be within 1..=30000" in
  ensure! match tools with [] => false | _ => true end else bridge_config "adapter imports no allowlisted tools" in
  Ok (mkAdapter server_id tools t authorizer consent params 2 0 false None).

(** [McpToolAdapter::set_pinned] *)
Definition set_pinned (a : McpToolAdapter) (pinned : InitializeResult) : McpToolAdapter :=
  mkAdapter a.(ad_server_id) a.(ad_tools) a.(ad_transport) a.(ad_authorizer) a.(ad_consent) a.(ad_params) a.(ad_next_id)
    a.(list_version) a.(list_stale) (Some pinned).

(** [McpToolAdapter::new_with_pin] *)
Definition new_with_pin (server_id : string) (tools : list ImportedTool) (t : Transport)
    (authorizer : AuthContext → AuthDecision) (consent : ConsentQuery → ConsentDecision) (params : McpAdapterParams)
    (pinned : InitializeResult) : result McpToolAdapter McpError :=
  try! a := adapter_new server_id tools t authorizer consent params in Ok (set_pinned a pinned).

(** [McpToolAdapter::snapshot] *)
Definition adapter_snapshot (a : McpToolAdapter) : list (string * Z) := snapshot_of a.(ad_tools).

Definition mark_stale (a : McpToolAdapter) : McpToolAdapter :=
  with_list a a.(ad_tools) (saturating_add64 a.(list_version) 1) true.

Definition verify_pin (a : McpToolAdapter) (fresh : InitializeResult) : McpToolAdapter * result unit McpError :=
  match a.(protocol_pin) with
  | None => (a, Ok tt)
  | Some pinned =>
      if matches_pin pinned fresh then (a, Ok tt)
      else (if a.(list_stale) then a else mark_stale a,
            Err (bridge_error (CapabilityDrift (bound_error_text "protocol pin mismatch" MAX_ERROR_TEXT_BYTES))))
  end.

Definition observe_notification (a : McpToolAdapter) (line : string) : run (McpToolAdapter * bool) :=
  let! is_changed := is_tools_list_changed_notification line in
  Returned (if is_changed : bool then (mark_stale a, true) else (a, false)).

(** [for line in &surfaced { self.observe_notification(line); }] *)
Fixpoint observe_all (a : McpToolAdapter) (surfaced : list string) : run McpToolAdapter :=
  match surfaced with
  | [] => Returned a
  | line :: surfaced => let! (a, _) := observe_notification a line in observe_all a surfaced
  end.

Definition revalidate_protocol_pin (a : McpToolAdapter) (surfaced : list string) :
    run (McpToolAdapter * list string * result InitializeResult McpError) :=
  let timeout := clamp_timeout a.(ad_params).(mp_timeout_ms) in
  let pin_id := Z.max a.(ad_next_id) 2 in
  let next_id := Z.max (wrapping_add64 pin_id 1) 2 in
  let cwd := a.(ad_params).(mp_cwd) in
  let '(t, r) := send_line a.(ad_transport) (initialize_request pin_id) in
  match r with
  | Err e => Returned (with_transport a t next_id, surfaced, Err e)
  | Ok _ =>
      let deadline := t.(clock) + timeout in
      let! (t, pin_surfaced, answer) := wait_for_response t pin_id cwd deadline timeout [] in
      let a := with_transport a t next_id in
      let surfaced := surfaced ++ pin_surfaced in
      match answer with
      | Err error => Returned (a, surfaced, Err (bridge_error error.(failure)))
      | Ok answer =>
          let! parsed := parse_initialize_result answer in
          Returned (a, surfaced, map_err (λ error, bridge_error error.(failure)) parsed)
      end
  end.

(** The pin step of [relist]: only for pinned adapters. *)
Definition check_pin (a : McpToolAdapter) (surfaced : list string) : run (McpToolAdapter * list string * result unit McpError) :=
  match a.(protocol_pin) with
  | None => Returned (a, surfaced, Ok tt)
  | Some _ =>
      let! (a, surfaced, fresh_pin) := revalidate_protocol_pin a surfaced in
      match fresh_pin with
      | Err error =>
          let! a := observe_all a surfaced in
          Returned (if a.(list_stale) then a else mark_stale a, surfaced, Err error)
      | Ok fresh_pin =>
          let '(a, verdict) := verify_pin a fresh_pin in
          match verdict with
          | Err e => let! a := observe_all a surfaced in Returned (a, surfaced, Err e)
          | Ok _ => Returned (a, surfaced, Ok tt)
          end
      end
  end.

Definition relist (a : McpToolAdapter) (allowlist : list string) : run (McpToolAdapter * result ToolListDiff McpError) :=
  let before := adapter_snapshot a in
  let! (t, next_id, surfaced, fresh) :=
    list_tools a.(ad_transport) a.(ad_server_id) a.(ad_params).(mp_cwd) allowlist (Z.max a.(ad_next_id) 2)
      a.(ad_params).(mp_timeout_ms) [] in
  let a := with_transport a t next_id in
  match fresh with
  | Err error => let! a := observe_all a surfaced in Returned (a, Err error)
  | Ok fresh =>
      let! (a, surfaced, verdict) := check_pin a surfaced in
      match verdict with
      | Err error => Returned (a, Err error)
      | Ok _ =>
          let a := with_transport a a.(ad_transport) (Z.max a.(ad_next_id) 2) in
          let diff := diff_tool_snapshots before (snapshot_of fresh) in
          let a := with_list a fresh (saturating_add64 a.(list_version) 1) false in
          let! a := observe_all a surfaced in
          Returned (a, Ok diff)
      end
  end.

Definition lookup_import (a : McpToolAdapter) (tool : string) : option ImportedTool :=
  List.find (λ entry, str_eqb entry.(it_spec).(spec_name) tool) a.(ad_tools).

Definition deny (tool reason : string) : ToolError := ToolError_normalized (ErrDenied tool reason).
Definition failed (tool reason : string) : ToolError := ToolError_normalized (ErrFailed tool reason).
Definition protocol_rejected (tool : string) (code : Z) (message : string) : ToolError :=
  ToolError_normalized (ErrProtocolRejected tool
    ("protocol rejected before execution (code " +:+ show_int code +:+ "): " +:+ message)).

(** The gates before any contact: the tool that may be called, or the refusal. *)
Definition gate (a : McpToolAdapter) (tool : string) (now_ms : Z) (allowed : option (list string)) :
    result ImportedTool ToolError :=
  ensure! negb a.(list_stale) else deny tool "tool list stale; re-list required" in
  ensure! negb (narrowing_omits allowed tool) else deny tool ("tool " +:+ quoted tool +:+ " omitted by per-call narrowing") in
  match lookup_import a tool with
  | None => Err (deny tool ("tool " +:+ quoted tool +:+ " is not an allowlisted import of " +:+ quoted a.(ad_server_id)))
  | Some entry =>
      let scope := entry.(it_spec).(required_scope) in
      let ro := entry.(it_spec).(read_only) in
      let base := a.(ad_params).(mp_base) in
      ensure! negb (bool_decide (base.(base_level) = Inspect) && negb ro)
      else deny tool "inspect tier is read-only; elevation required" in
      match a.(ad_authorizer) (mkAuthContext base tool scope ro) with
      | AuthDeny reason => Err (deny tool ("authorizer denied: " +:+ reason))
      | AuthAllow =>
          try! _ := ensure_consented_for_dispatch a.(ad_consent)
                      (mkConsentQuery a.(ad_params).(mp_protocol_id) base.(base_agent_instance_id) tool scope now_ms) in
          Ok entry
      end
  end.

(** The seam mapping of a call's outcome. *)
Definition map_outcome (tool : string) (outcome : result ToolSuccess McpCallError) : result ToolSuccess ToolError :=
  match outcome with
  | Ok success => Ok success
  | Err (CallTransport _) => Err (ErrEffectUnknown tool "transport failed mid-call; reconcile before retry")
  | Err (CallArgumentsTooLarge limit actual) => Err (ArgumentsTooLarge limit actual)
  | Err (CallResultRejected limit actual) => Err (ResultTooLarge limit actual)
  | Err (CallFailed _ reason) => Err (failed tool ("tool reported failure: " +:+ reason))
  | Err (CallProtocolRejected _ code message) => Err (protocol_rejected tool code message)
  | Err (CallUnknown _ reason) => Err (ErrEffectUnknown tool reason)
  end.

(** [McpToolAdapter::execute_inner], and with it [execute_narrowed]; [execute] passes no
    allow-set. *)
Definition execute_inner (a : McpToolAdapter) (tool : string) (arguments : bytes) (now_ms : Z)
    (allowed : option (list string)) : run (McpToolAdapter * result ToolSuccess ToolError) :=
  match gate a tool now_ms allowed with
  | Err refusal => Returned (a, Err refusal)
  | Ok entry =>
      let id := Z.max a.(ad_next_id) 2 in
      let next_id := Z.max (wrapping_add64 id 1) 2 in
      let! (t, surfaced, outcome) :=
        call_tool a.(ad_transport) id entry.(it_raw_name) tool arguments a.(ad_params).(mp_cwd) a.(ad_params).(mp_timeout_ms) [] in
      let! a := observe_all (with_transport a t next_id) surfaced in
      Returned (a, map_outcome tool outcome)
  end.

Definition execute_narrowed := execute_inner.
Definition execute (a : McpToolAdapter) (tool : string) (arguments : bytes) (now_ms : Z) :
    run (McpToolAdapter * result ToolSuccess ToolError) := execute_narrowed a tool arguments now_ms None.
