(* ===== verification/McpFacts.v ===== *)
(** * McpFacts: what the MCP client sends and accepts

    Every frame the client writes is one line (a call, when its arguments are), replies to
    the peer reflect nothing but its request id, waits end and keep only what arrived, and
    the parsers return on every frame that is not [hostile]. *)

From S2P Require Import Prelude Text Order Session Stream ToolTypes Consent McpTypes McpFrame McpJson McpClient.

Local Open Scope Z_scope.
Local Open Scope rust_scope.

(** ** Slices of a frame *)

Definition infix (r l : bytes) : Prop := ∃ a b, l = a ++ r ++ b.

Lemma infix_trans r k l : infix r k → infix k l → infix r l.
Proof. intros (a & b & ->) (c & d & ->). exists (c ++ a), (b ++ d). by rewrite <- !app_assoc. Qed.

Lemma escapes_ok_infix r l : infix r l → escapes_ok l = true → escapes_ok r = true.
Proof. intros (a & b & ->) H%escapes_ok_suffix. by eapply escapes_ok_prefix. Qed.

Lemma raw_string_prefix l : ∀ r, raw_string l = Some r → ∃ b, l = r ++ b.
Proof.
  induction l as [l IH] using (induction_ltof1 _ (@length _)). unfold ltof in IH. intros r.
  destruct l as [|b t]; [done|]. cbn [raw_string]. destruct (is_byte BACKSLASH b).
  - destruct t as [|c t]; [done|]. destruct (raw_string t) as [r'|] eqn:E; [|done]. intros [= <-].
    destruct (IH t ltac:(simpl; lia) r' E) as [k ->]. by exists k.
  - destruct (is_byte QUOTE b); [intros [= <-]; by exists (b :: t)|].
    destruct (raw_string t) as [r'|] eqn:E; [|done]. intros [= <-].
    destruct (IH t ltac:(simpl; lia) r' E) as [k ->]. by exists k.
Qed.

Lemma prepend_Some p o k rest : prepend p o = Some (k, rest) → ∃ k', o = Some (k', rest) ∧ k = p ++ k'.
Proof. destruct o as [[k' rest']|]; [|done]. intros [= <- <-]. by exists k'. Qed.

Lemma balanced_prefix op cl l : ∀ d s k rest, balanced op cl d s l = Some (k, rest) → l = k ++ rest ∧ k ≠ [].
Proof.
  induction l as [l IH] using (induction_ltof1 _ (@length _)). unfold ltof in IH. intros d s k rest.
  assert (∀ p t d s, (length t < length l)%nat → l = p ++ t → p ≠ [] →
    prepend p (balanced op cl d s t) = Some (k, rest) → l = k ++ rest ∧ k ≠ []) as Hp.
  { intros p t d' s' Hl -> Hne (k' & Hk & ->)%prepend_Some. destruct (IH t Hl _ _ _ _ Hk) as [-> _].
    rewrite <- app_assoc. split; [done|]. by destruct p. }
  destruct l as [|b t]; [done|]. cbn [balanced].
  destruct s; [destruct (is_byte BACKSLASH b); [destruct t as [|c t]; [done|apply Hp; [simpl; lia|done|done]]
                                               |apply Hp; [simpl; lia|done|done]]|].
  repeat (case_match; try (apply Hp; [simpl; lia|done|done])). by intros [= <- <-].
Qed.

Lemma balanced_end_prefix op cl l k rest : balanced_end op cl l = Some (k, rest) → l = k ++ rest ∧ k ≠ [].
Proof. unfold balanced_end. destruct l as [|b l]; [done|]. destruct (is_byte op b); [apply balanced_prefix|done]. Qed.

Lemma raw_token_prefix l : ∃ b, l = raw_token l ++ b.
Proof.
  induction l as [|b l [k IH]]; [by exists []|]. cbn [raw_token]. destruct (existsb _ _); [by exists (b :: l)|].
  exists k. simpl. by rewrite <- IH.
Qed.

Lemma trim_infix s : infix (as_bytes (trim s)) (as_bytes s).
Proof.
  unfold trim. rewrite as_bytes_of_bytes. destruct (trim_start_suffix (as_bytes s)) as [a Ha].
  destruct (trim_end_split (trim_start (as_bytes s))) as (w & Hw & _). exists a, w. by rewrite <- Hw.
Qed.

(** Every value the reader hands out is a slice of the frame. *)
Lemma find_raw_field_infix line key r : find_raw_field line key = Some r → infix (as_bytes r) (as_bytes line).
Proof.
  unfold find_raw_field, value_offset. destruct (value_search _ _) as [[|b t]|] eqn:E; [done| |done].
  apply value_search_suffix in E as [k ->]. assert (∀ x, (∃ y, b :: t = x ++ y) → infix x (k ++ b :: t)) as Hi.
  { intros x [y ->]. by exists k, y. }
  destruct (is_byte QUOTE b).
  { destruct (raw_string t) as [x|] eqn:E; [|done]. intros [= <-]. rewrite as_bytes_of_bytes.
    destruct (raw_string_prefix _ _ E) as [y ->]. exists (k ++ [b]), y. by rewrite <- app_assoc. }
  assert (∀ op cl, of_bytes ∘ fst <$> balanced_end op cl (b :: t) = Some r → infix (as_bytes r) (k ++ b :: t)) as Hb.
  { intros op cl. destruct (balanced_end op cl (b :: t)) as [[x y]|] eqn:E; [|done]. intros [= <-]. simpl. rewrite as_bytes_of_bytes.
    apply Hi. exists y. by apply balanced_end_prefix in E as [? _]. }
  destruct (byte_eqb 123 b); [apply Hb|]. destruct (byte_eqb 91 b); [apply Hb|]. cbv zeta.
  destruct (is_empty _); [done|]. intros [= <-]. eapply infix_trans; [apply trim_infix|]. rewrite as_bytes_of_bytes.
  apply Hi. apply raw_token_prefix.
Qed.

Lemma find_object_field_infix line key r : find_object_field line key = Some r → infix (as_bytes r) (as_bytes line).
Proof.
  unfold find_object_field. destruct (find_raw_field line key) as [x|] eqn:E; [|done]. destruct (String.prefix _ _); [|done].
  intros [= <-]. by eapply find_raw_field_infix.
Qed.

(** Frames whose escapes are whole, closed under the slices that are handed out. *)
Definition plain (line : string) : Prop := escapes_ok (as_bytes line) = true.

Lemma plain_infix r line : infix (as_bytes r) (as_bytes line) → plain line → plain r.
Proof. apply escapes_ok_infix. Qed.

#[export] Hint Resolve plain_infix find_object_field_infix find_raw_field_infix : runtime.

Lemma plain_field line key : plain line → ∃ r, find_string_field line key = Returned r.
Proof. apply find_string_field_total. Qed.

(** Rewrites the next field read of the goal to its result. *)
Ltac read_field :=
  match goal with
  | |- context [find_string_field ?l ?k] =>
      let H := fresh in assert (∃ r, find_string_field l k = Returned r) as [? H] by eauto using plain_field with runtime; rewrite H
  end.

Lemma parse_initialize_total line : plain line → ∃ r, parse_initialize_result line = Returned r.
Proof.
  intros Hl. unfold parse_initialize_result. destruct (find_object_field line "error") as [error|] eqn:E1; [read_field; by eexists|].
  destruct (find_object_field line "result") as [res|] eqn:E2; [|by eexists]. read_field.
  destruct x as [version|]; [|by eexists]. destruct (negb _); [by eexists|]. destruct (find_object_field res _); by eexists.
Qed.

Lemma after_string_suffix l : ∃ a, l = a ++ after_string l.
Proof.
  induction l as [l IH] using (induction_ltof1 _ (@length _)). unfold ltof in IH.
  destruct l as [|b t]; [by exists []|]. cbn [after_string]. destruct (is_byte BACKSLASH b).
  - destruct t as [|c t]; [by exists [b]|]. destruct (IH t ltac:(simpl; lia)) as [a Ha]. exists (b :: c :: a). simpl. by rewrite <- Ha.
  - destruct (is_byte QUOTE b); [by exists [b]|]. destruct (IH t ltac:(simpl; lia)) as [a Ha]. exists (b :: a). simpl. by rewrite <- Ha.
Qed.

Lemma length_after_string l : (length (after_string l) ≤ length l)%nat.
Proof. destruct (after_string_suffix l) as [a Ha]. rewrite Ha at 2. rewrite length_app. lia. Qed.

Lemma split_objects_total fuel : ∀ l, (length l < fuel)%nat →
  ∃ r, split_array_objects fuel l = Returned r ∧ ∀ objects, r = Ok objects → Forall (λ o, infix (as_bytes o) l) objects.
Proof.
  induction fuel as [|fuel IH]; intros l Hf; [lia|]. cbn [split_array_objects]. destruct l as [|b t].
  { eexists. split; [done|]. by intros ? [= <-]. }
  assert (∀ a k, b :: t = a ++ k → ∀ objects, Forall (λ o, infix (as_bytes o) k) objects → Forall (λ o, infix (as_bytes o) (b :: t)) objects) as Hi.
  { intros a k E objects Ho. eapply Forall_impl; [exact Ho|]. intros o (x & y & ->). exists (a ++ x), y. by rewrite E, <- app_assoc. }
  destruct (byte_eqb 123 b).
  - destruct (balanced_end _ _ (b :: t)) as [[x rest]|] eqn:E; [|by eexists].
    apply balanced_end_prefix in E as [E Hx]. assert (length rest < fuel)%nat as Hr.
    { apply (f_equal length) in E. rewrite length_app in E. destruct x; [done|]. simpl in *. lia. }
    destruct (IH rest Hr) as (r & -> & Ho). eexists. split; [done|]. destruct r as [objects|]; [|done]. intros ? [= <-].
    constructor; [exists [], rest; by rewrite as_bytes_of_bytes|]. eapply Hi; [exact E|]. by apply Ho.
  - destruct (is_byte QUOTE b).
    + destruct (IH (after_string t)) as (r & -> & Ho); [pose proof (length_after_string t); simpl in *; lia|]. eexists. split; [done|].
      intros objects ->. destruct (after_string_suffix t) as [a Ha]. eapply (Hi (b :: a)); [simpl; by rewrite <- Ha|]. by apply Ho.
    + destruct (IH t) as (r & -> & Ho); [simpl in *; lia|]. eexists. split; [done|]. intros objects ->. by eapply (Hi [b]); [|apply Ho].
Qed.

Lemma raw_entries_total objects : Forall plain objects → ∃ r, raw_entries objects = Returned r.
Proof.
  induction 1 as [|o objects Ho _ [r IH]]; [by eexists|]. cbn [raw_entries]. read_field.
  destruct x as [name|]; [|by eexists]. destruct (is_empty name); [by eexists|]. read_field. rewrite IH. by eexists.
Qed.

Lemma parse_tools_page_total line : plain line → ∃ r, parse_tools_page line = Returned r.
Proof.
  intros Hl. unfold parse_tools_page. destruct (find_object_field line "error") as [error|] eqn:E1; [by eexists|].
  destruct (find_object_field line "result") as [res|] eqn:E2; [|by eexists].
  assert (plain res) as Hres by eauto with runtime.
  destruct (plain_field res "nextCursor" Hres) as [c ->].
  destruct (find_raw_field res "tools") as [array|] eqn:E3; [|by eexists]. destruct (negb _); [by eexists|].
  destruct (split_objects_total (S (String.length array)) (as_bytes array)) as (r & -> & Ho); [rewrite as_bytes_length; lia|].
  destruct r as [objects|]; [|by eexists]. destruct (raw_entries_total objects) as [entries ->]; [|by eexists].
  eapply Forall_impl; [by apply Ho|]. intros o Hi. eapply plain_infix; [exact Hi|]. eauto with runtime.
Qed.

(** ** Results of calls *)

(** Every colon is followed, after white space, by a character of one byte. *)
Fixpoint colons_ok (l : bytes) : bool :=
  match l with
  | [] => true
  | b :: t =>
      (if byte_eqb 58 b then match trim_start t with [] => false | _ :: t' => at_boundary t' end else true) && colons_ok t
  end.

(** A frame on which the client panics: a broken escape, or content with a colon that is
    followed by nothing or by a character of several bytes. *)
Definition hostile (line : string) : bool :=
  negb (escapes_ok (as_bytes line))
  || match find_object_field line "result" with
     | Some res => match find_raw_field res "content" with Some array => negb (colons_ok (as_bytes array)) | None => false end
     | None => false
     end.

Lemma colons_ok_suffix k l : colons_ok (k ++ l) = true → colons_ok l = true.
Proof. induction k as [|b k IH]; [done|]. cbn [app colons_ok]. intros [_ H]%andb_true_iff. auto. Qed.

Lemma after_pattern_suffix pat l r : after_pattern pat l = Some r → ∃ a, l = a ++ pat ++ r.
Proof.
  induction l as [|b l IH]; cbn [after_pattern].
  - destruct (strip_bytes pat []) eqn:E; [|done]. intros [= <-]. apply strip_bytes_Some in E. by exists [].
  - destruct (strip_bytes pat (b :: l)) eqn:E; [intros [= <-]; apply strip_bytes_Some in E; by exists []|].
    intros H. destruct (IH H) as [a ->]. by exists (b :: a).
Qed.

Lemma escapes_ok_text v : escapes_ok v = true → plain (J "{'text':" +:+ of_bytes v).
Proof. intros H. unfold plain. rewrite as_bytes_app, as_bytes_of_bytes. exact H. Qed.

Lemma collect_loop_total fuel : ∀ rest text n, (length rest < fuel)%nat → escapes_ok rest = true → colons_ok rest = true →
  ∃ r, collect_loop fuel rest text n = Returned r.
Proof.
  induction fuel as [|fuel IH]; intros rest text n Hf He Hc; [lia|]. cbn [collect_loop].
  destruct (after_pattern _ rest) as [after_key|] eqn:E1; [|by eexists]. apply after_pattern_suffix in E1 as [a ->].
  destruct (after_pattern [byte 58] after_key) as [ac|] eqn:E2; [|by eexists]. apply after_pattern_suffix in E2 as [c ->].
  apply colons_ok_suffix, colons_ok_suffix, colons_ok_suffix in Hc. apply escapes_ok_suffix, escapes_ok_suffix, escapes_ok_suffix in He.
  cbn [app colons_ok] in Hc. apply andb_true_iff in Hc as [Hc1 Hc]. replace (byte_eqb 58 (byte 58)) with true in Hc1 by done.
  cbn [app escapes_ok] in He. apply andb_true_iff in He as [_ He]. destruct (trim_start_suffix ac) as [w Hw].
  destruct (trim_start ac) as [|b t]; [done|]. rewrite Hw in He, Hc. apply escapes_ok_suffix in He. apply colons_ok_suffix in Hc.
  assert (length t < fuel)%nat as Hlt. { rewrite Hw, !length_app in Hf. cbn [length] in Hf. rewrite length_app in Hf. simpl in Hf. lia. }
  destruct (negb (is_byte QUOTE b)).
  - rewrite Hc1. apply IH; [done| |]; [by apply (escapes_ok_suffix [b])|by apply (colons_ok_suffix [b])].
  - destruct (plain_field (J "{'text':" +:+ of_bytes (b :: t)) "text") as [part ->]; [by apply escapes_ok_text|].
    destruct (_ >? _); [by eexists|]. destruct (after_string_suffix t) as [x Hx]. apply IH.
    + pose proof (length_after_string t). lia.
    + apply (escapes_ok_suffix (b :: x)). simpl. by rewrite <- Hx.
    + apply (colons_ok_suffix (b :: x)). simpl. by rewrite <- Hx.
Qed.

Lemma parse_call_total line tool : hostile line = false → ∃ r, parse_call_result line tool = Returned r.
Proof.
  unfold hostile, parse_call_result. intros [Hl%negb_false_iff Hc]%orb_false_iff. fold (plain line) in Hl.
  destruct (find_object_field line "error") as [error|] eqn:E1; [read_field; by eexists|].
  destruct (find_object_field line "result") as [res|] eqn:E2; [|by eexists]. unfold collect_text_parts.
  destruct (find_raw_field res "content") as [array|] eqn:E3.
  - destruct (collect_loop_total (S (String.length array)) (as_bytes array) [] 0) as [[text n] ->].
    + rewrite as_bytes_length. lia.
    + assert (plain array) by eauto with runtime. done.
    + by apply negb_false_iff.
    + repeat case_if; by eexists.
  - repeat case_if; by eexists.
Qed.

Lemma collect_loop_fuel fuel : ∀ rest text n, (length rest < fuel)%nat → collect_loop fuel rest text n ≠ OutOfFuel.
Proof.
  induction fuel as [|fuel IH]; intros rest text n Hf; [lia|]. cbn [collect_loop].
  destruct (after_pattern _ rest) as [after_key|] eqn:E1; [|done]. apply after_pattern_suffix in E1 as [a ->].
  destruct (after_pattern [byte 58] after_key) as [ac|] eqn:E2; [|done]. apply after_pattern_suffix in E2 as [c ->].
  destruct (trim_start_suffix ac) as [w Hw]. destruct (trim_start ac) as [|b t]; [done|].
  assert (length t < fuel)%nat as Hlt. { rewrite Hw, !length_app in Hf. cbn [length] in Hf. rewrite length_app in Hf. simpl in Hf. lia. }
  destruct (negb (is_byte QUOTE b)); [destruct (at_boundary t); [by apply IH|done]|].
  pose proof (find_string_field_fuel (J "{'text':" +:+ of_bytes (b :: t)) "text"). destruct (find_string_field _ _); [|done|done].
  destruct (_ >? _); [done|]. apply IH. pose proof (length_after_string t). lia.
Qed.

Lemma parse_call_cases line tool :
  match parse_call_result line tool with Returned _ => True | Panicked => hostile line = true | OutOfFuel => False end.
Proof.
  destruct (parse_call_result line tool) eqn:E; [done| |].
  - destruct (hostile line) eqn:Eh; [done|]. destruct (parse_call_total line tool Eh). congruence.
  - unfold parse_call_result, collect_text_parts in E. destruct (find_object_field line "error") as [error|].
    { pose proof (find_string_field_fuel error "message"). by destruct (find_string_field error "message"). }
    destruct (find_object_field line "result") as [res|]; [|done]. destruct (find_raw_field res "content") as [array|].
    + pose proof (collect_loop_fuel (S (String.length array)) (as_bytes array) [] 0 ltac:(rewrite as_bytes_length; lia)).
      destruct (collect_loop _ _ _ _) as [[]| |]; [|done|done]. repeat case_if_in E; done.
    + repeat case_if_in E; done.
Qed.

(** ** Waiting *)

Definition delay (a : RecvAnswer) : Z := match a with RecvLine d _ | RecvNone d | RecvErr d _ => d end.

Definition line_of (a : RecvAnswer) : option string := match a with RecvLine _ l => Some l | _ => None end.

(** The lines a peer will deliver. *)
Definition lines_in (s : list RecvAnswer) : list string := omap line_of s.

(** Time does not run backwards. *)
Definition peer_ok (t : Transport) : Prop := Forall (λ a, 0 ≤ delay a) t.(script).

(** A frame the client sends on its own account while it waits: the answer to a request of
    the peer, built from the request's method and id and from the pinned directory. *)
Definition reply_to (cwd line reply : string) : Prop :=
  ∃ method id token, find_string_field line "method" = Returned (Some method) ∧ find_raw_field line "id" = Some id
    ∧ render_id_token id = Some token ∧ reply = answer_request method token cwd.

Lemma handle_server_request_reply line cwd reply : handle_server_request line cwd = Returned (Some reply) → reply_to cwd line reply.
Proof.
  unfold handle_server_request. destruct (find_string_field line "method") as [[method|]| |] eqn:Em; try done.
  destruct (find_raw_field line "id") as [id|] eqn:Ei; [|done]. destruct (render_id_token id) as [token|] eqn:Et; [|done].
  intros [= <-]. by exists method, id, token.
Qed.

(** What a wait does to the transport and to the notifications it was given. *)
Record waited (t : Transport) (surfaced : list string) (cwd : string) (t' : Transport) (surfaced' : list string) : Prop := {
  w_script : t'.(script) `suffix_of` t.(script);
  w_clock : t.(clock) ≤ t'.(clock);
  w_sent : ∃ replies, t'.(sent) = t.(sent) ++ replies ∧ Forall (λ r, ∃ line, line ∈ lines_in t.(script) ∧ reply_to cwd line r) replies;
  w_surfaced : ∃ notes, surfaced' = surfaced ++ notes ∧ Forall (λ n, n ∈ lines_in t.(script)) notes;
  w_bound : len surfaced' ≤ Z.max (len surfaced) MAX_SURFACED_FRAMES;
  w_faults : t'.(send_faults) `suffix_of` t.(send_faults)
}.

(** The end of a wait. *)
Definition wait_result (t : Transport) (want : string) (deadline budget_ms : Z) (t' : Transport) (r : result string McpError) : Prop :=
  match r with
  | Ok line => line ∈ lines_in t.(script) ∧ has_method line = Returned false ∧ response_id_matches line want = true
  | Err e => (e = timed_out budget_ms ∧ deadline ≤ t'.(clock)) ∨ (∃ d, RecvErr d e ∈ t.(script)) ∨ Some e ∈ t.(send_faults)
  end.

Lemma lines_in_suffix k l line : k `suffix_of` l → line ∈ lines_in k → line ∈ lines_in l.
Proof. intros [a ->] H. unfold lines_in. rewrite omap_app. set_solver. Qed.

Lemma suffix_elem {A} (k l : list A) x : k `suffix_of` l → x ∈ k → x ∈ l.
Proof. intros [a ->] H. set_solver. Qed.

Lemma waited_refl t surfaced cwd : waited t surfaced cwd t surfaced.
Proof.
  constructor; try done; try lia; exists []; by rewrite app_nil_r.
Qed.

Lemma waited_trans t s cwd t1 s1 t2 s2 : waited t s cwd t1 s1 → waited t1 s1 cwd t2 s2 → waited t s cwd t2 s2.
Proof.
  intros [A1 A2 (r1 & A3 & A3') (n1 & A4 & A4') A5 A6] [B1 B2 (r2 & B3 & B3') (n2 & B4 & B4') B5 B6]. constructor.
  - by etrans.
  - lia.
  - exists (r1 ++ r2). rewrite B3, A3, app_assoc. split; [done|]. apply Forall_app. split; [done|].
    eapply Forall_impl; [exact B3'|]. intros r (line & ? & ?). exists line. split; [by eapply lines_in_suffix|done].
  - exists (n1 ++ n2). rewrite B4, A4, app_assoc. split; [done|]. apply Forall_app. split; [done|].
    eapply Forall_impl; [exact B4'|]. intros n ?. by eapply lines_in_suffix.
  - lia.
  - by etrans.
Qed.

Lemma wait_result_later t want deadline budget t1 t' r s s1 cwd :
  waited t s cwd t1 s1 → wait_result t1 want deadline budget t' r → wait_result t want deadline budget t' r.
Proof.
  intros [A1 _ _ _ _ A6]. unfold wait_result. destruct r as [line|e].
  - intros (? & ? & ?). split_and!; try done. by eapply lines_in_suffix.
  - intros [?|[[d ?]|?]]; [by left| |]; right; [left; exists d; by eapply suffix_elem|right; by eapply suffix_elem].
Qed.

(** One receive. *)
Lemma recv_line_waited t timeout t1 answer s cwd : 0 ≤ timeout → peer_ok t → recv_line t timeout = (t1, answer) →
  waited t s cwd t1 s ∧ peer_ok t1 ∧ t1.(send_faults) = t.(send_faults)
  ∧ match t.(script) with
    | [] => t1.(script) = [] ∧ t1.(clock) = t.(clock) + timeout ∧ answer = Ok None
    | a :: rest => t1.(script) = rest ∧ answer = match a with RecvLine _ l => Ok (Some l) | RecvNone _ => Ok None | RecvErr _ e => Err e end
    end.
Proof.
  unfold recv_line, peer_ok. intros Ht Hp. destruct (script t) as [|a rest] eqn:E.
  - intros [= <- <-]. split_and!; try done. constructor; simpl; try done; try lia; rewrite ?E; try done; exists []; by rewrite app_nil_r.
  - apply Forall_cons in Hp as [Ha Hp].
    destruct a; simpl in Ha; intros [= <- <-]; (split_and!; [|done..]);
      (constructor; simpl; try done; try lia; rewrite ?E; [by eexists [_]|exists []; by rewrite app_nil_r..]).
Qed.

Lemma send_line_cases t line t1 r : send_line t line = (t1, r) →
  t1.(clock) = t.(clock) ∧ t1.(script) = t.(script) ∧ t1.(sent) = t.(sent) ++ [line] ∧ t1.(send_faults) `suffix_of` t.(send_faults)
  ∧ match r with Ok _ => True | Err e => Some e ∈ t.(send_faults) end.
Proof.
  unfold send_line. destruct (send_faults t) as [|[e|] faults] eqn:E; intros [= <- <-]; simpl; split_and!; try done.
  - by exists [Some e].
  - by left.
  - by exists [None].
Qed.

Lemma surface_bound s line : len (surface s line) ≤ Z.max (len s) MAX_SURFACED_FRAMES.
Proof. unfold surface. destruct (Z.ltb_spec (len s) MAX_SURFACED_FRAMES); len_lia. Qed.

Lemma surface_ext s line : ∃ notes, surface s line = s ++ notes ∧ ∀ n, n ∈ notes → n = line.
Proof.
  unfold surface. destruct (_ <? _); [exists [line]|exists []; rewrite app_nil_r]; (split; [done|]).
  - by intros n ->%list_elem_of_singleton.
  - by intros n ?%elem_of_nil.
Qed.

(** A delivered request or notification is answered or kept. *)
Lemma serve_waited t s cwd line reply t1 s1 fault : line ∈ lines_in t.(script) → (∀ x, reply = Some x → reply_to cwd line x) →
  ∀ t0, t0.(script) `suffix_of` t.(script) → t.(clock) ≤ t0.(clock) → t0.(sent) = t.(sent) → t0.(send_faults) = t.(send_faults) →
  match reply with
  | Some reply => let '(t, r) := send_line t0 reply in (t, s, match r with Ok _ => None | Err e => Some e end)
  | None => (t0, surface s line, None)
  end = (t1, s1, fault) →
  waited t s cwd t1 s1 ∧ t1.(script) = t0.(script) ∧ t1.(clock) = t0.(clock) ∧ ∀ e, fault = Some e → Some e ∈ t.(send_faults).
Proof.
  intros Hl Hr t0 H1 H2 H3 H4. destruct reply as [reply|].
  - destruct (send_line t0 reply) as [t' r] eqn:Es. destruct (send_line_cases _ _ _ _ Es) as (E1 & E2 & E3 & E4 & E5).
    rewrite H4 in E4, E5. intros [= <- <- <-]. split_and!; try done.
    + constructor; rewrite ?E1, ?E2, ?E3, ?H3; try done; [|exists []; by rewrite app_nil_r|lia].
      exists [reply]. split; [done|]. constructor; [|done]. exists line. auto.
    + destruct r; [done|]. by intros ? [= <-].
  - intros [= <- <- <-]. split_and!; try done. destruct (surface_ext s line) as (notes & En & Hn).
    constructor; rewrite ?H3, ?H4; try done; [exists []; by rewrite app_nil_r| |apply surface_bound].
    exists notes. split; [done|]. apply Forall_forall. intros n Hin. by rewrite (Hn _ Hin).
Qed.

Definition wait_post (t : Transport) (s : list string) (want cwd : string) (deadline budget_ms : Z)
    (r : run (Transport * list string * result string McpError)) : Prop :=
  match r with
  | OutOfFuel => False
  | Panicked => ∃ line, line ∈ lines_in t.(script) ∧ ¬ plain line
  | Returned (t', s', r) => waited t s cwd t' s' ∧ peer_ok t' ∧ wait_result t want deadline budget_ms t' r
  end.

Lemma wait_post_later t s t1 s1 want cwd deadline budget r :
  waited t s cwd t1 s1 → wait_post t1 s1 want cwd deadline budget r → wait_post t s want cwd deadline budget r.
Proof.
  intros Hw. destruct r as [[[t' s'] r]| |]; simpl; [|intros (line & ? & ?); exists line; split; [|done]; eapply lines_in_suffix; [apply Hw|done]|done].
  intros (? & ? & ?). split_and!; [by eapply waited_trans|done|by eapply wait_result_later].
Qed.

(** Every iteration uses up an answer or a whole wait. *)
Lemma wait_fuel_less t t1 t2 deadline answer : peer_ok t → recv_line t (remaining_ms t deadline) = (t1, answer) →
  t2.(script) = t1.(script) → t2.(clock) = t1.(clock) → t2.(clock) < deadline → (wait_fuel t2 deadline < wait_fuel t deadline)%nat.
Proof.
  intros Hp Hr E1 E2 Hd. unfold wait_fuel. rewrite E1. rewrite E2 in Hd |- *.
  assert (0 ≤ remaining_ms t deadline) as Hrem by (unfold remaining_ms, u32_max; destruct (_ >=? _) eqn:?; lia).
  destruct (recv_line_waited t _ t1 answer [] "" Hrem Hp Hr) as (Hw & _ & _ & Hs). pose proof (w_clock _ _ _ _ _ Hw) as Hc.
  destruct (script t) as [|a rest].
  - destruct Hs as (-> & Ec & _). assert (remaining_ms t deadline = u32_max) as Hu.
    { unfold remaining_ms in *. destruct (Z.geb_spec (clock t) deadline); lia. }
    rewrite Ec, Hu in *. replace (deadline - (clock t + u32_max)) with (deadline - clock t + (-1) * u32_max) by lia.
    rewrite Z.div_add by done. assert (1 ≤ (deadline - clock t) / u32_max); [|simpl; lia].
    apply Z.div_le_lower_bound; unfold u32_max in *; lia.
  - destruct Hs as (-> & _). simpl. assert ((deadline - clock t1) / u32_max ≤ (deadline - clock t) / u32_max); [|lia].
    apply Z.div_le_mono; [done|lia].
Qed.

Lemma has_method_plain line : plain line → ∃ b, has_method line = Returned b.
Proof. intros Hl. unfold has_method. read_field. by eexists. Qed.

Lemma handle_request_plain line cwd : plain line → ∃ r, handle_server_request line cwd = Returned r.
Proof. intros Hl. unfold handle_server_request. read_field. by eexists. Qed.

Lemma field_panics line key : find_string_field line key = Panicked → ¬ plain line.
Proof. intros H Hl. destruct (plain_field line key Hl). congruence. Qed.

Lemma has_method_cases line : match has_method line with Returned _ => True | Panicked => ¬ plain line | OutOfFuel => False end.
Proof.
  unfold has_method. pose proof (find_string_field_fuel line "method"). pose proof (field_panics line "method").
  destruct (find_string_field line "method"); auto.
Qed.

Lemma handle_request_cases line cwd :
  match handle_server_request line cwd with Returned _ => True | Panicked => ¬ plain line | OutOfFuel => False end.
Proof.
  unfold handle_server_request. pose proof (find_string_field_fuel line "method"). pose proof (field_panics line "method").
  destruct (find_string_field line "method"); auto.
Qed.

Lemma wait_loop_spec fuel : ∀ t want cwd deadline budget s, peer_ok t → (wait_fuel t deadline ≤ fuel)%nat →
  wait_post t s want cwd deadline budget (wait_loop fuel t want cwd deadline budget s).
Proof.
  induction fuel as [|fuel IH]; intros t want cwd deadline budget s Hp Hf; [unfold wait_fuel in Hf; lia|]. cbn [wait_loop].
  assert (0 ≤ remaining_ms t deadline) as Hrem by (unfold remaining_ms, u32_max; destruct (_ >=? _) eqn:?; lia).
  destruct (recv_line t (remaining_ms t deadline)) as [t1 answer] eqn:Er.
  destruct (recv_line_waited t _ t1 answer s cwd Hrem Hp Er) as (Hw & Hp1 & Hsf & Hs).
  assert (∀ t2 s2, waited t s cwd t2 s2 → peer_ok t2 → t2.(script) = t1.(script) → t2.(clock) = t1.(clock) →
    wait_post t s want cwd deadline budget
      (if t2.(clock) >=? deadline then Returned (t2, s2, Err (timed_out budget)) else wait_loop fuel t2 want cwd deadline budget s2)) as Hgo.
  { intros t2 s2 Hw2 Hp2 E1 E2. destruct (Z.geb_spec (clock t2) deadline); [split_and!; [done|done|by left]|].
    eapply wait_post_later; [exact Hw2|]. apply IH; [done|]. pose proof (wait_fuel_less t t1 t2 deadline answer Hp Er E1 E2). lia. }
  destruct answer as [[line|]|e]; [|by apply Hgo|].
  2: { split_and!; [done|done|]. right; left. destruct (script t) as [|[]]; destruct Hs as (? & Ha); simplify_eq; [destruct Ha; done|].
       eexists. by left. }
  assert (line ∈ lines_in (script t)) as Hl.
  { destruct (script t) as [|[]]; destruct Hs as (? & Ha); simplify_eq; [by destruct Ha|]. by left. }
  pose proof (has_method_cases line) as Hm. destruct (has_method line) as [is_method| |] eqn:Em; [|by exists line|done].
  destruct is_method.
  - pose proof (handle_request_cases line cwd) as Hh. destruct (handle_server_request line cwd) as [reply| |] eqn:Eh; [|by exists line|done].
    destruct (match reply with Some _ => _ | None => _ end) as [[t2 s2] fault] eqn:Ev.
    destruct (serve_waited t s cwd line reply t2 s2 fault Hl) with (t0 := t1) as (Hw2 & E1 & E2 & Hfault); try done.
    { intros x ->. by apply handle_server_request_reply. } { apply Hw. } { apply Hw. }
    { unfold recv_line in Er. destruct (script t) as [|[]]; by simplify_eq. }
    assert (peer_ok t2) by (unfold peer_ok in *; by rewrite E1).
    destruct fault as [e|]; [|by apply Hgo]. split_and!; [done|done|]. right; right. by apply Hfault.
  - destruct (response_id_matches line want) eqn:Ei; [split_and!; try done|by apply Hgo].
Qed.

Lemma wait_spec t want_id cwd deadline budget s : peer_ok t →
  wait_post t s (show want_id) cwd deadline budget (wait_for_response t want_id cwd deadline budget s).
Proof. intros Hp. by apply wait_loop_spec. Qed.

(** ** Frames the client writes *)

Definition single_line (s : string) : bool := forallb (negb ∘ is_lf) (as_bytes s).

Lemma single_line_app s t : single_line (s +:+ t) = single_line s && single_line t.
Proof. unfold single_line. by rewrite as_bytes_app, forallb_app. Qed.

Lemma single_line_bytes s : (∀ b, b ∈ as_bytes s → 32 ≤ byte_val b) → single_line s = true.
Proof.
  intros H. unfold single_line. apply forallb_forall. intros b Hb%list_elem_of_In. specialize (H b Hb).
  unfold compose, is_lf, byte_eqb. apply negb_true_iff, Z.eqb_neq. lia.
Qed.

Lemma single_line_printable s : printable s → single_line s = true.
Proof.
  intros Hp. apply single_line_bytes. intros b Hb. unfold printable, str_forall in Hp. rewrite forallb_forall in Hp.
  specialize (Hp b (proj1 (list_elem_of_In _ _) Hb)). unfold is_printable, is_ascii_graphic, in_range, byte_eqb in Hp.
  apply orb_true_iff in Hp as [Hp|Hp]; reflect_bools; lia.
Qed.

Lemma single_line_show n : is_u64 n → single_line (show n) = true.
Proof. intros Hn. by apply single_line_printable, show_spec. Qed.

Lemma single_line_escaped s : single_line (escaped s) = true.
Proof. apply single_line_bytes. intros b. unfold escaped. rewrite as_bytes_of_bytes. apply escape_into_printing. Qed.

Lemma single_line_token id token : render_id_token id = Some token → single_line token = true.
Proof.
  unfold render_id_token. destruct (is_empty id); [done|].
  assert (∀ f, (∀ b, f b = true → 32 ≤ byte_val b) → str_forall f id = true → single_line id = true) as Hf.
  { intros f Hb Hi. apply single_line_bytes. intros b Hin. unfold str_forall in Hi. rewrite forallb_forall in Hi. by apply Hb, Hi, list_elem_of_In. }
  destruct (str_forall is_ascii_digit id) eqn:E1.
  { intros [= <-]. eapply Hf; [|exact E1]. intros b. unfold is_ascii_digit, in_range. intros; reflect_bools; lia. }
  destruct (_ || _) eqn:E2.
  { intros [= <-]. apply orb_true_iff in E2 as [[E2%str_eqb_eq|E2%str_eqb_eq]%orb_true_iff|E2%str_eqb_eq]; by rewrite E2. }
  destruct (_ >? _); [done|]. destruct (str_forall is_id_byte id) eqn:E3; [|done]. intros [= <-]. rewrite !single_line_app, andb_true_r.
  eapply Hf; [|exact E3]. intros b Hb. unfold is_id_byte, is_alnum, is_ascii_lowercase, is_ascii_uppercase, is_ascii_digit, in_range, byte_eqb in Hb.
  repeat (apply orb_true_iff in Hb as [Hb|Hb]); reflect_bools; lia.
Qed.

Lemma reply_single_line cwd line reply : reply_to cwd line reply → single_line reply = true.
Proof.
  intros (method & id & token & _ & _ & Ht%single_line_token & ->). unfold answer_request, refusal_frame.
  repeat case_if; rewrite !single_line_app, Ht, ?single_line_escaped; by vm_compute.
Qed.

(** Lossy decoding neither adds nor removes a line break. *)
Lemma lossy_lf l : forallb (negb ∘ is_lf) (lossy l) = forallb (negb ∘ is_lf) l.
Proof.
  assert (∀ b, in_range 0 127 b = false → (negb ∘ is_lf) b = true) as Hb.
  { intros b Hb. unfold compose, is_lf, byte_eqb, in_range in *. pose proof (byte_val_bounds b). apply negb_true_iff, Z.eqb_neq. lia. }
  assert (∀ b, is_cont b = true → (negb ∘ is_lf) b = true) as Hc.
  { intros b Hc. unfold compose, is_lf, byte_eqb, is_cont, in_range in *. apply negb_true_iff, Z.eqb_neq. lia. }
  assert (∀ k, forallb (negb ∘ is_lf) (replacement ++ k) = forallb (negb ∘ is_lf) k) as Hr by done.
  induction l as [l IH] using (induction_ltof1 _ (@length _)). unfold ltof in IH.
  destruct l as [|b0 t0]; [done|]. cbn [lossy forallb]. destruct (in_range 0 127 b0) eqn:E0.
  { cbn [forallb]. by rewrite IH by (simpl; lia). }
  rewrite (Hb b0 E0). simpl andb.
  assert (∀ b1 b2, second_of_three b1 b2 = true → (negb ∘ is_lf) b2 = true) as H3 by eauto using second_of_three_cont.
  assert (∀ b1 b2, second_of_four b1 b2 = true → (negb ∘ is_lf) b2 = true) as H4 by eauto using second_of_four_cont.
  repeat (case_match; subst; cbn [forallb]; rewrite ?Hr);
    repeat match goal with
    | H : second_of_three _ _ = true |- _ => apply H3 in H
    | H : second_of_four _ _ = true |- _ => apply H4 in H
    | H : is_cont _ = true |- _ => apply Hc in H
    end;
    rewrite ?(Hb b0 E0), ?IH by (simpl; lia); cbn [forallb];
    repeat match goal with H : (negb ∘ is_lf) _ = true |- _ => rewrite H end; done.
Qed.

Lemma single_line_call id raw_tool args : is_u64 id → single_line (call_request id raw_tool args) = forallb (negb ∘ is_lf) args.
Proof.
  intros Hi. unfold call_request. rewrite !single_line_app, single_line_show, single_line_escaped by done.
  replace (single_line (J "{'jsonrpc':'2.0','id':")) with true by by vm_compute.
  replace (single_line (J ",'method':'tools/call','params':{'name':'")) with true by by vm_compute.
  replace (single_line (J "','arguments':")) with true by by vm_compute.
  replace (single_line "}}") with true by done. rewrite andb_true_r. simpl andb.
  destruct args as [|b args]; [done|]. unfold single_line, from_utf8_lossy. rewrite as_bytes_of_bytes. apply lossy_lf.
Qed.

(** C33: framing of what the client writes.  Requests, the notification and every reply to the
    peer are one line whatever the cursor, the tool name, the directory or the peer's
    request hold, so the peer reads them as exactly one frame; a call is one line exactly
    when its arguments hold no line break. *)
Theorem frames_single_line id cursor raw_tool args cwd line reply : is_u64 id → reply_to cwd line reply →
  (∀ frame, frame ∈ [initialize_request id; initialized_notification; list_request id cursor; reply] →
     raw_lines (as_bytes frame ++ [byte 10]) = [as_bytes frame ++ [byte 10]])
  ∧ (raw_lines (as_bytes (call_request id raw_tool args) ++ [byte 10]) = [as_bytes (call_request id raw_tool args) ++ [byte 10]]
     ↔ byte 10 ∉ args).
Proof.
  intros Hi Hr. assert (∀ f, single_line f = true → raw_lines (as_bytes f ++ [byte 10]) = [as_bytes f ++ [byte 10]]) as Hs.
  { intros f Hf. by apply (raw_lines_app_lf (as_bytes f) []). }
  split.
  - intros frame Hin. apply Hs. rewrite !elem_of_cons, elem_of_nil in Hin. destruct Hin as [->|[->|[->|[->|[]]]]]; [| | |by eapply reply_single_line].
    + unfold initialize_request. rewrite !single_line_app, single_line_show by done. by vm_compute.
    + by vm_compute.
    + unfold list_request. rewrite !single_line_app, single_line_show by done.
      destruct cursor; rewrite ?single_line_app, ?single_line_escaped; by vm_compute.
  - assert (∀ l, forallb (negb ∘ is_lf) l = true ↔ byte 10 ∉ l) as Hlf.
    { intros l. rewrite forallb_forall. split.
      - intros H Hin%list_elem_of_In. by apply H in Hin.
      - intros Hn b Hb%list_elem_of_In. unfold compose. apply negb_true_iff, not_true_iff_false. intros E. apply Hn.
        replace (byte 10) with b; [done|]. apply byte_val_inj. unfold is_lf, byte_eqb in E. by apply Z.eqb_eq in E. }
    rewrite <- Hlf, <- (single_line_call id raw_tool args Hi). split; [|apply Hs]. intros E.
    destruct (single_line _) eqn:Es; [done|exfalso]. unfold single_line in Es.
    assert (byte 10 ∈ as_bytes (call_request id raw_tool args)) as Hin.
    { destruct (decide (byte 10 ∈ as_bytes (call_request id raw_tool args))) as [|Hn]; [done|]. apply Hlf in Hn. congruence. }
    clear Es. apply list_elem_of_split in Hin as (a & b & Hab). rewrite Hab in E.
    assert (∃ a', forallb (negb ∘ is_lf) a' = true ∧ ∃ b', a ++ byte 10 :: b = a' ++ [byte 10] ++ b') as (a' & Ha' & b' & Hb').
    { clear -Hlf. induction a as [|x a IH]; [by exists []; split; [|exists b]|].
      destruct (decide (x = byte 10)) as [->|Hx]; [exists []; split; [done|by exists (a ++ byte 10 :: b)]|].
      destruct IH as (a' & Ha & b' & Eb). exists (x :: a'). split; [|exists b'; exact (f_equal (cons x) Eb)]. apply Hlf. apply Hlf in Ha. set_solver. }
    rewrite Hb' in E. rewrite <- !app_assoc in E. rewrite raw_lines_app_lf in E by done. injection E as E1 E2.
    apply (f_equal length) in E1. rewrite !length_app in E1. simpl in E1. rewrite length_app in E1. simpl in E1. lia.
Qed.

(** A wait ends and is exact.  For every peer it returns, or the peer has delivered a frame
    with a broken escape; it returns the first thing that settles it: a response with the id
    asked for that was delivered, a time-out once the deadline has passed, or a failure of
    the transport.  Meanwhile it sends nothing but answers to requests of the peer, and keeps
    at most [MAX_SURFACED_FRAMES] notifications, in order, each as delivered. *)
Theorem wait_exact t want_id cwd deadline budget s : peer_ok t →
  match wait_for_response t want_id cwd deadline budget s with
  | OutOfFuel => False
  | Panicked => ∃ line, line ∈ lines_in t.(script) ∧ hostile line = true
  | Returned (t', s', r) => waited t s cwd t' s' ∧ wait_result t (show want_id) deadline budget t' r
  end.
Proof.
  intros Hp. pose proof (wait_spec t want_id cwd deadline budget s Hp) as H.
  destruct (wait_for_response _ _ _ _ _ _) as [[[t' s'] r]| |]; simpl in H; [by destruct H as (? & _ & ?)| |done].
  destruct H as (line & ? & Hl). exists line. split; [done|]. unfold hostile, plain in *. destruct (escapes_ok _); [done|]. done.
Qed.

(** ** Replies reflect nothing *)

Definition is_token_byte (b : ascii) : bool := is_id_byte b || is_byte QUOTE b.

Lemma render_token_bytes id token : render_id_token id = Some token → str_forall is_token_byte token = true.
Proof.
  assert (∀ f s, (∀ b, f b = true → is_token_byte b = true) → str_forall f s = true → str_forall is_token_byte s = true) as Hf.
  { intros f s H. unfold str_forall. rewrite !forallb_forall. auto. }
  unfold render_id_token. destruct (is_empty id); [done|]. destruct (str_forall is_ascii_digit id) eqn:E1.
  { intros [= <-]. eapply Hf; [|exact E1]. intros b Hb. unfold is_token_byte, is_id_byte, is_alnum. by rewrite Hb, !orb_true_r. }
  destruct (_ || _) eqn:E2.
  { intros [= <-]. apply orb_true_iff in E2 as [[E2%str_eqb_eq|E2%str_eqb_eq]%orb_true_iff|E2%str_eqb_eq]; rewrite E2; by vm_compute. }
  destruct (_ >? _); [done|]. destruct (str_forall is_id_byte id) eqn:E3; [|done]. intros [= <-].
  unfold str_forall. rewrite !as_bytes_app, !forallb_app. fold (str_forall is_token_byte id).
  rewrite (Hf is_id_byte id); [done| |done]. intros b Hb. unfold is_token_byte. by rewrite Hb.
Qed.

(** What the peer learns and what it gets back: one of five fixed frames with its own request
    id, limited to plain bytes, and with the pinned directory in the answer to [roots/list];
    nothing else of the request, its parameters above all, enters a reply. *)
Theorem replies_inert cwd line reply : reply_to cwd line reply →
  (∃ token, str_forall is_token_byte token = true ∧
     reply ∈ [answer_request "ping" token cwd; answer_request "roots/list" token cwd; refusal_frame token SAMPLING_REFUSED_MESSAGE;
              refusal_frame token ELICITATION_REFUSED_MESSAGE; refusal_frame token UNKNOWN_METHOD_MESSAGE])
  ∧ ∀ line', find_string_field line' "method" = find_string_field line "method" →
      find_raw_field line' "id" = find_raw_field line "id" → reply_to cwd line' reply.
Proof.
  intros (method & id & token & Hm & Hi & Ht & ->). split.
  - exists token. split; [by eapply render_token_bytes|]. unfold answer_request.
    destruct (str_eqb method "ping"); [by left|]. destruct (str_eqb method "roots/list"); [by right; left|].
    rewrite !elem_of_cons. repeat case_if; auto 10.
  - intros line' Em Ei. exists method, id, token. by rewrite Em, Ei.
Qed.

(** ** Calls *)

Lemma truncate_to_prefix s n : 0 ≤ n → slen (truncate_to s n) ≤ n ∧ ∃ r, s = truncate_to s n +:+ r.
Proof.
  intros Hn. unfold truncate_to. destruct (Z.leb_spec (slen s) n); [split; [done|exists ""; by rewrite append_nil_r]|].
  assert (∀ l e, (back_to_boundary l e ≤ e)%nat) as Hb.
  { intros l e. induction e as [|e IH]; [done|]. cbn [back_to_boundary]. destruct (is_char_boundary _ _); lia. }
  split.
  - rewrite slen_of_bytes. unfold len. rewrite length_take. specialize (Hb (as_bytes s) (Z.to_nat n)). lia.
  - exists (of_bytes (drop (back_to_boundary (as_bytes s) (Z.to_nat n)) (as_bytes s))).
    by rewrite <- of_bytes_app, take_drop, of_bytes_as_bytes.
Qed.

Lemma settle_call_Ok tool p success : settle_call tool p = Ok success →
  ∃ text observed, p = Ok (text, observed) ∧ observed ≤ MAX_CALL_RESULT_BYTES ∧ success.(success_data) = text
    ∧ len text ≤ MAX_CALL_RESULT_BYTES ∧ slen success.(success_summary) ≤ MAX_CALL_SUMMARY_BYTES
    ∧ ∃ r, of_bytes text = success.(success_summary) +:+ r.
Proof.
  unfold settle_call. destruct p as [[text observed]|[]]; try done. destruct (Z.gtb_spec observed MAX_CALL_RESULT_BYTES); [done|].
  unfold ToolSuccess_new. destruct (truncate_to_prefix (of_bytes text) MAX_CALL_SUMMARY_BYTES) as [H1 [r Hr]]; [done|].
  destruct (negb (_ >? _)) eqn:E1; [|done]. destruct (negb (len text >? _)) eqn:E2; [|done]. intros [= <-].
  exists text, observed. reflect_bools. split_and!; try done. by exists r.
Qed.

(** What a call does to the transport and to the notifications, and what it answers. *)
Definition call_post (t : Transport) (id : Z) (raw_tool tool : string) (args : bytes) (cwd : string) (timeout : Z) (s : list string)
    (run : run (Transport * list string * result ToolSuccess McpCallError)) : Prop :=
  match run with
  | OutOfFuel => False
  | Panicked => ∃ line, line ∈ lines_in t.(script) ∧ hostile line = true
  | Returned (t', s', r) =>
      (MAX_CALL_ARGUMENTS_BYTES < len args ∧ t' = t ∧ s' = s ∧ r = Err (CallArgumentsTooLarge MAX_CALL_ARGUMENTS_BYTES (len args)))
      ∨ (len args ≤ MAX_CALL_ARGUMENTS_BYTES
         ∧ (∃ replies, t'.(sent) = t.(sent) ++ call_request id raw_tool args :: replies
              ∧ Forall (λ reply, ∃ line, line ∈ lines_in t.(script) ∧ reply_to cwd line reply) replies)
         ∧ ((∃ e, r = Err (CallTransport e) ∧ Some e ∈ t.(send_faults))
            ∨ (∃ reason, r = Err (CallUnknown tool reason)
                 ∧ (t.(clock) + clamp_timeout timeout ≤ t'.(clock) ∨ ∃ e, (∃ d, RecvErr d e ∈ t.(script)) ∨ Some e ∈ t.(send_faults)))
            ∨ (∃ line p, line ∈ lines_in t.(script) ∧ has_method line = Returned false ∧ response_id_matches line (show id) = true
                 ∧ parse_call_result line tool = Returned p ∧ r = settle_call tool p
                 ∧ ∀ success, r = Ok success → len success.(success_data) ≤ MAX_CALL_RESULT_BYTES
                     ∧ slen success.(success_summary) ≤ MAX_CALL_SUMMARY_BYTES
                     ∧ ∃ rest, of_bytes success.(success_data) = success.(success_summary) +:+ rest)))
  end.

Lemma call_tool_spec t id raw_tool tool args cwd timeout s : peer_ok t →
  call_post t id raw_tool tool args cwd timeout s (call_tool t id raw_tool tool args cwd timeout s).
Proof.
  intros Hp. unfold call_post, call_tool. destruct (Z.gtb_spec (len args) MAX_CALL_ARGUMENTS_BYTES) as [Ha|Ha]; [by left|]. cbv zeta.
  destruct (send_line t _) as [t1 r1] eqn:Es. destruct (send_line_cases _ _ _ _ Es) as (E1 & E2 & E3 & E4 & E5).
  destruct r1 as [u|e].
  2: { right. split_and!; [done|exists []; split; [by rewrite E3|done]|]. left. by exists e. }
  assert (peer_ok t1) as Hp1 by (unfold peer_ok in *; by rewrite E2).
  pose proof (wait_spec t1 id cwd (t.(clock) + clamp_timeout timeout) (clamp_timeout timeout) s Hp1) as Hw.
  destruct (wait_for_response _ _ _ _ _ _) as [[[t2 s2] answer]| |]; simpl in Hw; [| |done].
  2: { destruct Hw as (line & ? & Hl). rewrite E2 in *. exists line. split; [done|]. unfold hostile, plain in *. by destruct (escapes_ok _). }
  destruct Hw as (Hw & _ & Hr). destruct (w_sent _ _ _ _ _ Hw) as (replies & Hs & Hreplies). rewrite E2 in Hreplies.
  assert (∃ replies, t2.(sent) = t.(sent) ++ call_request id raw_tool args :: replies
    ∧ Forall (λ reply, ∃ line, line ∈ lines_in t.(script) ∧ reply_to cwd line reply) replies) as Hsent.
  { exists replies. by rewrite Hs, E3, <- app_assoc. }
  destruct answer as [line|e]; simpl in Hr; rewrite E2 in Hr.
  - destruct Hr as (Hl & Hm & Hi). pose proof (parse_call_cases line tool) as Hc.
    destruct (parse_call_result line tool) as [p| |] eqn:Ep; [|by exists line|done]. right. split_and!; try done.
    right; right. exists line, p. split_and!; try done. intros success (text & observed & -> & _ & <- & ? & ? & ?)%settle_call_Ok. done.
  - right. split_and!; try done. right; left. eexists. split; [done|]. destruct Hr as [[_ Hc]|[Hr|Hr]]; [by left|right..]; exists e; [by left|right].
    by eapply suffix_elem.
Qed.

(** A call is exact.  Arguments over the bound are refused before any contact.  Otherwise
    the frame of the call is sent once, followed only by answers to requests of the peer;
    the outcome is that of the one response with the id of the call, or says truthfully
    that there was none: a send that failed, a deadline that passed, a transport that broke.
    A success holds the text of the response, whole and within its bounds, and its summary is
    a prefix of it.  The call never hangs, and panics only on a hostile frame. *)
Theorem call_tool_exact t id raw_tool tool args cwd timeout s : peer_ok t →
  call_post t id raw_tool tool args cwd timeout s (call_tool t id raw_tool tool args cwd timeout s).
Proof. apply call_tool_spec. Qed.

(** ** Imported tools *)

Lemma clean_byte_ok b : is_tool_name_byte (clean_byte b) = true.
Proof.
  unfold clean_byte. destruct (is_ascii_lowercase _ || is_ascii_digit _ || byte_eqb 95 _) eqn:E; [|done].
  unfold is_tool_name_byte. by rewrite E.
Qed.

Lemma clean_ok s : str_forall is_tool_name_byte (clean s) = true.
Proof.
  unfold str_forall, clean. rewrite as_bytes_of_bytes. apply forallb_forall. intros b Hb%list_elem_of_In.
  apply list_elem_of_fmap in Hb as (c & -> & _). apply clean_byte_ok.
Qed.

Lemma str_forall_app f s t : str_forall f (s +:+ t) = str_forall f s && str_forall f t.
Proof. unfold str_forall. by rewrite as_bytes_app, forallb_app. Qed.

Lemma hex8_ok n : 0 ≤ n → str_forall is_tool_name_byte (hex8 n) = true ∧ slen (hex8 n) = 8.
Proof.
  intros Hn. split; [|done]. unfold str_forall, hex8. rewrite as_bytes_of_bytes. apply forallb_forall.
  intros b Hb%list_elem_of_In. apply list_elem_of_fmap in Hb as (i & -> & _).
  assert (∀ d, 0 ≤ d < 16 → is_tool_name_byte (hex_digit d) = true) as Hd.
  { intros d Hd. assert (d = 0 ∨ d = 1 ∨ d = 2 ∨ d = 3 ∨ d = 4 ∨ d = 5 ∨ d = 6 ∨ d = 7 ∨ d = 8 ∨ d = 9 ∨ d = 10 ∨ d = 11 ∨ d = 12
      ∨ d = 13 ∨ d = 14 ∨ d = 15) as H by lia. by repeat destruct H as [->|H]; subst. }
  apply Hd. by apply Z.mod_pos_bound.
Qed.

(** Names are sanitised into the shape the registry asks for, whatever the server reports. *)
Lemma sanitize_valid server raw : validate_tool_name (sanitize_mcp_name server raw) = Ok tt.
Proof.
  unfold sanitize_mcp_name. set (candidate := "mcp_" +:+ clean server +:+ "_" +:+ clean raw).
  assert (str_forall is_tool_name_byte candidate = true) as Hc.
  { unfold candidate. rewrite !str_forall_app, !clean_ok. done. }
  assert (∃ rest, candidate = String (byte 109) rest) as [rest Er] by (unfold candidate; simpl; by eexists).
  destruct (_ && is_ok _) eqn:E; [apply andb_true_iff in E as [_ E]; by destruct (validate_tool_name candidate) as [[]|]|].
  assert (MAX_TOOL_NAME_LEN < slen candidate) as Hl.
  { destruct (Z.leb_spec (slen candidate) MAX_TOOL_NAME_LEN) as [Hl|]; [exfalso|done]. simpl andb in E. unfold validate_tool_name in E.
    apply Z.leb_le in Hl. rewrite Hl, Hc, Er in E. done. }
  change (MAX_TOOL_NAME_LEN - 1 - 8) with 55. change MAX_TOOL_NAME_LEN with 64 in Hl.
  destruct (Z.ltb_spec (slen candidate) 55); [lia|]. set (prefix := of_bytes (take (Z.to_nat 55) (as_bytes candidate))).
  assert (slen prefix = 55) as Hp.
  { unfold prefix. rewrite slen_of_bytes. unfold len, slen in *. rewrite length_take, as_bytes_length. lia. }
  assert (str_forall is_tool_name_byte prefix = true) as Hpf.
  { unfold str_forall, prefix in *. rewrite as_bytes_of_bytes. rewrite forallb_forall in Hc |- *. intros b Hb. apply Hc.
    apply list_elem_of_In in Hb. apply list_elem_of_In. by eapply subseteq_take. }
  assert (∃ r, prefix = String (byte 109) r) as [r Hr].
  { unfold prefix. rewrite Er. by eexists. }
  destruct (hex8_ok (Z.land (fnv1a (as_bytes candidate)) 4294967295)) as [Hh Hh8]; [apply Z.land_nonneg; by right|].
  unfold validate_tool_name. set (h := hex8 _) in *. rewrite !str_forall_app, Hpf, Hh. rewrite !slen_app, Hp, Hh8. by rewrite Hr.
Qed.

(** What the client vouches for in an import. *)
Definition import_ok (server : string) (tool : ImportedTool) : Prop :=
  tool.(it_spec).(spec_name) = sanitize_mcp_name server tool.(it_raw_name)
  ∧ validate_tool_name tool.(it_spec).(spec_name) = Ok tt
  ∧ tool.(it_spec).(read_only) = true ∧ tool.(it_spec).(required_scope) = "mcp." +:+ server
  ∧ tool.(it_spec).(placement) = Some Mcp ∧ len tool.(it_spec).(schema_json) ≤ MAX_TOOL_SCHEMA_BYTES
  ∧ slen tool.(it_spec).(description) ≤ MAX_TOOL_DESCRIPTION_LEN
  ∧ tool.(it_server) = server ∧ tool.(it_digest) = schema_digest tool.(it_spec).

Lemma import_tool_ok server raw tool : import_tool server raw = Ok tool → import_ok server tool ∧ tool.(it_raw_name) = raw.(raw_tool_name).
Proof.
  unfold import_tool. destruct (negb (_ >? _)) eqn:E1; [|done]. unfold ToolSpec_new. rewrite sanitize_valid.
  destruct (negb (slen _ >? _)) eqn:E2; [|done]. destruct (negb (len _ >? MAX_TOOL_SCHEMA_BYTES)) eqn:E3; [|done]. simpl.
  intros [= <-]. reflect_bools. split; [|done]. split_and!; try done. apply sanitize_valid.
Qed.

Lemma import_allowlisted_ok server raws allowlist : ∀ kept tools, import_allowlisted server allowlist raws kept = Ok tools →
  Forall (import_ok server) kept → NoDup (map (spec_name ∘ it_spec) kept) →
  Forall (import_ok server) tools ∧ NoDup (map (spec_name ∘ it_spec) tools)
  ∧ map it_raw_name tools = map it_raw_name kept ++ allowlist.
Proof.
  induction allowlist as [|wanted allowlist IH]; intros kept tools; cbn [import_allowlisted].
  { intros [= <-] ? ?. split_and!; try done. by rewrite app_nil_r. }
  destruct (List.find _ raws) as [raw|] eqn:Ef; [|done]. apply find_Some_elem in Ef as [_ Ew%str_eqb_eq].
  destruct (import_tool server raw) as [tool|] eqn:Ei; [|done]. apply import_tool_ok in Ei as [Hok Hn].
  destruct (existsb _ kept) eqn:Ed; [done|]. intros Hr Hk Hnd. rewrite existsb_false_iff in Ed.
  destruct (IH _ _ Hr) as (H1 & H2 & H3).
  - apply Forall_app. split; [done|]. by constructor.
  - rewrite map_app. apply NoDup_app. split_and!; [done| |apply NoDup_singleton]. intros x Hx Hin%list_elem_of_singleton.
    apply list_elem_of_fmap in Hx as (k & -> & Hk'). specialize (Ed k Hk'). simpl in Hin. unfold compose in Hin. rewrite Hin in Ed.
    by rewrite str_eqb_refl in Ed.
  - split_and!; try done. rewrite H3, map_app, <- app_assoc. simpl. by rewrite Hn, Ew.
Qed.

Lemma split_objects_fuel fuel : ∀ l, (length l < fuel)%nat → split_array_objects fuel l ≠ OutOfFuel.
Proof. intros l Hl. destruct (split_objects_total fuel l Hl) as (r & -> & _). done. Qed.

Lemma raw_entries_fuel objects : raw_entries objects ≠ OutOfFuel.
Proof.
  induction objects as [|o objects IH]; [done|]. cbn [raw_entries].
  pose proof (find_string_field_fuel o "name"). destruct (find_string_field o "name") as [[name|]| |]; try done.
  destruct (is_empty name); [done|]. pose proof (find_string_field_fuel o "description").
  destruct (find_string_field o "description"); try done. by destruct (raw_entries objects).
Qed.

Lemma parse_tools_page_cases line :
  match parse_tools_page line with Returned _ => True | Panicked => ¬ plain line | OutOfFuel => False end.
Proof.
  destruct (parse_tools_page line) eqn:E; [done| |].
  - intros Hl. destruct (parse_tools_page_total line Hl). congruence.
  - unfold parse_tools_page in E. destruct (find_object_field line "error"); [done|]. destruct (find_object_field line "result") as [res|]; [|done].
    pose proof (find_string_field_fuel res "nextCursor") as Hc. destruct (find_raw_field res "tools") as [array|].
    + destruct (negb _); [done|]. pose proof (split_objects_fuel (S (String.length array)) (as_bytes array) ltac:(rewrite as_bytes_length; lia)).
      destruct (split_array_objects _ _) as [[objects|]| |]; try done. pose proof (raw_entries_fuel objects).
      destruct (raw_entries objects); try done. by destruct (find_string_field res "nextCursor").
    + by destruct (find_string_field res "nextCursor").
Qed.

(** A frame sent while listing: a page request or an answer to the peer. *)
Definition listing_frame (t : Transport) (cwd frame : string) : Prop :=
  (∃ id cursor, frame = list_request id cursor) ∨ ∃ line, line ∈ lines_in t.(script) ∧ reply_to cwd line frame.

Lemma page_loop_spec pages : ∀ t next_id cwd deadline bound s cursor used raws, peer_ok t →
  match page_loop pages t next_id cwd deadline bound s cursor used raws with
  | OutOfFuel => False
  | Panicked => ∃ line, line ∈ lines_in t.(script) ∧ ¬ plain line
  | Returned (t', id', s', r) =>
      (∃ frames, t'.(sent) = t.(sent) ++ frames ∧ Forall (listing_frame t cwd) frames) ∧ peer_ok t' ∧ t'.(script) `suffix_of` t.(script)
      ∧ (∃ k, 0 ≤ k ≤ Z.of_nat pages ∧ id' mod 2 ^ 64 = (next_id + k) mod 2 ^ 64)
      ∧ (∃ notes, s' = s ++ notes ∧ Forall (λ n, n ∈ lines_in t.(script)) notes) ∧ len s' ≤ Z.max (len s) MAX_SURFACED_FRAMES
  end.
Proof.
  induction pages as [|pages IH]; intros t next_id cwd deadline bound s cursor used raws Hp; cbn [page_loop].
  { split_and!; try done; [exists []|exists 0|exists []|lia]; rewrite ?app_nil_r; try done. split; [lia|]. by rewrite Z.add_0_r. }
  destruct (send_line t _) as [t1 r1] eqn:Es. destruct (send_line_cases _ _ _ _ Es) as (E1 & E2 & E3 & E4 & E5).
  assert (peer_ok t1) as Hp1 by (unfold peer_ok in *; by rewrite E2).
  assert (∃ k, 0 ≤ k ≤ Z.of_nat (S pages) ∧ wrapping_add64 next_id 1 mod 2 ^ 64 = (next_id + k) mod 2 ^ 64) as Hid.
  { exists 1. split; [lia|]. unfold wrapping_add64. by rewrite Z.mod_mod. }
  assert (listing_frame t cwd (list_request next_id cursor)) as Hreq by (left; by eexists _, _).
  destruct r1 as [u|e].
  2: { split_and!; try done; [eexists; split; [exact E3|by constructor]|by rewrite E2|exists []; by rewrite app_nil_r|lia]. }
  pose proof (wait_spec t1 next_id cwd deadline bound s Hp1) as Hw.
  destruct (wait_for_response _ _ _ _ _ _) as [[[t2 s2] answer]| |]; simpl in Hw; [|by rewrite E2 in Hw|done].
  destruct Hw as (Hw & Hp2 & Hr). destruct (w_sent _ _ _ _ _ Hw) as (replies & Hs & Hreplies). rewrite E2 in Hreplies.
  pose proof (w_script _ _ _ _ _ Hw) as Hsuf. rewrite E2 in Hsuf.
  destruct (w_surfaced _ _ _ _ _ Hw) as (notes & En & Hn). rewrite E2 in Hn. pose proof (w_bound _ _ _ _ _ Hw) as Hb.
  assert (t2.(sent) = t.(sent) ++ list_request next_id cursor :: replies) as Hs2 by by rewrite Hs, E3, <- app_assoc.
  assert (Forall (listing_frame t cwd) (list_request next_id cursor :: replies)) as Hfr.
  { constructor; [done|]. eapply Forall_impl; [exact Hreplies|]. intros f Hf. by right. }
  assert (∀ r : result (list RawMcpTool) McpError, (∃ frames, t2.(sent) = t.(sent) ++ frames ∧ Forall (listing_frame t cwd) frames) ∧ peer_ok t2 ∧ t2.(script) `suffix_of` t.(script)
      ∧ (∃ k, 0 ≤ k ≤ Z.of_nat (S pages) ∧ wrapping_add64 next_id 1 mod 2 ^ 64 = (next_id + k) mod 2 ^ 64)
      ∧ (∃ notes, s2 = s ++ notes ∧ Forall (λ n, n ∈ lines_in t.(script)) notes) ∧ len s2 ≤ Z.max (len s) MAX_SURFACED_FRAMES) as Hend.
  { intros _. split_and!; try done; by eexists. }
  destruct answer as [line|e]; [|by apply (Hend (Ok []))]. simpl in Hr. rewrite E2 in Hr. destruct Hr as (Hl & _).
  pose proof (parse_tools_page_cases line) as Hc. destruct (parse_tools_page line) as [page| |]; [|by exists line|done].
  destruct page as [[entries [token|]]|e]; [|by apply (Hend (Ok []))|by apply (Hend (Ok []))].
  destruct (existsb _ _); [by apply (Hend (Ok []))|].
  match goal with |- context [page_loop pages t2 ?i cwd deadline bound s2 ?c ?u ?w] =>
    specialize (IH t2 i cwd deadline bound s2 c u w Hp2); destruct (page_loop pages t2 i cwd deadline bound s2 c u w) as [[[[t3 id3] s3] r]| |] end; [| |done].
  2: { destruct IH as (l' & ? & ?). exists l'. split; [by eapply lines_in_suffix|done]. }
  destruct IH as ((frames & Hf1 & Hf2) & Hp3 & Hs3 & (k & Hk1 & Hk2) & (notes' & Hn1 & Hn2) & Hb3). split_and!; try done.
  - exists ((list_request next_id cursor :: replies) ++ frames). rewrite Hf1, Hs2, <- app_assoc. split; [done|]. apply Forall_app. split; [done|].
    eapply Forall_impl; [exact Hf2|]. intros f [?|(line' & ? & ?)]; [by left|right]. exists line'. split; [by eapply lines_in_suffix|done].
  - by etrans.
  - exists (1 + k). split; [lia|]. rewrite Hk2. unfold wrapping_add64. rewrite Z.add_mod_idemp_l by done. f_equal. lia.
  - exists (notes ++ notes'). rewrite Hn1, En, <- app_assoc. split; [done|]. apply Forall_app. split; [done|].
    eapply Forall_impl; [exact Hn2|]. intros n ?. by eapply lines_in_suffix.
  - lia.
Qed.

(** Listing is bounded and exact: at most [MAX_TOOL_PAGES] pages are asked for, each with an id
    of its own; tools are imported for exactly the allow-list, in its order, under valid and
    distinct names, read-only, with the server's own scope and the digest of their schema. *)
Theorem list_tools_sound t server cwd allowlist next_id timeout s : peer_ok t →
  match list_tools t server cwd allowlist next_id timeout s with
  | OutOfFuel => False
  | Panicked => ∃ line, line ∈ lines_in t.(script) ∧ ¬ plain line
  | Returned (t', id', s', r) =>
      (∃ frames, t'.(sent) = t.(sent) ++ frames ∧ Forall (listing_frame t cwd) frames) ∧ peer_ok t' ∧ t'.(script) `suffix_of` t.(script)
      ∧ (∃ k, 0 ≤ k ≤ 5 ∧ id' mod 2 ^ 64 = (next_id + k) mod 2 ^ 64)
      ∧ (∃ notes, s' = s ++ notes ∧ Forall (λ n, n ∈ lines_in t.(script)) notes)
      ∧ ∀ tools, r = Ok tools → Forall (import_ok server) tools ∧ NoDup (map (spec_name ∘ it_spec) tools) ∧ map it_raw_name tools = allowlist
  end.
Proof.
  intros Hp. unfold list_tools. cbv zeta.
  pose proof (page_loop_spec MAX_TOOL_PAGES t next_id cwd (t.(clock) + clamp_timeout timeout) (clamp_timeout timeout) s None [] [] Hp) as H.
  destruct (page_loop _ _ _ _ _ _ _ _ _ _) as [[[[t' id'] s'] raws]| |]; [|done|done].
  destruct H as (? & ? & ? & ? & ? & _). split_and!; try done. intros tools Ht. destruct raws as [raws|]; [|done].
  by apply (import_allowlisted_ok server raws allowlist [] tools) in Ht as (? & ? & ?); [|constructor..].
Qed.
