(* ===== verification/McpAdapterFacts.v ===== *)
(** * McpAdapterFacts: the gates and the tool list of the MCP adapter

    No refused call reaches the transport, an admitted call is sent once and its outcome
    never claims more than was answered, the tool list changes only by a successful re-list
    that imports exactly the allow-list under the pinned protocol, and staleness ends
    nowhere else. *)

From S2P Require Import Prelude Text Order Session Stream ToolTypes Consent ToolBus McpTypes McpFrame McpJson McpClient McpAdapter McpFacts.

Local Open Scope Z_scope.
Local Open Scope rust_scope.

(** ** The gates *)

(** Everything that must hold before the server is contacted. *)
Record permitted (a : McpToolAdapter) (tool : string) (now_ms : Z) (allowed : option (list string)) (entry : ImportedTool) : Prop := {
  pm_fresh : a.(list_stale) = false;
  pm_allowed : in_allow_set allowed tool;
  pm_entry : lookup_import a tool = Some entry;
  pm_tier : a.(ad_params).(mp_base).(base_level) = Inspect → entry.(it_spec).(read_only) = true;
  pm_auth : a.(ad_authorizer) (mkAuthContext a.(ad_params).(mp_base) tool entry.(it_spec).(required_scope) entry.(it_spec).(read_only)) = AuthAllow;
  pm_consent : a.(ad_consent) (mkConsentQuery a.(ad_params).(mp_protocol_id) a.(ad_params).(mp_base).(base_agent_instance_id) tool
                                 entry.(it_spec).(required_scope) now_ms) = ConsentAllow
}.

Definition is_denial (tool : string) (e : ToolError) : Prop := ∃ reason, e = ErrDenied (bound_reason tool) reason.

Lemma deny_denial tool reason : is_denial tool (deny tool reason).
Proof. by eexists. Qed.

#[export] Hint Resolve deny_denial : runtime.

Lemma consent_denial (ledger : ConsentQuery → ConsentDecision) q e :
  ensure_consented_for_dispatch ledger q = Err e → is_denial q.(q_tool) e.
Proof.
  unfold ensure_consented_for_dispatch. destruct (ensure_consented ledger q); [done|]. intros [= <-].
  eexists. simpl. by rewrite bound_reason_idemp.
Qed.

Lemma gate_spec a tool now allowed :
  match gate a tool now allowed with
  | Ok entry => permitted a tool now allowed entry
  | Err e => is_denial tool e ∧ ∀ entry, ¬ permitted a tool now allowed entry
  end.
Proof.
  unfold gate. destruct (list_stale a) eqn:E1; simpl; [split; [apply deny_denial|by intros ? []; congruence]|].
  destruct (narrowing_omits allowed tool) eqn:E2; simpl.
  { split; [apply deny_denial|]. intros ? [_ H _ _ _ _]. apply narrowing_omits_false in H. congruence. }
  destruct (lookup_import a tool) as [entry|] eqn:E3; [|split; [apply deny_denial|by intros ? []; congruence]].
  destruct (bool_decide _ && _) eqn:E4; simpl.
  { split; [apply deny_denial|]. intros ? [_ _ H Ht _ _]. apply andb_true_iff in E4 as [Hl%bool_decide_eq_true Hr%negb_true_iff].
    rewrite E3 in H. simplify_eq. by rewrite Ht in Hr. }
  destruct (ad_authorizer a _) as [|reason] eqn:E5; [|split; [apply deny_denial|intros ? [_ _ H _ Ha _]; congruence]].
  destruct (ensure_consented_for_dispatch _ _) as [[]|e] eqn:E6; simpl.
  - apply ensure_consented_for_dispatch_ok in E6. apply narrowing_omits_false in E2. constructor; try done.
    intros Hi. rewrite bool_decide_true in E4 by done. by destruct (read_only _).
  - split; [by apply consent_denial in E6|]. intros ? [_ _ H _ _ Hc]. rewrite E3 in H. simplify_eq.
    apply ensure_consented_for_dispatch_ok in Hc. congruence.
Qed.

(** ** Signals of a changed list *)

Definition is_signal (line : string) : bool :=
  match is_tools_list_changed_notification line with Returned b => b | _ => false end.

(** The number of lines that say that the tools have changed. *)
Definition signals (lines : list string) : Z := len (List.filter is_signal lines).

(** The adapter after it has been shown [lines]. *)
Definition noting (a : McpToolAdapter) (lines : list string) : McpToolAdapter :=
  with_list a a.(ad_tools) (Z.min (a.(list_version) + signals lines) u64_max) (a.(list_stale) || (0 <? signals lines)).

Lemma is_notification_cases method line :
  match is_notification method line with Returned _ => True | Panicked => ¬ plain line | OutOfFuel => False end.
Proof.
  unfold is_notification. destruct (find_raw_field line "id"); [done|].
  pose proof (find_string_field_fuel line "method"). pose proof (field_panics line "method").
  destruct (find_string_field line "method"); auto.
Qed.

Lemma signals_nonneg lines : 0 ≤ signals lines.
Proof. apply len_nonneg. Qed.

Lemma with_list_same a : with_list a a.(ad_tools) a.(list_version) a.(list_stale) = a.
Proof. by destruct a. Qed.

Lemma observe_all_spec lines : ∀ a, is_u64 a.(list_version) →
  match observe_all a lines with
  | Returned a' => a' = noting a lines
  | Panicked => ∃ line, line ∈ lines ∧ ¬ plain line
  | OutOfFuel => False
  end.
Proof.
  induction lines as [|line lines IH]; intros a Hv; cbn [observe_all].
  { unfold noting. change (signals []) with 0. rewrite orb_false_r, Z.add_0_r.
    replace (Z.min (list_version a) u64_max) with (list_version a) by (unfold is_u64 in Hv; lia). by rewrite with_list_same. }
  unfold observe_notification. pose proof (is_notification_cases "notifications/tools/list_changed" line) as Hc.
  fold is_tools_list_changed_notification in Hc.
  destruct (is_tools_list_changed_notification line) as [b| |] eqn:E; [|exists line; split; [by left|done]|done].
  assert (signals (line :: lines) = signals lines + if b then 1 else 0) as Hs.
  { unfold signals. cbn [List.filter]. unfold is_signal at 1. rewrite E. destruct b; len_lia. }
  pose proof (signals_nonneg lines) as Hn. unfold is_u64 in Hv. destruct b.
  - specialize (IH (mark_stale a)). destruct (observe_all (mark_stale a) lines) as [a'| |].
    + rewrite IH by (unfold is_u64; simpl; unfold saturating_add64; lia). unfold noting, mark_stale, with_list. rewrite Hs. simpl.
      f_equal; [unfold saturating_add64; lia|]. destruct (list_stale a); simpl; [done|]. symmetry. apply Z.ltb_lt. lia.
    + destruct IH as (l & ? & ?); [unfold is_u64; simpl; unfold saturating_add64; lia|]. exists l. split; [by right|done].
    + apply IH. unfold is_u64; simpl; unfold saturating_add64; lia.
  - specialize (IH a Hv). destruct (observe_all a lines) as [a'| |]; [|destruct IH as (l & ? & ?); exists l; split; [by right|done]|done].
    rewrite IH. unfold noting. by rewrite Hs, Z.add_0_r.
Qed.

(** ** Execution *)

(** What an exchange leaves of the transport: answers are used up in order, frames are only
    added, and what was surfaced was delivered. *)
Record exchanged (t : Transport) (s : list string) (t' : Transport) (s' : list string) : Prop := {
  ex_peer : peer_ok t';
  ex_script : t'.(script) `suffix_of` t.(script);
  ex_sent : t.(sent) `prefix_of` t'.(sent);
  ex_notes : ∀ n, n ∈ s' → n ∈ s ∨ n ∈ lines_in t.(script)
}.

Lemma exchanged_refl t s : peer_ok t → exchanged t s t s.
Proof. constructor; auto. Qed.

Lemma exchanged_send t line t1 r s : peer_ok t → send_line t line = (t1, r) → exchanged t s t1 s.
Proof.
  intros Hp (_ & E2 & E3 & _ & _)%send_line_cases. constructor; rewrite ?E2, ?E3; try done; [|by eexists|by left].
  unfold peer_ok in *. by rewrite E2.
Qed.

Lemma exchanged_waited t s cwd t' s' : peer_ok t' → waited t s cwd t' s' → exchanged t s t' s'.
Proof.
  intros Hp [Hs _ (replies & Hr & _) (notes & -> & Hn) _ _]. constructor; try done; [by exists replies|].
  intros n [?|?]%elem_of_app; [by left|right]. rewrite Forall_forall in Hn. auto.
Qed.

Lemma exchanged_trans t s t1 s1 t2 s2 : exchanged t s t1 s1 → exchanged t1 s1 t2 s2 → exchanged t s t2 s2.
Proof.
  intros [A1 A2 A3 A4] [B1 B2 B3 B4]. constructor; [done|by etrans|by etrans|].
  intros n [?|?]%B4; [by apply A4|right; by eapply lines_in_suffix].
Qed.

Lemma call_tool_exchanged t id raw_tool tool args cwd timeout s t' s' r : peer_ok t →
  call_tool t id raw_tool tool args cwd timeout s = Returned (t', s', r) → exchanged t s t' s'.
Proof.
  intros Hp. unfold call_tool. destruct (_ >? _); [intros [= <- <- _]; by apply exchanged_refl|]. cbv zeta.
  destruct (send_line t _) as [t1 [u|e]] eqn:Es; [|intros [= <- <- _]; by eapply exchanged_send].
  assert (exchanged t s t1 s) as H1 by by eapply exchanged_send. pose proof (wait_spec t1 id cwd (t.(clock) + clamp_timeout timeout) (clamp_timeout timeout) s) as Hw.
  specialize (Hw (ex_peer _ _ _ _ H1)). destruct (wait_for_response _ _ _ _ _ _) as [[[t2 s2] answer]| |]; try done.
  destruct Hw as (Hw & Hp2 & _). assert (exchanged t s t2 s2) as H2 by (eapply exchanged_trans; [exact H1|by eapply exchanged_waited]).
  destruct answer as [line|e]; [|by intros [= <- <- _]]. destruct (parse_call_result line tool); [|done|done]. by intros [= <- <- _].
Qed.

Definition call_id (a : McpToolAdapter) : Z := Z.max a.(ad_next_id) 2.

(** A response that the server gave to request [id], and the outcome it stands for. *)
Definition answered (t : Transport) (id : Z) (tool : string) (r : result ToolSuccess ToolError) : Prop :=
  ∃ line p, line ∈ lines_in t.(script) ∧ has_method line = Returned false ∧ response_id_matches line (show id) = true
    ∧ parse_call_result line tool = Returned p ∧ r = map_outcome tool (settle_call tool p).

(** What an admitted call does: it is too large, or it is sent once and answered, or its effect
    is unknown. *)
Definition dispatched (a : McpToolAdapter) (tool : string) (args : bytes) (entry : ImportedTool) (t' : Transport)
    (r : result ToolSuccess ToolError) : Prop :=
  let t := a.(ad_transport) in
  (MAX_CALL_ARGUMENTS_BYTES < len args ∧ t' = t ∧ r = Err (ArgumentsTooLarge MAX_CALL_ARGUMENTS_BYTES (len args)))
  ∨ (len args ≤ MAX_CALL_ARGUMENTS_BYTES
     ∧ (∃ replies, t'.(sent) = t.(sent) ++ call_request (call_id a) entry.(it_raw_name) args :: replies
          ∧ Forall (λ reply, ∃ line, line ∈ lines_in t.(script) ∧ reply_to a.(ad_params).(mp_cwd) line reply) replies)
     ∧ ((∃ reason, r = Err (ErrEffectUnknown tool reason)) ∨ answered t (call_id a) tool r)).

Lemma map_outcome_not_denied tool outcome name reason : map_outcome tool outcome ≠ Err (ErrDenied name reason).
Proof. by destruct outcome as [|[]]. Qed.

Lemma call_post_dispatched a tool args entry t' s' outcome :
  call_post a.(ad_transport) (call_id a) entry.(it_raw_name) tool args a.(ad_params).(mp_cwd) a.(ad_params).(mp_timeout_ms) []
    (Returned (t', s', outcome)) →
  dispatched a tool args entry t' (map_outcome tool outcome).
Proof.
  intros [(? & -> & _ & ->)|(? & Hs & Hr)]; [by left|right]. split_and!; try done.
  destruct Hr as [(e & -> & _)|[(reason & -> & _)|(line & p & ? & ? & ? & ? & -> & _)]]; [left; by eexists..|right].
  by exists line, p.
Qed.

(** The whole of a call through the adapter. *)
Definition execute_post (a : McpToolAdapter) (tool : string) (args : bytes) (now : Z) (allowed : option (list string))
    (run : run (McpToolAdapter * result ToolSuccess ToolError)) : Prop :=
  match run with
  | OutOfFuel => False
  | Panicked => (∃ entry, permitted a tool now allowed entry) ∧ ∃ line, line ∈ lines_in a.(ad_transport).(script) ∧ hostile line = true
  | Returned (a', r) =>
      ((∀ entry, ¬ permitted a tool now allowed entry) ∧ a' = a ∧ ∃ e, r = Err e ∧ is_denial tool e)
      ∨ ∃ entry t' lines, permitted a tool now allowed entry ∧ dispatched a tool args entry t' r
          ∧ (∀ name reason, r ≠ Err (ErrDenied name reason)) ∧ exchanged a.(ad_transport) [] t' lines
          ∧ a' = noting (with_transport a t' (Z.max (wrapping_add64 (call_id a) 1) 2)) lines
  end.

Lemma not_plain_hostile line : ¬ plain line → hostile line = true.
Proof. unfold plain, hostile. by destruct (escapes_ok _). Qed.

Lemma execute_spec a tool args now allowed : is_u64 a.(list_version) → peer_ok a.(ad_transport) →
  execute_post a tool args now allowed (execute_narrowed a tool args now allowed).
Proof.
  intros Hv Hp. unfold execute_post, execute_narrowed, execute_inner. pose proof (gate_spec a tool now allowed) as Hg.
  destruct (gate a tool now allowed) as [entry|e]; [|left; destruct Hg; eauto]. cbv zeta. fold (call_id a).
  pose proof (call_tool_spec (ad_transport a) (call_id a) (it_raw_name entry) tool args (mp_cwd (ad_params a)) (mp_timeout_ms (ad_params a)) [] Hp) as Hc.
  destruct (call_tool _ _ _ _ _ _ _ _) as [[[t' lines] outcome]| |] eqn:Ec; [|eauto|done].
  apply call_tool_exchanged in Ec; [|done]. apply call_post_dispatched in Hc.
  pose proof (observe_all_spec lines (with_transport a t' (Z.max (wrapping_add64 (call_id a) 1) 2)) Hv) as Ho.
  destruct (observe_all _ _) as [a'| |]; [|split; [eauto|]|done].
  - right. exists entry, t', lines. split_and!; try done. intros name reason. apply map_outcome_not_denied.
  - destruct Ho as (line & Hl%(ex_notes _ _ _ _ Ec) & Hn%not_plain_hostile). exists line. split; [|done]. destruct Hl as [[]%elem_of_nil|]; done.
Qed.


(** ** What no operation changes *)

Record sound (a : McpToolAdapter) : Prop := {
  so_version : is_u64 a.(list_version);
  so_next : is_u64 a.(ad_next_id);
  so_peer : peer_ok a.(ad_transport)
}.

(** The identity of the server, the policy hooks and the parameters are fixed; the version
    grows; frames are only added and answers only used up. *)
Record steady (a a' : McpToolAdapter) : Prop := {
  st_sound : sound a';
  st_server : a'.(ad_server_id) = a.(ad_server_id);
  st_auth : a'.(ad_authorizer) = a.(ad_authorizer);
  st_consent : a'.(ad_consent) = a.(ad_consent);
  st_params : a'.(ad_params) = a.(ad_params);
  st_version : a.(list_version) ≤ a'.(list_version);
  st_sent : a.(ad_transport).(sent) `prefix_of` a'.(ad_transport).(sent);
  st_script : a'.(ad_transport).(script) `suffix_of` a.(ad_transport).(script)
}.

Lemma steady_refl a : sound a → steady a a.
Proof. by constructor. Qed.

Lemma steady_trans a b c : steady a b → steady b c → steady a c.
Proof.
  intros [A0 A1 A2 A3 A4 A5 A6 A7] [B0 B1 B2 B3 B4 B5 B6 B7].
  constructor; [done|congruence..|lia|by etrans|by etrans].
Qed.

Lemma steady_list a tools v st : sound a → list_version a ≤ v ≤ u64_max → steady a (with_list a tools v st).
Proof. intros [H1 H2 H3] Hv. unfold is_u64 in *. constructor; try done; simpl; [|lia]. constructor; try done. unfold is_u64. simpl. lia. Qed.

Lemma steady_mark a : sound a → steady a (mark_stale a).
Proof. intros H. apply steady_list; [done|]. destruct H as [H _ _]. by apply saturating_add64_bounds. Qed.

Lemma steady_noting a lines : sound a → steady a (noting a lines).
Proof.
  intros H. apply steady_list; [done|]. destruct H as [H _ _]. pose proof (signals_nonneg lines). unfold is_u64 in *. lia.
Qed.

Lemma steady_transport a t' s s' n : sound a → exchanged a.(ad_transport) s t' s' → is_u64 n → steady a (with_transport a t' n).
Proof. intros [H1 H2 H3] [E1 E2 E3 E4] Hn. constructor; try done. Qed.

Lemma next_id_u64 n : is_u64 n → is_u64 (Z.max n 2).
Proof. unfold is_u64, u64_max. lia. Qed.

#[export] Hint Resolve steady_refl steady_mark steady_noting next_id_u64 wrapping_add64_u64 st_sound so_version so_next so_peer : runtime.

(** Showing lines to a sound adapter. *)
Lemma observe_steady a lines : sound a →
  match observe_all a lines with
  | Returned a' => a' = noting a lines ∧ steady a a'
  | Panicked => ∃ line, line ∈ lines ∧ ¬ plain line
  | OutOfFuel => False
  end.
Proof.
  intros H. pose proof (observe_all_spec lines a (so_version _ H)) as Ho. destruct (observe_all a lines); [|done|done].
  subst. auto with runtime.
Qed.

(** ** The pin *)

Lemma parse_initialize_cases line :
  match parse_initialize_result line with Returned _ => True | Panicked => ¬ plain line | OutOfFuel => False end.
Proof.
  destruct (parse_initialize_result line) eqn:E; [done| |].
  - intros Hl. destruct (parse_initialize_total line Hl). congruence.
  - unfold parse_initialize_result in E. destruct (find_object_field line "error") as [error|].
    { pose proof (find_string_field_fuel error "message"). by destruct (find_string_field error "message"). }
    destruct (find_object_field line "result") as [res|]; [|done]. pose proof (find_string_field_fuel res "protocolVersion").
    destruct (find_string_field res "protocolVersion") as [[version|]| |]; try done. destruct (negb _); [done|].
    by destruct (find_object_field res "capabilities").
Qed.

(** The server has said again what it was pinned to. *)
Definition pin_confirmed (t : Transport) (pinned : InitializeResult) : Prop :=
  ∃ id line fresh, line ∈ lines_in t.(script) ∧ response_id_matches line (show id) = true
    ∧ parse_initialize_result line = Returned (Ok fresh) ∧ matches_pin pinned fresh = true.

Lemma revalidate_spec a surfaced : sound a →
  match revalidate_protocol_pin a surfaced with
  | OutOfFuel => False
  | Panicked => ∃ line, line ∈ lines_in a.(ad_transport).(script) ∧ ¬ plain line
  | Returned (a', s', r) =>
      ∃ t' n notes, a' = with_transport a t' n ∧ is_u64 n ∧ s' = surfaced ++ notes ∧ exchanged a.(ad_transport) [] t' notes
        ∧ ∀ fresh pinned, r = Ok fresh → matches_pin pinned fresh = true → pin_confirmed a.(ad_transport) pinned
  end.
Proof.
  intros Ha. unfold revalidate_protocol_pin. cbv zeta. set (pin_id := Z.max (ad_next_id a) 2). set (n := Z.max (wrapping_add64 pin_id 1) 2).
  assert (is_u64 n) as Hn by (unfold n; auto with runtime). set (timeout := clamp_timeout _).
  destruct (send_line (ad_transport a) _) as [t1 [u|e]] eqn:Es; apply exchanged_send with (s := []) in Es as E1; eauto with runtime.
  2: { exists t1, n, []. rewrite app_nil_r. by split_and!. }
  pose proof (wait_spec t1 pin_id (mp_cwd (ad_params a)) (t1.(clock) + timeout) timeout [] (ex_peer _ _ _ _ E1)) as Hw.
  apply send_line_cases in Es as (_ & Es & _).
  destruct (wait_for_response _ _ _ _ _ _) as [[[t2 notes] answer]| |]; simpl in Hw; rewrite ?Es in Hw; [|done|done].
  destruct Hw as (Hw & Hp2 & Hr). assert (exchanged (ad_transport a) [] t2 notes) as H2 by (eapply exchanged_trans; [exact E1|by eapply exchanged_waited]).
  destruct answer as [line|e]; [|by exists t2, n, notes]. simpl in Hr. rewrite Es in Hr. destruct Hr as (Hl & _ & Hi).
  pose proof (parse_initialize_cases line) as Hc. destruct (parse_initialize_result line) as [parsed| |] eqn:Ep; [|by exists line|done].
  exists t2, n, notes. split_and!; try done. intros fresh pinned Hf Hm. destruct parsed as [f|]; [|done]. injection Hf as ->.
  by exists pin_id, line, fresh.
Qed.

(** A list is kept and its staleness only ever set. *)
Definition list_kept (a a' : McpToolAdapter) : Prop :=
  a'.(ad_tools) = a.(ad_tools) ∧ a'.(protocol_pin) = a.(protocol_pin) ∧ (a.(list_stale) = true → a'.(list_stale) = true).

Lemma list_kept_noting a lines : list_kept a (noting a lines).
Proof. split_and!; try done. simpl. by intros ->. Qed.

Lemma list_kept_trans a b c : list_kept a b → list_kept b c → list_kept a c.
Proof. intros (? & ? & ?) (? & ? & ?). split_and!; [congruence..|auto]. Qed.

Lemma list_kept_stale a : list_kept a (if a.(list_stale) then a else mark_stale a) ∧ (if a.(list_stale) then a else mark_stale a).(list_stale) = true.
Proof. destruct (list_stale a) eqn:E; repeat split; simpl; auto. Qed.

Lemma steady_stale a : sound a → steady a (if a.(list_stale) then a else mark_stale a).
Proof. destruct (list_stale a); auto with runtime. Qed.

(** Showing lines to an adapter whose list has been kept so far. *)
Lemma observe_kept a b lines : steady a b → list_kept a b →
  match observe_all b lines with
  | Returned a' => steady a a' ∧ list_kept a a' ∧ (b.(list_stale) = true → a'.(list_stale) = true)
  | Panicked => ∃ line, line ∈ lines ∧ ¬ plain line
  | OutOfFuel => False
  end.
Proof.
  intros Hs Hk. pose proof (observe_steady b lines (st_sound _ _ Hs)) as Ho. destruct (observe_all b lines) as [a'| |]; [|done|done].
  destruct Ho as [-> Ho]. split_and!; [by eapply steady_trans|eapply list_kept_trans; [exact Hk|apply list_kept_noting]|by simpl; intros ->].
Qed.

Lemma verify_pin_cases a fresh : sound a →
  match verify_pin a fresh with
  | (a', Ok _) => a' = a ∧ ∀ pinned, a.(protocol_pin) = Some pinned → matches_pin pinned fresh = true
  | (a', Err _) => steady a a' ∧ list_kept a a' ∧ a'.(list_stale) = true
  end.
Proof.
  intros Ha. unfold verify_pin. destruct (protocol_pin a) as [pinned|]; [|done].
  destruct (matches_pin pinned fresh) eqn:E; [split; [done|by intros ? [= <-]]|].
  destruct (list_kept_stale a). auto using steady_stale.
Qed.

Lemma check_pin_spec a surfaced : sound a →
  match check_pin a surfaced with
  | OutOfFuel => False
  | Panicked => ∃ line, (line ∈ surfaced ∨ line ∈ lines_in a.(ad_transport).(script)) ∧ ¬ plain line
  | Returned (a', s', Ok _) =>
      steady a a' ∧ list_kept a a' ∧ a'.(list_version) = a.(list_version)
      ∧ (∀ n, n ∈ s' → n ∈ surfaced ∨ n ∈ lines_in a.(ad_transport).(script))
      ∧ ∀ pinned, a.(protocol_pin) = Some pinned → pin_confirmed a.(ad_transport) pinned
  | Returned (a', s', Err _) => steady a a' ∧ list_kept a a' ∧ a'.(list_stale) = true
  end.
Proof.
  intros Ha. unfold check_pin. destruct (protocol_pin a) as [pinned|] eqn:Epin.
  2: { split_and!; auto with runtime; [by split_and!|done]. }
  pose proof (revalidate_spec a surfaced Ha) as Hr.
  destruct (revalidate_protocol_pin a surfaced) as [[[a1 s1] fresh]| |]; [|destruct Hr as (l & ? & ?); eauto|done].
  destruct Hr as (t' & n & notes & -> & Hn & -> & He & Hpin). assert (steady a (with_transport a t' n)) as Hs by by eapply steady_transport.
  assert (list_kept a (with_transport a t' n)) as Hk by by split_and!.
  assert (∀ m, m ∈ surfaced ++ notes → m ∈ surfaced ∨ m ∈ lines_in a.(ad_transport).(script)) as Hnotes.
  { intros m [?|Hm]%elem_of_app; [by left|]. apply (ex_notes _ _ _ _ He) in Hm as [[]%elem_of_nil|]; by right. }
  destruct fresh as [fresh|e].
  - pose proof (verify_pin_cases (with_transport a t' n) fresh (st_sound _ _ Hs)) as Hv.
    destruct (verify_pin _ fresh) as [a2 [u|e]].
    + destruct Hv as [-> Hm]. split_and!; try done. intros p [= <-]. eapply Hpin; [done|]. by apply Hm.
    + destruct Hv as (Hv & Hkv & Hst). pose proof (observe_kept a a2 (surfaced ++ notes)) as Ho.
      destruct (observe_all a2 _) as [a3| |]; [split_and!; apply Ho; eauto using steady_trans, list_kept_trans| |].
      * destruct Ho as (l & Hl & ?); eauto using steady_trans, list_kept_trans.
      * apply Ho; eauto using steady_trans, list_kept_trans.
  - pose proof (observe_kept a _ (surfaced ++ notes) Hs Hk) as Ho. destruct (observe_all _ _) as [a3| |]; [|destruct Ho as (l & Hl & ?); eauto|done].
    destruct Ho as (H1 & H2 & _). destruct (list_kept_stale a3) as [H3 H4].
    split_and!; [eapply steady_trans; [exact H1|]; auto using steady_stale with runtime|by eapply list_kept_trans|done].
    eapply steady_stale, st_sound, H1.
Qed.

(** ** Re-listing *)

Lemma page_loop_u64 pages : ∀ t next_id cwd deadline bound s cursor used raws t' id' s' r, is_u64 next_id →
  page_loop pages t next_id cwd deadline bound s cursor used raws = Returned (t', id', s', r) → is_u64 id'.
Proof.
  induction pages as [|pages IH]; intros t next_id cwd deadline bound s cursor used raws t' id' s' r Hn; cbn [page_loop]; [by intros [= <- <- <- <-]|].
  pose proof (wrapping_add64_u64 next_id 1) as Hw. destruct (send_line t _) as [t1 [u|e]]; [|by intros [= <- <- <- <-]].
  destruct (wait_for_response _ _ _ _ _ _) as [[[t2 s2] [line|e]]| |]; try done; [|by intros [= <- <- <- <-]].
  destruct (parse_tools_page line) as [[[entries [token|]]|e]| |]; try done; [|by intros [= <- <- <- <-]..].
  destruct (existsb _ _); [by intros [= <- <- <- <-]|]. by apply IH.
Qed.

Lemma list_tools_u64 t server cwd allowlist next_id timeout s t' id' s' r : is_u64 next_id →
  list_tools t server cwd allowlist next_id timeout s = Returned (t', id', s', r) → is_u64 id'.
Proof.
  intros Hn. unfold list_tools. cbv zeta. destruct (page_loop _ _ _ _ _ _ _ _ _ _) as [[[[t1 n1] s1] r1]| |] eqn:E; [|done|done].
  intros [= _ <- _ _]. by eapply page_loop_u64.
Qed.

(** A tool list that may be dispatched to. *)
Definition tools_ok (server : string) (tools : list ImportedTool) : Prop :=
  Forall (import_ok server) tools ∧ NoDup (map (spec_name ∘ it_spec) tools).

Definition relist_post (a : McpToolAdapter) (allowlist : list string) (run : run (McpToolAdapter * result ToolListDiff McpError)) : Prop :=
  match run with
  | OutOfFuel => False
  | Panicked => ∃ line, line ∈ lines_in a.(ad_transport).(script) ∧ ¬ plain line
  | Returned (a', Err _) => steady a a' ∧ list_kept a a'
  | Returned (a', Ok diff) =>
      steady a a' ∧ a'.(protocol_pin) = a.(protocol_pin)
      ∧ tools_ok a.(ad_server_id) a'.(ad_tools) ∧ map it_raw_name a'.(ad_tools) = allowlist
      ∧ diff = diff_tool_snapshots (adapter_snapshot a) (adapter_snapshot a')
      ∧ (∀ pinned, a.(protocol_pin) = Some pinned → ∃ t, t.(script) `suffix_of` a.(ad_transport).(script) ∧ pin_confirmed t pinned)
      ∧ ∃ lines, (∀ line, line ∈ lines → line ∈ lines_in a.(ad_transport).(script))
          ∧ a'.(list_stale) = (0 <? signals lines)
          ∧ a'.(list_version) = Z.min (a.(list_version) + 1 + signals lines) u64_max
  end.

Lemma relist_end a a1 fresh lines : steady a a1 → a1.(list_version) = a.(list_version) → a1.(protocol_pin) = a.(protocol_pin) →
  match observe_all (with_list (with_transport a1 a1.(ad_transport) (Z.max a1.(ad_next_id) 2)) fresh (saturating_add64 a1.(list_version) 1) false) lines with
  | OutOfFuel => False
  | Panicked => ∃ line, line ∈ lines ∧ ¬ plain line
  | Returned a' => steady a a' ∧ a'.(protocol_pin) = a.(protocol_pin) ∧ a'.(ad_tools) = fresh ∧ a'.(list_stale) = (0 <? signals lines)
      ∧ a'.(list_version) = Z.min (a.(list_version) + 1 + signals lines) u64_max
  end.
Proof.
  intros Hs Hv Hpin. pose proof (st_sound _ _ Hs) as Ha1. set (b := with_list _ _ _ _).
  assert (steady a1 b) as Hb.
  { unfold b. eapply steady_trans with (with_transport a1 a1.(ad_transport) (Z.max a1.(ad_next_id) 2)).
    - apply steady_transport with [] []; [done|apply exchanged_refl|]; auto with runtime.
    - apply steady_list; [|simpl; apply saturating_add64_bounds; auto with runtime; done].
      destruct Ha1. constructor; simpl; auto with runtime. }
  assert (steady a b) as Hab by by eapply steady_trans.
  pose proof (observe_steady b lines (st_sound _ _ Hb)) as Ho. destruct (observe_all b lines) as [a'| |]; [|done|done].
  destruct Ho as [-> Ho]. split_and!; [by eapply steady_trans|done|done|done|].
  simpl. rewrite Hv. pose proof (signals_nonneg lines). unfold saturating_add64. lia.
Qed.

Lemma relist_spec a allowlist : sound a → relist_post a allowlist (relist a allowlist).
Proof.
  intros Ha. unfold relist. cbv zeta.
  pose proof (list_tools_sound (ad_transport a) (ad_server_id a) (mp_cwd (ad_params a)) allowlist (Z.max (ad_next_id a) 2)
    (mp_timeout_ms (ad_params a)) [] (so_peer _ Ha)) as Hl.
  destruct (list_tools _ _ _ _ _ _ _) as [[[[t1 n1] lines] fresh]| |] eqn:El; [|done|done].
  apply list_tools_u64 in El; [|auto with runtime]. destruct Hl as ((frames & Hf & _) & Hp & Hsuf & _ & (notes & Hn1 & Hn2) & Hfresh).
  simpl in Hn1. subst notes. rewrite Forall_forall in Hn2.
  assert (exchanged (ad_transport a) [] t1 lines) as He by (constructor; [done|done|by exists frames|auto]).
  assert (steady a (with_transport a t1 n1)) as Hs by by eapply steady_transport.
  assert (list_kept a (with_transport a t1 n1)) as Hk by by split_and!.
  destruct fresh as [fresh|e].
  2: { pose proof (observe_kept a _ lines Hs Hk) as Ho. destruct (observe_all _ _) as [a'| |]; [by destruct Ho as (? & ? & _)| |done].
       destruct Ho as (line & ? & ?). exists line. auto. }
  destruct (Hfresh fresh eq_refl) as (Hi1 & Hi2 & Hi3).
  pose proof (check_pin_spec _ lines (st_sound _ _ Hs)) as Hc. set (b := with_transport a t1 n1) in *.
  assert (∀ n, n ∈ lines ∨ n ∈ lines_in b.(ad_transport).(script) → n ∈ lines_in (ad_transport a).(script)) as Hin.
  { intros n [?|?]; [auto|]. by eapply lines_in_suffix. }
  destruct (check_pin b lines) as [[[a2 lines2] [u|e]]| |]; [|by destruct Hc as (? & ? & _); split; [eapply steady_trans|eapply list_kept_trans]| |done].
  2: { destruct Hc as (line & Hl & ?). exists line. auto. }
  destruct Hc as (Hs2 & Hk2 & Hv2 & Hn & Hpin). destruct Hk2 as (_ & Hp2 & _).
  pose proof (relist_end a a2 fresh lines2 (steady_trans _ _ _ Hs Hs2) Hv2 Hp2) as Hend.
  destruct (observe_all _ _) as [a'| |]; [|destruct Hend as (line & ? & ?); exists line; auto|done].
  destruct Hend as (E1 & E2 & E3 & E4 & E5). simpl. unfold tools_ok, adapter_snapshot. rewrite E3. split_and!; try done.
  - intros pinned Hpp. exists (ad_transport b). split; [done|]. by apply Hpin.
  - exists lines2. split_and!; auto.
Qed.


(** ** Histories *)

Inductive adapter_step : McpToolAdapter → McpToolAdapter → Prop :=
| StepExecute a tool args now allowed a' r : execute_narrowed a tool args now allowed = Returned (a', r) → adapter_step a a'
| StepRelist a allowlist a' r : relist a allowlist = Returned (a', r) → adapter_step a a'
| StepObserve a line a' b : observe_notification a line = Returned (a', b) → adapter_step a a'
| StepMark a : adapter_step a (mark_stale a)
| StepVerify a fresh : adapter_step a (verify_pin a fresh).1
| StepPin a pinned : adapter_step a (set_pinned a pinned).

(** A successful re-list. *)
Definition refreshed (a a' : McpToolAdapter) : Prop := ∃ allowlist diff, relist a allowlist = Returned (a', Ok diff).

Lemma execute_steady a tool args now allowed a' r : sound a → execute_narrowed a tool args now allowed = Returned (a', r) →
  steady a a' ∧ a'.(ad_tools) = a.(ad_tools) ∧ (a.(list_stale) = true → a'.(list_stale) = true).
Proof.
  intros Ha E. pose proof (execute_spec a tool args now allowed (so_version _ Ha) (so_peer _ Ha)) as H. rewrite E in H.
  destruct H as [(_ & -> & _)|(entry & t' & lines & _ & _ & _ & He & ->)]; [auto with runtime|].
  assert (steady a (with_transport a t' (Z.max (wrapping_add64 (call_id a) 1) 2))) as Hs.
  { eapply steady_transport; [done|exact He|]. auto with runtime. }
  split_and!; [eapply steady_trans; [exact Hs|]; apply steady_noting; by eapply st_sound|done|]. simpl. by intros ->.
Qed.

Lemma observe_notification_steady a line a' b : sound a → observe_notification a line = Returned (a', b) →
  steady a a' ∧ a'.(ad_tools) = a.(ad_tools) ∧ (a.(list_stale) = true → a'.(list_stale) = true).
Proof.
  intros Ha. unfold observe_notification. destruct (is_tools_list_changed_notification line) as [[]| |]; [..|done|done]; intros [= <- <-];
    auto with runtime.
Qed.

(** One step: the tools change, and staleness ends, only in a successful re-list. *)
Lemma step_spec a a' : sound a → adapter_step a a' →
  steady a a' ∧ ((a'.(ad_tools) = a.(ad_tools) ∧ (a.(list_stale) = true → a'.(list_stale) = true))
                 ∨ (refreshed a a' ∧ tools_ok a.(ad_server_id) a'.(ad_tools))).
Proof.
  intros Ha Hst. revert Ha. destruct Hst as [b tool args now allowed b' r E|b allowlist b' r E|b line b' o E|b|b fresh|b pinned]; intros Ha.
  - apply execute_steady in E as (? & ? & ?); auto.
  - pose proof (relist_spec b allowlist Ha) as H. rewrite E in H. destruct r as [diff|e].
    + destruct H as (? & _ & ? & _). split; [done|]. right. split; [by exists allowlist, diff|done].
    + destruct H as (? & ? & _ & ?). auto.
  - apply observe_notification_steady in E as (? & ? & ?); auto.
  - split; [auto with runtime|by left].
  - pose proof (verify_pin_cases b fresh Ha) as H. destruct (verify_pin b fresh) as [b' [u|e]].
    + destruct H as [-> _]. split; [auto with runtime|by left].
    + destruct H as (? & (? & _ & ?) & _). split; [done|by left].
  - split; [|by left]. destruct Ha. by constructor.
Qed.

(** C31: the adapter over any history of its operations.  From its construction on, the server,
    the authorizer, the consent ledger and the parameters stay what they were; ids and
    versions stay machine words and the version never falls; frames are only added.  At
    every point the tools are valid imports of this server under distinct names, the first
    ones or those of a successful re-list; and an adapter that was stale and is not has gone
    through a successful re-list in between. *)
Theorem adapter_history server tools t authorizer consent params a b c :
  peer_ok t → tools_ok server tools → adapter_new server tools t authorizer consent params = Ok a →
  rtc adapter_step a b → rtc adapter_step b c →
  steady a b ∧ steady b c ∧ c.(ad_authorizer) = authorizer ∧ c.(ad_consent) = consent ∧ c.(ad_params) = params
  ∧ tools_ok server c.(ad_tools)
  ∧ ((b.(list_stale) = true ∧ c.(list_stale) = false) ∨ c.(ad_tools) ≠ b.(ad_tools) →
       ∃ d d', rtc adapter_step b d ∧ refreshed d d' ∧ rtc adapter_step d' c).
Proof.
  intros Hp Ht Hnew Hab Hbc. assert (sound a ∧ a.(ad_server_id) = server ∧ a.(ad_tools) = tools ∧ a.(ad_authorizer) = authorizer
    ∧ a.(ad_consent) = consent ∧ a.(ad_params) = params) as (Ha & E1 & E2 & E3 & E4 & E5).
  { unfold adapter_new in Hnew. destruct (is_ok _); [|done]. destruct (negb _); [|done]. destruct tools; [done|]. simplify_eq/=.
    split_and!; try done. }
  assert (∀ x y, sound x → tools_ok server x.(ad_tools) → x.(ad_server_id) = server → rtc adapter_step x y →
    steady x y ∧ tools_ok server y.(ad_tools)
    ∧ ((x.(list_stale) = true ∧ y.(list_stale) = false) ∨ y.(ad_tools) ≠ x.(ad_tools) →
         ∃ d d', rtc adapter_step x d ∧ refreshed d d' ∧ rtc adapter_step d' y)) as Hrun.
  { clear -Ht. intros x y Hx Hxt Hxs. induction 1 as [x|x y z Hxy Hyz IH].
    - split_and!; [auto with runtime|done|]. intros [[? ?]|?]; congruence.
    - destruct (step_spec x y Hx Hxy) as [Hs Hc]. assert (y.(ad_server_id) = server) as Hys by by rewrite (st_server _ _ Hs).
      assert (tools_ok server y.(ad_tools)) as Hyt by (destruct Hc as [[-> _]|[_ Hc]]; [done|by rewrite <- Hxs]).
      destruct IH as (H1 & H2 & H3); [by eapply st_sound|done|done|]. split_and!; [by eapply steady_trans|done|]. intros Hd.
      destruct Hc as [[Et Est]|[Hr _]]; [|exists x, y; split_and!; [done|done|done]].
      destruct H3 as (d & d' & ? & ? & ?); [|exists d, d'; split_and!; [by eapply rtc_l|done|done]].
      destruct Hd as [[? ?]|?]; [left; auto|right; congruence]. }
  rewrite <- E2 in Ht. destruct (Hrun a b Ha Ht E1 Hab) as (H1 & H2 & _).
  destruct (Hrun b c (st_sound _ _ H1) H2) as (H3 & H4 & H5); [by rewrite (st_server _ _ H1)|done|].
  split_and!; try done.
  - by rewrite (st_auth _ _ H3), (st_auth _ _ H1).
  - by rewrite (st_consent _ _ H3), (st_consent _ _ H1).
  - by rewrite (st_params _ _ H3), (st_params _ _ H1).
Qed.
