(* ===== verification/McpDemo.v ===== *)
(** * McpDemo: the MCP client against concrete peers

    An adapter with one imported tool and a peer that pings, signals a change and answers,
    where the properties of the client apply; and the boundary cases of framing, of field
    extraction and of the staleness signals. *)

From S2P Require Import Prelude Text Order Wire Session Stream ToolTypes Consent ToolBus McpTypes McpFrame McpJson McpClient McpAdapter McpFacts McpAdapterFacts.

Local Open Scope Z_scope.
Local Open Scope rust_scope.

(** ** An adapter and a peer *)

Definition echo_raw : RawMcpTool := mkRawTool "echo" "Echo" (as_bytes (J "{'type':'object'}")).

Definition echo_import : ImportedTool :=
  match import_tool "demo" echo_raw with Ok tool => tool | Err _ => mkImported (mkToolSpec "" "" [] "" true None None) 0 "" "" end.

Definition demo_params : McpAdapterParams := mkParams "user.rick" (mkAuthBase 1 1 Inspect) "/tmp/bitty" 5000.

Definition ping_frame : string := J "{'jsonrpc':'2.0','id':7,'method':'ping'}".
Definition changed_frame : string := J "{'jsonrpc':'2.0','method':'notifications/tools/list_changed'}".
Definition hi_frame : string := J "{'jsonrpc':'2.0','id':2,'result':{'content':[{'type':'text','text':'hi'}]}}".

Definition demo_peer : Transport :=
  mkTransport 0 [RecvLine 1 ping_frame; RecvNone 1; RecvLine 1 changed_frame; RecvLine 1 hi_frame] [] [].

Definition demo_adapter (level : AgentLevel) (consent : ConsentDecision) (t : Transport) : McpToolAdapter :=
  mkAdapter "demo" [echo_import] t (λ _, AuthAllow) (λ _, consent) (mkParams "user.rick" (mkAuthBase 1 1 level) "/tmp/bitty" 5000) 2 0 false None.

Definition open_adapter : McpToolAdapter := demo_adapter Inspect ConsentAllow demo_peer.

Lemma demo_peer_ok : peer_ok demo_peer.
Proof. unfold peer_ok. simpl. repeat constructor; simpl; lia. Qed.

Lemma echo_tools_ok : tools_ok "demo" [echo_import].
Proof.
  assert (import_tool "demo" echo_raw = Ok echo_import) as H by by vm_compute. apply import_tool_ok in H as [H _].
  split; [by constructor|apply NoDup_singleton].
Qed.

Lemma demo_new : adapter_new "demo" [echo_import] demo_peer (λ _, AuthAllow) (λ _, ConsentAllow) demo_params = Ok open_adapter.
Proof. by vm_compute. Qed.

(** The adapter after the call: the ping was answered, the signal made the list stale. *)
Definition called_adapter : McpToolAdapter :=
  match execute open_adapter "mcp_demo_echo" [] 0 with Returned (a, _) => a | _ => open_adapter end.

Example call_through_adapter :
  match execute open_adapter "mcp_demo_echo" [] 0 with
  | Returned (a, Ok success) =>
      success.(success_data) = as_bytes "hi"
      ∧ a.(ad_transport).(sent) = [call_request 2 "echo" []; J "{'jsonrpc':'2.0','id':7,'result':{}}"]
      ∧ a.(list_stale) = true ∧ a.(list_version) = 1 ∧ a.(ad_next_id) = 3
  | _ => False
  end.
Proof. by vm_compute. Qed.

(** The next call is refused without contact. *)
Example stale_call_denied :
  execute called_adapter "mcp_demo_echo" [] 0 = Returned (called_adapter, Err (deny "mcp_demo_echo" "tool list stale; re-list required")).
Proof. by vm_compute. Qed.

(** ** Witnesses *)


Lemma ping_reply : reply_to "/tmp/bitty" ping_frame (J "{'jsonrpc':'2.0','id':7,'result':{}}").
Proof. exists "ping", "7", "7". split_and!; by vm_compute. Qed.

Lemma frames_single_line_witness :
  raw_lines (as_bytes (initialize_request 1) ++ [byte 10]) = [as_bytes (initialize_request 1) ++ [byte 10]].
Proof. apply (frames_single_line 1 None "echo" [] "/tmp/bitty" ping_frame _ ltac:(done) ping_reply). by left. Defined.

Lemma wait_exact_witness : ∃ r, wait_for_response demo_peer 2 "/tmp/bitty" 5000 5000 [] = Returned r.
Proof.
  pose proof (wait_exact demo_peer 2 "/tmp/bitty" 5000 5000 [] demo_peer_ok) as H.
  destruct (wait_for_response demo_peer 2 "/tmp/bitty" 5000 5000 []) as [r| |]; [by exists r| |done].
  exfalso. destruct H as (line & Hl & Hh). simpl in Hl. rewrite !elem_of_cons, elem_of_nil in Hl.
  destruct Hl as [->|[->|[->|[]]]]; by vm_compute in Hh.
Defined.

Lemma call_tool_exact_witness : call_post demo_peer 2 "echo" "mcp_demo_echo" [] "/tmp/bitty" 5000 [] (call_tool demo_peer 2 "echo" "mcp_demo_echo" [] "/tmp/bitty" 5000 []).
Proof. apply call_tool_exact. apply demo_peer_ok. Defined.


(** A pinned adapter whose peer lists one tool and confirms the pin. *)
Definition page_frame : string :=
  J "{'jsonrpc':'2.0','id':2,'result':{'tools':[{'name':'echo','description':'Echo','inputSchema':{'type':'string'}}]}}".
Definition hello_frame (shape : string) : string :=
  J "{'jsonrpc':'2.0','id':3,'result':{'protocolVersion':'" +:+ PROTOCOL_VERSION +:+ J "','capabilities':{'tools':" +:+ shape +:+ "}}}".

Definition pinned_adapter (shape : string) : McpToolAdapter :=
  set_pinned (demo_adapter Inspect ConsentAllow (mkTransport 0 [RecvLine 1 page_frame; RecvLine 1 (hello_frame shape)] [] []))
    (mkInitialize PROTOCOL_VERSION true BoolTrue).

Definition relisted : McpToolAdapter := match relist (pinned_adapter "true") ["echo"] with Returned (a, _) => a | _ => open_adapter end.

Example relist_confirms_pin :
  relist (pinned_adapter "true") ["echo"] = Returned (relisted, Ok (mkToolDiff [] [] ["mcp_demo_echo"]))
  ∧ relisted.(list_stale) = false ∧ relisted.(list_version) = 1
  ∧ relisted.(ad_transport).(sent) = [list_request 2 None; initialize_request 3].
Proof. by vm_compute. Qed.

(** A peer that now announces its tools differently: the fresh tools are discarded and the
    adapter goes stale. *)
Example relist_detects_drift :
  match relist (pinned_adapter "{}") ["echo"] with
  | Returned (a, Err e) => a.(ad_tools) = [echo_import] ∧ a.(list_stale) = true ∧ e.(failure) = CapabilityDrift "protocol pin mismatch"
  | _ => False
  end.
Proof. by vm_compute. Qed.

Lemma pinned_sound shape : sound (pinned_adapter shape).
Proof. constructor; [done..|]. unfold peer_ok. simpl. repeat constructor; simpl; lia. Qed.


Lemma called_step : rtc adapter_step open_adapter called_adapter.
Proof.
  apply rtc_once. destruct (execute open_adapter "mcp_demo_echo" [] 0) as [[a r]| |] eqn:E;
    [|exfalso; by vm_compute in E|exfalso; by vm_compute in E].
  unfold called_adapter. rewrite E. by eapply StepExecute.
Qed.

Lemma adapter_history_witness : tools_ok "demo" called_adapter.(ad_tools) ∧ steady open_adapter called_adapter.
Proof.
  destruct (adapter_history "demo" [echo_import] demo_peer (λ _, AuthAllow) (λ _, ConsentAllow) demo_params open_adapter called_adapter called_adapter
    demo_peer_ok echo_tools_ok demo_new called_step) as (H & _ & _ & _ & _ & Ht & _); [done|]. by split.
Defined.

(** ** Boundary cases *)

(** A refusal of the ledger: no frame, no change. *)
Example consent_refusal :
  match execute (demo_adapter Inspect (ConsentDeny "no") demo_peer) "mcp_demo_echo" [] 0 with
  | Returned (a, Err (ErrDenied name _)) => name = "mcp_demo_echo" ∧ a.(ad_transport) = demo_peer
  | _ => False
  end.
Proof. by vm_compute. Qed.

(** The bytes of a character of two bytes. *)
Definition e_acute : string := of_bytes [byte 195; byte 169].

(** A short escape before such a character: the slice of four digits ends inside it. *)
Definition broken_escape : string := J "{'id':2,'method':'" +:+ of_bytes [BACKSLASH; byte 117] +:+ "000" +:+ e_acute +:+ J "'}".

Example broken_escape_panics : is_str broken_escape ∧ wait_for_response (mkTransport 0 [RecvLine 1 broken_escape] [] []) 2 "/" 10 10 [] = Panicked.
Proof. split; by vm_compute. Qed.

(** A part whose text is no string, but a letter of two bytes. *)
Definition bare_letter : string := J "{'id':2,'result':{'content':[{'text':" +:+ e_acute +:+ "}]}}".
Example bare_letter_panics : is_str bare_letter ∧ hostile bare_letter = true ∧ parse_call_result bare_letter "t" = Panicked.
Proof. split_and!; by vm_compute. Qed.

(** A well-formed answer that panics: a string [text] before another with a colon. *)
Definition colon_text : string := J "{'id':2,'result':{'content':[{'type':'note','tags':['text','b: " +:+ e_acute +:+ J "']}]}}".
Example colon_text_panics : is_str colon_text ∧ parse_call_result colon_text "t" = Panicked.
Proof. split; by vm_compute. Qed.

(** The key [text] is looked for anywhere: here the type of a later part is read as text. *)
Example type_read_as_text :
  parse_call_result (J "{'id':2,'result':{'content':[{'text':'hi ','type':'text'},{'type':'image','data':'AA'}]}}") "t"
  = Returned (Ok (as_bytes "hi image", 8)).
Proof. by vm_compute. Qed.

(** A pair of surrogate escapes loses the whole string that holds it. *)
Example surrogates_lost :
  let u := of_bytes [BACKSLASH; byte 117] in
  parse_call_result (J "{'id':2,'result':{'content':[{'type':'text','text':'ok " +:+ u +:+ "d83d" +:+ u +:+ "de00" +:+ J "'}]}}") "t" = Returned (Ok ([], 0)).
Proof. by vm_compute. Qed.

(** Fields are found at any depth.  A structured result with a [method] is taken for a request
    of the server and answered, and one with an [error] object turns a success into a
    rejection before execution. *)
Example nested_method_is_request :
  let line := J "{'jsonrpc':'2.0','id':2,'result':{'structuredContent':{'method':'GET'}}}" in
  has_method line = Returned true ∧ handle_server_request line "/" = Returned (Some (refusal_frame "2" UNKNOWN_METHOD_MESSAGE)).
Proof. by vm_compute. Qed.

Example nested_error_is_rejection :
  parse_call_result (J "{'jsonrpc':'2.0','id':2,'result':{'structuredContent':{'error':{'code':-32601,'message':'m'}}}}") "t"
  = Returned (Err (CallProtocolRejected "t" (-32601) "m")).
Proof. by vm_compute. Qed.

(** Ids are echoed in another type: a string of digits as a number, a negative number as a
    string. *)
Example id_types_change :
  handle_server_request (J "{'id':'5','method':'ping'}") "/" = Returned (Some (J "{'jsonrpc':'2.0','id':5,'result':{}}"))
  ∧ handle_server_request (J "{'id':-1,'method':'ping'}") "/" = Returned (Some (J "{'jsonrpc':'2.0','id':'-1','result':{}}")).
Proof. by vm_compute. Qed.

(** Arguments are written as they are: a line break in them ends the frame, and what follows
    is a frame of its own; a member in them overrides the name of the tool. *)
Definition smuggled : bytes := as_bytes "{}}}" ++ [byte 10] ++ as_bytes (J "{'jsonrpc':'2.0','id':9,'method':'tools/call','params':{'name':'evil','arguments':{}").

Example arguments_smuggle_a_call :
  raw_lines (as_bytes (call_request 2 "echo" smuggled) ++ [byte 10])
  = [as_bytes (call_request 2 "echo" (as_bytes "{}")) ++ [byte 10]; as_bytes (call_request 9 "evil" []) ++ [byte 10]].
Proof. by vm_compute. Qed.

Example arguments_rename_the_tool :
  call_request 2 "echo" (as_bytes (J "{},'name':'evil'")) =
  J "{'jsonrpc':'2.0','id':2,'method':'tools/call','params':{'name':'echo','arguments':{},'name':'evil'}}".
Proof. by vm_compute. Qed.

(** A frame of exactly [MAX_FRAME_BYTES] is within the limit of [check_frame_len]; with the line
    break counted it is refused, and reported with its length equal to the limit. *)
Definition full_frame : bytes := byte 123 :: List.repeat (byte 32) (Z.to_nat (MAX_FRAME_BYTES - 2)) ++ [byte 125].

Example full_frame_refused :
  check_frame_len (len full_frame) = Ok tt
  ∧ match next_line (mkBuf [] [RdData (full_frame ++ [byte 10])]) stats_new with
    | Returned (_, _, Err e) => e.(failure) = McpFrameTooLarge MAX_FRAME_BYTES MAX_FRAME_BYTES
    | _ => False
    end.
Proof. split; by vm_compute. Qed.

(** Past [MAX_SURFACED_FRAMES] notifications of any kind a signal is dropped, and the list stays
    fresh. *)
Definition progress_frame : string := J "{'jsonrpc':'2.0','method':'notifications/progress'}".

Example late_signal_lost :
  match execute (demo_adapter Inspect ConsentAllow
                   (mkTransport 0 (List.repeat (RecvLine 1 progress_frame) 16 ++ [RecvLine 1 changed_frame; RecvLine 1 hi_frame]) [] []))
          "mcp_demo_echo" [] 0 with
  | Returned (a, Ok _) => a.(list_stale) = false
  | _ => False
  end.
Proof. by vm_compute. Qed.
